(* ===== verification/_CoqProject ===== *)
-Q . S2P
Prelude.v
GoNum.v
GoString.v
GoTime.v
Telemetry.v
Workflow.v
WorkflowProps.v
Accessors.v
Machine.v
BranchSteps.v
MachineFacts.v
MachineProps.v
Json.v
Store.v
Externals.v
Effects.v
PostgresLaws.v
StoreFacts.v
Sql.v
Schema.v
SchemaFacts.v
StoreProps.v
Security.v
Timer.v
Worker.v
Engine.v
Calm.v
Validator.v
ValidatorProps.v
ExecutorProps.v
Lifecycle.v
LifecycleProps.v
Acyclic.v
Evolves.v
Concurrency.v
Framed.v
EngineSafe.v
RunLogic.v
TimerProps.v
EngineProps.v
Api.v
ScriptRun.v
LinearRun.v
ScheduleRun.v
SagaRun.v
TimerRun.v
Structured.v
Follows.v
System.v
Refinement.v
SchemaProps.v
AccessProps.v
Config.v
Main.v
