(* ===== verification/Prelude.v ===== *)
(** * AetherFlow: a verification library for the durable workflow engine

    AetherFlow runs user-defined workflows durably: a definition is a list of steps
    (HTTP request, transform, delay, condition, fork, join), an instance of it is a row
    of PostgreSQL that holds the whole run-time state, and Redis carries the tasks
    ("advance instance i") and the expiry notifications of timers.  Any number of
    processes, each with several consumer goroutines, a recovery loop, a timer service
    and an HTTP API, work on the same database.

    ** Parts of the program and where they are modelled (paths under src/aetherflow)

    - the language and its library: [Prelude] (panics, maps, slices, errors), [GoNum]
      (int64 and float64), [GoString], [GoTime] (durations, RFC 3339);
    - internal/workflow/types.go, definitions and run-time state: [Workflow], the
      back-off theorems in [WorkflowProps];
    - internal/engine/machine.go, the state machine: [Machine] (configuration readers in
      [Accessors]); [BranchSteps] (which steps a fork owns, as reachability),
      [MachineFacts] (the lemmas), [MachineProps] (the theorems);
    - internal/store, rows and SQL statements: [Json] (what encoding a state into a JSONB
      column and decoding it gives back), [Store] (each method of postgres.go as a
      function on the tables), [PostgresLaws] (these satisfy the interface the engine is
      verified against), [StoreFacts] (sequences of calls), [StoreProps];
    - migrations/*.sql and the SQL text of postgres.go: [Sql] (schemas, constraints and
      statements on tables up to the order of their rows), [Schema] (the migrations and the
      statements), [SchemaFacts], [SchemaProps] (the methods of [Store] are these statements);
    - code that is called and not part of the repository: [Externals];
    - calls, faults and the world: [Effects]; [RunLogic] and [Framed] reason about one
      program, [Concurrency] about any number of interleaved ones;
    - internal/security/http.go: [Security];  internal/timer/timer.go: [Timer] and
      [TimerProps];  internal/worker/worker.go: [Worker], what steps return: [ExecutorProps];
      internal/engine/engine.go: [Engine];  internal/dsl/validator.go: [Validator] and
      [ValidatorProps];  internal/api (auth.go and handlers.go): [Api] and, with the HTTP
      step, [AccessProps];
    - internal/config/config.go and the wiring of cmd/api/main.go: [Config];
      internal/telemetry: [Telemetry];  the process of cmd/api/main.go: [Main];
    - the abstract specification of an instance, a transition relation on what matters of
      its row: [Lifecycle] ([life]), what holds of every lifecycle: [LifecycleProps], of
      those of workflows without forks: [Acyclic], and with structured forks: [Follows];
    - the specification of the engine's writes: [Evolves], of which [life] is a part; that
      the engine implements it: [EngineSafe]; what one execution does: [EngineProps]; whole
      systems: [System]; that they refine the lifecycle: [Refinement];
    - end-to-end runs without faults: [Calm] (the logic), [ScriptRun] (workflows whose
      order of steps is known), [LinearRun], [ScheduleRun] (the schedule that the machine
      computes), [SagaRun], [TimerRun], [Structured] (validated workflows have a schedule).

    ** How the code is modelled

    A pure function of the source is a function of the same name.  A function that
    mutates a structure through a pointer takes and returns it, in the monad [go] where a
    write to a nil map or an index out of range could panic.  Code that talks to the
    outside is a [prog]: a tree of atomic calls [eff] (repository methods, Redis
    commands, clock, fresh UUIDs, the order of a [range] over a map, DNS, HTTP) with what
    follows each answer.  [Effects.handle] gives each call its meaning on a [World] (a
    repository and a Redis server) under a [choice] of everything the program does not
    control, among them three faults: the call fails before or after its effect, or the
    process dies there.  The repository is known to the programs only through the class
    [Repository] (the interface of store.go); [RepositoryLaws] states what the engine
    relies on, and [PostgresLaws] proves it of the tables.  The system is
    [Concurrency.pool_step]: a pool of goroutines over one world, one call at a time,
    in any order, with faults, crashes and new goroutines; [System.goroutine] lists the
    goroutines of the program.

    Integers are kept at their width where the code can leave it (the back-off, durations,
    float conversions, parsed numbers); attempt counters, versions and list lengths are
    [Z] and [nat] without a bound: the database refuses a version out of range, which is
    one of the faults.  A [time.Time] is its distance from the zero time in nanoseconds,
    and the database keeps microseconds ([pg_time], from the class [PgClock]).  Maps are
    [gmap]s; where the order of iteration matters the order [o] is an argument, and the
    theorems hold for every order.

    ** What the theorems show

    - System, for every interleaving, fault and crash: no goroutine panics; versions
      never go back and a version determines the row, so no update is lost; a finished
      instance is frozen; an instance that compensates never completes and only shortens
      its queue; completed steps, attempt counters and idempotency keys are durable.
    - Refinement: between any two points of any such run an instance moves by steps of
      [life], the machine being that of the definition stored for it.  So in every row of
      every run at most one step runs and it is the current one, a waiting step is the
      current step of a waiting instance, a completed instance is at rest, only steps that
      were started are compensated.  Lifecycles are never stuck ([life_progress]).  Those of
      validated workflows whose forks are structured, whatever their conditions answer,
      follow a schedule, in every run ([instances_follow_schedule]): each step completes once
      and in order, the forks are those of the schedule, and once a step has failed what is
      undone is exactly what is due; so they complete at most as many steps as there are
      ([forked_workflow_terminates]), and a join comes only after every step of every branch
      ([join_barrier_persisted], which says of all other workflows only that the states of a
      fork and of its branches agree: with nested forks the join can come too early).
      [Structured.structured] says what structured means: with the answers given, each branch
      is a chain of steps up to the join, branches are disjoint and hold no forks, normal
      steps refer to normal steps; [branching_forked] shows it of a workflow with a condition
      inside of a branch.
    - Runs from the API call to the end, when no call to the database or Redis fails
      ([Calm.exec], total correctness): a workflow whose scheduled steps all return their
      results, linear or with forks and conditions, completes with exactly the steps of the
      schedule that the machine computes alone, each once and in order, and every validated
      workflow with structured forks has such a schedule; one whose step fails for good, in a
      branch or not, and whose due compensations succeed, runs them in order and ends as
      failed; one in which a step waits (a delay or a retry) and then succeeds is resumed by
      the timer service and completes; in a stated number of iterations and leaving no task
      behind.
    - Executor: the output of a successful step has the fields and types of its step type,
      and the successor it names is one of the references of the step.
    - Engine, one execution with arbitrary faults: an instance that is handed on has a
      task or a timer; a task is acknowledged only when it is done with or the instance is
      busy; failures follow the retry policy; a waiting instance is not executed early;
      recovery enqueues every recoverable instance.
    - Timer service, with arbitrary faults: a timer leaves the table only to become a task
      unless an error is reported.
    - Machine: the barrier as an invariant, the order in which a fork's branches run, what
      follows each step, the linear path as a reachability property, the order of the
      compensations, independence from the iteration order of maps.
    - Store: exclusive updates and leases, takeover of expired leases, timers claimed once
      and none missed, which instances recovery lists, the round trip of a state and of the
      history, isolation of tenants; each writing method leaves the tables that its SQL
      statement leaves (what it writes being encodable as JSON) and returns the timers that
      the statement returns, and in every run the tables obey the schema of the migrations.
    - Validator: it always ends; what it accepts is well formed, without a cycle among the
      normal steps; its cycle search is exact and works on the path that the machine runs.
    - Back-off: bounds and monotonicity for every multiplier and architecture.
    - Access: the addresses refused, the limits on every request sent, those of redirects
      included, and on the bodies received, the roles of the routes, isolation of tenants through the API;
      configuration: every environment gives a usable system.
    - Process: whatever the outside answers, [Main.run] closes what it opened, in reverse
      order, though without waiting for its goroutines ([closed_under_goroutines]); it starts
      goroutines only after every check, and what they execute are
      goroutines of [System], so the theorems on systems are about this process; it ends
      without error exactly after a signal and an orderly shutdown ([clean_exit]).
    - Behaviour the authors would not want, as theorems: nested forks skip a branch
      ([MachineProps]), a cycle inside a fork branch or through a compensation is accepted ([ValidatorProps]), a
      delay used as a compensation never completes ([EngineProps]), a task can be lost
      between enqueue and release until the recovery loop finds the instance ([System]),
      a huge retry interval overflows ([WorkflowProps]), an unknown role is an
      administrator, unusable keys switch authentication off, and with the largest size
      limit every HTTP response looks empty ([AccessProps]); a failed call after a claim of
      due timers loses their tasks until the recovery loop ([TimerProps]).

    ** Fuel and bounds

    The branch collection and the cycle search recurse over graphs that may be cyclic;
    their fuel is the number of steps plus one, and [collectBranchStep_total] and
    [validateAcyclic_exact] prove that it is never used up.  Rendering a template
    recurses on a value with its depth as fuel ([Framed.framed_render]); a duration text
    is parsed with its length as fuel.  The endless loops of the goroutines ([consume],
    [recoveryLoop], the timer's [Run]) run for [n] iterations or a list of events, and
    the theorems hold for all of them; [ScheduleRun],
    [SagaRun] and [TimerRun] say how many iterations are enough.  A schedule has the number
    of steps plus one as fuel, more than an orderly one can use.  The HTTP client follows
    redirects with five rounds as fuel, since the policy refuses a sixth request
    ([Framed.framed_client_do]).

    ** What is not modelled

    Logging and the request logger; the metrics are modelled ([Telemetry]), but that the
    engine records them and opens tracing spans is left out of its programs, since nothing
    depends on them.  The gin router's matching of paths: a request arrives as one of the
    routes; its JSON binding is the parameter [Api.Binding].  What the HTTP servers do
    between their start and their end, and what the goroutines that [run] does not wait for
    meet when it closes the pool and Redis under them (for the database that is a crash).
    The expression language, text/template, net/url, JSON texts of HTTP bodies and the
    formatting of arbitrary values are parameters ([Externals]) without assumed laws; so are
    joining a redirect's location to its URL and the headers that net/http passes on.  The
    HTTP client looks a host up again after the destination check did, and connects to what
    it finds then: the model checks the first look-up.  Each method of postgres.go is one SQL
    statement, modelled as atomic; the range of its INTEGER columns is left to the faults,
    and indexes that are not unique constrain nothing.

    ** Further work

    In this order: schedules of those nested forks that the machine runs as meant; the
    executor's template and path resolution; the text form of API keys. *)

From Stdlib Require Export ZArith Lia.
From stdpp Require Export base tactics option list gmap fin_maps strings pretty.

#[export] Set Default Goal Selector "!".

Create HintDb go_num.
Create HintDb go_db.

(** ** Partial computations

    A Go statement that writes to a nil map or indexes a slice out of range
    panics.  [go A] is the result of a computation that may panic. *)
Inductive go (A : Type) : Type :=
| Done (a : A)
| GoPanic.
Arguments Done {A} _.
Arguments GoPanic {A}.

#[export] Instance go_ret : MRet go := fun A a => Done a.
#[export] Instance go_bind : MBind go := fun A B f m =>
  match m with Done a => f a | GoPanic => GoPanic end.
#[export] Instance go_fmap : FMap go := fun A B f m =>
  match m with Done a => Done (f a) | GoPanic => GoPanic end.

(** ** Go maps

    A Go map is either nil or a finite map.  Reading a nil map yields the zero
    value, writing to it panics. *)
Abbreviation gomap V := (option (gmap string V)).

Definition gm_get {V} (m : gomap V) (k : string) : option V := m ≫= (.!! k).

Definition gm_set {V} (m : gomap V) (k : string) (v : V) : go (gomap V) :=
  match m with
  | Some m => Done (Some (<[k := v]> m))
  | None => GoPanic
  end.

(** ** Go slices: an index out of range panics. *)
Definition go_index {A} (l : list A) (i : nat) : go A :=
  match l !! i with Some a => Done a | None => GoPanic end.

Definition go_set_index {A} (l : list A) (i : nat) (a : A) : go (list A) :=
  if decide (i < length l) then Done (<[i := a]> l) else GoPanic.

(** ** Go error values

    An [error] is a text, a wrapped error ([fmt.Errorf] with [%w], whose text is
    the context, a colon and the text of the cause), a sentinel compared by
    [errors.Is], or the executor's typed error [WaitingTimerError]. *)
Inductive goerr : Type :=
| ErrText (text : string)
| ErrWrap (context : string) (cause : goerr)
| ErrSentinel (text : string)
| ErrWaitingTimer (fireAt : Z).

Fixpoint err_text (e : goerr) : string :=
  match e with
  | ErrText t => t
  | ErrWrap c e => c +:+ ": " +:+ err_text e
  | ErrSentinel t => t
  | ErrWaitingTimer _ => "waiting for durable timer"
  end.

(** [errors.Is(e, sentinel)]: unwraps until the sentinel is found. *)
Fixpoint err_is (e : goerr) (sentinel : string) : bool :=
  match e with
  | ErrSentinel t => bool_decide (t = sentinel)
  | ErrWrap _ e => err_is e sentinel
  | ErrText _ | ErrWaitingTimer _ => false
  end.

(** A Go function returning [(A, error)] where the value is only used without error. *)
Inductive res (A : Type) : Type :=
| Ok (a : A)
| Err (e : goerr).
Arguments Ok {A} _.
Arguments Err {A} _.

#[export] Instance res_ret : MRet res := fun A a => Ok a.
#[export] Instance res_bind : MBind res := fun A B f m =>
  match m with Ok a => f a | Err e => Err e end.

Definition is_ok {A} (r : res A) : bool := match r with Ok _ => true | Err _ => false end.

(** [fmt.Errorf("ctx: %w", err)] on the error of a result. *)
Definition wrap_err {A} (ctx : string) (r : res A) : res A :=
  match r with Ok a => Ok a | Err e => Err (ErrWrap ctx e) end.

(** First occurrences only: the first copy of each element of a list. *)
Fixpoint nub_from (seen l : list string) : list string :=
  match l with
  | [] => []
  | x :: l =>
      if decide (x ∈ seen) then nub_from seen l
      else x :: nub_from (x :: seen) l
  end.

Definition nub (l : list string) : list string := nub_from [] l.

(** ** The order of a [range] loop over a map

    Go leaves the order of a [range] over a map unspecified.  [range_order o m]
    lists the entries of [m] with the keys of [o] first, in the order of [o]; as
    [o] varies, every enumeration of [m] is obtained ([range_order_complete]). *)
Definition range_order {V} (o : list string) (m : gmap string V) : list (string * V) :=
  let ks := nub o in
  omap (fun k => (k,.) <$> m !! k) ks ++
  filter (fun kv => kv.1 ∉ ks) (map_to_list m).

(** ** Generic lemmas *)

Lemma go_bind_done {A B} (m : go A) (f : A → go B) b :
  (m ≫= f) = Done b ↔ ∃ a, m = Done a ∧ f a = Done b.
Proof. destruct m; naive_solver. Qed.

Lemma gm_set_some {V} (m : gmap string V) k v : gm_set (Some m) k v = Done (Some (<[k:=v]> m)).
Proof. done. Qed.

Lemma go_set_index_lt {A} (l : list A) i a :
  i < length l → go_set_index l i a = Done (<[i:=a]> l).
Proof. intros. unfold go_set_index. by rewrite decide_True. Qed.

Lemma go_index_some {A} (l : list A) i a : l !! i = Some a → go_index l i = Done a.
Proof. unfold go_index. by intros ->. Qed.

Lemma elem_of_nub_from seen l x : x ∈ nub_from seen l ↔ x ∈ l ∧ x ∉ seen.
Proof.
  revert seen. induction l as [|y l IH]; intros seen; simpl; [set_solver|].
  case_decide; [rewrite IH; set_solver|].
  rewrite elem_of_cons, IH. destruct (decide (x = y)); set_solver.
Qed.

Lemma elem_of_nub l x : x ∈ nub l ↔ x ∈ l.
Proof. unfold nub. rewrite elem_of_nub_from. set_solver. Qed.

Lemma NoDup_nub_from seen l : NoDup (nub_from seen l).
Proof.
  revert seen. induction l as [|y l IH]; intros seen; simpl; [constructor|].
  case_decide; [done|]. constructor; [|done].
  rewrite elem_of_nub_from. set_solver.
Qed.

Lemma NoDup_nub l : NoDup (nub l).
Proof. apply NoDup_nub_from. Qed.

(** A list without duplicates is its own list of first occurrences. *)
Lemma nub_from_id seen l : NoDup l → (∀ x, x ∈ l → x ∉ seen) → nub_from seen l = l.
Proof.
  intros Hnd. revert seen. induction Hnd as [|x l Hx Hnd IH]; intros seen Hs; [done|].
  simpl. rewrite decide_False by set_solver. f_equal. apply IH. set_solver.
Qed.

Lemma filter_none_nil {A} (P : A → Prop) `{!∀ x, Decision (P x)} (l : list A) :
  (∀ x, x ∈ l → ¬ P x) → filter P l = [].
Proof.
  induction l as [|x l IH]; intros Hn; [done|].
  rewrite filter_cons_False by set_solver. apply IH. set_solver.
Qed.

Lemma omap_self {V} (m : gmap string V) (l : list (string * V)) :
  (∀ k v, (k, v) ∈ l → m !! k = Some v) → omap (λ k, (k,.) <$> m !! k) l.*1 = l.
Proof.
  induction l as [|[k v] l IH]; intros Hl; [done|]. simpl.
  rewrite (Hl k v) by set_solver. simpl. f_equal. apply IH. set_solver.
Qed.

Section range_order.
Context {V : Type}.
Implicit Types (m : gmap string V) (o : list string).

Lemma elem_of_range_order o m k v : (k, v) ∈ range_order o m ↔ m !! k = Some v.
Proof.
  unfold range_order. rewrite elem_of_app, list_elem_of_omap, list_elem_of_filter.
  rewrite elem_of_map_to_list. simpl. split.
  - intros [(k' & _ & (v' & ? & [= -> ->])%fmap_Some)|[_ ?]]; done.
  - intros Hk. destruct (decide (k ∈ nub o)); [|by right].
    left. exists k. by rewrite Hk.
Qed.

Lemma range_order_keys o m :
  (range_order o m).*1 =
  (filter (fun k => is_Some (m !! k)) (nub o) ++
  filter (fun k => k ∉ nub o) (map_to_list m).*1).
Proof.
  unfold range_order. rewrite fmap_app. f_equal.
  - induction (nub o) as [|k l IH]; [done|]. rewrite filter_cons; simpl.
    destruct (m !! k) eqn:Hk; simpl; [by f_equal|done].
  - induction (map_to_list m) as [|[k v] l IH]; [done|]. simpl.
    rewrite !filter_cons; simpl. case_decide; simpl; by f_equal.
Qed.

Lemma range_order_NoDup_keys o m : NoDup (range_order o m).*1.
Proof.
  rewrite range_order_keys. apply NoDup_app. split_and!.
  - apply NoDup_filter, NoDup_nub.
  - intros k. rewrite !list_elem_of_filter. naive_solver.
  - apply NoDup_filter, NoDup_fst_map_to_list.
Qed.

Lemma range_order_perm o m : range_order o m ≡ₚ map_to_list m.
Proof.
  apply NoDup_Permutation.
  - apply (NoDup_fmap_1 fst), range_order_NoDup_keys.
  - apply NoDup_map_to_list.
  - intros [k v]. by rewrite elem_of_range_order, elem_of_map_to_list.
Qed.

(** Every enumeration of the map is the order of some [o]. *)
Lemma range_order_complete m l : l ≡ₚ map_to_list m → range_order l.*1 m = l.
Proof.
  intros Hp.
  assert (Hnd : NoDup l.*1) by (rewrite Hp; apply NoDup_fst_map_to_list).
  assert (Hin : ∀ k v, (k, v) ∈ l ↔ m !! k = Some v).
  { intros k v. by rewrite Hp, elem_of_map_to_list. }
  unfold range_order. unfold nub; rewrite nub_from_id by set_solver.
  rewrite (filter_none_nil _ (map_to_list m)).
  - rewrite app_nil_r. apply omap_self. intros k v ?. by apply Hin.
  - intros [k v] Hkv%elem_of_map_to_list. simpl.
    intros []. apply list_elem_of_fmap. exists (k, v). by rewrite Hin.
Qed.

Lemma range_order_empty o : range_order o (∅ : gmap string V) = [].
Proof. apply Permutation_nil. symmetry. by rewrite range_order_perm, map_to_list_empty. Qed.
End range_order.
