(* ===== verification/GoNum.v ===== *)
(** * Machine numbers of the Go code

    64-bit integers are [Z] with an explicit wrap-around, [float64] is the
    binary64 format of the Standard Library's [SpecFloat] (precision 53,
    exponent bound 1024, rounding to nearest even), so that every float
    computation of the code is evaluated exactly as the hardware rounds it. *)

From Stdlib Require Import Floats.SpecFloat.
From S2P Require Import Prelude.

#[local] Open Scope Z_scope.

Definition int64_min : Z := - 2 ^ 63.
Definition int64_max : Z := 2 ^ 63 - 1.
Definition is_int64 (z : Z) : Prop := int64_min ≤ z ≤ int64_max.

(** Two's complement wrap-around of [int64] and [uint64] arithmetic. *)
Definition wrap64 (z : Z) : Z := (z + 2 ^ 63) mod 2 ^ 64 - 2 ^ 63.
Definition wrapu64 (z : Z) : Z := z mod 2 ^ 64.

(** ** float64 *)
Abbreviation float64 := spec_float.

Definition f64_mul : float64 → float64 → float64 := SFmul 53 1024.
Definition f64_div : float64 → float64 → float64 := SFdiv 53 1024.
Definition f64_leb : float64 → float64 → bool := SFleb.
Definition f64_ltb : float64 → float64 → bool := SFltb.

(** Conversion of an integer, and of the dyadic [m * 2^e], rounding to nearest even. *)
Definition f64_of_Z (z : Z) : float64 := binary_normalize 53 1024 z 0 false.
Definition f64_of_dyadic (m e : Z) : float64 := binary_normalize 53 1024 m e false.

(** The integer part of a finite float (truncation towards zero). *)
Definition f64_trunc (f : float64) : option Z :=
  match f with
  | S754_zero _ => Some 0
  | S754_finite s m e =>
      let a := if decide (0 ≤ e) then Zpos m * 2 ^ e else Zpos m / 2 ^ (- e) in
      Some (if s then - a else a)
  | S754_infinity _ | S754_nan => None
  end.

Definition f64_finite (f : float64) : bool :=
  match f with S754_infinity _ | S754_nan => false | _ => true end.

(** The Go specification leaves the conversion of a float to an integer type
    implementation-dependent when the value is not representable: an architecture
    gives the result ([math.MinInt64] on amd64, a saturated value on arm64). *)
Class GoArch := {
  f2i_overflow : float64 → Z;
  f2i_overflow_int64 : ∀ f, is_int64 (f2i_overflow f);
}.

Definition f64_to_int64 `{GoArch} (f : float64) : Z :=
  match f64_trunc f with
  | Some z => if decide (int64_min ≤ z ∧ z ≤ int64_max) then z else f2i_overflow f
  | None => f2i_overflow f
  end.

#[global, program] Instance amd64 : GoArch := {| f2i_overflow _ := int64_min |}.
Next Obligation. intros. unfold is_int64, int64_min, int64_max. lia. Qed.

(** A saturating architecture (arm64). *)
#[program] Definition arm64 : GoArch :=
  {| f2i_overflow f := match f with
       | S754_nan => 0
       | S754_finite s _ _ | S754_infinity s => if s then int64_min else int64_max
       | S754_zero _ => 0 end |}.
Next Obligation. intros [[]|[]| |[] ? ?]; unfold is_int64, int64_min, int64_max; lia. Qed.

(** ** Lemmas *)

Lemma wrap64_small z : is_int64 z → wrap64 z = z.
Proof.
  unfold is_int64, int64_min, int64_max, wrap64. intros.
  rewrite Z.mod_small; lia.
Qed.

Lemma wrap64_int64 z : is_int64 (wrap64 z).
Proof.
  unfold is_int64, int64_min, int64_max, wrap64.
  pose proof (Z.mod_pos_bound (z + 2 ^ 63) (2 ^ 64)). lia.
Qed.

Lemma f64_to_int64_int64 `{GoArch} f : is_int64 (f64_to_int64 f).
Proof.
  unfold f64_to_int64. destruct (f64_trunc f); [|apply f2i_overflow_int64].
  case_decide; [done|apply f2i_overflow_int64].
Qed.

#[export] Hint Resolve wrap64_int64 f64_to_int64_int64 : go_num.
