(* ===== verification/GoString.v ===== *)
(** * Byte strings of the Go code

    A Go string is a sequence of bytes, a Rocq [string] of [ascii].  This file
    holds the functions of the Go packages [strings], [strconv] and [time] that
    the source uses on them. *)

From Stdlib Require Import Ascii String.
From S2P Require Import Prelude.


Definition quote_char : ascii := "034".
Definition backslash : ascii := "092".

Definition byte_in (lo hi : nat) (c : ascii) : bool :=
  Nat.leb lo (nat_of_ascii c) && Nat.leb (nat_of_ascii c) hi.
Definition is_digit : ascii → bool := byte_in 48 57.

Definition str1 (c : ascii) : string := String c EmptyString.

Fixpoint string_rev_app (s acc : string) : string :=
  match s with
  | EmptyString => acc
  | String c s => string_rev_app s (String c acc)
  end.
Definition string_rev (s : string) : string := string_rev_app s EmptyString.

(** [strings.HasPrefix], and the rest of the string after the prefix. *)
Fixpoint strip_prefix (pre s : string) : option string :=
  match pre, s with
  | EmptyString, _ => Some s
  | String p pre, String c s => if decide (p = c) then strip_prefix pre s else None
  | String _ _, EmptyString => None
  end.
Definition has_prefix (s pre : string) : bool := bool_decide (is_Some (strip_prefix pre s)).
Definition trim_prefix (s pre : string) : string := default s (strip_prefix pre s).

(** [strings.Split(s, sep)] for a separator of one byte: never the empty list. *)
Fixpoint split_byte (sep : ascii) (s : string) : list string :=
  match s with
  | EmptyString => [EmptyString]
  | String c s =>
      if decide (c = sep) then EmptyString :: split_byte sep s
      else match split_byte sep s with
           | [] => [str1 c]
           | w :: ws => String c w :: ws
           end
  end.

(** [strings.Cut(s, sep)] for a separator of one byte. *)
Fixpoint cut_byte (sep : ascii) (s : string) : option (string * string) :=
  match s with
  | EmptyString => None
  | String c s =>
      if decide (c = sep) then Some (EmptyString, s)
      else (fun '(a, b) => (String c a, b)) <$> cut_byte sep s
  end.

(** ** [strings.TrimSpace]

    The white space of [unicode.IsSpace]: six ASCII bytes, U+0085 and U+00A0 (two
    bytes in UTF-8), and U+1680, U+2000-200A, U+2028, U+2029, U+202F, U+205F,
    U+3000 (three bytes). *)
Definition space1 (c : ascii) : bool := byte_in 9 13 c || bool_decide (c = " "%char).
Definition space2 (c d : ascii) : bool :=
  byte_in 194 194 c && (byte_in 133 133 d || byte_in 160 160 d).
Definition space3 (c d e : ascii) : bool :=
  (byte_in 225 225 c && byte_in 154 154 d && byte_in 128 128 e)
  || (byte_in 226 226 c && byte_in 128 128 d
      && (byte_in 128 138 e || byte_in 168 169 e || byte_in 175 175 e))
  || (byte_in 226 226 c && byte_in 129 129 d && byte_in 159 159 e)
  || (byte_in 227 227 c && byte_in 128 128 d && byte_in 128 128 e).

Fixpoint trim_left (s : string) : string :=
  match s with
  | EmptyString => EmptyString
  | String c s1 =>
      if space1 c then trim_left s1
      else match s1 with
           | EmptyString => s
           | String d s2 =>
               if space2 c d then trim_left s2
               else match s2 with
                    | EmptyString => s
                    | String e s3 => if space3 c d e then trim_left s3 else s
                    end
           end
  end.

(** The same on a reversed string: the last rune comes first, its bytes reversed. *)
Fixpoint trim_left_rev (s : string) : string :=
  match s with
  | EmptyString => EmptyString
  | String c s1 =>
      if space1 c then trim_left_rev s1
      else match s1 with
           | EmptyString => s
           | String d s2 =>
               if space2 d c then trim_left_rev s2
               else match s2 with
                    | EmptyString => s
                    | String e s3 => if space3 e d c then trim_left_rev s3 else s
                    end
           end
  end.

Definition trim_right (s : string) : string := string_rev (trim_left_rev (string_rev s)).
Definition trim_space (s : string) : string := trim_right (trim_left s).

(** ** Quoting *)
Definition hex_digit (n : nat) : ascii :=
  ascii_of_nat (if Nat.ltb n 10 then 48 + n else 87 + n).
Definition hex_escape (c : ascii) (rest : string) : string :=
  let n := nat_of_ascii c in
  String backslash (String "x" (String (hex_digit (n / 16)) (String (hex_digit (n mod 16)) rest))).

Definition in_quotes (s : string) : string :=
  String quote_char (s +:+ str1 quote_char).

(** [time.quote], used in the errors of [time.ParseDuration]. *)
Fixpoint time_quote_body (s : string) : string :=
  match s with
  | EmptyString => EmptyString
  | String c s =>
      let rest := time_quote_body s in
      if byte_in 32 127 c
      then if decide (c = quote_char ∨ c = backslash)
           then String backslash (String c rest) else String c rest
      else hex_escape c rest
  end.
Definition time_quote (s : string) : string := in_quotes (time_quote_body s).

(** [%q] ([strconv.Quote]) on text whose non-ASCII characters are printable. *)
Definition letter_escape (c : ascii) : option ascii :=
  match nat_of_ascii c with
  | 7 => Some "a"%char | 8 => Some "b"%char | 9 => Some "t"%char | 10 => Some "n"%char
  | 11 => Some "v"%char | 12 => Some "f"%char | 13 => Some "r"%char | _ => None
  end.
Fixpoint go_quote_body (s : string) : string :=
  match s with
  | EmptyString => EmptyString
  | String c s =>
      let rest := go_quote_body s in
      if decide (c = quote_char ∨ c = backslash) then String backslash (String c rest)
      else match letter_escape c with
           | Some l => String backslash (String l rest)
           | None => if byte_in 0 31 c || byte_in 127 127 c then hex_escape c rest
                     else String c rest
           end
  end.
Definition go_quote (s : string) : string := in_quotes (go_quote_body s).

(** ** Decimal digits *)
Definition dec (z : Z) : string := pretty z.

Fixpoint pad_left (n : nat) (c : ascii) (s : string) : string :=
  if Nat.leb n (String.length s) then s
  else match n with O => s | S n' => String c (pad_left n' c s) end.

(** A nonnegative integer in at least [n] digits. *)
Definition dec_pad (n : nat) (z : Z) : string := pad_left n "0" (dec z).
