(* ===== verification/GoTime.v ===== *)
(** * Times and durations

    A [time.Duration] is an int64 number of nanoseconds.  A [time.Time] (always
    UTC in this program) is the number of nanoseconds since the zero Time,
    January 1 of year 1.  [parse_duration] and [format_rfc3339nano] follow the
    Go package [time]. *)

From Stdlib Require Import Ascii.
From S2P Require Import Prelude GoNum GoString.

#[local] Open Scope Z_scope.

Abbreviation duration := Z.
Abbreviation time := Z.

Definition Nanosecond : duration := 1.
Definition Microsecond : duration := 1000.
Definition Millisecond : duration := 1000 * Microsecond.
Definition Second : duration := 1000 * Millisecond.
Definition Minute : duration := 60 * Second.
Definition Hour : duration := 60 * Minute.

Definition time_is_zero (t : time) : bool := bool_decide (t = 0).
(** [t.Add(d)] and [t.Sub(u)]; the difference saturates to an int64. *)
Definition time_add (t : time) (d : duration) : time := t + d.
Definition time_sub (t u : time) : duration := Z.max int64_min (Z.min int64_max (t - u)).
Definition time_after (t u : time) : bool := u <? t.

(** ** [time.ParseDuration] *)

(** Consumes [0-9]*: the value, the rest and the number of bytes; [None] on overflow. *)
Fixpoint leading_int (x : Z) (n : nat) (s : string) : option (Z * string * nat) :=
  match s with
  | String c s' =>
      if is_digit c then
        if decide (2 ^ 63 / 10 < x) then None
        else let x' := wrapu64 (x * 10 + (Z.of_nat (nat_of_ascii c) - 48)) in
             if decide (2 ^ 63 < x') then None else leading_int x' (S n) s'
      else Some (x, s, n)
  | EmptyString => Some (x, s, n)
  end.

(** Consumes the digits after the point: value, scale and rest; digits that would
    overflow are skipped. *)
Fixpoint leading_fraction (x : Z) (scale : float64) (overflow : bool) (n : nat) (s : string)
    : Z * float64 * string * nat :=
  match s with
  | String c s' =>
      if is_digit c then
        if overflow then leading_fraction x scale true (S n) s'
        else if decide ((2 ^ 63 - 1) / 10 < x) then leading_fraction x scale true (S n) s'
        else let y := wrapu64 (x * 10 + (Z.of_nat (nat_of_ascii c) - 48)) in
             if decide (2 ^ 63 < y) then leading_fraction x scale true (S n) s'
             else leading_fraction y (f64_mul scale (f64_of_Z 10)) false (S n) s'
      else (x, scale, s, n)
  | EmptyString => (x, scale, s, n)
  end.

(** The unit name: the bytes up to the next point or digit. *)
Fixpoint take_unit (s : string) : string * string :=
  match s with
  | String c s' =>
      if is_digit c || bool_decide (c = "."%char) then (EmptyString, s)
      else let '(u, r) := take_unit s' in (String c u, r)
  | EmptyString => (EmptyString, EmptyString)
  end.

(** Micro sign U+00B5 and Greek mu U+03BC in UTF-8. *)
Definition micro_s : string := String "194" (String "181" "s").
Definition mu_s : string := String "206" (String "188" "s").

Definition unit_map (u : string) : option Z :=
  if decide (u = "ns") then Some Nanosecond
  else if decide (u = "us" ∨ u = micro_s ∨ u = mu_s) then Some Microsecond
  else if decide (u = "ms") then Some Millisecond
  else if decide (u = "s") then Some Second
  else if decide (u = "m") then Some Minute
  else if decide (u = "h") then Some Hour
  else None.

Definition dur_err {A} (what orig : string) : res A :=
  Err (ErrText ("time: " +:+ what +:+ " " +:+ time_quote orig)).

(** One number with its unit: the uint64 nanoseconds and the rest of the text. *)
Definition parse_component (orig s : string) : res (Z * string) :=
  match s with
  | String c _ =>
      if negb (is_digit c || bool_decide (c = "."%char)) then dur_err "invalid duration" orig
      else match leading_int 0 0 s with
      | None => dur_err "invalid duration" orig
      | Some (v, s, pre) =>
          let '(f, scale, s, post) :=
            match s with
            | String "." s' => leading_fraction 0 (f64_of_Z 1) false 0 s'
            | _ => (0, f64_of_Z 1, s, O)
            end in
          if decide (pre = O ∧ post = O) then dur_err "invalid duration" orig
          else let '(u, s) := take_unit s in
          if decide (u = EmptyString) then dur_err "missing unit in duration" orig
          else match unit_map u with
          | None => Err (ErrText ("time: unknown unit " +:+ time_quote u +:+ " in duration " +:+ time_quote orig))
          | Some unit =>
              if decide (2 ^ 63 / unit < v) then dur_err "invalid duration" orig
              else let v := v * unit in
              if decide (0 < f) then
                let frac := default 0 (f64_trunc (f64_mul (f64_of_Z f) (f64_div (f64_of_Z unit) scale))) in
                let v := wrapu64 (v + frac) in
                if decide (2 ^ 63 < v) then dur_err "invalid duration" orig else Ok (v, s)
              else Ok (v, s)
          end
      end
  | EmptyString => Ok (0, EmptyString)
  end.

(** The loop over the components; each consumes at least one byte, so the length of
    the text is enough fuel. *)
Fixpoint parse_components (fuel : nat) (orig s : string) (d : Z) : res Z :=
  match s with
  | EmptyString => Ok d
  | _ =>
      match fuel with
      | O => dur_err "invalid duration" orig
      | S fuel =>
          '(v, s) ← parse_component orig s;
          let d := wrapu64 (d + v) in
          if decide (2 ^ 63 < d) then dur_err "invalid duration" orig
          else parse_components fuel orig s d
      end
  end.

Definition parse_duration (orig : string) : res duration :=
  let '(neg, s) :=
    match orig with
    | String "-" s => (true, s)
    | String "+" s => (false, s)
    | _ => (false, orig)
    end in
  if decide (s = "0") then Ok 0
  else if decide (s = EmptyString) then dur_err "invalid duration" orig
  else d ← parse_components (String.length s) orig s 0;
       if neg : bool then Ok (wrap64 (- d))
       else if decide (2 ^ 63 - 1 < d) then dur_err "invalid duration" orig
       else Ok d.

(** ** [Format(time.RFC3339Nano)] *)

(** The proleptic Gregorian date of a day number (0 is January 1 of year 1). *)
Definition civil (days : Z) : Z * Z * Z :=
  let z := days + 306 in
  let era := z / 146097 in
  let doe := z mod 146097 in
  let yoe := (doe - doe / 1460 + doe / 36524 - doe / 146096) / 365 in
  let doy := doe - (365 * yoe + yoe / 4 - yoe / 100) in
  let mp := (5 * doy + 2) / 153 in
  let d := doy - (153 * mp + 2) / 5 + 1 in
  let m := if mp <? 10 then mp + 3 else mp - 9 in
  (yoe + era * 400 + (if m <=? 2 then 1 else 0), m, d).

(** Nine digits of a fraction without its trailing zeros, with its point. *)
Fixpoint strip_zeros_rev (s : string) : string :=
  match s with String "0" s => strip_zeros_rev s | _ => s end.
Definition frac_text (ns : Z) : string :=
  if decide (ns = 0) then ""
  else "." +:+ string_rev (strip_zeros_rev (string_rev (dec_pad 9 ns))).

Definition format_rfc3339nano (t : time) : string :=
  let secs := t / Second in
  let '(y, m, d) := civil (secs / 86400) in
  let sod := secs mod 86400 in
  dec_pad 4 y +:+ "-" +:+ dec_pad 2 m +:+ "-" +:+ dec_pad 2 d +:+ "T" +:+
  dec_pad 2 (sod / 3600) +:+ ":" +:+ dec_pad 2 (sod / 60 mod 60) +:+ ":" +:+
  dec_pad 2 (sod mod 60) +:+ frac_text (t mod Second) +:+ "Z".

(** [Duration.String]: [u / 10^p] in decimal with the fraction of [p] digits. *)
Definition decimal_text (p : nat) (u : Z) : string :=
  let unit_ := 10 ^ Z.of_nat p in
  dec (u / unit_) +:+
  (if decide (u mod unit_ = 0) then ""
   else "." +:+ string_rev (strip_zeros_rev (string_rev (dec_pad p (u mod unit_))))).

Definition duration_text (d : duration) : string :=
  let u := Z.abs d in
  (if d <? 0 then "-" else "") +:+
  if decide (u = 0) then "0s"
  else if decide (u < Microsecond) then dec u +:+ "ns"
  else if decide (u < Millisecond) then decimal_text 3 u +:+ micro_s
  else if decide (u < Second) then decimal_text 6 u +:+ "ms"
  else
    let mins := u / Minute in
    (if decide (60 <= mins) then dec (mins / 60) +:+ "h" else "") +:+
    (if decide (1 <= mins) then dec (mins mod 60) +:+ "m" else "") +:+
    decimal_text 9 (u mod Minute) +:+ "s".

(** January 1, 1970. *)
Definition unix_epoch : time := 719162 * 86400 * Second.

(** ** Lemmas *)

Lemma parse_components_step fuel orig c s d :
  parse_components (S fuel) orig (String c s) d =
  match parse_component orig (String c s) with
  | Ok (v, r) =>
      if decide (2 ^ 63 < wrapu64 (d + v)) then dur_err "invalid duration" orig
      else parse_components fuel orig r (wrapu64 (d + v))
  | Err e => Err e
  end.
Proof. cbn [parse_components]. by destruct (parse_component orig (String c s)) as [[v r]|e]. Qed.

Lemma parse_components_range fuel orig s d d' :
  0 ≤ d ≤ 2 ^ 63 → parse_components fuel orig s d = Ok d' → 0 ≤ d' ≤ 2 ^ 63.
Proof.
  revert s d. induction fuel as [|fuel IH]; intros [|c s] d Hd.
  - intros [= <-]. done.
  - discriminate.
  - intros [= <-]. done.
  - rewrite parse_components_step.
    destruct (parse_component orig (String c s)) as [[v r]|e]; [|congruence].
    case_decide; [discriminate|]. apply IH. unfold wrapu64 in *.
    pose proof (Z.mod_pos_bound (d + v) (2 ^ 64)). lia.
Qed.

(** A parsed duration fits in an int64. *)
Lemma parse_duration_int64 s d : parse_duration s = Ok d → is_int64 d.
Proof.
  unfold parse_duration, is_int64.
  destruct (match s with String "-" _ => _ | _ => _ end) as [neg r].
  case_decide; [intros [= <-]; unfold int64_min, int64_max; lia|].
  case_decide; [unfold dur_err; congruence|].
  destruct (parse_components _ _ _ _) as [x|e] eqn:Hp; simpl; [|congruence].
  apply parse_components_range in Hp; [|lia]. destruct neg.
  - intros [= <-]. apply wrap64_int64.
  - case_decide; [unfold dur_err; congruence|]. intros [= <-].
    unfold int64_min, int64_max. lia.
Qed.
