(* ===== verification/Telemetry.v ===== *)
(** * internal/telemetry/telemetry.go: metrics and tracing

    The Prometheus and OpenTelemetry libraries are arguments: what registering a
    collector and opening an exporter answer.  Recording is a list of samples, and
    [WithLabelValues] panics when the number of labels is not the declared one, as the
    documentation of the library says. *)

From Stdlib Require Import Floats.SpecFloat.
From S2P Require Import Prelude GoNum GoTime.

#[local] Open Scope Z_scope.

(** The kind, name, help text and label names of a collector. *)
Inductive collector_kind := CounterVec | HistogramVec | Histogram.
Record collector := mkCollector {
  co_kind : collector_kind;
  co_name : string;
  co_help : string;
  co_labels : list string;
}.

(** ** Metrics *)

Record Metrics := mkMetrics {
  workflowInstances : collector;
  stepDuration : collector;
  instanceDuration : collector;
}.

(** What [prometheus.Register] answers. *)
Inductive registration := Registered | AlreadyRegistered | RegisterError (e : goerr).

(** One sample: the collector, the label values and the observed value ([None] for [Inc]). *)
Record sample := mkSample { sm_of : collector; sm_labels : list string; sm_value : option float64 }.

(** A collector that is registered already is not an error; any other error panics. *)
Definition register (answer : collector → registration) (c : collector) : go () :=
  match answer c with
  | Registered => mret ()
  | AlreadyRegistered => mret ()
  | RegisterError _ => GoPanic
  end.

Definition new_metrics : Metrics :=
  mkMetrics
    (mkCollector CounterVec "workflow_instances_total"
       "Total workflow instances by terminal or transition status." ["status"])
    (mkCollector HistogramVec "step_execution_duration_seconds"
       "Step execution duration in seconds." ["step_type"; "status"])
    (mkCollector Histogram "workflow_instance_duration_seconds"
       "Workflow instance duration in seconds." []).

Definition NewMetrics (answer : collector → registration) : go Metrics :=
  let metrics := new_metrics in
  _ ← register answer (workflowInstances metrics);
  _ ← register answer (stepDuration metrics);
  _ ← register answer (instanceDuration metrics);
  mret metrics.

(** [time.Duration.Seconds] *)
Definition seconds (d : duration) : float64 :=
  SFadd 53 1024 (f64_of_Z (Z.quot d Second)) (f64_div (f64_of_Z (Z.rem d Second)) (f64_of_Z 1000000000)).

(** [WithLabelValues(...)] followed by [Inc] or [Observe]. *)
Definition record_sample (c : collector) (labels : list string) (v : option float64) : go (list sample) :=
  if decide (length labels = length (co_labels c)) then mret [mkSample c labels v] else GoPanic.

(** The receiver may be nil. *)
Definition IncInstance (m : option Metrics) (status : string) : go (list sample) :=
  match m with
  | None => mret []
  | Some m => record_sample (workflowInstances m) [status] None
  end.

Definition ObserveStep (m : option Metrics) (stepType status : string) (d : duration) : go (list sample) :=
  match m with
  | None => mret []
  | Some m => record_sample (stepDuration m) [stepType; status] (Some (seconds d))
  end.

Definition ObserveInstance (m : option Metrics) (d : duration) : go (list sample) :=
  match m with
  | None => mret []
  | Some m => mret [mkSample (instanceDuration m) [] (Some (seconds d))]
  end.

(** ** Tracing *)

(** The function that [InitTracing] returns for the shutdown. *)
Inductive trace_shutdown := NoTracing | ProviderShutdown.

(** [exporter]: what opening the exporter for an endpoint answers. *)
Definition InitTracing (exporter : string → res ()) (endpoint : string) : res trace_shutdown :=
  if decide (endpoint = "") then Ok NoTracing
  else match exporter endpoint with
       | Err e => Err (ErrWrap "create otlp trace exporter" e)
       | Ok _ => Ok ProviderShutdown
       end.

(** ** Properties *)

(** The metrics are built exactly when no collector is refused: that one of them is
    registered already, because they were built before, is no error. *)
Definition refused (r : registration) : bool := match r with RegisterError _ => true | _ => false end.
Definition any_refused (answer : collector → registration) : bool :=
  refused (answer (workflowInstances new_metrics)) || refused (answer (stepDuration new_metrics)) ||
  refused (answer (instanceDuration new_metrics)).

Lemma register_refused answer c : register answer c = if refused (answer c) then GoPanic else Done ().
Proof. unfold register. by destruct (answer c). Qed.

Lemma NewMetrics_spec answer : NewMetrics answer = if any_refused answer then GoPanic else Done new_metrics.
Proof.
  unfold NewMetrics, any_refused. cbv zeta. rewrite !register_refused.
  by destruct (refused (answer (workflowInstances new_metrics))), (refused (answer (stepDuration new_metrics))),
    (refused (answer (instanceDuration new_metrics))).
Qed.

(** No use of the metrics panics, with the metrics that [NewMetrics] returns and without. *)
Lemma metrics_never_panic answer om status type d :
  om = None ∨ (∃ m, om = Some m ∧ NewMetrics answer = Done m) →
  IncInstance om status ≠ GoPanic ∧ ObserveStep om type status d ≠ GoPanic ∧ ObserveInstance om d ≠ GoPanic.
Proof.
  intros [->|(m & -> & Hm)]; [done|]. rewrite NewMetrics_spec in Hm.
  destruct (any_refused answer); [done|]. by injection Hm as <-.
Qed.

(** One and a half seconds. *)
Example seconds_example : seconds (1500 * Millisecond) = f64_div (f64_of_Z 3) (f64_of_Z 2).
Proof. vm_compute. reflexivity. Qed.
