(* ===== verification/Workflow.v ===== *)
(** * internal/workflow/types.go: definitions, steps and run-time state

    The data of a workflow: the definition written by the user ([DefinitionDSL],
    [Step], [RetryPolicy]), the durable state of an instance ([RuntimeState],
    [StepState], [ForkState], [BranchState]) and their operations.  Values of type
    [any] are [value].  Slices are lists (nil and empty slices are not
    distinguished, no code of the program can tell them apart but through the JSON
    text null or []); maps that the code tests against nil or writes to are
    [gomap]. *)

From S2P Require Import Prelude GoNum GoString GoTime.


(** ** Step types and statuses *)
Definition StepHTTPRequest : string := "http_request".
Definition StepTransform : string := "transform".
Definition StepDelay : string := "delay".
Definition StepCondition : string := "condition".
Definition StepFork : string := "fork".
Definition StepJoin : string := "join".

Definition InstancePending : string := "pending".
Definition InstanceRunning : string := "running".
Definition InstanceWaitingTimer : string := "waiting_timer".
Definition InstanceCompensating : string := "compensating".
Definition InstanceCompleted : string := "completed".
Definition InstanceFailed : string := "failed".

Definition StepRunning : string := "running".
Definition StepWaitingTimer : string := "waiting_timer".
Definition StepCompleted : string := "completed".
Definition StepFailed : string := "failed".
Definition StepSkipped : string := "skipped".

(** ** Fork state *)
Record BranchState := mkBranch {
  bs_StartStepID : string;
  bs_CurrentStepID : string;
  bs_Status : string;
  bs_Completed : list string;
  bs_Error : string;
}.

Record ForkState := mkFork {
  fs_Status : string;
  fs_JoinStepID : string;
  fs_Branches : list BranchState;
}.

#[export] Instance BranchState_eq_dec : EqDecision BranchState.
Proof. solve_decision. Defined.
#[export] Instance ForkState_eq_dec : EqDecision ForkState.
Proof. solve_decision. Defined.

(** ** Values of type [any]

    What the program stores in an [any]: JSON values (numbers are float64),
    integers ([attempt], [status_code]), string slices, maps (possibly nil) and the
    fork map exposed to expressions. *)
Inductive value : Type :=
| VNil
| VBool (b : bool)
| VInt (z : Z)
| VFloat (f : float64)
| VStr (s : string)
| VStrs (l : list string)
| VArr (l : list value)
| VObj (m : gomap value)
| VForks (m : gomap ForkState).

(** A non-nil map literal. *)
Definition obj_map (kvs : list (string * value)) : gomap value := Some (list_to_map kvs).

(** ** Definitions *)
Record RetryPolicy := mkRetry {
  rp_MaxRetries : Z;
  rp_InitialInterval : string;
  rp_MaxInterval : string;
  rp_Multiplier : float64;
}.

Record Step := mkStep {
  step_ID : string;
  step_Type : string;
  step_Config : gomap value;
  step_Retry : option RetryPolicy;
  step_OnFailure : string;
}.

Record DefinitionDSL := mkDSL {
  dsl_Name : string;
  dsl_Version : Z;
  dsl_Steps : list Step;
}.

(** ** Run-time state *)
Record StepState := mkStepState {
  ss_Status : string;
  ss_Body : value;
  ss_Output : gomap value;
  ss_Error : string;
  ss_Attempt : Z;
  ss_IdempotencyKey : string;
  ss_WaitingTime : option time;
}.

(** The zero StepState, read from a map that has no entry. *)
Definition zeroStepState : StepState := mkStepState "" VNil None "" 0 "" None.
Definition zeroForkState : ForkState := mkFork "" "" [].

Record RuntimeState := mkRuntime {
  rs_Steps : gomap StepState;
  rs_Completed : list string;
  rs_CompensationQueue : list string;
  rs_Forks : gomap ForkState;
  rs_StartedAt : time;
}.

Definition with_Steps (s : RuntimeState) m :=
  mkRuntime m (rs_Completed s) (rs_CompensationQueue s) (rs_Forks s) (rs_StartedAt s).
Definition with_Completed (s : RuntimeState) l :=
  mkRuntime (rs_Steps s) l (rs_CompensationQueue s) (rs_Forks s) (rs_StartedAt s).
Definition with_CompensationQueue (s : RuntimeState) q :=
  mkRuntime (rs_Steps s) (rs_Completed s) q (rs_Forks s) (rs_StartedAt s).
Definition with_Forks (s : RuntimeState) m :=
  mkRuntime (rs_Steps s) (rs_Completed s) (rs_CompensationQueue s) m (rs_StartedAt s).
Definition with_StartedAt (s : RuntimeState) t :=
  mkRuntime (rs_Steps s) (rs_Completed s) (rs_CompensationQueue s) (rs_Forks s) t.

(** [state.Steps[id]]: the zero value when absent. *)
Definition step_state (s : RuntimeState) (id : string) : StepState :=
  default zeroStepState (gm_get (rs_Steps s) id).

Definition NewRuntimeState : RuntimeState := mkRuntime (Some ∅) [] [] None 0.

Definition Normalize (s : RuntimeState) : RuntimeState :=
  match rs_Steps s with
  | None => with_Steps s (Some ∅)
  | Some _ => s
  end.

Definition HasCompleted (s : RuntimeState) (stepID : string) : bool :=
  existsb (fun id => bool_decide (id = stepID)) (rs_Completed s).

(** [state.Steps[id] = st]; panics on a nil map. *)
Definition set_step (s : RuntimeState) (id : string) (st : StepState) : go RuntimeState :=
  m ← gm_set (rs_Steps s) id st; mret (with_Steps s m).

Definition with_Status (st : StepState) (status : string) : StepState :=
  mkStepState status (ss_Body st) (ss_Output st) (ss_Error st) (ss_Attempt st)
    (ss_IdempotencyKey st) (ss_WaitingTime st).

Definition MarkCompleted (s : RuntimeState) (stepID : string) (result : StepState) : go RuntimeState :=
  let s := Normalize s in
  s ← set_step s stepID (with_Status result StepCompleted);
  mret (if negb (HasCompleted s stepID)
        then with_Completed s (rs_Completed s ++ [stepID]) else s).

Definition StepByID (d : DefinitionDSL) (id : string) : option Step :=
  snd <$> list_find (fun step => step_ID step = id) (dsl_Steps d).

Definition CompensationRefs (d : DefinitionDSL) : gset string :=
  foldl (fun refs step =>
    if decide (step_OnFailure step ≠ "") then {[step_OnFailure step]} ∪ refs else refs)
    ∅ (dsl_Steps d).

(** ** Retry back-off *)
Definition InitialBackoff (r : RetryPolicy) : duration :=
  if decide (rp_InitialInterval r = "") then Second
  else match parse_duration (rp_InitialInterval r) with
       | Ok d => if decide (d ≤ 0)%Z then Second else d
       | Err _ => Second
       end.

Definition MaxBackoff (r : RetryPolicy) : duration :=
  if decide (rp_MaxInterval r = "") then (30 * Second)%Z
  else match parse_duration (rp_MaxInterval r) with
       | Ok d => if decide (d ≤ 0)%Z then (30 * Second)%Z else d
       | Err _ => (30 * Second)%Z
       end.

(** One iteration of the loop: [float64(backoff) * multiplier], doubled in int64
    arithmetic when the product is not larger. *)
Definition backoff_next `{GoArch} (multiplier : float64) (backoff : duration) : duration :=
  let next := f64_to_int64 (f64_mul (f64_of_Z backoff) multiplier) in
  if decide (next ≤ backoff)%Z then wrap64 (backoff * 2) else next.

(** The loop [for i := 1; i < attempt; i++], [n] iterations left; returns early
    once the maximum is reached. *)
Fixpoint backoff_loop `{GoArch} (multiplier : float64) (max : duration) (n : nat) (backoff : duration) : duration :=
  match n with
  | O => if decide (max < backoff)%Z then max else backoff
  | S n =>
      let backoff := backoff_next multiplier backoff in
      if decide (max ≤ backoff)%Z then max else backoff_loop multiplier max n backoff
  end.

Definition effective_multiplier (r : RetryPolicy) : float64 :=
  if f64_leb (rp_Multiplier r) (f64_of_Z 1) then f64_of_Z 2 else rp_Multiplier r.

Definition Backoff `{GoArch} (r : RetryPolicy) (attempt : Z) : duration :=
  let attempt := if decide (attempt < 1)%Z then 1%Z else attempt in
  backoff_loop (effective_multiplier r) (MaxBackoff r) (Z.to_nat (attempt - 1)) (InitialBackoff r).

(** ** Lemmas on the run-time state *)

Lemma Normalize_idemp s : Normalize (Normalize s) = Normalize s.
Proof. by destruct s as [[]]. Qed.

Lemma Normalize_Forks s : rs_Forks (Normalize s) = rs_Forks s.
Proof. by destruct s as [[]]. Qed.

Lemma Normalize_Completed s : rs_Completed (Normalize s) = rs_Completed s.
Proof. by destruct s as [[]]. Qed.

Lemma Normalize_Queue s : rs_CompensationQueue (Normalize s) = rs_CompensationQueue s.
Proof. by destruct s as [[]]. Qed.

Lemma Normalize_StartedAt s : rs_StartedAt (Normalize s) = rs_StartedAt s.
Proof. by destruct s as [[]]. Qed.

Lemma Normalize_step_state s id : step_state (Normalize s) id = step_state s id.
Proof. destruct s as [[]]; [done|]. unfold step_state, gm_get. simpl. by rewrite lookup_empty. Qed.

Lemma Normalize_Steps_get s id : gm_get (rs_Steps (Normalize s)) id = gm_get (rs_Steps s) id.
Proof. destruct s as [[]]; [done|]. unfold gm_get. simpl. by rewrite lookup_empty. Qed.

Lemma Normalize_Steps s : ∃ m, rs_Steps (Normalize s) = Some m.
Proof. destruct s as [[]]; simpl; eauto. Qed.

Lemma Normalize_nonnil s m : rs_Steps s = Some m → Normalize s = s.
Proof. destruct s as [[]]; [done|discriminate]. Qed.

Lemma set_step_nonnil s m id st :
  rs_Steps s = Some m → set_step s id st = Done (with_Steps s (Some (<[id:=st]> m))).
Proof. unfold set_step. by intros ->. Qed.

Lemma step_state_insert s m id st id' :
  step_state (with_Steps s (Some (<[id:=st]> m))) id' =
  if decide (id = id') then st else default zeroStepState (m !! id').
Proof. unfold step_state, gm_get; simpl. rewrite lookup_insert. by case_decide. Qed.

Lemma HasCompleted_spec s id : HasCompleted s id = true ↔ id ∈ rs_Completed s.
Proof.
  unfold HasCompleted. rewrite existsb_exists. setoid_rewrite bool_decide_eq_true.
  setoid_rewrite <- list_elem_of_In. naive_solver.
Qed.

(** [MarkCompleted] never panics, whatever the state. *)
Lemma MarkCompleted_done s id st :
  ∃ m, rs_Steps (Normalize s) = Some m ∧
  MarkCompleted s id st = Done
    (let s' := with_Steps (Normalize s) (Some (<[id := with_Status st StepCompleted]> m)) in
     if decide (id ∈ rs_Completed s) then s'
     else with_Completed s' (rs_Completed s ++ [id])).
Proof.
  destruct (Normalize_Steps s) as [m Hm]. exists m. split; [done|].
  unfold MarkCompleted. rewrite (set_step_nonnil _ _ _ _ Hm). unfold mbind, go_bind, mret, go_ret.
  f_equal. set (s' := with_Steps _ _). cbv zeta.
  assert (Hc : rs_Completed s' = rs_Completed s) by apply Normalize_Completed.
  rewrite Hc. pose proof (HasCompleted_spec s' id) as Hiff. rewrite Hc in Hiff.
  destruct (HasCompleted s' id); case_decide; naive_solver.
Qed.

Lemma StepByID_Some d id step :
  StepByID d id = Some step → step ∈ dsl_Steps d ∧ step_ID step = id.
Proof.
  unfold StepByID. intros ([i s] & (Hl & Hid & _)%list_find_Some & ->)%fmap_Some.
  split; [by eapply list_elem_of_lookup_2|done].
Qed.

Lemma StepByID_None d id : StepByID d id = None ↔ ∀ step, step ∈ dsl_Steps d → step_ID step ≠ id.
Proof.
  unfold StepByID. rewrite fmap_None, list_find_None, Forall_forall. done.
Qed.

Lemma StepByID_is_Some d id : is_Some (StepByID d id) ↔ id ∈ step_ID <$> dsl_Steps d.
Proof.
  rewrite list_elem_of_fmap. split.
  - intros [step (Hin & Hid)%StepByID_Some]. eauto.
  - intros (step & -> & Hin). apply not_eq_None_Some. rewrite StepByID_None. naive_solver.
Qed.

Lemma elem_of_CompensationRefs d id :
  id ∈ CompensationRefs d ↔ id ≠ "" ∧ ∃ step, step ∈ dsl_Steps d ∧ step_OnFailure step = id.
Proof.
  unfold CompensationRefs.
  assert (∀ acc : gset string, id ∈ foldl (λ refs step,
    if decide (step_OnFailure step ≠ "") then {[step_OnFailure step]} ∪ refs else refs) acc (dsl_Steps d)
    ↔ id ∈ acc ∨ (id ≠ "" ∧ ∃ step, step ∈ dsl_Steps d ∧ step_OnFailure step = id)) as ->;
    [|set_solver].
  induction (dsl_Steps d) as [|s l IH]; intros acc; simpl; [set_solver|].
  rewrite IH. setoid_rewrite elem_of_cons. case_decide; set_solver.
Qed.

(** ** Lemmas on the back-off *)

Section backoff.
Context `{GoArch}.
#[local] Open Scope Z_scope.

Lemma InitialBackoff_pos r : 0 < InitialBackoff r.
Proof.
  unfold InitialBackoff, Second, Millisecond, Microsecond.
  case_decide; [lia|]. destruct (parse_duration _); [case_decide|]; lia.
Qed.

Lemma MaxBackoff_pos r : 0 < MaxBackoff r.
Proof.
  unfold MaxBackoff, Second, Millisecond, Microsecond.
  case_decide; [lia|]. destruct (parse_duration _); [case_decide|]; lia.
Qed.

Lemma backoff_next_gt m b : 0 < b < 2 ^ 62 → b < backoff_next m b.
Proof.
  intros Hb. unfold backoff_next. case_decide; [|lia].
  rewrite wrap64_small; [lia|]. unfold is_int64, int64_min, int64_max. lia.
Qed.

Lemma backoff_loop_le m max n b : backoff_loop m max n b ≤ max.
Proof. revert b. induction n as [|n IH]; intros b; simpl; case_decide; [lia..|done]. Qed.

Lemma backoff_loop_pos m max n b :
  0 < max ≤ 2 ^ 62 → 0 < b < 2 ^ 62 → 0 < backoff_loop m max n b.
Proof.
  intros Hmax. revert b. induction n as [|n IH]; intros b Hb; simpl; case_decide; [lia..|].
  pose proof (backoff_next_gt m b Hb). apply IH. lia.
Qed.

Lemma backoff_loop_S m max n b :
  0 < max ≤ 2 ^ 62 → 0 < b < 2 ^ 62 →
  backoff_loop m max n b ≤ backoff_loop m max (S n) b.
Proof.
  intros Hmax. revert b. induction n as [|n IH]; intros b Hb; pose proof (backoff_next_gt m b Hb).
  - simpl. repeat case_decide; lia.
  - simpl in IH |- *. case_decide; [lia|]. apply IH. lia.
Qed.

Lemma backoff_loop_mono m max n n' b :
  0 < max ≤ 2 ^ 62 → 0 < b < 2 ^ 62 → (n ≤ n')%nat →
  backoff_loop m max n b ≤ backoff_loop m max n' b.
Proof.
  intros Hmax Hb. induction 1 as [|n' _ IH]; [done|].
  etrans; [exact IH|]. by apply backoff_loop_S.
Qed.
End backoff.
