(* ===== verification/WorkflowProps.v ===== *)
(** * The retry back-off (types.go)

    Bounds and monotonicity of [Backoff] for intervals below 2^62 ns (146 years), and
    what happens above. *)

From S2P Require Import Prelude GoNum GoString GoTime Workflow.

#[local] Open Scope Z_scope.

(** Intervals for which the doubling cannot overflow an int64. *)
Definition intervals_small (r : RetryPolicy) : Prop :=
  InitialBackoff r < 2 ^ 62 ∧ MaxBackoff r ≤ 2 ^ 62.

(** C32: the retry delay is positive and never above the configured maximum, for every
    attempt, every multiplier (including zero, negative, infinite and NaN) and every
    architecture. *)
Theorem backoff_bounds `{GoArch} r attempt :
  intervals_small r → 0 < Backoff r attempt ≤ MaxBackoff r.
Proof.
  intros [Hi Hm]. unfold Backoff. cbv zeta.
  pose proof (InitialBackoff_pos r). pose proof (MaxBackoff_pos r).
  split; [apply backoff_loop_pos; lia|apply backoff_loop_le].
Qed.

(** The retry delay never shrinks from one attempt to the next. *)
Theorem backoff_monotone `{GoArch} r attempt attempt' :
  intervals_small r → attempt ≤ attempt' → Backoff r attempt ≤ Backoff r attempt'.
Proof.
  intros [Hi Hm] Hle. unfold Backoff. cbv zeta.
  pose proof (InitialBackoff_pos r). pose proof (MaxBackoff_pos r).
  apply backoff_loop_mono; [lia|lia|]. repeat case_decide; lia.
Qed.

(** A policy whose intervals are beyond the bound. *)
Definition huge_policy : RetryPolicy := mkRetry 3 "1500000h" "2562047h" (f64_of_Z 2).

(** Beyond the bound the delay can be negative: on amd64 the second attempt of a policy
    with an initial interval of 1500000h waits a negative time, although the maximum
    interval is positive. *)
Theorem backoff_overflows : MaxBackoff huge_policy = 9223369200 * Second ∧ @Backoff amd64 huge_policy 2 < 0.
Proof. vm_compute. split; [reflexivity|reflexivity]. Qed.

(** ** Witnesses *)
Definition small_policy : RetryPolicy := mkRetry 3 "1s" "10s" (f64_of_dyadic 3 (-1)).
Lemma small_policy_ok : intervals_small small_policy.
Proof. split; vm_compute; congruence. Qed.

Lemma backoff_bounds_witness : 0 < @Backoff amd64 small_policy 5 ≤ MaxBackoff small_policy.
Proof. apply (@backoff_bounds amd64 small_policy 5). apply small_policy_ok. Defined.

Lemma backoff_monotone_witness : @Backoff amd64 small_policy 2 ≤ @Backoff amd64 small_policy 3.
Proof. apply (@backoff_monotone amd64 small_policy 2 3); [apply small_policy_ok|lia]. Defined.

(** The delays of a policy of 1 s, factor 1.5, at most 10 s. *)
Example small_policy_delays :
  (λ n, @Backoff amd64 small_policy (Z.of_nat n) / Millisecond) <$> seq 1 8 =
  [1000; 1500; 2250; 3375; 5062; 7593; 10000; 10000].
Proof. vm_compute. reflexivity. Qed.
