(* ===== verification/Accessors.v ===== *)
(** * Reading the untyped configuration of a step

    [Config] is a [map[string]any].  The packages engine, worker and dsl each have
    their own accessors; the three copies of [stringSliceValue] and the two of
    [stringValue] are the same code.  The executor's [Result] is here too, since
    both the executor and the machine use it. *)

From S2P Require Import Prelude GoTime Workflow.

(** engine: [configString] *)
Definition configString (config : gomap value) (key : string) : string :=
  match gm_get config key with
  | Some (VStr text) => text
  | _ => ""
  end.

(** The loop over a [[]any]: every element a nonempty string. *)
Fixpoint nonempty_strings (l : list value) : option (list string) :=
  match l with
  | [] => Some []
  | VStr text :: l =>
      if decide (text = "") then None else (text ::.) <$> nonempty_strings l
  | _ :: _ => None
  end.

(** engine: [configStringSlice] *)
Definition configStringSlice (config : gomap value) (key : string) : option (list string) :=
  match gm_get config key with
  | Some (VStrs values) => Some values
  | Some (VArr values) => nonempty_strings values
  | _ => None
  end.

(** worker, dsl: [stringValue], [firstString], [stringSliceValue] *)
Definition stringValue (config : gomap value) (key : string) : option string :=
  match gm_get config key with
  | Some (VStr text) => Some text
  | _ => None
  end.

Fixpoint firstString (config : gomap value) (keys : list string) : option string :=
  match keys with
  | [] => None
  | key :: keys =>
      match stringValue config key with
      | Some value => Some value
      | None => firstString config keys
      end
  end.

Definition stringSliceValue (config : gomap value) (key : string) : option (list string) :=
  match gm_get config key with
  | Some (VStrs values) => Some values
  | Some (VArr values) => nonempty_strings values
  | _ => None
  end.

(** worker: [Result] *)
Record Result := mkResult {
  r_Output : gomap value;
  r_Body : value;
  r_NextStepID : option string;
  r_DelayUntil : option time;
}.

(** ** Lemmas *)

Lemma configString_stringValue config key :
  configString config key = default "" (stringValue config key).
Proof. unfold configString, stringValue. by destruct (gm_get config key) as [[]|]. Qed.

Lemma configString_nonempty config key s :
  s ≠ "" → configString config key = s ↔ stringValue config key = Some s.
Proof. rewrite configString_stringValue. destruct (stringValue config key); naive_solver. Qed.

Lemma nonempty_strings_Forall l out : nonempty_strings l = Some out → Forall (.≠ "") out.
Proof.
  revert out. induction l as [|v l IH]; intros out; simpl; [intros [= <-]; constructor|].
  destruct v; try discriminate. case_decide; [discriminate|].
  intros (out' & ? & ->)%fmap_Some. constructor; auto.
Qed.
