(* ===== verification/Machine.v ===== *)
(** * internal/engine/machine.go: the workflow state machine

    [Machine] computes, from a definition and the durable state, which step runs
    next: the linear path of the steps that are neither compensation targets nor
    inside a fork branch, explicit jumps, fork and join, and the compensation
    queue.  The functions mutate the state through a pointer; here they take and
    return it, in the [go] monad since a write to a nil map or an index out of
    range would panic.  The argument [o] fixes the order of a [range] over the
    fork map ([range_order]). *)

From S2P Require Import Prelude GoTime Workflow Accessors.

Record Machine := mkMachine {
  m_definition : DefinitionDSL;
  m_normal : list Step;
}.

Definition resultNextStepID (result : option Result) : string :=
  match result with
  | Some r => default "" (r_NextStepID r)
  | None => ""
  end.

Definition contains (values : list string) (value : string) : bool :=
  existsb (fun candidate => bool_decide (candidate = value)) values.

(** ** Which steps belong to a fork branch *)

Definition branchRefs (step : Step) : list string :=
  let next := configString (step_Config step) "next" in
  let thenRef := configString (step_Config step) "then" in
  let elseRef := configString (step_Config step) "else" in
  (if decide (next ≠ "") then [next] else []) ++
  (if decide (step_Type step = StepCondition) then
     (if decide (thenRef ≠ "") then [thenRef] else []) ++
     (if decide (elseRef ≠ "") then [elseRef] else [])
   else []).

(** The loop of [firstJoinAfter] once [found] is or is not set. *)
Fixpoint firstJoinAfter_loop (steps : list Step) (found : bool) (stepID : string) : string :=
  match steps with
  | [] => ""
  | step :: steps =>
      if decide (step_ID step = stepID) then firstJoinAfter_loop steps true stepID
      else if found && bool_decide (step_Type step = StepJoin) then step_ID step
      else firstJoinAfter_loop steps found stepID
  end.
Definition firstJoinAfter (d : DefinitionDSL) (stepID : string) : string :=
  firstJoinAfter_loop (dsl_Steps d) false stepID.

(** The recursion of [collectBranchStep]; [out] and [seen] are the two shared maps.
    Every nested call adds a step of the definition to [seen], so the number of
    steps plus one is enough fuel ([collectBranchStep_total]). *)
Fixpoint collectBranchStep (fuel : nat) (d : DefinitionDSL) (stepID joinStepID : string)
    (out seen : gset string) : option (gset string * gset string) :=
  match fuel with
  | O => None
  | S fuel =>
      if decide (stepID = "" ∨ stepID = joinStepID) then Some (out, seen)
      else if decide (stepID ∈ seen) then Some (out, seen)
      else
        let seen := {[stepID]} ∪ seen in
        match StepByID d stepID with
        | None => Some (out, seen)
        | Some step =>
            foldl (fun acc next =>
                     '(out, seen) ← acc; collectBranchStep fuel d next joinStepID out seen)
                  (Some ({[stepID]} ∪ out, seen)) (branchRefs step)
        end
  end.

Definition branch_fuel (d : DefinitionDSL) : nat := S (length (dsl_Steps d)).

Definition collectBranch (d : DefinitionDSL) (joinStepID : string) (out : gset string) (branch : string) : gset string :=
  match collectBranchStep (branch_fuel d) d branch joinStepID out ∅ with
  | Some (out, _) => out
  | None => out
  end.

(** The join of a fork: [config.join], else the first later join step. *)
Definition forkJoinID (d : DefinitionDSL) (step : Step) : string :=
  let joinStepID := configString (step_Config step) "join" in
  if decide (joinStepID = "") then firstJoinAfter d (step_ID step) else joinStepID.

Definition collectForkBranchSteps (d : DefinitionDSL) : gset string :=
  foldl (fun out step =>
    if decide (step_Type step ≠ StepFork) then out
    else match configStringSlice (step_Config step) "branches" with
         | None => out
         | Some branches => foldl (collectBranch d (forkJoinID d step)) out branches
         end) ∅ (dsl_Steps d).

Definition NewMachine (d : DefinitionDSL) : Machine :=
  let compensation := CompensationRefs d in
  let branchSteps := collectForkBranchSteps d in
  mkMachine d
    (filter (fun step => step_ID step ∉ compensation ∧ step_ID step ∉ branchSteps) (dsl_Steps d)).

(** ** Forks and joins *)

(** [startFork] always returns a nil error. *)
Definition startFork (m : Machine) (step : Step) (state : RuntimeState) : go RuntimeState :=
  match configStringSlice (step_Config step) "branches" with
  | None | Some [] => mret state
  | Some branches =>
      if decide (fs_Status (default zeroForkState (gm_get (rs_Forks state) (step_ID step))) ≠ "")
      then mret state
      else
        let joinStepID := forkJoinID (m_definition m) step in
        if decide (joinStepID = "") then mret state
        else
          let branchStates := (fun branch => mkBranch branch branch "pending" [] "") <$> branches in
          forks ← gm_set (rs_Forks state) (step_ID step) (mkFork "running" joinStepID branchStates);
          mret (with_Forks state forks)
  end.

Definition branch_open (b : BranchState) : Prop := bs_Status b = "pending" ∨ bs_Status b = "running".
#[export] Instance branch_open_dec b : Decision (branch_open b).
Proof. unfold branch_open. apply _. Defined.

Definition branch_start (b : BranchState) : BranchState :=
  mkBranch (bs_StartStepID b)
    (if decide (bs_CurrentStepID b = "") then bs_StartStepID b else bs_CurrentStepID b)
    "running" (bs_Completed b) (bs_Error b).

Definition nextForkStep (m : Machine) (forkID : string) (state : RuntimeState)
    : go (RuntimeState * option Step) :=
  let fork := default zeroForkState (gm_get (rs_Forks state) forkID) in
  match list_find branch_open (fs_Branches fork) with
  | Some (i, b) =>
      let b := branch_start b in
      branches ← go_set_index (fs_Branches fork) i b;
      forks ← gm_set (rs_Forks state) forkID (mkFork (fs_Status fork) (fs_JoinStepID fork) branches);
      mret (with_Forks state forks, StepByID (m_definition m) (bs_CurrentStepID b))
  | None =>
      forks ← gm_set (rs_Forks state) forkID (mkFork "completed" (fs_JoinStepID fork) (fs_Branches fork));
      mret (with_Forks state forks, StepByID (m_definition m) (fs_JoinStepID fork))
  end.

Definition branch_at (stepID : string) (b : BranchState) : Prop :=
  bs_Status b = "running" ∧ bs_CurrentStepID b = stepID.
#[export] Instance branch_at_dec id b : Decision (branch_at id b).
Proof. unfold branch_at. apply _. Defined.

(** The first running branch at [stepID] of a running fork, forks in the order [o]. *)
Fixpoint branchForCurrentStep_loop (forks : list (string * ForkState)) (stepID : string)
    : option (string * nat) :=
  match forks with
  | [] => None
  | (forkID, fork) :: forks =>
      if decide (fs_Status fork ≠ "running") then branchForCurrentStep_loop forks stepID
      else match list_find (branch_at stepID) (fs_Branches fork) with
           | Some (i, _) => Some (forkID, i)
           | None => branchForCurrentStep_loop forks stepID
           end
  end.
Definition branchForCurrentStep (o : list string) (state : RuntimeState) (stepID : string)
    : option (string * nat) :=
  branchForCurrentStep_loop (range_order o (default ∅ (rs_Forks state))) stepID.

Definition nextAfterBranchStep (m : Machine) (forkID : string) (branchIndex : nat) (step : Step)
    (state : RuntimeState) (result : option Result) : go (RuntimeState * option Step) :=
  let fork := default zeroForkState (gm_get (rs_Forks state) forkID) in
  branch ← go_index (fs_Branches fork) branchIndex;
  let completed := if contains (bs_Completed branch) (step_ID step) then bs_Completed branch
                   else bs_Completed branch ++ [step_ID step] in
  let nextID := if decide (resultNextStepID result = "")
                then configString (step_Config step) "next" else resultNextStepID result in
  let put b :=
    branches ← go_set_index (fs_Branches fork) branchIndex b;
    forks ← gm_set (rs_Forks state) forkID (mkFork (fs_Status fork) (fs_JoinStepID fork) branches);
    mret (with_Forks state forks) in
  if decide (nextID ≠ "" ∧ nextID ≠ fs_JoinStepID fork) then
    state ← put (mkBranch (bs_StartStepID branch) nextID "running" completed (bs_Error branch));
    mret (state, StepByID (m_definition m) nextID)
  else
    state ← put (mkBranch (bs_StartStepID branch) "" "completed" completed (bs_Error branch));
    nextForkStep m forkID state.

Definition MarkBranchFailed (o : list string) (state : RuntimeState) (stepID : string) (err : option goerr)
    : go RuntimeState :=
  let state := Normalize state in
  match branchForCurrentStep o state stepID with
  | None => mret state
  | Some (forkID, branchIndex) =>
      let fork := default zeroForkState (gm_get (rs_Forks state) forkID) in
      b ← go_index (fs_Branches fork) branchIndex;
      let error := match err with Some e => err_text e | None => bs_Error b end in
      branches ← go_set_index (fs_Branches fork) branchIndex
        (mkBranch (bs_StartStepID b) (bs_CurrentStepID b) "failed" (bs_Completed b) error);
      forks ← gm_set (rs_Forks state) forkID (mkFork "failed" (fs_JoinStepID fork) branches);
      mret (with_Forks state forks)
  end.

(** One iteration of the loop of [markJoined]. *)
Definition markJoined_entry (joinStepID : string) (state : RuntimeState) (entry : string * ForkState)
    : go RuntimeState :=
  let '(forkID, fork) := entry in
  if decide (fs_JoinStepID fork ≠ joinStepID ∨ fs_Status fork ≠ "completed") then mret state
  else
    forks ← gm_set (rs_Forks state) forkID (mkFork "joined" (fs_JoinStepID fork) (fs_Branches fork));
    mret (with_Forks state forks).

Definition markJoined (o : list string) (joinStepID : string) (state : RuntimeState) : go RuntimeState :=
  foldl (fun acc entry => state ← acc; markJoined_entry joinStepID state entry)
    (mret state) (range_order o (default ∅ (rs_Forks state))).

(** ** The next step *)

(** The last loop of [NextAfter]: the step after the first occurrence of [stepID]
    that has a successor. *)
Fixpoint next_normal (normal : list Step) (stepID : string) : option Step :=
  match normal with
  | candidate :: ((next :: _) as rest) =>
      if decide (step_ID candidate = stepID) then Some next else next_normal rest stepID
  | _ => None
  end.

Definition NextAfter (o : list string) (m : Machine) (step : Step) (state : RuntimeState)
    (result : option Result) : go (RuntimeState * option Step) :=
  let state := Normalize state in
  let state := match rs_Forks state with
               | None => with_Forks state (Some ∅)
               | Some _ => state
               end in
  if decide (step_Type step = StepFork) then
    state ← startFork m step state;
    nextForkStep m (step_ID step) state
  else
    match branchForCurrentStep o state (step_ID step) with
    | Some (forkID, branchIndex) => nextAfterBranchStep m forkID branchIndex step state result
    | None =>
        state ← (if decide (step_Type step = StepJoin)
                 then markJoined o (step_ID step) state else mret state);
        let nextID := resultNextStepID result in
        let cfgID := configString (step_Config step) "next" in
        mret (state,
          if decide (nextID ≠ "") then StepByID (m_definition m) nextID
          else if decide (cfgID ≠ "") then StepByID (m_definition m) cfgID
          else if decide (step_Type step = StepCondition) then None
          else next_normal (m_normal m) (step_ID step))
    end.

(** [StepForCurrent] receives the state by value: the caller sees only the writes
    into the fork map, and only when that map was not nil. *)
Definition StepForCurrent (o : list string) (m : Machine) (state : RuntimeState) (currentStepID : option string)
    : go (RuntimeState * option Step) :=
  match currentStepID with
  | Some id =>
      match StepByID (m_definition m) id with
      | None => mret (state, None)
      | Some current =>
          match gm_get (rs_Steps state) id with
          | Some stepState =>
              if decide (ss_Status stepState ≠ StepCompleted) then mret (state, Some current)
              else
                let result :=
                  match gm_get (ss_Output stepState) "next_step" with
                  | Some (VStr next) =>
                      if decide (next ≠ "") then Some (mkResult None VNil (Some next) None) else None
                  | _ => None
                  end in
                '(state', next) ← NextAfter o m current state result;
                mret (match rs_Forks state with
                      | Some _ => with_Forks state (rs_Forks state')
                      | None => state
                      end, next)
          | None => mret (state, Some current)
          end
      end
  | None => mret (state, head (m_normal m))
  end.

(** ** Compensation *)

(** The loop of [CompensationQueue] over the completed steps, newest first. *)
Fixpoint comp_loop (m : Machine) (ids : list string) (queue : list string) (seen : gset string) : list string :=
  match ids with
  | [] => queue
  | id :: ids =>
      match StepByID (m_definition m) id with
      | Some step =>
          if decide (step_OnFailure step = "") then comp_loop m ids queue seen
          else if decide (step_OnFailure step ∈ seen) then comp_loop m ids queue seen
          else comp_loop m ids (queue ++ [step_OnFailure step]) ({[step_OnFailure step]} ∪ seen)
      | None => comp_loop m ids queue seen
      end
  end.

Definition CompensationQueue (m : Machine) (failedStepID : string) (state : RuntimeState) : list string :=
  let queue := match StepByID (m_definition m) failedStepID with
               | Some failed => if decide (step_OnFailure failed ≠ "") then [step_OnFailure failed] else []
               | None => []
               end in
  comp_loop m (reverse (rs_Completed state)) queue (list_to_set queue).
