(* ===== verification/BranchSteps.v ===== *)
(** * Which steps a fork owns: the traversal of [collectForkBranchSteps]

    The depth-first traversal of machine.go, with its shared [out] and [seen] maps,
    computes reachability: a step is excluded from the linear path exactly when a
    chain of [next]/[then]/[else] references leads to it from a branch of a fork
    without passing through the fork's join. *)

From S2P Require Import Prelude Workflow Accessors Machine.

Section reach.
Context (d : DefinitionDSL) (join : string).

(** A name the traversal enters, and one reference of a step. *)
Definition enterable (id : string) : Prop := id ≠ "" ∧ id ≠ join.
Definition branch_edge (id id' : string) : Prop :=
  ∃ step, StepByID d id = Some step ∧ id' ∈ branchRefs step.

(** Reachability from a branch start, through steps of the definition. *)
Inductive branch_reach : string → string → Prop :=
| reach_start b : enterable b → branch_reach b b
| reach_step b x y : branch_reach b x → branch_edge x y → enterable y → branch_reach b y.

(** What one call of the traversal adds, starting from [seen]. *)
Record visited (roots : list string) (out seen out' seen' : gset string) : Prop := {
  v_mono : seen ⊆ seen';
  v_roots : ∀ r, r ∈ roots → enterable r → r ∈ seen';
  v_out : ∀ x, x ∈ out' ↔ x ∈ out ∨ (x ∈ seen' ∧ x ∉ seen ∧ is_Some (StepByID d x));
  v_closed : ∀ x y, x ∈ seen' → x ∉ seen → branch_edge x y → enterable y → y ∈ seen';
  v_reach : ∀ x, x ∈ seen' → x ∉ seen → ∃ r, r ∈ roots ∧ branch_reach r x;
}.

Lemma visited_nil out seen : visited [] out seen out seen.
Proof. split; [done|set_solver|naive_solver|naive_solver|naive_solver]. Qed.

Lemma visited_skip id out seen :
  ¬ enterable id ∨ id ∈ seen → visited [id] out seen out seen.
Proof. intros Hid. split; [done|set_solver|naive_solver|naive_solver|naive_solver]. Qed.

Lemma visited_app r1 r2 out seen out1 seen1 out2 seen2 :
  visited r1 out seen out1 seen1 → visited r2 out1 seen1 out2 seen2 →
  visited (r1 ++ r2) out seen out2 seen2.
Proof.
  intros [M1 R1 O1 C1 P1] [M2 R2 O2 C2 P2]. split.
  - set_solver.
  - set_solver.
  - intros x. rewrite O2, O1. destruct (decide (x ∈ seen1)); set_solver.
  - intros x y Hx Hs He Hy. destruct (decide (x ∈ seen1)) as [Hx1|]; [|by eapply C2].
    apply M2. by eapply C1.
  - intros x Hx Hs. destruct (decide (x ∈ seen1)) as [Hx1|Hx1].
    + destruct (P1 x Hx1 Hs) as (r & ? & ?). exists r. set_solver.
    + destruct (P2 x Hx Hx1) as (r & ? & ?). exists r. set_solver.
Qed.

Lemma branch_reach_trans a b c : branch_edge a b → enterable a → branch_reach b c → branch_reach a c.
Proof.
  intros He Ha. induction 1 as [b Hb|b x y Hr IH Hxy Hy].
  - by apply reach_step with a; [apply reach_start| |].
  - by apply reach_step with x; [apply IH| |].
Qed.

(** A step whose references have all been visited has been visited. *)
Lemma visited_enter id step out seen out' seen' :
  enterable id → id ∉ seen → StepByID d id = Some step →
  visited (branchRefs step) ({[id]} ∪ out) ({[id]} ∪ seen) out' seen' →
  visited [id] out seen out' seen'.
Proof.
  intros Hid Hs Hstep [M R O C P]. split.
  - set_solver.
  - set_solver.
  - intros x. rewrite O. destruct (decide (x = id)) as [->|]; set_solver.
  - intros x y Hx Hxs He Hy. destruct (decide (x = id)) as [->|]; [|apply (C x); set_solver].
    apply R; [|done]. destruct He as (st & Hst & ?). by simplify_eq.
  - intros x Hx Hxs. destruct (decide (x = id)) as [->|].
    + exists id. split; [set_solver|by apply reach_start].
    + destruct (P x Hx) as (r & Hr & Hrx); [set_solver|]. exists id. split; [set_solver|].
      apply branch_reach_trans with r; [exists step; done|done|done].
Qed.

Lemma visited_undefined id out seen :
  enterable id → id ∉ seen → StepByID d id = None → visited [id] out seen out ({[id]} ∪ seen).
Proof.
  intros Hid Hs Hnone. split.
  - set_solver.
  - set_solver.
  - intros x. destruct (decide (x = id)) as [->|]; [|set_solver].
    rewrite Hnone. split; [tauto|]. by intros [|(_ & _ & [])].
  - intros x y Hx Hxs (step & Hst & _). assert (x = id) as -> by set_solver. congruence.
  - intros x Hx Hxs. assert (x = id) as -> by set_solver. exists id.
    split; [set_solver|by apply reach_start].
Qed.

(** The fold over the references, given the specification of the recursive calls. *)
Lemma collect_fold_visited fuel refs out seen out' seen' :
  (∀ id out seen out' seen',
    collectBranchStep fuel d id join out seen = Some (out', seen') → visited [id] out seen out' seen') →
  foldl (λ acc next, '(out, seen) ← acc; collectBranchStep fuel d next join out seen)
    (Some (out, seen)) refs = Some (out', seen') →
  visited refs out seen out' seen'.
Proof.
  intros IH. revert out seen. induction refs as [|r refs IHr]; intros out seen; simpl.
  { intros [= <- <-]. apply visited_nil. }
  destruct (collectBranchStep fuel d r join out seen) as [[out1 seen1]|] eqn:E.
  - intros Hf. apply (visited_app [r] refs) with out1 seen1; [by apply IH|by apply IHr].
  - intros Hf. exfalso. clear IHr. induction refs as [|r' refs IHr']; [discriminate|].
    simpl in Hf. auto.
Qed.

Lemma collectBranchStep_visited fuel id out seen out' seen' :
  collectBranchStep fuel d id join out seen = Some (out', seen') →
  visited [id] out seen out' seen'.
Proof.
  revert id out seen out' seen'. induction fuel as [|fuel IH]; intros id out seen out' seen'; [done|].
  cbn [collectBranchStep]. case_decide as Hid.
  { intros [= <- <-]. apply visited_skip. left. unfold enterable. tauto. }
  case_decide as Hs; [intros [= <- <-]; apply visited_skip; by right|].
  assert (enterable id) by (unfold enterable; tauto).
  destruct (StepByID d id) as [step|] eqn:Hstep; intros Hf.
  - eapply visited_enter; [done..|]. eapply collect_fold_visited; [apply IH|exact Hf].
  - injection Hf as <- <-. by apply visited_undefined.
Qed.

(** ** Enough fuel *)

(** The steps of the definition not yet seen. *)
Definition unseen (seen : gset string) : nat := size ((list_to_set (step_ID <$> dsl_Steps d) : gset string) ∖ seen).

Lemma unseen_mono seen seen' : seen ⊆ seen' → unseen seen' ≤ unseen seen.
Proof. intros. unfold unseen. apply subseteq_size. set_solver. Qed.

Lemma unseen_enter id seen :
  is_Some (StepByID d id) → id ∉ seen → unseen ({[id]} ∪ seen) < unseen seen.
Proof.
  rewrite StepByID_is_Some. intros Hin Hs. unfold unseen. apply subset_size. split; [set_solver|].
  intros Hsub. assert (id ∈ (list_to_set (step_ID <$> dsl_Steps d) : gset string) ∖ seen).
  { apply elem_of_difference. split; [by apply elem_of_list_to_set|done]. }
  set_solver.
Qed.

Lemma unseen_bound seen : unseen seen ≤ length (dsl_Steps d).
Proof.
  unfold unseen. transitivity (size (list_to_set (step_ID <$> dsl_Steps d) : gset string)).
  - apply subseteq_size. set_solver.
  - rewrite <- (length_fmap step_ID). generalize (step_ID <$> dsl_Steps d). intros l.
    induction l as [|x l IH]; [done|]. cbn [list_to_set foldr]. 
    pose proof (size_union_alt ({[x]} : gset string) (list_to_set l)) as Hu.
    rewrite size_singleton in Hu.
    assert (size ((list_to_set l : gset string) ∖ {[x]}) ≤ size (list_to_set l : gset string))
      by (apply subseteq_size; set_solver).
    simpl in *. lia.
Qed.

Lemma collect_fold_total fuel refs out seen :
  (∀ id out seen, unseen seen < fuel → is_Some (collectBranchStep fuel d id join out seen)) →
  unseen seen < fuel →
  is_Some (foldl (λ acc next, '(out, seen) ← acc; collectBranchStep fuel d next join out seen)
    (Some (out, seen)) refs).
Proof.
  intros IH. revert out seen. induction refs as [|r refs IHr]; intros out seen Hu; simpl; [done|].
  destruct (IH r out seen Hu) as [[out1 seen1] E]. rewrite E. apply IHr.
  apply collectBranchStep_visited in E as [M _ _ _ _]. apply unseen_mono in M. lia.
Qed.

Lemma collectBranchStep_fuel fuel id out seen :
  unseen seen < fuel → is_Some (collectBranchStep fuel d id join out seen).
Proof.
  revert id out seen. induction fuel as [|fuel IH]; intros id out seen Hu; [lia|].
  cbn [collectBranchStep]. case_decide; [done|]. case_decide; [done|].
  destruct (StepByID d id) as [step|] eqn:Hstep; [|done].
  apply collect_fold_total; [exact IH|].
  assert (unseen ({[id]} ∪ seen) < unseen seen) by (apply unseen_enter; [by rewrite Hstep|done]). lia.
Qed.

Lemma collectBranchStep_enough id out seen :
  is_Some (collectBranchStep (branch_fuel d) d id join out seen).
Proof. apply collectBranchStep_fuel. pose proof (unseen_bound seen). unfold branch_fuel. lia. Qed.

(** One branch of a fork adds the defined steps reachable from it. *)
Lemma elem_of_collectBranch out b x :
  x ∈ collectBranch d join out b ↔ x ∈ out ∨ (branch_reach b x ∧ is_Some (StepByID d x)).
Proof.
  unfold collectBranch. destruct (collectBranchStep_enough b out ∅) as [[out' seen'] E]. rewrite E.
  apply collectBranchStep_visited in E as [M R O C P].
  rewrite O. apply or_iff_compat_l. split.
  - intros (Hx & Hn & Hd). split; [|done]. destruct (P x Hx Hn) as (r & Hr & ?). set_solver.
  - intros [Hr Hd]. split_and!; [|set_solver|done]. clear Hd O P.
    induction Hr as [b Hb|b x y Hr IH He Hy]; [apply R; set_solver|].
    apply (C x y); [apply IH; done|set_solver|done|done].
Qed.
End reach.

Lemma elem_of_collectBranches d join branches out x :
  x ∈ foldl (collectBranch d join) out branches ↔
  x ∈ out ∨ ∃ b, b ∈ branches ∧ branch_reach d join b x ∧ is_Some (StepByID d x).
Proof.
  revert out. induction branches as [|b bs IH]; intros out; simpl; [set_solver|].
  rewrite IH, elem_of_collectBranch. set_solver.
Qed.

(** [x] is inside a branch of the fork [step]. *)
Definition in_fork_branch (d : DefinitionDSL) (step : Step) (x : string) : Prop :=
  step_Type step = StepFork ∧
  ∃ branches b, configStringSlice (step_Config step) "branches" = Some branches ∧
    b ∈ branches ∧ branch_reach d (forkJoinID d step) b x.

Lemma elem_of_collectForkBranchSteps d x :
  x ∈ collectForkBranchSteps d ↔
  is_Some (StepByID d x) ∧ ∃ step, step ∈ dsl_Steps d ∧ in_fork_branch d step x.
Proof.
  unfold collectForkBranchSteps.
  cut (∀ steps (acc : gset string), x ∈ foldl (λ out step,
    if decide (step_Type step ≠ StepFork) then out
    else match configStringSlice (step_Config step) "branches" with
         | None => out
         | Some branches => foldl (collectBranch d (forkJoinID d step)) out branches
         end) acc steps ↔
    x ∈ acc ∨ (is_Some (StepByID d x) ∧ ∃ step, step ∈ steps ∧ in_fork_branch d step x)).
  { intros Hc. rewrite Hc. set_solver. }
  induction steps as [|s steps IH]; intros acc; simpl; [set_solver|].
  rewrite IH. unfold in_fork_branch. case_decide as Ht.
  { setoid_rewrite elem_of_cons. naive_solver. }
  destruct (configStringSlice (step_Config s) "branches") as [bs|] eqn:Hbs.
  - rewrite elem_of_collectBranches. setoid_rewrite elem_of_cons. naive_solver.
  - setoid_rewrite elem_of_cons. naive_solver.
Qed.
