(* ===== verification/MachineFacts.v ===== *)
(** * Properties of the state machine (machine.go)

    The linear path, absence of panics, the fork/join barrier and its sequential
    branches, independence from the iteration order, and the compensation queue. *)

From S2P Require Import Prelude GoTime Workflow Accessors Machine BranchSteps.

(** ** Specifications *)

Definition branch_is (status : string) (b : BranchState) : Prop := bs_Status b = status.

(** The branches of a fork in progress: the ones before are completed, one runs,
    the ones after have not started. *)
Definition one_running (bs : list BranchState) (b : BranchState) : Prop :=
  ∃ before after, bs = before ++ b :: after ∧
    Forall (branch_is "completed") before ∧ branch_is "running" b ∧ Forall (branch_is "pending") after.

(** The well-formed fork states of an instance that has not failed: what the statuses of a
    fork and of its branches say of each other.  A branch that the state calls completed may
    still have steps that never ran when another fork is nested in it
    ([nested_fork_skips_branch]); that every step of every branch has run before the join is
    shown for structured workflows ([join_barrier_persisted]). *)
Definition fork_ok (f : ForkState) : Prop :=
  (fs_Status f = "running" ∧ ∃ b, one_running (fs_Branches f) b) ∨
  ((fs_Status f = "completed" ∨ fs_Status f = "joined") ∧ Forall (branch_is "completed") (fs_Branches f)).

Definition forks_ok (s : RuntimeState) : Prop :=
  ∀ id f, gm_get (rs_Forks s) id = Some f → fork_ok f.

(** What running one step of a fork leads to: the branch in progress, or the join
    once every branch is completed. *)
Definition fork_next (m : Machine) (f : ForkState) (next : option Step) : Prop :=
  (fs_Status f = "running" ∧ ∃ b, one_running (fs_Branches f) b ∧
     next = StepByID (m_definition m) (bs_CurrentStepID b)) ∨
  (fs_Status f = "completed" ∧ Forall (branch_is "completed") (fs_Branches f) ∧
     next = StepByID (m_definition m) (fs_JoinStepID f)).

(** The effect of [markJoined] on one fork. *)
Definition join_fork (joinStepID : string) (f : ForkState) : ForkState :=
  if decide (fs_JoinStepID f = joinStepID ∧ fs_Status f = "completed")
  then mkFork "joined" (fs_JoinStepID f) (fs_Branches f) else f.

(** The compensation target of a step, if it has one. *)
Definition on_failure_of (m : Machine) (id : string) : option string :=
  step ← StepByID (m_definition m) id;
  if decide (step_OnFailure step = "") then None else Some (step_OnFailure step).

(** ** Helper lemmas *)

Lemma branch_open_completed b : branch_is "completed" b → ¬ branch_open b.
Proof. unfold branch_is, branch_open. intros ->. by intros [|]. Qed.

Lemma list_find_after {A} (P : A → Prop) `{!∀ x, Decision (P x)} (before : list A) x after :
  Forall (λ y, ¬ P y) before → P x → list_find P (before ++ x :: after) = Some (length before, x).
Proof.
  intros Hb Hx. apply list_find_Some. split_and!; [by apply list_lookup_middle|done|].
  intros j y Hj Hlt. rewrite lookup_app_l in Hj by done. eapply Forall_lookup in Hb; [|done]. done.
Qed.

Lemma Forall_completed_not_open bs : Forall (branch_is "completed") bs → Forall (λ b, ¬ branch_open b) bs.
Proof. intros H. eapply Forall_impl; [exact H|]. apply branch_open_completed. Qed.

Lemma list_find_open_completed bs : Forall (branch_is "completed") bs → list_find branch_open bs = None.
Proof. intros. by apply list_find_None, Forall_completed_not_open. Qed.

Lemma forks_ok_Normalize s : forks_ok (Normalize s) ↔ forks_ok s.
Proof. unfold forks_ok. by rewrite Normalize_Forks. Qed.

(** The fork map after the nil test of [NextAfter]. *)
Lemma NextAfter_entry_Forks s :
  ∃ fm, rs_Forks (match rs_Forks (Normalize s) with
                  | None => with_Forks (Normalize s) (Some ∅) | Some _ => Normalize s end) = Some fm ∧
    ∀ id, fm !! id = gm_get (rs_Forks s) id.
Proof.
  rewrite Normalize_Forks. destruct (rs_Forks s) as [fm|] eqn:E.
  - exists fm. rewrite Normalize_Forks. unfold gm_get. by rewrite E.
  - exists ∅. split; [done|]. intros. by rewrite lookup_empty.
Qed.

Section with_map.
Context (m : Machine) (fm : gmap string ForkState).

(** [nextForkStep] on a non-nil map: one fork is updated, never a panic. *)
Lemma nextForkStep_spec forkID s :
  rs_Forks s = Some fm →
  ∃ f' next,
    nextForkStep m forkID s = Done (with_Forks s (Some (<[forkID := f']> fm)), next) ∧
    ∀ before after,
      fs_Branches (default zeroForkState (fm !! forkID)) = before ++ after →
      Forall (branch_is "completed") before →
      match after with
      | [] => f' = mkFork "completed" (fs_JoinStepID (default zeroForkState (fm !! forkID))) before ∧
              next = StepByID (m_definition m) (fs_JoinStepID f')
      | b :: after =>
          branch_open b →
          f' = mkFork (fs_Status (default zeroForkState (fm !! forkID)))
                 (fs_JoinStepID (default zeroForkState (fm !! forkID)))
                 (before ++ branch_start b :: after) ∧
          next = StepByID (m_definition m) (bs_CurrentStepID (branch_start b))
      end.
Proof.
  intros Hs. unfold nextForkStep. rewrite Hs. unfold gm_get; simpl.
  set (f := default zeroForkState (fm !! forkID)).
  destruct (list_find branch_open (fs_Branches f)) as [[i b]|] eqn:Hfind.
  - pose proof (list_find_Some branch_open (fs_Branches f) i b) as [Hf _].
    destruct (Hf Hfind) as (Hi & Hopen & _). apply lookup_lt_Some in Hi.
    rewrite go_set_index_lt by done. cbn. do 2 eexists. split; [done|].
    intros before [|b' after] Hbs Hbefore.
    + rewrite app_nil_r in Hbs. rewrite Hbs, list_find_open_completed in Hfind by done. done.
    + intros Hb'. rewrite Hbs, list_find_after in Hfind by (try apply Forall_completed_not_open; done).
      injection Hfind as <- <-. rewrite Hbs.
      by rewrite insert_app_r_alt, Nat.sub_diag by done.
  - cbn. do 2 eexists. split; [done|].
    intros before [|b' after] Hbs Hbefore.
    + rewrite app_nil_r in Hbs. by rewrite Hbs.
    + intros Hb'. rewrite Hbs, list_find_after in Hfind by (try apply Forall_completed_not_open; done).
      done.
Qed.

Lemma one_running_lookup bs b i b' :
  one_running bs b → bs !! i = Some b' → branch_is "running" b' →
  ∃ before after, bs = before ++ b' :: after ∧ i = length before ∧
    Forall (branch_is "completed") before ∧ Forall (branch_is "pending") after.
Proof.
  intros (before & after & -> & Hbefore & Hb & Hafter) Hi Hb'.
  unfold branch_is in *.
  destruct (decide (i < length before)) as [Hlt|Hge].
  - rewrite lookup_app_l in Hi by done. eapply Forall_lookup in Hbefore; [|done].
    simpl in Hbefore. congruence.
  - rewrite lookup_app_r in Hi by lia. destruct (i - length before) as [|k] eqn:Hk; simpl in Hi.
    + injection Hi as <-. exists before, after. split_and!; [done|lia|done|done].
    + eapply Forall_lookup in Hafter; [|done]. simpl in Hafter. congruence.
Qed.

Lemma one_running_start before b after :
  Forall (branch_is "completed") before → Forall (branch_is "pending") after →
  one_running (before ++ branch_start b :: after) (branch_start b).
Proof. intros. exists before, after. split_and!; done. Qed.

(** From a fork whose branches are completed up to some point and pending (or
    running, for the first) afterwards, [nextForkStep] reaches a [fork_next] state. *)
Lemma nextForkStep_next forkID s before after :
  rs_Forks s = Some fm →
  fs_Branches (default zeroForkState (fm !! forkID)) = before ++ after →
  Forall (branch_is "completed") before →
  (match after with [] => True | b :: after =>
     branch_open b ∧ Forall (branch_is "pending") after ∧
     fs_Status (default zeroForkState (fm !! forkID)) = "running" end) →
  ∃ f' next, nextForkStep m forkID s = Done (with_Forks s (Some (<[forkID := f']> fm)), next) ∧
    fork_next m f' next.
Proof.
  intros Hs Hbs Hbefore Hafter.
  destruct (nextForkStep_spec forkID s Hs) as (f' & next & Heq & Hspec).
  exists f', next. split; [done|]. specialize (Hspec before after Hbs Hbefore).
  destruct after as [|b after].
  - destruct Hspec as [-> ->]. right. done.
  - destruct Hafter as (Ho & Hp & Hst). destruct (Hspec Ho) as [-> ->]. left.
    split; [exact Hst|]. exists (branch_start b). split; [by apply one_running_start|done].
Qed.
End with_map.

Lemma branchForCurrentStep_Some o s id forkID i :
  branchForCurrentStep o s id = Some (forkID, i) →
  ∃ f b, gm_get (rs_Forks s) forkID = Some f ∧ fs_Status f = "running" ∧
    fs_Branches f !! i = Some b ∧ branch_at id b.
Proof.
  unfold branchForCurrentStep.
  assert (Hin : ∀ k f, (k, f) ∈ range_order o (default ∅ (rs_Forks s)) → gm_get (rs_Forks s) k = Some f).
  { intros k f. rewrite elem_of_range_order. unfold gm_get. by destruct (rs_Forks s). }
  induction (range_order _ _) as [|[k f] l IH]; simpl; [done|].
  case_decide as Hst; [intros; apply IH; [set_solver|done]|].
  destruct (list_find _ _) as [[j b]|] eqn:Hf; [|intros; apply IH; [set_solver|done]].
  intros [= -> ->]. apply list_find_Some in Hf as (? & ? & _).
  exists f, b. split_and!; [apply Hin; set_solver|done|done|done].
Qed.

Lemma branchForCurrentStep_None o s id :
  branchForCurrentStep o s id = None ↔
  ∀ k f b, gm_get (rs_Forks s) k = Some f → fs_Status f = "running" → b ∈ fs_Branches f → ¬ branch_at id b.
Proof.
  unfold branchForCurrentStep.
  assert (Hin : ∀ k f, (k, f) ∈ range_order o (default ∅ (rs_Forks s)) ↔ gm_get (rs_Forks s) k = Some f).
  { intros k f. rewrite elem_of_range_order. unfold gm_get. by destruct (rs_Forks s). }
  setoid_rewrite <- Hin. clear Hin.
  induction (range_order _ _) as [|[k f] l IH]; simpl; [set_solver|].
  setoid_rewrite elem_of_cons. case_decide as Hst; [rewrite IH; naive_solver|].
 
  destruct (list_find _ _) as [[j b]|] eqn:Hf.
  - split; [done|]. intros Hn. apply list_find_Some in Hf as (Hj & Hb & _).
    exfalso. apply (Hn k f b); [by left|done|by eapply list_elem_of_lookup_2|done].
  - apply list_find_None in Hf. rewrite Forall_forall in Hf. rewrite IH. naive_solver.
Qed.

Lemma with_Forks_twice s f g : with_Forks (with_Forks s f) g = with_Forks s g.
Proof. done. Qed.

Lemma with_Forks_id s : with_Forks s (rs_Forks s) = s.
Proof. by destruct s. Qed.

(** [nextAfterBranchStep] at a branch that exists: no panic, one fork is updated. *)
Lemma nextAfterBranchStep_done m fm forkID i step s r f b :
  rs_Forks s = Some fm → fm !! forkID = Some f → fs_Branches f !! i = Some b →
  ∃ f' next, nextAfterBranchStep m forkID i step s r =
    Done (with_Forks s (Some (<[forkID := f']> fm)), next) ∧
    (one_running (fs_Branches f) b → fs_Status f = "running" → branch_is "running" b → fork_next m f' next).
Proof.
  intros Hs Hf Hb. unfold nextAfterBranchStep. rewrite Hs. unfold gm_get; simpl. rewrite Hf; simpl.
  rewrite (go_index_some _ _ _ Hb). cbn.
  pose proof (lookup_lt_Some _ _ _ Hb) as Hlt.
  set (completed := if contains _ _ then _ else _).
  set (nextID := if decide (resultNextStepID r = "") then _ else _).
  case_decide as Hnext; rewrite go_set_index_lt by done; cbn.
  - do 2 eexists. split; [done|]. intros Hone Hst Hrun.
    destruct (one_running_lookup _ _ _ _ Hone Hb Hrun) as (before & after & Hbs & -> & ? & ?).
    left. split; [done|].
    exists (mkBranch (bs_StartStepID b) nextID "running" completed (bs_Error b)).
    split; [|done]. exists before, after. simpl.
    rewrite Hbs, insert_app_r_alt, Nat.sub_diag by done. done.
  - set (f1 := mkFork _ _ (<[i:=_]> _)).
    destruct (nextForkStep_spec m (<[forkID:=f1]> fm) forkID (with_Forks s (Some (<[forkID:=f1]> fm))) eq_refl)
      as (f' & next & Heq & _).
    exists f', next. rewrite Heq, with_Forks_twice, insert_insert_eq. split; [done|].
    intros Hone Hst Hrun.
    destruct (one_running_lookup _ _ _ _ Hone Hb Hrun) as (before & after & Hbs & -> & Hbefore & Hafter).
    destruct (nextForkStep_next m (<[forkID:=f1]> fm) forkID (with_Forks s (Some (<[forkID:=f1]> fm)))
      (before ++ [mkBranch (bs_StartStepID b) "" "completed" completed (bs_Error b)]) after eq_refl)
      as (f'' & next' & Heq' & Hfn).
    + rewrite lookup_insert_eq. subst f1. simpl.
      rewrite Hbs, insert_app_r_alt, Nat.sub_diag by done. simpl. by rewrite <- app_assoc.
    + apply Forall_app. split; [done|]. by constructor.
    + destruct after as [|b2 after]; [done|]. apply Forall_cons in Hafter as [Hb2 ?].
      rewrite lookup_insert_eq. split_and!; [by left|done|done].
    + rewrite Heq in Heq'. injection Heq' as Hff <-.
      apply (f_equal (.!! forkID)) in Hff. rewrite !lookup_insert_eq in Hff.
      by injection Hff as <-.
Qed.

(** [startFork] on a non-nil map: no panic; a fork that starts has all its branches pending. *)
Lemma startFork_done m fm step s :
  rs_Forks s = Some fm →
  ∃ fm', startFork m step s = Done (with_Forks s (Some fm')) ∧
    (fm' = fm ∨
     ∃ b bs join, fm' = <[step_ID step := mkFork "running" join
       ((λ br, mkBranch br br "pending" [] "") <$> (b :: bs))]> fm).
Proof.
  intros Hs. unfold startFork.
  assert (Hid : ∃ fm', Done s = Done (with_Forks s (Some fm')) ∧ (fm' = fm ∨
     ∃ b bs join, fm' = <[step_ID step := mkFork "running" join
       ((λ br, mkBranch br br "pending" [] "") <$> (b :: bs))]> fm)).
  { exists fm. rewrite <- Hs at 1. rewrite with_Forks_id. auto. }
  destruct (configStringSlice _ _) as [[|b bs]|]; [done| |done].
  case_decide; [done|]. case_decide; [done|].
  rewrite Hs. cbn. eexists. split; [done|]. right. by eexists b, bs, _.
Qed.

Lemma markJoined_entry_done join fm s k f :
  rs_Forks s = Some fm → fm !! k = Some f →
  markJoined_entry join s (k, f) = Done (with_Forks s (Some (<[k := join_fork join f]> fm))).
Proof.
  intros Hs Hk. unfold markJoined_entry, join_fork. rewrite Hs.
  destruct (decide (fs_JoinStepID f = join ∧ fs_Status f = "completed")) as [[-> ->]|Hn].
  - rewrite decide_False by tauto. done.
  - rewrite decide_True by (destruct (decide (fs_JoinStepID f = join)); tauto).
    rewrite insert_id by done. rewrite <- Hs, with_Forks_id. done.
Qed.

Lemma join_fork_idemp join f : join_fork join (join_fork join f) = join_fork join f.
Proof. unfold join_fork. by repeat case_decide. Qed.

(** [markJoined] does the same whatever the order of its loop. *)
Lemma markJoined_spec o join s :
  markJoined o join s = Done (with_Forks s ((λ fm : gmap string ForkState, join_fork join <$> fm) <$> rs_Forks s)).
Proof.
  unfold markJoined. destruct (rs_Forks s) as [fm|] eqn:Hs; simpl.
  2: { replace (range_order o ∅) with (@nil (string * ForkState)).
       - simpl. rewrite <- Hs, with_Forks_id. done.
       - symmetry. apply Permutation_nil. by rewrite range_order_perm. }
  cut (∀ l (fm' : gmap string ForkState) s,
    rs_Forks s = Some fm' → NoDup l.*1 → (∀ k f, (k, f) ∈ l → fm' !! k = Some f) →
    ∃ fm2, foldl (λ acc entry, state ← acc; markJoined_entry join state entry) (mret s) l
             = Done (with_Forks s (Some fm2)) ∧
      ∀ k, fm2 !! k = if decide (k ∈ l.*1) then join_fork join <$> fm' !! k else fm' !! k).
  { intros Hc. destruct (Hc (range_order o fm) fm s Hs (range_order_NoDup_keys o fm)) as (fm2 & -> & Hfm2).
    { intros k f. by rewrite elem_of_range_order. }
    do 3 f_equal. apply map_eq. intros k. rewrite Hfm2, lookup_fmap. case_decide as Hk; [done|].
    destruct (fm !! k) as [f|] eqn:E; [|done]. destruct Hk.
    apply list_elem_of_fmap. exists (k, f). by rewrite elem_of_range_order. }
  clear. induction l as [|[k f] l IH]; intros fm s Hs Hnd Hl.
  { exists fm. split; [|done]. simpl. by rewrite <- Hs, with_Forks_id. }
  apply NoDup_cons in Hnd as [Hk Hnd].
  assert (Hkf : fm !! k = Some f) by (apply Hl; set_solver).
  cbn [foldl]. change (foldl ?g (mret s ≫= ?h) l) with (foldl g (h s) l). cbn beta.
  rewrite (markJoined_entry_done join fm s k f Hs Hkf).
  destruct (IH (<[k:=join_fork join f]> fm) (with_Forks s (Some (<[k:=join_fork join f]> fm)))) as (fm2 & Heq & Hfm2).
  - done.
  - done.
  - intros k' f' Hin. rewrite lookup_insert_ne; [apply Hl; set_solver|].
    intros ->. destruct Hk. apply list_elem_of_fmap. by exists (k', f').
  - exists fm2. split; [exact Heq|]. intros k'. rewrite Hfm2. simpl.
    destruct (decide (k' = k)) as [->|Hne].
    + rewrite lookup_insert_eq, Hkf. rewrite decide_False by done.
      rewrite decide_True by set_solver. done.
    + rewrite lookup_insert_ne by done. destruct (decide (k' ∈ l.*1)).
      * by rewrite decide_True by set_solver.
      * by rewrite decide_False by set_solver.
Qed.

Lemma Forall_pending_start bs :
  Forall (branch_is "pending") ((λ br, mkBranch br br "pending" [] "") <$> bs).
Proof. apply Forall_fmap, Forall_true. done. Qed.

(** From a well-formed fork (or none) [nextForkStep] reaches a [fork_next] state. *)
Lemma nextForkStep_ok m fm forkID s :
  rs_Forks s = Some fm → (∀ f, fm !! forkID = Some f → fork_ok f) →
  ∃ f' next, nextForkStep m forkID s = Done (with_Forks s (Some (<[forkID := f']> fm)), next) ∧
    fork_next m f' next.
Proof.
  intros Hs Hok. destruct (fm !! forkID) as [f|] eqn:Hf.
  - destruct (Hok f eq_refl) as [[Hst (b & before & after & Hbs & ? & Hb & ?)]|[_ Hc]].
    + apply nextForkStep_next with before (b :: after); rewrite ?Hf; [done..|].
      split_and!; [by right|done|done].
    + apply nextForkStep_next with (fs_Branches f) []; rewrite ?Hf, ?app_nil_r; done.
  - apply nextForkStep_next with [] []; rewrite ?Hf; done.
Qed.

Lemma fork_next_ok m f next : fork_next m f next → fork_ok f.
Proof. intros [(? & b & ? & _)|(? & ? & _)]; [left; eauto|right; eauto]. Qed.

Lemma join_fork_ok join f : fork_ok f → fork_ok (join_fork join f).
Proof.
  unfold join_fork. case_decide as Hc; [|done]. destruct Hc as [_ Hc].
  intros [[? _]|[_ ?]]; [congruence|]. right. split; [by right|done].
Qed.

(** The fork step: starts or resumes the fork. *)
Lemma fork_step_done m fm step s :
  rs_Forks s = Some fm →
  ∃ fm' next, (state ← startFork m step s; nextForkStep m (step_ID step) state)
    = Done (with_Forks s (Some fm'), next) ∧
    ((∀ id f, fm !! id = Some f → fork_ok f) →
     (∀ id f, fm' !! id = Some f → fork_ok f) ∧
     ∃ f', fm' !! step_ID step = Some f' ∧ fork_next m f' next).
Proof.
  intros Hs. destruct (startFork_done m fm step s Hs) as (fm1 & -> & Hfm1). cbn.
  destruct (nextForkStep_spec m fm1 (step_ID step) (with_Forks s (Some fm1)) eq_refl) as (f1 & next & Heq & _).
  exists (<[step_ID step:=f1]> fm1), next. rewrite Heq, with_Forks_twice. split; [done|].
  intros Hok.
  assert (Hnext : ∃ f' next', nextForkStep m (step_ID step) (with_Forks s (Some fm1))
    = Done (with_Forks (with_Forks s (Some fm1)) (Some (<[step_ID step:=f']> fm1)), next') ∧ fork_next m f' next').
  { destruct Hfm1 as [->|(b & bs & join & ->)].
    - apply nextForkStep_ok; [done|naive_solver].
    - pose proof (Forall_pending_start (b :: bs)) as Hp.
      apply nextForkStep_next with [] ((λ br, mkBranch br br "pending" [] "") <$> (b :: bs));
        rewrite ?lookup_insert_eq; [done..|].
      apply Forall_cons in Hp as [??]. split_and!; [by left|done|done]. }
  destruct Hnext as (f' & next' & Heq' & Hfn). rewrite Heq in Heq'. injection Heq' as Hff <-.
  apply (f_equal (.!! step_ID step)) in Hff. rewrite !lookup_insert_eq in Hff. injection Hff as <-.
  split.
  - intros id f Hf. destruct (decide (id = step_ID step)) as [->|Hne].
    + rewrite lookup_insert_eq in Hf. injection Hf as <-. by eapply fork_next_ok.
    + rewrite lookup_insert_ne in Hf by done. destruct Hfm1 as [->|(b & bs & join & ->)]; [by eapply Hok|].
      rewrite lookup_insert_ne in Hf by done. by eapply Hok.
  - exists f1. by rewrite lookup_insert_eq.
Qed.

(** [NextAfter] never panics, writes only the fork map, and keeps it well formed. *)
Lemma NextAfter_done o m step s r :
  ∃ fm' next, NextAfter o m step s r = Done (with_Forks (Normalize s) (Some fm'), next) ∧
    (forks_ok s → ∀ id f, fm' !! id = Some f → fork_ok f).
Proof.
  unfold NextAfter. destruct (NextAfter_entry_Forks s) as (fm & Hfm & Hget).
  set (s1 := match rs_Forks (Normalize s) with None => _ | Some _ => _ end) in *.
  assert (Hs1 : ∀ g, with_Forks s1 g = with_Forks (Normalize s) g)
    by (intros; unfold s1; by destruct (rs_Forks (Normalize s))).
  assert (Hok1 : forks_ok s → ∀ id f, fm !! id = Some f → fork_ok f)
    by (intros Hok id f; rewrite Hget; apply Hok).
  case_decide.
  { destruct (fork_step_done m fm step s1 Hfm) as (fm' & next & -> & Hok').
    exists fm', next. rewrite Hs1. split; [done|]. intros Hok. by apply Hok', Hok1. }
  destruct (branchForCurrentStep o s1 (step_ID step)) as [[forkID i]|] eqn:Hb.
  - apply branchForCurrentStep_Some in Hb as (f & b & Hf & Hst & Hi & Hat).
    rewrite Hfm in Hf. unfold gm_get in Hf; simpl in Hf.
    destruct (nextAfterBranchStep_done m fm forkID i step s1 r f b Hfm Hf Hi) as (f' & next & -> & Hfn).
    exists (<[forkID:=f']> fm), next. rewrite Hs1. split; [done|].
    intros Hok id f2. destruct (decide (id = forkID)) as [->|Hne]; [|rewrite lookup_insert_ne by done; by apply Hok1].
    rewrite lookup_insert_eq. intros [= <-]. destruct Hat as [Hrun _].
    assert (∃ b', one_running (fs_Branches f) b') as [b' Hone].
    { destruct (Hok1 Hok forkID f Hf) as [[_ ?]|[[?|?] _]]; [done|congruence|congruence]. }
    destruct (one_running_lookup _ _ _ _ Hone Hi Hrun) as (before & after & ? & ? & ? & ?).
    eapply fork_next_ok, Hfn; [|done|done]. by exists before, after.
  - destruct (decide (step_Type step = StepJoin)).
    + rewrite markJoined_spec, Hfm. exists (join_fork (step_ID step) <$> fm). eexists.
      rewrite <- Hs1. split; [reflexivity|].
      intros Hok id f. rewrite lookup_fmap. intros (f0 & Hf0 & ->)%fmap_Some.
      by eapply join_fork_ok, Hok1.
    + exists fm. eexists. split; [|exact Hok1].
      rewrite <- Hs1, <- Hfm, with_Forks_id. reflexivity.
Qed.

(** [StepForCurrent] never panics; the caller's state changes in its forks only. *)
Lemma StepForCurrent_done o m s cur :
  ∃ fm next, StepForCurrent o m s cur = Done (with_Forks s fm, next) ∧
    (forks_ok s → forks_ok (with_Forks s fm)).
Proof.
  assert (Hid : ∀ (next : option Step), ∃ fm next', Done (s, next) = Done (with_Forks s fm, next') ∧
    (forks_ok s → forks_ok (with_Forks s fm))).
  { intros next. exists (rs_Forks s), next. by rewrite with_Forks_id. }
  unfold StepForCurrent. destruct cur as [id|]; [|apply Hid].
  destruct (StepByID _ id) as [step|]; [|apply Hid].
  destruct (gm_get (rs_Steps s) id) as [st|]; [|apply Hid]. case_decide; [apply Hid|].
  set (r := match gm_get (ss_Output st) "next_step" with Some _ => _ | None => _ end).
  destruct (NextAfter_done o m step s r) as (fm & next & -> & Hok). cbn.
  destruct (rs_Forks s) eqn:Hf.
  - exists (Some fm), next. split; [done|]. intros ?. unfold forks_ok, gm_get. simpl. by apply Hok.
  - exists None, next. rewrite <- Hf at 2. by rewrite <- Hf, with_Forks_id.
Qed.

Lemma branchForCurrentStep_find o s id forkID i :
  branchForCurrentStep o s id = Some (forkID, i) →
  ∃ f b, gm_get (rs_Forks s) forkID = Some f ∧ fs_Status f = "running" ∧
    list_find (branch_at id) (fs_Branches f) = Some (i, b).
Proof.
  unfold branchForCurrentStep.
  assert (Hin : ∀ k f, (k, f) ∈ range_order o (default ∅ (rs_Forks s)) → gm_get (rs_Forks s) k = Some f).
  { intros k f. rewrite elem_of_range_order. unfold gm_get. by destruct (rs_Forks s). }
  induction (range_order _ _) as [|[k f] l IH]; simpl; [done|].
  case_decide; [intros; apply IH; [set_solver|done]|].
  destruct (list_find _ _) as [[j b]|] eqn:Hf; [|intros; apply IH; [set_solver|done]].
  intros [= -> ->]. exists f, b. split_and!; [apply Hin; set_solver|done|done].
Qed.

(** At most one running fork has a running branch at the step. *)
Definition unique_branch (s : RuntimeState) (id : string) : Prop :=
  ∀ k1 k2 f1 f2 b1 b2,
    gm_get (rs_Forks s) k1 = Some f1 → fs_Status f1 = "running" → b1 ∈ fs_Branches f1 → branch_at id b1 →
    gm_get (rs_Forks s) k2 = Some f2 → fs_Status f2 = "running" → b2 ∈ fs_Branches f2 → branch_at id b2 →
    k1 = k2.

Lemma branchForCurrentStep_order o o' s id :
  unique_branch s id → branchForCurrentStep o s id = branchForCurrentStep o' s id.
Proof.
  intros Hu. destruct (branchForCurrentStep o s id) as [[k i]|] eqn:H1.
  - apply branchForCurrentStep_find in H1 as (f & b & Hf & Hst & Hfind).
    pose proof (proj1 (list_find_Some _ _ _ _) Hfind) as (Hi & Hat & _).
    apply list_elem_of_lookup_2 in Hi.
    destruct (branchForCurrentStep o' s id) as [[k' i']|] eqn:H2.
    + apply branchForCurrentStep_find in H2 as (f' & b' & Hf' & Hst' & Hfind').
      pose proof (proj1 (list_find_Some _ _ _ _) Hfind') as (Hi' & Hat' & _).
      apply list_elem_of_lookup_2 in Hi'.
      assert (k = k') as <- by (eapply (Hu k k'); eauto). congruence.
    + exfalso. rewrite branchForCurrentStep_None in H2. by eapply H2.
  - symmetry. rewrite branchForCurrentStep_None in H1 |- *. done.
Qed.

Lemma unique_branch_Forks s s' id :
  (∀ k, gm_get (rs_Forks s') k = gm_get (rs_Forks s) k) → unique_branch s id → unique_branch s' id.
Proof. unfold unique_branch. intros Heq Hu. intros until b2. rewrite !Heq. apply Hu. Qed.

(** ** Compensation queue *)

Lemma nub_from_ext seen seen' l : (∀ x, x ∈ seen ↔ x ∈ seen') → nub_from seen l = nub_from seen' l.
Proof.
  revert seen seen'. induction l as [|x l IH]; intros seen seen' Hs; simpl; [done|].
  destruct (decide (x ∈ seen)) as [Hx|Hx].
  - rewrite decide_True by (by apply Hs). by apply IH.
  - rewrite decide_False by (by rewrite <- Hs). f_equal. apply IH. set_solver.
Qed.

Lemma comp_loop_spec m ids queue seen seenl :
  (∀ x, x ∈ seen ↔ x ∈ seenl) →
  comp_loop m ids queue seen = queue ++ nub_from seenl (omap (on_failure_of m) ids).
Proof.
  revert queue seen seenl. induction ids as [|id ids IH]; intros queue seen seenl Hs; simpl.
  { by rewrite app_nil_r. }
  unfold on_failure_of at 1. destruct (StepByID _ id) as [step|]; simpl; [|by apply IH].
  case_decide; [by apply IH|]. simpl.
  destruct (decide (step_OnFailure step ∈ seen)) as [Hx|Hx].
  - rewrite decide_True by (by apply Hs). by apply IH.
  - rewrite decide_False by (by rewrite <- Hs).
    rewrite IH with (seenl := step_OnFailure step :: seenl) by set_solver.
    by rewrite <- app_assoc.
Qed.

Lemma CompensationQueue_nub m id s :
  CompensationQueue m id s = nub (omap (on_failure_of m) (id :: reverse (rs_Completed s))).
Proof.
  unfold CompensationQueue. set (q := match StepByID _ id with Some _ => _ | None => _ end).
  rewrite comp_loop_spec with (seenl := q) by (intros; by rewrite elem_of_list_to_set).
  unfold nub. simpl. unfold on_failure_of at 2. subst q.
  destruct (StepByID _ id) as [step|]; simpl; [|done].
  destruct (decide (step_OnFailure step = "")).
  - by rewrite decide_False by tauto.
  - by rewrite decide_True by done.
Qed.

(** [MarkBranchFailed] never panics and writes only the fork map. *)
Lemma MarkBranchFailed_done o s id err :
  ∃ fm, MarkBranchFailed o s id err = Done (with_Forks (Normalize s) fm).
Proof.
  unfold MarkBranchFailed.
  destruct (branchForCurrentStep o (Normalize s) id) as [[forkID i]|] eqn:Hb.
  - apply branchForCurrentStep_Some in Hb as (f & b & Hf & _ & Hi & _).
    unfold gm_get in Hf. destruct (rs_Forks (Normalize s)) as [fm|] eqn:Hfm; [|done]. simpl in Hf.
    unfold gm_get. simpl. rewrite Hf. simpl. rewrite (go_index_some _ _ _ Hi). simpl.
    rewrite go_set_index_lt by (by eapply lookup_lt_Some). simpl. eauto.
  - exists (rs_Forks (Normalize s)). by rewrite with_Forks_id.
Qed.
