(* ===== verification/MachineProps.v ===== *)
(** * What the state machine guarantees

    The properties of machine.go that the engine relies on, and a workflow on which
    the fork/join barrier fails (nested forks). *)

From S2P Require Import Prelude GoTime Workflow Accessors Machine BranchSteps MachineFacts.

(** ** Runs of the machine *)

(** What the engine does with a state between two executions of a step: record a
    completion, ask for the next step, ask for the current step.  The order of the
    loops is arbitrary. *)
Inductive machine_step (m : Machine) : RuntimeState → RuntimeState → Prop :=
| ms_next o step r s s' next :
    NextAfter o m step s r = Done (s', next) → machine_step m s s'
| ms_current o cur s s' next :
    StepForCurrent o m s cur = Done (s', next) → machine_step m s s'
| ms_completed id st s s' :
    MarkCompleted s id st = Done s' → machine_step m s s'.

(** The identifiers of the steps visited by repeated calls of [NextAfter]. *)
Fixpoint follow (n : nat) (o : list string) (m : Machine) (step : Step) (s : RuntimeState) : list string :=
  match n with
  | O => []
  | S n =>
      match NextAfter o m step s None with
      | Done (s', Some next) => step_ID next :: follow n o m next s'
      | _ => []
      end
  end.

(** The state after [n] such calls. *)
Fixpoint follow_state (n : nat) (o : list string) (m : Machine) (step : Step) (s : RuntimeState)
    : option RuntimeState :=
  match n with
  | O => Some s
  | S n =>
      match NextAfter o m step s None with
      | Done (s', Some next) => follow_state n o m next s'
      | _ => None
      end
  end.

(** The step that follows inside of a branch: the one that the result names, otherwise the
    one that the configuration names. *)
Definition successor (step : Step) (result : option Result) : string :=
  if decide (resultNextStepID result = "") then configString (step_Config step) "next" else resultNextStepID result.

(** The steps from the start of a branch to the join [j], given the successor of each: the
    last one has none, or the join. *)
Fixpoint branch_path (next : Step → string) (d : DefinitionDSL) (j : string) (ids : list string) : Prop :=
  match ids with
  | [] => True
  | id :: rest =>
      id ≠ "" ∧ id ≠ j ∧
      (∃ step, StepByID d id = Some step ∧ step_Type step ≠ StepFork ∧
        match rest with
        | [] => next step = "" ∨ next step = j
        | id' :: _ => next step = id'
        end) ∧
      branch_path next d j rest
  end.

(** A chain of plain steps: each step names the next one in its configuration, the last
    names nothing or the join. *)
Abbreviation branch_chain := (branch_path (λ step, configString (step_Config step) "next")).

(** ** Concrete workflows *)

Definition transform (id : string) (cfg : list (string * value)) : Step :=
  mkStep id StepTransform (obj_map (("expr", VStr "1") :: cfg)) None "".
Definition fork_of (id : string) (branches : list string) (join : string) : Step :=
  mkStep id StepFork (obj_map [("branches", VArr (VStr <$> branches)); ("join", VStr join)]) None "".
Definition join_of (id : string) : Step := mkStep id StepJoin (Some ∅) None "".

(** The fan-out example: two branches, the first of two steps. *)
Definition fanout : DefinitionDSL := mkDSL "Fanout" 1
  [fork_of "fanout" ["a1"; "b1"] "join"; transform "a1" [("next", VStr "a2")]; transform "a2" [];
   transform "b1" []; join_of "join"; transform "notify" []].

(** A fork whose first branch starts with another fork. *)
Definition nested : DefinitionDSL := mkDSL "Nested" 1
  [fork_of "outer" ["inner"; "b2"] "J"; fork_of "inner" ["c1"; "c2"] "K";
   transform "c1" []; transform "c2" []; transform "b2" []; join_of "K"; join_of "J"].

(** A saga with two compensated steps. *)
Definition saga : DefinitionDSL := mkDSL "saga" 1
  [mkStep "reserve" StepTransform (obj_map [("expr", VStr "1")]) None "release";
   mkStep "charge" StepTransform (obj_map [("expr", VStr "1")]) None "refund";
   transform "release" []; transform "refund" []].

(** ** Helper lemmas *)

Lemma machine_step_forks_ok m s s' : machine_step m s s' → forks_ok s → forks_ok s'.
Proof.
  intros [o step r s1 s2 next H|o cur s1 s2 next H|id st s1 s2 H] Hok.
  - destruct (NextAfter_done o m step s1 r) as (fm & next' & Heq & Hfm).
    rewrite Heq in H. injection H as <- <-. unfold forks_ok, gm_get. simpl. by apply Hfm.
  - destruct (StepForCurrent_done o m s1 cur) as (fm & next' & Heq & Hfm).
    rewrite Heq in H. injection H as <- <-. by apply Hfm.
  - destruct (MarkCompleted_done s1 id st) as (mm & _ & Heq). rewrite Heq in H. injection H as <-.
    unfold forks_ok. cbv zeta. case_decide; simpl; rewrite Normalize_Forks; apply Hok.
Qed.

(** One fork in progress, none other running. *)
Definition in_progress (s : RuntimeState) (fid j : string) (bs : list BranchState) : Prop :=
  ∃ fm, rs_Forks s = Some fm ∧ rs_Steps s ≠ None ∧ fm !! fid = Some (mkFork "running" j bs) ∧
    ∀ k f, fm !! k = Some f → k ≠ fid → fs_Status f ≠ "running".

Lemma in_progress_branchFor o s fid j before b after :
  in_progress s fid j (before ++ b :: after) →
  Forall (branch_is "completed") before → branch_is "running" b →
  branchForCurrentStep o s (bs_CurrentStepID b) = Some (fid, length before).
Proof.
  intros (fm & Hs & _ & Hf & Hother) Hbefore Hb.
  assert (Hfind : list_find (branch_at (bs_CurrentStepID b)) (before ++ b :: after) = Some (length before, b)).
  { apply list_find_after; [|done]. eapply Forall_impl; [exact Hbefore|].
    unfold branch_is, branch_at. intros x ->. naive_solver. }
  assert (Hget : gm_get (rs_Forks s) fid = Some (mkFork "running" j (before ++ b :: after)))
    by (by rewrite Hs).
  destruct (branchForCurrentStep o s (bs_CurrentStepID b)) as [[k i]|] eqn:Hk.
  - apply branchForCurrentStep_find in Hk as (f & b' & Hkf & Hst & Hfind').
    destruct (decide (k = fid)) as [->|Hne].
    + rewrite Hget in Hkf. injection Hkf as <-. simpl in Hfind'. congruence.
    + exfalso. rewrite Hs in Hkf. by eapply Hother.
  - exfalso. rewrite branchForCurrentStep_None in Hk. apply (Hk _ _ b Hget); [done| |done].
    simpl. set_solver.
Qed.

Lemma NextAfter_branch o m s fid j before b after step result :
  in_progress s fid j (before ++ b :: after) →
  Forall (branch_is "completed") before → branch_is "running" b →
  step_ID step = bs_CurrentStepID b → step_Type step ≠ StepFork →
  NextAfter o m step s result = nextAfterBranchStep m fid (length before) step s result.
Proof.
  intros Hp Hbefore Hb Hid Ht. pose proof Hp as (fm & Hs & Hst & _ & _). unfold NextAfter.
  destruct (rs_Steps s) as [sm|] eqn:Hsm; [|done].
  rewrite (Normalize_nonnil s sm) by done. rewrite Hs, decide_False by done.
  by erewrite Hid, in_progress_branchFor.
Qed.

Lemma in_progress_update s fm fid j bs bs' :
  rs_Steps s ≠ None → fm !! fid = Some (mkFork "running" j bs) →
  (∀ k f, fm !! k = Some f → k ≠ fid → fs_Status f ≠ "running") →
  in_progress (with_Forks s (Some (<[fid := mkFork "running" j bs']> fm))) fid j bs'.
Proof.
  intros Hst Hf Hother. eexists. split_and!; [done|done|apply lookup_insert_eq|].
  intros k f Hk Hne. rewrite lookup_insert_ne in Hk by done. by eapply Hother.
Qed.

Section branch_step.
Context (m : Machine) (s : RuntimeState) (fid j : string) (before : list BranchState) (b : BranchState).
Context (after : list BranchState) (step : Step) (result : option Result).
Hypothesis Hprog : in_progress s fid j (before ++ b :: after).

(** The step of a branch that names a next step: the branch moves to it. *)
Lemma branch_step_jump nx :
  successor step result = nx → nx ≠ "" → nx ≠ j →
  ∃ fm comp, rs_Forks s = Some fm ∧
    let bs := before ++ mkBranch (bs_StartStepID b) nx "running" comp (bs_Error b) :: after in
    let s' := with_Forks s (Some (<[fid := mkFork "running" j bs]> fm)) in
    nextAfterBranchStep m fid (length before) step s result = Done (s', StepByID (m_definition m) nx) ∧
    in_progress s' fid j bs.
Proof.
  destruct Hprog as (fm & Hs & Hst & Hf & Hother). intros <- Hne Hnj. exists fm.
  unfold nextAfterBranchStep. fold (successor step result). rewrite Hs. unfold gm_get; simpl. rewrite Hf. simpl.
  rewrite (go_index_some _ _ b) by (by apply list_lookup_middle). cbn.
  rewrite decide_True by done. rewrite go_set_index_lt by (rewrite length_app; simpl; lia). cbn.
  eexists. split; [done|]. cbn zeta. rewrite insert_app_r_alt, Nat.sub_diag by done. simpl.
  split; [done|]. by eapply in_progress_update.
Qed.

Lemma branch_step_finish :
  Forall (branch_is "completed") before →
  successor step result = "" ∨ successor step result = j →
  ∃ fm b', rs_Forks s = Some fm ∧ branch_is "completed" b' ∧
    match after with
    | [] => nextAfterBranchStep m fid (length before) step s result =
        Done (with_Forks s (Some (<[fid := mkFork "completed" j (before ++ [b'])]> fm)), StepByID (m_definition m) j)
    | b2 :: after2 => branch_is "pending" b2 →
        let bs := (before ++ [b']) ++ branch_start b2 :: after2 in
        let s' := with_Forks s (Some (<[fid := mkFork "running" j bs]> fm)) in
        nextAfterBranchStep m fid (length before) step s result =
          Done (s', StepByID (m_definition m) (bs_CurrentStepID (branch_start b2))) ∧
        in_progress s' fid j bs
    end.
Proof.
  destruct Hprog as (fm & Hs & Hst & Hf & Hother). intros Hbefore Hnext. exists fm.
  unfold nextAfterBranchStep. fold (successor step result). rewrite Hs. unfold gm_get; simpl. rewrite Hf. simpl.
  rewrite (go_index_some _ _ b) by (by apply list_lookup_middle). cbn.
  rewrite decide_False by (destruct Hnext; naive_solver).
  rewrite go_set_index_lt by (rewrite length_app; simpl; lia). cbn.
  set (b' := mkBranch _ _ "completed" _ _).
  rewrite insert_app_r_alt, Nat.sub_diag by done. simpl.
  set (f1 := mkFork "running" j (before ++ b' :: after)).
  destruct (nextForkStep_spec m (<[fid:=f1]> fm) fid (with_Forks s (Some (<[fid:=f1]> fm))) eq_refl)
    as (f' & next & Heq & Hspec).
  rewrite lookup_insert_eq in Hspec. simpl in Hspec.
  specialize (Hspec (before ++ [b']) after ltac:(by rewrite <- app_assoc)
    ltac:(apply Forall_app; split; [done|by constructor])).
  rewrite Heq. exists b'. split_and!; [done|done|].
  destruct after as [|b2 after2].
  - destruct Hspec as [-> ->]. by rewrite insert_insert_eq, with_Forks_twice.
  - intros Hp. destruct Hspec as [-> ->]; [by left|]. rewrite insert_insert_eq, with_Forks_twice.
    split; [done|]. by eapply in_progress_update.
Qed.
End branch_step.

Lemma chain_head nx d j id chain step :
  branch_path nx d j (id :: chain) → StepByID d id = Some step →
  step_ID step = id ∧ step_Type step ≠ StepFork ∧
  match chain with
  | [] => nx step = "" ∨ nx step = j
  | id' :: _ => nx step = id'
  end.
Proof.
  intros (_ & _ & (step' & Hst & ? & ?) & _) Hstep. rewrite Hstep in Hst. injection Hst as <-.
  by apply StepByID_Some in Hstep as [_ ->].
Qed.

Lemma chain_start nx d j id chain :
  branch_path nx d j (id :: chain) → id ≠ "" ∧ ∃ step, StepByID d id = Some step.
Proof. intros (? & _ & (step & ? & _) & _). eauto. Qed.

Lemma chain_next nx d j id id' chain :
  branch_path nx d j (id :: id' :: chain) →
  id' ≠ "" ∧ id' ≠ j ∧ ∃ step, StepByID d id' = Some step ∧ branch_path nx d j (id' :: chain).
Proof.
  intros (_ & _ & _ & Hc). pose proof Hc as (? & ? & (step & ? & _) & _).
  split_and!; [done..|]. by exists step.
Qed.

(** Following the chains of the branches one after the other, up to the join. *)
Lemma follow_chains o m j jstep fid :
  StepByID (m_definition m) j = Some jstep →
  ∀ rest chain id s before b step,
    branch_chain (m_definition m) j (id :: chain) →
    Forall (λ c, c ≠ [] ∧ branch_chain (m_definition m) j c) rest →
    StepByID (m_definition m) id = Some step →
    in_progress s fid j (before ++ b :: ((λ c, mkBranch (default "" (head c)) (default "" (head c)) "pending" [] "") <$> rest)) →
    Forall (branch_is "completed") before → branch_is "running" b → bs_CurrentStepID b = id →
    follow (length chain + length (concat rest) + 1) o m step s = chain ++ concat rest ++ [j].
Proof.
  intros Hj. induction rest as [|c2 rest IHrest].
  - induction chain as [|id' chain IHchain]; intros id s before b step Hchain _ Hstep Hp Hbefore Hb Hcur;
      destruct (chain_head _ _ _ _ _ _ Hchain Hstep) as (Hsid & Ht & Hnext).
    + cbn [length Nat.add follow concat app]. rewrite (NextAfter_branch o m s fid j before b _ step None) by (congruence || done).
      destruct (branch_step_finish m s fid j before b _ step None Hp Hbefore Hnext) as (fm & b' & _ & _ & ->).
      rewrite Hj. by apply StepByID_Some in Hj as [_ ->].
    + cbn [length Nat.add follow]. rewrite (NextAfter_branch o m s fid j before b _ step None) by (congruence || done).
      destruct (chain_next _ _ _ _ _ _ Hchain) as (Hne & Hnj & stp & Hstp & Hc).
      destruct (branch_step_jump m s fid j before b _ step None Hp id' Hnext Hne Hnj) as (fm & comp & _ & -> & Hp').
      rewrite Hstp. pose proof Hstp as [_ ->]%StepByID_Some. cbn [app]. f_equal.
      by eapply IHchain.
  - induction chain as [|id' chain IHchain]; intros id s before b step Hchain Hrest Hstep Hp Hbefore Hb Hcur;
      destruct (chain_head _ _ _ _ _ _ Hchain Hstep) as (Hsid & Ht & Hnext).
    + apply Forall_cons in Hrest as [[Hc2 Hchain2] Hrest]. destruct c2 as [|h t]; [done|].
      replace (length [] + length (concat ((h :: t) :: rest)) + 1)
        with (S (length t + length (concat rest) + 1)) by (simpl; rewrite length_app; lia).
      cbn [follow]. rewrite (NextAfter_branch o m s fid j before b _ step None) by (congruence || done).
      destruct (branch_step_finish m s fid j before b _ step None Hp Hbefore Hnext) as (fm & b' & _ & Hb' & Hfin).
      destruct (Hfin eq_refl) as [-> Hp']. destruct (chain_start _ _ _ _ _ Hchain2) as (Hh & stp & Hstp).
      unfold branch_start in *. simpl in *. rewrite decide_False in * by done.
      rewrite Hstp. pose proof Hstp as [_ ->]%StepByID_Some. f_equal. rewrite <- (app_assoc t).
      eapply IHrest; [exact Hchain2|exact Hrest|exact Hstp|exact Hp'| |done|done].
      apply Forall_app. split; [done|by constructor].
    + cbn [length Nat.add follow]. rewrite (NextAfter_branch o m s fid j before b _ step None) by (congruence || done).
      destruct (chain_next _ _ _ _ _ _ Hchain) as (Hne & Hnj & stp & Hstp & Hc).
      destruct (branch_step_jump m s fid j before b _ step None Hp id' Hnext Hne Hnj) as (fm & comp & _ & -> & Hp').
      rewrite Hstp. pose proof Hstp as [_ ->]%StepByID_Some. cbn [app]. f_equal.
      by eapply IHchain.
Qed.

Lemma fork_step_start o m step s j h branches :
  step_Type step = StepFork → j = forkJoinID (m_definition m) step → j ≠ "" → h ≠ "" →
  configStringSlice (step_Config step) "branches" = Some (h :: branches) →
  (∀ k f, gm_get (rs_Forks s) k = Some f → k ≠ step_ID step ∧ fs_Status f ≠ "running") →
  ∃ s', NextAfter o m step s None = Done (s', StepByID (m_definition m) h) ∧
    in_progress s' (step_ID step) j (mkBranch h h "running" [] "" ::
      ((λ br, mkBranch br br "pending" [] "") <$> branches)) ∧
    ∀ k, k ≠ step_ID step → gm_get (rs_Forks s') k = gm_get (rs_Forks s) k.
Proof.
  intros Ht -> Hj Hh Hbr Hnone. unfold NextAfter. rewrite decide_True by done.
  destruct (NextAfter_entry_Forks s) as (fm & Hfm & Hget).
  set (s1 := match rs_Forks (Normalize s) with None => _ | Some _ => _ end) in *.
  assert (Hst1 : rs_Steps s1 ≠ None).
  { destruct (Normalize_Steps s) as [sm Hsm]. unfold s1.
    destruct (rs_Forks (Normalize s)); simpl; by rewrite Hsm. }
  assert (Habs : fm !! step_ID step = None).
  { destruct (fm !! step_ID step) as [f|] eqn:E; [|done]. rewrite Hget in E. by apply Hnone in E as [? _]. }
  unfold startFork. rewrite Hbr, Hfm. unfold gm_get at 1; simpl. rewrite Habs. simpl.
  rewrite decide_False by done. cbn.
  set (f1 := mkFork "running" _ _).
  destruct (nextForkStep_spec m (<[step_ID step:=f1]> fm) (step_ID step)
    (with_Forks s1 (Some (<[step_ID step:=f1]> fm))) eq_refl) as (f' & next & -> & Hspec).
  rewrite lookup_insert_eq in Hspec. simpl in Hspec.
  destruct (Hspec [] _ eq_refl (Forall_nil_2 _)) as [-> ->]; [by left|].
  unfold branch_start. simpl. rewrite decide_False by done.
  eexists. split; [done|]. rewrite insert_insert_eq. split.
  - eexists. split_and!; [done|done|apply lookup_insert_eq|].
    intros k f Hk Hne. rewrite lookup_insert_ne, Hget in Hk by done. by apply Hnone in Hk as [_ ?].
  - intros k Hk. unfold gm_get at 1. simpl. by rewrite lookup_insert_ne, Hget by done.
Qed.

(** ** Properties *)

(** The machine never panics: for every state (nil maps, any fork table), every
    step and every result, [NextAfter] returns, and the only field it writes is the
    fork map (the other maps are merely made non-nil). *)
Theorem NextAfter_never_panics o m step s r :
  ∃ forks next, NextAfter o m step s r = Done (with_Forks (Normalize s) (Some forks), next).
Proof. destruct (NextAfter_done o m step s r) as (fm & next & ? & _). eauto. Qed.

(** Fork/join barrier as an invariant: in every state reached by the machine from
    a new instance, a fork that is completed or joined has all its branches
    completed, and a running fork has exactly one running branch, with the branches
    before it completed and those after it not started. *)
Theorem join_barrier m s :
  rtc (machine_step m) NewRuntimeState s →
  ∀ id f, gm_get (rs_Forks s) id = Some f → fork_ok f.
Proof.
  intros Hr. change (forks_ok s).
  assert (Hnew : forks_ok NewRuntimeState) by (intros id f; discriminate).
  revert Hnew. induction Hr as [|s1 s2 s3 Hstep _ IH]; [done|].
  intros Hok. apply IH. by eapply machine_step_forks_ok.
Qed.

(** What follows a step of a fork: after the fork step itself, or after a step of
    one of its branches, either a single branch is running and its current step comes
    next, or every branch is completed and the join step comes next. *)
Theorem fork_progress o m step s r s' next forkID :
  forks_ok s →
  NextAfter o m step s r = Done (s', next) →
  (step_Type step = StepFork ∧ forkID = step_ID step ∨
   step_Type step ≠ StepFork ∧ ∃ i, branchForCurrentStep o s (step_ID step) = Some (forkID, i)) →
  ∃ f, gm_get (rs_Forks s') forkID = Some f ∧ fork_next m f next.
Proof.
  intros Hok. unfold NextAfter. destruct (NextAfter_entry_Forks s) as (fm & Hfm & Hget).
  set (s1 := match rs_Forks (Normalize s) with None => _ | Some _ => _ end) in *.
  intros Heq [[Ht ->]|[Ht [i Hi]]].
  - rewrite decide_True in Heq by done. destruct (fork_step_done m fm step s1 Hfm) as (fm' & next' & Hd & Hok').
    rewrite Hd in Heq. injection Heq as <- <-.
    destruct Hok' as (_ & f' & ? & ?); [intros id f; rewrite Hget; apply Hok|].
    exists f'. unfold gm_get. simpl. done.
  - rewrite decide_False in Heq by done.
    assert (Hi1 : branchForCurrentStep o s1 (step_ID step) = Some (forkID, i)).
    { rewrite <- Hi. unfold branchForCurrentStep. do 2 f_equal. rewrite Hfm. simpl.
      apply map_eq. intros k. rewrite Hget. unfold gm_get. by destruct (rs_Forks s); simpl; rewrite ?lookup_empty. }
    rewrite Hi1 in Heq. apply branchForCurrentStep_Some in Hi1 as (f & b & Hf & Hst & Hb & [Hrun _]).
    rewrite Hfm in Hf. unfold gm_get in Hf. simpl in Hf.
    destruct (nextAfterBranchStep_done m fm forkID i step s1 r f b Hfm Hf Hb) as (f' & next' & Hd & Hfn).
    rewrite Hd in Heq. injection Heq as <- <-. exists f'. split.
    { unfold gm_get. simpl. by rewrite lookup_insert_eq. }
    assert (Hfok : fork_ok f) by (apply (Hok forkID); by rewrite <- Hget).
    destruct Hfok as [[_ [b' Hone]]|[[?|?] _]]; [|congruence|congruence].
    destruct (one_running_lookup _ _ _ _ Hone Hb Hrun) as (before & after & ? & ? & ? & ?).
    apply Hfn; [|done|done]. by exists before, after.
Qed.

(** C28: a fork runs its branches one after the other, in the order of its
    configuration, and then its join: when each branch is a chain of plain steps
    ending at the join, the steps that follow the fork are exactly the chains,
    concatenated, and the join. *)
Theorem fork_runs_branches_in_order o m step s j jstep chains :
  step_Type step = StepFork →
  j = forkJoinID (m_definition m) step → j ≠ "" →
  StepByID (m_definition m) j = Some jstep →
  chains ≠ [] →
  Forall (λ c, c ≠ [] ∧ branch_chain (m_definition m) j c) chains →
  configStringSlice (step_Config step) "branches" = Some ((λ c, default "" (head c)) <$> chains) →
  (∀ k f, gm_get (rs_Forks s) k = Some f → k ≠ step_ID step ∧ fs_Status f ≠ "running") →
  follow (length (concat chains) + 1) o m step s = concat chains ++ [j].
Proof.
  intros Ht Hj Hjne Hjs Hne Hchains Hbr Hnone.
  destruct chains as [|[|h t] rest]; [done|by apply Forall_cons in Hchains as [[? _] _]|].
  apply Forall_cons in Hchains as [[_ Hc] Hrest].
  destruct (chain_start _ _ _ _ _ Hc) as (Hh & hstep & Hhs).
  destruct (fork_step_start o m step s j h (fmap (M:=list) (λ c : list string, default "" (head c)) rest) Ht Hj Hjne Hh Hbr Hnone) as (s' & Heq & Hp & _).
  replace (length (concat ((h :: t) :: rest)) + 1) with (S (length t + length (concat rest) + 1))
    by (simpl; rewrite length_app; lia).
  cbn [follow]. rewrite Heq, Hhs. pose proof Hhs as [_ ->]%StepByID_Some.
  cbn [concat app]. rewrite <- app_assoc. f_equal.
  rewrite <- list_fmap_compose in Hp.
  by eapply (follow_chains o m j jstep (step_ID step) Hjs rest t h s' []).
Qed.

(** The linear path of [NewMachine] is the definition's step list, in order,
    without the compensation targets and without the steps inside a fork branch
    (reachable from a branch by next/then/else references without passing the join). *)
Theorem normal_path d step :
  sublist (m_normal (NewMachine d)) (dsl_Steps d) ∧
  (step ∈ m_normal (NewMachine d) ↔
     step ∈ dsl_Steps d ∧
     ¬ (step_ID step ≠ "" ∧ ∃ s', s' ∈ dsl_Steps d ∧ step_OnFailure s' = step_ID step) ∧
     ¬ ∃ fork, fork ∈ dsl_Steps d ∧ in_fork_branch d fork (step_ID step)).
Proof.
  unfold NewMachine. simpl. split; [apply sublist_filter|].
  rewrite list_elem_of_filter, elem_of_CompensationRefs, elem_of_collectForkBranchSteps.
  split.
  - intros [[Hc Hb] Hin]. split_and!; [done|done|]. intros Hf. apply Hb. split; [|done].
    apply StepByID_is_Some, list_elem_of_fmap. eauto.
  - intros (Hin & Hc & Hb). split; [|done]. split; [done|]. by intros [_ ?].
Qed.

(** C29: the compensation queue is the failed step's own handler followed by the
    handlers of the completed steps in reverse completion order, each handler once;
    it contains the handlers of exactly the failed and the completed steps. *)
Theorem compensation_order m failed s :
  let q := CompensationQueue m failed s in
  q = nub (omap (on_failure_of m) (failed :: reverse (rs_Completed s))) ∧
  NoDup q ∧ (∀ id, id ∈ q ↔ ∃ x, (x = failed ∨ x ∈ rs_Completed s) ∧ on_failure_of m x = Some id).
Proof.
  cbv zeta. rewrite CompensationQueue_nub. split_and!; [done|apply NoDup_nub|].
  intros id. rewrite elem_of_nub, list_elem_of_omap. setoid_rewrite elem_of_cons.
  setoid_rewrite elem_of_reverse. naive_solver.
Qed.

(** The random order of Go's map iteration does not change the next step, as
    long as the current step is in a running branch of at most one running fork. *)
Theorem NextAfter_order_independent o o' m step s r :
  unique_branch s (step_ID step) → NextAfter o m step s r = NextAfter o' m step s r.
Proof.
  intros Hu. unfold NextAfter. case_decide; [done|].
  destruct (NextAfter_entry_Forks s) as (fm & Hfm & Hget).
  set (s1 := match rs_Forks (Normalize s) with None => _ | Some _ => _ end) in *.
  rewrite (branchForCurrentStep_order o o').
  - destruct (branchForCurrentStep o' s1 _) as [[??]|]; [done|]. by rewrite !markJoined_spec.
  - eapply unique_branch_Forks; [|exact Hu]. intros k. rewrite Hfm, <- Hget. done.
Qed.

(** The fork/join barrier does not hold for nested forks: when the first branch
    of [outer] is itself a fork, the machine runs [inner], its branches and its join
    [K], and then the join [J] of [outer], although the branch [b2] of [outer] has
    not run (it is still pending in the state reached). *)
Theorem nested_fork_skips_branch :
  let m := NewMachine nested in
  let outer := fork_of "outer" ["inner"; "b2"] "J" in
  follow 6 [] m outer NewRuntimeState = ["inner"; "c1"; "c2"; "K"; "J"] ∧
  ∃ s f, follow_state 5 [] m outer NewRuntimeState = Some s ∧
    gm_get (rs_Forks s) "outer" = Some f ∧ fs_Status f = "running" ∧
    bs_Status <$> fs_Branches f = ["running"; "pending"].
Proof. vm_compute. split; [reflexivity|]. eexists _, _. repeat split; reflexivity. Qed.

(** ** Witnesses *)

Definition fanout_machine : Machine := NewMachine fanout.
Definition fanout_fork : Step := fork_of "fanout" ["a1"; "b1"] "join".
Definition fanout_started : RuntimeState :=
  default NewRuntimeState (follow_state 1 [] fanout_machine fanout_fork NewRuntimeState).

Lemma join_barrier_witness :
  rtc (machine_step fanout_machine) NewRuntimeState fanout_started ∧
  (∀ id f, gm_get (rs_Forks fanout_started) id = Some f → fork_ok f) ∧
  gm_get (rs_Forks fanout_started) "fanout" ≠ None.
Proof.
  assert (Hr : rtc (machine_step fanout_machine) NewRuntimeState fanout_started).
  { apply rtc_once. apply ms_next with [] fanout_fork None (Some (transform "a1" [("next", VStr "a2")])).
    vm_compute. reflexivity. }
  split; [exact Hr|]. split; [apply (join_barrier fanout_machine fanout_started Hr)|].
  vm_compute. discriminate.
Defined.

Lemma fanout_new_ok : forks_ok NewRuntimeState.
Proof. intros id f. discriminate. Qed.

Lemma fork_progress_witness :
  ∃ f, gm_get (rs_Forks fanout_started) "fanout" = Some f ∧
    fork_next fanout_machine f (Some (transform "a1" [("next", VStr "a2")])).
Proof.
  apply (fork_progress [] fanout_machine fanout_fork NewRuntimeState None fanout_started
    (Some (transform "a1" [("next", VStr "a2")])) "fanout" fanout_new_ok).
  - vm_compute. reflexivity.
  - left. split; reflexivity.
Defined.

Lemma fork_runs_branches_in_order_witness :
  follow 4 [] fanout_machine fanout_fork NewRuntimeState = ["a1"; "a2"; "b1"; "join"].
Proof.
  apply (fork_runs_branches_in_order [] fanout_machine fanout_fork NewRuntimeState "join"
    (join_of "join") [["a1"; "a2"]; ["b1"]]); try reflexivity; try discriminate.
  repeat constructor; try discriminate; eexists; repeat split; try discriminate; vm_compute; auto.
Defined.

Lemma NextAfter_order_independent_witness :
  NextAfter [] fanout_machine fanout_fork NewRuntimeState None =
  NextAfter ["x"; "y"] fanout_machine fanout_fork NewRuntimeState None.
Proof.
  apply NextAfter_order_independent. intros k1 k2 f1 f2 b1 b2 H1. discriminate H1.
Defined.
