(* ===== verification/Json.v ===== *)
(** * What survives the database: the JSON round trip of values and states

    The store writes a [RuntimeState] with [json.Marshal] into a JSONB column and
    reads it back with [json.Unmarshal].  [json_norm] is the composition of the two
    on a value of type [any] (integers come back as float64, string slices as
    [[]any], nil maps as nil), and [reload] on a state, with the [omitempty] tags of
    types.go.  Strings are taken to be valid UTF-8 without NUL, which both ends keep
    unchanged. *)

From S2P Require Import Prelude GoNum GoTime Workflow Accessors Machine MachineFacts.

(** A fork in the map of forks, as [json.Marshal] writes it. *)
Definition branch_value (b : BranchState) : value :=
  VObj (obj_map (
    [("start_step_id", VStr (bs_StartStepID b)); ("status", VStr (bs_Status b))] ++
    (if decide (bs_CurrentStepID b = "") then [] else [("current_step_id", VStr (bs_CurrentStepID b))]) ++
    (if decide (bs_Completed b = []) then [] else [("completed", VArr (VStr <$> bs_Completed b))]) ++
    (if decide (bs_Error b = "") then [] else [("error", VStr (bs_Error b))]))).
Definition fork_value (f : ForkState) : value :=
  VObj (obj_map [("status", VStr (fs_Status f)); ("join_step_id", VStr (fs_JoinStepID f));
                 ("branches", VArr (branch_value <$> fs_Branches f))]).

(** The numeric type of JSONB has no negative zero. *)
Definition json_float (f : float64) : float64 :=
  match f with SpecFloat.S754_zero _ => SpecFloat.S754_zero false | _ => f end.

Fixpoint json_norm (v : value) : value :=
  match v with
  | VNil | VBool _ | VStr _ => v
  | VInt z => VFloat (json_float (f64_of_Z z))
  | VFloat f => VFloat (json_float f)
  | VStrs l => VArr (VStr <$> l)
  | VArr l => VArr (json_norm <$> l)
  | VObj None => VNil
  | VObj (Some m) => VObj (Some (json_norm <$> m))
  | VForks None => VNil
  | VForks (Some m) => VObj (Some (fork_value <$> m))
  end.

(** [json.Marshal] fails on an infinity or a NaN. *)
Fixpoint json_ok (v : value) : bool :=
  match v with
  | VFloat f => f64_finite f
  | VArr l => forallb json_ok l
  | VObj (Some m) => map_fold (fun _ v acc => json_ok v && acc) true m
  | _ => true
  end.

Definition output_json_ok (m : gomap value) : bool := json_ok (VObj m).
Definition state_json_ok (s : RuntimeState) : bool :=
  map_fold (fun _ st acc => json_ok (ss_Body st) && output_json_ok (ss_Output st) && acc)
    true (default ∅ (rs_Steps s)).

Definition reload_map {A B} (f : A → B) (m : gomap A) : gomap B :=
  match m with
  | Some m => if decide (m = ∅) then None else Some (f <$> m)
  | None => None
  end.

Definition reload_step (st : StepState) : StepState :=
  mkStepState (ss_Status st) (json_norm (ss_Body st)) (reload_map json_norm (ss_Output st))
    (ss_Error st) (ss_Attempt st) (ss_IdempotencyKey st) (ss_WaitingTime st).

Definition reload (s : RuntimeState) : RuntimeState :=
  mkRuntime ((fun m : gmap string StepState => reload_step <$> m) <$> rs_Steps s)
    (rs_Completed s) (rs_CompensationQueue s) (reload_map id (rs_Forks s)) (rs_StartedAt s).

(** A map of the database row: [null] comes back as a nil map. *)
Definition reload_obj (m : gomap value) : gomap value :=
  (fun m : gmap string value => json_norm <$> m) <$> m.

(** ** The definition, stored the same way *)
Definition reload_config (c : gomap value) : gomap value := reload_obj c.
Definition reload_Step (s : Step) : Step :=
  mkStep (step_ID s) (step_Type s) (reload_config (step_Config s)) (step_Retry s) (step_OnFailure s).
Definition reload_dsl (d : DefinitionDSL) : DefinitionDSL :=
  mkDSL (dsl_Name d) (dsl_Version d) (reload_Step <$> dsl_Steps d).
Definition dsl_json_ok (d : DefinitionDSL) : bool :=
  forallb (fun s => json_ok (VObj (step_Config s)) &&
    match step_Retry s with Some r => f64_finite (rp_Multiplier r) | None => true end) (dsl_Steps d).

(** ** Lemmas *)

Fixpoint vdepth (v : value) : nat :=
  match v with
  | VArr l => S (foldr (fun v n => Nat.max (vdepth v) n) 0 l)
  | VObj (Some m) => S (map_fold (fun _ v n => Nat.max (vdepth v) n) 0 m)
  | _ => 0
  end.

Lemma vdepth_arr l v : v ∈ l → vdepth v < vdepth (VArr l).
Proof. simpl. induction 1; simpl; lia. Qed.

Lemma vdepth_obj m k v : m !! k = Some v → vdepth v < vdepth (VObj (Some m)).
Proof.
  intros Hk. simpl.
  assert (vdepth v ≤ map_fold (λ _ v n, Nat.max (vdepth v) n) 0 m); [|lia].
  revert Hk. apply (map_fold_weak_ind (λ n m, m !! k = Some v → vdepth v ≤ n)); [done|].
  intros i x m' n Hi IH. rewrite lookup_insert. case_decide as Hik.
  - intros [= ->]. lia.
  - intros ?%IH. lia.
Qed.

(** Induction on the nesting of a value. *)
Lemma value_depth_ind (P : value → Prop) :
  (∀ v, (∀ l v', v = VArr l → v' ∈ l → P v') →
        (∀ m k v', v = VObj (Some m) → m !! k = Some v' → P v') → P v) → ∀ v, P v.
Proof.
  intros HP. cut (∀ n v, vdepth v < n → P v); [eauto|].
  induction n as [|n IH]; intros v Hv; [lia|]. apply HP.
  - intros l v' -> Hin%vdepth_arr. apply IH. lia.
  - intros m k v' -> Hk%vdepth_obj. apply IH. lia.
Qed.

Lemma map_Forall_fmap_id {A} (f : A → A) (m : gmap string A) :
  (∀ k a, m !! k = Some a → f a = a) → f <$> m = m.
Proof.
  intros Hf. apply map_eq. intros k. rewrite lookup_fmap.
  destruct (m !! k) as [a|] eqn:Hk; simpl; [|done]. f_equal. by eapply Hf.
Qed.

Lemma list_fmap_fix {A} (f : A → A) (l : list A) : (∀ a, a ∈ l → f a = a) → f <$> l = l.
Proof. intros Hf. induction l as [|a l IH]; [done|]. rewrite fmap_cons, Hf, IH; set_solver. Qed.

Lemma json_float_idemp f : json_float (json_float f) = json_float f.
Proof. by destruct f. Qed.

(** A value already in the form [json.Unmarshal] produces. *)
Definition json_normal (v : value) : Prop := json_norm v = v.

Lemma json_normal_strs l : json_normal (VArr (VStr <$> l)).
Proof.
  unfold json_normal. simpl. f_equal. apply list_fmap_fix.
  intros v (s & -> & _)%list_elem_of_fmap. done.
Qed.

Lemma json_normal_obj kvs : Forall (λ kv, json_normal kv.2) kvs → json_normal (VObj (obj_map kvs)).
Proof.
  intros Hkv. unfold json_normal, obj_map. simpl. do 2 f_equal.
  apply map_Forall_fmap_id. intros k v Hk%elem_of_list_to_map_2.
  rewrite Forall_forall in Hkv. apply (Hkv (k, v) Hk).
Qed.

Lemma json_normal_fork f : json_normal (fork_value f).
Proof.
  apply json_normal_obj. repeat (constructor; [done || unfold json_normal; simpl|]); [|constructor].
  f_equal. apply list_fmap_fix. intros v (b & -> & _)%list_elem_of_fmap.
  apply json_normal_obj. repeat apply Forall_app_2; repeat case_decide; repeat constructor.
  apply json_normal_strs.
Qed.

Lemma json_norm_idemp v : json_norm (json_norm v) = json_norm v.
Proof.
  induction v as [v IHl IHm] using value_depth_ind. destruct v as [| | |f| |l|l|[m|]|[m|]]; try done.
  - simpl. by rewrite json_float_idemp.
  - simpl. by rewrite json_float_idemp.
  - apply json_normal_strs.
  - simpl. f_equal. rewrite <- list_fmap_compose. apply list_fmap_ext. intros i v Hv.
    apply (IHl l v eq_refl). by eapply list_elem_of_lookup_2.
  - simpl. do 2 f_equal. rewrite <- map_fmap_compose. apply map_fmap_ext. intros k v Hk. by eapply IHm.
  - simpl. do 2 f_equal. rewrite <- map_fmap_compose. apply map_fmap_ext.
    intros k f _. apply json_normal_fork.
Qed.

Lemma reload_map_idemp {A} (f : A → A) m :
  (∀ a, f (f a) = f a) → reload_map f (reload_map f m) = reload_map f m.
Proof.
  intros Hf. destruct m as [m|]; [|done]. simpl. case_decide as Hm; [done|]. simpl.
  rewrite decide_False by (by rewrite fmap_empty_iff). f_equal.
  rewrite <- map_fmap_compose. apply map_fmap_ext. intros k a _. apply Hf.
Qed.

Lemma reload_step_idemp st : reload_step (reload_step st) = reload_step st.
Proof.
  unfold reload_step. simpl. rewrite json_norm_idemp, reload_map_idemp; [done|apply json_norm_idemp].
Qed.

Lemma reload_idemp s : reload (reload s) = reload s.
Proof.
  unfold reload. simpl. f_equal.
  - destruct (rs_Steps s) as [m|]; [|done]. simpl. f_equal. rewrite <- map_fmap_compose.
    apply map_fmap_ext. intros k st _. apply (reload_step_idemp st).
  - apply reload_map_idemp. done.
Qed.

Lemma reload_Normalize s : reload (Normalize s) = Normalize (reload s).
Proof. destruct s as [[m|]]; [done|]. unfold reload, Normalize. simpl. by rewrite fmap_empty. Qed.

Lemma gm_get_reload_steps s id :
  gm_get (rs_Steps (reload s)) id = reload_step <$> gm_get (rs_Steps s) id.
Proof. unfold gm_get. destruct s as [[m|]]; simpl; [|done]. by rewrite lookup_fmap. Qed.

Lemma gm_get_reload_map {A B} (f : A → B) m k : gm_get (reload_map f m) k = f <$> gm_get m k.
Proof.
  unfold gm_get. destruct m as [m|]; [|done]. simpl. case_decide as Hm; simpl.
  - by rewrite Hm, lookup_empty.
  - by rewrite lookup_fmap.
Qed.

Lemma gm_get_reload_forks s id : gm_get (rs_Forks (reload s)) id = gm_get (rs_Forks s) id.
Proof. simpl. rewrite gm_get_reload_map. by destruct (gm_get _ _). Qed.

Lemma reload_step_state s id : step_state (reload s) id = reload_step (step_state s id).
Proof. unfold step_state. rewrite gm_get_reload_steps. by destruct (gm_get _ _). Qed.

(** The fork map read by [NextAfter] is the same before and after the round trip. *)
Lemma reload_default_forks s :
  default ∅ (rs_Forks (reload s)) = default ∅ (rs_Forks s).
Proof.
  simpl. destruct (rs_Forks s) as [m|]; [|done]. simpl. case_decide as Hm; simpl; [done|].
  by rewrite map_fmap_id.
Qed.

Lemma json_norm_str v s : json_norm v = VStr s ↔ v = VStr s.
Proof. split; [|by intros ->]. destruct v as [| | | | | | |[]|[]]; simpl; congruence. Qed.
