(* ===== verification/Store.v ===== *)
(** * internal/store: the repository on PostgreSQL tables

    The tables of migrations/ as finite maps keyed by their primary key, and every
    statement of postgres.go as a function on them.  Each function takes the reading
    of the database clock ([now()]) and the fresh UUID of [gen_random_uuid()] where
    the statement uses one, and the order [o] in which rows with equal sort keys
    come.  A query that fails for another reason (connection, timeout, malformed
    UUID text, integer out of range) is a fault of the call, see [Effects].
    A state is stored in the form [json.Unmarshal] gives back ([reload]). *)

From stdpp Require Import sorting.
From S2P Require Import Prelude GoNum GoTime Workflow Accessors Json.

(** ** store.go: the data of the interface *)
Record Definition_ := mkDefinition {
  d_ID : string;
  d_TenantID : string;
  d_Name : string;
  d_Version : Z;
  d_DSL : DefinitionDSL;
  d_CreatedAt : time;
  d_UpdatedAt : time;
}.

Record Instance_ := mkInstance {
  i_ID : string;
  i_TenantID : string;
  i_DefinitionID : string;
  i_DefinitionVersion : Z;
  i_Status : string;
  i_Input : gomap value;
  i_CurrentStepID : option string;
  i_State : RuntimeState;
  i_Version : Z;
  i_CreatedAt : time;
  i_UpdatedAt : time;
}.

Record History := mkHistory {
  h_ID : string;
  h_InstanceID : string;
  h_StepID : string;
  h_Status : string;
  h_Input : gomap value;
  h_Output : gomap value;
  h_Error : option string;
  h_Attempt : Z;
  h_StartedAt : time;
  h_CompletedAt : option time;
}.

Record Timer := mkTimer {
  t_InstanceID : string;
  t_StepID : string;
  t_FireAt : time;
}.

Definition ErrInstanceBusy : string := "instance is owned by another worker".
Definition ErrOptimisticLock : string := "optimistic lock conflict".
(** [pgx.ErrNoRows] *)
Definition ErrNoRows : string := "no rows in result set".

(** Updates of the fields that the engine assigns. *)
Definition with_state (i : Instance_) (s : RuntimeState) : Instance_ :=
  mkInstance (i_ID i) (i_TenantID i) (i_DefinitionID i) (i_DefinitionVersion i) (i_Status i)
    (i_Input i) (i_CurrentStepID i) s (i_Version i) (i_CreatedAt i) (i_UpdatedAt i).
Definition with_progress (i : Instance_) (status : string) (cur : option string) (s : RuntimeState) : Instance_ :=
  mkInstance (i_ID i) (i_TenantID i) (i_DefinitionID i) (i_DefinitionVersion i) status
    (i_Input i) cur s (i_Version i) (i_CreatedAt i) (i_UpdatedAt i).
Definition with_ID (i : Instance_) (id : string) : Instance_ :=
  mkInstance id (i_TenantID i) (i_DefinitionID i) (i_DefinitionVersion i) (i_Status i)
    (i_Input i) (i_CurrentStepID i) (i_State i) (i_Version i) (i_CreatedAt i) (i_UpdatedAt i).
Definition with_version (i : Instance_) (v : Z) : Instance_ :=
  mkInstance (i_ID i) (i_TenantID i) (i_DefinitionID i) (i_DefinitionVersion i) (i_Status i)
    (i_Input i) (i_CurrentStepID i) (i_State i) v (i_CreatedAt i) (i_UpdatedAt i).

(** A TIMESTAMPTZ column has microsecond resolution; the driver truncates. *)
Class PgClock := {
  pg_time : time → time;
  pg_time_le : ∀ t, (pg_time t ≤ t)%Z;
  pg_time_gt : ∀ t, (t - Microsecond < pg_time t)%Z;
}.

#[global, program] Instance pg_truncate : PgClock := {| pg_time t := (t / Microsecond * Microsecond)%Z |}.
Next Obligation. intros t. unfold Microsecond. pose proof (Z_div_mod_eq_full t 1000). pose proof (Z.mod_pos_bound t 1000). lia. Qed.
Next Obligation. intros t. unfold Microsecond. pose proof (Z_div_mod_eq_full t 1000). pose proof (Z.mod_pos_bound t 1000). lia. Qed.

(** ** The tables

    The key of a map is the primary-key column; the field of the record that holds
    it is filled in when a row is scanned. *)
Record InstanceRow := mkRow {
  row_inst : Instance_;
  locked_by : option string;
  locked_until : option time;
}.

Record DB := mkDB {
  db_definitions : gmap string Definition_;
  db_instances : gmap string InstanceRow;
  db_history : gmap string History;
  db_timers : gmap string Timer;
}.

Definition set_definitions db t := mkDB t (db_instances db) (db_history db) (db_timers db).
Definition set_instances db t := mkDB (db_definitions db) t (db_history db) (db_timers db).
Definition set_history db t := mkDB (db_definitions db) (db_instances db) t (db_timers db).
Definition set_timers db t := mkDB (db_definitions db) (db_instances db) (db_history db) t.
Definition empty_db : DB := mkDB ∅ ∅ ∅ ∅.

Definition tenant_or_default (tenantID : string) : string :=
  if decide (tenantID = "") then "default" else tenantID.

Definition no_rows {A} (ctx : string) : res A := Err (ErrWrap ctx (ErrSentinel ErrNoRows)).
Definition json_err {A} (ctx : string) : res A := Err (ErrWrap ctx (ErrText "json: unsupported value")).

Definition key_le {A} (key : A → time) (a b : A) : Prop := (key a ≤ key b)%Z.
#[global] Instance key_le_dec {A} (key : A → time) : RelDecision (key_le key).
Proof. unfold key_le. intros a b. apply _. Defined.
#[global] Instance key_le_total {A} (key : A → time) : Total (key_le key).
Proof. intros a b. unfold key_le. lia. Qed.
#[global] Instance key_le_trans {A} (key : A → time) : Transitive (key_le key).
Proof. intros a b c. unfold key_le. lia. Qed.

(** The rows of a table in an order sorted by a time, ties in the order [o]. *)
Definition order_by {A} (key : A → time) (o : list string) (t : gmap string A) : list (string * A) :=
  merge_sort (key_le (fun kv => key kv.2)) (range_order o t).
Definition limit_or (default_limit : nat) (limit : Z) : nat :=
  if decide (limit ≤ 0)%Z then default_limit else Z.to_nat limit.

Section postgres.
Context `{PgClock}.
Implicit Types (db : DB) (now : time) (id owner : string) (o : list string).

(** ** Definitions *)

Definition CreateDefinition now (new_id tenantID : string) (dsl : DefinitionDSL) db : res Definition_ * DB :=
  let tenantID := tenant_or_default tenantID in
  if negb (dsl_json_ok dsl) then (json_err "marshal definition dsl", db)
  else if decide (map_Exists (fun _ d => d_TenantID d = tenantID ∧ d_Name d = dsl_Name dsl ∧
                                 d_Version d = dsl_Version dsl) (db_definitions db)
                  ∨ is_Some (db_definitions db !! new_id))
  then (Err (ErrWrap "insert definition" (ErrText "duplicate key value violates unique constraint")), db)
  else
    let d := mkDefinition new_id tenantID (dsl_Name dsl) (dsl_Version dsl) dsl now now in
    let row := mkDefinition new_id tenantID (dsl_Name dsl) (dsl_Version dsl) (reload_dsl dsl) now now in
    (Ok d, set_definitions db (<[new_id := row]> (db_definitions db))).

Definition scan_definition id (d : Definition_) : Definition_ :=
  mkDefinition id (d_TenantID d) (d_Name d) (d_Version d) (d_DSL d) (d_CreatedAt d) (d_UpdatedAt d).

Definition GetDefinition id db : res Definition_ :=
  match db_definitions db !! id with
  | Some d => Ok (scan_definition id d)
  | None => no_rows "definition not found"
  end.

Definition GetDefinitionForTenant (tenantID : string) id db : res Definition_ :=
  match db_definitions db !! id with
  | Some d => if decide (d_TenantID d = tenant_or_default tenantID) then Ok (scan_definition id d)
              else no_rows "definition not found"
  | None => no_rows "definition not found"
  end.

(** ** Instances *)

(** The foreign key (tenant_id, definition_id). *)
Definition definition_fk (tenantID definitionID : string) db : Prop :=
  ∃ d, db_definitions db !! definitionID = Some d ∧ d_TenantID d = tenantID.
#[global] Instance definition_fk_dec t d db : Decision (definition_fk t d db).
Proof.
  unfold definition_fk. destruct (db_definitions db !! d) as [x|]; [|right; naive_solver].
  destruct (decide (d_TenantID x = t)); [left|right]; naive_solver.
Defined.

(** [time.Now().UTC()] of the caller is [started]. *)
Definition CreateInstance now (started : time) (new_id tenantID : string) (definition : Definition_)
    (input : gomap value) db : res Instance_ * DB :=
  let tenantID := tenant_or_default tenantID in
  if negb (json_ok (VObj input)) then (json_err "marshal instance input", db)
  else if decide (is_Some (db_instances db !! new_id) ∨ ¬ definition_fk tenantID (d_ID definition) db)
  then (Err (ErrWrap "insert instance" (ErrText "violates constraint")), db)
  else
    let inst state input := mkInstance new_id tenantID (d_ID definition) (d_Version definition)
      InstancePending input None state 0 now now in
    let state := with_StartedAt NewRuntimeState started in
    (Ok (inst state input),
     set_instances db (<[new_id := mkRow (inst (reload state) (reload_obj input)) None None]> (db_instances db))).

(** Scanning a row: the state is normalized after [json.Unmarshal]. *)
Definition scan_instance id (row : InstanceRow) : Instance_ :=
  with_ID (with_state (row_inst row) (Normalize (i_State (row_inst row)))) id.

Definition GetInstance id db : res Instance_ :=
  match db_instances db !! id with
  | Some row => Ok (scan_instance id row)
  | None => no_rows "instance not found"
  end.

Definition GetInstanceForTenant (tenantID : string) id db : res Instance_ :=
  match db_instances db !! id with
  | Some row => if decide (i_TenantID (row_inst row) = tenant_or_default tenantID)
                then Ok (scan_instance id row) else no_rows "instance not found"
  | None => no_rows "instance not found"
  end.

Definition lease_free now (owner : option string) (row : InstanceRow) : Prop :=
  match locked_until row with
  | None => True
  | Some t => (t ≤ now)%Z ∨ (owner ≠ None ∧ locked_by row = owner)
  end.
#[global] Instance lease_free_dec now (ow : option string) row : Decision (lease_free now ow row).
Proof. unfold lease_free. destruct (locked_until row); apply _. Defined.

Definition claimable now owner (row : InstanceRow) : Prop :=
  i_Status (row_inst row) ≠ InstanceCompleted ∧ i_Status (row_inst row) ≠ InstanceFailed ∧
  lease_free now (Some owner) row.
#[global] Instance claimable_dec now owner row : Decision (claimable now owner row).
Proof. unfold claimable. apply _. Defined.

Definition ClaimInstance now id owner (leaseUntil : time) db : res Instance_ * DB :=
  match db_instances db !! id with
  | Some row =>
      if decide (claimable now owner row) then
        (Ok (scan_instance id row),
         set_instances db (<[id := mkRow (row_inst row) (Some owner) (Some (pg_time leaseUntil))]> (db_instances db)))
      else (Err (ErrWrap "claim instance" (ErrSentinel ErrInstanceBusy)), db)
  | None => (Err (ErrWrap "claim instance" (ErrSentinel ErrInstanceBusy)), db)
  end.

Definition ReleaseInstance id owner db : DB :=
  match db_instances db !! id with
  | Some row =>
      if decide (locked_by row = Some owner)
      then set_instances db (<[id := mkRow (row_inst row) None None]> (db_instances db)) else db
  | None => db
  end.

Definition recoverable_statuses : list string :=
  [InstancePending; InstanceRunning; InstanceWaitingTimer; InstanceCompensating].
Definition recoverable now (row : InstanceRow) : Prop :=
  i_Status (row_inst row) ∈ recoverable_statuses ∧ lease_free now None row.
#[global] Instance recoverable_dec now row : Decision (recoverable now row).
Proof. unfold recoverable. apply _. Defined.

Definition ListRecoverableInstances now o (limit : Z) db : list Instance_ :=
  (fun kv => scan_instance kv.1 kv.2) <$> take (limit_or 100 limit)
    (order_by (fun row => i_UpdatedAt (row_inst row)) o
       (filter (fun kv => recoverable now kv.2) (db_instances db))).

(** Returns the instance with the version the Go function assigns to it. *)
Definition UpdateInstance now (inst : Instance_) (expectedVersion : Z) db : res Instance_ * DB :=
  if negb (state_json_ok (i_State inst)) then (json_err "marshal instance state", db)
  else
    match db_instances db !! i_ID inst with
    | Some row =>
        let r := row_inst row in
        if decide (i_Version r = expectedVersion) then
          let r' := mkInstance (i_ID r) (i_TenantID r) (i_DefinitionID r) (i_DefinitionVersion r)
                      (i_Status inst) (i_Input r) (i_CurrentStepID inst) (reload (i_State inst))
                      (i_Version r + 1) (i_CreatedAt r) now in
          (Ok (with_version inst (expectedVersion + 1)),
           set_instances db (<[i_ID inst := mkRow r' (locked_by row) (locked_until row)]> (db_instances db)))
        else (Err (ErrWrap "update instance optimistic lock" (ErrSentinel ErrOptimisticLock)), db)
    | None => (Err (ErrWrap "update instance optimistic lock" (ErrSentinel ErrOptimisticLock)), db)
    end.

(** ** Execution history *)

(** [now] is the caller's clock, read when [StartedAt] is zero. *)
Definition AppendHistory now (new_id : string) (history : History) db : res History * DB :=
  if negb (json_ok (VObj (h_Input history))) then (json_err "marshal history input", db)
  else if negb (json_ok (VObj (h_Output history))) then (json_err "marshal history output", db)
  else
    let started := if time_is_zero (h_StartedAt history) then now else h_StartedAt history in
    if decide (is_Some (db_history db !! new_id) ∨ db_instances db !! h_InstanceID history = None)
    then (Err (ErrWrap "insert execution history" (ErrText "violates constraint")), db)
    else
      let out input output started completed :=
        mkHistory new_id (h_InstanceID history) (h_StepID history) (h_Status history) input output
          (h_Error history) (h_Attempt history) started completed in
      (Ok (out (h_Input history) (h_Output history) started (h_CompletedAt history)),
       set_history db (<[new_id := out (reload_obj (h_Input history)) (reload_obj (h_Output history))
                           (pg_time started) (pg_time <$> h_CompletedAt history)]> (db_history db))).

Definition CompleteHistory now (historyID status : string) (output : gomap value) (stepErr : option string) db
    : res () * DB :=
  if negb (json_ok (VObj output)) then (json_err "marshal history output", db)
  else
    match db_history db !! historyID with
    | Some h =>
        (Ok (), set_history db (<[historyID := mkHistory (h_ID h) (h_InstanceID h) (h_StepID h) status
            (h_Input h) (reload_obj output) stepErr (h_Attempt h) (h_StartedAt h) (Some now)]> (db_history db)))
    | None => (no_rows "complete execution history", db)
    end.

Definition scan_history id (h : History) : History :=
  mkHistory id (h_InstanceID h) (h_StepID h) (h_Status h) (h_Input h) (h_Output h) (h_Error h)
    (h_Attempt h) (h_StartedAt h) (h_CompletedAt h).

Definition ListHistory o (instanceID : string) db : list History :=
  (fun kv => scan_history kv.1 kv.2) <$> order_by h_StartedAt o (filter (fun kv => h_InstanceID kv.2 = instanceID) (db_history db)).

Definition ListHistoryForTenant o (tenantID instanceID : string) db : list History :=
  match db_instances db !! instanceID with
  | Some row => if decide (i_TenantID (row_inst row) = tenant_or_default tenantID)
                then ListHistory o instanceID db else []
  | None => []
  end.

(** ** Timers *)

Definition scan_timer id (t : Timer) : Timer := mkTimer id (t_StepID t) (t_FireAt t).

Definition UpsertTimer (timer : Timer) db : res () * DB :=
  match db_instances db !! t_InstanceID timer with
  | Some _ => (Ok (), set_timers db (<[t_InstanceID timer :=
      mkTimer (t_InstanceID timer) (t_StepID timer) (pg_time (t_FireAt timer))]> (db_timers db)))
  | None => (Err (ErrWrap "upsert timer" (ErrText "violates foreign key constraint")), db)
  end.

Definition DeleteTimer (instanceID : string) db : DB := set_timers db (delete instanceID (db_timers db)).

Definition FireTimer (instanceID : string) db : option Timer * DB :=
  (scan_timer instanceID <$> db_timers db !! instanceID, set_timers db (delete instanceID (db_timers db))).

Definition due_timers (now : time) o (limit : Z) db : list Timer :=
  (fun kv => scan_timer kv.1 kv.2) <$> take (limit_or 100 limit)
    (order_by t_FireAt o (filter (fun kv => t_FireAt kv.2 ≤ pg_time now)%Z (db_timers db))).

Definition ListDueTimers (now : time) o (limit : Z) db : list Timer := due_timers now o limit db.

(** The rows locked by a concurrent claim are skipped ([SKIP LOCKED]): [locked] are
    their keys.  The deleted rows are returned in an unspecified order [o']. *)
Definition ClaimDueTimers (now : time) o o' (locked : list string) (limit : Z) db : list Timer * DB :=
  let free := filter (fun kv => kv.1 ∉ locked) (db_timers db) in
  let due := due_timers now o limit (set_timers db free) in
  let claimed : gmap string Timer := list_to_map ((fun t => (t_InstanceID t, t)) <$> due) in
  ((range_order o' claimed).*2, set_timers db (db_timers db ∖ claimed)).

End postgres.
