(* ===== verification/Externals.v ===== *)
(** * Code the program calls and this development does not define

    The expression language (github.com/expr-lang/expr) and the text-processing
    packages whose results the program passes on: text/template, net/url,
    encoding/json on HTTP bodies, [fmt.Sprint] of a header value, the case mapping of
    non-ASCII letters.  They are the fields of [Externals], an argument of every
    definition that uses them; no law is assumed of them.  [toy_externals] is an
    instance to evaluate the examples with. *)

From Stdlib Require Import Ascii.
From S2P Require Import Prelude GoString GoTime Workflow.

(** The parts of a [url.URL] that the program reads. *)
Record url := mkUrl {
  url_Scheme : string;
  url_HasUser : bool;
  url_Hostname : string;
}.

(** A request as the executor builds it: [hr_Header] are the calls of [Header.Set]. *)
Record http_request := mkRequest {
  hr_Method : string;
  hr_URL : string;
  hr_Body : option string;
  hr_Header : list (string * string);
  hr_Timeout : duration;
}.

(** A response; reading its body may fail. *)
Record http_response := mkResponse {
  resp_StatusCode : Z;
  resp_Header : gmap string (list string);
  resp_Body : res string;
}.

Class Externals := {
  expr_program : Type;
  (** [expr.Compile(expression, expr.Env(env), expr.AllowUndefinedVariables())] *)
  expr_compile : string → gomap value → res expr_program;
  (** [expr.Run(program, env)]; the language has a clock. *)
  expr_run : time → expr_program → gomap value → res value;
  (** [template.New("config").Option("missingkey=error").Parse(text)] and [Execute] *)
  template : Type;
  template_parse : string → res template;
  template_execute : template → gomap value → res string;
  (** [url.Parse] *)
  url_parse : string → res url;
  (** the text of [json.Marshal] and the value of [json.Unmarshal] *)
  json_text : value → string;
  json_parse : string → option value;
  fmt_sprint : value → string;
  (** [net.IP.String] *)
  ip_string : list Z → string;
  unicode_lower : string → string;
  unicode_upper : string → string;
  (** [req.URL.Parse(location)] as a text, for the URL of a request *)
  url_resolve : string → string → res string;
  (** The headers of a redirected request, from the first request, the last URL and the new one *)
  redirect_headers : http_request → string → string → list (string * string);
  (** The error of [http.NewRequestWithContext] for a method and URL, if any. *)
  new_request_error : string → string → option goerr;
}.

(** ** Case mapping *)
Definition ascii_lower (c : ascii) : ascii :=
  if byte_in 65 90 c then ascii_of_nat (Ascii.nat_of_ascii c + 32) else c.
Definition ascii_upper (c : ascii) : ascii :=
  if byte_in 97 122 c then Ascii.ascii_of_nat (Ascii.nat_of_ascii c - 32) else c.
Fixpoint map_bytes (f : ascii → ascii) (s : string) : string :=
  match s with EmptyString => EmptyString | String c s => String (f c) (map_bytes f s) end.
Fixpoint all_ascii (s : string) : bool :=
  match s with EmptyString => true | String c s => byte_in 0 127 c && all_ascii s end.

(** [strings.ToLower], [strings.ToUpper] *)
Definition to_lower `{Externals} (s : string) : string :=
  if all_ascii s then map_bytes ascii_lower s else unicode_lower s.
Definition to_upper `{Externals} (s : string) : string :=
  if all_ascii s then map_bytes ascii_upper s else unicode_upper s.

(** ** A small instance for the examples

    Expressions: [true], [false], a name of the environment's [input], and the empty
    text does not compile.  Templates are constant texts.  URLs are
    [http://host/...] without userinfo. *)
Definition toy_run (p : string) (env : gomap value) : res value :=
  if decide (p = "true") then Ok (VBool true)
  else if decide (p = "false") then Ok (VBool false)
  else if decide (p = "fail") then Err (ErrText "toy: run failed")
  else match gm_get env "input" with
       | Some (VObj input) => Ok (default VNil (gm_get input p))
       | _ => Ok VNil
       end.
Definition toy_url (s : string) : res url :=
  match strip_prefix "http://" s with
  | Some rest => Ok (mkUrl "http" false (match cut_byte "/" rest with Some (h, _) => h | None => rest end))
  | None => Err (ErrText "toy: unsupported url")
  end.
Definition toy_externals : Externals := {|
  expr_program := string;
  expr_compile s _ := if decide (s = "") then Err (ErrText "toy: empty") else Ok s;
  expr_run _ p env := toy_run p env;
  template := string;
  template_parse s := Ok s;
  template_execute s _ := Ok s;
  url_parse := toy_url;
  json_text v := match v with VStr s => go_quote s | _ => "null" end;
  json_parse _ := None;
  fmt_sprint v := match v with VStr s => s | _ => "" end;
  ip_string _ := "";
  unicode_lower s := s;
  unicode_upper s := s;
  url_resolve _ location := Ok location;
  redirect_headers first _ _ := hr_Header first;
  new_request_error _ _ := None;
|}.
