(* ===== verification/Effects.v ===== *)
(** * Programs, their calls to the outside, and the world

    The functions of the engine, the timer service and the executor are values of
    [prog]: sequences of calls to the repository, Redis, the clock and so on, each an
    atomic step.  [handle] gives the meaning of a call on a world; everything the
    program does not control (clock readings, fresh UUIDs, row orders, faults) comes
    from a [choice], so that quantifying over the choices quantifies over every
    behaviour of the environment.  The repository is known to the programs through
    the interface [Repository] only (store.go); [postgres_repository] implements it
    with the tables of [Store]. *)

From S2P Require Import Prelude GoNum GoTime Workflow Accessors Json Store Externals.

(** ** The repository interface (store.go) *)

(** The methods of [store.Repository]; [repo_op A] returns [(A, error)]. *)
Inductive repo_op : Type → Type :=
| Ping : repo_op ()
| OpCreateDefinition (tenantID : string) (dsl : DefinitionDSL) : repo_op Definition_
| OpGetDefinition (id : string) : repo_op Definition_
| OpGetDefinitionForTenant (tenantID id : string) : repo_op Definition_
| OpCreateInstance (tenantID : string) (definition : Definition_) (input : gomap value) : repo_op Instance_
| OpGetInstance (id : string) : repo_op Instance_
| OpGetInstanceForTenant (tenantID id : string) : repo_op Instance_
| OpClaimInstance (id owner : string) (leaseUntil : time) : repo_op Instance_
| OpReleaseInstance (id owner : string) : repo_op ()
| OpListRecoverableInstances (limit : Z) : repo_op (list Instance_)
| OpUpdateInstance (instance : Instance_) (expectedVersion : Z) : repo_op Instance_
| OpAppendHistory (history : History) : repo_op History
| OpCompleteHistory (historyID status : string) (output : gomap value) (stepErr : option string) : repo_op ()
| OpListHistory (instanceID : string) : repo_op (list History)
| OpListHistoryForTenant (tenantID instanceID : string) : repo_op (list History)
| OpUpsertTimer (timer : Timer) : repo_op ()
| OpDeleteTimer (instanceID : string) : repo_op ()
| OpFireTimer (instanceID : string) : repo_op (option Timer)
| OpListDueTimers (now : time) (limit : Z) : repo_op (list Timer)
| OpClaimDueTimers (now : time) (limit : Z) : repo_op (list Timer).

(** What a database call takes from its environment: the database clock, the clock
    of the caller, a generated UUID, the orders of unsorted rows, the rows locked by
    a concurrent statement. *)
Record tick := mkTick {
  k_now : time;
  k_app : time;
  k_uuid : string;
  k_order : list string;
  k_order' : list string;
  k_locked : list string;
}.

Class Repository (S : Type) := {
  repo_exec : ∀ {A}, repo_op A → tick → S → res A * S;
  (** The persisted instances, as [ClaimInstance] would read them. *)
  repo_view : S → string → option Instance_;
  (** The persisted definitions, by tenant and id. *)
  repo_def : S → string → string → option DefinitionDSL;
}.

(** The fields of [i] that [UpdateInstance] writes, on the row [r]. *)
Definition updated_row (r i : Instance_) (now : time) : Instance_ :=
  mkInstance (i_ID r) (i_TenantID r) (i_DefinitionID r) (i_DefinitionVersion r)
    (i_Status i) (i_Input r) (i_CurrentStepID i) (Normalize (reload (i_State i)))
    (i_Version r + 1)%Z (i_CreatedAt r) now.

Definition terminal (status : string) : Prop := status = InstanceCompleted ∨ status = InstanceFailed.
#[export] Instance terminal_dec status : Decision (terminal status).
Proof. unfold terminal. apply _. Defined.

(** A new instance, as it is read back. *)
Definition newborn (i : Instance_) : Prop :=
  i_Status i = InstancePending ∧ i_CurrentStepID i = None ∧
  ∃ started, i_State i = Normalize (reload (with_StartedAt NewRuntimeState started)).

(** The calls that do not write the instances' columns other than the lease. *)
Definition keeps_instances {A} (op : repo_op A) : Prop :=
  match op with
  | OpUpdateInstance _ _ | OpCreateInstance _ _ _ => False
  | _ => True
  end.

#[export] Instance keeps_instances_dec {A} (op : repo_op A) : Decision (keeps_instances op).
Proof. destruct op; simpl; apply _. Defined.

(** What the interface promises about the instances and the definitions. *)
Class RepositoryLaws (S : Type) `{Repository S} := {
  law_frame {A} (op : repo_op A) k s id :
    keeps_instances op → repo_view (repo_exec op k s).2 id = repo_view s id;
  law_claim id owner until k s inst :
    (repo_exec (OpClaimInstance id owner until) k s).1 = Ok inst →
    repo_view s id = Some inst ∧ ¬ terminal (i_Status inst) ∧ i_ID inst = id;
  law_update_ok inst v k s inst' :
    (repo_exec (OpUpdateInstance inst v) k s).1 = Ok inst' →
    inst' = with_version inst (v + 1) ∧
    ∃ r now, repo_view s (i_ID inst) = Some r ∧ i_Version r = v ∧
      repo_view (repo_exec (OpUpdateInstance inst v) k s).2 (i_ID inst) = Some (updated_row r inst now);
  law_update_other inst v k s id :
    id ≠ i_ID inst → repo_view (repo_exec (OpUpdateInstance inst v) k s).2 id = repo_view s id;
  law_update_err inst v k s e :
    (repo_exec (OpUpdateInstance inst v) k s).1 = Err e → (repo_exec (OpUpdateInstance inst v) k s).2 = s;
  law_create tenant def input k s id inst :
    repo_view s id = Some inst →
    repo_view (repo_exec (OpCreateInstance tenant def input) k s).2 id = Some inst;
  law_created tenant def input k s id inst :
    repo_view (repo_exec (OpCreateInstance tenant def input) k s).2 id = Some inst →
    repo_view s id = Some inst ∨ newborn inst;
  law_def tenant id k s d :
    (repo_exec (OpGetDefinitionForTenant tenant id) k s).1 = Ok d → repo_def s tenant id = Some (d_DSL d);
  law_def_stable {A} (op : repo_op A) k s tenant id d :
    repo_def s tenant id = Some d → repo_def (repo_exec op k s).2 tenant id = Some d;
}.

(** ** Redis *)

(** An entry of the task stream; [None] when it has no field [instance_id]. *)
Record Message := mkMessage { msg_ID : string; msg_InstanceID : option string }.
(** A delivered, unacknowledged entry. *)
Record Pending := mkPending { p_msg : Message; p_consumer : string; p_since : time }.

Record Redis := mkRedis {
  rd_last : nat;                         (* number of entries added so far *)
  rd_group : bool;                       (* the consumer group exists *)
  rd_stream : list Message;              (* not yet delivered to the group *)
  rd_pending : list Pending;
  rd_keys : gmap string (string * time); (* timer keys with their expiry *)
}.
Definition empty_redis : Redis := mkRedis 0 true [] [] ∅.

(** ** Calls *)
Inductive eff : Type → Type :=
| ERepo {A} (op : repo_op A) : eff (res A)
| ENow : eff time
| EUuid : eff string
| EClaimSeq : eff N
| EOrder : eff (list string)
| ECtxErr : eff (option goerr)
| EXAdd (instanceID : string) : eff (res ())
| EXAck (messageID : string) : eff (res ())
| EXGroupCreate : eff (res ())
| EXReadGroup (consumer : string) (count : nat) : eff (res (list Message))
| EXAutoClaim (consumer : string) (minIdle : duration) (count : nat) : eff (res (list Message))
| ERedisSet (key val : string) (ttl : duration) : eff (res ())
| ERedisDel (key : string) : eff (res ())
| ERedisPing : eff (res ())
| ELookupIP (host : string) : eff (res (list (list Z)))
| EHTTP (req : http_request) : eff (res http_response).

(** ** Programs *)
Inductive prog (A : Type) : Type :=
| PRet (a : A)
| PPanic
| PCall {R : Type} (e : eff R) (k : R → prog A).
Arguments PRet {A} _.
Arguments PPanic {A}.
Arguments PCall {A R} _ _.

Fixpoint prog_bind {A B} (f : A → prog B) (p : prog A) : prog B :=
  match p with
  | PRet a => f a
  | PPanic => PPanic
  | PCall e k => PCall e (fun r => prog_bind f (k r))
  end.
#[export] Instance prog_mret : MRet prog := fun A a => PRet a.
#[export] Instance prog_mbind : MBind prog := fun A B f p => prog_bind f p.

Definition call {R} (e : eff R) : prog R := PCall e PRet.
Definition lift_go {A} (m : go A) : prog A :=
  match m with Done a => PRet a | GoPanic => PPanic end.

(** [defer cleanup]: runs [cleanup] when [p] returns and when it panics. *)
Fixpoint prog_defer {A} (p : prog A) (cleanup : prog ()) : prog A :=
  match p with
  | PRet a => prog_bind (fun _ => PRet a) cleanup
  | PPanic => prog_bind (fun _ => PPanic) cleanup
  | PCall e k => PCall e (fun r => prog_defer (k r) cleanup)
  end.

(** [if err := c; err != nil { return fmt.Errorf("ctx: %w", err) }; k] *)
Definition try_err {A B} (c : prog (res A)) (ctx : string) (k : A → prog (res B)) : prog (res B) :=
  r ← c;
  match r with
  | Ok a => k a
  | Err e => mret (Err (ErrWrap ctx e))
  end.
Definition wrap_prog {A} (ctx : string) (c : prog (res A)) : prog (res A) :=
  try_err c ctx (fun a => mret (Ok a)).

Declare Scope prog_scope.
Delimit Scope prog_scope with prog.
Notation "'try' x ← c 'or' ctx ; k" := (try_err c ctx (fun x => k))
  (at level 20, x pattern, c at level 100, ctx at level 100, k at level 200, only parsing) : prog_scope.

(** ** Faults and the meaning of calls *)

(** A call may fail without taking effect, or after it took effect (a timeout or a
    lost reply). *)
Inductive fault := NoFault | FailBefore (e : goerr) | FailAfter (e : goerr).

Record choice := mkChoice {
  c_fault : fault;
  c_tick : tick;
  c_now : time;
  c_uuid : string;
  c_seq : N;
  c_order : list string;
  c_ctx : option goerr;
  c_lookup : res (list (list Z));
  c_http : res http_response;
}.

Definition with_fault {A S} (f : fault) (op : S → res A * S) (s : S) : res A * S :=
  match f with
  | NoFault => op s
  | FailBefore e => (Err e, s)
  | FailAfter e => (Err e, (op s).2)
  end.

Definition redis_xadd (instanceID : string) (r : Redis) : res () * Redis :=
  let m := mkMessage (pretty (N.of_nat (rd_last r))) (Some instanceID) in
  (Ok (), mkRedis (S (rd_last r)) (rd_group r) (rd_stream r ++ [m]) (rd_pending r) (rd_keys r)).
Definition redis_xack (messageID : string) (r : Redis) : res () * Redis :=
  (Ok (), mkRedis (rd_last r) (rd_group r) (rd_stream r)
            (filter (fun p => msg_ID (p_msg p) ≠ messageID) (rd_pending r)) (rd_keys r)).
Definition redis_group_create (r : Redis) : res () * Redis :=
  if rd_group r then (Err (ErrText "BUSYGROUP Consumer Group name already exists"), r)
  else (Ok (), mkRedis (rd_last r) true (rd_stream r) (rd_pending r) (rd_keys r)).
Definition redis_read_group (now : time) (consumer : string) (count : nat) (r : Redis) : res (list Message) * Redis :=
  if negb (rd_group r) then (Err (ErrText "NOGROUP No such key or consumer group"), r)
  else
    let ms := take count (rd_stream r) in
    (Ok ms, mkRedis (rd_last r) (rd_group r) (drop count (rd_stream r))
              (rd_pending r ++ ((fun m => mkPending m consumer now) <$> ms)) (rd_keys r)).
Definition idle_since (now : time) (minIdle : duration) (p : Pending) : Prop := (minIdle ≤ now - p_since p)%Z.
#[export] Instance idle_since_dec now minIdle p : Decision (idle_since now minIdle p).
Proof. unfold idle_since. apply _. Defined.
Definition redis_autoclaim (now : time) (consumer : string) (minIdle : duration) (count : nat) (r : Redis)
    : res (list Message) * Redis :=
  if negb (rd_group r) then (Err (ErrText "NOGROUP No such key or consumer group"), r)
  else
    let ms := p_msg <$> take count (filter (idle_since now minIdle) (rd_pending r)) in
    (Ok ms, mkRedis (rd_last r) (rd_group r) (rd_stream r)
       ((fun p => if decide (msg_ID (p_msg p) ∈ msg_ID <$> ms) then mkPending (p_msg p) consumer now else p)
          <$> rd_pending r) (rd_keys r)).
Definition redis_set (now : time) (key val : string) (ttl : duration) (r : Redis) : res () * Redis :=
  (Ok (), mkRedis (rd_last r) (rd_group r) (rd_stream r) (rd_pending r)
            (<[key := (val, now + ttl)%Z]> (rd_keys r))).
Definition redis_del (key : string) (r : Redis) : res () * Redis :=
  (Ok (), mkRedis (rd_last r) (rd_group r) (rd_stream r) (rd_pending r) (delete key (rd_keys r))).

Record World (S : Type) := mkWorld { w_repo : S; w_redis : Redis }.
Arguments mkWorld {S} _ _.
Arguments w_repo {S} _.
Arguments w_redis {S} _.

Section handle.
Context {S : Type} `{Repository S}.

Definition on_redis {A} (f : fault) (op : Redis → res A * Redis) (w : World S) : res A * World S :=
  let '(r, rd) := with_fault f op (w_redis w) in (r, mkWorld (w_repo w) rd).

Definition handle {R} (e : eff R) (c : choice) (w : World S) : R * World S :=
  match e in eff R return R * World S with
  | ERepo op =>
      let '(r, s) := with_fault (c_fault c) (repo_exec op (c_tick c)) (w_repo w) in
      (r, mkWorld s (w_redis w))
  | ENow => (c_now c, w)
  | EUuid => (c_uuid c, w)
  | EClaimSeq => (c_seq c, w)
  | EOrder => (c_order c, w)
  | ECtxErr => (c_ctx c, w)
  | EXAdd id => on_redis (c_fault c) (redis_xadd id) w
  | EXAck id => on_redis (c_fault c) (redis_xack id) w
  | EXGroupCreate => on_redis (c_fault c) redis_group_create w
  | EXReadGroup consumer count => on_redis (c_fault c) (redis_read_group (c_now c) consumer count) w
  | EXAutoClaim consumer minIdle count =>
      on_redis (c_fault c) (redis_autoclaim (c_now c) consumer minIdle count) w
  | ERedisSet key val ttl => on_redis (c_fault c) (redis_set (c_now c) key val ttl) w
  | ERedisDel key => on_redis (c_fault c) (redis_del key) w
  | ERedisPing => on_redis (c_fault c) (fun r => (Ok (), r)) w
  | ELookupIP _ => (c_lookup c, w)
  | EHTTP _ => (c_http c, w)
  end.

(** ** Running a program

    [run] performs one call per choice; [Crashed] when the choices end before the
    program does (the process stopped there). *)
Inductive outcome (A : Type) :=
| Returned (a : A)
| Panicked
| Crashed.
#[global] Arguments Returned {A} _.
#[global] Arguments Panicked {A}.
#[global] Arguments Crashed {A}.

Fixpoint run {A} (p : prog A) (cs : list choice) (w : World S) : outcome A * World S * list choice :=
  match p with
  | PRet a => (Returned a, w, cs)
  | PPanic => (Panicked, w, cs)
  | PCall e k =>
      match cs with
      | [] => (Crashed, w, [])
      | c :: cs => let '(r, w) := handle e c w in run (k r) cs w
      end
  end.
End handle.

(** ** PostgreSQL implements the interface *)
#[export] Instance postgres_repository `{PgClock} : Repository DB := {|
  repo_exec A op k db :=
    match op in repo_op A return res A * DB with
    | Ping => (Ok (), db)
    | OpCreateDefinition tenantID dsl => CreateDefinition (k_now k) (k_uuid k) tenantID dsl db
    | OpGetDefinition id => (GetDefinition id db, db)
    | OpGetDefinitionForTenant tenantID id => (GetDefinitionForTenant tenantID id db, db)
    | OpCreateInstance tenantID definition input =>
        CreateInstance (k_now k) (k_app k) (k_uuid k) tenantID definition input db
    | OpGetInstance id => (GetInstance id db, db)
    | OpGetInstanceForTenant tenantID id => (GetInstanceForTenant tenantID id db, db)
    | OpClaimInstance id owner leaseUntil => ClaimInstance (k_now k) id owner leaseUntil db
    | OpReleaseInstance id owner => (Ok (), ReleaseInstance id owner db)
    | OpListRecoverableInstances limit => (Ok (ListRecoverableInstances (k_now k) (k_order k) limit db), db)
    | OpUpdateInstance instance expectedVersion => UpdateInstance (k_now k) instance expectedVersion db
    | OpAppendHistory history => AppendHistory (k_app k) (k_uuid k) history db
    | OpCompleteHistory historyID status output stepErr =>
        CompleteHistory (k_now k) historyID status output stepErr db
    | OpListHistory instanceID => (Ok (ListHistory (k_order k) instanceID db), db)
    | OpListHistoryForTenant tenantID instanceID =>
        (Ok (ListHistoryForTenant (k_order k) tenantID instanceID db), db)
    | OpUpsertTimer timer => UpsertTimer timer db
    | OpDeleteTimer instanceID => (Ok (), DeleteTimer instanceID db)
    | OpFireTimer instanceID => let '(t, db) := FireTimer instanceID db in (Ok t, db)
    | OpListDueTimers now limit => (Ok (ListDueTimers now (k_order k) limit db), db)
    | OpClaimDueTimers now limit =>
        let '(ts, db) := ClaimDueTimers now (k_order k) (k_order' k) (k_locked k) limit db in (Ok ts, db)
    end;
  repo_view db id := scan_instance id <$> db_instances db !! id;
  repo_def db tenantID id :=
    match GetDefinitionForTenant tenantID id db with Ok d => Some (d_DSL d) | Err _ => None end
|}.
