(* ===== verification/PostgresLaws.v ===== *)
(** * PostgreSQL keeps the promises of the repository interface

    The tables of [Store] satisfy [RepositoryLaws]: a claim returns the persisted,
    unfinished instance; an update succeeds on the expected version only and writes
    exactly its columns; nothing else changes an instance. *)

From S2P Require Import Prelude GoNum GoTime Workflow Accessors Json Store Effects.

Section laws.
Context `{PgClock}.
Implicit Types (db : DB) (id : string).

Lemma repo_view_lookup db id row :
  db_instances db !! id = Some row → repo_view db id = Some (scan_instance id row).
Proof. intros Hrow. simpl. by rewrite Hrow. Qed.

Lemma repo_view_ext db db' id :
  db_instances db = db_instances db' → repo_view db id = repo_view db' id.
Proof. simpl. by intros ->. Qed.

(** Replacing the lease columns of a row does not change what is read. *)
Lemma repo_view_lease db id row lb lu id' :
  db_instances db !! id = Some row →
  repo_view (set_instances db (<[id := mkRow (row_inst row) lb lu]> (db_instances db))) id' =
  repo_view db id'.
Proof.
  intros Hrow. simpl. rewrite lookup_insert. case_decide as Hid; [|done].
  by subst; rewrite Hrow.
Qed.

Lemma ClaimInstance_spec now id owner until db inst :
  (ClaimInstance now id owner until db).1 = Ok inst ↔
  ∃ row, db_instances db !! id = Some row ∧ claimable now owner row ∧ inst = scan_instance id row.
Proof.
  unfold ClaimInstance. destruct (db_instances db !! id) as [row|]; [|naive_solver].
  destruct (decide (claimable now owner row)); naive_solver.
Qed.

Lemma ClaimInstance_view now id owner until db id' :
  repo_view (ClaimInstance now id owner until db).2 id' = repo_view db id'.
Proof.
  unfold ClaimInstance. destruct (db_instances db !! id) as [row|] eqn:Hrow; [|done].
  destruct (decide (claimable now owner row)); [|done]. by apply repo_view_lease.
Qed.

Lemma ReleaseInstance_view id owner db id' :
  repo_view (ReleaseInstance id owner db) id' = repo_view db id'.
Proof.
  unfold ReleaseInstance. destruct (db_instances db !! id) as [row|] eqn:Hrow; [|done].
  destruct (decide (locked_by row = Some owner)); [|done]. by apply repo_view_lease.
Qed.

(** The three outcomes of [UpdateInstance]. *)
Lemma UpdateInstance_spec now inst v db :
  (∃ row, db_instances db !! i_ID inst = Some row ∧ i_Version (row_inst row) = v ∧
     state_json_ok (i_State inst) = true ∧
     (UpdateInstance now inst v db).1 = Ok (with_version inst (v + 1)%Z) ∧
     (∀ id, repo_view (UpdateInstance now inst v db).2 id =
        if decide (id = i_ID inst) then Some (updated_row (scan_instance (i_ID inst) row) inst now)
        else repo_view db id) ∧
     db_timers (UpdateInstance now inst v db).2 = db_timers db) ∨
  (∃ e, UpdateInstance now inst v db = (Err e, db)).
Proof.
  unfold UpdateInstance. destruct (state_json_ok (i_State inst)); simpl; [|by right; eauto].
  destruct (db_instances db !! i_ID inst) as [row|] eqn:Hrow; [|by right; eauto].
  destruct (decide (i_Version (row_inst row) = v)) as [<-|Hv]; [|by right; eauto].
  left. exists row. split_and!; try done. intros id. simpl. rewrite lookup_insert.
  destruct (decide (id = i_ID inst)) as [->|Hid].
  - by rewrite decide_True.
  - by rewrite decide_False.
Qed.

Lemma CreateInstance_view now started new_id tenant def input db id inst :
  repo_view db id = Some inst →
  repo_view (CreateInstance now started new_id tenant def input db).2 id = Some inst.
Proof.
  intros Hv. unfold CreateInstance. destruct (json_ok _); simpl; [|done].
  destruct (decide _) as [|Hn]; [done|]. simpl. rewrite lookup_insert_ne; [done|].
  intros ->. apply Hn. left. simpl in Hv. destruct (db_instances db !! id); [eauto|done].
Qed.

Lemma CreateInstance_new now started new_id tenant def input db id inst :
  repo_view (CreateInstance now started new_id tenant def input db).2 id = Some inst →
  repo_view db id = Some inst ∨ newborn inst.
Proof.
  unfold CreateInstance. destruct (json_ok _); simpl; [|by left].
  destruct (decide _) as [|_]; [by left|]. simpl. rewrite lookup_insert. case_decide; [|by left].
  intros [= <-]. right. split_and!; [done..|]. by exists started.
Qed.

(** Definitions are only added. *)
Lemma repo_def_defs db db' tenant id d :
  (∀ k row, db_definitions db !! k = Some row → db_definitions db' !! k = Some row) →
  repo_def db tenant id = Some d → repo_def db' tenant id = Some d.
Proof.
  intros Hsub. simpl. unfold GetDefinitionForTenant.
  destruct (db_definitions db !! id) as [row|] eqn:Hrow; [|done]. by rewrite (Hsub _ _ Hrow).
Qed.

Lemma definitions_grow {A} (op : repo_op A) k db id row :
  db_definitions db !! id = Some row → db_definitions (repo_exec op k db).2 !! id = Some row.
Proof.
  intros Hrow. destruct op; simpl; try done.
  - unfold CreateDefinition. destruct (dsl_json_ok _); simpl; [|done]. destruct (decide _) as [|Hn]; [done|].
    simpl. rewrite lookup_insert_ne; [done|]. intros <-. apply Hn. right. by eexists.
  - unfold CreateInstance. by repeat case_match.
  - unfold ClaimInstance. by repeat case_match.
  - unfold ReleaseInstance. by repeat case_match.
  - unfold UpdateInstance. by repeat case_match.
  - unfold AppendHistory. by repeat case_match.
  - unfold CompleteHistory. by repeat case_match.
  - unfold UpsertTimer. by repeat case_match.
Qed.

#[export] Instance postgres_laws : RepositoryLaws DB.
Proof.
  constructor.
  - intros A op k db id Hop. destruct op; simpl in Hop; try done.
    + simpl. unfold CreateDefinition. by repeat case_match.
    + apply ClaimInstance_view.
    + apply ReleaseInstance_view.
    + simpl. unfold AppendHistory. by repeat case_match.
    + simpl. unfold CompleteHistory. by repeat case_match.
    + simpl. unfold UpsertTimer. by repeat case_match.
  - intros id owner until k db inst (row & Hrow & Hcl & ->)%ClaimInstance_spec.
    destruct Hcl as (Hc & Hf & _). split_and!; [by apply repo_view_lookup| |done].
    unfold terminal. simpl. naive_solver.
  - intros inst v k db inst' Hok. simpl in Hok |- *.
    destruct (UpdateInstance_spec (k_now k) inst v db) as [(row & Hrow & Hv & _ & Hr & Hview & _)|[e He]].
    + rewrite Hr in Hok. injection Hok as <-. split; [done|].
      exists (scan_instance (i_ID inst) row), (k_now k). split_and!; [by rewrite Hrow|done|].
      specialize (Hview (i_ID inst)). rewrite decide_True in Hview by done. exact Hview.
    + rewrite He in Hok. discriminate.
  - intros inst v k db id Hid. simpl.
    destruct (UpdateInstance_spec (k_now k) inst v db) as [(row & _ & _ & _ & _ & Hview & _)|[e ->]]; [|done].
    specialize (Hview id). rewrite decide_False in Hview by done. exact Hview.
  - intros inst v k db e He. simpl in He |- *.
    destruct (UpdateInstance_spec (k_now k) inst v db) as [(row & _ & _ & _ & Hr & _)|[e' ->]]; [|done].
    rewrite Hr in He. discriminate.
  - intros tenant def input k db id inst. apply CreateInstance_view.
  - intros tenant def input k db id inst. apply CreateInstance_new.
  - intros tenant id k db d. simpl. by destruct (GetDefinitionForTenant _ _ _) as [d'|]; [intros [= ->]|].
  - intros A op k db tenant id d. apply repo_def_defs. intros. by apply definitions_grow.
Qed.
End laws.
