(* ===== verification/StoreFacts.v ===== *)
(** * The store over sequences of statements

    [events] is any interleaving of repository calls, by any callers, with their
    clocks and faults; [after] is the database they leave.  The invariants of a row
    under such a sequence: the version never decreases, a row is never lost, a lease
    stays until it ends. *)

From stdpp Require Import sorting.
From S2P Require Import Prelude GoNum GoTime Workflow Accessors Json Store Effects PostgresLaws.

(** One repository call with its environment. *)
Record event := mkEvent {
  ev_type : Type;
  ev_op : repo_op ev_type;
  ev_tick : tick;
  ev_fault : fault;
}.

Section facts.
Context `{PgClock}.
Implicit Types (db : DB) (id owner : string) (ev : event).
#[local] Open Scope Z_scope.

Definition exec_event ev db : res (ev_type ev) * DB :=
  with_fault (ev_fault ev) (repo_exec (ev_op ev) (ev_tick ev)) db.

Definition after (evs : list event) db : DB := foldl (fun db ev => (exec_event ev db).2) db evs.

(** A property kept by every event of a sequence holds at its end. *)
Lemma after_ind (P : DB → Prop) (Q : event → Prop) evs db :
  (∀ ev db, Q ev → P db → P (repo_exec (ev_op ev) (ev_tick ev) db).2) →
  Forall Q evs → P db → P (after evs db).
Proof.
  intros Hstep HQ. revert db. induction HQ as [|ev evs Hev HQ IH]; intros db HP; [done|].
  simpl. apply IH. unfold exec_event, with_fault. destruct (ev_fault ev); [|done|]; by apply Hstep.
Qed.

(** ** Versions *)

Definition version_at_least id v db : Prop :=
  ∃ inst, repo_view db id = Some inst ∧ v ≤ i_Version inst.

Lemma version_at_least_step id v ev db :
  version_at_least id v db → version_at_least id v (repo_exec (ev_op ev) (ev_tick ev) db).2.
Proof.
  intros (inst & Hv & Hle). destruct ev as [A op k f]. simpl ev_op. simpl ev_tick.
  destruct (decide (keeps_instances op)) as [Hk|Hk].
  { exists inst. by rewrite law_frame. }
  destruct op; simpl in Hk; try (exfalso; by apply Hk).
  - exists inst. split; [by apply law_create|done].
  - destruct (UpdateInstance_spec (k_now k) instance expectedVersion db)
      as [(row & Hrow & Hvv & _ & _ & Hview & _)|[e He]].
    + unfold version_at_least. simpl in Hview |- *. rewrite Hview.
      case_decide as Hid; [|by exists inst]. eexists. split; [done|]. simpl.
      subst id. simpl in Hv. rewrite Hrow in Hv. injection Hv as <-. simpl in Hle. lia.
    + exists inst. simpl. by rewrite He.
Qed.

Lemma version_at_least_after id v evs db :
  version_at_least id v db → version_at_least id v (after evs db).
Proof.
  apply (after_ind _ (λ _, True)); [|by apply Forall_true].
  intros ev db' _. apply version_at_least_step.
Qed.

Lemma update_ok_version inst v k db inst' :
  (repo_exec (OpUpdateInstance inst v) k db).1 = Ok inst' →
  version_at_least (i_ID inst) (v + 1) (repo_exec (OpUpdateInstance inst v) k db).2.
Proof.
  intros (_ & r & now & _ & Hv & Hview)%law_update_ok. exists (updated_row r inst now).
  split; [done|]. simpl. lia.
Qed.

Lemma update_ok_expected inst v k db inst' :
  (repo_exec (OpUpdateInstance inst v) k db).1 = Ok inst' →
  ∃ r, repo_view db (i_ID inst) = Some r ∧ i_Version r = v.
Proof. intros (_ & r & now & Hr & Hv & _)%law_update_ok. eauto. Qed.

(** ** Leases *)

Definition leased id owner until db : Prop :=
  ∃ row, db_instances db !! id = Some row ∧ locked_by row = Some owner ∧ locked_until row = Some until.

(** Calls that respect the lease of [owner] on [id]: not by [owner] itself, and
    before it expires. *)
Definition respects id owner until ev : Prop :=
  k_now (ev_tick ev) < until ∧
  match ev_op ev with
  | OpClaimInstance id' owner' _ => ¬ (id' = id ∧ owner' = owner)
  | OpReleaseInstance id' owner' => ¬ (id' = id ∧ owner' = owner)
  | _ => True
  end.

Lemma leased_not_claimable id owner until db now owner' :
  leased id owner until db → now < until → owner' ≠ owner →
  ∀ row, db_instances db !! id = Some row → ¬ claimable now owner' row.
Proof.
  intros (row & Hrow & Hby & Huntil) Hnow Hne row' Hrow' (_ & _ & Hfree).
  assert (row' = row) as -> by congruence. unfold lease_free in Hfree. rewrite Huntil, Hby in Hfree.
  destruct Hfree as [?|[_ [= ?]]]; [lia|congruence].
Qed.

Lemma leased_ext id owner until db db' :
  db_instances db !! id = db_instances db' !! id → leased id owner until db → leased id owner until db'.
Proof. unfold leased. by intros ->. Qed.

Lemma leased_claim id owner until k id' owner' until' db :
  k_now k < until → ¬ (id' = id ∧ owner' = owner) → leased id owner until db →
  leased id owner until (ClaimInstance (k_now k) id' owner' until' db).2.
Proof.
  intros Hnow Hne Hl. unfold ClaimInstance. destruct (db_instances db !! id') as [row|] eqn:Hrow; [|done].
  destruct (decide (claimable (k_now k) owner' row)) as [Hc|]; [|done].
  apply (leased_ext _ _ _ db); [|done]. simpl. rewrite lookup_insert. case_decide as Hid; [|done].
  subst id'. exfalso. refine (leased_not_claimable _ _ _ _ _ _ Hl Hnow _ row Hrow Hc). naive_solver.
Qed.

Lemma leased_release id owner until id' owner' db :
  ¬ (id' = id ∧ owner' = owner) → leased id owner until db →
  leased id owner until (ReleaseInstance id' owner' db).
Proof.
  intros Hne Hl. unfold ReleaseInstance. destruct (db_instances db !! id') as [row|] eqn:Hrow; [|done].
  destruct (decide (locked_by row = Some owner')) as [Hby|]; [|done].
  apply (leased_ext _ _ _ db); [|done]. simpl. rewrite lookup_insert. case_decide as Hid; [|done].
  subst id'. destruct Hl as (row' & Hrow' & Hby' & _). naive_solver.
Qed.

Lemma leased_update id owner until now inst v db :
  leased id owner until db → leased id owner until (UpdateInstance now inst v db).2.
Proof.
  intros (row & Hrow & Hby & Huntil). unfold UpdateInstance.
  destruct (state_json_ok _); simpl; [|by exists row].
  destruct (db_instances db !! i_ID inst) as [row'|] eqn:Hrow'; [|by exists row].
  destruct (decide (i_Version (row_inst row') = v)); [|by exists row].
  unfold leased. simpl. rewrite lookup_insert. case_decide as Hid; [|by exists row].
  subst id. eexists. split; [done|]. simpl. by assert (row' = row) as -> by congruence.
Qed.

Lemma leased_create id owner until now started new_id tenant def input db :
  leased id owner until db → leased id owner until (CreateInstance now started new_id tenant def input db).2.
Proof.
  intros (row & Hrow & Hl). unfold CreateInstance. destruct (json_ok _); simpl; [|by exists row].
  destruct (decide _) as [|Hn]; [by exists row|]. exists row. split; [|done].
  simpl. rewrite lookup_insert_ne; [done|]. intros ->. apply Hn. left. by rewrite Hrow.
Qed.

(** A call that keeps the instance table keeps the lease. *)
Lemma leased_step id owner until ev db :
  respects id owner until ev → leased id owner until db →
  leased id owner until (repo_exec (ev_op ev) (ev_tick ev) db).2.
Proof.
  destruct ev as [A op k f]. intros [Hnow Hop] Hl. simpl in Hnow, Hop |- *.
  destruct op; simpl; try done.
  - apply (leased_ext _ _ _ db); [|done]. unfold CreateDefinition. by repeat case_match.
  - by apply leased_create.
  - by apply leased_claim.
  - by apply leased_release.
  - by apply leased_update.
  - apply (leased_ext _ _ _ db); [|done]. unfold AppendHistory. by repeat case_match.
  - apply (leased_ext _ _ _ db); [|done]. unfold CompleteHistory. by repeat case_match.
  - apply (leased_ext _ _ _ db); [|done]. unfold UpsertTimer. by repeat case_match.
Qed.

Lemma leased_after id owner until evs db :
  Forall (respects id owner until) evs → leased id owner until db → leased id owner until (after evs db).
Proof. apply after_ind. intros ev db' HQ. by apply leased_step. Qed.

Lemma claim_ok_leased now id owner until db inst :
  (ClaimInstance now id owner until db).1 = Ok inst →
  leased id owner (pg_time until) (ClaimInstance now id owner until db).2.
Proof.
  unfold ClaimInstance. destruct (db_instances db !! id) as [row|]; [|done].
  destruct (decide (claimable now owner row)); [|done]. intros _. unfold leased. simpl.
  rewrite lookup_insert_eq. by eexists.
Qed.

Lemma claim_leased_busy now id owner owner' until until' db :
  leased id owner until db → now < until → owner' ≠ owner →
  ClaimInstance now id owner' until' db =
    (Err (ErrWrap "claim instance" (ErrSentinel ErrInstanceBusy)), db).
Proof.
  intros Hl Hnow Hne. unfold ClaimInstance. destruct (db_instances db !! id) as [row|] eqn:Hrow; [|done].
  rewrite decide_False; [done|]. by eapply leased_not_claimable.
Qed.

(** ** Queries *)

Lemma elem_of_order_by {A} (key : A → time) o (t : gmap string A) k a :
  (k, a) ∈ order_by key o t ↔ t !! k = Some a.
Proof. unfold order_by. by rewrite merge_sort_Permutation, elem_of_range_order. Qed.

Lemma order_by_sorted {A} (key : A → time) o (t : gmap string A) :
  StronglySorted Z.le (key ∘ snd <$> order_by key o t).
Proof.
  unfold order_by.
  assert (Hs := StronglySorted_merge_sort (key_le (λ kv : string * A, key kv.2)) (range_order o t)).
  induction Hs as [|kv l _ IH Hall]; [constructor|]. rewrite fmap_cons. constructor; [done|].
  apply Forall_fmap. eapply Forall_impl; [exact Hall|]. done.
Qed.

(** Later elements of a sorted list are not smaller. *)
Lemma sorted_lookup_le (l : list Z) i j x y :
  StronglySorted Z.le l → (i ≤ j)%nat → l !! i = Some x → l !! j = Some y → x ≤ y.
Proof.
  intros Hs. revert i j. induction Hs as [|z l Hs IH Hall]; intros i j Hij Hi Hj; [done|].
  destruct i as [|i], j as [|j]; [|..|apply (IH i j); [lia|done..]].
  - simpl in *. congruence || (injection Hi as <-; injection Hj as <-; lia).
  - injection Hi as <-. by apply (Forall_lookup_1 _ _ _ _ Hall Hj).
  - lia.
Qed.

Lemma order_by_NoDup {A} (key : A → time) o (t : gmap string A) : NoDup (order_by key o t).*1.
Proof.
  unfold order_by. rewrite merge_sort_Permutation, range_order_perm. apply NoDup_fst_map_to_list.
Qed.

Lemma order_by_length {A} (key : A → time) o (t : gmap string A) :
  length (order_by key o t) = size t.
Proof. unfold order_by. by rewrite merge_sort_Permutation, range_order_perm, length_map_to_list. Qed.

(** ** Timers *)

Lemma elem_of_due_timers now o limit db t :
  t ∈ due_timers now o limit db →
  ∃ t0, db_timers db !! t_InstanceID t = Some t0 ∧ t = scan_timer (t_InstanceID t) t0 ∧
    t_FireAt t ≤ pg_time now.
Proof.
  unfold due_timers. intros ([k t0] & -> & Hin%elem_of_take)%list_elem_of_fmap.
  destruct Hin as (i & Hi & _). apply list_elem_of_lookup_2, elem_of_order_by in Hi.
  apply map_lookup_filter_Some in Hi as [Ht Hdue]. simpl in *. eauto.
Qed.

Lemma due_timers_complete now o limit db id t :
  (size (filter (λ kv, t_FireAt kv.2 ≤ pg_time now)%Z (db_timers db)) ≤ limit_or 100 limit)%nat →
  db_timers db !! id = Some t → t_FireAt t ≤ pg_time now →
  scan_timer id t ∈ due_timers now o limit db.
Proof.
  intros Hlen Ht Hdue. unfold due_timers. apply list_elem_of_fmap. exists (id, t). split; [done|].
  rewrite take_ge by (by rewrite order_by_length). apply elem_of_order_by.
  by apply map_lookup_filter_Some.
Qed.

Lemma due_timers_NoDup now o limit db : NoDup (t_InstanceID <$> due_timers now o limit db).
Proof.
  unfold due_timers. rewrite <- list_fmap_compose.
  rewrite (list_fmap_ext _ fst) by (intros ? [] ?; done).
  rewrite fmap_take. eapply sublist_NoDup; [|apply sublist_take].
  apply (order_by_NoDup t_FireAt).
Qed.

(** The map of claimed rows built from the due ones. *)
Lemma lookup_claimed (due : list Timer) id t :
  NoDup (t_InstanceID <$> due) →
  (list_to_map ((λ t, (t_InstanceID t, t)) <$> due) : gmap string Timer) !! id = Some t ↔
  t ∈ due ∧ t_InstanceID t = id.
Proof.
  intros Hnd. rewrite <- elem_of_list_to_map.
  - rewrite list_elem_of_fmap. naive_solver.
  - by rewrite <- list_fmap_compose.
Qed.

Lemma elem_of_ClaimDueTimers now o o' locked limit db t :
  let r := ClaimDueTimers now o o' locked limit db in
  t ∈ r.1 →
  db_timers r.2 !! t_InstanceID t = None ∧ t_InstanceID t ∉ locked ∧ t_FireAt t ≤ pg_time now ∧
  ∃ t0, db_timers db !! t_InstanceID t = Some t0 ∧ t = scan_timer (t_InstanceID t) t0.
Proof.
  unfold ClaimDueTimers. cbn zeta. set (db' := set_timers _ _). simpl fst. simpl snd.
  intros ([k t'] & -> & Hk%elem_of_range_order)%list_elem_of_fmap. simpl.
  assert (Hc := Hk). apply lookup_claimed in Hk as [Hin <-]; [|apply due_timers_NoDup].
  destruct (elem_of_due_timers _ _ _ _ _ Hin) as (t0 & Ht0 & Heq & Hdue).
  unfold db' in Ht0. simpl in Ht0. apply map_lookup_filter_Some in Ht0 as [Ht0 Hnl]. simpl in Hnl.
  split_and!; [|done|done|eauto]. apply lookup_difference_None. right. by rewrite Hc.
Qed.

Lemma ClaimDueTimers_other now o o' locked limit db id :
  (∀ t, t ∈ (ClaimDueTimers now o o' locked limit db).1 → t_InstanceID t ≠ id) →
  db_timers (ClaimDueTimers now o o' locked limit db).2 !! id = db_timers db !! id.
Proof.
  unfold ClaimDueTimers. cbn zeta. set (due := due_timers _ _ _ _). simpl fst. simpl snd. intros Hne. simpl.
  destruct ((list_to_map ((λ t, (t_InstanceID t, t)) <$> due) : gmap string Timer) !! id) as [t|] eqn:Hc.
  - exfalso. apply (Hne t).
    + apply list_elem_of_fmap. exists (id, t). split; [done|]. by apply elem_of_range_order.
    + apply lookup_claimed in Hc as [_ ?]; [done|apply due_timers_NoDup].
  - rewrite lookup_difference. by simpl; rewrite Hc.
Qed.

Lemma ClaimDueTimers_absent now o o' locked limit db id :
  db_timers db !! id = None → db_timers (ClaimDueTimers now o o' locked limit db).2 !! id = None.
Proof. intros Ht. apply lookup_difference_None. by left. Qed.

(** An event that is not a new schedule of [id]. *)
Definition no_upsert id ev : Prop :=
  match ev_op ev with OpUpsertTimer t => t_InstanceID t ≠ id | _ => True end.

Lemma timer_absent_step id ev db :
  no_upsert id ev → db_timers db !! id = None →
  db_timers (repo_exec (ev_op ev) (ev_tick ev) db).2 !! id = None.
Proof.
  destruct ev as [A op k f]. unfold no_upsert. simpl ev_op. simpl ev_tick. intros Hop Ht.
  destruct op; try done.
  - simpl. unfold CreateDefinition. by repeat case_match.
  - simpl. unfold CreateInstance. by repeat case_match.
  - simpl. unfold ClaimInstance. by repeat case_match.
  - simpl. unfold ReleaseInstance. by repeat case_match.
  - simpl. unfold UpdateInstance. by repeat case_match.
  - simpl. unfold AppendHistory. by repeat case_match.
  - simpl. unfold CompleteHistory. by repeat case_match.
  - simpl. unfold UpsertTimer. case_match; [|done]. simpl. by rewrite lookup_insert_ne.
  - simpl. rewrite lookup_delete. by case_decide.
  - simpl. rewrite lookup_delete. by case_decide.
  - by apply (ClaimDueTimers_absent _ (k_order k) (k_order' k) (k_locked k)).
Qed.

Lemma timer_absent_after id evs db :
  Forall (no_upsert id) evs → db_timers db !! id = None → db_timers (after evs db) !! id = None.
Proof. apply (after_ind (λ db, db_timers db !! id = None)). intros ev db'. apply timer_absent_step. Qed.
End facts.
