(* ===== verification/Sql.v ===== *)
(** * Tables, constraints and statements of SQL

    What the migrations and the statements of postgres.go use of SQL.  A row is a list of
    named cells, a schema is what the data-definition statements build, and [satisfies]
    says that tables obey the constraints of a schema.  A statement that would break one
    fails and has no effect ([checked]).  The order of the rows of a table does not
    matter: tables are compared up to permutation.  The range of INTEGER is not checked
    here (see [Store]). *)

From stdpp Require Import sorting.
From S2P Require Import Prelude GoTime Workflow.

(** ** Cells and rows *)
Inductive atom := AUuid (s : string) | AText (s : string) | AInt (n : Z) | ATime (t : time).
#[export] Instance atom_eq_dec : EqDecision atom.
Proof. solve_decision. Defined.

Inductive json_cell := JDsl (d : DefinitionDSL) | JObj (o : gomap value) | JState (s : RuntimeState).
Inductive cell := CAtom (a : atom) | CJson (j : json_cell).

(** A column is SQL NULL when it is [None]. *)
Definition row : Type := list (string * option cell).
Fixpoint cell_of (r : row) (c : string) : option cell :=
  match r with
  | [] => None
  | (n, v) :: r => if String.eqb n c then v else cell_of r c
  end.

Inductive column_type := UUID | TEXT | INTEGER | JSONB | TIMESTAMPTZ.
#[export] Instance column_type_eq_dec : EqDecision column_type.
Proof. solve_decision. Defined.
Definition type_of (c : cell) : column_type :=
  match c with
  | CAtom (AUuid _) => UUID
  | CAtom (AText _) => TEXT
  | CAtom (AInt _) => INTEGER
  | CAtom (ATime _) => TIMESTAMPTZ
  | CJson _ => JSONB
  end.

(** ** Schemas *)
Inductive default_value := DefaultUuid | DefaultNow | DefaultText (s : string) | DefaultInt (n : Z) | DefaultObject.
Record column := Column {
  col_name : string;
  col_type : column_type;
  col_not_null : bool;
  col_default : option default_value;
}.

Inductive constr :=
| Unique (cols : list string)
| ForeignKey (cols : list string) (ref : string) (refcols : list string) (cascade : bool).

Record index := Index { ix_name : string; ix_table : string; ix_cols : list string; ix_unique : bool }.
Record table := Table { tb_columns : list column; tb_constraints : list (string * constr) }.
Record schema := Schema { sc_tables : list (string * table); sc_indexes : list index }.
Definition empty_schema : schema := Schema [] [].

Fixpoint assoc {A} (l : list (string * A)) (n : string) : option A :=
  match l with
  | [] => None
  | (m, a) :: l => if String.eqb m n then Some a else assoc l n
  end.
Fixpoint assoc_set {A} (l : list (string * A)) (n : string) (a : A) : list (string * A) :=
  match l with
  | [] => [(n, a)]
  | (m, b) :: l => if String.eqb m n then (m, a) :: l else (m, b) :: assoc_set l n a
  end.

(** The constraints that a table has to obey: its own and its unique indexes. *)
Definition unique_indexes (s : schema) (t : string) : list constr :=
  omap (λ ix, if ix_unique ix && String.eqb (ix_table ix) t then Some (Unique (ix_cols ix)) else None) (sc_indexes s).
Definition constraints (s : schema) (t : string) : list constr :=
  match assoc (sc_tables s) t with
  | Some tb => (tb_constraints tb).*2 ++ unique_indexes s t
  | None => []
  end.

(** ** Data definition *)
Inductive ddl :=
| CreateExtension (n : string)
| CreateTable (t : string) (cols : list column) (cs : list (string * constr))
| AddColumnIfNotExists (t : string) (c : column)
| CreateIndex (if_not_exists : bool) (ix : index)
| AddConstraint (t n : string) (c : constr)
| DropConstraintIfExists (t n : string)
(** A [DO] block around one [ALTER TABLE ... ADD CONSTRAINT]. *)
| AddConstraintUnlessNamed (t n : string) (c : constr).

(** A foreign key has to refer to columns with a unique constraint or index. *)
Definition unique_on (cols : list string) (c : constr) : bool :=
  match c with Unique cols' => bool_decide (cols' = cols) | ForeignKey _ _ _ _ => false end.
Definition constr_ok (s : schema) (c : constr) : bool :=
  match c with
  | Unique _ => true
  | ForeignKey _ ref refcols _ => existsb (unique_on refcols) (constraints s ref)
  end.
Definition constraint_named (s : schema) (n : string) : bool :=
  existsb (λ t, existsb (λ c, String.eqb c.1 n) (tb_constraints t.2)) (sc_tables s).

Definition with_table (s : schema) (t : string) (f : table → option table) : option schema :=
  tb ← assoc (sc_tables s) t;
  tb ← f tb;
  Some (Schema (assoc_set (sc_tables s) t tb) (sc_indexes s)).

Definition add_constraint (s : schema) (t n : string) (c : constr) : option schema :=
  if constr_ok s c then
    with_table s t (λ tb,
      if existsb (λ c, String.eqb c.1 n) (tb_constraints tb) then None
      else Some (Table (tb_columns tb) (tb_constraints tb ++ [(n, c)])))
  else None.

(** [None] when the statement fails. *)
Definition exec_ddl (s : schema) (d : ddl) : option schema :=
  match d with
  | CreateExtension _ => Some s
  | CreateTable t cols cs =>
      if assoc (sc_tables s) t then None
      else foldl (λ s c, s ← s; add_constraint s t c.1 c.2)
             (Some (Schema (sc_tables s ++ [(t, Table cols [])]) (sc_indexes s))) cs
  | AddColumnIfNotExists t c =>
      with_table s t (λ tb,
        if existsb (λ c', String.eqb (col_name c') (col_name c)) (tb_columns tb) then Some tb
        else Some (Table (tb_columns tb ++ [c]) (tb_constraints tb)))
  | CreateIndex if_not_exists ix =>
      if existsb (λ ix', String.eqb (ix_name ix') (ix_name ix)) (sc_indexes s)
      then if if_not_exists then Some s else None
      else if assoc (sc_tables s) (ix_table ix) then Some (Schema (sc_tables s) (sc_indexes s ++ [ix])) else None
  | AddConstraint t n c => add_constraint s t n c
  | DropConstraintIfExists t n =>
      with_table s t (λ tb, Some (Table (tb_columns tb) (filter (λ c, c.1 ≠ n) (tb_constraints tb))))
  | AddConstraintUnlessNamed t n c => if constraint_named s n then Some s else add_constraint s t n c
  end.

Definition migrate (s : schema) (ds : list ddl) : option schema :=
  foldl (λ s d, s ← s; exec_ddl s d) (Some s) ds.

(** ** Tables *)
Definition tables : Type := string → list row.
Definition set_table (ts : tables) (t : string) (rs : list row) : tables :=
  λ t', if String.eqb t' t then rs else ts t'.

#[export] Instance tables_equiv : Equiv tables := λ ts ts', ∀ t, ts t ≡ₚ ts' t.
#[export] Instance tables_equivalence : Equivalence (≡@{tables}).
Proof.
  split.
  - intros a t. reflexivity.
  - intros a b Hab t. symmetry. apply Hab.
  - intros a b c Hab Hbc t. etrans; [apply Hab|apply Hbc].
Qed.

(** The value of a key; [None] when one of its columns is NULL (such a row has no key:
    it is unlike every other row, and its reference is not checked). *)
Definition key_of (cols : list string) (r : row) : option (list atom) :=
  mapM (λ c, match cell_of r c with Some (CAtom a) => Some a | _ => None end) cols.

Definition refers (ts : tables) (cols : list string) (ref : string) (refcols : list string) (r : row) : Prop :=
  match key_of cols r with
  | None => True
  | Some k => Some k ∈ (key_of refcols <$> ts ref)
  end.
#[export] Instance refers_dec ts cols ref refcols r : Decision (refers ts cols ref refcols r).
Proof. unfold refers. destruct (key_of cols r); apply _. Defined.

Definition holds (ts : tables) (t : string) (c : constr) : Prop :=
  match c with
  | Unique cols => NoDup (omap (key_of cols) (ts t))
  | ForeignKey cols ref refcols _ => Forall (refers ts cols ref refcols) (ts t)
  end.
#[export] Instance holds_dec ts t c : Decision (holds ts t c).
Proof. destruct c; simpl; apply _. Defined.

Definition cell_ok (r : row) (c : column) : bool :=
  match cell_of r (col_name c) with
  | None => negb (col_not_null c)
  | Some v => bool_decide (type_of v = col_type c)
  end.

Definition table_ok (s : schema) (ts : tables) (t : string) (tb : table) : Prop :=
  Forall (λ r, forallb (cell_ok r) (tb_columns tb) = true) (ts t) ∧ Forall (holds ts t) (constraints s t).

(** The tables obey the schema. *)
Definition satisfies (s : schema) (ts : tables) : Prop :=
  Forall (λ nt, table_ok s ts nt.1 nt.2) (sc_tables s).
#[export] Instance satisfies_dec s ts : Decision (satisfies s ts).
Proof. unfold satisfies, table_ok. apply _. Defined.

#[export] Instance refers_proper :
  Proper ((≡) ==> (=) ==> (=) ==> (=) ==> (=) ==> iff) refers.
Proof.
  intros a b Hab ? cols -> ? ref -> ? refcols -> ? r ->. unfold refers. destruct (key_of cols r); [|done].
  by rewrite (Hab ref).
Qed.
#[export] Instance holds_proper : Proper ((≡) ==> (=) ==> (=) ==> iff) holds.
Proof.
  intros a b Hab ? t -> ? c ->. destruct c as [cols|cols ref refcols casc]; simpl.
  - by rewrite (Hab t).
  - rewrite (Hab t). apply Forall_iff. intros r. by rewrite Hab.
Qed.
#[export] Instance satisfies_proper s : Proper ((≡) ==> iff) (satisfies s).
Proof.
  intros a b Hab. unfold satisfies, table_ok. apply Forall_iff. intros [t tb]. simpl.
  rewrite (Hab t). apply and_iff_compat_l, Forall_iff. intros c. by rewrite Hab.
Qed.

(** ** Statements *)
Definition default_cell (now : time) (uuid : string) (d : default_value) : cell :=
  match d with
  | DefaultUuid => CAtom (AUuid uuid)
  | DefaultNow => CAtom (ATime now)
  | DefaultText s => CAtom (AText s)
  | DefaultInt n => CAtom (AInt n)
  | DefaultObject => CJson (JObj (Some ∅))
  end.

(** The columns of a new row: those listed, and the defaults of the others. *)
Definition complete (now : time) (uuid : string) (tb : table) (vals : row) : row :=
  (λ c, (col_name c, match assoc vals (col_name c) with
                     | Some v => v
                     | None => default_cell now uuid <$> col_default c
                     end)) <$> tb_columns tb.

Definition checked (s : schema) (ts : tables) : option tables :=
  if decide (satisfies s ts) then Some ts else None.

Definition sql_insert (s : schema) (now : time) (uuid t : string) (vals : row) (ts : tables) : option tables :=
  tb ← assoc (sc_tables s) t;
  checked s (set_table ts t (complete now uuid tb vals :: ts t)).

(** [UPDATE t SET ... WHERE p]: the assigned columns of the rows with [p]. *)
Definition assign (vals : row) (r : row) : row :=
  (λ nv, (nv.1, match assoc vals nv.1 with Some v => v | None => nv.2 end)) <$> r.
Definition update_rows (p : row → bool) (vals : row → row) (rs : list row) : list row :=
  (λ r, if p r then assign (vals r) r else r) <$> rs.
Definition sql_update (s : schema) (t : string) (p : row → bool) (vals : row → row) (ts : tables) : option tables :=
  checked s (set_table ts t (update_rows p vals (ts t))).
(** The number of rows a statement reports. *)
Definition affected (p : row → bool) (rs : list row) : nat := length (filter (λ r, p r = true) rs).

(** [INSERT ... ON CONFLICT (col) DO UPDATE SET conflict_vals]. *)
Definition has_cell (c : string) (a : atom) (r : row) : bool := bool_decide (key_of [c] r = Some [a]).
Definition sql_upsert (s : schema) (now : time) (uuid t c : string) (a : atom) (vals conflict_vals : row)
    (ts : tables) : option tables :=
  if existsb (has_cell c a) (ts t) then sql_update s t (has_cell c a) (λ _, conflict_vals) ts
  else sql_insert s now uuid t vals ts.

(** [DELETE FROM t WHERE p]. *)
Definition sql_delete (s : schema) (t : string) (p : row → bool) (ts : tables) : option tables :=
  checked s (set_table ts t (filter (λ r, p r = false) (ts t))).

(** [SELECT ... FROM t WHERE p ORDER BY c LIMIT n]: [n] of the rows with [p], or all of them
    when there are fewer, sorted, and none of them after a row that is left out.  Which of
    the rows with the same [c] are taken, and in what order, SQL leaves open. *)
Definition cell_le (c : string) (a b : row) : Prop :=
  match cell_of a c, cell_of b c with
  | Some (CAtom (ATime x)), Some (CAtom (ATime y)) => (x ≤ y)%Z
  | _, _ => False
  end.
Definition sql_select (p : row → bool) (c : string) (n : nat) (rs selected : list row) : Prop :=
  ∃ rest, filter (λ r, p r = true) rs ≡ₚ selected ++ rest ∧ (length selected = n ∨ length selected ≤ n ∧ rest = []) ∧
    StronglySorted (cell_le c) selected ∧ ∀ a b, a ∈ selected → b ∈ rest → cell_le c a b.

(** [DELETE FROM t USING due WHERE t.c = due.c]. *)
Definition same_cell (c : string) (a b : row) : bool :=
  match key_of [c] a, key_of [c] b with Some x, Some y => bool_decide (x = y) | _, _ => false end.
Definition sql_delete_using (s : schema) (t c : string) (due : list row) (ts : tables) : option tables :=
  sql_delete s t (λ r, existsb (same_cell c r) due) ts.
