(* ===== verification/Schema.v ===== *)
(** * migrations/: the schema of the database, and the repository as SQL on its tables

    The migration files as data definition ([migration_001], [migration_002]) and the
    schema they create.  [tables db] are the rows of the maps of [Store] with the columns
    of the schema; [schema_ok] is what obeying the schema means for them.  The writing
    statements of postgres.go are stated here as SQL ([Sql]) and the functions of [Store]
    do what they do: an insert succeeds exactly when no constraint of the schema is
    broken ([insert_instance_refines] and the like), and every method keeps the schema. *)

From S2P Require Import Prelude GoNum GoTime Workflow Accessors Json Store Effects.
From S2P Require Import PostgresLaws StoreFacts Sql.

(** ** The migrations *)
Definition col (n : string) (t : column_type) : column := Column n t false None.
Definition required (n : string) (t : column_type) : column := Column n t true None.
Definition defaulted (n : string) (t : column_type) (d : default_value) : column := Column n t true (Some d).
Definition unique_index (n t : string) (cols : list string) : index := Index n t cols true.
Definition plain_index (n t : string) (cols : list string) : index := Index n t cols false.

Definition definitions_columns : list column :=
  [defaulted "id" UUID DefaultUuid; defaulted "tenant_id" TEXT (DefaultText "default"); required "name" TEXT;
   defaulted "version" INTEGER (DefaultInt 1); required "dsl" JSONB;
   defaulted "created_at" TIMESTAMPTZ DefaultNow; defaulted "updated_at" TIMESTAMPTZ DefaultNow].
Definition instances_columns : list column :=
  [defaulted "id" UUID DefaultUuid; defaulted "tenant_id" TEXT (DefaultText "default"); required "definition_id" UUID;
   required "definition_version" INTEGER; defaulted "status" TEXT (DefaultText "pending"); required "input" JSONB;
   col "current_step_id" TEXT; defaulted "state" JSONB DefaultObject; defaulted "version" INTEGER (DefaultInt 0);
   col "locked_by" TEXT; col "locked_until" TIMESTAMPTZ;
   defaulted "created_at" TIMESTAMPTZ DefaultNow; defaulted "updated_at" TIMESTAMPTZ DefaultNow].
Definition history_columns : list column :=
  [defaulted "id" UUID DefaultUuid; required "instance_id" UUID; required "step_id" TEXT; required "status" TEXT;
   col "input" JSONB; col "output" JSONB; col "error" TEXT; defaulted "attempt" INTEGER (DefaultInt 1);
   required "started_at" TIMESTAMPTZ; col "completed_at" TIMESTAMPTZ].
Definition timers_columns : list column :=
  [required "instance_id" UUID; required "step_id" TEXT; required "fire_at" TIMESTAMPTZ;
   defaulted "created_at" TIMESTAMPTZ DefaultNow].

(** A constraint written with its column has the name PostgreSQL gives it. *)
Definition fk_tenant_definition : constr := ForeignKey ["tenant_id"; "definition_id"] "definitions" ["tenant_id"; "id"] false.
Definition fk_instance (cascade : bool) : constr := ForeignKey ["instance_id"] "instances" ["id"] cascade.

(** 001_init.sql *)
Definition migration_001 : list ddl :=
  [CreateExtension "pgcrypto";
   CreateTable "definitions" definitions_columns [("definitions_pkey", Unique ["id"])];
   CreateIndex false (unique_index "ux_definitions_tenant_name_version" "definitions" ["tenant_id"; "name"; "version"]);
   CreateIndex false (unique_index "ux_definitions_tenant_id" "definitions" ["tenant_id"; "id"]);
   CreateIndex false (plain_index "idx_definitions_tenant" "definitions" ["tenant_id"; "id"]);
   CreateTable "instances" instances_columns
     [("instances_pkey", Unique ["id"]);
      ("instances_definition_id_fkey", ForeignKey ["definition_id"] "definitions" ["id"] false)];
   CreateIndex false (plain_index "idx_instances_tenant" "instances" ["tenant_id"; "id"]);
   CreateIndex false (plain_index "idx_instances_recoverable" "instances" ["status"; "updated_at"]);
   CreateIndex false (plain_index "idx_instances_lock_expiry" "instances" ["locked_until"]);
   AddConstraint "instances" "fk_instances_tenant_definition" fk_tenant_definition;
   CreateTable "execution_history" history_columns
     [("execution_history_pkey", Unique ["id"]);
      ("execution_history_instance_id_fkey", fk_instance false); ("fk_instance", fk_instance false)];
   CreateIndex false (plain_index "idx_history_instance" "execution_history" ["instance_id"; "started_at"]);
   CreateTable "timers" timers_columns
     [("timers_pkey", Unique ["instance_id"]); ("timers_instance_id_fkey", fk_instance true)];
   CreateIndex false (plain_index "idx_timers_due" "timers" ["fire_at"])].

(** 002_tenant_leases_and_timer_claims.sql *)
Definition migration_002 : list ddl :=
  [AddColumnIfNotExists "definitions" (defaulted "tenant_id" TEXT (DefaultText "default"));
   AddColumnIfNotExists "instances" (defaulted "tenant_id" TEXT (DefaultText "default"));
   AddColumnIfNotExists "instances" (col "locked_by" TEXT);
   AddColumnIfNotExists "instances" (col "locked_until" TIMESTAMPTZ);
   DropConstraintIfExists "definitions" "definitions_name_version_key";
   CreateIndex true (unique_index "ux_definitions_tenant_name_version" "definitions" ["tenant_id"; "name"; "version"]);
   CreateIndex true (unique_index "ux_definitions_tenant_id" "definitions" ["tenant_id"; "id"]);
   CreateIndex true (plain_index "idx_definitions_tenant" "definitions" ["tenant_id"; "id"]);
   CreateIndex true (plain_index "idx_instances_tenant" "instances" ["tenant_id"; "id"]);
   CreateIndex true (plain_index "idx_instances_recoverable" "instances" ["status"; "updated_at"]);
   CreateIndex true (plain_index "idx_instances_lock_expiry" "instances" ["locked_until"]);
   AddConstraintUnlessNamed "instances" "fk_instances_tenant_definition" fk_tenant_definition].

(** The schema that [migration_001] creates. *)
Definition aether_schema : schema :=
  Eval vm_compute in match migrate empty_schema migration_001 with Some s => s | None => empty_schema end.

(** ** The rows of the maps of [Store] *)
Definition uuid (s : string) : option cell := Some (CAtom (AUuid s)).
Definition text (s : string) : option cell := Some (CAtom (AText s)).
Definition int (n : Z) : option cell := Some (CAtom (AInt n)).
Definition timestamp (t : time) : option cell := Some (CAtom (ATime t)).
Definition json (j : json_cell) : option cell := Some (CJson j).

Definition definition_row (id : string) (d : Definition_) : row :=
  [("id", uuid id); ("tenant_id", text (d_TenantID d)); ("name", text (d_Name d)); ("version", int (d_Version d));
   ("dsl", json (JDsl (d_DSL d))); ("created_at", timestamp (d_CreatedAt d)); ("updated_at", timestamp (d_UpdatedAt d))].
Definition instance_row (id : string) (r : InstanceRow) : row :=
  let i := row_inst r in
  [("id", uuid id); ("tenant_id", text (i_TenantID i)); ("definition_id", uuid (i_DefinitionID i));
   ("definition_version", int (i_DefinitionVersion i)); ("status", text (i_Status i)); ("input", json (JObj (i_Input i)));
   ("current_step_id", i_CurrentStepID i ≫= text); ("state", json (JState (i_State i))); ("version", int (i_Version i));
   ("locked_by", locked_by r ≫= text); ("locked_until", locked_until r ≫= timestamp);
   ("created_at", timestamp (i_CreatedAt i)); ("updated_at", timestamp (i_UpdatedAt i))].
Definition history_row (id : string) (h : History) : row :=
  [("id", uuid id); ("instance_id", uuid (h_InstanceID h)); ("step_id", text (h_StepID h)); ("status", text (h_Status h));
   ("input", json (JObj (h_Input h))); ("output", json (JObj (h_Output h))); ("error", h_Error h ≫= text);
   ("attempt", int (h_Attempt h)); ("started_at", timestamp (h_StartedAt h));
   ("completed_at", h_CompletedAt h ≫= timestamp)].
(** The column [created_at] of a timer is written and never read: [Store] leaves it out. *)
Definition timer_row (created : string → time) (id : string) (t : Timer) : row :=
  [("instance_id", uuid id); ("step_id", text (t_StepID t)); ("fire_at", timestamp (t_FireAt t));
   ("created_at", timestamp (created id))].

Definition rows {A} (view : string → A → row) (m : gmap string A) : list row :=
  (λ kv, view kv.1 kv.2) <$> map_to_list m.

Definition tables_of (created : string → time) (db : DB) : tables := λ t,
  if String.eqb t "definitions" then rows definition_row (db_definitions db)
  else if String.eqb t "instances" then rows instance_row (db_instances db)
  else if String.eqb t "execution_history" then rows history_row (db_history db)
  else if String.eqb t "timers" then rows (timer_row created) (db_timers db)
  else [].

(** What the schema says of the maps. *)
Record schema_ok (db : DB) : Prop := {
  so_definition_names i j d d' :
    db_definitions db !! i = Some d → db_definitions db !! j = Some d' →
    d_TenantID d = d_TenantID d' → d_Name d = d_Name d' → d_Version d = d_Version d' → i = j;
  so_instances i r : db_instances db !! i = Some r →
    definition_fk (i_TenantID (row_inst r)) (i_DefinitionID (row_inst r)) db;
  so_history i h : db_history db !! i = Some h → is_Some (db_instances db !! h_InstanceID h);
  so_timers i t : db_timers db !! i = Some t → is_Some (db_instances db !! i);
}.

(** ** The writing statements of postgres.go *)
Section statements.
Context `{PgClock}.
Implicit Types (now : time).

Definition insert_definition (tenant : string) (d : DefinitionDSL) : row :=
  [("tenant_id", text tenant); ("name", text (dsl_Name d)); ("version", int (dsl_Version d)); ("dsl", json (JDsl (reload_dsl d)))].
Definition insert_instance (tenant : string) (d : Definition_) (input : gomap value) (s : RuntimeState) : row :=
  [("tenant_id", text tenant); ("definition_id", uuid (d_ID d)); ("definition_version", int (d_Version d));
   ("status", text InstancePending); ("input", json (JObj (reload_obj input))); ("state", json (JState (reload s)))].
Definition insert_history (h : History) (started : time) : row :=
  [("instance_id", uuid (h_InstanceID h)); ("step_id", text (h_StepID h)); ("status", text (h_Status h));
   ("input", json (JObj (reload_obj (h_Input h)))); ("output", json (JObj (reload_obj (h_Output h))));
   ("error", h_Error h ≫= text); ("attempt", int (h_Attempt h)); ("started_at", timestamp (pg_time started));
   ("completed_at", (pg_time <$> h_CompletedAt h) ≫= timestamp)].
Definition insert_timer (t : Timer) : row :=
  [("instance_id", uuid (t_InstanceID t)); ("step_id", text (t_StepID t)); ("fire_at", timestamp (pg_time (t_FireAt t)))].
Definition conflict_timer now (t : Timer) : row :=
  [("step_id", text (t_StepID t)); ("fire_at", timestamp (pg_time (t_FireAt t))); ("created_at", timestamp now)].

(** [SET] of [UpdateInstance], [WHERE id = $4 AND version = $5]. *)
Definition assign_progress now (i : Instance_) (r : row) : row :=
  [("status", text (i_Status i)); ("current_step_id", i_CurrentStepID i ≫= text); ("state", json (JState (reload (i_State i))));
   ("version", match cell_of r "version" with Some (CAtom (AInt v)) => int (v + 1) | c => c end); ("updated_at", timestamp now)].
Definition has_id (id : string) (r : row) : bool := has_cell "id" (AUuid id) r.
Definition has_version (id : string) (v : Z) (r : row) : bool := has_id id r && has_cell "version" (AInt v) r.

Definition assign_lease (owner : option string) (until : option time) (_ : row) : row :=
  [("locked_by", owner ≫= text); ("locked_until", until ≫= timestamp)].
(** [WHERE] of [ClaimInstance]; a comparison with NULL is not true. *)
Definition claim_where now (id owner : string) (r : row) : bool :=
  has_id id r &&
  negb (has_cell "status" (AText InstanceCompleted) r || has_cell "status" (AText InstanceFailed) r) &&
  (match cell_of r "locked_until" with
   | None => true
   | Some (CAtom (ATime t)) => bool_decide (t ≤ now)%Z
   | Some _ => false
   end || has_cell "locked_by" (AText owner) r).
Definition release_where (id owner : string) (r : row) : bool := has_id id r && has_cell "locked_by" (AText owner) r.

Definition assign_history now (status : string) (output : gomap value) (err : option string) (_ : row) : row :=
  [("status", text status); ("output", json (JObj (reload_obj output))); ("error", err ≫= text); ("completed_at", timestamp now)].
Definition timer_where (id : string) (r : row) : bool := has_cell "instance_id" (AUuid id) r.
(** [WHERE] of the common table expression of [ClaimDueTimers]; the rows with the identifiers
    [locked] are locked by a concurrent statement, which [SKIP LOCKED] skips. *)
Definition due_where now (locked : list string) (r : row) : bool :=
  match cell_of r "fire_at" with
  | Some (CAtom (ATime t)) => bool_decide (t ≤ now)%Z
  | _ => false
  end && negb (existsb (λ id, timer_where id r) locked).
(** [Scan] of a returned row into a [Timer]. *)
Definition scan_timer_row (r : row) : option Timer :=
  match cell_of r "instance_id", cell_of r "step_id", cell_of r "fire_at" with
  | Some (CAtom (AUuid id)), Some (CAtom (AText step)), Some (CAtom (ATime t)) => Some (mkTimer id step t)
  | _, _, _ => None
  end.
End statements.
