(* ===== verification/SchemaFacts.v ===== *)
(** * The rows of a map as a table of the schema

    How the constraints of [Sql] and its statements read on tables that are the rows of
    a map; the schema of the migrations on the maps of [Store] ([satisfies_iff]). *)

From S2P Require Import Prelude GoNum GoTime Workflow Accessors Json Store Effects.
From S2P Require Import PostgresLaws StoreFacts Sql Schema.

(** ** Tables that are the rows of a map *)
Lemma elem_of_rows {A} (view : string → A → row) m r :
  r ∈ rows view m ↔ ∃ id a, m !! id = Some a ∧ r = view id a.
Proof.
  unfold rows. rewrite list_elem_of_fmap. split.
  - intros ([id a] & -> & Hin%elem_of_map_to_list). eauto.
  - intros (id & a & Hm & ->). exists (id, a). split; [done|]. by apply elem_of_map_to_list.
Qed.

Lemma view_in_rows {A} (view : string → A → row) m id a : m !! id = Some a → view id a ∈ rows view m.
Proof. rewrite elem_of_rows. eauto. Qed.

Lemma rows_ext {A} (view view' : string → A → row) m :
  (∀ j b, m !! j = Some b → view j b = view' j b) → rows view m = rows view' m.
Proof.
  intros Hv. unfold rows. apply list_fmap_ext. intros _ [j b] Hin%list_elem_of_lookup_2%elem_of_map_to_list. by apply Hv.
Qed.

Lemma affected_zero p rs : (∀ r, r ∈ rs → p r = false) → affected p rs = 0.
Proof.
  intros Hp. unfold affected. induction rs as [|r rs IH]; [done|]. rewrite filter_cons_False by (by rewrite Hp by left).
  apply IH. intros r' Hr'. apply Hp. by right.
Qed.

Section rows.
Context {A : Type} (view : string → A → row).
Implicit Types (m : gmap string A) (ts : tables) (t id : string).

Lemma rows_insert_fresh m id a : m !! id = None → rows view (<[id := a]> m) ≡ₚ view id a :: rows view m.
Proof. intros Hm. unfold rows. by rewrite map_to_list_insert. Qed.

Lemma rows_delete m id a : m !! id = Some a → rows view m ≡ₚ view id a :: rows view (delete id m).
Proof. intros Hm. unfold rows. by rewrite <- (map_to_list_delete m id a). Qed.

(** An update that selects the row of [id], and one that selects none. *)
Lemma rows_update (view' : string → A → row) m id a a' p vals :
  m !! id = Some a → (∀ j b, m !! j = Some b → p (view j b) = bool_decide (j = id)) →
  assign (vals (view id a)) (view id a) = view' id a' → (∀ j b, j ≠ id → view' j b = view j b) →
  update_rows p vals (rows view m) ≡ₚ rows view' (<[id := a']> m).
Proof.
  intros Hm Hp Ha Hv. rewrite <- insert_delete_eq.
  assert (rows view' (<[id := a']> (delete id m)) ≡ₚ view' id a' :: rows view' (delete id m)) as ->.
  { unfold rows. by rewrite map_to_list_insert by apply lookup_delete_eq. }
  unfold update_rows. rewrite (rows_delete m id a Hm). csimpl. rewrite (Hp id a Hm), bool_decide_eq_true_2, Ha by done.
  apply Permutation_cons; [done|]. unfold rows. rewrite <- list_fmap_compose.
  apply Permutation_refl', list_fmap_ext. intros _ [j b] Hin%list_elem_of_lookup_2%elem_of_map_to_list.
  apply lookup_delete_Some in Hin as [Hj Hb]. unfold compose. simpl. by rewrite (Hp j b Hb), bool_decide_eq_false_2, Hv by done.
Qed.

Lemma rows_update_none m p vals :
  (∀ j b, m !! j = Some b → p (view j b) = false) → update_rows p vals (rows view m) = rows view m.
Proof.
  intros Hp. unfold update_rows, rows. rewrite <- list_fmap_compose. apply list_fmap_ext.
  intros _ [j b] Hin%list_elem_of_lookup_2%elem_of_map_to_list. unfold compose. simpl. by rewrite (Hp j b Hin).
Qed.

Lemma affected_one m id a p :
  m !! id = Some a → (∀ j b, m !! j = Some b → p (view j b) = bool_decide (j = id)) → affected p (rows view m) = 1.
Proof.
  intros Hm Hp. unfold affected. rewrite (rows_delete m id a Hm), filter_cons_True
    by (by rewrite (Hp id a Hm), bool_decide_eq_true_2).
  simpl. f_equal. apply affected_zero. intros r (j & b & Hb & ->)%elem_of_rows.
  apply lookup_delete_Some in Hb as [Hj Hb]. by rewrite (Hp j b Hb), bool_decide_eq_false_2.
Qed.

Lemma affected_none m p : (∀ j b, m !! j = Some b → p (view j b) = false) → affected p (rows view m) = 0.
Proof.
  intros Hp. apply affected_zero. intros r (j & b & Hb & ->)%elem_of_rows. by apply Hp.
Qed.

(** A deletion. *)
Lemma rows_filter m p (P : string * A → Prop) `{∀ kv, Decision (P kv)} :
  (∀ j b, m !! j = Some b → p (view j b) = bool_decide (¬ P (j, b))) →
  filter (λ r, p r = false) (rows view m) ≡ₚ rows view (filter P m).
Proof.
  induction m as [|id a m Hm IH] using map_ind; intros Hp.
  { rewrite map_filter_empty. unfold rows. by rewrite map_to_list_empty. }
  rewrite (rows_insert_fresh m id a Hm).
  assert (Hrec : filter (λ r, p r = false) (rows view m) ≡ₚ rows view (filter P m)).
  { apply IH. intros j b Hj. apply Hp. rewrite lookup_insert_ne; [done|]. intros ->. congruence. }
  assert (Hid := Hp id a (lookup_insert_eq _ _ _)). destruct (decide (P (id, a))) as [HP|HP].
  - rewrite bool_decide_eq_false_2 in Hid by (intros Hn; by apply Hn).
    rewrite filter_cons_True, Hrec, map_filter_insert_True by done.
    symmetry. apply rows_insert_fresh. apply map_lookup_filter_None. by left.
  - rewrite bool_decide_eq_true_2 in Hid by done. rewrite filter_cons_False by (by rewrite Hid).
    by rewrite Hrec, map_filter_insert_False, delete_id.
Qed.

(** A key whose columns are never NULL. *)
Variable cols : list string.
Variable k : string → A → list atom.
Hypothesis Hk : ∀ id a, key_of cols (view id a) = Some (k id a).

Lemma omap_rows m : omap (key_of cols) (rows view m) = (λ kv, k kv.1 kv.2) <$> map_to_list m.
Proof. unfold rows. induction (map_to_list m) as [|[i a] l IH]; [done|]. csimpl. rewrite Hk. by f_equal. Qed.

Lemma unique_rows ts t m :
  ts t = rows view m →
  holds ts t (Unique cols) ↔ ∀ i j a b, m !! i = Some a → m !! j = Some b → k i a = k j b → i = j.
Proof.
  intros Hts. simpl. rewrite Hts, omap_rows. split.
  - intros Hnd i j a b Ha%elem_of_map_to_list Hb%elem_of_map_to_list Heq.
    apply list_elem_of_lookup in Ha as [x Hx], Hb as [y Hy].
    assert (x = y) as <-; [|congruence].
    apply (NoDup_lookup _ x y (k i a) Hnd); rewrite list_lookup_fmap; [by rewrite Hx|by rewrite Hy, Heq].
  - intros Hinj. apply NoDup_fmap_2_strong; [|apply NoDup_map_to_list].
    intros [i a] [j b] Hi%elem_of_map_to_list Hj%elem_of_map_to_list Heq. simpl in *.
    assert (i = j) as -> by (by apply (Hinj i j a b)). congruence.
Qed.

Lemma refers_rows {B} (view' : string → B → row) m (m' : gmap string B) ts t ref refcols cascade k' :
  ts t = rows view m → ts ref = rows view' m' →
  (∀ id b, key_of refcols (view' id b) = Some (k' id b)) →
  holds ts t (ForeignKey cols ref refcols cascade) ↔
  ∀ i a, m !! i = Some a → ∃ j b, m' !! j = Some b ∧ k i a = k' j b.
Proof.
  intros Hts Hts' Hk'. simpl. rewrite Hts. unfold rows. rewrite Forall_fmap, Forall_forall. split.
  - intros Hall i a Ha%elem_of_map_to_list. specialize (Hall _ Ha). unfold compose, refers in Hall.
    rewrite Hk, Hts' in Hall. unfold rows in Hall. rewrite <- list_fmap_compose in Hall.
    apply list_elem_of_fmap in Hall as ([j b] & Hkey & Hb%elem_of_map_to_list). unfold compose in Hkey.
    rewrite Hk' in Hkey. exists j, b. by injection Hkey.
  - intros Hall [i a] Ha%elem_of_map_to_list. unfold compose, refers. rewrite Hk, Hts'.
    destruct (Hall i a Ha) as (j & b & Hb & Heq). apply list_elem_of_fmap. exists (view' j b).
    rewrite Hk'. simpl. split; [by rewrite Heq|]. apply elem_of_rows. eauto.
Qed.
End rows.

(** ** The schema of the migrations *)

(** The first file creates the schema; the second, which runs after it, changes nothing:
    it is for databases of an earlier version. *)
Lemma migrations_run :
  migrate empty_schema migration_001 = Some aether_schema ∧ migrate aether_schema migration_002 = Some aether_schema.
Proof. by vm_compute. Qed.

Lemma typed_row {A} (view : string → A → row) (cols : list column) (m : gmap string A) :
  (∀ id a, forallb (cell_ok (view id a)) cols = true) →
  Forall (λ r, forallb (cell_ok r) cols = true) (rows view m).
Proof. intros Hok. apply Forall_fmap, Forall_true. intros [id a]. apply Hok. Qed.

Lemma typed_definition id d : forallb (cell_ok (definition_row id d)) definitions_columns = true.
Proof. done. Qed.
Lemma typed_instance id r : forallb (cell_ok (instance_row id r)) instances_columns = true.
Proof. destruct r as [[] [] []]; cbn; by destruct i_CurrentStepID. Qed.
Lemma typed_history id h : forallb (cell_ok (history_row id h)) history_columns = true.
Proof. destruct h as [????????? []]; cbn; by destruct h_Error. Qed.
Lemma typed_timer created id t : forallb (cell_ok (timer_row created id t)) timers_columns = true.
Proof. done. Qed.

Section schema.
Implicit Types (db : DB) (created : string → time).

Lemma unique_definitions created db cols k :
  (∀ id d, key_of cols (definition_row id d) = Some (k id d)) →
  holds (tables_of created db) "definitions" (Unique cols) ↔
  ∀ i j a b, db_definitions db !! i = Some a → db_definitions db !! j = Some b → k i a = k j b → i = j.
Proof. intros Hk. by apply (unique_rows definition_row). Qed.

Lemma references_instances {A} (view : string → A → row) (m : gmap string A) created db t casc (f : string → A → string) :
  (∀ id a, key_of ["instance_id"] (view id a) = Some [AUuid (f id a)]) →
  tables_of created db t = rows view m →
  holds (tables_of created db) t (fk_instance casc) ↔ ∀ i a, m !! i = Some a → is_Some (db_instances db !! f i a).
Proof.
  intros Hk Ht. unfold fk_instance.
  rewrite (refers_rows view ["instance_id"] (λ i a, [AUuid (f i a)]) Hk instance_row m (db_instances db) _ _ _ _ _
             (λ j _, [AUuid j])) by done.
  split; intros Hall i a Ha.
  - destruct (Hall i a Ha) as (j & b & Hb & [= ->]). eauto.
  - destruct (Hall i a Ha) as [b Hb]. eauto.
Qed.

Lemma references_definition created db :
  holds (tables_of created db) "instances" fk_tenant_definition ↔
  ∀ i r, db_instances db !! i = Some r → definition_fk (i_TenantID (row_inst r)) (i_DefinitionID (row_inst r)) db.
Proof.
  unfold fk_tenant_definition.
  rewrite (refers_rows instance_row ["tenant_id"; "definition_id"]
             (λ _ r, [AText (i_TenantID (row_inst r)); AUuid (i_DefinitionID (row_inst r))])
             (λ _ _, eq_refl) definition_row (db_instances db) (db_definitions db) _ _ _ _ _
             (λ j d, [AText (d_TenantID d); AUuid j])) by done.
  unfold definition_fk. split; intros Hall i r Hr.
  - destruct (Hall i r Hr) as (j & d & Hd & [= Ht ->]). eauto.
  - destruct (Hall i r Hr) as (d & Hd & Ht). exists (i_DefinitionID (row_inst r)), d. by rewrite Ht.
Qed.

Lemma satisfies_split ts :
  satisfies aether_schema ts ↔
  table_ok aether_schema ts "definitions" (Table definitions_columns []) ∧
  table_ok aether_schema ts "instances" (Table instances_columns []) ∧
  table_ok aether_schema ts "execution_history" (Table history_columns []) ∧
  table_ok aether_schema ts "timers" (Table timers_columns []).
Proof.
  unfold satisfies.
  change (sc_tables aether_schema) with
    [("definitions", Table definitions_columns [("definitions_pkey", Unique ["id"])]);
     ("instances", Table instances_columns
        [("instances_pkey", Unique ["id"]);
         ("instances_definition_id_fkey", ForeignKey ["definition_id"] "definitions" ["id"] false);
         ("fk_instances_tenant_definition", fk_tenant_definition)]);
     ("execution_history", Table history_columns
        [("execution_history_pkey", Unique ["id"]);
         ("execution_history_instance_id_fkey", fk_instance false); ("fk_instance", fk_instance false)]);
     ("timers", Table timers_columns
        [("timers_pkey", Unique ["instance_id"]); ("timers_instance_id_fkey", fk_instance true)])].
  rewrite !Forall_cons, Forall_nil. unfold table_ok. cbn [fst snd tb_columns]. tauto.
Qed.

Lemma primary_key created db t {A} (view : string → A → row) (m : gmap string A) c :
  (∀ id a, key_of [c] (view id a) = Some [AUuid id]) → tables_of created db t = rows view m →
  holds (tables_of created db) t (Unique [c]).
Proof.
  intros Hk Ht. apply (unique_rows view [c] (λ id _, [AUuid id]) Hk _ _ m Ht). by intros i j a b _ _ [= ->].
Qed.

(** What the schema says of the maps. *)
Lemma satisfies_iff created db : satisfies aether_schema (tables_of created db) ↔ schema_ok db.
Proof.
  rewrite satisfies_split. unfold table_ok. cbn [tb_columns].
  change (constraints aether_schema "definitions") with
    [Unique ["id"]; Unique ["tenant_id"; "name"; "version"]; Unique ["tenant_id"; "id"]].
  change (constraints aether_schema "instances") with
    [Unique ["id"]; ForeignKey ["definition_id"] "definitions" ["id"] false; fk_tenant_definition].
  change (constraints aether_schema "execution_history") with [Unique ["id"]; fk_instance false; fk_instance false].
  change (constraints aether_schema "timers") with [Unique ["instance_id"]; fk_instance true].
  rewrite !Forall_cons, !Forall_nil.
  rewrite (unique_definitions _ _ ["tenant_id"; "name"; "version"]
             (λ _ d, [AText (d_TenantID d); AText (d_Name d); AInt (d_Version d)])) by done.
  rewrite references_definition.
  rewrite (references_instances history_row (db_history db) _ _ "execution_history" _ (λ _ h, h_InstanceID h)) by done.
  rewrite (references_instances (timer_row created) (db_timers db) _ _ "timers" _ (λ id _, id)) by done.
  split.
  - intros ((_ & _ & Hn & _) & (_ & _ & _ & Hi & _) & (_ & _ & Hh & _) & (_ & _ & Ht & _)). split; [|done..].
    intros i j d d' Hd Hd' E1 E2 E3. apply (Hn i j d d' Hd Hd'). congruence.
  - intros [Hn Hi Hh Ht]. split_and!; try done.
    + apply typed_row, typed_definition.
    + by apply (primary_key _ _ _ definition_row (db_definitions db)).
    + intros i j d d' Hd Hd' [= E1 E2 E3]. by apply (Hn i j d d').
    + apply (unique_definitions _ _ ["tenant_id"; "id"] (λ i d, [AText (d_TenantID d); AUuid i])); [done|].
      by intros i j d d' _ _ [= _ ->].
    + apply typed_row, typed_instance.
    + by apply (primary_key _ _ _ instance_row (db_instances db)).
    + apply (refers_rows instance_row ["definition_id"] (λ _ r, [AUuid (i_DefinitionID (row_inst r))])
               (λ _ _, eq_refl) definition_row (db_instances db) (db_definitions db) _ _ _ _ _ (λ j _, [AUuid j])); [done..|].
      intros i r Hr. destruct (Hi i r Hr) as (d & Hd & _). eauto.
    + apply typed_row, typed_history.
    + by apply (primary_key _ _ _ history_row (db_history db)).
    + apply typed_row, typed_timer.
    + by apply (primary_key _ _ _ (timer_row created) (db_timers db)).
Qed.
End schema.
