(* ===== verification/StoreProps.v ===== *)
(** * What the store guarantees

    Optimistic locking, leases, durable timers, tenant isolation, the round trip of
    the state and the execution history, over arbitrary sequences of calls. *)

From stdpp Require Import sorting.
From S2P Require Import Prelude GoNum GoTime Workflow Accessors MachineFacts Json Store Effects PostgresLaws StoreFacts.

#[local] Open Scope Z_scope.

(** ** A database for the examples *)
Definition order_dsl : DefinitionDSL :=
  mkDSL "order" 1 [mkStep "reserve" StepTransform (obj_map [("expr", VStr "1")]) None "";
                   mkStep "ship" StepTransform (obj_map [("expr", VStr "2")]) None ""].
Definition order_definition : Definition_ := mkDefinition "d1" "acme" "order" 1 order_dsl 10 10.
Definition order_instance : Instance_ :=
  mkInstance "i1" "acme" "d1" 1 InstanceRunning (Some ∅) (Some "reserve") (with_StartedAt NewRuntimeState 5) 3 10 20.
Definition order_db : DB :=
  mkDB {["d1" := order_definition]} {["i1" := mkRow order_instance None None]} ∅
    {["i1" := mkTimer "i1" "reserve" 4000]}.
Definition tick_at (now : time) : tick := mkTick now now "u1" [] [] [].

Section props.
Context `{PgClock}.
Implicit Types (db : DB) (id owner : string).

(** C20: optimistic locking: once an update of an instance with some expected version has
    succeeded, no update of that instance with the same or an older expected version
    succeeds, whatever calls were made in between; it fails with [ErrOptimisticLock]
    and changes nothing. *)
Theorem optimistic_lock_exclusive inst v k db r evs inst' v' k' :
  (repo_exec (OpUpdateInstance inst v) k db).1 = Ok r →
  i_ID inst' = i_ID inst → v' ≤ v → state_json_ok (i_State inst') = true →
  let db' := after evs (repo_exec (OpUpdateInstance inst v) k db).2 in
  ∃ e, repo_exec (OpUpdateInstance inst' v') k' db' = (Err e, db') ∧ err_is e ErrOptimisticLock = true.
Proof.
  intros Hok Hid Hle Hjson db'.
  destruct (version_at_least_after _ _ evs _ (update_ok_version _ _ _ _ _ Hok)) as (row & Hrow & Hv).
  fold db' in Hrow. simpl in Hrow |- *. unfold UpdateInstance. rewrite Hjson, Hid. simpl negb.
  destruct (db_instances db' !! i_ID inst) as [ir|]; [|discriminate].
  injection Hrow as <-. simpl in Hv. rewrite decide_False by lia. by eexists.
Qed.

(** C21: the lease is exclusive: after a successful claim, no other owner's claim of the
    instance succeeds before the lease expires, as long as the holder neither releases
    nor claims it again; the other claim reports [ErrInstanceBusy] and changes nothing. *)
Theorem lease_exclusive now id owner until db inst evs now' owner' until' :
  (ClaimInstance now id owner until db).1 = Ok inst →
  Forall (respects id owner (pg_time until)) evs →
  owner' ≠ owner → now' < pg_time until →
  let db' := after evs (ClaimInstance now id owner until db).2 in
  ClaimInstance now' id owner' until' db' =
    (Err (ErrWrap "claim instance" (ErrSentinel ErrInstanceBusy)), db').
Proof.
  intros Hok%claim_ok_leased Hevs Hne Hnow db'.
  eapply claim_leased_busy; [|exact Hnow|exact Hne]. by apply leased_after.
Qed.

(** Everything up to a row of a sorted table is not greater than it. *)
Lemma order_by_position {A} (key : A → time) o (t : gmap string A) i id a :
  order_by key o t !! i = Some (id, a) → (i < size (filter (λ kv, (key kv.2 ≤ key a)%Z) t))%nat.
Proof.
  intros Hi. set (rows := order_by key o t) in *.
  assert (Hsub : list_to_set (take (S i) rows.*1) ⊆ dom (filter (λ kv, (key kv.2 ≤ key a)%Z) t)).
  { intros k (j & Hj & Hlt)%elem_of_list_to_set%elem_of_take. rewrite list_lookup_fmap in Hj.
    destruct (rows !! j) as [[k' b]|] eqn:Hb; [|done]. injection Hj as <-.
    apply elem_of_dom. exists b. apply map_lookup_filter_Some. split; [by apply (elem_of_order_by key o), list_elem_of_lookup_2 with j|].
    simpl. apply (sorted_lookup_le (key ∘ snd <$> rows) j i); [apply order_by_sorted|lia|..];
      by rewrite list_lookup_fmap, ?Hb, ?Hi. }
  apply subseteq_size in Hsub. rewrite size_dom in Hsub. eapply Nat.lt_le_trans; [|exact Hsub].
  rewrite size_list_to_set by (eapply sublist_NoDup; [apply (order_by_NoDup key o t)|apply sublist_take]).
  rewrite length_take, length_fmap. apply lookup_lt_Some in Hi. fold rows in Hi. lia.
Qed.

(** C22: an instance whose worker died is taken over: once the lease has expired and while
    its status is not final, any worker's claim succeeds and returns its durable state; and
    [ListRecoverableInstances] lists it, as long as no more than the limit of recoverable
    instances, itself included, were updated up to the time of its own last update. *)
Theorem expired_lease_recovered id owner until db now limit o owner' until' row :
  leased id owner until db → until ≤ now →
  db_instances db !! id = Some row → i_Status (row_inst row) ∈ recoverable_statuses →
  (ClaimInstance now id owner' until' db).1 = Ok (scan_instance id row) ∧
  ((size (filter (λ kv, (recoverable now kv.2 ∧ i_UpdatedAt (row_inst kv.2) ≤ i_UpdatedAt (row_inst row))%Z)
      (db_instances db)) ≤ limit_or 100 limit)%nat →
   scan_instance id row ∈ ListRecoverableInstances now o limit db).
Proof.
  intros (row' & Hrow' & Hby & Huntil) Hexp Hrow Hst.
  assert (row' = row) as -> by congruence. split.
  - apply ClaimInstance_spec. exists row. split_and!; [done| |done]. unfold claimable.
    split_and!; [..|unfold lease_free; rewrite Huntil; by left];
      intros Heq; rewrite Heq in Hst; unfold recoverable_statuses in Hst; set_solver.
  - intros Hsize. unfold ListRecoverableInstances. set (t := filter _ _). set (key := λ row, i_UpdatedAt (row_inst row)).
    assert (Hin : (id, row) ∈ order_by key o t).
    { apply elem_of_order_by, map_lookup_filter_Some. split; [done|]. split; [done|].
      unfold lease_free. simpl. rewrite Huntil. by left. }
    apply list_elem_of_lookup in Hin as [i Hi]. apply list_elem_of_fmap. exists (id, row). split; [done|].
    apply elem_of_take. exists i. split; [done|]. apply order_by_position in Hi. unfold t in Hi.
    rewrite map_filter_filter in Hi. eapply Nat.lt_le_trans; [exact Hi|]. etrans; [|exact Hsize].
    apply Nat.eq_le_incl. f_equal. apply map_filter_ext. intros k x _. unfold key. simpl. naive_solver.
Qed.

(** Recovery may starve: an instance is listed only when fewer than [limit] recoverable
    instances were updated before it, and waiting for a timer, being claimed and being
    released are no updates; so while enough older instances wait for their timers, an
    instance that lost its task is not recovered. *)
Lemma recovery_starves now o limit db inst (older : gset string) :
  inst ∈ ListRecoverableInstances now o limit db →
  (∀ id, id ∈ older → ∃ row, db_instances db !! id = Some row ∧ recoverable now row ∧
     i_UpdatedAt (row_inst row) < i_UpdatedAt inst) →
  (size older < limit_or 100 limit)%nat.
Proof.
  unfold ListRecoverableInstances. set (t := filter _ _). set (rows := order_by _ o t).
  intros ([k row] & -> & (j & [Hj Hlt]%lookup_take_Some)%list_elem_of_lookup)%list_elem_of_fmap Hold.
  apply Nat.le_lt_trans with j; [|done].
  assert (Hsub : older ⊆ list_to_set (take j rows.*1)).
  { intros id Hid. destruct (Hold id Hid) as (row' & Hrow' & Hrec & Hup). apply elem_of_list_to_set.
    assert (Hin : (id, row') ∈ rows) by by apply elem_of_order_by, map_lookup_filter_Some.
    apply list_elem_of_lookup in Hin as [i Hi]. apply elem_of_take. exists i. rewrite list_lookup_fmap, Hi. split; [done|].
    destruct (decide (i < j)%nat) as [|Hge]; [done|]. exfalso.
    pose proof (order_by_sorted (λ row, i_UpdatedAt (row_inst row)) o t) as Hs. fold rows in Hs.
    assert (i_UpdatedAt (row_inst row) ≤ i_UpdatedAt (row_inst row')); [|simpl in Hup; lia].
    apply (sorted_lookup_le _ j i (i_UpdatedAt (row_inst row)) (i_UpdatedAt (row_inst row')) Hs);
      [lia|by rewrite list_lookup_fmap, Hj|by rewrite list_lookup_fmap, Hi]. }
  apply subseteq_size in Hsub. etrans; [exact Hsub|]. rewrite size_list_to_set; [rewrite length_take; lia|].
  eapply sublist_NoDup; [apply (order_by_NoDup (λ row, i_UpdatedAt (row_inst row)) o t)|apply sublist_take].
Qed.

(** Recovery lists only unfinished, unleased instances, oldest update first, at most
    [limit] of them. *)
Theorem recoverable_listing now o limit db :
  let l := ListRecoverableInstances now o limit db in
  (length l ≤ limit_or 100 limit)%nat ∧ StronglySorted Z.le (i_UpdatedAt <$> l) ∧ NoDup (i_ID <$> l) ∧
  ∀ inst, inst ∈ l → ∃ row, db_instances db !! i_ID inst = Some row ∧
    inst = scan_instance (i_ID inst) row ∧ ¬ terminal (i_Status inst) ∧ lease_free now None row.
Proof.
  unfold ListRecoverableInstances. set (t := filter _ _). set (rows := order_by _ o t).
  cbn zeta. split_and!.
  - rewrite length_fmap, length_take. lia.
  - rewrite <- list_fmap_compose, fmap_take.
    pose proof (order_by_sorted (λ row, i_UpdatedAt (row_inst row)) o t) as Hs.
    rewrite (list_fmap_ext _ ((λ row, i_UpdatedAt (row_inst row)) ∘ snd)) by (by intros ? []).
    fold rows in Hs. revert Hs. generalize (((λ row, i_UpdatedAt (row_inst row)) ∘ snd) <$> rows).
    intros l Hs. revert Hs. rewrite <- (take_drop (limit_or 100 limit) l) at 1.
    apply StronglySorted_app_1_l.
  - rewrite <- list_fmap_compose, fmap_take. rewrite (list_fmap_ext _ fst) by (by intros ? []).
    eapply sublist_NoDup; [|apply sublist_take].
    apply (order_by_NoDup (λ row, i_UpdatedAt (row_inst row))).
  - intros inst ([id row] & -> & (i & Hi & _)%elem_of_take)%list_elem_of_fmap.
    apply list_elem_of_lookup_2, elem_of_order_by, map_lookup_filter_Some in Hi as [Hrow [Hst Hfree]].
    simpl in *. exists row. split_and!; try done. unfold terminal.
    intros [Heq|Heq]; rewrite Heq in Hst; unfold recoverable_statuses in Hst; set_solver.
Qed.

(** C25: a claimed timer is delivered once: the poll returns only due timers that no
    concurrent poll holds and removes them, and no later poll or fire returns that
    timer again unless it has been scheduled anew. *)
Theorem timer_claimed_once now o o' locked limit db t evs now1 o1 o1' locked1 limit1 :
  t ∈ (ClaimDueTimers now o o' locked limit db).1 →
  Forall (no_upsert (t_InstanceID t)) evs →
  let db' := after evs (ClaimDueTimers now o o' locked limit db).2 in
  t_FireAt t ≤ now ∧ t_InstanceID t ∉ locked ∧
  (FireTimer (t_InstanceID t) db').1 = None ∧
  ∀ t', t' ∈ (ClaimDueTimers now1 o1 o1' locked1 limit1 db').1 → t_InstanceID t' ≠ t_InstanceID t.
Proof.
  intros Ht Hevs db'. destruct (elem_of_ClaimDueTimers _ _ _ _ _ _ _ Ht) as (Hgone & Hl & Hdue & _).
  assert (Habs : db_timers db' !! t_InstanceID t = None) by by apply timer_absent_after.
  split_and!; [pose proof (pg_time_le now); lia|done| |].
  - unfold FireTimer. simpl. by rewrite Habs.
  - intros t' (_ & _ & _ & t0 & Ht0 & _)%elem_of_ClaimDueTimers Heq. congruence.
Qed.

(** A poll misses nothing: when no row is locked by another poll and at most [limit]
    timers are due, it returns exactly the due timers and leaves exactly the others. *)
Theorem poll_claims_all_due now o o' limit db :
  (size (filter (λ kv, t_FireAt kv.2 ≤ pg_time now)%Z (db_timers db)) ≤ limit_or 100 limit)%nat →
  let r := ClaimDueTimers now o o' [] limit db in
  (∀ t, t ∈ r.1 ↔ ∃ t0, db_timers db !! t_InstanceID t = Some t0 ∧
     t = scan_timer (t_InstanceID t) t0 ∧ t_FireAt t ≤ pg_time now) ∧
  db_timers r.2 = filter (λ kv, ¬ (t_FireAt kv.2 ≤ pg_time now)%Z) (db_timers db).
Proof.
  intros Hsize r.
  assert (Hiff : ∀ t, t ∈ r.1 ↔ ∃ t0, db_timers db !! t_InstanceID t = Some t0 ∧
     t = scan_timer (t_InstanceID t) t0 ∧ t_FireAt t ≤ pg_time now).
  { intros t. split.
    - intros (_ & _ & Hdue & t0 & Ht0 & Heq)%elem_of_ClaimDueTimers. eauto.
    - intros (t0 & Ht0 & Heq & Hdue). unfold r, ClaimDueTimers. cbn zeta. simpl fst.
      apply list_elem_of_fmap. exists (t_InstanceID t, t). split; [done|].
      apply elem_of_range_order, lookup_claimed; [apply due_timers_NoDup|]. split; [|done].
      rewrite Heq. assert (Hd : t_FireAt t0 ≤ pg_time now) by (by rewrite Heq in Hdue).
      rewrite map_filter_id by (intros; set_solver).
      by apply due_timers_complete. }
  split; [done|]. apply map_eq. intros id. apply option_eq. intros t0.
  rewrite map_lookup_filter_Some. simpl. split.
  - intros Ht0. destruct (decide (t_FireAt t0 ≤ pg_time now)) as [Hdue|Hdue].
    + exfalso. assert (Hin : db_timers db !! id = Some t0).
      { revert Ht0. unfold r, ClaimDueTimers. simpl. by intros [? _]%lookup_difference_Some. }
      assert (Hr : scan_timer id t0 ∈ r.1) by (apply Hiff; eauto).
      apply elem_of_ClaimDueTimers in Hr as [Hgone _]. simpl in Hgone. fold r in Hgone. congruence.
    + split; [|done]. revert Ht0. unfold r, ClaimDueTimers. simpl. by intros [? _]%lookup_difference_Some.
  - intros [Ht0 Hdue]. trans (db_timers db !! id); [|done]. apply (ClaimDueTimers_other now o o').
    intros t Hin <-. apply Hiff in Hin as (t1 & Ht1 & Heq & Hd).
    rewrite Heq in Hd. assert (t1 = t0) as -> by congruence. by apply Hdue.
Qed.

(** A tenant reads only its own rows: definitions, instances and history returned for
    a tenant belong to it, and another tenant's identifier looks like a missing one. *)
Theorem tenant_isolation tenant id o db :
  (∀ d, GetDefinitionForTenant tenant id db = Ok d →
     d_TenantID d = tenant_or_default tenant ∧ GetDefinition id db = Ok d) ∧
  (∀ inst, GetInstanceForTenant tenant id db = Ok inst →
     i_TenantID inst = tenant_or_default tenant ∧ GetInstance id db = Ok inst) ∧
  (∀ row, db_instances db !! id = Some row → i_TenantID (row_inst row) ≠ tenant_or_default tenant →
     ListHistoryForTenant o tenant id db = [] ∧
     GetInstanceForTenant tenant id db = GetInstanceForTenant tenant id (set_instances db (delete id (db_instances db)))) ∧
  (∀ h, h ∈ ListHistoryForTenant o tenant id db →
     h_InstanceID h = id ∧ ∃ inst, GetInstanceForTenant tenant id db = Ok inst).
Proof.
  unfold GetDefinitionForTenant, GetDefinition, GetInstanceForTenant, GetInstance, ListHistoryForTenant.
  split_and!.
  - intros d. destruct (db_definitions db !! id) as [d0|]; [|discriminate].
    case_decide; [|discriminate]. by intros [= <-].
  - intros inst. destruct (db_instances db !! id) as [row|]; [|discriminate].
    case_decide; [|discriminate]. by intros [= <-].
  - intros row -> Hne. rewrite !decide_False by done. simpl. by rewrite lookup_delete_eq.
  - intros h. destruct (db_instances db !! id) as [row|]; [|by intros ?%elem_of_nil].
    case_decide; [|by intros ?%elem_of_nil].
    intros ([k h0] & -> & Hin)%list_elem_of_fmap. apply elem_of_order_by, map_lookup_filter_Some in Hin.
    simpl in Hin |- *. split; [tauto|by eexists].
Qed.

(** C33: a saved state is read back as itself up to its JSON form, which saving again does
    not change: after a successful update every reader gets the written status, step and
    [Normalize (reload state)], and writing that state back stores the same state. *)
Theorem state_round_trip now inst v db r db2 :
  UpdateInstance now inst v db = (Ok r, db2) →
  ∃ got, GetInstance (i_ID inst) db2 = Ok got ∧
    i_Status got = i_Status inst ∧ i_CurrentStepID got = i_CurrentStepID inst ∧
    i_Version got = v + 1 ∧ i_State got = Normalize (reload (i_State inst)) ∧
    ∀ now' r2 db3, UpdateInstance now' got (v + 1) db2 = (Ok r2, db3) →
      ∃ got2, GetInstance (i_ID inst) db3 = Ok got2 ∧ i_State got2 = i_State got.
Proof.
  intros Hup.
  assert (Hread : ∀ now inst v db r db', UpdateInstance now inst v db = (Ok r, db') →
    ∃ row, GetInstance (i_ID inst) db' = Ok (updated_row (scan_instance (i_ID inst) row) inst now) ∧
           i_Version (row_inst row) = v).
  { clear. intros now inst v db r db' Hup.
    destruct (UpdateInstance_spec now inst v db) as [(row & Hrow & Hv & _ & _ & Hview & _)|[e He]];
      [|congruence].
    exists row. split; [|done]. specialize (Hview (i_ID inst)). rewrite Hup in Hview.
    rewrite decide_True in Hview by done. simpl in Hview. unfold GetInstance.
    destruct (db_instances db' !! i_ID inst); [|done]. simpl fmap in Hview.
    apply (inj Some) in Hview. by rewrite Hview. }
  destruct (Hread _ _ _ _ _ _ Hup) as (row & Hgot & Hv). eexists. split; [exact Hgot|].
  simpl. split_and!; [done..|by rewrite Hv|done|].
  intros now' r2 db3 Hup2. destruct (Hread _ _ _ _ _ _ Hup2) as (row2 & Hgot2 & _).
  eexists. split; [exact Hgot2|]. simpl. by rewrite reload_Normalize, reload_idemp, Normalize_idemp.
Qed.

(** The execution log is durable: an appended and completed history entry is listed
    for its instance with its final status, output (in JSON form), error and attempt,
    and the listing is in the order of the start times. *)
Theorem history_recorded now now' new_id h db h' status output err o :
  (AppendHistory now new_id h db).1 = Ok h' →
  (CompleteHistory now' (h_ID h') status output err (AppendHistory now new_id h db).2).1 = Ok () →
  let db2 := (CompleteHistory now' (h_ID h') status output err (AppendHistory now new_id h db).2).2 in
  StronglySorted Z.le (h_StartedAt <$> ListHistory o (h_InstanceID h) db2) ∧
  ∃ e, e ∈ ListHistory o (h_InstanceID h) db2 ∧ h_ID e = h_ID h' ∧ h_StepID e = h_StepID h ∧
    h_Status e = status ∧ h_Attempt e = h_Attempt h ∧ h_Error e = err ∧
    h_Output e = reload_obj output ∧ h_CompletedAt e = Some now'.
Proof.
  intros Happ Hcomp db2. split.
  { unfold ListHistory. rewrite <- list_fmap_compose.
    rewrite (list_fmap_ext _ (h_StartedAt ∘ snd)) by (by intros ? []). apply order_by_sorted. }
  revert Happ Hcomp db2. unfold AppendHistory.
  destruct (negb (json_ok (VObj (h_Input h)))); [discriminate|].
  destruct (negb (json_ok (VObj (h_Output h)))); [discriminate|].
  destruct (decide (is_Some (db_history db !! new_id) ∨ db_instances db !! h_InstanceID h = None)); [discriminate|].
  cbn zeta. simpl fst. simpl snd. intros [= <-]. simpl h_ID. unfold CompleteHistory.
  destruct (negb (json_ok (VObj output))); [discriminate|].
  unfold set_history. simpl db_history. rewrite lookup_insert_eq. simpl snd. intros _.
  unfold ListHistory. eexists. split.
  { apply list_elem_of_fmap. eexists (new_id, _). split; [reflexivity|].
    apply elem_of_order_by, map_lookup_filter_Some. split; [apply lookup_insert_eq|done]. }
  done.
Qed.
End props.

(** ** Witnesses *)

(** Another worker claims the instance between the two updates. *)
Definition claim_event (now : time) (owner : string) (until : time) : event :=
  mkEvent _ (OpClaimInstance "i1" owner until) (tick_at now) NoFault.
Definition db_saved : DB := (repo_exec (OpUpdateInstance order_instance 3) (tick_at 100) order_db).2.
Definition db_claimed : DB := (ClaimInstance 100 "i1" "w1" 9000 order_db).2.

Lemma optimistic_lock_exclusive_witness :
  let db' := after [claim_event 200 "w2" 9000] db_saved in
  ∃ e, repo_exec (OpUpdateInstance order_instance 3) (tick_at 300) db' = (Err e, db') ∧
       err_is e ErrOptimisticLock = true.
Proof.
  apply (optimistic_lock_exclusive order_instance 3 (tick_at 100) order_db (with_version order_instance 4)
           [claim_event 200 "w2" 9000] order_instance 3 (tick_at 300)).
  - vm_compute. reflexivity.
  - reflexivity.
  - lia.
  - vm_compute. reflexivity.
Defined.

Lemma lease_exclusive_witness :
  let db' := after [claim_event 200 "w2" 20000] db_claimed in
  ClaimInstance 300 "i1" "w3" 20000 db' =
    (Err (ErrWrap "claim instance" (ErrSentinel ErrInstanceBusy)), db').
Proof.
  apply (lease_exclusive 100 "i1" "w1" 9000 order_db order_instance [claim_event 200 "w2" 20000] 300 "w3" 20000).
  - vm_compute. reflexivity.
  - constructor; [|constructor]. split; [vm_compute; reflexivity|]. intros [_ He]. discriminate He.
  - discriminate.
  - vm_compute. reflexivity.
Defined.

(** The limit is one, and another instance was updated later. *)
Definition db_two : DB :=
  set_instances db_claimed (<["i9" := mkRow (mkInstance "i9" "acme" "d1" 1 InstanceRunning None None NewRuntimeState 1 70 9000)
    None None]> (db_instances db_claimed)).

Lemma expired_lease_recovered_witness :
  (ClaimInstance 10000 "i1" "w2" 20000 db_two).1 =
    Ok (scan_instance "i1" (mkRow order_instance (Some "w1") (Some 9000))) ∧
  scan_instance "i1" (mkRow order_instance (Some "w1") (Some 9000)) ∈ ListRecoverableInstances 10000 [] 1 db_two.
Proof.
  destruct (expired_lease_recovered "i1" "w1" 9000 db_two 10000 1 [] "w2" 20000
    (mkRow order_instance (Some "w1") (Some 9000))) as [Hclaim Hlist].
  - eexists. split; [vm_compute; reflexivity|]. split; reflexivity.
  - lia.
  - vm_compute. reflexivity.
  - unfold recoverable_statuses. simpl. apply list_elem_of_further, list_elem_of_here.
  - split; [exact Hclaim|]. apply Hlist. apply Nat.leb_le. vm_compute. reflexivity.
Defined.

Definition due_db : DB := (ClaimDueTimers 5000 [] [] [] 10 order_db).2.
Lemma timer_claimed_once_witness :
  let t := mkTimer "i1" "reserve" 4000 in
  let db' := after [claim_event 200 "w2" 20000] due_db in
  t_FireAt t ≤ 5000 ∧ t_InstanceID t ∉ [] ∧ (FireTimer (t_InstanceID t) db').1 = None ∧
  ∀ t', t' ∈ (ClaimDueTimers 6000 [] [] [] 10 db').1 → t_InstanceID t' ≠ t_InstanceID t.
Proof.
  apply (timer_claimed_once 5000 [] [] [] 10 order_db (mkTimer "i1" "reserve" 4000)
           [claim_event 200 "w2" 20000] 6000 [] [] [] 10).
  - assert ((ClaimDueTimers 5000 [] [] [] 10 order_db).1 = [mkTimer "i1" "reserve" 4000]) as ->
      by (vm_compute; reflexivity). apply list_elem_of_here.
  - constructor; [exact I|constructor].
Defined.

Lemma poll_claims_all_due_witness :
  let r := ClaimDueTimers 5000 [] [] [] 10 order_db in
  (∀ t, t ∈ r.1 ↔ ∃ t0, db_timers order_db !! t_InstanceID t = Some t0 ∧
     t = scan_timer (t_InstanceID t) t0 ∧ t_FireAt t ≤ pg_time 5000) ∧
  db_timers r.2 = filter (λ kv, ¬ (t_FireAt kv.2 ≤ pg_time 5000)%Z) (db_timers order_db).
Proof.
  apply (poll_claims_all_due 5000 [] [] 10 order_db). apply Nat.leb_le. vm_compute. reflexivity.
Defined.

Lemma state_round_trip_witness :
  ∃ got, GetInstance "i1" db_saved = Ok got ∧
    i_Status got = InstanceRunning ∧ i_CurrentStepID got = Some "reserve" ∧
    i_Version got = 4 ∧ i_State got = Normalize (reload (i_State order_instance)) ∧
    ∀ now' r2 db3, UpdateInstance now' got 4 db_saved = (Ok r2, db3) →
      ∃ got2, GetInstance "i1" db3 = Ok got2 ∧ i_State got2 = i_State got.
Proof.
  apply (state_round_trip 100 order_instance 3 order_db (with_version order_instance 4) db_saved).
  vm_compute. reflexivity.
Defined.

Definition started_entry : History :=
  mkHistory "" "i1" "reserve" StepRunning (obj_map []) None None 1 150 None.
Lemma history_recorded_witness :
  let db2 := (CompleteHistory 300 "h1" "success" (obj_map [("result", VInt 1)]) None
                (AppendHistory 200 "h1" started_entry order_db).2).2 in
  StronglySorted Z.le (h_StartedAt <$> ListHistory [] "i1" db2) ∧
  ∃ e, e ∈ ListHistory [] "i1" db2 ∧ h_ID e = "h1" ∧ h_StepID e = "reserve" ∧
    h_Status e = "success" ∧ h_Attempt e = 1 ∧ h_Error e = None ∧
    h_Output e = reload_obj (obj_map [("result", VInt 1)]) ∧ h_CompletedAt e = Some 300.
Proof.
  apply (history_recorded 200 300 "h1" started_entry order_db
    (mkHistory "h1" "i1" "reserve" StepRunning (obj_map []) None None 1 150 None) "success"
    (obj_map [("result", VInt 1)]) None []).
  - vm_compute. reflexivity.
  - vm_compute. reflexivity.
Defined.
