(* ===== verification/Security.v ===== *)
(** * internal/security/http.go: which HTTP destinations are allowed

    The check of a URL before a request: scheme, userinfo, host, and for a host name
    every address it resolves to.  [ParseIP] is Go's [net.ParseIP] (IPv4 in dotted
    decimal, IPv6 with the ellipsis and an embedded IPv4, no zone); the predicates on
    addresses are those of [net.IP].  An address is its list of bytes, 4 or 16. *)

From Stdlib Require Import Ascii.
From S2P Require Import Prelude GoString GoTime Workflow Externals Effects.

#[local] Open Scope Z_scope.

(** ** net.ParseIP *)

Fixpoint parse_octet (val : Z) (digits : nat) (s : string) : option Z :=
  match s with
  | EmptyString => if decide (digits = O) then None else Some val
  | String c s =>
      if is_digit c then
        if decide (digits = 1%nat ∧ val = 0) then None
        else
          let val := val * 10 + Z.of_nat (nat_of_ascii c - 48) in
          if decide (255 < val) then None else parse_octet val (S digits) s
      else None
  end.

Definition parse_ipv4 (s : string) : option (list Z) :=
  match split_byte "." s with
  | [a; b; c; d] =>
      a ← parse_octet 0 0 a; b ← parse_octet 0 0 b; c ← parse_octet 0 0 c; d ← parse_octet 0 0 d;
      Some [a; b; c; d]
  | _ => None
  end.

Definition hex_value (c : ascii) : option Z :=
  if is_digit c then Some (Z.of_nat (nat_of_ascii c - 48))
  else if byte_in 97 102 c then Some (Z.of_nat (nat_of_ascii c - 87))
  else if byte_in 65 70 c then Some (Z.of_nat (nat_of_ascii c - 55))
  else None.

(** The digits of a group and what follows; [None] when there are more than four. *)
Fixpoint parse_group (acc : Z) (digits : nat) (s : string) : option (Z * nat * string) :=
  match s with
  | String c rest =>
      match hex_value c with
      | Some v => if decide (3 < digits)%nat then None
                  else parse_group (Z.lor (Z.shiftl acc 4) v) (S digits) rest
      | None => Some (acc, digits, s)
      end
  | EmptyString => Some (acc, digits, s)
  end.

(** The loop of [parseIPv6]: [ip] are the bytes so far, [ellipsis] the position of
    the [::].  Each iteration adds two bytes, so eight are enough. *)
Fixpoint parse_groups (fuel : nat) (s : string) (ip : list Z) (ellipsis : option nat)
    : option (string * list Z * option nat) :=
  match fuel with
  | O => Some (s, ip, ellipsis)
  | S fuel =>
      match parse_group 0 0 s with
      | None | Some (_, O, _) => None
      | Some (acc, _, String "." _) =>
          if decide (ellipsis = None ∧ length ip ≠ 12%nat) then None
          else if decide (16 < length ip + 4)%nat then None
          else v4 ← parse_ipv4 s; Some (EmptyString, ip ++ v4, ellipsis)
      | Some (acc, _, rest) =>
          let ip := ip ++ [Z.shiftr acc 8; Z.land acc 255] in
          match rest with
          | EmptyString => Some (EmptyString, ip, ellipsis)
          | String ":" EmptyString => None
          | String ":" (String ":" s) =>
              match ellipsis with
              | Some _ => None
              | None => if decide (s = EmptyString) then Some (s, ip, Some (length ip))
                        else parse_groups fuel s ip (Some (length ip))
              end
          | String ":" s => parse_groups fuel s ip ellipsis
          | _ => None
          end
      end
  end.

Definition expand_ellipsis (ip : list Z) (ellipsis : option nat) : option (list Z) :=
  if decide (length ip < 16)%nat then
    e ← ellipsis; Some (take e ip ++ replicate (16 - length ip) 0 ++ drop e ip)
  else match ellipsis with Some _ => None | None => Some ip end.

Definition parse_ipv6 (s : string) : option (list Z) :=
  '(rest, ip, ellipsis) ←
    match s with
    | String ":" (String ":" EmptyString) => Some (EmptyString, [], Some 0%nat)
    | String ":" (String ":" s) => parse_groups 8 s [] (Some 0%nat)
    | s => parse_groups 8 s [] None
    end;
  if decide (rest = EmptyString) then expand_ellipsis ip ellipsis else None.

(** The first of ['.'], [':'], ['%'] decides; an address with a zone is refused. *)
Fixpoint parse_addr (whole s : string) : option (list Z) :=
  match s with
  | EmptyString => None
  | String "." _ => v4 ← parse_ipv4 whole; Some (replicate 10 0 ++ [255; 255] ++ v4)
  | String ":" _ => match cut_byte "%" whole with Some _ => None | None => parse_ipv6 whole end
  | String "%" _ => None
  | String _ s => parse_addr whole s
  end.
Definition ParseIP (s : string) : option (list Z) := parse_addr s s.

(** ** net.IP *)

Definition byte_at (ip : list Z) (i : nat) : Z := nth i ip 0.

Definition To4 (ip : list Z) : option (list Z) :=
  if decide (length ip = 4%nat) then Some ip
  else if decide (length ip = 16%nat ∧ take 10 ip = replicate 10 0 ∧
                  byte_at ip 10 = 255 ∧ byte_at ip 11 = 255)
  then Some (drop 12 ip) else None.

Definition is_ipv6 (ip : list Z) : bool := bool_decide (length ip = 16%nat).
Definition ipv6_loopback : list Z := replicate 15 0 ++ [1].
Definition ipv6_unspecified : list Z := replicate 16 0.

Definition IsLoopback (ip : list Z) : bool :=
  match To4 ip with
  | Some ip4 => bool_decide (byte_at ip4 0 = 127)
  | None => bool_decide (ip = ipv6_loopback)
  end.
Definition IsPrivate (ip : list Z) : bool :=
  match To4 ip with
  | Some ip4 =>
      bool_decide (byte_at ip4 0 = 10) ||
      (bool_decide (byte_at ip4 0 = 172) && bool_decide (Z.land (byte_at ip4 1) 240 = 16)) ||
      (bool_decide (byte_at ip4 0 = 192) && bool_decide (byte_at ip4 1 = 168))
  | None => is_ipv6 ip && bool_decide (Z.land (byte_at ip 0) 254 = 252)
  end.
Definition IsLinkLocalUnicast (ip : list Z) : bool :=
  match To4 ip with
  | Some ip4 => bool_decide (byte_at ip4 0 = 169) && bool_decide (byte_at ip4 1 = 254)
  | None => is_ipv6 ip && bool_decide (byte_at ip 0 = 254) && bool_decide (Z.land (byte_at ip 1) 192 = 128)
  end.
Definition IsLinkLocalMulticast (ip : list Z) : bool :=
  match To4 ip with
  | Some ip4 => bool_decide (byte_at ip4 0 = 224) && bool_decide (byte_at ip4 1 = 0) &&
                bool_decide (byte_at ip4 2 = 0)
  | None => is_ipv6 ip && bool_decide (byte_at ip 0 = 255) && bool_decide (Z.land (byte_at ip 1) 15 = 2)
  end.
Definition IsUnspecified (ip : list Z) : bool :=
  match To4 ip with
  | Some ip4 => bool_decide (ip4 = [0; 0; 0; 0])
  | None => bool_decide (ip = ipv6_unspecified)
  end.
Definition IsMulticast (ip : list Z) : bool :=
  match To4 ip with
  | Some ip4 => bool_decide (Z.land (byte_at ip4 0) 240 = 224)
  | None => is_ipv6 ip && bool_decide (byte_at ip 0 = 255)
  end.

(** ** http.go *)

(** A nil address is the empty list. *)
Definition isPrivateIP (ip : list Z) : bool :=
  if decide (ip = []) then true
  else IsLoopback ip || IsPrivate ip || IsLinkLocalUnicast ip || IsLinkLocalMulticast ip ||
       IsUnspecified ip || IsMulticast ip.

Definition trim_suffix_byte (c : ascii) (s : string) : string :=
  match string_rev s with
  | String d r => if decide (c = d) then string_rev r else s
  | EmptyString => s
  end.
Definition has_suffix (s suffix : string) : bool := has_prefix (string_rev s) (string_rev suffix).

Section http.
Context `{Externals}.

Definition isPrivateHost (host : string) : bool :=
  let normalized := trim_suffix_byte "." (to_lower host) in
  if decide (normalized = "localhost") then true
  else if has_suffix normalized ".localhost" then true
  else match ParseIP normalized with
       | None => false
       | Some ip => isPrivateIP ip
       end.

Definition ValidateHTTPURL (rawURL : string) (allowPrivateNetworks : bool) : res url :=
  match url_parse rawURL with
  | Err e => Err (ErrWrap "parse url" e)
  | Ok parsed =>
      if decide (url_Scheme parsed ≠ "http" ∧ url_Scheme parsed ≠ "https")
      then Err (ErrText "url must use http or https")
      else if url_HasUser parsed then Err (ErrText "url userinfo is not allowed")
      else
        let host := url_Hostname parsed in
        if decide (trim_space host = "") then Err (ErrText "url host is required")
        else if negb allowPrivateNetworks && isPrivateHost host
        then Err (ErrText ("private or local url host " +:+ go_quote host +:+ " is not allowed"))
        else Ok parsed
  end.

(** The loop over the resolved addresses. *)
Fixpoint check_addrs (host : string) (addrs : list (list Z)) : res () :=
  match addrs with
  | [] => Ok ()
  | ip :: addrs =>
      if isPrivateIP ip
      then Err (ErrText ("private or local resolved address " +:+ ip_string ip +:+
                         " for host " +:+ go_quote host +:+ " is not allowed"))
      else check_addrs host addrs
  end.

Definition EnsureHTTPDestinationAllowed (rawURL : string) (allowPrivateNetworks : bool) : prog (res ()) :=
  match ValidateHTTPURL rawURL allowPrivateNetworks with
  | Err e => mret (Err e)
  | Ok parsed =>
      if allowPrivateNetworks then mret (Ok ())
      else
        let host := url_Hostname parsed in
        match ParseIP host with
        | Some _ => mret (Ok ())
        | None =>
            addrs ← call (ELookupIP host);
            match addrs with
            | Err e => mret (Err (ErrWrap ("resolve url host " +:+ go_quote host) e))
            | Ok [] => mret (Err (ErrText ("resolve url host " +:+ go_quote host +:+ ": no addresses returned")))
            | Ok addrs => mret (check_addrs host addrs)
            end
        end
  end.
End http.
