(* ===== verification/Timer.v ===== *)
(** * internal/timer/timer.go: durable timers

    A timer is a row of the table timers, and a Redis key that expires at the fire
    time.  Whoever deletes the row ([FireTimer], [ClaimDueTimers]) enqueues the
    instance; the key only makes it happen sooner.  [Run] is a loop over the events
    of its [select]: a message of the expiry channel, or the polling ticker. *)

From S2P Require Import Prelude GoString GoTime Workflow Accessors Store Externals Effects.

#[local] Open Scope prog_scope.

Record Service := mkService {
  s_keyPrefix : string;
  s_enqueue : option (string → prog (res ()));
  s_pollEvery : duration;
  s_pollLimit : Z;
}.

Record TimerConfig := mkTimerConfig {
  tc_KeyPrefix : string;
  tc_PollEvery : duration;
  tc_PollLimit : Z;
}.

Definition NewTimer (enqueue : option (string → prog (res ()))) (config : TimerConfig) : Service :=
  mkService
    (if decide (tc_KeyPrefix config = "") then "aetherflow:timer:" else tc_KeyPrefix config)
    enqueue
    (if decide (tc_PollEvery config ≤ 0)%Z then (5 * Second)%Z else tc_PollEvery config)
    (if decide (tc_PollLimit config ≤ 0)%Z then 100%Z else tc_PollLimit config).

Section timer.
Variable s : Service.

Definition key (instanceID : string) : string := s_keyPrefix s +:+ instanceID.

Definition clearRedisKey (instanceID : string) : prog (res ()) :=
  try _ ← call (ERedisDel (key instanceID)) or "delete redis timer key";
  mret (Ok ()).

Definition fire (instanceID : string) : prog (res ()) :=
  try timer ← call (ERepo (OpFireTimer instanceID)) or "claim fired timer";
  match timer with
  | None => clearRedisKey instanceID
  | Some _ =>
      try _ ← clearRedisKey instanceID or "delete fired redis key";
      match s_enqueue s with
      | None => mret (Ok ())
      | Some enqueue =>
          try _ ← enqueue instanceID or "enqueue fired timer";
          mret (Ok ())
      end
  end.

Definition Schedule (timer : Timer) : prog (res ()) :=
  try _ ← call (ERepo (OpUpsertTimer timer)) or "persist timer";
  now ← call ENow;
  let ttl := time_sub (t_FireAt timer) now in
  if decide (ttl ≤ 0)%Z then
    try _ ← fire (t_InstanceID timer) or "fire due timer";
    mret (Ok ())
  else
    try _ ← call (ERedisSet (key (t_InstanceID timer)) (t_StepID timer) ttl) or "set redis timer key";
    mret (Ok ()).

Definition Clear (instanceID : string) : prog (res ()) :=
  try _ ← call (ERepo (OpDeleteTimer instanceID)) or "delete persisted timer";
  try _ ← call (ERedisDel (key instanceID)) or "delete redis timer key";
  mret (Ok ()).

(** The loop of [poll] over the claimed timers: the first error ends it. *)
Fixpoint poll_loop (due : list Timer) : prog (res ()) :=
  match due with
  | [] => mret (Ok ())
  | timer :: due =>
      try _ ← clearRedisKey (t_InstanceID timer) or "clear due timer key " +:+ t_InstanceID timer;
      match s_enqueue s with
      | None => poll_loop due
      | Some enqueue =>
          try _ ← enqueue (t_InstanceID timer) or "enqueue due timer " +:+ t_InstanceID timer;
          poll_loop due
      end
  end.

Definition poll : prog (res ()) :=
  now ← call ENow;
  try due ← call (ERepo (OpClaimDueTimers now (s_pollLimit s))) or "claim due timers";
  poll_loop due.

(** ** Run *)

(** What the [select] of [Run] receives. *)
Inductive timer_event :=
| Expired (payload : option string)  (* nil message: the channel is closed *)
| Tick.

(** One iteration of the loop; errors are only logged. *)
Definition run_event (ev : timer_event) : prog () :=
  match ev with
  | Expired None => mret ()
  | Expired (Some payload) =>
      if has_prefix payload (s_keyPrefix s)
      then _ ← fire (trim_prefix payload (s_keyPrefix s)); mret ()
      else mret ()
  | Tick => _ ← poll; mret ()
  end.

Fixpoint Run (events : list timer_event) : prog () :=
  match events with
  | [] => mret ()
  | ev :: events => _ ← run_event ev; Run events
  end.
End timer.
