(* ===== verification/Worker.v ===== *)
(** * internal/worker/worker.go: executing one step

    [Execute] runs a step of an instance and returns a [Result] and an error, either
    of which may be absent.  An execution reads the clock, the context, the orders of
    the maps it ranges over and, for an HTTP step, the network; it makes no call to
    the repository. *)

From Stdlib Require Import Ascii.
From S2P Require Import Prelude GoNum GoString GoTime Workflow Accessors Json Store Externals Effects Security.

#[local] Open Scope prog_scope.

Definition defaultHTTPTimeout : duration := (15 * Second)%Z.
Definition defaultMaxRequestBytes : Z := Z.shiftl 1 20.
Definition defaultMaxResponseBytes : Z := Z.shiftl 2 20.

(** [CheckRedirect] of a client: the next request and those made so far. *)
Definition redirect_policy : Type := http_request → list http_request → option goerr.
Record http_client := mkClient { hc_Timeout : duration; hc_CheckRedirect : option redirect_policy }.

Record Executor := mkExecutor {
  ex_Timeout : duration;
  ex_previousRedirectPolicy : option redirect_policy;
  ex_allowPrivateNetworks : bool;
  ex_maxRequestBytes : Z;
  ex_maxResponseBytes : Z;
}.

Record ExecutorOptions := mkOptions {
  eo_HTTPClient : option http_client;
  eo_AllowPrivateNetworks : bool;
  eo_MaxRequestBytes : Z;
  eo_MaxResponseBytes : Z;
}.

(** The policy it installs is [checkRedirect]. *)
Definition NewExecutorWithOptions (options : ExecutorOptions) : Executor :=
  let client := default (mkClient defaultHTTPTimeout None) (eo_HTTPClient options) in
  mkExecutor
    (if decide (hc_Timeout client ≤ 0)%Z then defaultHTTPTimeout else hc_Timeout client)
    (hc_CheckRedirect client)
    (eo_AllowPrivateNetworks options)
    (if decide (eo_MaxRequestBytes options ≤ 0)%Z then defaultMaxRequestBytes else eo_MaxRequestBytes options)
    (if decide (eo_MaxResponseBytes options ≤ 0)%Z then defaultMaxResponseBytes else eo_MaxResponseBytes options).

Definition NewExecutor (client : option http_client) : Executor :=
  NewExecutorWithOptions (mkOptions client false 0 0).

(** [(Result*, error)]: both may be nil, and both may be set. *)
Definition exec_result : Type := option Result * option goerr.
Definition fails (e : goerr) : exec_result := (None, Some e).
Definition returns (output : gomap value) (body : value) (next : option string) : exec_result :=
  (Some (mkResult output body next None), None).

(** [errors.As(err, &WaitingTimerError{})] *)
Fixpoint IsWaitingTimer (e : goerr) : option time :=
  match e with
  | ErrWaitingTimer fireAt => Some fireAt
  | ErrWrap _ e => IsWaitingTimer e
  | ErrText _ | ErrSentinel _ => None
  end.

(** ** The environment of expressions and templates *)

Definition step_env (st : StepState) : value :=
  VObj (obj_map [
    ("status", VStr (ss_Status st)); ("body", ss_Body st); ("output", VObj (ss_Output st));
    ("error", VStr (ss_Error st)); ("attempt", VInt (ss_Attempt st));
    ("idempotency_key", VStr (ss_IdempotencyKey st))]).

Definition BuildEnv (input : gomap value) (state : RuntimeState) : gomap value :=
  let state := Normalize state in
  let steps : gmap string value := step_env <$> default ∅ (rs_Steps state) in
  obj_map [
    ("input", VObj input);
    ("steps", VObj (Some steps));
    ("state", VObj (obj_map [
      ("completed", VStrs (rs_Completed state));
      ("compensation_queue", VStrs (rs_CompensationQueue state));
      ("forks", VForks (rs_Forks state))]))].

Fixpoint resolve_parts (current : value) (parts : list string) : option value :=
  match parts with
  | [] => Some current
  | part :: parts =>
      if decide (part = "") then None
      else match current with
           | VObj m => v ← gm_get m part; resolve_parts v parts
           | _ => None
           end
  end.
Definition resolvePath (env : gomap value) (path : string) : option value :=
  resolve_parts (VObj env) (split_byte "." (trim_prefix path ".")).

(** ** Templates *)

(** [\s] of the regular expression syntax. *)
Definition re_space (c : ascii) : bool :=
  byte_in 9 10 c || byte_in 12 13 c || bool_decide (c = " "%char).
(** [a-zA-Z0-9_.$\[\]-] *)
Definition path_byte (c : ascii) : bool :=
  byte_in 97 122 c || byte_in 65 90 c || is_digit c ||
  bool_decide (c ∈ ["_"; "."; "$"; "["; "]"; "-"]%char).

Fixpoint skip_space (s : string) : string :=
  match s with
  | String c s' => if re_space c then skip_space s' else s
  | EmptyString => s
  end.
Fixpoint take_path (s : string) : string * string :=
  match s with
  | String c s' => if path_byte c then let '(p, r) := take_path s' in (String c p, r) else ("", s)
  | EmptyString => ("", "")
  end.

(** The match of [directTemplatePattern] and its group. *)
Definition direct_template (s : string) : option string :=
  s ← strip_prefix "{{" (skip_space s);
  s ← strip_prefix "." (skip_space s);
  let '(path, s) := take_path s in
  if decide (path = "") then None
  else
    s ← strip_prefix "}}" (skip_space s);
    if decide (skip_space s = "") then Some path else None.

Section worker.
Context `{Externals}.

(** The first error of the children in the order of the loop. *)
Fixpoint render_entries (render : value → prog (res value)) (entries : list (string * value))
    (out : gmap string value) : prog (res (gmap string value)) :=
  match entries with
  | [] => mret (Ok out)
  | (key, child) :: entries =>
      try rendered ← render child or "render object key " +:+ go_quote key;
      render_entries render entries (<[key := rendered]> out)
  end.

Fixpoint render_items (render : value → prog (res value)) (i : Z) (items out : list value)
    : prog (res (list value)) :=
  match items with
  | [] => mret (Ok out)
  | child :: items =>
      try rendered ← render child or "render array index " +:+ dec i;
      render_items render (i + 1)%Z items (out ++ [rendered])
  end.

Definition render_string (typed : string) (env : gomap value) : res value :=
  match path ← direct_template typed; resolvePath env path with
  | Some resolved => Ok resolved
  | None =>
      match template_parse typed with
      | Err e => Err (ErrWrap "parse template" e)
      | Ok tpl =>
          match template_execute tpl env with
          | Err e => Err (ErrWrap "execute template" e)
          | Ok text => Ok (VStr text)
          end
      end
  end.

(** [fuel] bounds the nesting; [renderValue] gives the nesting of the value. *)
Fixpoint render (fuel : nat) (v : value) (env : gomap value) : prog (res value) :=
  match fuel with
  | O => PPanic
  | S fuel =>
      match v with
      | VObj typed =>
          o ← call EOrder;
          out ← render_entries (fun v => render fuel v env) (range_order o (default ∅ typed)) ∅;
          mret (out ← out; Ok (VObj (Some out)))
      | VArr typed =>
          out ← render_items (fun v => render fuel v env) 0 typed [];
          mret (out ← out; Ok (VArr out))
      | VStr typed => mret (render_string typed env)
      | v => mret (Ok v)
      end
  end.
Definition renderValue (v : value) (env : gomap value) : prog (res value) :=
  render (S (vdepth v)) v env.

(** ** HTTP *)

Definition flattenHeaders (headers : gmap string (list string)) : gomap value :=
  Some ((fun values => match values with [v] => VStr v | _ => VStrs values end) <$> headers).

(** [CheckRedirect] of the configured client. *)
Definition previous_refusal (e : Executor) (req : http_request) (via : list http_request) : option goerr :=
  match ex_previousRedirectPolicy e with
  | Some policy => policy req via
  | None => None
  end.
Definition checkRedirect (e : Executor) (req : http_request) (via : list http_request) : prog (res ()) :=
  match previous_refusal e req via with
  | Some err => mret (Err err)
  | None =>
      if decide (5 ≤ length via) then mret (Err (ErrText "too many http_request redirects"))
      else wrap_prog "validate http_request redirect destination"
             (EnsureHTTPDestinationAllowed (hr_URL req) (ex_allowPrivateNetworks e))
  end.

Fixpoint byte_length (s : string) : Z :=
  match s with EmptyString => 0 | String _ s => 1 + byte_length s end%Z.
Fixpoint take_bytes (n : Z) (s : string) : string :=
  match s with
  | EmptyString => EmptyString
  | String c s => if decide (n ≤ 0)%Z then EmptyString else String c (take_bytes (n - 1) s)
  end.

(** [http.Client.Do]: the requests that one call of the client sends.  A response that
    redirects leads to a request for its location, when the policy of the client permits;
    the error of a send comes with the call, those of the client are made here. *)
Definition redirect_behavior (method : string) (status : Z) : option (string * bool) :=
  if decide (status ∈ [301; 302; 303]%Z)
  then Some (if decide (method = "GET" ∨ method = "HEAD") then method else "GET", false)
  else if decide (status ∈ [307; 308]%Z) then Some (method, true) else None.

Definition header_get (headers : gmap string (list string)) (key : string) : string :=
  match headers !! key with Some (value :: _) => value | _ => "" end.

(** The text of a [url.Error] around [err]. *)
Definition url_error (method url : string) (err : goerr) : goerr :=
  let op := match method with
            | EmptyString => "Get"
            | String c rest => if all_ascii method then String c (map_bytes ascii_lower rest) else method
            end in
  ErrWrap (op +:+ " " +:+ go_quote url) err.

(** [http.ErrUseLastResponse] *)
Definition ErrUseLastResponse : string := "net/http: use last response".

(** [via] are the requests made before [req].  The policy refuses the sixth request, so
    five rounds are enough ([framed_client_do]). *)
Fixpoint client_do (fuel : nat) (e : Executor) (first : http_request) (via : list http_request) (req : http_request)
    : prog (res http_response) :=
  match fuel with
  | O => PPanic
  | S fuel =>
      let via := via ++ [req] in
      sent ← call (EHTTP req);
      match sent with
      | Err err => mret (Err err)
      | Ok resp =>
          match redirect_behavior (hr_Method req) (resp_StatusCode resp) with
          | None => mret (Ok resp)
          | Some (method, keep) =>
              let location := header_get (resp_Header resp) "Location" in
              if decide (location = "") then mret (Ok resp)
              else
                match url_resolve (hr_URL req) location with
                | Err err => mret (Err (url_error (hr_Method first) (hr_URL req)
                               (ErrWrap ("failed to parse Location header " +:+ go_quote location) err)))
                | Ok target =>
                    let next := mkRequest method target (if keep then hr_Body first else None)
                                  (redirect_headers first (hr_URL req) target) (hr_Timeout req) in
                    checked ← checkRedirect e next via;
                    match checked with
                    | Err (ErrSentinel s) =>
                        mret (if decide (s = ErrUseLastResponse) then Ok resp
                              else Err (url_error (hr_Method first) location (ErrSentinel s)))
                    | Err err => mret (Err (url_error (hr_Method first) location err))
                    | Ok _ => client_do fuel e first via next
                    end
                end
          end
      end
  end.
Definition client_Do (e : Executor) (req : http_request) : prog (res http_response) := client_do 5 e req [] req.

(** The body of the request, when the configuration has one. *)
Definition request_body (e : Executor) (config : gomap value) : res (option string) :=
  match gm_get config "body" with
  | None | Some VNil => Ok None
  | Some body =>
      if negb (json_ok body) then Err (ErrWrap "marshal http_request body" (ErrText "json: unsupported value"))
      else
        let bodyRaw := json_text body in
        if decide (ex_maxRequestBytes e < byte_length bodyRaw)%Z
        then Err (ErrText ("http_request body exceeds " +:+ dec (ex_maxRequestBytes e) +:+ " bytes"))
        else Ok (Some bodyRaw)
  end.

Definition request_timeout (e : Executor) (config : gomap value) : res duration :=
  match firstString config ["timeout"] with
  | Some text =>
      if decide (text = "") then Ok (ex_Timeout e)
      else match parse_duration text with
           | Err err => Err (ErrWrap "parse http_request timeout" err)
           | Ok parsed =>
               if decide (parsed ≤ 0 ∨ ex_Timeout e < parsed)%Z
               then Err (ErrText ("http_request timeout must be between 1ns and " +:+ duration_text (ex_Timeout e)))
               else Ok parsed
           end
  | None => Ok (ex_Timeout e)
  end.

(** What the step makes of a response. *)
Definition http_result (e : Executor) (resp : http_response) : exec_result :=
  match resp_Body resp with
  | Err err => fails (ErrWrap "read http_response body" err)
  | Ok body =>
      let rawBody := take_bytes (wrap64 (ex_maxResponseBytes e + 1)) body in
      if decide (ex_maxResponseBytes e < byte_length rawBody)%Z
      then fails (ErrText ("http_response body exceeds " +:+ dec (ex_maxResponseBytes e) +:+ " bytes"))
      else
        let parsedBody := if decide (rawBody = "") then VNil
                          else default (VStr rawBody) (json_parse rawBody) in
        let output := obj_map [("status_code", VInt (resp_StatusCode resp));
                               ("headers", VObj (flattenHeaders (resp_Header resp)));
                               ("body", parsedBody)] in
        if decide (resp_StatusCode resp < 200 ∨ 300 ≤ resp_StatusCode resp)%Z
        then (Some (mkResult output parsedBody None None),
              Some (ErrText ("http_request returned status " +:+ dec (resp_StatusCode resp))))
        else returns output parsedBody None
  end.

Definition executeHTTPRequest (e : Executor) (step : Step) (env : gomap value) : prog exec_result :=
  rendered ← renderValue (VObj (step_Config step)) env;
  match rendered with
  | Err err => mret (fails (ErrWrap "render http_request config" err))
  | Ok (VObj config) =>
      let rawURL := default "" (stringValue config "url") in
      let method := default "" (stringValue config "method") in
      if decide (rawURL = "" ∨ method = "")
      then mret (fails (ErrText "execute http_request: url and method are required"))
      else
        allowed ← EnsureHTTPDestinationAllowed rawURL (ex_allowPrivateNetworks e);
        match allowed with
        | Err err => mret (fails (ErrWrap "validate http_request destination" err))
        | Ok _ =>
            let method := to_upper method in
            match request_body e config with
            | Err err => mret (fails err)
            | Ok body =>
                match request_timeout e config with
                | Err err => mret (fails err)
                | Ok timeout =>
                    match new_request_error method rawURL with
                    | Some err => mret (fails (ErrWrap "create http_request" err))
                    | None =>
                        o ← call EOrder;
                        let headers := match gm_get config "headers" with
                                       | Some (VObj headers) => range_order o (default ∅ headers)
                                       | _ => []
                                       end in
                        let header := (match body with Some _ => [("Content-Type", "application/json")] | None => [] end)
                                      ++ ((fun kv => (kv.1, fmt_sprint kv.2)) <$> headers) in
                        resp ← client_Do e (mkRequest method rawURL body header timeout);
                        match resp with
                        | Err err => mret (fails (ErrWrap "perform http_request" err))
                        | Ok resp => mret (http_result e resp)
                        end
                    end
                end
            end
        end
  | Ok _ => mret (fails (ErrText "render http_request config: expected object"))
  end.

(** ** Expressions *)

(** The common part of transform and condition: compile, check the context, run. *)
Definition eval_expression (what expression : string) (env : gomap value)
    : prog (res value) :=
  match expr_compile expression env with
  | Err e => mret (Err (ErrWrap ("compile " +:+ what +:+ " expression") e))
  | Ok program =>
      done ← call ECtxErr;
      match done with
      | Some e => mret (Err (ErrWrap ("execute " +:+ what +:+ " expression") e))
      | None =>
          now ← call ENow;
          mret (wrap_err ("run " +:+ what +:+ " expression") (expr_run now program env))
      end
  end.

Definition executeTransform (step : Step) (env : gomap value) : prog exec_result :=
  let expression := default "" (firstString (step_Config step) ["expr"; "expression"]) in
  if decide (expression = "") then mret (fails (ErrText "execute transform: config.expr is required"))
  else
    value ← eval_expression "transform" expression env;
    match value with
    | Err e => mret (fails e)
    | Ok value =>
        let resultKey := default "" (firstString (step_Config step) ["result_key"]) in
        let resultKey := if decide (resultKey = "") then "result" else resultKey in
        mret (returns (obj_map [(resultKey, value)]) value None)
    end.

Definition condition_result (step : Step) (matched : bool) : exec_result :=
  let target := stringValue (step_Config step) (if matched then "then" else "else") in
  let next := match target with
              | Some t => if decide (t = "") then None else Some t
              | None => None
              end in
  let output := obj_map (("matched", VBool matched) ::
                         match next with Some n => [("next_step", VStr n)] | None => [] end) in
  returns output (VObj output) next.

Definition executeCondition (step : Step) (env : gomap value) : prog exec_result :=
  let condition := default "" (firstString (step_Config step) ["if"]) in
  if decide (condition = "") then mret (fails (ErrText "execute condition: config.if is required"))
  else
    value ← eval_expression "condition" condition env;
    match value with
    | Err e => mret (fails e)
    | Ok (VBool matched) => mret (condition_result step matched)
    | Ok _ => mret (fails (ErrText "condition expression must return bool"))
    end.

(** ** Delay, fork, join *)

Definition fired_result (now : time) : exec_result :=
  returns (obj_map [("fired_at", VStr (format_rfc3339nano now))]) (VObj (obj_map [("fired", VBool true)])) None.
Definition waiting_result (fireAt : time) : exec_result :=
  (Some (mkResult (obj_map [("fire_at", VStr (format_rfc3339nano fireAt))])
           (VObj (obj_map [("waiting", VBool true)])) None (Some fireAt)),
   Some (ErrWaitingTimer fireAt)).

(** [select { case <-ctx.Done(): return nil, ...; default: }] *)
Definition unless_done (what : string) (k : prog exec_result) : prog exec_result :=
  done ← call ECtxErr;
  match done with
  | Some e => mret (fails (ErrWrap what e))
  | None => k
  end.

Definition executeDelay (instance : Instance_) (step : Step) : prog exec_result :=
  unless_done "execute delay context" (
    let current := gm_get (rs_Steps (i_State instance)) (step_ID step) in
    let waiting := match current with
                   | Some current => bool_decide (ss_Status current = StepWaitingTimer)
                   | None => false
                   end in
    if waiting then
      match current ≫= ss_WaitingTime with
      | None => now ← call ENow; mret (fired_result now)
      | Some waitingTime =>
          now ← call ENow;
          if time_after waitingTime now then mret (waiting_result waitingTime)
          else now ← call ENow; mret (fired_result now)
      end
    else
      let durationText := default "" (firstString (step_Config step) ["duration"; "for"]) in
      match parse_duration durationText with
      | Err e => mret (fails (ErrWrap "parse delay duration" e))
      | Ok duration =>
          now ← call ENow;
          let fireAt := time_add now duration in
          mret (Some (mkResult None VNil None (Some fireAt)), Some (ErrWaitingTimer fireAt))
      end).

Definition executeFork (step : Step) : prog exec_result :=
  unless_done "execute fork context" (
    match stringSliceValue (step_Config step) "branches" with
    | None | Some [] => mret (fails (ErrText "execute fork: config.branches is required"))
    | Some ((next :: _) as branches) =>
        let join := match stringValue (step_Config step) "join" with
                    | Some join => if decide (join = "") then [] else [("join_step", VStr join)]
                    | None => []
                    end in
        let output := obj_map ([("branches", VStrs branches); ("next_step", VStr next)] ++ join) in
        mret (returns output (VObj output) (Some next))
    end).

Definition executeJoin (step : Step) : prog exec_result :=
  unless_done "execute join context" (
    let branches := match stringSliceValue (step_Config step) "branches" with
                    | Some branches => [("branches", VStrs branches)]
                    | None => []
                    end in
    let next := match stringValue (step_Config step) "next" with
                | Some next => if decide (next = "") then None else Some next
                | None => None
                end in
    let output := obj_map ([("joined", VBool true)] ++ branches ++
                           match next with Some n => [("next_step", VStr n)] | None => [] end) in
    mret (returns output (VObj output) next)).

Definition Execute (e : Executor) (instance : Instance_) (step : Step) : prog exec_result :=
  let env := BuildEnv (i_Input instance) (i_State instance) in
  if decide (step_Type step = StepHTTPRequest) then executeHTTPRequest e step env
  else if decide (step_Type step = StepTransform) then executeTransform step env
  else if decide (step_Type step = StepDelay) then executeDelay instance step
  else if decide (step_Type step = StepCondition) then executeCondition step env
  else if decide (step_Type step = StepFork) then executeFork step
  else if decide (step_Type step = StepJoin) then executeJoin step
  else mret (fails (ErrText ("execute step " +:+ go_quote (step_ID step) +:+
                             ": unsupported step type " +:+ go_quote (step_Type step)))).
End worker.
