(* ===== verification/Engine.v ===== *)
(** * internal/engine/engine.go: advancing instances

    [Advance] claims an instance, runs one step of it (or one compensation) and saves
    the outcome; [processMessage] does so for a message of the task stream; [consume],
    [recoveryLoop] and [Run] are the goroutines of a process.  Logging, metrics and
    tracing have no other effect and are left out; the clock readings that only feed
    them are too. *)

From S2P Require Import Prelude GoNum GoString GoTime Workflow Accessors Machine Json Store.
From S2P Require Import Externals Effects Timer Worker.

#[local] Open Scope prog_scope.

Record Engine := mkEngine {
  e_stream : string;
  e_group : string;
  e_consumer : string;
  e_executor : Executor;
  e_timers : option Service;
  e_concurrency : Z;
  e_lease : duration;
  e_pendingIdle : duration;
}.

Record EngineConfig := mkEngineConfig {
  ec_Stream : string;
  ec_Group : string;
  ec_Consumer : string;
  ec_Concurrency : Z;
  ec_Lease : duration;
  ec_PendingIdle : duration;
}.

(** [host] and [pid] are [os.Hostname] and [os.Getpid]. *)
Definition NewEngine (host : string) (pid : Z) (executor : Executor) (timers : option Service)
    (config : EngineConfig) : Engine :=
  mkEngine
    (if decide (ec_Stream config = "") then "aetherflow:tasks" else ec_Stream config)
    (if decide (ec_Group config = "") then "aetherflow-workers" else ec_Group config)
    (if decide (ec_Consumer config = "") then host +:+ "-" +:+ dec pid else ec_Consumer config)
    executor timers
    (if decide (ec_Concurrency config ≤ 0)%Z then 4%Z else ec_Concurrency config)
    (if decide (ec_Lease config ≤ 0)%Z then (2 * Minute)%Z else ec_Lease config)
    (if decide (ec_PendingIdle config ≤ 0)%Z then (30 * Second)%Z else ec_PendingIdle config).

Definition isTerminal (status : string) : bool :=
  bool_decide (status = InstanceCompleted) || bool_decide (status = InstanceFailed).

Definition claim_owner (consumer : string) (seq : N) : string :=
  consumer +:+ "-claim-" +:+ pretty seq.

(** [engine.Enqueue]; it is also the enqueue function of the timer service. *)
Definition Enqueue (instanceID : string) : prog (res ()) :=
  try _ ← call (EXAdd instanceID) or "enqueue instance";
  mret (Ok ()).

(** [repo.UpdateInstance(ctx, instance, instance.Version)], wrapped. *)
Definition update (ctx : string) (instance : Instance_) : prog (res Instance_) :=
  wrap_prog ctx (call (ERepo (OpUpdateInstance instance (i_Version instance)))).

Definition finishInstance (instance : Instance_) (status : string) : prog (res ()) :=
  let instance := with_progress instance status None (i_State instance) in
  try _ ← call (ERepo (OpUpdateInstance instance (i_Version instance))) or "finish instance";
  mret (Ok ()).

(** Returns the instance after the update. *)
Definition markStepRunning (instance : Instance_) (stepID : string) (attempt : Z) (status : string)
    : prog (res Instance_) :=
  let state := Normalize (i_State instance) in
  let previous := step_state state stepID in
  idempotencyKey ← (if decide (ss_IdempotencyKey previous = "") then call EUuid
                    else mret (ss_IdempotencyKey previous));
  state ← lift_go (set_step state stepID
            (mkStepState StepRunning VNil None "" attempt idempotencyKey None));
  update "update running state" (with_progress instance status (Some stepID) state).

Section engine.
Context `{Externals} `{GoArch}.
Variable e : Engine.

(** [Some r]: handled, [Advance] returns [r]. *)
Definition ensureWaitingTimer (instance : Instance_) : prog (option (res ())) :=
  if decide (i_Status instance ≠ InstanceWaitingTimer) then mret None
  else match i_CurrentStepID instance with
  | None => mret None
  | Some current =>
      match ss_WaitingTime (step_state (i_State instance) current) with
      | None => mret None
      | Some waitingTime =>
          now ← call ENow;
          if negb (time_after waitingTime now) then mret None
          else match e_timers e with
          | None => mret (Some (Err (ErrText ("instance " +:+ i_ID instance +:+
                      " is waiting on timer but no timer scheduler is configured"))))
          | Some timers =>
              r ← wrap_prog "reschedule waiting timer"
                    (Schedule timers (mkTimer (i_ID instance) current waitingTime));
              mret (Some r)
          end
      end
  end.

Definition executeWithSpan (instance : Instance_) (step : Step) (previousStepState : StepState)
    : prog exec_result :=
  if decide (step_Type step = StepDelay ∧ ss_Status previousStepState = StepWaitingTimer) then
    match ss_WaitingTime previousStepState with
    | None => now ← call ENow; mret (fired_result now)
    | Some waitingTime =>
        now ← call ENow;
        if time_after waitingTime now then mret (waiting_result waitingTime)
        else now ← call ENow; mret (fired_result now)
    end
  else Execute (e_executor e) instance step.

(** The output and body of a result that may be nil. *)
Definition result_output (result : option Result) : gomap value :=
  match result with Some r => r_Output r | None => Some ∅ end.
Definition result_body (result : option Result) : value :=
  match result with Some r => r_Body r | None => VNil end.

Definition completed_state (state : RuntimeState) (stepID : string) (attempt : Z) (result : option Result) : StepState :=
  mkStepState StepCompleted (result_body result) (result_output result) "" attempt
    (ss_IdempotencyKey (step_state state stepID)) None.

Definition handleStepSuccess (o : list string) (instance : Instance_) (machine : Machine) (step : Step) (historyID : string)
    (attempt : Z) (result : option Result) : prog (res ()) :=
  try _ ← call (ERepo (OpCompleteHistory historyID "success" (result_output result) None))
    or "complete successful history";
  state ← lift_go (MarkCompleted (i_State instance) (step_ID step)
                     (completed_state (i_State instance) (step_ID step) attempt result));
  try _ ← (match e_timers e with
           | Some timers => Clear timers (i_ID instance)
           | None => mret (Ok ())
           end) or "clear durable timer";
  '(state, next) ← lift_go (NextAfter o machine step state result);
  match next with
  | None =>
      try _ ← call (ERepo (OpUpdateInstance (with_progress instance InstanceCompleted None state) (i_Version instance)))
        or "update completed instance";
      mret (Ok ())
  | Some next =>
      try _ ← call (ERepo (OpUpdateInstance (with_progress instance InstanceRunning (Some (step_ID next)) state)
                             (i_Version instance))) or "update next step";
      Enqueue (i_ID instance)
  end.

(** Schedules the timer of a waiting instance, when there is a scheduler. *)
Definition schedule_wait (ctx : string) (instance : Instance_) (stepID : string) (fireAt : time) : prog (res ()) :=
  match e_timers e with
  | Some timers =>
      try _ ← Schedule timers (mkTimer (i_ID instance) stepID fireAt) or ctx;
      mret (Ok ())
  | None => mret (Ok ())
  end.

Definition handleStepWaiting (instance : Instance_) (step : Step) (historyID : string) (attempt : Z)
    (result : option Result) (fireAt : time) : prog (res ()) :=
  let '(output, body) :=
    match result with
    | Some (mkResult (Some output) body _ _) => (Some output, body)
    | _ => (obj_map [("fire_at", VStr (format_rfc3339nano fireAt))], VNil)
    end in
  try _ ← call (ERepo (OpCompleteHistory historyID StepWaitingTimer output None)) or "complete waiting history";
  let state := i_State instance in
  state ← lift_go (set_step state (step_ID step)
    (mkStepState StepWaitingTimer body output "" attempt
       (ss_IdempotencyKey (step_state state (step_ID step))) (Some fireAt)));
  try _ ← call (ERepo (OpUpdateInstance (with_progress instance InstanceWaitingTimer (Some (step_ID step)) state)
                         (i_Version instance))) or "update waiting instance";
  schedule_wait "schedule timer" instance (step_ID step) fireAt.

(** [step.Retry != nil && attempt <= step.Retry.MaxRetries] *)
Definition retry_allowed (step : Step) (attempt : Z) : option RetryPolicy :=
  match step_Retry step with
  | Some retry => if decide (attempt ≤ rp_MaxRetries retry)%Z then Some retry else None
  | None => None
  end.

Definition handleStepFailure (o : list string) (instance : Instance_) (machine : Machine) (step : Step) (historyID : string)
    (attempt : Z) (result : option Result) (execErr : goerr) : prog (res ()) :=
  let errText := err_text execErr in
  try _ ← call (ERepo (OpCompleteHistory historyID StepFailed (result_output result) (Some errText)))
    or "complete failed history";
  let key state := ss_IdempotencyKey (step_state state (step_ID step)) in
  state ← lift_go (set_step (i_State instance) (step_ID step)
    (mkStepState StepFailed (result_body result) (result_output result) errText attempt (key (i_State instance)) None));
  match retry_allowed step attempt with
  | Some retry =>
      now ← call ENow;
      let fireAt := time_add now (Backoff retry attempt) in
      state ← lift_go (set_step state (step_ID step)
        (mkStepState StepWaitingTimer (result_body result)
           (obj_map [("fire_at", VStr (format_rfc3339nano fireAt))]) errText attempt (key state) (Some fireAt)));
      try _ ← call (ERepo (OpUpdateInstance (with_progress instance InstanceWaitingTimer (Some (step_ID step)) state)
                             (i_Version instance))) or "update retry wait state";
      schedule_wait "schedule retry timer" instance (step_ID step) fireAt
  | None =>
      state ← lift_go (MarkBranchFailed o state (step_ID step) (Some execErr));
      match CompensationQueue machine (step_ID step) state with
      | (next :: _) as queue =>
          try _ ← call (ERepo (OpUpdateInstance
                    (with_progress instance InstanceCompensating (Some next) (with_CompensationQueue state queue))
                    (i_Version instance))) or "update compensation state";
          Enqueue (i_ID instance)
      | [] => finishInstance (with_state instance state) InstanceFailed
      end
  end.

(** The row of the execution log for the start of an attempt. *)
Definition start_entry (instance : Instance_) (stepID : string) (attempt : Z) (now : time) : History :=
  mkHistory "" (i_ID instance) stepID StepRunning (BuildEnv (i_Input instance) (i_State instance)) None None
    attempt now None.

Definition executeNormalStep (instance : Instance_) (machine : Machine) (step : Step) : prog (res ()) :=
  let previousStepState := step_state (i_State instance) (step_ID step) in
  let attempt := (ss_Attempt previousStepState + 1)%Z in
  try instance ← markStepRunning instance (step_ID step) attempt InstanceRunning or "mark step running";
  now ← call ENow;
  try history ← call (ERepo (OpAppendHistory (start_entry instance (step_ID step) attempt now)))
    or "append step history";
  '(result, execErr) ← executeWithSpan instance step previousStepState;
  o ← call EOrder;
  match execErr with
  | None => handleStepSuccess o instance machine step (h_ID history) attempt result
  | Some execErr =>
      match IsWaitingTimer execErr with
      | Some fireAt => handleStepWaiting instance step (h_ID history) attempt result fireAt
      | None => handleStepFailure o instance machine step (h_ID history) attempt result execErr
      end
  end.

(** The success branch of [advanceCompensation]. *)
Definition compensation_done (instance : Instance_) (step : Step) (historyID : string) (attempt : Z)
    (result : option Result) : prog (res ()) :=
  try _ ← call (ERepo (OpCompleteHistory historyID "compensated" (result_output result) None))
    or "complete compensation history";
  state ← lift_go (MarkCompleted (i_State instance) (step_ID step)
                     (completed_state (i_State instance) (step_ID step) attempt result));
  let queue := tail (rs_CompensationQueue state) in
  let state := with_CompensationQueue state queue in
  match queue with
  | [] => finishInstance (with_state instance state) InstanceFailed
  | next :: _ =>
      try _ ← call (ERepo (OpUpdateInstance (with_progress instance InstanceCompensating (Some next) state)
                             (i_Version instance))) or "update compensation progress";
      Enqueue (i_ID instance)
  end.

Definition advanceCompensation (instance : Instance_) (machine : Machine) : prog (res ()) :=
  let instance := with_state instance (Normalize (i_State instance)) in
  match rs_CompensationQueue (i_State instance) with
  | [] => finishInstance instance InstanceFailed
  | stepID :: _ =>
      match StepByID (m_definition machine) stepID with
      | None => finishInstance instance InstanceFailed
      | Some step =>
          let attempt := (ss_Attempt (step_state (i_State instance) (step_ID step)) + 1)%Z in
          try instance ← markStepRunning instance (step_ID step) attempt InstanceCompensating
            or "mark compensation step running";
          now ← call ENow;
          try history ← call (ERepo (OpAppendHistory (start_entry instance (step_ID step) attempt now)))
            or "append compensation history";
          '(result, execErr) ← executeWithSpan instance step zeroStepState;
          match execErr with
          | None => compensation_done instance step (h_ID history) attempt result
          | Some execErr =>
              match IsWaitingTimer execErr with
              | Some fireAt => handleStepWaiting instance step (h_ID history) attempt result fireAt
              | None =>
                  try _ ← call (ERepo (OpCompleteHistory (h_ID history) StepFailed (result_output result)
                                         (Some (err_text execErr)))) or "complete failed compensation history";
                  finishInstance instance InstanceFailed
              end
          end
      end
  end.

(** [Advance] once the instance is claimed. *)
Definition advance_claimed (instance : Instance_) : prog (res ()) :=
  handled ← ensureWaitingTimer instance;
  match handled with
  | Some r => mret r
  | None =>
      try definition ← call (ERepo (OpGetDefinitionForTenant (i_TenantID instance) (i_DefinitionID instance)))
        or "get definition for advance";
      let machine := NewMachine (d_DSL definition) in
      if decide (i_Status instance = InstanceCompensating ∨ rs_CompensationQueue (i_State instance) ≠ [])
      then advanceCompensation instance machine
      else
        o ← call EOrder;
        '(state, step) ← lift_go (StepForCurrent o machine (i_State instance) (i_CurrentStepID instance));
        let instance := with_state instance state in
        match step with
        | None => finishInstance instance InstanceCompleted
        | Some step => executeNormalStep instance machine step
        end
  end.

Definition Advance (instanceID : string) : prog (res ()) :=
  seq ← call EClaimSeq;
  let owner := claim_owner (e_consumer e) seq in
  now ← call ENow;
  try instance ← call (ERepo (OpClaimInstance instanceID owner (time_add now (e_lease e))))
    or "claim instance for advance";
  prog_defer (advance_claimed instance)
    (_ ← call (ERepo (OpReleaseInstance instanceID owner)); mret ()).

(** ** Recovery *)

Fixpoint enqueue_all (instances : list Instance_) : prog (res ()) :=
  match instances with
  | [] => mret (Ok ())
  | instance :: instances =>
      try _ ← Enqueue (i_ID instance) or "enqueue recoverable instance " +:+ i_ID instance;
      enqueue_all instances
  end.

Definition Recover : prog (res ()) :=
  try instances ← call (ERepo (OpListRecoverableInstances 500)) or "list recoverable instances";
  enqueue_all instances.

(** ** The task stream *)

Definition ack (messageID : string) : prog (res ()) :=
  try _ ← call (EXAck messageID) or "ack redis stream message";
  mret (Ok ()).

Definition processMessage (message : Message) : prog () :=
  let instanceID := default "<nil>" (msg_InstanceID message) in
  if decide (instanceID = "" ∨ instanceID = "<nil>") then _ ← ack (msg_ID message); mret ()
  else
    r ← Advance instanceID;
    match r with
    | Err err => if err_is err ErrInstanceBusy then _ ← ack (msg_ID message); mret () else mret ()
    | Ok _ => _ ← ack (msg_ID message); mret ()
    end.

Fixpoint process_all (messages : list Message) : prog () :=
  match messages with
  | [] => mret ()
  | message :: messages => _ ← processMessage message; process_all messages
  end.

Definition reclaimPending (consumerName : string) : prog () :=
  messages ← call (EXAutoClaim consumerName (e_pendingIdle e) 10);
  match messages with
  | Err _ => mret ()
  | Ok messages => process_all messages
  end.

(** [n] iterations of the loop. *)
Fixpoint consume_loop (n : nat) (consumerName : string) : prog () :=
  match n with
  | O => mret ()
  | S n =>
      done ← call ECtxErr;
      match done with
      | Some _ => mret ()
      | None =>
          _ ← reclaimPending consumerName;
          messages ← call (EXReadGroup consumerName 10);
          _ ← (match messages with Ok messages => process_all messages | Err _ => mret () end);
          consume_loop n consumerName
      end
  end.
Definition consume (n : nat) (workerID : Z) : prog () :=
  consume_loop n (e_consumer e +:+ "-" +:+ dec workerID).

Fixpoint recoveryLoop (n : nat) : prog () :=
  match n with
  | O => mret ()
  | S n =>
      done ← call ECtxErr;
      match done with
      | Some _ => mret ()
      | None => _ ← Recover; recoveryLoop n
      end
  end.

(** [strings.Contains(err.Error(), "BUSYGROUP")] *)
Fixpoint str_contains (s sub : string) : bool :=
  has_prefix s sub || match s with EmptyString => false | String _ s => str_contains s sub end.

Definition ensureGroup : prog (res ()) :=
  r ← call EXGroupCreate;
  match r with
  | Ok _ => mret (Ok ())
  | Err err => if str_contains (err_text err) "BUSYGROUP" then mret (Ok ())
               else mret (Err (ErrWrap "create redis stream group" err))
  end.

(** The part of [Run] before the goroutines, and the goroutines, [n] iterations each. *)
Definition Run_start : prog (res ()) :=
  try _ ← ensureGroup or "ensure redis stream group";
  _ ← Recover;
  mret (Ok ()).
Definition Run_goroutines (n : nat) : list (prog ()) :=
  ((fun i => consume n (Z.of_nat i)) <$> seq 0 (Z.to_nat (e_concurrency e))) ++ [recoveryLoop n].
End engine.
