(* ===== verification/Calm.v ===== *)
(** * Runs without faults

    [exec] runs a program to its end in an environment that answers every call, and
    [twp good p Q w] says that [p] returns with [Q] in every environment whose answers
    are [good]: total correctness, since a program is a well-founded tree.  The rest of
    the file gives the calls of the engine on PostgreSQL and Redis their effect on one
    instance and on the task stream when no call fails ([calm]). *)

From S2P Require Import Prelude GoNum GoTime Workflow Accessors Json Store Externals Effects.
From S2P Require Import Timer Engine.

(** ** Total correctness *)

Section exec.
Context {T : Type} `{Repository T}.

(** The answer to the [i]-th call, made in the world [w]. *)
Definition environment : Type := nat → World T → choice.

Fixpoint exec {A} (p : prog A) (env : environment) (i : nat) (w : World T) : go (A * World T) :=
  match p with
  | PRet a => Done (a, w)
  | PPanic => GoPanic
  | PCall e k => let '(r, w') := handle e (env i w) w in exec (k r) env (S i) w'
  end.

(** [exec] is [run] on the choices that the environment makes. *)
Lemma exec_run {A} (p : prog A) env i w a w' :
  exec p env i w = Done (a, w') → ∃ cs, run p cs w = (Returned a, w', []).
Proof.
  revert i w. induction p as [b| |R e k IH]; intros i w; simpl; [|done|].
  - intros [= <- <-]. by exists [].
  - destruct (handle e (env i w) w) as [r w1] eqn:Hh. intros (cs & Hcs)%IH.
    exists (env i w :: cs). by rewrite Hh.
Qed.

Context (good : choice → World T → Prop).

Fixpoint twp {A} (p : prog A) (Q : A → World T → Prop) (w : World T) : Prop :=
  match p with
  | PRet a => Q a w
  | PPanic => False
  | PCall e k => ∀ c, good c w → let '(r, w') := handle e c w in twp (k r) Q w'
  end.

Lemma twp_exec {A} (p : prog A) Q env i w :
  twp p Q w → (∀ i w, good (env i w) w) → ∃ a w', exec p env i w = Done (a, w') ∧ Q a w'.
Proof.
  intros Hp Henv. revert i w Hp. induction p as [a| |R e k IH]; intros i w Hp; simpl; [eauto|done|].
  specialize (Hp _ (Henv i w)). destruct (handle e (env i w) w) as [r w']. by apply IH.
Qed.

Lemma twp_mono {A} (p : prog A) (Q Q' : A → World T → Prop) w :
  twp p Q w → (∀ a w', Q a w' → Q' a w') → twp p Q' w.
Proof.
  intros Hp HQ. revert w Hp. induction p as [a| |R e k IH]; intros w; simpl; [apply HQ|done|].
  intros Hp c Hc. specialize (Hp c Hc). destruct (handle e c w) as [r w']. by apply IH.
Qed.

Lemma twp_bind {A B} (p : prog A) (f : A → prog B) Q w :
  twp p (λ a w', twp (f a) Q w') w → twp (p ≫= f) Q w.
Proof.
  revert w. induction p as [a| |R e k IH]; intros w; simpl; [done|done|].
  intros Hp c Hc. specialize (Hp c Hc). destruct (handle e c w) as [r w']. by apply IH.
Qed.

(** [p] returns no error. *)
Lemma twp_try {A B} (p : prog (res A)) ctx (f : A → prog (res B)) P Q w :
  twp p (λ r w', ∃ a, r = Ok a ∧ P a w') w → (∀ a w', P a w' → twp (f a) Q w') →
  twp (try_err p ctx f) Q w.
Proof. intros Hp Hf. apply twp_bind. eapply twp_mono; [exact Hp|]. intros r w' (a & -> & Ha). by apply Hf. Qed.

Lemma twp_then {A B} (p : prog A) (f : A → prog B) P Q w :
  twp p P w → (∀ a w', P a w' → twp (f a) Q w') → twp (p ≫= f) Q w.
Proof. intros Hp Hf. apply twp_bind. by eapply twp_mono. Qed.

Lemma twp_defer {A} (p : prog A) cleanup (Q : A → World T → Prop) w :
  twp p (λ a w', twp cleanup (λ _, Q a) w') w → twp (prog_defer p cleanup) Q w.
Proof.
  revert w. induction p as [a| |R e k IH]; intros w; simpl.
  - intros Hp. apply (twp_bind cleanup (λ _, PRet a)). by eapply twp_mono.
  - done.
  - intros Hp c Hc. specialize (Hp c Hc). destruct (handle e c w) as [r w']. by apply IH.
Qed.

Lemma twp_lift {A B} (m : go A) a (f : A → prog B) Q w :
  m = Done a → twp (f a) Q w → twp (lift_go m ≫= f) Q w.
Proof. by intros ->. Qed.
End exec.

(** Fewer environments. *)
Lemma twp_weaken {T} `{Repository T} (good good' : choice → World T → Prop) {A} (p : prog A) Q w :
  (∀ c w, good' c w → good c w) → twp good p Q w → twp good' p Q w.
Proof.
  intros Hg. revert w. induction p as [a| |R e k IH]; intros w; simpl; [done|done|].
  intros Hp c Hc. specialize (Hp c (Hg _ _ Hc)). destruct (handle e c w) as [r w']. by apply IH.
Qed.

(** ** JSON *)

Lemma map_fold_andb {A} (f : A → bool) (m : gmap string A) :
  map_fold (λ _ v acc, f v && acc) true m = true ↔ map_Forall (λ _ v, f v = true) m.
Proof.
  apply (map_fold_weak_ind (λ b m, b = true ↔ map_Forall (λ _ v, f v = true) m)).
  - split; [intros _; apply map_Forall_empty|done].
  - intros k v m' b Hk IH. rewrite map_Forall_insert by done. by rewrite andb_true_iff, IH.
Qed.

Lemma json_ok_obj m : json_ok (VObj m) = true ↔ ∀ k v, gm_get m k = Some v → json_ok v = true.
Proof. destruct m as [m|]; [|done]. simpl. rewrite map_fold_andb. done. Qed.

Lemma json_ok_obj_map kvs : Forall (λ kv, json_ok kv.2 = true) kvs → json_ok (VObj (obj_map kvs)) = true.
Proof.
  intros Hall. apply json_ok_obj. intros k v Hk. rewrite Forall_forall in Hall.
  apply (Hall (k, v)). by apply elem_of_list_to_map_2.
Qed.

(** A value that can be encoded, and encoded again after it was read back. *)
Definition encodable (v : value) : Prop := json_ok v = true ∧ json_ok (json_norm v) = true.

Lemma encodable_norm v : encodable v → encodable (json_norm v).
Proof. intros [_ Hv]. split; [done|]. by rewrite json_norm_idemp. Qed.

(** ** Calls without faults *)

Section calm.
Context `{PgClock}.

(** No call fails, the context is not cancelled, generated identifiers are new (and are
    identifiers). *)
Definition new_id (u : string) (w : World DB) : Prop :=
  u ≠ "" ∧ u ≠ "<nil>" ∧ db_history (w_repo w) !! u = None ∧ db_instances (w_repo w) !! u = None.
Definition calm (c : choice) (w : World DB) : Prop :=
  c_fault c = NoFault ∧ c_ctx c = None ∧ new_id (k_uuid (c_tick c)) w.

Context (good : choice → World DB → Prop).
Hypothesis good_calm : ∀ c w, good c w → calm c w.
Context (id : string) (defs : gmap string Definition_) (tm : option (gmap string Timer)).
Implicit Types (w : World DB) (l : Instance_) (row : InstanceRow).

(** The timers, when they are followed. *)
Definition timers_are w : Prop := match tm with Some timers => db_timers (w_repo w) = timers | None => True end.
Definition no_timer : Prop := match tm with Some timers => timers !! id = None | None => True end.

(** What the world holds for the instance [id]: its row, the tasks, the deliveries. *)
Definition shows row (stream : list (option string)) (pending : list Pending) w : Prop :=
  db_definitions (w_repo w) = defs ∧ db_instances (w_repo w) !! id = Some row ∧
  rd_group (w_redis w) = true ∧ msg_InstanceID <$> rd_stream (w_redis w) = stream ∧
  rd_pending (w_redis w) = pending ∧ timers_are w.

Definition saved_row (r l : Instance_) (now : time) : Instance_ :=
  mkInstance (i_ID r) (i_TenantID r) (i_DefinitionID r) (i_DefinitionVersion r)
    (i_Status l) (i_Input r) (i_CurrentStepID l) (reload (i_State l)) (i_Version r + 1) (i_CreatedAt r) now.

Ltac calm_call :=
  let c := fresh "c" in let Hc := fresh "Hc" in
  intros c Hc; apply good_calm in Hc as (Hfault & Hctx & _ & _ & Hfresh & Hfresh');
  cbn [handle on_redis]; rewrite ?Hfault; cbn [with_fault].

Lemma twp_claim row stream pending owner until w :
  shows row stream pending w → locked_until row = None → ¬ terminal (i_Status (row_inst row)) →
  twp good (call (ERepo (OpClaimInstance id owner until))) (λ r w', ∃ l, r = Ok l ∧ (l = scan_instance id row ∧
    shows (mkRow (row_inst row) (Some owner) (Some (pg_time until))) stream pending w')) w.
Proof.
  intros (Hd & Hrow & Hg & Hs & Hp & Htm) Hl Ht. calm_call. cbn [repo_exec postgres_repository].
  unfold ClaimInstance. rewrite Hrow, decide_True.
  - simpl. eexists. split; [done|]. split; [done|]. split_and!; try done. simpl. by rewrite lookup_insert_eq.
  - unfold claimable, lease_free. rewrite Hl. unfold terminal in Ht. naive_solver.
Qed.

Lemma twp_release row stream pending owner w :
  shows row stream pending w → locked_by row = Some owner →
  twp good (call (ERepo (OpReleaseInstance id owner)) ≫= λ _, mret ())
    (λ _ w', shows (mkRow (row_inst row) None None) stream pending w') w.
Proof.
  intros (Hd & Hrow & Hg & Hs & Hp & Ht) Hl. calm_call. cbn [repo_exec postgres_repository].
  unfold ReleaseInstance. rewrite Hrow, decide_True by done. split_and!; try done. simpl. by rewrite lookup_insert_eq.
Qed.

Lemma twp_definition row stream pending tenant did d w :
  shows row stream pending w → defs !! did = Some d → d_TenantID d = tenant_or_default tenant →
  twp good (call (ERepo (OpGetDefinitionForTenant tenant did)))
    (λ r w', ∃ d', r = Ok d' ∧ (d' = scan_definition did d ∧ w' = w)) w.
Proof.
  intros (Hd & _) Hdid Ht. calm_call. cbn [repo_exec postgres_repository].
  unfold GetDefinitionForTenant. rewrite Hd, Hdid, decide_True by done. destruct w. simpl. eauto.
Qed.

Lemma twp_update row stream pending l w :
  shows row stream pending w → i_ID l = id → i_Version (row_inst row) = i_Version l →
  state_json_ok (i_State l) = true →
  twp good (call (ERepo (OpUpdateInstance l (i_Version l)))) (λ r w', ∃ l', r = Ok l' ∧
    (l' = with_version l (i_Version l + 1) ∧
     ∃ now, shows (mkRow (saved_row (row_inst row) l now) (locked_by row) (locked_until row)) stream pending w')) w.
Proof.
  intros (Hd & Hrow & Hg & Hs & Hp & Ht) Hid Hv Hj. calm_call. cbn [repo_exec postgres_repository].
  unfold UpdateInstance. rewrite Hj, Hid, Hrow, decide_True by done. simpl.
  eexists. split; [done|]. split; [done|]. exists (k_now (c_tick c)). split_and!; try done. simpl.
  by rewrite lookup_insert_eq.
Qed.

Lemma twp_append row stream pending h w :
  shows row stream pending w → h_InstanceID h = id →
  json_ok (VObj (h_Input h)) = true → json_ok (VObj (h_Output h)) = true →
  twp good (call (ERepo (OpAppendHistory h))) (λ r w', ∃ h', r = Ok h' ∧
    (shows row stream pending w' ∧ is_Some (db_history (w_repo w') !! h_ID h'))) w.
Proof.
  intros (Hd & Hrow & Hg & Hs & Hp & Ht) Hid Hi Ho. calm_call. cbn [repo_exec postgres_repository].
  unfold AppendHistory. rewrite Hi, Ho. cbn [negb].
  rewrite decide_False by (rewrite Hid, Hrow, Hfresh; intros [[? ?]|]; done).
  eexists. split; [done|]. split; [split_and!; done|]. simpl. rewrite lookup_insert_eq. eauto.
Qed.

Lemma twp_complete row stream pending hid status output err w :
  shows row stream pending w → is_Some (db_history (w_repo w) !! hid) → json_ok (VObj output) = true →
  twp good (call (ERepo (OpCompleteHistory hid status output err)))
    (λ r w', ∃ u, r = Ok u ∧ shows row stream pending w') w.
Proof.
  intros (Hd & Hrow & Hg & Hs & Hp & Ht) [h Hh] Ho. calm_call. cbn [repo_exec postgres_repository].
  unfold CompleteHistory. rewrite Ho, Hh. eexists. split; [done|]. by split_and!.
Qed.

Lemma twp_Clear s row stream pending w :
  no_timer → shows row stream pending w → twp good (Clear s id) (λ r w', ∃ u, r = Ok u ∧ shows row stream pending w') w.
Proof.
  intros Hno Hw. unfold Clear. apply twp_try with (P := λ _, shows row stream pending).
  { destruct Hw as (Hd & Hrow & Hg & Hs & Hp & Ht). calm_call. eexists. split; [done|]. split_and!; try done.
    unfold timers_are, no_timer in *. destruct tm as [timers|]; [|done]. simpl. rewrite Ht. by apply delete_id. }
  intros _ w1 (Hd & Hrow & Hg & Hs & Hp & Ht). apply twp_try with (P := λ _, shows row stream pending).
  { calm_call. eexists. split; [done|]. by split_and!. }
  intros _ w2 Hw2. simpl. eauto.
Qed.

Lemma twp_Enqueue row stream pending id' w :
  shows row stream pending w →
  twp good (Enqueue id') (λ r w', r = Ok () ∧ shows row (stream ++ [Some id']) pending w') w.
Proof.
  intros (Hd & Hrow & Hg & Hs & Hp & Ht). calm_call. simpl. split; [done|]. split_and!; try done. simpl.
  by rewrite fmap_app, Hs.
Qed.

(** A new instance of the definition [did], as [CreateInstance] returns it, and its row. *)
Definition created (did : string) (d : Definition_) l : Prop :=
  i_ID l ≠ "" ∧ i_ID l ≠ "<nil>" ∧ i_TenantID l = d_TenantID d ∧ i_DefinitionID l = did ∧
  i_Status l = InstancePending ∧ i_State l = with_StartedAt NewRuntimeState (rs_StartedAt (i_State l)).
Definition created_row l (input : gomap value) : InstanceRow :=
  mkRow (mkInstance (i_ID l) (i_TenantID l) (i_DefinitionID l) (i_DefinitionVersion l) (i_Status l)
    (reload_obj input) None (reload (i_State l)) (i_Version l) (i_CreatedAt l) (i_UpdatedAt l)) None None.

Lemma twp_create tenant did d input w :
  db_definitions (w_repo w) = defs → defs !! did = Some d → d_TenantID d = tenant_or_default tenant →
  json_ok (VObj input) = true →
  twp good (call (ERepo (OpCreateInstance tenant (scan_definition did d) input))) (λ r w', ∃ l, r = Ok l ∧
    created did d l ∧ db_definitions (w_repo w') = defs ∧ w_redis w' = w_redis w ∧
    db_timers (w_repo w') = db_timers (w_repo w) ∧
    db_instances (w_repo w') !! i_ID l = Some (created_row l input)) w.
Proof.
  intros Hd Hdid Ht Hj. intros c (Hfault & _ & Hu & Hu' & _ & Hfresh)%good_calm.
  cbn [handle repo_exec postgres_repository]. rewrite Hfault. cbn [with_fault].
  unfold CreateInstance. cbv zeta. rewrite Hj. cbn [negb]. rewrite decide_False.
  - eexists. split; [reflexivity|]. simpl. rewrite lookup_insert_eq. unfold created. by split_and!.
  - rewrite Hfresh. intros [[? ?]|Hfk]; [done|]. apply Hfk. exists d. simpl. by rewrite Hd.
Qed.

Lemma twp_ctx w : twp good (call ECtxErr) (λ r w', r = None ∧ w' = w) w.
Proof. by calm_call. Qed.

Lemma twp_ack row stream m consumer now w :
  shows row stream [mkPending m consumer now] w →
  twp good (ack (msg_ID m)) (λ _ w', shows row stream [] w') w.
Proof.
  intros (Hd & Hrow & Hg & Hs & Hp & Ht). calm_call. simpl. split_and!; try done. simpl. rewrite Hp, filter_cons.
  rewrite decide_False by naive_solver. done.
Qed.
End calm.

(** Introduces the answer of a call that only reads the environment. *)
Ltac calm_read := let c := fresh "c" in intros c _; cbn [handle].
