(* ===== verification/Validator.v ===== *)
(** * internal/dsl/validator.go: checking a definition

    [Validate] checks the shape of a definition, the configuration of each step, the
    references between steps and the absence of cycles in the normal graph.  The
    package has its own copies of the branch collection of machine.go.  The argument
    [o] is the order of the loop over the map of step identifiers. *)

From S2P Require Import Prelude GoNum GoString GoTime Workflow Accessors Machine Externals Effects Security.

Record Validator := mkValidator { v_allowPrivateHTTP : bool }.
Definition NewValidator : Validator := mkValidator false.
Definition NewValidatorWithOptions (allowPrivateHTTP : bool) : Validator := mkValidator allowPrivateHTTP.

(** ** References *)

(** [if x, ok := stringValue(config, key); ok && x != ""] *)
Definition ref_of (config : gomap value) (key : string) : list string :=
  match stringValue config key with
  | Some ref => if decide (ref = "") then [] else [ref]
  | None => []
  end.

Definition explicitRefs (step : Step) : list string :=
  ref_of (step_Config step) "next" ++
  (if decide (step_Type step = StepCondition) then
     ref_of (step_Config step) "then" ++ ref_of (step_Config step) "else"
   else if decide (step_Type step = StepFork) then
     default [] (stringSliceValue (step_Config step) "branches") ++ ref_of (step_Config step) "join"
   else []).

(** ** The copies of the branch collection *)
Module Dsl.
Definition firstJoinAfter (d : DefinitionDSL) (stepID : string) : string :=
  firstJoinAfter_loop (dsl_Steps d) false stepID.

Fixpoint collectBranchStep (fuel : nat) (d : DefinitionDSL) (stepID joinStepID : string)
    (out seen : gset string) : option (gset string * gset string) :=
  match fuel with
  | O => None
  | S fuel =>
      if decide (stepID = "" ∨ stepID = joinStepID) then Some (out, seen)
      else if decide (stepID ∈ seen) then Some (out, seen)
      else
        let seen := {[stepID]} ∪ seen in
        match StepByID d stepID with
        | None => Some (out, seen)
        | Some step =>
            foldl (fun acc next =>
                     '(out, seen) ← acc; collectBranchStep fuel d next joinStepID out seen)
                  (Some ({[stepID]} ∪ out, seen))
                  (ref_of (step_Config step) "next" ++
                   if decide (step_Type step = StepCondition)
                   then ref_of (step_Config step) "then" ++ ref_of (step_Config step) "else" else [])
        end
  end.

Definition fork_join (d : DefinitionDSL) (step : Step) : string :=
  let joinStepID := default "" (stringValue (step_Config step) "join") in
  if decide (joinStepID = "") then firstJoinAfter d (step_ID step) else joinStepID.

Definition collectForkBranchSteps (d : DefinitionDSL) : gset string :=
  foldl (fun out step =>
    if decide (step_Type step ≠ StepFork) then out
    else match stringSliceValue (step_Config step) "branches" with
         | None => out
         | Some branches =>
             foldl (fun out branch =>
               match collectBranchStep (branch_fuel d) d branch (fork_join d step) out ∅ with
               | Some (out, _) => out
               | None => out
               end) out branches
         end) ∅ (dsl_Steps d).
End Dsl.

(** ** Cycles *)

Definition append_edges (id : string) (targets : list string) (edges : gmap string (list string))
    : gmap string (list string) :=
  if decide (targets = []) then edges else <[id := default [] (edges !! id) ++ targets]> edges.

Definition on_failure_refs (step : Step) : list string :=
  if decide (step_OnFailure step = "") then [] else [step_OnFailure step].

Fixpoint add_normal_edges (normalSteps : list Step) (edges : gmap string (list string)) : gmap string (list string) :=
  match normalSteps with
  | [] => edges
  | step :: rest =>
      let following := match rest with next :: _ => [step_ID next] | [] => [] end in
      add_normal_edges rest
        (append_edges (step_ID step) (following ++ explicitRefs step ++ on_failure_refs step) edges)
  end.

Definition normal_steps (d : DefinitionDSL) : list Step :=
  filter (fun step => step_ID step ∉ CompensationRefs d ∧ step_ID step ∉ Dsl.collectForkBranchSteps d)
    (dsl_Steps d).

Definition graph (d : DefinitionDSL) : gmap string (list string) :=
  foldl (fun edges step =>
    if decide (step_OnFailure step = "") then edges
    else <[step_OnFailure step := default [] (edges !! step_OnFailure step)]> edges)
    (add_normal_edges (normal_steps d) ∅) (dsl_Steps d).

(** The loop [for _, next := range edges[id]] of the closure [visit]. *)
Definition dfs_state : Type := gset string * gset string.
Fixpoint visit_nexts (visit : string → gset string → gset string → option (res dfs_state))
    (nexts : list string) (visiting visited : gset string) : option (res dfs_state) :=
  match nexts with
  | [] => Some (Ok (visiting, visited))
  | next :: nexts =>
      match visit next visiting visited with
      | Some (Ok (visiting, visited)) => visit_nexts visit nexts visiting visited
      | r => r
      end
  end.

(** The closure [visit]; [visiting] and [visited] are the two maps.  The nodes on the
    path that have successors are distinct, so their number plus two is enough fuel. *)
Fixpoint visit (fuel : nat) (edges : gmap string (list string)) (id : string)
    (visiting visited : gset string) : option (res dfs_state) :=
  match fuel with
  | O => None
  | S fuel =>
      if decide (id ∈ visiting) then Some (Err (ErrText ("cycle detected at " +:+ go_quote id)))
      else if decide (id ∈ visited) then Some (Ok (visiting, visited))
      else
        match visit_nexts (visit fuel edges) (default [] (edges !! id)) ({[id]} ∪ visiting) visited with
        | Some (Ok (visiting, visited)) => Some (Ok (visiting ∖ {[id]}, {[id]} ∪ visited))
        | r => r
        end
  end.

Definition visit_fuel (edges : gmap string (list string)) : nat := size edges + 2.

(** The loop over the identifiers. *)
Fixpoint visit_ids (edges : gmap string (list string)) (ids : list string) (visiting visited : gset string)
    : option (res ()) :=
  match ids with
  | [] => Some (Ok ())
  | id :: ids =>
      match visit (visit_fuel edges) edges id visiting visited with
      | Some (Ok (visiting, visited)) => visit_ids edges ids visiting visited
      | Some (Err e) => Some (Err e)
      | None => None
      end
  end.

(** The keys of a set of identifiers in the order of a [range] loop. *)
Definition range_keys (o : list string) (ids : gset string) : list string :=
  (range_order o (set_to_map (fun id => (id, ())) ids : gmap string ())).*1.

Definition validateAcyclic (o : list string) (d : DefinitionDSL) (ids : gset string) : option (res ()) :=
  visit_ids (graph d) (range_keys o ids) ∅ ∅.

(** ** Steps *)

Definition invalid {A} (text : string) : res A := Err (ErrText text).
Definition blank (s : string) : bool := bool_decide (trim_space s = "").

Definition validate_retry (r : RetryPolicy) : res () :=
  if decide (rp_MaxRetries r < 0)%Z then invalid "retry.max_retries must be >= 0"
  else
    let interval name text :=
      if decide (text = "") then Ok ()
      else match parse_duration text with
           | Err e => Err (ErrWrap ("parse retry." +:+ name) e)
           | Ok d => if decide (d ≤ 0)%Z then invalid ("retry." +:+ name +:+ " must be positive") else Ok ()
           end in
    _ ← interval "initial_interval" (rp_InitialInterval r);
    _ ← interval "max_interval" (rp_MaxInterval r);
    if f64_ltb (rp_Multiplier r) (f64_of_Z 0) then invalid "retry.multiplier must be >= 0" else Ok ().

(** The first branch named twice. *)
Fixpoint duplicated_branch (seen : list string) (branches : list string) : option string :=
  match branches with
  | [] => None
  | branch :: branches =>
      if decide (branch ∈ seen) then Some branch else duplicated_branch (branch :: seen) branches
  end.

Section validator.
Context `{Externals}.

Definition isHTTPMethod (method : string) : bool :=
  bool_decide (to_upper method ∈ ["GET"; "POST"; "PUT"; "PATCH"; "DELETE"; "HEAD"]).

Definition defaultExprEnv : gomap value :=
  obj_map [("input", VObj (Some ∅)); ("steps", VObj (Some ∅)); ("state", VObj (Some ∅))].

Definition validate_http (v : Validator) (config : gomap value) : res () :=
  match stringValue config "url" with
  | Some rawURL =>
      if blank rawURL then invalid "http_request requires config.url"
      else
        match ValidateHTTPURL rawURL (v_allowPrivateHTTP v) with
        | Err e => Err (ErrWrap "validate http_request url" e)
        | Ok _ =>
            match stringValue config "method" with
            | Some method =>
                if blank method then invalid "http_request requires config.method"
                else if negb (isHTTPMethod method) then invalid ("unsupported http method " +:+ go_quote method)
                else
                  match firstString config ["timeout"] with
                  | None => Ok ()
                  | Some timeout =>
                      match parse_duration timeout with
                      | Err e => Err (ErrWrap "parse http_request timeout" e)
                      | Ok parsed =>
                          if decide (parsed ≤ 0 ∨ 15 * Second < parsed)%Z
                          then invalid "http_request timeout must be between 1ns and 15s" else Ok ()
                      end
                  end
            | None => invalid "http_request requires config.method"
            end
        end
  | None => invalid "http_request requires config.url"
  end.

(** A required expression that must compile. *)
Definition validate_expr (missing what : string) (expression : option string) : res () :=
  match expression with
  | Some text =>
      if blank text then invalid missing
      else match expr_compile text defaultExprEnv with
           | Err e => Err (ErrWrap ("compile " +:+ what +:+ " expression") e)
           | Ok _ => Ok ()
           end
  | None => invalid missing
  end.

Definition validate_delay (config : gomap value) : res () :=
  match firstString config ["duration"; "for"] with
  | Some duration =>
      if blank duration then invalid "delay requires config.duration"
      else match parse_duration duration with
           | Err e => Err (ErrWrap "parse delay duration" e)
           | Ok _ => Ok ()
           end
  | None => invalid "delay requires config.duration"
  end.

Definition validate_fork (config : gomap value) : res () :=
  match stringSliceValue config "branches" with
  | None | Some [] => invalid "fork requires config.branches"
  | Some branches =>
      match duplicated_branch [] branches with
      | Some branch => invalid ("fork branch " +:+ go_quote branch +:+ " is duplicated")
      | None => Ok ()
      end
  end.

(** A join step returns before its retry policy is looked at. *)
Definition validateStep (v : Validator) (step : Step) : res () :=
  let config := step_Config step in
  let retry := match step_Retry step with Some r => validate_retry r | None => Ok () end in
  if decide (step_Type step = StepHTTPRequest) then _ ← validate_http v config; retry
  else if decide (step_Type step = StepTransform) then
    _ ← validate_expr "transform requires config.expr or config.expression" "transform"
          (firstString config ["expr"; "expression"]); retry
  else if decide (step_Type step = StepDelay) then _ ← validate_delay config; retry
  else if decide (step_Type step = StepCondition) then
    _ ← validate_expr "condition requires config.if" "condition" (stringValue config "if"); retry
  else if decide (step_Type step = StepFork) then _ ← validate_fork config; retry
  else if decide (step_Type step = StepJoin) then Ok ()
  else invalid ("unsupported step type " +:+ go_quote (step_Type step)).

(** ** Definitions *)

(** The first loop: identifiers and steps; returns the set of identifiers. *)
Fixpoint validate_ids (v : Validator) (i : Z) (steps : list Step) (ids : gset string) : res (gset string) :=
  match steps with
  | [] => Ok ids
  | step :: steps =>
      if blank (step_ID step)
      then invalid ("validate workflow: step at index " +:+ dec i +:+ " has empty id")
      else if decide (step_ID step ∈ ids)
      then invalid ("validate workflow: duplicate step id " +:+ go_quote (step_ID step))
      else
        _ ← wrap_err ("validate step " +:+ go_quote (step_ID step)) (validateStep v step);
        validate_ids v (i + 1)%Z steps ({[step_ID step]} ∪ ids)
  end.

Fixpoint validate_refs (step : Step) (refs : list string) (ids : gset string) : res () :=
  match refs with
  | [] => Ok ()
  | ref :: refs =>
      if decide (ref ∈ ids) then validate_refs step refs ids
      else invalid ("validate workflow: step " +:+ go_quote (step_ID step) +:+
                    " references unknown step " +:+ go_quote ref)
  end.

(** The second loop: references. *)
Fixpoint validate_links (d : DefinitionDSL) (steps : list Step) (ids : gset string) : res () :=
  match steps with
  | [] => Ok ()
  | step :: steps =>
      if decide (step_OnFailure step ≠ "" ∧ step_OnFailure step ∉ ids)
      then invalid ("validate workflow: step " +:+ go_quote (step_ID step) +:+
                    " on_failure references unknown step " +:+ go_quote (step_OnFailure step))
      else if decide (step_Type step = StepFork ∧ Dsl.fork_join d step = "")
      then invalid ("validate workflow: fork step " +:+ go_quote (step_ID step) +:+
                    " requires config.join or a later join step")
      else
        _ ← validate_refs step (explicitRefs step) ids;
        validate_links d steps ids
  end.

(** [ctxErr] is [ctx.Err()].  [None] would be a cycle check that did not end. *)
Definition Validate (o : list string) (ctxErr : option goerr) (v : Validator) (d : DefinitionDSL) : option (res ()) :=
  match ctxErr with
  | Some e => Some (Err (ErrWrap "validate workflow context" e))
  | None =>
      if blank (dsl_Name d) then Some (invalid "validate workflow: name is required")
      else if decide (dsl_Version d < 1)%Z then Some (invalid "validate workflow: version must be >= 1")
      else if decide (dsl_Steps d = []) then Some (invalid "validate workflow: at least one step is required")
      else
        match validate_ids v 0 (dsl_Steps d) ∅ with
        | Err e => Some (Err e)
        | Ok ids =>
            match validate_links d (dsl_Steps d) ids with
            | Err e => Some (Err e)
            | Ok _ => wrap_err "validate workflow graph" <$> validateAcyclic o d ids
            end
        end
  end.
End validator.
