(* ===== verification/ValidatorProps.v ===== *)
(** * What a validated definition satisfies

    The validator computes the same normal path as the machine, its depth-first search
    decides the absence of cycles in every order of its loops and always ends, and
    [Validate] accepts only definitions that satisfy [well_formed]. *)

From stdpp Require Import relations.
From S2P Require Import Prelude GoNum GoString GoTime Workflow Accessors Machine BranchSteps.
From S2P Require Import MachineFacts Externals Effects Security Validator.

(** ** The two copies of the branch collection *)

Lemma ref_of_configString config key :
  ref_of config key = if decide (configString config key ≠ "") then [configString config key] else [].
Proof.
  unfold ref_of. rewrite configString_stringValue.
  destruct (stringValue config key) as [ref|]; simpl; repeat case_decide; naive_solver.
Qed.

Lemma dsl_branchRefs step :
  ref_of (step_Config step) "next" ++
  (if decide (step_Type step = StepCondition)
   then ref_of (step_Config step) "then" ++ ref_of (step_Config step) "else" else []) = branchRefs step.
Proof. unfold branchRefs. by rewrite !ref_of_configString. Qed.

Lemma foldl_ext_fun {A B} (f g : A → B → A) l a : (∀ a b, f a b = g a b) → foldl f a l = foldl g a l.
Proof. intros Hfg. revert a. induction l as [|b l IH]; intros a; simpl; [done|]. by rewrite Hfg. Qed.

Lemma dsl_collectBranchStep fuel d id join out seen :
  Dsl.collectBranchStep fuel d id join out seen = collectBranchStep fuel d id join out seen.
Proof.
  revert id out seen. induction fuel as [|fuel IH]; intros id out seen; [done|]. simpl.
  do 2 (case_decide; [done|]). destruct (StepByID d id) as [step|]; [|done].
  rewrite dsl_branchRefs. apply foldl_ext_fun. intros [[out' seen']|] next; [apply IH|done].
Qed.

Lemma dsl_fork_join d step : Dsl.fork_join d step = forkJoinID d step.
Proof. unfold Dsl.fork_join, forkJoinID. by rewrite configString_stringValue. Qed.

Lemma dsl_collectForkBranchSteps d : Dsl.collectForkBranchSteps d = collectForkBranchSteps d.
Proof.
  apply foldl_ext_fun. intros out step. case_decide; [done|].
  change (stringSliceValue (step_Config step) "branches") with (configStringSlice (step_Config step) "branches").
  destruct (configStringSlice (step_Config step) "branches") as [branches|]; [|done].
  apply foldl_ext_fun. intros out' b. unfold collectBranch. by rewrite dsl_fork_join, dsl_collectBranchStep.
Qed.

(** ** The depth-first search *)

Lemma tc_inv {A} (R : relation A) x z : tc R x z → R x z ∨ ∃ y, R x y ∧ tc R y z.
Proof. destruct 1; eauto. Qed.

Section dfs.
Variable edges : gmap string (list string).

Definition edge (a b : string) : Prop := b ∈ default [] (edges !! a).
(** A cycle can be reached from [a]. *)
Definition leads_to_cycle (a : string) : Prop := ∃ b, rtc edge a b ∧ tc edge b b.

Lemma edge_dom a b : edge a b → a ∈ dom edges.
Proof. unfold edge. rewrite elem_of_dom. destruct (edges !! a); [done|]. simpl. set_solver. Qed.

(** A node leads to a cycle only through a successor. *)
Lemma leads_to_cycle_step a : leads_to_cycle a → ∃ c, edge a c ∧ leads_to_cycle c.
Proof.
  intros (b & Hab & Hb). apply rtc_inv in Hab as [<-|(c & Hac & Hcb)]; [|by exists c; split; [|exists b]].
  destruct (tc_inv edge a a Hb) as [Haa|(c & Hac & Hca)].
  - exists a. split; [done|]. by exists a.
  - exists c. split; [done|]. exists a. split; [by apply tc_rtc|done].
Qed.

Lemma visit_unfold fuel id visiting visited :
  visit (S fuel) edges id visiting visited =
  if decide (id ∈ visiting) then Some (Err (ErrText ("cycle detected at " +:+ go_quote id)))
  else if decide (id ∈ visited) then Some (Ok (visiting, visited))
  else match visit_nexts (visit fuel edges) (default [] (edges !! id)) ({[id]} ∪ visiting) visited with
       | Some (Ok (visiting, visited)) => Some (Ok (visiting ∖ {[id]}, {[id]} ∪ visited))
       | r => r
       end.
Proof. done. Qed.

(** What a call returns: the search of [id] finished without error, or found a cycle. *)
Definition visit_post (ids : list string) (visiting visited : gset string)
    (r : option (res (gset string * gset string))) : Prop :=
  match r with
  | Some (Ok (visiting', visited')) =>
      visiting' = visiting ∧ visited ⊆ visited' ∧ (∀ id, id ∈ ids → id ∈ visited') ∧
      (∀ id, id ∈ visited' → ¬ leads_to_cycle id)
  | Some (Err _) => ∃ id, id ∈ ids ∧ leads_to_cycle id
  | None => False
  end.

Definition visit_pre (fuel : nat) (visiting visited : gset string) : Prop :=
  visiting ⊆ dom edges ∧ size edges + 2 ≤ fuel + size visiting ∧
  (∀ id, id ∈ visited → ¬ leads_to_cycle id).

Lemma visit_nexts_post fuel nexts visiting visited :
  (∀ id visited, id ∈ nexts → visit_pre fuel visiting visited →
     visit_post [id] visiting visited (visit fuel edges id visiting visited)) →
  visit_pre fuel visiting visited →
  visit_post nexts visiting visited (visit_nexts (visit fuel edges) nexts visiting visited).
Proof.
  revert visited. induction nexts as [|next nexts IH]; intros visited Hvisit Hpre; simpl.
  { destruct Hpre as (_ & _ & ?). split_and!; [done|done|by intros id ?%elem_of_nil|done]. }
  pose proof (Hvisit next visited ltac:(set_solver) Hpre) as Hp.
  destruct (visit fuel edges next visiting visited) as [[[v1 d1]|err]|]; simpl in Hp; [|set_solver|done].
  destruct Hp as (-> & Hsub & Hin & Hgood).
  assert (Hrest : visit_post nexts visiting d1 (visit_nexts (visit fuel edges) nexts visiting d1)).
  { apply IH; [set_solver|]. destruct Hpre as (? & ? & _). by split_and!. }
  destruct (visit_nexts (visit fuel edges) nexts visiting d1) as [[[v2 d2]|err]|]; simpl in Hrest |- *; [|set_solver|done].
  destruct Hrest as (-> & Hsub' & Hin' & Hgood'). split_and!; [done|set_solver| |done].
  intros id [->|?]%elem_of_cons; [|by apply Hin']. apply Hsub', Hin. set_solver.
Qed.

Lemma visit_correct fuel id visiting visited :
  visit_pre fuel visiting visited → (∀ v, v ∈ visiting → tc edge v id) →
  visit_post [id] visiting visited (visit fuel edges id visiting visited).
Proof.
  revert id visiting visited. induction fuel as [|fuel IH]; intros id visiting visited Hpre Hpath.
  { destruct Hpre as (Hdom & Hsize & _). apply subseteq_size in Hdom. rewrite size_dom in Hdom. lia. }
  rewrite visit_unfold. destruct Hpre as (Hdom & Hsize & Hgood).
  case_decide as Hcyc; [by exists id; split; [set_solver|exists id; split; [|apply Hpath]]|].
  case_decide as Hdone; [simpl; split_and!; [done|done|set_solver|done]|].
  set (nexts := default [] (edges !! id)).
  assert (Hedge : ∀ next, next ∈ nexts → edge id next) by done.
  assert (Hnexts : visit_post nexts ({[id]} ∪ visiting) visited (visit_nexts (visit fuel edges) nexts ({[id]} ∪ visiting) visited)).
  { destruct nexts as [|n0 ns] eqn:Hns.
    { simpl. split_and!; [done|done|by intros x ?%elem_of_nil|done]. }
    apply visit_nexts_post.
    - intros next visited' Hin Hpre'. apply IH; [done|]. intros v [->%elem_of_singleton|Hv]%elem_of_union.
      + by apply tc_once, Hedge.
      + eapply tc_r; [by apply Hpath|by apply Hedge].
    - split_and!; [|rewrite size_union by set_solver; rewrite size_singleton; lia|done].
      assert (id ∈ dom edges) by (eapply edge_dom, (Hedge n0); set_solver). set_solver. }
  destruct (visit_nexts (visit fuel edges) nexts ({[id]} ∪ visiting) visited) as [[[v1 d1]|err]|]; simpl in Hnexts |- *; [| |done].
  - destruct Hnexts as (-> & Hsub & Hin & Hgood'). split_and!; [set_solver|set_solver|set_solver|].
    intros x [->%elem_of_singleton|Hx]%elem_of_union; [|by apply Hgood'].
    intros (c & Hc & Hcc)%leads_to_cycle_step. by apply (Hgood' c (Hin c Hc)).
  - destruct Hnexts as (next & Hin & b & Hb & Hbb). exists id. split; [set_solver|].
    exists b. split; [|done]. eapply rtc_l; [by apply Hedge|done].
Qed.

Lemma visit_ids_correct ids visited :
  (∀ id, id ∈ visited → ¬ leads_to_cycle id) →
  ∃ r, visit_ids edges ids ∅ visited = Some r ∧
    (is_ok r = true ↔ ∀ id, id ∈ ids → ¬ leads_to_cycle id).
Proof.
  revert visited. induction ids as [|id ids IH]; intros visited Hgood; simpl.
  { exists (Ok ()). split; [done|]. split; [by intros _ id ?%elem_of_nil|done]. }
  assert (Hp : visit_post [id] ∅ visited (visit (visit_fuel edges) edges id ∅ visited)).
  { apply visit_correct; [|set_solver]. split_and!; [set_solver|unfold visit_fuel; lia|done]. }
  destruct (visit (visit_fuel edges) edges id ∅ visited) as [[[v1 d1]|err]|]; simpl in Hp; [| |done].
  - destruct Hp as (-> & Hsub & Hin & Hgood'). destruct (IH d1 Hgood') as (r & -> & Hr).
    exists r. split; [done|]. rewrite Hr. split; [|set_solver].
    intros Hids x [->|Hx]%elem_of_cons; [|by apply Hids]. apply Hgood', Hin. set_solver.
  - destruct Hp as (x & ->%list_elem_of_singleton & Hx). eexists. split; [done|]. simpl. split; [done|].
    intros Hall. exfalso. apply (Hall id); [set_solver|done].
Qed.
End dfs.

Lemma elem_of_range_keys o ids id : id ∈ range_keys o ids ↔ id ∈ ids.
Proof.
  unfold range_keys. rewrite list_elem_of_fmap. split.
  - intros ([k u] & -> & Hk%elem_of_range_order). by apply lookup_set_to_map in Hk as (? & ? & [= <-]); [|done].
  - intros Hid. exists (id, ()). split; [done|]. apply elem_of_range_order.
    apply lookup_set_to_map; [done|]. by exists id.
Qed.

(** ** Well-formed definitions

    [wf_acyclic] is about the graph of the normal path, the only one that the validator
    searches: a cycle inside of a branch of a fork, or through compensations, is accepted
    ([branch_cycle_accepted]). *)

Record well_formed (d : DefinitionDSL) : Prop := {
  wf_name : trim_space (dsl_Name d) ≠ "";
  wf_version : (1 ≤ dsl_Version d)%Z;
  wf_steps : dsl_Steps d ≠ [];
  wf_unique : NoDup (step_ID <$> dsl_Steps d);
  wf_refs : ∀ step ref, step ∈ dsl_Steps d → ref ∈ explicitRefs step → is_Some (StepByID d ref);
  wf_on_failure : ∀ step, step ∈ dsl_Steps d → step_OnFailure step ≠ "" → is_Some (StepByID d (step_OnFailure step));
  wf_fork : ∀ step, step ∈ dsl_Steps d → step_Type step = StepFork →
    forkJoinID d step ≠ "" ∧
    ∃ branches, configStringSlice (step_Config step) "branches" = Some branches ∧ branches ≠ [] ∧ NoDup branches;
  wf_acyclic : ∀ id, ¬ tc (edge (graph d)) id id;
}.

Lemma duplicated_branch_None seen branches :
  duplicated_branch seen branches = None → NoDup branches ∧ ∀ b, b ∈ branches → b ∉ seen.
Proof.
  revert seen. induction branches as [|b branches IH]; intros seen; simpl; [split; [constructor|set_solver]|].
  case_decide; [done|]. intros [Hnd Hseen]%IH. split; [constructor; [|done]|]; set_solver.
Qed.

Lemma foldl_dom_edges steps (edges : gmap string (list string)) :
  dom (foldl (λ edges step,
    if decide (step_OnFailure step = "") then edges
    else <[step_OnFailure step := default [] (edges !! step_OnFailure step)]> edges) edges steps) ⊆
  dom edges ∪ list_to_set (step_OnFailure <$> filter (λ s, step_OnFailure s ≠ "") steps).
Proof.
  revert edges. induction steps as [|s steps IH]; intros edges; simpl; [set_solver|].
  etrans; [apply IH|]. rewrite filter_cons. repeat case_decide; simpl; rewrite ?dom_insert_L; set_solver.
Qed.

Lemma add_normal_edges_dom steps edges :
  dom (add_normal_edges steps edges) ⊆ dom edges ∪ list_to_set (step_ID <$> steps).
Proof.
  revert edges. induction steps as [|s steps IH]; intros edges; simpl; [set_solver|].
  etrans; [apply IH|]. unfold append_edges. case_decide; [set_solver|]. rewrite dom_insert_L. set_solver.
Qed.

Section validate.
Context `{Externals}.

Lemma validate_ids_Ok v i steps ids ids' :
  validate_ids v i steps ids = Ok ids' →
  ids' = ids ∪ list_to_set (step_ID <$> steps) ∧ NoDup (step_ID <$> steps) ∧
  (∀ step, step ∈ steps → step_ID step ∉ ids) ∧ Forall (λ step, validateStep v step = Ok ()) steps.
Proof.
  revert i ids. induction steps as [|s steps IH]; intros i ids; simpl.
  { intros [= <-]. split_and!; [set_solver|constructor|set_solver|constructor]. }
  destruct (blank (step_ID s)); [done|]. case_decide as Hs; [done|].
  destruct (validateStep v s) as [[]|] eqn:Hv; simpl; [|done].
  intros (-> & Hnd & Hnew & Hall)%IH. split_and!; [set_solver|..].
  - constructor; [|done]. rewrite list_elem_of_fmap. intros (s' & Heq & Hin). apply (Hnew s' Hin). set_solver.
  - intros s' [->|Hin]%elem_of_cons; [done|]. specialize (Hnew s' Hin). set_solver.
  - by constructor.
Qed.

Lemma validate_refs_Ok step refs ids : validate_refs step refs ids = Ok () → ∀ ref, ref ∈ refs → ref ∈ ids.
Proof.
  induction refs as [|r refs IH]; simpl; [set_solver|]. case_decide; [|done]. set_solver.
Qed.

Lemma validate_links_Ok d steps ids :
  validate_links d steps ids = Ok () →
  ∀ step, step ∈ steps →
    (step_OnFailure step ≠ "" → step_OnFailure step ∈ ids) ∧
    (step_Type step = StepFork → forkJoinID d step ≠ "") ∧
    ∀ ref, ref ∈ explicitRefs step → ref ∈ ids.
Proof.
  induction steps as [|s steps IH]; simpl; [set_solver|].
  case_decide as Hf; [done|]. case_decide as Hj; [done|]. rewrite dsl_fork_join in Hj.
  destruct (validate_refs s (explicitRefs s) ids) as [[]|] eqn:Hr; simpl; [|done].
  intros Hl step [->|Hin]%elem_of_cons; [|by apply IH]. split_and!.
  - intros Hne. destruct (decide (step_OnFailure s ∈ ids)); [done|]. by destruct Hf.
  - intros Ht Heq. by destruct Hj.
  - by apply validate_refs_Ok with s.
Qed.

Lemma validateStep_fork v step :
  validateStep v step = Ok () → step_Type step = StepFork →
  ∃ branches, configStringSlice (step_Config step) "branches" = Some branches ∧ branches ≠ [] ∧ NoDup branches.
Proof.
  unfold validateStep. intros Hv Ht. rewrite Ht in Hv. simpl in Hv. unfold validate_fork in Hv.
  change (configStringSlice (step_Config step) "branches") with (stringSliceValue (step_Config step) "branches").
  destruct (stringSliceValue (step_Config step) "branches") as [[|b bs]|]; [done| |done].
  destruct (duplicated_branch [] (b :: bs)) as [b'|] eqn:Hd; [done|].
  apply duplicated_branch_None in Hd as [Hnd _]. by exists (b :: bs).
Qed.

(** Every cycle goes through identifiers of the definition. *)
Lemma graph_cycle_ids d id :
  (∀ step, step ∈ dsl_Steps d → step_OnFailure step ≠ "" → step_OnFailure step ∈ step_ID <$> dsl_Steps d) →
  tc (edge (graph d)) id id → id ∈ step_ID <$> dsl_Steps d.
Proof.
  intros Hof Hc.
  assert (Hdom : id ∈ dom (graph d)).
  { destruct (tc_inv _ _ _ Hc) as [He|(c & He & _)]; by eapply edge_dom. }
  unfold graph in Hdom. apply foldl_dom_edges in Hdom. rewrite elem_of_union, elem_of_list_to_set in Hdom.
  destruct Hdom as [Hd|Hd].
  - apply add_normal_edges_dom in Hd. rewrite dom_empty_L in Hd.
    assert (Hn : id ∈ step_ID <$> normal_steps d) by set_solver.
    apply list_elem_of_fmap in Hn as (s & -> & Hs). apply list_elem_of_fmap. exists s. split; [done|].
    unfold normal_steps in Hs. apply list_elem_of_filter in Hs. tauto.
  - apply list_elem_of_fmap in Hd as (s & -> & (? & ?)%list_elem_of_filter). by apply Hof.
Qed.

(** The validator and the engine agree on the graph: the validator's copy of the branch
    collection computes the set the machine computes, so the path the validator checks for
    cycles is the path the machine runs. *)
Theorem validator_normal_path d :
  Dsl.collectForkBranchSteps d = collectForkBranchSteps d ∧ normal_steps d = m_normal (NewMachine d).
Proof.
  split; [apply dsl_collectForkBranchSteps|].
  unfold normal_steps, NewMachine. simpl. by rewrite dsl_collectForkBranchSteps.
Qed.

(** C31: the cycle check is exact and always ends: for every order of its loop it returns, and
    it reports no error exactly when no cycle of the graph can be reached from the given
    identifiers. *)
Theorem validateAcyclic_exact o d ids :
  ∃ r, validateAcyclic o d ids = Some r ∧
    (is_ok r = true ↔ ∀ id, id ∈ ids → ¬ leads_to_cycle (graph d) id).
Proof.
  destruct (visit_ids_correct (graph d) (range_keys o ids) ∅) as (r & Hr & Hiff); [set_solver|].
  exists r. split; [exact Hr|]. rewrite Hiff. by setoid_rewrite elem_of_range_keys.
Qed.

(** [Validate] returns, and only accepts well-formed definitions. *)
Lemma Validate_spec o ctxErr v d :
  ∃ r, Validate o ctxErr v d = Some r ∧ (r = Ok () → well_formed d).
Proof.
  unfold Validate. destruct ctxErr as [err|]; [by eexists|].
  destruct (blank (dsl_Name d)) eqn:Hname; [by eexists|].
  case_decide as Hver; [by eexists|]. case_decide as Hsteps; [by eexists|].
  destruct (validate_ids v 0 (dsl_Steps d) ∅) as [ids|] eqn:Hids; [|by eexists].
  apply validate_ids_Ok in Hids as (-> & Hnd & _ & Hall).
  destruct (validate_links d (dsl_Steps d) _) as [[]|] eqn:Hlinks; [|by eexists].
  assert (Hmem : ∀ x : string, x ∈ (∅ ∪ list_to_set (step_ID <$> dsl_Steps d) : gset string) ↔ x ∈ step_ID <$> dsl_Steps d)
    by set_solver.
  destruct (visit_ids_correct (graph d) (range_keys o (∅ ∪ list_to_set (step_ID <$> dsl_Steps d))) ∅)
    as (r & Hr & Hiff); [set_solver|].
  unfold validateAcyclic. rewrite Hr. eexists. split; [done|]. destruct r as [[]|]; simpl; [|done]. intros _.
  pose proof (validate_links_Ok _ _ _ Hlinks) as Hl. setoid_rewrite Hmem in Hl.
  constructor.
  - unfold blank in Hname. by apply bool_decide_eq_false in Hname.
  - lia.
  - done.
  - done.
  - intros step ref Hin Href. apply StepByID_is_Some. destruct (Hl step Hin) as (_ & _ & Hr'). by apply Hr'.
  - intros step Hin Hne. apply StepByID_is_Some. by apply (proj1 (Hl step Hin)).
  - intros step Hin Ht. split; [by apply (proj1 (proj2 (Hl step Hin)))|].
    rewrite Forall_forall in Hall. by apply (validateStep_fork v); [apply Hall|].
  - intros id Hc. destruct Hiff as [Hacyc _]. apply (Hacyc eq_refl id).
    + rewrite elem_of_range_keys, Hmem. apply graph_cycle_ids; [|done]. intros step Hin Hne. by apply (proj1 (Hl step Hin)).
    + by exists id.
Qed.
(** C30: [Validate] always returns, and what it accepts is well formed: a name, a positive
    version, distinct step identifiers, every reference and compensation target a step of
    the definition, every fork with distinct branches and a join, and no cycle among the
    normal steps.  Steps that run in a branch of a fork or as a compensation are not part of
    that graph: cycles among them are accepted ([branch_cycle_accepted]). *)
Theorem Validate_sound o ctxErr v d :
  ∃ r, Validate o ctxErr v d = Some r ∧ (r = Ok () → well_formed d).
Proof. apply Validate_spec. Qed.
End validate.

(** ** Cycles the validator does not see *)

(** A fork whose only branch goes back and forth between two steps. *)
Definition branch_loop : DefinitionDSL := mkDSL "loop" 1
  [mkStep "f" StepFork (obj_map [("branches", VArr [VStr "a"]); ("join", VStr "j")]) None "";
   mkStep "a" StepTransform (obj_map [("expr", VStr "1"); ("next", VStr "b")]) None "";
   mkStep "b" StepTransform (obj_map [("expr", VStr "1"); ("next", VStr "a")]) None "";
   mkStep "j" StepJoin (Some ∅) None ""].

Definition loop_fork (current : string) : RuntimeState :=
  with_Forks NewRuntimeState
    (Some {["f" := mkFork "running" "j" [mkBranch "a" current "running" ["a"; "b"] ""]]}).
Definition loop_step (id : string) : Step := default (mkStep "" "" None None "") (StepByID branch_loop id).

(** A compensation that is also the successor of the step it compensates. *)
Definition undo_loop : DefinitionDSL := mkDSL "undo" 1 [
   mkStep "a" StepTransform (obj_map [("expr", VStr "1"); ("next", VStr "c")]) None "c";
   mkStep "c" StepTransform (obj_map [("expr", VStr "1"); ("next", VStr "a")]) None ""].
Definition undo_step (id : string) : Step := default (mkStep "" "" None None "") (StepByID undo_loop id).

Definition no_forks : RuntimeState := with_Forks NewRuntimeState (Some ∅).

(** C40: the cycle check looks at the normal path only: the validator accepts a fork branch
    whose steps name each other as next, and a compensation that is named as the next step
    and leads back; from there the machine alternates between the two steps forever. *)
Theorem branch_cycle_accepted :
  (@Validate toy_externals [] None NewValidator branch_loop = Some (Ok ()) ∧
   (∃ s step, NextAfter [] (NewMachine branch_loop) (loop_step "f") NewRuntimeState None = Done (s, Some step) ∧
      step_ID step = "a") ∧
   NextAfter [] (NewMachine branch_loop) (loop_step "a") (loop_fork "a") None =
     Done (loop_fork "b", Some (loop_step "b")) ∧
   NextAfter [] (NewMachine branch_loop) (loop_step "b") (loop_fork "b") None =
     Done (loop_fork "a", Some (loop_step "a"))) ∧
  @Validate toy_externals [] None NewValidator undo_loop = Some (Ok ()) ∧
  NextAfter [] (NewMachine undo_loop) (undo_step "a") no_forks None = Done (no_forks, Some (undo_step "c")) ∧
  NextAfter [] (NewMachine undo_loop) (undo_step "c") no_forks None = Done (no_forks, Some (undo_step "a")).
Proof.
  split; [|split_and!; vm_compute; reflexivity].
  split; [vm_compute; reflexivity|]. split; [|split; vm_compute; reflexivity].
  eexists _, (loop_step "a"). split; vm_compute; reflexivity.
Qed.
