(* ===== verification/ExecutorProps.v ===== *)
(** * What the executor returns

    [yields Q p]: whatever its calls return, [p] returns only values satisfying [Q].
    A step that succeeds returns a result of the type of its step: the fields of
    [output_schema], and a next step only among the references of the step. *)

From S2P Require Import Prelude GoNum GoString GoTime Workflow Accessors Machine Json Store.
From S2P Require Import Externals Effects PostgresLaws StoreProps Security Timer Worker Engine.
From S2P Require Import Validator ValidatorProps.

Fixpoint yields {A} (Q : A → Prop) (p : prog A) : Prop :=
  match p with
  | PRet a => Q a
  | PPanic => True
  | PCall e k => ∀ r, yields Q (k r)
  end.

Lemma yields_bind {A B} (Q : B → Prop) (p : prog A) (f : A → prog B) :
  yields (λ a, yields Q (f a)) p → yields Q (p ≫= f).
Proof. induction p as [a| |R e k IH]; simpl; [done|done|]. intros Hk r. by apply IH. Qed.

Lemma yields_mono {A} (Q Q' : A → Prop) (p : prog A) : (∀ a, Q a → Q' a) → yields Q p → yields Q' p.
Proof. intros HQ. induction p as [a| |R e k IH]; simpl; [apply HQ|done|]. intros Hk r. by apply IH. Qed.

Lemma yields_any {A} (Q : A → Prop) (p : prog A) : (∀ a, Q a) → yields Q p.
Proof. intros HQ. induction p as [a| |R e k IH]; simpl; [apply HQ|done|done]. Qed.

(** Whatever the first program returns. *)
Lemma yields_after {A B} (Q : B → Prop) (p : prog A) (f : A → prog B) :
  (∀ a, yields Q (f a)) → yields Q (p ≫= f).
Proof. intros Hf. by apply yields_bind, yields_any. Qed.

Lemma yields_run {S} `{Repository S} {A} (Q : A → Prop) (p : prog A) cs (w : World S) a w' cs' :
  yields Q p → run p cs w = (Returned a, w', cs') → Q a.
Proof.
  revert cs w. induction p as [b| |R e k IH]; intros cs w Hy; simpl; [by intros [= <- <- <-]|done|].
  destruct cs as [|c cs]; [done|]. destruct (handle e c w) as [r w1]. by apply IH.
Qed.

(** ** Types of outputs *)

Inductive vtype := TAny | TBool | TInt | TStr | TStrs | TObj.

Definition of_type (t : vtype) (v : value) : bool :=
  match t, v with
  | TAny, _ => true
  | TBool, VBool _ => true
  | TInt, VInt _ => true
  | TStr, VStr _ => true
  | TStrs, VStrs _ => true
  | TObj, VObj _ => true
  | _, _ => false
  end.

(** The fields that the output of a successful step has. *)
Definition transform_key (step : Step) : string :=
  let key := default "" (firstString (step_Config step) ["result_key"]) in
  if decide (key = "") then "result" else key.

Definition type_schema (type key : string) : list (string * vtype) :=
  if decide (type = StepHTTPRequest) then [("status_code", TInt); ("headers", TObj); ("body", TAny)]
  else if decide (type = StepTransform) then [(key, TAny)]
  else if decide (type = StepDelay) then [("fired_at", TStr)]
  else if decide (type = StepCondition) then [("matched", TBool)]
  else if decide (type = StepFork) then [("branches", TStrs); ("next_step", TStr)]
  else if decide (type = StepJoin) then [("joined", TBool)]
  else [].
Definition output_schema (step : Step) : list (string * vtype) :=
  type_schema (step_Type step) (transform_key step).

Definition has_fields (schema : list (string * vtype)) (output : gomap value) : Prop :=
  ∀ k t, (k, t) ∈ schema → ∃ v, gm_get output k = Some v ∧ of_type t v = true.

Lemma schema_of step type : step_Type step = type → output_schema step = type_schema type (transform_key step).
Proof. by unfold output_schema; intros ->. Qed.

(** The step types that may choose their successor. *)
Definition chooses_next (step : Step) : Prop :=
  step_Type step = StepCondition ∨ step_Type step = StepFork ∨ step_Type step = StepJoin.

Record result_typed (step : Step) (r : Result) : Prop := {
  rt_output : has_fields (output_schema step) (r_Output r);
  rt_next n : r_NextStepID r = Some n → n ∈ explicitRefs step ∧ chooses_next step;
}.

(** A result without error is a typed result. *)
Definition exec_typed (step : Step) (r : exec_result) : Prop :=
  r.2 = None → ∃ res, r.1 = Some res ∧ result_typed step res.

Lemma exec_typed_err step res e : exec_typed step (res, Some e).
Proof. by intros [=]. Qed.

Lemma exec_typed_returns step output body next :
  has_fields (output_schema step) output →
  (∀ n, next = Some n → n ∈ explicitRefs step ∧ chooses_next step) →
  exec_typed step (returns output body next).
Proof. intros Ho Hn _. eexists. split; [done|]. by split. Qed.

Lemma has_fields_obj schema kvs :
  Forall (λ kt, ∃ v, (list_to_map kvs : gmap string value) !! kt.1 = Some v ∧ of_type kt.2 v = true) schema →
  has_fields schema (obj_map kvs).
Proof. intros Hall k t Hin. rewrite Forall_forall in Hall. apply (Hall _ Hin). Qed.

Lemma ref_of_Some config key n : stringValue config key = Some n → n ≠ "" → n ∈ ref_of config key.
Proof. intros Hn Hne. unfold ref_of. rewrite Hn. rewrite decide_False by done. set_solver. Qed.

(** The fields of a literal object. *)
Ltac literal_fields :=
  cbv [type_schema StepHTTPRequest StepTransform StepDelay StepCondition StepFork StepJoin]; cbn [decide]; apply has_fields_obj;
  repeat (apply List.Forall_cons;
    [eexists; split; [cbn; first [apply lookup_insert_eq | rewrite lookup_insert_ne by done; apply lookup_insert_eq
       | rewrite !lookup_insert_ne by done; apply lookup_insert_eq]|done]|]);
  apply List.Forall_nil.

(** Follows a program that mostly fails. *)
Ltac yields_step :=
  match goal with
  | |- yields _ (try_err _ _ _) => apply yields_after; intros [?|?]
  | |- yields _ (mbind _ _) => apply yields_after; intros ?
  | |- yields _ (mret _) => cbn [yields mret prog_mret]
  | |- yields _ (match ?x with _ => _ end) => destruct x eqn:?
  | |- yields _ (let _ := _ in _) => cbv zeta
  | |- exec_typed _ (fails _) => apply exec_typed_err
  | |- exec_typed _ (waiting_result _) => apply exec_typed_err
  | |- exec_typed _ (_, Some _) => apply exec_typed_err
  end.
Ltac yields_walk := repeat yields_step.

Section executor.
Context `{Externals}.

Lemma http_result_typed e step resp :
  step_Type step = StepHTTPRequest → exec_typed step (http_result e resp).
Proof.
  intros Ht. unfold http_result. destruct (resp_Body resp) as [body|err]; [|apply exec_typed_err].
  cbv zeta. case_decide; [apply exec_typed_err|]. destruct (decide (_ ∨ _)); [apply exec_typed_err|].
  apply exec_typed_returns; [|done]. rewrite (schema_of _ _ Ht). literal_fields.
Qed.

Lemma http_typed e step env :
  step_Type step = StepHTTPRequest → yields (exec_typed step) (executeHTTPRequest e step env).
Proof. intros Ht. unfold executeHTTPRequest. yields_walk. by apply http_result_typed. Qed.

Lemma transform_typed step env :
  step_Type step = StepTransform → yields (exec_typed step) (executeTransform step env).
Proof.
  intros Ht. unfold executeTransform. yields_walk. apply exec_typed_returns; [|done].
  rewrite (schema_of _ _ Ht). apply has_fields_obj. apply List.Forall_cons; [|apply List.Forall_nil]. eexists.
  split; [|done]. simpl. apply lookup_insert_eq.
Qed.

Lemma condition_result_typed step matched :
  step_Type step = StepCondition → exec_typed step (condition_result step matched).
Proof.
  intros Ht. unfold condition_result. cbv zeta. apply exec_typed_returns.
  - rewrite (schema_of _ _ Ht). literal_fields.
  - intros n. destruct (stringValue _ _) as [target|] eqn:Htarget; [|done]. case_decide as Hne; [done|].
    intros [= <-]. split; [|by left]. unfold explicitRefs. rewrite Ht. apply elem_of_app. right.
    rewrite decide_True by done. apply elem_of_app. destruct matched; [left|right]; by apply ref_of_Some.
Qed.

Lemma condition_typed step env :
  step_Type step = StepCondition → yields (exec_typed step) (executeCondition step env).
Proof. intros Ht. unfold executeCondition. yields_walk. by apply condition_result_typed. Qed.

Lemma fired_typed step now : step_Type step = StepDelay → exec_typed step (fired_result now).
Proof.
  intros Ht. apply exec_typed_returns; [|done]. rewrite (schema_of _ _ Ht). literal_fields.
Qed.

Lemma delay_typed instance step :
  step_Type step = StepDelay → yields (exec_typed step) (executeDelay instance step).
Proof.
  intros Ht. unfold executeDelay, unless_done. yields_walk; by apply fired_typed.
Qed.

Lemma fork_typed step : step_Type step = StepFork → yields (exec_typed step) (executeFork step).
Proof.
  intros Ht. unfold executeFork, unless_done. yields_walk. apply exec_typed_returns.
  - rewrite (schema_of _ _ Ht). literal_fields.
  - intros n [= <-]. split; [|by right; left]. unfold explicitRefs. rewrite Ht. apply elem_of_app. right.
    rewrite decide_False by done. rewrite decide_True by done.
    match goal with Hb : stringSliceValue _ _ = Some _ |- _ => rewrite Hb end. simpl. set_solver.
Qed.

Lemma join_typed step : step_Type step = StepJoin → yields (exec_typed step) (executeJoin step).
Proof.
  intros Ht. unfold executeJoin, unless_done. apply yields_after. intros [err|]; [apply exec_typed_err|].
  cbv zeta. cbn [yields mret prog_mret]. apply exec_typed_returns.
  - rewrite (schema_of _ _ Ht). literal_fields.
  - intros n. destruct (stringValue _ _) as [next|] eqn:Hn; [|done]. case_decide as Hne; [done|].
    intros [= <-]. split; [|by right; right]. unfold explicitRefs. apply elem_of_app. left. by apply ref_of_Some.
Qed.

(** The dispatch of [Execute]. *)
Lemma Execute_yields e instance step : yields (exec_typed step) (Execute e instance step).
Proof.
  unfold Execute. cbv zeta.
  case_decide; [by apply http_typed|]. case_decide; [by apply transform_typed|].
  case_decide; [by apply delay_typed|]. case_decide; [by apply condition_typed|].
  case_decide; [by apply fork_typed|]. case_decide; [by apply join_typed|]. apply exec_typed_err.
Qed.

Lemma executeWithSpan_yields `{GoArch} e instance step previous :
  yields (exec_typed step) (executeWithSpan e instance step previous).
Proof.
  unfold executeWithSpan. case_decide as Hd; [|apply Execute_yields]. destruct Hd as [Ht _].
  yields_walk; by apply fired_typed.
Qed.

(** C27: typed steps: whatever the network, the clock and the expressions do, a step that ends
    without error returns a result, its output has the fields of the type of the step (the
    status code is an integer, a condition's [matched] a boolean, and so on), and the
    successor it names is one of the references of the step, which only conditions, forks
    and joins name. *)
Theorem Execute_typed {S} `{Repository S} e instance step cs (w : World S) r w' cs' :
  run (Execute e instance step) cs w = (Returned r, w', cs') →
  r.2 = None →
  ∃ res, r.1 = Some res ∧
    (∀ k t, (k, t) ∈ output_schema step → ∃ v, gm_get (r_Output res) k = Some v ∧ of_type t v = true) ∧
    (∀ n, r_NextStepID res = Some n → n ∈ explicitRefs step ∧ chooses_next step).
Proof.
  intros Hrun Herr. pose proof (yields_run _ _ _ _ _ _ _ (Execute_yields e instance step) Hrun) as Hty.
  destruct (Hty Herr) as (res & Hres & [Ho Hn]). by exists res.
Qed.
End executor.

(** ** Witness: a fork with two branches *)

#[local] Existing Instance toy_externals.

Definition two_branches : Step :=
  mkStep "split" StepFork (obj_map [("branches", VArr [VStr "left"; VStr "right"])]) None "".
Definition quiet_choice : choice :=
  mkChoice NoFault (mkTick 100 100 "u1" [] [] []) 100 "" 1 [] None (Err (ErrText "")) (Err (ErrText "")).
Definition two_branches_result : Result :=
  mkResult (obj_map [("branches", VStrs ["left"; "right"]); ("next_step", VStr "left")])
    (VObj (obj_map [("branches", VStrs ["left"; "right"]); ("next_step", VStr "left")])) (Some "left") None.

Lemma Execute_typed_witness :
  "left" ∈ explicitRefs two_branches ∧ chooses_next two_branches.
Proof.
  destruct (Execute_typed (NewExecutor None) order_instance two_branches [quiet_choice]
    (mkWorld order_db empty_redis) (Some two_branches_result, None) (mkWorld order_db empty_redis) [])
    as (res & Hres & _ & Hnext).
  - vm_compute. reflexivity.
  - reflexivity.
  - apply (Hnext "left"). change (Some two_branches_result = Some res) in Hres. by injection Hres as <-.
Defined.
