(* ===== verification/Lifecycle.v ===== *)
(** * The lifecycle of an instance: an abstract specification of the engine

    [life m a b]: an instance of a workflow with the machine [m] may go from the
    abstract state [a] to [b] in one durable step.  The abstract state [abs i] of a row
    keeps the status, the current step, the completed steps, the compensation queue, the
    forks, and the status and attempt of each step; versions, leases, timers, messages,
    outputs, errors, idempotency keys and the JSON encoding are gone.  [EngineSafe]
    proves that every write of the engine is such a step; what is proved here about
    [life] then holds of every run of the system. *)

From S2P Require Import Prelude GoNum GoTime Workflow Accessors Machine BranchSteps MachineFacts.
From S2P Require Import Json Externals Store Effects Timer Worker Engine Validator.

#[local] Open Scope Z_scope.

Record astate := mkA {
  a_status : string;
  a_current : option string;
  a_done : list string;
  a_queue : list string;
  a_forks : gmap string ForkState;
  a_steps : gmap string (string * Z);   (* status and attempt *)
}.

Definition forks_of (s : RuntimeState) : gmap string ForkState := default ∅ (rs_Forks s).
Definition steps_of (s : RuntimeState) : gmap string (string * Z) :=
  (λ st, (ss_Status st, ss_Attempt st)) <$> default ∅ (rs_Steps s).

Definition abs (i : Instance_) : astate :=
  mkA (i_Status i) (i_CurrentStepID i) (rs_Completed (i_State i)) (rs_CompensationQueue (i_State i))
    (forks_of (i_State i)) (steps_of (i_State i)).

(** A new instance. *)
Definition initial : astate := mkA InstancePending None [] [] ∅ ∅.

(** ** What the machine computes from the forks alone *)

Definition fork_state (forks : gmap string ForkState) : RuntimeState :=
  with_Forks NewRuntimeState (Some forks).

Definition next_after (o : list string) (m : Machine) (step : Step) (forks : gmap string ForkState)
    (result : option Result) : go (gmap string ForkState * option Step) :=
  '(state, next) ← NextAfter o m step (fork_state forks) result; mret (forks_of state, next).

Definition branch_failed (o : list string) (forks : gmap string ForkState) (stepID : string)
    (err : option goerr) : go (gmap string ForkState) :=
  state ← MarkBranchFailed o (fork_state forks) stepID err; mret (forks_of state).

Definition undo_queue (m : Machine) (failed : string) (completed : list string) : list string :=
  CompensationQueue m failed (with_Completed NewRuntimeState completed).

(** ** The steps of an instance *)

Section life.
Variable m : Machine.

Definition a_live (a : astate) : Prop := ¬ terminal (a_status a).
Definition a_compensating (a : astate) : Prop := a_status a = InstanceCompensating ∨ a_queue a ≠ [].
Definition attempt_of (a : astate) (id : string) : Z := default 0 (snd <$> a_steps a !! id).

(** The step is the current one and runs its [n]-th attempt. *)
Definition at_work (a : astate) (step : Step) (n : Z) : Prop :=
  a_current a = Some (step_ID step) ∧ step ∈ dsl_Steps (m_definition m) ∧
  a_steps a !! step_ID step = Some (StepRunning, n).

(** The result of a step names at most one of the references of the step. *)
Definition names_reference (step : Step) (result : option Result) : Prop :=
  ∀ r n, result = Some r → r_NextStepID r = Some n → n ∈ explicitRefs step.

(** Which step comes when a worker picks the instance up, and the forks then. *)
Inductive resume (a : astate) : gmap string ForkState → option Step → Prop :=
| resume_first : a_current a = None → resume a (a_forks a) (head (m_normal m))
| resume_unknown id :
    a_current a = Some id → StepByID (m_definition m) id = None → resume a (a_forks a) None
| resume_current id step :
    a_current a = Some id → StepByID (m_definition m) id = Some step →
    fst <$> a_steps a !! id ≠ Some StepCompleted → resume a (a_forks a) (Some step)
| resume_next id step n o result forks forks' next :
    a_current a = Some id → StepByID (m_definition m) id = Some step →
    a_steps a !! id = Some (StepCompleted, n) →
    next_after o m step (a_forks a) result = Done (forks, next) →
    forks' = forks ∨ (a_forks a = ∅ ∧ forks' = ∅) →
    resume a forks' next.

Definition mark_done (completed : list string) (id : string) : list string :=
  if decide (id ∈ completed) then completed else completed ++ [id].

Definition put_step (a : astate) (id status : string) (n : Z) : gmap string (string * Z) :=
  <[id := (status, n)]> (a_steps a).

Inductive life (a : astate) : astate → Prop :=
| life_start forks step :
    a_live a → ¬ a_compensating a → resume a forks (Some step) →
    life a (mkA InstanceRunning (Some (step_ID step)) (a_done a) (a_queue a) forks
              (put_step a (step_ID step) StepRunning (attempt_of a (step_ID step) + 1)))
| life_finish forks :
    a_live a → ¬ a_compensating a → resume a forks None →
    life a (mkA InstanceCompleted None (a_done a) (a_queue a) forks (a_steps a))
| life_success step n o result forks next :
    a_status a = InstanceRunning → a_queue a = [] → at_work a step n → names_reference step result →
    next_after o m step (a_forks a) result = Done (forks, next) →
    life a (mkA (if next then InstanceRunning else InstanceCompleted) (step_ID <$> next)
              (mark_done (a_done a) (step_ID step)) (a_queue a) forks (put_step a (step_ID step) StepCompleted n))
| life_wait step n :
    a_status a = InstanceRunning ∧ a_queue a = [] ∨ a_status a = InstanceCompensating ∧ a_queue a ≠ [] →
    at_work a step n →
    life a (mkA InstanceWaitingTimer (Some (step_ID step)) (a_done a) (a_queue a) (a_forks a)
              (put_step a (step_ID step) StepWaitingTimer n))
| life_fail step n o err forks :
    a_status a = InstanceRunning → a_queue a = [] → at_work a step n → retry_allowed step n = None →
    branch_failed o (a_forks a) (step_ID step) err = Done forks →
    life a (match undo_queue m (step_ID step) (a_done a) with
            | [] => mkA InstanceFailed None (a_done a) [] forks (put_step a (step_ID step) StepFailed n)
            | (next :: _) as queue =>
                mkA InstanceCompensating (Some next) (a_done a) queue forks (put_step a (step_ID step) StepFailed n)
            end)
| life_undo id step queue :
    a_live a → a_queue a = id :: queue → StepByID (m_definition m) id = Some step →
    life a (mkA InstanceCompensating (Some id) (a_done a) (a_queue a) (a_forks a)
              (put_step a id StepRunning (attempt_of a id + 1)))
| life_undone step n :
    a_status a = InstanceCompensating → at_work a step n →
    life a (match tail (a_queue a) with
            | [] => mkA InstanceFailed None (mark_done (a_done a) (step_ID step)) [] (a_forks a) (put_step a (step_ID step) StepCompleted n)
            | (next :: _) as queue =>
                mkA InstanceCompensating (Some next) (mark_done (a_done a) (step_ID step)) queue (a_forks a)
                  (put_step a (step_ID step) StepCompleted n)
            end)
| life_undo_failed step n :
    a_status a = InstanceCompensating → at_work a step n →
    life a (mkA InstanceFailed None (a_done a) (a_queue a) (a_forks a) (a_steps a))
| life_abandon :
    a_live a → a_compensating a →
    (∀ id, head (a_queue a) = Some id → StepByID (m_definition m) id = None) →
    life a (mkA InstanceFailed None (a_done a) (a_queue a) (a_forks a) (a_steps a)).
End life.

(** ** The machine depends on the forks only *)

Section forks_only.
Variable m : Machine.
Implicit Types (s t : RuntimeState) (fm : gmap string ForkState).

Lemma with_Forks_inj s f g : with_Forks s f = with_Forks s g → f = g.
Proof. intros Heq. by apply (f_equal rs_Forks) in Heq. Qed.

Lemma Done_with_Forks_inj {A} s f g (a b : A) :
  Done (with_Forks s (Some f), a) = Done (with_Forks s (Some g), b) → f = g ∧ a = b.
Proof. intros Heq. injection Heq as Hf ->. done. Qed.

(** [f] does the same to the forks in every state. *)
Definition forks_only {A} (f : RuntimeState → go (RuntimeState * A)) : Prop :=
  ∀ s t fm fm' a, f (with_Forks s (Some fm)) = Done (with_Forks s (Some fm'), a) →
    f (with_Forks t (Some fm)) = Done (with_Forks t (Some fm'), a).

Lemma nextForkStep_forks_only id : forks_only (nextForkStep m id).
Proof.
  intros s t fm fm' a. unfold nextForkStep. simpl. destruct (list_find _ _) as [[i b]|]; cbn.
  - destruct (go_set_index _ _ _) as [bs|]; [|done]. cbn. intros [= <- <-]. done.
  - intros [= <- <-]. done.
Qed.

Lemma startFork_forks step s t fm fm' :
  startFork m step (with_Forks s (Some fm)) = Done (with_Forks s (Some fm')) →
  startFork m step (with_Forks t (Some fm)) = Done (with_Forks t (Some fm')).
Proof.
  unfold startFork. simpl. destruct (configStringSlice _ _) as [[|b bs]|]; cbn; try by intros [= <-].
  case_decide; [by intros [= <-]|]. case_decide; [by intros [= <-]|]. by intros [= <-].
Qed.

Lemma fork_step_forks_only step :
  forks_only (λ s, state ← startFork m step s; nextForkStep m (step_ID step) state).
Proof.
  intros s t fm fm' a Heq.
  destruct (startFork_done m fm step (with_Forks s (Some fm)) eq_refl) as (fm1 & H1 & _).
  rewrite with_Forks_twice in H1. rewrite H1 in Heq. cbn in Heq.
  rewrite (startFork_forks _ _ t _ _ H1). cbn. by eapply nextForkStep_forks_only.
Qed.

Lemma nextAfterBranchStep_forks_only id i step r :
  forks_only (λ s, nextAfterBranchStep m id i step s r).
Proof.
  intros s t fm fm' a. unfold nextAfterBranchStep. simpl. destruct (go_index _ _) as [b|]; [|done]. cbn.
  case_decide; (destruct (go_set_index _ _ _) as [bs|]; [|done]); cbn; rewrite ?with_Forks_twice.
  - intros [= <- <-]. done.
  - intros Hn. eapply (nextForkStep_forks_only id s t) in Hn. exact Hn.
Qed.

Lemma NextAfter_forks_only o step r s fm next :
  NextAfter o m step s r = Done (with_Forks (Normalize s) (Some fm), next) →
  next_after o m step (forks_of s) r = Done (fm, next).
Proof.
  unfold next_after.
  cut (∀ fm', NextAfter o m step s r = Done (with_Forks (Normalize s) (Some fm'), next) →
    NextAfter o m step (fork_state (forks_of s)) r = Done (with_Forks NewRuntimeState (Some fm'), next)).
  { intros Hc ->%Hc. done. }
  clear fm. intros fm. unfold NextAfter.
  set (s1 := match rs_Forks (Normalize s) with None => _ | Some _ => _ end).
  assert (Hs1 : s1 = with_Forks (Normalize s) (Some (forks_of s))).
  { unfold s1, forks_of. rewrite Normalize_Forks. destruct (rs_Forks s) eqn:E; [|done]. simpl.
    rewrite <- E, <- Normalize_Forks. by rewrite with_Forks_id. }
  rewrite Hs1. change (rs_Forks (Normalize (fork_state (forks_of s)))) with (Some (forks_of s)).
  cbv iota zeta. change (Normalize (fork_state (forks_of s))) with (with_Forks NewRuntimeState (Some (forks_of s))).
  case_decide; [apply fork_step_forks_only|].
  change (branchForCurrentStep o (with_Forks ?x ?y) (step_ID step))
    with (branchForCurrentStep o (with_Forks NewRuntimeState y) (step_ID step)).
  destruct (branchForCurrentStep _ _ _) as [[forkID i]|]; [apply nextAfterBranchStep_forks_only|].
  destruct (decide (step_Type step = StepJoin)).
  - rewrite !markJoined_spec. by intros [<- <-]%(Done_with_Forks_inj (Normalize s)).
  - by intros [<- <-]%(Done_with_Forks_inj (Normalize s)).
Qed.

Lemma MarkBranchFailed_forks_only o s id err (fm : gomap ForkState) :
  MarkBranchFailed o s id err = Done (with_Forks (Normalize s) fm) →
  branch_failed o (forks_of s) id err = Done (default ∅ fm).
Proof.
  unfold branch_failed, MarkBranchFailed.
  change (branchForCurrentStep o (Normalize (fork_state (forks_of s))) id)
    with (branchForCurrentStep_loop (range_order o (forks_of s)) id).
  unfold branchForCurrentStep. rewrite Normalize_Forks. fold (forks_of s).
  destruct (branchForCurrentStep_loop _ _) as [[forkID i]|] eqn:Hb; cbn.
  - unfold forks_of. destruct (rs_Forks s) as [fm0|] eqn:Hs; simpl.
    + destruct (go_index _ _) as [b|]; [|done]. cbn.
      destruct (go_set_index _ _ _) as [bs|]; [|done]. cbn. by intros [= <-].
    + unfold forks_of in Hb. rewrite Hs in Hb. simpl in Hb.
      assert (Hnil : range_order o (∅ : gmap string ForkState) = []).
      { apply Permutation_nil. by rewrite range_order_perm. }
      by rewrite Hnil in Hb.
  - intros [= Heq]. apply (f_equal rs_Forks) in Heq. rewrite Normalize_Forks in Heq. simpl in Heq.
    unfold forks_of. by rewrite Heq.
Qed.

Lemma CompensationQueue_done id s : CompensationQueue m id s = undo_queue m id (rs_Completed s).
Proof. done. Qed.
End forks_only.

(** ** The next step is a step of the definition *)

Lemma StepByID_elem m id step : StepByID (m_definition m) id = Some step → step ∈ dsl_Steps (m_definition m).
Proof. by intros [? _]%StepByID_Some. Qed.

Lemma nextForkStep_known m id s s' next :
  nextForkStep m id s = Done (s', Some next) → next ∈ dsl_Steps (m_definition m).
Proof.
  unfold nextForkStep. destruct (list_find _ _) as [[i b]|]; cbn.
  - destruct (go_set_index _ _ _) as [bs|]; [|done]. cbn. destruct (gm_set _ _ _); [|done]. cbn.
    intros [= _ Hn]. by eapply StepByID_elem.
  - destruct (gm_set _ _ _); [|done]. cbn. intros [= _ Hn]. by eapply StepByID_elem.
Qed.

Lemma nextAfterBranchStep_known m id i step s r s' next :
  nextAfterBranchStep m id i step s r = Done (s', Some next) → next ∈ dsl_Steps (m_definition m).
Proof.
  unfold nextAfterBranchStep. destruct (go_index _ _); [|done]. cbn.
  case_decide; (destruct (go_set_index _ _ _); [|done]); cbn; (destruct (gm_set _ _ _); [|done]); cbn.
  - intros [= _ Hn]. by eapply StepByID_elem.
  - apply nextForkStep_known.
Qed.

Lemma next_normal_elem normal id next : next_normal normal id = Some next → next ∈ normal.
Proof.
  induction normal as [|x [|y l] IH]; [done..|]. simpl. case_decide; [intros [= <-]; set_solver|].
  intros Hn. apply list_elem_of_further. by apply IH.
Qed.

Lemma m_normal_known d step : step ∈ m_normal (NewMachine d) → step ∈ dsl_Steps d.
Proof. simpl. by intros [_ ?]%list_elem_of_filter. Qed.

Lemma NextAfter_known o d step s r s' next :
  NextAfter o (NewMachine d) step s r = Done (s', Some next) → next ∈ dsl_Steps d.
Proof.
  unfold NextAfter. set (s1 := match rs_Forks (Normalize s) with None => _ | Some _ => _ end). cbv zeta.
  case_decide.
  { destruct (startFork _ _ _); [|done]. cbn. apply (nextForkStep_known (NewMachine d)). }
  destruct (branchForCurrentStep _ _ _) as [[forkID i]|]; [apply (nextAfterBranchStep_known (NewMachine d))|].
  destruct (decide (step_Type step = StepJoin)); [rewrite markJoined_spec|]; cbn [mbind go_bind mret go_ret];
    intros [= _ Hn]; revert Hn; repeat case_decide; try done;
    try apply (StepByID_elem (NewMachine d)); intros Hn%next_normal_elem; by apply m_normal_known.
Qed.

Lemma resume_known d a forks next : resume (NewMachine d) a forks (Some next) → next ∈ dsl_Steps d.
Proof.
  inversion 1 as [|id|id step|id step n o r fm]; subst.
  - apply m_normal_known. by apply head_Some_elem_of.
  - by eapply (StepByID_elem (NewMachine d)).
  - match goal with Hn : next_after _ _ _ _ _ = _ |- _ => revert Hn end. unfold next_after.
    destruct (NextAfter _ _ _ _ _) as [[s' next']|] eqn:Hn; [|done]. intros [= _ ->].
    by eapply NextAfter_known.
Qed.

(** ** The abstraction and the operations on states *)

Lemma forks_of_Normalize s : forks_of (Normalize s) = forks_of s.
Proof. unfold forks_of. by rewrite Normalize_Forks. Qed.

Lemma steps_of_Normalize s : steps_of (Normalize s) = steps_of s.
Proof. unfold steps_of. by destruct s as [[]]. Qed.

Lemma steps_of_set s sm id st :
  rs_Steps s = Some sm → steps_of (with_Steps s (Some (<[id := st]> sm))) = <[id := (ss_Status st, ss_Attempt st)]> (steps_of s).
Proof. intros Hs. unfold steps_of. rewrite Hs. simpl. by rewrite fmap_insert. Qed.

Lemma forks_of_saved s : forks_of (Normalize (reload s)) = forks_of s.
Proof. rewrite forks_of_Normalize. apply reload_default_forks. Qed.

Lemma steps_of_saved s : steps_of (Normalize (reload s)) = steps_of s.
Proof.
  rewrite steps_of_Normalize. unfold steps_of. simpl. destruct (rs_Steps s) as [sm|]; [|done]. simpl.
  rewrite <- map_fmap_compose. done.
Qed.

Lemma attempt_of_abs i id : attempt_of (abs i) id = ss_Attempt (step_state (i_State i) id).
Proof.
  unfold attempt_of, step_state, gm_get. simpl. unfold steps_of. rewrite lookup_fmap.
  destruct (rs_Steps (i_State i)) as [sm|]; simpl; [|by rewrite lookup_empty].
  by destruct (sm !! id).
Qed.

(** A row that has just been written. *)
Lemma abs_updated row l now : abs (updated_row row l now) = abs l.
Proof.
  unfold abs. simpl. by rewrite Normalize_Completed, Normalize_Queue, forks_of_saved, steps_of_saved.
Qed.

Lemma MarkCompleted_abs s id st s' :
  MarkCompleted s id st = Done s' →
  rs_Completed s' = mark_done (rs_Completed s) id ∧ forks_of s' = forks_of s ∧
  steps_of s' = <[id := (StepCompleted, ss_Attempt st)]> (steps_of s).
Proof.
  destruct (MarkCompleted_done s id st) as (sm & Hsm & ->). intros [= <-]. unfold mark_done.
  assert (Hst : steps_of (with_Steps (Normalize s) (Some (<[id := with_Status st StepCompleted]> sm)))
    = <[id := (StepCompleted, ss_Attempt st)]> (steps_of s)).
  { rewrite (steps_of_set _ _ _ _ Hsm), steps_of_Normalize. done. }
  case_decide; (split_and!; [simpl; by rewrite ?Normalize_Completed| |exact Hst]);
    rewrite <- (forks_of_Normalize s); done.
Qed.

Lemma set_step_abs s id st s' :
  set_step s id st = Done s' →
  rs_Completed s' = rs_Completed s ∧ forks_of s' = forks_of s ∧
  steps_of s' = <[id := (ss_Status st, ss_Attempt st)]> (steps_of s).
Proof.
  unfold set_step. destruct (rs_Steps s) as [sm|] eqn:Hs; [|done]. cbn. intros [= <-].
  split_and!; [done..|]. by apply steps_of_set.
Qed.

(** What a worker picks up. *)
Lemma StepForCurrent_resume o m i s next :
  StepForCurrent o m (i_State i) (i_CurrentStepID i) = Done (s, next) → resume m (abs i) (forks_of s) next.
Proof.
  unfold StepForCurrent. destruct (i_CurrentStepID i) as [id|] eqn:Hcur.
  2: { intros [= <- <-]. by apply (resume_first m (abs i)). }
  destruct (StepByID (m_definition m) id) as [step|] eqn:Hstep.
  2: { intros [= <- <-]. by apply (resume_unknown m (abs i) id). }
  assert (Hget : fst <$> a_steps (abs i) !! id = ss_Status <$> gm_get (rs_Steps (i_State i)) id).
  { simpl. unfold steps_of, gm_get. rewrite lookup_fmap. destruct (rs_Steps (i_State i)) as [sm|]; simpl.
    - by destruct (sm !! id).
    - by rewrite lookup_empty. }
  destruct (gm_get (rs_Steps (i_State i)) id) as [st|] eqn:Hst.
  2: { intros [= <- <-]. apply (resume_current m (abs i) id); [done..|]. by rewrite Hget. }
  case_decide as Hc.
  { intros [= <- <-]. apply (resume_current m (abs i) id); [done..|]. rewrite Hget. simpl. congruence. }
  set (r := match gm_get (ss_Output st) "next_step" with Some _ => _ | None => _ end).
  destruct (NextAfter_done o m step (i_State i) r) as (fm & next' & Heq & _). rewrite Heq. cbn.
  intros [= <- <-]. apply NextAfter_forks_only in Heq.
  destruct (a_steps (abs i) !! id) as [[st' n]|] eqn:Hn; [|done]. simpl in Hget.
  apply (resume_next m (abs i) id step n o r fm); [done..|rewrite Hn; congruence|done|].
  destruct (rs_Forks (i_State i)) eqn:Hf; [by left|]. right. unfold forks_of. simpl. unfold forks_of. by rewrite Hf.
Qed.
