(* ===== verification/LifecycleProps.v ===== *)
(** * What every lifecycle has in common

    [life_ok d a]: the well-formed abstract states; [life] preserves it, and a new
    instance satisfies it, so it holds of every instance of every run. *)

From S2P Require Import Prelude GoNum GoTime Workflow Accessors Machine BranchSteps MachineFacts.
From S2P Require Import Json Externals Store Effects Timer Worker Engine Validator Lifecycle.

#[local] Open Scope Z_scope.

Record life_ok (d : DefinitionDSL) (a : astate) : Prop := {
  (** A finished instance has no current step. *)
  lo_terminal : terminal (a_status a) → a_current a = None;
  lo_completed : a_status a = InstanceCompleted → a_queue a = [];
  (** Each step completes once, after it was started. *)
  lo_nodup : NoDup (a_done a);
  lo_done id : id ∈ a_done a → is_Some (a_steps a !! id);
  (** Only steps of the definition are started; attempts count from one. *)
  lo_steps id st n : a_steps a !! id = Some (st, n) → id ∈ step_ID <$> dsl_Steps d ∧ 1 ≤ n;
  (** A step marked as running is the current one: never two at a time. *)
  lo_running id n : a_status a ≠ InstanceFailed → a_steps a !! id = Some (StepRunning, n) →
    a_current a = Some id ∧ (a_status a = InstanceRunning ∨ a_status a = InstanceCompensating);
  (** The instance waits exactly when its current step does. *)
  lo_waiting id n : a_steps a !! id = Some (StepWaitingTimer, n) →
    a_current a = Some id ∧ a_status a = InstanceWaitingTimer;
  lo_waits : a_status a = InstanceWaitingTimer →
    ∃ id n, a_current a = Some id ∧ a_steps a !! id = Some (StepWaitingTimer, n);
  (** A compensating instance works on the head of its queue. *)
  lo_head : a_live a → a_queue a ≠ [] → a_current a = head (a_queue a);
  lo_compensating : a_status a = InstanceCompensating → a_queue a ≠ [];
  (** Only steps that were started are undone. *)
  lo_queue t : t ∈ a_queue a → ∃ id, on_failure_of (NewMachine d) id = Some t ∧ is_Some (a_steps a !! id);
}.

Lemma initial_ok d : life_ok d initial.
Proof. split; simpl; try done; [apply NoDup_nil_2|set_solver|set_solver]. Qed.

Section preserved.
Variable d : DefinitionDSL.
Implicit Types (a b : astate).

Lemma put_step_Some a id st n id' st' n' :
  put_step a id st n !! id' = Some (st', n') →
  (id' = id ∧ st' = st ∧ n' = n) ∨ (id' ≠ id ∧ a_steps a !! id' = Some (st', n')).
Proof. unfold put_step. rewrite lookup_insert. case_decide; naive_solver. Qed.

Lemma put_step_is_Some a id st n id' : is_Some (a_steps a !! id') → is_Some (put_step a id st n !! id').
Proof. unfold put_step. rewrite lookup_insert. by case_decide. Qed.

Lemma attempt_of_pos a id : life_ok d a → 1 ≤ attempt_of a id + 1.
Proof.
  intros Hok. unfold attempt_of. destruct (a_steps a !! id) as [[st n]|] eqn:Hs; simpl; [|lia].
  destruct (lo_steps _ _ Hok _ _ _ Hs). lia.
Qed.

(** Marking a step keeps the started steps well formed. *)
Lemma put_step_steps a id st n :
  life_ok d a → id ∈ step_ID <$> dsl_Steps d → 1 ≤ n →
  ∀ id' st' n', put_step a id st n !! id' = Some (st', n') → id' ∈ step_ID <$> dsl_Steps d ∧ 1 ≤ n'.
Proof. intros Hok Hid Hn id' st' n' [(-> & -> & ->)|[_ Hs]]%put_step_Some; [done|]. by eapply lo_steps. Qed.

Lemma put_step_queue a id st n t :
  life_ok d a → t ∈ a_queue a →
  ∃ id', on_failure_of (NewMachine d) id' = Some t ∧ is_Some (put_step a id st n !! id').
Proof. intros Hok (id' & Hf & Hs)%(lo_queue _ _ Hok). exists id'. split; [done|]. by apply put_step_is_Some. Qed.

Lemma mark_done_elem l id x : x ∈ mark_done l id ↔ x ∈ l ∨ x = id.
Proof. unfold mark_done. case_decide; set_solver. Qed.

Lemma mark_done_NoDup l id : NoDup l → NoDup (mark_done l id).
Proof.
  unfold mark_done. case_decide; [done|]. intros. apply NoDup_app. split_and!; [done|set_solver|].
  apply NoDup_singleton.
Qed.

Lemma mark_done_steps a id st n x :
  life_ok d a → x ∈ mark_done (a_done a) id → is_Some (put_step a id st n !! x).
Proof.
  intros Hok [Hx| ->]%mark_done_elem; [by apply put_step_is_Some, (lo_done _ _ Hok)|].
  unfold put_step. by rewrite lookup_insert_eq.
Qed.

Lemma undo_queue_elem m id l t : t ∈ undo_queue m id l → ∃ x, on_failure_of m x = Some t ∧ (x = id ∨ x ∈ l).
Proof.
  unfold undo_queue. rewrite CompensationQueue_nub, elem_of_nub, list_elem_of_omap. intros (x & Hx & Ht).
  exists x. split; [done|]. simpl in Hx. set_solver.
Qed.

Lemma at_work_known a step n : at_work (NewMachine d) a step n → step_ID step ∈ step_ID <$> dsl_Steps d.
Proof. intros (_ & Hin & _). by apply list_elem_of_fmap_2. Qed.

Lemma at_work_pos a step n : life_ok d a → at_work (NewMachine d) a step n → 1 ≤ n.
Proof. intros Hok (_ & _ & Hs). by destruct (lo_steps _ _ Hok _ _ _ Hs). Qed.

(** At work no other step runs or waits. *)
Lemma at_work_alone a step n id st n' :
  life_ok d a → at_work (NewMachine d) a step n → a_status a ≠ InstanceFailed → id ≠ step_ID step →
  a_steps a !! id = Some (st, n') → st ≠ StepRunning ∧ st ≠ StepWaitingTimer.
Proof.
  intros Hok (Hc & _ & _) Hf Hid Hs. split; intros ->.
  - destruct (lo_running _ _ Hok _ _ Hf Hs). congruence.
  - destruct (lo_waiting _ _ Hok _ _ Hs). congruence.
Qed.

(** When no step is current, or the current one has completed, none runs or waits. *)
Lemma idle_alone a id st n :
  life_ok d a → a_status a ≠ InstanceFailed →
  (∀ cur, a_current a = Some cur → cur ∉ step_ID <$> dsl_Steps d ∨ ∃ k, a_steps a !! cur = Some (StepCompleted, k)) →
  a_steps a !! id = Some (st, n) → st ≠ StepRunning ∧ st ≠ StepWaitingTimer.
Proof.
  intros Hok Hf Hcur Hs. destruct (lo_steps _ _ Hok _ _ _ Hs) as [Hk _].
  split; intros ->; [destruct (lo_running _ _ Hok _ _ Hf Hs) as [Hc _]|destruct (lo_waiting _ _ Hok _ _ Hs) as [Hc _]];
    (destruct (Hcur _ Hc) as [?|[k Hk']]; [done|]; by rewrite Hs in Hk').
Qed.

Lemma resume_alone a forks next id st n :
  life_ok d a → a_status a ≠ InstanceFailed → resume (NewMachine d) a forks next →
  (∀ step, next = Some step → id ≠ step_ID step) →
  a_steps a !! id = Some (st, n) → st ≠ StepRunning ∧ st ≠ StepWaitingTimer.
Proof.
  intros Hok Hf Hr Hid Hs.
  inversion Hr as [Hc|cur Hc Hu|cur step Hc Hk|cur step k o r fm f' nx Hc Hk Hst]; subst.
  - eapply idle_alone; [done..| |exact Hs]. intros cur' Hcur. by rewrite Hc in Hcur.
  - eapply idle_alone; [done..| |exact Hs]. intros cur' Hcur. left. rewrite <- StepByID_is_Some.
    assert (cur' = cur) as -> by congruence. simpl in Hu. rewrite Hu. by intros [].
  - destruct (StepByID_Some _ _ _ Hk) as [_ <-].
    split; intros ->; [destruct (lo_running _ _ Hok _ _ Hf Hs) as [Hc' _]|destruct (lo_waiting _ _ Hok _ _ Hs) as [Hc' _]];
      apply (Hid step); congruence.
  - eapply idle_alone; [done..| |exact Hs]. intros cur' Hcur. right. exists k.
    assert (cur' = cur) as -> by congruence. done.
Qed.

(** The cases in which a step is put: the step itself, and the others, which neither
    run nor wait. *)
Lemma life_ok_put a status cur done queue forks id st n :
  life_ok d a → id ∈ step_ID <$> dsl_Steps d → 1 ≤ n →
  (∀ id' st' n', id' ≠ id → a_steps a !! id' = Some (st', n') → st' ≠ StepRunning ∧ st' ≠ StepWaitingTimer) →
  (terminal status → cur = None) → (status = InstanceCompleted → queue = []) →
  NoDup done → (∀ x, x ∈ done → is_Some (put_step a id st n !! x)) →
  (st = StepRunning → status ≠ InstanceFailed → cur = Some id ∧ (status = InstanceRunning ∨ status = InstanceCompensating)) →
  (st = StepWaitingTimer ↔ status = InstanceWaitingTimer) → (st = StepWaitingTimer → cur = Some id) →
  (¬ terminal status → queue ≠ [] → cur = head queue) → (status = InstanceCompensating → queue ≠ []) →
  (∀ t, t ∈ queue → ∃ x, on_failure_of (NewMachine d) x = Some t ∧ is_Some (put_step a id st n !! x)) →
  life_ok d (mkA status cur done queue forks (put_step a id st n)).
Proof.
  intros Hok Hid Hn Halone Hterm Hcomp Hnd Hdone Hrun Hwait Hwc Hhead Hcq Hqueue.
  split; simpl; try done.
  - by apply put_step_steps.
  - intros id' n' Hf [(-> & <- & ->)|[Hne Hs]]%put_step_Some; [by apply Hrun|].
    by destruct (Halone _ _ _ Hne Hs).
  - intros id' n' [(-> & <- & ->)|[Hne Hs]]%put_step_Some; [|by destruct (Halone _ _ _ Hne Hs)].
    split; [by apply Hwc|by apply Hwait].
  - intros Hst. exists id, n. apply Hwait in Hst as ->. split; [by apply Hwc|].
    unfold put_step. by rewrite lookup_insert_eq.
Qed.

(** An instance that ends: no step runs any more, except a failed compensation. *)
Lemma life_ok_end a status queue forks :
  life_ok d a → status = InstanceCompleted ∧ queue = [] ∨ status = InstanceFailed →
  queue `sublist_of` a_queue a →
  (∀ id st n, a_steps a !! id = Some (st, n) → st ≠ StepWaitingTimer ∧ (status = InstanceCompleted → st ≠ StepRunning)) →
  life_ok d (mkA status None (a_done a) queue forks (a_steps a)).
Proof.
  intros Hok Hst Hq Hs. assert (Hterm : terminal status) by (unfold terminal; naive_solver).
  split; simpl; try done.
  - intros ->. by destruct Hst as [[_ ?]|?].
  - apply (lo_nodup _ _ Hok).
  - apply (lo_done _ _ Hok).
  - apply (lo_steps _ _ Hok).
  - intros id n Hf Hr. destruct (Hs _ _ _ Hr) as [_ Hr']. destruct Hst as [[? _]|?]; [|done]. by destruct Hr'.
  - intros id n Hw. by destruct (Hs _ _ _ Hw).
  - intros ->. by destruct Hterm.
  - intros ->. by destruct Hterm.
  - intros t Ht. apply (lo_queue _ _ Hok). eapply elem_of_submseteq; [exact Ht|by apply sublist_submseteq].
Qed.
End preserved.

(** ** Preservation *)

Ltac by_status := first [done | by intros [] | by intros [? ?] | intros; congruence | naive_solver].

Section life_ok.
Variable d : DefinitionDSL.
#[local] Abbreviation m := (NewMachine d).

Lemma not_compensating a : ¬ a_compensating a → a_queue a = [].
Proof. unfold a_compensating. destruct (a_queue a); [done|]. intros Hn. exfalso. apply Hn. by right. Qed.

Lemma live_not_failed a : a_live a → a_status a ≠ InstanceFailed.
Proof. intros Hl Hs. apply Hl. by right. Qed.

Lemma start_ok a forks step :
  life_ok d a → a_live a → ¬ a_compensating a → resume m a forks (Some step) →
  life_ok d (mkA InstanceRunning (Some (step_ID step)) (a_done a) (a_queue a) forks
    (put_step a (step_ID step) StepRunning (attempt_of a (step_ID step) + 1))).
Proof.
  intros Hok Hl Hc Hr. rewrite (not_compensating _ Hc).
  apply life_ok_put; try by_status.
  - by apply list_elem_of_fmap_2, (resume_known d a forks).
  - by apply (attempt_of_pos d).
  - intros id st n Hid. eapply resume_alone; [done|by apply live_not_failed|exact Hr|]. intros st' [= <-]. done.
  - apply (lo_nodup _ _ Hok).
  - intros x Hx. by apply put_step_is_Some, (lo_done _ _ Hok).
  - intros t Ht. by apply elem_of_nil in Ht.
Qed.

(** Putting the state of the step at work, when it stops running. *)
Lemma work_ok a status cur done queue forks step st n :
  life_ok d a → a_status a ≠ InstanceFailed → at_work m a step n →
  st = StepCompleted ∨ st = StepFailed ∨ st = StepWaitingTimer →
  done = a_done a ∨ done = mark_done (a_done a) (step_ID step) →
  (terminal status → cur = None) → (status = InstanceCompleted → queue = []) →
  (st = StepWaitingTimer ↔ status = InstanceWaitingTimer) → (st = StepWaitingTimer → cur = Some (step_ID step)) →
  (¬ terminal status → queue ≠ [] → cur = head queue) → (status = InstanceCompensating → queue ≠ []) →
  (∀ t, t ∈ queue → t ∈ a_queue a ∨ t ∈ undo_queue m (step_ID step) (a_done a)) →
  life_ok d (mkA status cur done queue forks (put_step a (step_ID step) st n)).
Proof.
  intros Hok Hf Hat Hst Hdone Hterm Hcomp Hwait Hwc Hhead Hcq Hqueue. apply life_ok_put; try done.
  - by eapply at_work_known.
  - by eapply at_work_pos.
  - intros id' st' n' Hid. by eapply at_work_alone.
  - destruct Hdone as [->| ->]; [|apply mark_done_NoDup]; apply (lo_nodup _ _ Hok).
  - intros x Hx. apply (mark_done_steps d); [done|]. rewrite mark_done_elem. destruct Hdone as [->| ->]; [by left|].
    by apply mark_done_elem in Hx.
  - intros ->. by destruct Hst as [?|[?|?]].
  - intros t Ht. destruct (Hqueue t Ht) as [?|(x & Hx & Hin)%undo_queue_elem]; [by apply put_step_queue|].
    exists x. split; [done|]. apply (mark_done_steps d); [done|]. rewrite mark_done_elem. tauto.
Qed.

Lemma fail_ok a step n forks :
  life_ok d a → a_status a = InstanceRunning → at_work m a step n →
  life_ok d (match undo_queue m (step_ID step) (a_done a) with
             | [] => mkA InstanceFailed None (a_done a) [] forks (put_step a (step_ID step) StepFailed n)
             | (next :: _) as queue =>
                 mkA InstanceCompensating (Some next) (a_done a) queue forks (put_step a (step_ID step) StepFailed n)
             end).
Proof.
  intros Hok Hs Hat. assert (Hf : a_status a ≠ InstanceFailed) by by rewrite Hs.
  destruct (undo_queue _ _ _) as [|next q] eqn:Hq; apply work_ok; try by_status; [set_solver|].
  intros t Ht. right. by rewrite Hq.
Qed.

Lemma undone_ok a step n :
  life_ok d a → a_status a = InstanceCompensating → at_work m a step n →
  life_ok d (match tail (a_queue a) with
             | [] => mkA InstanceFailed None (mark_done (a_done a) (step_ID step)) [] (a_forks a)
                       (put_step a (step_ID step) StepCompleted n)
             | (next :: _) as queue =>
                 mkA InstanceCompensating (Some next) (mark_done (a_done a) (step_ID step)) queue (a_forks a)
                   (put_step a (step_ID step) StepCompleted n)
             end).
Proof.
  intros Hok Hs Hat. assert (Hf : a_status a ≠ InstanceFailed) by by rewrite Hs.
  destruct (tail (a_queue a)) as [|next q] eqn:Hq; apply work_ok; try by_status; [set_solver|].
  intros t Ht. left. destruct (a_queue a) as [|x l]; [done|]. simpl in Hq. subst l. by apply list_elem_of_further.
Qed.

Lemma undo_ok a step queue :
  life_ok d a → a_live a → a_queue a = step_ID step :: queue → step ∈ dsl_Steps d →
  life_ok d (mkA InstanceCompensating (Some (step_ID step)) (a_done a) (a_queue a) (a_forks a)
    (put_step a (step_ID step) StepRunning (attempt_of a (step_ID step) + 1))).
Proof.
  intros Hok Hl Hq Hin. assert (Hc : a_current a = Some (step_ID step)).
  { rewrite (lo_head _ _ Hok Hl) by by rewrite Hq. by rewrite Hq. }
  apply life_ok_put; try by_status.
  - by apply list_elem_of_fmap_2.
  - by apply (attempt_of_pos d).
  - intros id st n Hid Hs.
    split; intros ->; [destruct (lo_running _ _ Hok _ _ (live_not_failed _ Hl) Hs)|destruct (lo_waiting _ _ Hok _ _ Hs)]; congruence.
  - apply (lo_nodup _ _ Hok).
  - intros x Hx. by apply put_step_is_Some, (lo_done _ _ Hok).
  - by rewrite Hq.
  - intros t Ht. by apply put_step_queue.
Qed.

(** An instance to abandon has nothing running. *)
Lemma abandon_ok a :
  life_ok d a → a_live a → a_compensating a →
  (∀ id, head (a_queue a) = Some id → StepByID (m_definition m) id = None) →
  life_ok d (mkA InstanceFailed None (a_done a) (a_queue a) (a_forks a) (a_steps a)).
Proof.
  intros Hok Hl Hc Hu. apply life_ok_end; [done|by right|done|]. intros id st n Hs. split; [|done]. intros ->.
  destruct (lo_waiting _ _ Hok _ _ Hs) as [Hcur Hst]. destruct (lo_steps _ _ Hok _ _ _ Hs) as [Hk _].
  assert (Hq : a_queue a ≠ []) by (destruct Hc as [Hc|?]; [by rewrite Hst in Hc|done]).
  rewrite (lo_head _ _ Hok Hl Hq) in Hcur. specialize (Hu _ Hcur). simpl in Hu.
  apply StepByID_is_Some in Hk. rewrite Hu in Hk. by destruct Hk.
Qed.

Lemma life_preserves a b : life m a b → life_ok d a → life_ok d b.
Proof.
  intros Hlife Hok.
  destruct Hlife as [forks step Hl Hc Hr|forks Hl Hc Hr|step n o r forks next Hs Hq Hat Href Hn|step n Hs Hat
    |step n o err forks Hs Hq Hat Hretry Hb|id step queue Hl Hq Hst|step n Hs Hat|step n Hs Hat|Hl Hc Hu].
  - by apply start_ok.
  - rewrite (not_compensating _ Hc). apply life_ok_end; [done|by left|by apply sublist_nil_l|].
    intros id st n Hs.
    assert (st ≠ StepRunning ∧ st ≠ StepWaitingTimer) as [? ?]; [|done].
    by eapply (resume_alone d a forks None); [done|by apply live_not_failed|done| |exact Hs].
  - assert (Hf : a_status a ≠ InstanceFailed) by by rewrite Hs. rewrite Hq.
    destruct next as [next|]; apply work_ok; try by_status; simpl; try (by intros [?|?]); set_solver.
  - apply work_ok; try by_status.
    + intros Hf. rewrite Hf in Hs. by destruct Hs as [[? _]|[? _]].
    + intros _ Hne. destruct Hs as [[_ Hq]|[Hs Hq]]; [by rewrite Hq in Hne|].
      rewrite <- (lo_head _ _ Hok); [by destruct Hat| |done]. unfold a_live. rewrite Hs. by intros [?|?].
  - by apply fail_ok.
  - destruct (StepByID_Some _ _ _ Hst) as [Hin <-]. by apply (undo_ok a step queue).
  - by apply undone_ok.
  - apply life_ok_end; [done|by right|done|]. intros id st n' Hs'. split; [|done]. intros ->.
    destruct (lo_waiting _ _ Hok _ _ Hs') as [_ Hw]. by rewrite Hs in Hw.
  - by apply abandon_ok.
Qed.

Lemma life_path_ok a b : rtc (life m) a b → life_ok d a → life_ok d b.
Proof. induction 1 as [|a b c Hab _ IH]; [done|]. intros Hok. by apply IH, (life_preserves a). Qed.
End life_ok.

(** ** No state is stuck *)

Lemma next_after_total o m step forks r : ∃ forks' next, next_after o m step forks r = Done (forks', next).
Proof.
  unfold next_after. destruct (NextAfter_done o m step (fork_state forks) r) as (fm & next & -> & _). by eexists _, _.
Qed.

Lemma resume_total m a : ∃ forks next, resume m a forks next.
Proof.
  destruct (a_current a) as [id|] eqn:Hcur; [|eexists _, _; by apply resume_first].
  destruct (StepByID (m_definition m) id) as [step|] eqn:Hstep; [|eexists _, _; by eapply resume_unknown].
  destruct (decide (fst <$> a_steps a !! id = Some StepCompleted)) as [Hc|Hc]; [|eexists _, _; by eapply resume_current].
  destruct (a_steps a !! id) as [[st n]|] eqn:Hs; [|done]. injection Hc as ->.
  destruct (next_after_total [] m step (a_forks a) None) as (forks & next & Hn).
  eexists _, _. eapply (resume_next m a id step n [] None); [done..|by left].
Qed.

Lemma life_progress m a : a_live a → ∃ b, life m a b.
Proof.
  intros Hl. destruct (decide (a_status a = InstanceCompensating ∨ a_queue a ≠ [])) as [Hc|Hc].
  - destruct (a_queue a) as [|id queue] eqn:Hq.
    { eexists. apply (life_abandon m a); [done|left; by destruct Hc as [?|[]]|].
      by rewrite Hq. }
    destruct (StepByID (m_definition m) id) as [step|] eqn:Hstep; eexists.
    + by eapply life_undo.
    + apply life_abandon; [done|right; by rewrite Hq|]. rewrite Hq. by intros ? [= <-].
  - destruct (resume_total m a) as (forks & [step|] & Hr); eexists; [by eapply life_start|by eapply life_finish].
Qed.
