(* ===== verification/Acyclic.v ===== *)
(** * Workflows without forks terminate

    In a validated definition without forks, whose normal steps name no compensation
    target, the current step only moves along the edges of the graph that the validator
    checks for cycles.  So no step runs again after it completed, and a lifecycle
    completes at most as many steps as the definition has. *)

From stdpp Require Import relations.
From S2P Require Import Prelude GoNum GoTime Workflow Accessors Machine BranchSteps MachineFacts.
From S2P Require Import Json Externals Store Effects Timer Worker Engine Validator ValidatorProps.
From S2P Require Import StoreProps Lifecycle LifecycleProps.

(** ** The edges of the graph *)

Definition has_edge (edges : gmap string (list string)) (a b : string) : Prop := b ∈ default [] (edges !! a).

Lemma append_edges_old id targets edges a b : has_edge edges a b → has_edge (append_edges id targets edges) a b.
Proof.
  unfold has_edge, append_edges. case_decide; [done|]. rewrite lookup_insert. case_decide as Hid; [subst|done].
  simpl. set_solver.
Qed.

Lemma append_edges_new id targets edges b : b ∈ targets → has_edge (append_edges id targets edges) id b.
Proof.
  unfold has_edge, append_edges. case_decide as Hn; [subst; set_solver|]. rewrite lookup_insert_eq. simpl. set_solver.
Qed.

Lemma add_normal_edges_old l edges a b : has_edge edges a b → has_edge (add_normal_edges l edges) a b.
Proof.
  revert edges. induction l as [|s l IH]; intros edges He; [done|]. simpl. by apply IH, append_edges_old.
Qed.

Lemma add_normal_edges_refs l edges s x :
  s ∈ l → x ∈ explicitRefs s → has_edge (add_normal_edges l edges) (step_ID s) x.
Proof.
  revert edges. induction l as [|s' l IH]; intros edges Hs Hx; [by apply elem_of_nil in Hs|]. simpl.
  apply elem_of_cons in Hs as [<-|Hs]; [|by apply IH].
  apply add_normal_edges_old, append_edges_new. set_solver.
Qed.

Lemma add_normal_edges_next l edges id y :
  next_normal l id = Some y → has_edge (add_normal_edges l edges) id (step_ID y).
Proof.
  revert edges. induction l as [|s [|s' l] IH]; intros edges; [done..|].
  cbn [next_normal]. case_decide as Hid.
  - intros [= <-]. subst id. cbn [add_normal_edges]. apply (add_normal_edges_old (s' :: l)), append_edges_new. set_solver.
  - intros Hn. apply (IH (append_edges (step_ID s) _ edges) Hn).
Qed.

Lemma graph_edge d a b : has_edge (add_normal_edges (normal_steps d) ∅) a b → edge (graph d) a b.
Proof.
  unfold graph. change (edge ?g a b) with (has_edge g a b). generalize (add_normal_edges (normal_steps d) ∅).
  induction (dsl_Steps d) as [|s l IH]; intros edges He; [done|]. simpl. apply IH.
  case_decide; [done|]. unfold has_edge. rewrite lookup_insert. case_decide as Hid; [by subst|done].
Qed.

(** ** Workflows on their normal path *)

Section straight.
Variable d : DefinitionDSL.
#[local] Abbreviation m := (NewMachine d).

(** No forks, and no normal step jumps to a compensation. *)
Record straight : Prop := {
  st_well_formed : well_formed d;
  st_forkless step : step ∈ dsl_Steps d → step_Type step ≠ StepFork;
  st_separated step ref : step ∈ dsl_Steps d → step_ID step ∉ CompensationRefs d →
    ref ∈ explicitRefs step → ref ∉ CompensationRefs d;
}.

Hypothesis Hd : straight.

Definition on_path (id : string) : Prop := id ∈ step_ID <$> normal_steps d.

Lemma no_branch_steps id : id ∉ collectForkBranchSteps d.
Proof.
  rewrite elem_of_collectForkBranchSteps. intros (_ & step & Hin & Ht & _). by apply (st_forkless Hd step).
Qed.

Lemma elem_of_normal_steps step : step ∈ normal_steps d ↔ step ∈ dsl_Steps d ∧ step_ID step ∉ CompensationRefs d.
Proof.
  unfold normal_steps. rewrite list_elem_of_filter, dsl_collectForkBranchSteps. pose proof (no_branch_steps (step_ID step)).
  tauto.
Qed.

Lemma normal_steps_machine : m_normal m = normal_steps d.
Proof. unfold normal_steps, NewMachine. simpl. by rewrite dsl_collectForkBranchSteps. Qed.

Lemma on_path_known id step : on_path id → step ∈ dsl_Steps d → step_ID step = id → step ∈ normal_steps d.
Proof.
  intros Hp Hin <-. apply list_elem_of_fmap in Hp as (s & Heq & Hs). apply elem_of_normal_steps in Hs as [_ Hn].
  apply elem_of_normal_steps. by rewrite Heq.
Qed.

(** A reference of a normal step is an edge to a step of the normal path. *)
Lemma reference_edge step id next :
  step ∈ normal_steps d → id ∈ explicitRefs step → StepByID d id = Some next →
  edge (graph d) (step_ID step) (step_ID next) ∧ on_path (step_ID next).
Proof.
  intros Hs Hid (Hin & Heq)%StepByID_Some. split.
  - apply graph_edge, add_normal_edges_refs; [done|by rewrite Heq].
  - apply list_elem_of_fmap_2, elem_of_normal_steps. split; [done|]. rewrite Heq.
    apply elem_of_normal_steps in Hs as [Hs Hn]. by apply (st_separated Hd step).
Qed.

(** Without forks the next step is named, or the following one of the normal path. *)
Lemma next_after_straight o step result forks next :
  step ∈ normal_steps d → names_reference step result →
  next_after o m step ∅ result = Done (forks, next) →
  forks = ∅ ∧ ∀ y, next = Some y → edge (graph d) (step_ID step) (step_ID y) ∧ on_path (step_ID y).
Proof.
  intros Hs Href. assert (Ht : step_Type step ≠ StepFork) by (apply (st_forkless Hd); by apply elem_of_normal_steps in Hs as [? _]).
  unfold next_after, NextAfter. cbv zeta. rewrite decide_False by done.
  change (rs_Forks (Normalize (fork_state ∅))) with (Some (∅ : gmap string ForkState)). cbv iota.
  unfold branchForCurrentStep. change (default ∅ (rs_Forks (Normalize (fork_state ∅)))) with (∅ : gmap string ForkState).
  rewrite range_order_empty. cbn [branchForCurrentStep_loop].
  assert (Hnext : ∀ y, (if decide (resultNextStepID result ≠ "") then StepByID (m_definition m) (resultNextStepID result)
          else if decide (configString (step_Config step) "next" ≠ "")
          then StepByID (m_definition m) (configString (step_Config step) "next")
          else if decide (step_Type step = StepCondition) then None else next_normal (m_normal m) (step_ID step)) = Some y →
    edge (graph d) (step_ID step) (step_ID y) ∧ on_path (step_ID y)).
  { intros y. case_decide as Hr.
    - apply reference_edge; [done|]. destruct result as [r|]; [|done]. simpl in *.
      destruct (r_NextStepID r) as [n|] eqn:Hn; [|done]. by apply (Href r).
    - case_decide as Hc.
      + apply reference_edge; [done|]. unfold explicitRefs. rewrite ref_of_configString, decide_True by done. set_solver.
      + case_decide; [done|]. rewrite normal_steps_machine. intros Hn. split.
        * by apply graph_edge, add_normal_edges_next.
        * by eapply list_elem_of_fmap_2, next_normal_elem. }
  destruct (decide (step_Type step = StepJoin)).
  - rewrite markJoined_spec. cbn [mbind go_bind mret go_ret]. intros [= <- <-]. split; [|exact Hnext]. done.
  - cbn [mbind go_bind mret go_ret]. intros [= <- <-]. split; [done|exact Hnext].
Qed.

(** ** The invariant of the normal path *)

Definition normal_mode (a : astate) : Prop :=
  a_queue a = [] ∧ a_status a ≠ InstanceCompensating ∧ a_status a ≠ InstanceFailed.

Record on_course (a : astate) : Prop := {
  oc_forks : a_forks a = ∅;
  oc_current c : a_current a = Some c → on_path c;
  oc_done x : x ∈ a_done a → on_path x;
  (** The completed steps lead to the current one. *)
  oc_ahead x c : x ∈ a_done a → a_current a = Some c → tc (edge (graph d)) x c;
  oc_first : a_live a → a_current a = None → a_done a = [];
  oc_completed x : x ∈ a_done a ↔ ∃ n, a_steps a !! x = Some (StepCompleted, n);
}.

Lemma on_course_initial : on_course initial.
Proof.
  split; simpl; try done; try (intros ? Hx; by apply elem_of_nil in Hx).
  intros x. split; [by intros ?%elem_of_nil|by intros []].
Qed.

(** The current step has not completed. *)
Lemma on_course_current a c : on_course a → a_current a = Some c → c ∉ a_done a.
Proof.
  intros Hoc Hc Hin. apply (wf_acyclic _ (st_well_formed Hd) c). by apply (oc_ahead _ Hoc).
Qed.

(** The state of a step changes, to one that is not completed. *)
Lemma completed_put a id st n x :
  on_course a → id ∉ a_done a → st ≠ StepCompleted →
  x ∈ a_done a ↔ ∃ k, put_step a id st n !! x = Some (StepCompleted, k).
Proof.
  intros Hoc Hid Hst. rewrite (oc_completed _ Hoc). unfold put_step. destruct (decide (x = id)) as [->|Hne].
  - rewrite lookup_insert_eq. split; [|by intros [k [= ?]]]. intros Hk. destruct Hid. by apply (oc_completed _ Hoc).
  - by rewrite lookup_insert_ne.
Qed.

Lemma resume_on_course a forks step :
  on_course a → a_live a → resume m a forks (Some step) →
  forks = ∅ ∧ on_path (step_ID step) ∧ step_ID step ∉ a_done a ∧
  (∀ x, x ∈ a_done a → tc (edge (graph d)) x (step_ID step)).
Proof.
  intros Hoc Hl. inversion 1 as [Hc Hh|c Hc|c s Hc Hk Hs|c s n o r fm f nx Hc Hk Hs]; subst.
  - rewrite (oc_first _ Hoc Hl Hc). split_and!; [apply Hoc| |set_solver|set_solver].
    apply list_elem_of_fmap_2. rewrite <- normal_steps_machine. by apply head_Some_elem_of.
  - destruct (StepByID_Some _ _ _ Hk) as [_ <-].
    split_and!; [apply Hoc|by apply (oc_current _ Hoc)|by apply on_course_current|].
    intros x Hx. by apply (oc_ahead _ Hoc).
  - exfalso. apply (on_course_current a c Hoc Hc). apply (oc_completed _ Hoc). by exists n.
Qed.

Lemma on_course_step a b :
  life m a b → on_course a → normal_mode a → normal_mode b → on_course b.
Proof.
  intros Hlife Hoc (Hqa & Hca & Hfa) (_ & Hcb & Hfb).
  destruct Hlife as [forks step Hl Hc Hr|forks Hl Hc Hr|step n o r forks next Hs Hq Hat Href Hn|step n Hs Hat
    |step n o err forks Hs Hq Hat Hretry Hb|id step queue Hl Hq Hst|step n Hs Hat|step n Hs Hat|Hl Hc Hu]; simpl in *; try done.
  - destruct (resume_on_course a forks step Hoc Hl Hr) as (-> & Hp & Hnd & Hall). split; simpl; try done.
    + by intros c [= <-].
    + apply (oc_done _ Hoc).
    + intros x c Hx [= <-]. by apply Hall.
    + intros x. by apply completed_put.
  - split; simpl; try done.
    + inversion Hr as [Hcur Hh|c Hcur|c s Hcur|c s n o r fm f nx Hcur Hk Hs]; subst; try apply (oc_forks _ Hoc).
      exfalso. apply (on_course_current a c Hoc Hcur). apply (oc_completed _ Hoc). by exists n.
    + apply (oc_done _ Hoc).
    + intros Ht. exfalso. apply Ht. by left.
    + apply (oc_completed _ Hoc).
  - destruct Hat as (Hcur & Hin & Hrun).
    assert (Hp : step ∈ normal_steps d) by (apply (on_path_known (step_ID step)); [by apply (oc_current _ Hoc)|done..]).
    rewrite (oc_forks _ Hoc) in Hn. destruct (next_after_straight _ _ _ _ _ Hp Href Hn) as [-> Hnext].
    split; simpl; try done.
    + intros c Hc. apply fmap_Some in Hc as (y & -> & ->). by apply Hnext.
    + intros x [Hx| ->]%mark_done_elem; [by apply (oc_done _ Hoc)|]. by apply list_elem_of_fmap_2.
    + intros x c Hx Hc. apply fmap_Some in Hc as (y & -> & ->). destruct (Hnext y eq_refl) as [He _].
      apply mark_done_elem in Hx as [Hx| ->]; [|by apply tc_once].
      eapply tc_r; [by apply (oc_ahead _ Hoc)|done].
    + destruct next; [by intros _|]. intros Ht. exfalso. apply Ht. by left.
    + intros x. rewrite mark_done_elem, (oc_completed _ Hoc). unfold put_step.
      destruct (decide (x = step_ID step)) as [->|Hne].
      * rewrite lookup_insert_eq. naive_solver.
      * rewrite lookup_insert_ne by done. naive_solver.
  - destruct Hat as (Hcur & Hin & Hrun). split; simpl; try done; try apply Hoc.
    + intros c [= <-]. by apply (oc_current _ Hoc).
    + intros x c Hx [= <-]. by apply (oc_ahead _ Hoc).
    + intros x. apply completed_put; [done|by apply on_course_current|done].
  - destruct (undo_queue _ _ _); simpl in *; done.
Qed.

(** ** Counting completions *)

(** The step completes in this move. *)
Definition completes (a b : astate) : Prop :=
  ∃ id n n', a_steps a !! id = Some (StepRunning, n) ∧ a_steps b !! id = Some (StepCompleted, n').

(** A path of the lifecycle in which [n] moves complete a step. *)
Inductive life_path : nat → astate → astate → Prop :=
| lp_refl a : life_path 0 a a
| lp_step n a b c : life_path n a b → life m b c → ¬ completes b c → life_path n a c
| lp_complete n a b c : life_path n a b → life m b c → completes b c → life_path (S n) a c.

(** What remains to complete: in normal mode the count is the number of completed steps;
    once the instance has failed, its queue bounds what can still complete. *)
Definition bounded (n : nat) (a : astate) : Prop :=
  (normal_mode a ∧ on_course a ∧ n = length (a_done a)) ∨
  (¬ normal_mode a ∧ n + length (a_queue a) ≤ length (dsl_Steps d)).

Lemma undo_queue_bound a id :
  on_course a → NoDup (a_done a) →
  length (a_done a) + length (undo_queue m id (a_done a)) ≤ length (dsl_Steps d).
Proof.
  intros Hoc Hnd. rewrite <- length_app, <- (length_fmap step_ID (dsl_Steps d)).
  apply submseteq_length, NoDup_submseteq.
  - apply NoDup_app. split_and!; [done| |].
    + intros x Hx (y & Hy & _)%undo_queue_elem. apply (oc_done _ Hoc) in Hx.
      apply list_elem_of_fmap in Hx as (s & -> & [_ Hn]%elem_of_normal_steps). apply Hn.
      unfold on_failure_of in Hy. destruct (StepByID _ y) as [s'|] eqn:Hs'; [|done]. simpl in Hy.
      case_decide; [done|]. injection Hy as Hy. apply elem_of_CompensationRefs. apply StepByID_Some in Hs' as [? _].
      split; [by rewrite <- Hy|]. by exists s'.
    + unfold undo_queue. rewrite CompensationQueue_nub. apply NoDup_nub.
  - intros x. rewrite elem_of_app. intros [Hx|(y & Hy & _)%undo_queue_elem].
    + apply (oc_done _ Hoc) in Hx. apply list_elem_of_fmap in Hx as (s & -> & [Hs _]%elem_of_normal_steps).
      by apply list_elem_of_fmap_2.
    + unfold on_failure_of in Hy. destruct (StepByID _ y) as [s'|] eqn:Hs'; [|done]. simpl in Hy.
      case_decide; [done|]. injection Hy as <-. apply StepByID_is_Some. apply StepByID_Some in Hs' as [? _].
      by apply (wf_on_failure _ (st_well_formed Hd)).
Qed.

Lemma completes_same a status cur done queue forks :
  ¬ completes a (mkA status cur done queue forks (a_steps a)).
Proof. intros (x & k & k' & Ha & Hb). simpl in Hb. by rewrite Ha in Hb. Qed.

Lemma completes_other a status cur done queue forks id st n :
  st ≠ StepCompleted → ¬ completes a (mkA status cur done queue forks (put_step a id st n)).
Proof.
  intros Hst (x & k & k' & Ha & Hb). simpl in Hb.
  apply put_step_Some in Hb as [(_ & ? & _)|[_ Hb]]; [done|]. by rewrite Ha in Hb.
Qed.

Lemma completes_put a status cur done queue forks step n :
  at_work m a step n → completes a (mkA status cur done queue forks (put_step a (step_ID step) StepCompleted n)).
Proof.
  intros (_ & _ & Hs). exists (step_ID step), n, n. split; [done|]. simpl. unfold put_step. by rewrite lookup_insert_eq.
Qed.

(** What a move does to the mode, the completed steps and the queue. *)
Lemma life_cases a b :
  life m a b → life_ok d a →
  (normal_mode a ∧ normal_mode b ∧ ¬ completes a b ∧ a_done b = a_done a) ∨
  (normal_mode a ∧ normal_mode b ∧ completes a b ∧
     ∃ id, a_current a = Some id ∧ a_done b = mark_done (a_done a) id) ∨
  (normal_mode a ∧ ¬ normal_mode b ∧ ¬ completes a b ∧ ∃ id, a_queue b = undo_queue m id (a_done a)) ∨
  (¬ normal_mode a ∧ ¬ normal_mode b ∧ ¬ completes a b ∧ a_queue b = a_queue a) ∨
  (¬ normal_mode a ∧ ¬ normal_mode b ∧ completes a b ∧ S (length (a_queue b)) = length (a_queue a)).
Proof.
  intros Hlife Hok. unfold normal_mode.
  destruct Hlife as [forks step Hl Hc Hr|forks Hl Hc Hr|step n o r forks next Hs Hq Hat Href Hn|step n Hs Hat
    |step n o err forks Hs Hq Hat Hretry Hb|id step queue Hl Hq Hst|step n Hs Hat|step n Hs Hat|Hl Hc Hu]; simpl.
  - left. rewrite (not_compensating _ Hc). split_and!; try done; [|by apply live_not_failed|by apply completes_other].
    intros Hs. apply Hc. by left.
  - left. rewrite (not_compensating _ Hc). split_and!; try done; [|by apply live_not_failed|by apply completes_same].
    intros Hs. apply Hc. by left.
  - right; left. rewrite Hs, Hq. split_and!; try done; [by destruct next..|by apply completes_put|].
    exists (step_ID step). by destruct Hat.
  - destruct Hs as [[Hs Hq]|[Hs Hq]]; rewrite Hs.
    + left. rewrite Hq. split_and!; try done. by apply completes_other.
    + do 3 right; left. split_and!; try done; try (by intros [? _]). by apply completes_other.
  - right; right; left. rewrite Hs, Hq. split_and!; try done.
    + destruct (undo_queue _ _ _); simpl; naive_solver.
    + destruct (undo_queue _ _ _); by apply completes_other.
    + exists (step_ID step). by destruct (undo_queue _ _ _).
  - do 3 right; left. rewrite Hq. split_and!; try done; try (by intros [? _]). by apply completes_other.
  - do 4 right. rewrite Hs. pose proof (lo_compensating _ _ Hok Hs) as Hne.
    destruct (a_queue a) as [|x [|y l]] eqn:Hq; [done|..]; simpl; split_and!; try done;
      try (intros (? & ? & ?); done); by apply completes_put.
  - do 3 right; left. rewrite Hs. split_and!; try done; try (intros (? & ? & ?); done). by apply completes_same.
  - do 3 right; left. split_and!; try done; [|intros (? & ? & ?); done|by apply completes_same].
    intros (Hq & Hs & _). by destruct Hc.
Qed.

Lemma bounded_step n a b :
  life m a b → life_ok d a → bounded n a →
  (completes a b → bounded (S n) b) ∧ (¬ completes a b → bounded n b).
Proof.
  intros Hlife Hok Hb.
  destruct (life_cases _ _ Hlife Hok) as [(Ha & Hb' & Hc & Hdone)|[(Ha & Hb' & Hc & id & Hcur & Hdone)|
    [(Ha & Hb' & Hc & id & Hq)|[(Ha & Hb' & Hc & Hq)|(Ha & Hb' & Hc & Hq)]]]];
    (destruct Hb as [(Hn & Hoc & ->)|[Hn Hlen]]; try done); split; try done; intros _.
  - left. split_and!; [done|by apply (on_course_step a)|by rewrite Hdone].
  - left. split_and!; [done|by apply (on_course_step a)|]. rewrite Hdone. unfold mark_done.
    rewrite decide_False by by apply on_course_current. rewrite length_app. simpl. lia.
  - right. split; [done|]. rewrite Hq. apply undo_queue_bound; [done|]. apply Hok.
  - right. split; [done|]. by rewrite Hq.
  - right. split; [done|]. lia.
Qed.

Lemma life_path_bounded n b : life_path n initial b → life_ok d b ∧ bounded n b.
Proof.
  remember initial as a eqn:Ha. induction 1 as [a|n a b c _ IH Hl Hc|n a b c _ IH Hl Hc]; subst.
  - split; [apply initial_ok|]. left. split_and!; [done|apply on_course_initial|done].
  - destruct IH as [Hok Hb]; [done|]. split; [by apply (life_preserves d b)|]. by apply (bounded_step n b).
  - destruct IH as [Hok Hb]; [done|]. split; [by apply (life_preserves d b)|]. by apply (bounded_step n b).
Qed.

(** Every path is a counted path. *)
Lemma life_path_exists b : rtc (life m) initial b → ∃ n, life_path n initial b.
Proof.
  revert b. apply (rtc_ind_r (λ b, ∃ n, life_path n initial b)); [exists 0; constructor|].
  intros b c _ Hbc [n IH].
  destruct (life_path_bounded n b IH) as [Hok _].
  destruct (life_cases b c Hbc Hok) as [(_ & _ & Hc & _)|[(_ & _ & Hc & _)|[(_ & _ & Hc & _)|[(_ & _ & Hc & _)|(_ & _ & Hc & _)]]]];
    eexists; first [by eapply lp_step | by eapply lp_complete].
Qed.

(** In normal mode a reachable lifecycle is on course. *)
Lemma reachable_on_course b : rtc (life m) initial b → normal_mode b → on_course b.
Proof. intros [n Hp]%life_path_exists Hb. by destruct (life_path_bounded n b Hp) as [_ [(_ & ? & _)|[? _]]]. Qed.
End straight.

(** Termination: in a validated workflow without forks (and whose normal steps name no
    compensation target), no lifecycle goes round in circles: whatever the results of the
    steps, the jumps, the retries and the compensations, at most as many moves complete a
    step as the definition has steps. *)
Theorem workflow_terminates d n b :
  straight d → life_path d n initial b → n ≤ length (dsl_Steps d).
Proof.
  intros Hd [Hok Hb]%life_path_bounded; [|done]. destruct Hb as [(_ & Hoc & ->)|[_ Hlen]]; [|lia].
  pose proof (undo_queue_bound d Hd b "" Hoc (lo_nodup _ _ Hok)). lia.
Qed.

(** ** The order example *)

#[local] Existing Instance toy_externals.

Lemma order_straight : straight order_dsl.
Proof.
  assert (Hrefs : ∀ step, step ∈ dsl_Steps order_dsl → explicitRefs step = []).
  { intros step [->|[->|[]%elem_of_nil]%elem_of_cons]%elem_of_cons; done. }
  split.
  - destruct (Validate_spec [] None NewValidator order_dsl) as (r & Hr & Hok). apply Hok.
    vm_compute in Hr. by injection Hr as <-.
  - intros step [->|[->|[]%elem_of_nil]%elem_of_cons]%elem_of_cons; done.
  - intros step ref Hin _ Href. rewrite Hrefs in Href by done. by apply elem_of_nil in Href.
Qed.

(** The two steps of the example, one after the other. *)
Lemma order_path : ∃ b, life_path order_dsl 2 initial b ∧ a_done b = ["reserve"; "ship"].
Proof.
  set (step k := default (mkStep "" "" None None "") (dsl_Steps order_dsl !! k)).
  set (start k a := mkA InstanceRunning (Some (step_ID (step k))) (a_done a) (a_queue a) ∅
    (put_step a (step_ID (step k)) StepRunning 1)).
  set (finish k status next a := mkA status next (mark_done (a_done a) (step_ID (step k))) (a_queue a) ∅
    (put_step a (step_ID (step k)) StepCompleted 1)).
  set (a1 := start 0 initial). set (a2 := finish 0 InstanceRunning (Some "ship") a1).
  set (a3 := start 1 a2). set (a4 := finish 1 InstanceCompleted None a3).
  assert (Hin : ∀ k, k < 2 → step k ∈ dsl_Steps order_dsl).
  { intros [|[|k]] Hk; [by apply list_elem_of_here|by apply list_elem_of_further, list_elem_of_here|lia]. }
  assert (Hlive : ∀ s, s = InstancePending ∨ s = InstanceRunning → ¬ terminal s) by (by intros s [->| ->] [?|?]).
  assert (Hcomp : ∀ a, a_queue a = [] → a_status a ≠ InstanceCompensating → ¬ a_compensating a) by (by intros a Hq Hs [?|?]).
  assert (Hput : ∀ k status next a, at_work (NewMachine order_dsl) a (step k) 1 → completes a (finish k status next a)).
  { intros. by eapply completes_put. }
  assert (Hw1 : at_work (NewMachine order_dsl) a1 (step 0) 1) by (split_and!; [done|apply Hin; lia|done]).
  assert (Hw3 : at_work (NewMachine order_dsl) a3 (step 1) 1) by (split_and!; [done|apply Hin; lia|done]).
  assert (Hhead : head (m_normal (NewMachine order_dsl)) = Some (step 0)) by (vm_compute; reflexivity).
  exists a4. split; [|done].
  eapply (lp_complete _ _ _ a3); [eapply (lp_step _ _ _ a2); [eapply (lp_complete _ _ _ a1);
    [eapply (lp_step _ _ _ initial); [apply lp_refl| |]| |]| |]| |]; try by apply Hput.
  - apply (life_start _ initial ∅ (step 0)); [by apply Hlive; left|by apply Hcomp|].
    rewrite <- Hhead. by apply (resume_first (NewMachine order_dsl) initial).
  - by apply completes_other.
  - apply (life_success _ a1 (step 0) 1 [] None ∅ (Some (step 1))); [done|done|done|by intros ? ? [=]|]. vm_compute. reflexivity.
  - apply (life_start _ a2 ∅ (step 1)); [by apply Hlive; right|by apply Hcomp|].
    by apply (resume_current _ a2 "ship").
  - by apply completes_other.
  - apply (life_success _ a3 (step 1) 1 [] None ∅ None); [done|done|done|by intros ? ? [=]|]. vm_compute. reflexivity.
Qed.

Lemma workflow_terminates_witness : ∃ b, a_done b = ["reserve"; "ship"] ∧ 2 ≤ length (dsl_Steps order_dsl).
Proof.
  destruct order_path as (b & Hb & Hdone). exists b. split; [exact Hdone|].
  apply (workflow_terminates order_dsl 2 b order_straight Hb).
Defined.
