(* ===== verification/Evolves.v ===== *)
(** * How a persisted instance may change

    [evolves D a b]: the row [b] may replace the row [a] of the same instance.  It is the
    specification of the engine's writes: versions grow and a version determines the
    row, a finished instance is frozen, an instance that has begun to compensate never
    completes and only shortens its queue, completed steps are never forgotten,
    attempts never decrease, idempotency keys never change, and the forks stay well
    formed; and in the abstract the row goes through steps of [life], with the machine of
    the definition stored in [D].  [changes l l'] is the same specification for the in-memory instance the
    engine saves, and [same_core] relates a row to the in-memory instance. *)

From S2P Require Import Prelude GoNum GoTime Workflow Accessors Machine BranchSteps MachineFacts.
From S2P Require Import Json Store Externals Effects Lifecycle.

#[local] Open Scope Z_scope.

Definition steps_done (i : Instance_) : list string := rs_Completed (i_State i).
Definition comp_queue (i : Instance_) : list string := rs_CompensationQueue (i_State i).
Definition attempts (i : Instance_) (id : string) : Z := ss_Attempt (step_state (i_State i) id).
Definition idem_key (i : Instance_) (id : string) : string := ss_IdempotencyKey (step_state (i_State i) id).

(** The instance failed or is undoing its steps. *)
Definition compensating (i : Instance_) : Prop :=
  i_Status i ≠ InstanceCompleted ∧
  (i_Status i = InstanceCompensating ∨ i_Status i = InstanceFailed ∨ comp_queue i ≠ []).

(** The definitions of a repository, by tenant and id. *)
Definition defs : Type := string → string → option DefinitionDSL.
Definition defs_le (D D' : defs) : Prop := ∀ tenant id d, D tenant id = Some d → D' tenant id = Some d.

#[export] Instance defs_le_preorder : PreOrder defs_le.
Proof. split; [by intros D t id d|]. intros D1 D2 D3 H12 H23 t id d Hd. by apply H23, H12. Qed.

(** A step of the lifecycle of the instance [i]. *)
Definition life_of (D : defs) (i : Instance_) (x y : astate) : Prop :=
  ∃ d, D (i_TenantID i) (i_DefinitionID i) = Some d ∧ life (NewMachine d) x y.

Lemma life_of_mono D D' i x y : defs_le D D' → rtc (life_of D i) x y → rtc (life_of D' i) x y.
Proof. intros HD. apply rtc_subrel. intros u v (d & Hd & Hl). exists d. split; [by apply HD|done]. Qed.

Record evolves (D : defs) (a b : Instance_) : Prop := {
  ev_id : i_ID b = i_ID a ∧ i_TenantID b = i_TenantID a ∧ i_DefinitionID b = i_DefinitionID a ∧
          i_DefinitionVersion b = i_DefinitionVersion a ∧ i_Input b = i_Input a;
  ev_version : i_Version a ≤ i_Version b;
  ev_same : i_Version a = i_Version b → b = a;
  ev_terminal : terminal (i_Status a) → b = a;
  ev_pending : i_Status b = InstancePending → i_Status a = InstancePending;
  ev_comp : compensating a → compensating b ∧ comp_queue b `suffix_of` comp_queue a;
  ev_done : steps_done a `prefix_of` steps_done b;
  ev_attempt : ∀ id, attempts a id ≤ attempts b id;
  ev_key : ∀ id, idem_key a id ≠ "" → idem_key b id = idem_key a id;
  ev_started : rs_StartedAt (i_State b) = rs_StartedAt (i_State a);
  ev_forks : forks_ok (i_State a) → compensating b ∨ forks_ok (i_State b);
  ev_life : rtc (life_of D a) (abs a) (abs b);
}.

#[export] Instance evolves_refl D : Reflexive (evolves D).
Proof. intros a. constructor; auto; [lia|naive_solver..|done]. Qed.

Lemma evolves_mono D D' a b : defs_le D D' → evolves D a b → evolves D' a b.
Proof. intros HD []. constructor; try done. by eapply life_of_mono. Qed.

#[export] Instance evolves_trans D : Transitive (evolves D).
Proof.
  intros a b c Hab Hbc. constructor.
  - destruct (ev_id _ _ _ Hab) as (?&?&?&?&?), (ev_id _ _ _ Hbc) as (?&?&?&?&?).
    split_and!; congruence.
  - pose proof (ev_version _ _ _ Hab). pose proof (ev_version _ _ _ Hbc). lia.
  - intros Heq. pose proof (ev_version _ _ _ Hab). pose proof (ev_version _ _ _ Hbc).
    assert (b = a) as -> by (apply (ev_same _ _ _ Hab); lia). by apply (ev_same _ _ _ Hbc).
  - intros Ht. assert (b = a) as -> by by apply (ev_terminal _ _ _ Hab). by apply (ev_terminal _ _ _ Hbc).
  - intros Hp. by apply (ev_pending _ _ _ Hab), (ev_pending _ _ _ Hbc).
  - intros Hc. destruct (ev_comp _ _ _ Hab Hc) as [Hb ?]. destruct (ev_comp _ _ _ Hbc Hb) as [? ?].
    split; [done|]. by etrans.
  - etrans; [apply Hab|apply Hbc].
  - intros id. pose proof (ev_attempt _ _ _ Hab id). pose proof (ev_attempt _ _ _ Hbc id). lia.
  - intros id Hk. pose proof (ev_key _ _ _ Hab id Hk) as Hb. rewrite <- Hb. apply (ev_key _ _ _ Hbc). by rewrite Hb.
  - etrans; [apply Hbc|apply Hab].
  - intros Hf. destruct (ev_forks _ _ _ Hab Hf) as [Hb|Hb]; [left; by apply (ev_comp _ _ _ Hbc)|by apply (ev_forks _ _ _ Hbc)].
  - etrans; [apply Hab|]. destruct (ev_id _ _ _ Hab) as (_ & Ht & Hd & _).
    pose proof (ev_life _ _ _ Hbc) as Hl. unfold life_of in Hl. rewrite Ht, Hd in Hl. exact Hl.
Qed.

(** ** Rows and in-memory instances *)

(** The row and the instance in memory agree on what [evolves] speaks of. *)
Record same_core (row l : Instance_) : Prop := {
  sc_id : i_ID row = i_ID l;
  sc_owner : i_TenantID row = i_TenantID l ∧ i_DefinitionID row = i_DefinitionID l;
  sc_version : i_Version row = i_Version l;
  sc_status : i_Status row = i_Status l;
  sc_queue : comp_queue row = comp_queue l;
  sc_done : steps_done row = steps_done l;
  sc_started : rs_StartedAt (i_State row) = rs_StartedAt (i_State l);
  sc_attempt : ∀ id, attempts row id = attempts l id;
  sc_key : ∀ id, idem_key row id = idem_key l id;
  sc_forks : ∀ id, gm_get (rs_Forks (i_State row)) id = gm_get (rs_Forks (i_State l)) id;
  sc_abs : abs row = abs l;
}.

#[export] Instance same_core_refl : Reflexive same_core.
Proof. intros a. by constructor. Qed.

(** What saving [l'] in place of [l] must satisfy. *)
Record changes (l l' : Instance_) : Prop := {
  ch_id : i_ID l' = i_ID l ∧ i_TenantID l' = i_TenantID l ∧ i_DefinitionID l' = i_DefinitionID l;
  ch_version : i_Version l' = i_Version l;
  ch_live : ¬ terminal (i_Status l);
  ch_pending : i_Status l' ≠ InstancePending;
  ch_comp : compensating l → compensating l' ∧ comp_queue l' `suffix_of` comp_queue l;
  ch_done : steps_done l `prefix_of` steps_done l';
  ch_attempt : ∀ id, attempts l id ≤ attempts l' id;
  ch_key : ∀ id, idem_key l id ≠ "" → idem_key l' id = idem_key l id;
  ch_started : rs_StartedAt (i_State l') = rs_StartedAt (i_State l);
  ch_forks : forks_ok (i_State l) → compensating l' ∨ forks_ok (i_State l');
}.

(** What is read of a saved state: everything but the JSON form of the values. *)
Lemma saved_step_state s id : step_state (Normalize (reload s)) id = reload_step (step_state s id).
Proof. by rewrite Normalize_step_state, reload_step_state. Qed.

Lemma saved_forks s id : gm_get (rs_Forks (Normalize (reload s))) id = gm_get (rs_Forks s) id.
Proof. by rewrite Normalize_Forks, gm_get_reload_forks. Qed.

Lemma saved_same_core row l now :
  i_ID row = i_ID l → i_TenantID row = i_TenantID l ∧ i_DefinitionID row = i_DefinitionID l →
  i_Version row = i_Version l →
  same_core (updated_row row l now) (with_version l (i_Version l + 1)).
Proof.
  intros Hid Hown Hv. constructor; simpl; try done.
  - by rewrite Hv.
  - unfold comp_queue. simpl. by rewrite Normalize_Queue.
  - unfold steps_done. simpl. by rewrite Normalize_Completed.
  - by rewrite Normalize_StartedAt.
  - intros id. unfold attempts. simpl. by rewrite saved_step_state.
  - intros id. unfold idem_key. simpl. by rewrite saved_step_state.
  - intros id. simpl. by rewrite saved_forks.
  - rewrite abs_updated. done.
Qed.

Lemma same_core_compensating row l : same_core row l → compensating row ↔ compensating l.
Proof. intros Hc. unfold compensating. by rewrite (sc_status _ _ Hc), (sc_queue _ _ Hc). Qed.

Lemma same_core_forks row l : same_core row l → forks_ok (i_State row) ↔ forks_ok (i_State l).
Proof. intros Hc. unfold forks_ok. by setoid_rewrite (sc_forks _ _ Hc). Qed.

(** Saving a permitted change is a permitted change of the row. *)
Lemma changes_evolves D row l l' now :
  same_core row l → changes l l' → life_of D l (abs l) (abs l') → evolves D row (updated_row row l' now).
Proof.
  intros Hc Hl Hlife. destruct (ch_id _ _ Hl) as (Hid' & Hten' & Hdef'). destruct (sc_owner _ _ Hc) as [Hten Hdef].
  assert (Hid : i_ID row = i_ID l') by (rewrite Hid'; apply Hc).
  assert (Hown : i_TenantID row = i_TenantID l' ∧ i_DefinitionID row = i_DefinitionID l') by (split; congruence).
  assert (Hv : i_Version row = i_Version l') by (rewrite (ch_version _ _ Hl); apply Hc).
  pose proof (saved_same_core row l' now Hid Hown Hv) as Hs.
  assert (Hcomp : compensating (updated_row row l' now) ↔ compensating l')
    by apply (same_core_compensating _ _ Hs).
  constructor.
  - done.
  - simpl. lia.
  - simpl. intros. lia.
  - rewrite (sc_status _ _ Hc). intros Ht. by destruct (ch_live _ _ Hl).
  - simpl. intros Hp. by destruct (ch_pending _ _ Hl).
  - rewrite (same_core_compensating _ _ Hc), Hcomp. intros [Hc' Hq]%(ch_comp _ _ Hl).
    split; [done|]. rewrite (sc_queue _ _ Hs), (sc_queue _ _ Hc). exact Hq.
  - rewrite (sc_done _ _ Hs), (sc_done _ _ Hc). apply Hl.
  - intros id. rewrite (sc_attempt _ _ Hs), (sc_attempt _ _ Hc). apply Hl.
  - intros id. rewrite (sc_key _ _ Hs), (sc_key _ _ Hc). apply Hl.
  - rewrite (sc_started _ _ Hs), (sc_started _ _ Hc). apply Hl.
  - rewrite (same_core_forks _ _ Hc), Hcomp, (same_core_forks _ _ Hs). apply Hl.
  - apply rtc_once. rewrite abs_updated, (sc_abs _ _ Hc). unfold life_of in *. by rewrite Hten, Hdef.
Qed.
