(* ===== verification/Concurrency.v ===== *)
(** * Concurrent runs

    Any number of goroutines, of any number of processes, share the repository and
    Redis.  [pool_step] interleaves them call by call, with every fault of [choice],
    crashes (a goroutine disappears at any point) and starts of new ones.  [safe p w]
    says that the goroutine [p], which last saw the world [w], never panics and
    changes the instances only as [evolves] permits, while the others do the same;
    [pool_safe] concludes for whole runs. *)

From S2P Require Import Prelude GoNum GoTime Workflow Accessors Machine BranchSteps MachineFacts.
From S2P Require Import Json Store Externals Effects Lifecycle Evolves.

(** ** Interleaved runs *)
Section pool.
Context {S : Type} `{Repository S}.

Record pool := mkPool { p_threads : list (prog ()); p_world : World S }.

(** [starts p]: a goroutine that the system may start. *)
Inductive pool_step (starts : prog () → Prop) : pool → pool → Prop :=
| ps_call ts1 ts2 w R (e : eff R) k c r w' :
    handle e c w = (r, w') →
    pool_step starts (mkPool (ts1 ++ PCall e k :: ts2) w) (mkPool (ts1 ++ k r :: ts2) w')
| ps_stop ts1 t ts2 w :
    pool_step starts (mkPool (ts1 ++ t :: ts2) w) (mkPool (ts1 ++ ts2) w)
| ps_start ts t w :
    starts t → pool_step starts (mkPool ts w) (mkPool (t :: ts) w).

Definition panics (p : pool) : Prop := PPanic ∈ p_threads p.

(** ** Permitted changes of the world *)

(** Definitions are only added, rows evolve, and the other rows are new instances that
    may have evolved since. *)
Record world_evolves (w w' : World S) : Prop := {
  we_defs : defs_le (repo_def (w_repo w)) (repo_def (w_repo w'));
  we_rows id a : repo_view (w_repo w) id = Some a →
    ∃ b, repo_view (w_repo w') id = Some b ∧ evolves (repo_def (w_repo w')) a b;
  we_new id b : repo_view (w_repo w') id = Some b →
    is_Some (repo_view (w_repo w) id) ∨ ∃ a, newborn a ∧ evolves (repo_def (w_repo w')) a b;
}.

#[export] Instance world_evolves_refl : Reflexive world_evolves.
Proof. intros w. split; [done|by eexists|by left]. Qed.
#[export] Instance world_evolves_trans : Transitive world_evolves.
Proof.
  intros w1 w2 w3 H12 H23. split.
  - etrans; [apply H12|apply H23].
  - intros id a Ha. destruct (we_rows _ _ H12 id a Ha) as (b & Hb & Hab).
    destruct (we_rows _ _ H23 id b Hb) as (c & Hc & Hbc). exists c. split; [done|].
    etrans; [|exact Hbc]. eapply evolves_mono, Hab. apply H23.
  - intros id c Hc. destruct (we_new _ _ H23 id c Hc) as [[b Hb]|?]; [|by right].
    destruct (we_new _ _ H12 id b Hb) as [?|(a & Ha & Hab)]; [by left|]. right. exists a. split; [done|].
    destruct (we_rows _ _ H23 id b Hb) as (c' & Hc' & Hbc). rewrite Hc in Hc'. injection Hc' as <-.
    etrans; [|exact Hbc]. eapply evolves_mono, Hab. apply H23.
Qed.

(** The rows that change are existing ones. *)
Lemma world_evolves_intro (w w' : World S) :
  defs_le (repo_def (w_repo w)) (repo_def (w_repo w')) →
  (∀ id b, repo_view (w_repo w') id = Some b →
     (∃ a, repo_view (w_repo w) id = Some a ∧ evolves (repo_def (w_repo w')) a b) ∨
     (repo_view (w_repo w) id = None ∧ newborn b)) →
  (∀ id, is_Some (repo_view (w_repo w) id) → is_Some (repo_view (w_repo w') id)) →
  world_evolves w w'.
Proof.
  intros HD Hrows Hdom. split; [done| |].
  - intros id a Ha. destruct (Hdom id) as [b Hb]; [by eexists|]. exists b. split; [done|].
    destruct (Hrows id b Hb) as [(a' & Ha' & Hev)|[Hn _]]; [|congruence]. rewrite Ha in Ha'. by injection Ha' as <-.
  - intros id b Hb. destruct (Hrows id b Hb) as [(a & Ha & _)|[_ Hf]]; [left; by eexists|right; by exists b].
Qed.

(** ** Safe goroutines *)

Fixpoint safe {A} (p : prog A) (Q : A → World S → Prop) (w : World S) : Prop :=
  match p with
  | PRet a => Q a w
  | PPanic => False
  | PCall e k => ∀ w1 c, world_evolves w w1 →
      let '(r, w2) := handle e c w1 in world_evolves w1 w2 ∧ safe (k r) Q w2
  end.

Lemma safe_mono {A} (p : prog A) (Q Q' : A → World S → Prop) w :
  (∀ a w', Q a w' → Q' a w') → safe p Q w → safe p Q' w.
Proof.
  intros HQ. revert w. induction p as [a| |R e k IH]; intros w; simpl; [apply HQ|done|].
  intros Hs w1 c Hw. specialize (Hs w1 c Hw). destruct (handle e c w1) as [r w2].
  destruct Hs as [? ?]. split; [done|]. by apply IH.
Qed.

Lemma safe_bind {A B} (p : prog A) (f : A → prog B) Q w :
  safe p (λ a w', safe (f a) Q w') w → safe (p ≫= f) Q w.
Proof.
  revert w. induction p as [a| |R e k IH]; intros w; simpl; [done|done|].
  intros Hs w1 c Hw. specialize (Hs w1 c Hw). destruct (handle e c w1) as [r w2].
  destruct Hs as [? ?]. split; [done|]. by apply IH.
Qed.

Lemma safe_defer {A} (p : prog A) cleanup (Q : A → World S → Prop) w :
  safe p (λ a w', safe cleanup (λ _, Q a) w') w → safe (prog_defer p cleanup) Q w.
Proof.
  revert w. induction p as [a| |R e k IH]; intros w; simpl; [|done|].
  - intros Hs. apply (safe_bind cleanup (λ _, PRet a)). eapply safe_mono, Hs. done.
  - intros Hs w1 c Hw. specialize (Hs w1 c Hw). destruct (handle e c w1) as [r w2].
    destruct Hs as [? ?]. split; [done|]. by apply IH.
Qed.

(** Stable under what the others do. *)
Lemma safe_stable {A} (p : prog A) (Q : A → World S → Prop) w w' :
  (∀ a w w', world_evolves w w' → Q a w → Q a w') → world_evolves w w' → safe p Q w → safe p Q w'.
Proof.
  intros HQ Hw. destruct p as [a| |R e k]; simpl; [by apply HQ|done|].
  intros Hs w1 c Hw1. apply Hs. by etrans.
Qed.

Definition always {A} : A → World S → Prop := λ _ _, True.

Lemma safe_try {A B} (p : prog (res A)) ctx (f : A → prog (res B)) Q w :
  safe p (λ r w', match r with Ok a => safe (f a) Q w' | Err e => Q (Err (ErrWrap ctx e)) w' end) w →
  safe (try_err p ctx f) Q w.
Proof. intros Hs. apply safe_bind. eapply safe_mono, Hs. by intros [a|e] w'. Qed.

(** ** Runs of safe goroutines *)

Lemma pool_step_safe (starts : prog () → Prop) p p' :
  (∀ t w, starts t → safe t always w) →
  pool_step starts p p' →
  Forall (λ t, safe t always (p_world p)) (p_threads p) →
  Forall (λ t, safe t always (p_world p')) (p_threads p') ∧ world_evolves (p_world p) (p_world p').
Proof.
  intros Hstart Hstep. destruct Hstep as [ts1 ts2 w R e k c r w' Heq|ts1 t ts2 w|ts t w Ht]; simpl; intros Hall.
  - apply Forall_app in Hall as [H1 [He H2]%Forall_cons].
    specialize (He w c (reflexivity w)). rewrite Heq in He. destruct He as [Hw Hk].
    assert (Hst : ∀ ts : list (prog ()), Forall (λ t, safe t always w) ts → Forall (λ t, safe t always w') ts).
    { intros ts Hts. eapply Forall_impl; [exact Hts|]. intros t. by apply safe_stable. }
    split; [|done]. apply Forall_app; split; [by apply Hst|]. constructor; [done|by apply Hst].
  - apply Forall_app in Hall as [H1 [_ H2]%Forall_cons]. split; [by apply Forall_app|done].
  - split; [|done]. constructor; [by apply Hstart|done].
Qed.

Lemma pool_run_safe (starts : prog () → Prop) p p' :
  (∀ t w, starts t → safe t always w) →
  rtc (pool_step starts) p p' →
  Forall (λ t, safe t always (p_world p)) (p_threads p) →
  Forall (λ t, safe t always (p_world p')) (p_threads p') ∧ world_evolves (p_world p) (p_world p').
Proof.
  intros Hstart Hrun. induction Hrun as [p|p1 p2 p3 Hstep _ IH]; [done|]. intros Hall.
  destruct (pool_step_safe _ _ _ Hstart Hstep Hall) as [H2 Hw]. destruct (IH H2) as [H3 Hw'].
  split; [done|]. by etrans.
Qed.

Lemma safe_no_panic p : Forall (λ t, safe t always (p_world p)) (p_threads p) → ¬ panics p.
Proof. intros Hall Hp. rewrite Forall_forall in Hall. by apply (Hall _ Hp). Qed.
End pool.

Arguments pool S : clear implicits.

(** ** Calls that leave the instances alone *)

Definition frame_eff {R} (e : eff R) : Prop :=
  match e with
  | ERepo op => keeps_instances op
  | _ => True
  end.

Section calls.
Context {S : Type} `{RepositoryLaws S}.

Lemma with_fault_snd {A} f (op : S → res A * S) (P : S → Prop) s :
  P s → P (op s).2 → P (with_fault f op s).2.
Proof. by destruct f. Qed.

Lemma with_fault_ok {A} f (op : S → res A * S) s a :
  (with_fault f op s).1 = Ok a → (op s).1 = Ok a ∧ (with_fault f op s).2 = (op s).2.
Proof. by destruct f. Qed.

Lemma handle_frame {R} (e : eff R) c (w : World S) :
  frame_eff e → ∀ id, repo_view (w_repo (handle e c w).2) id = repo_view (w_repo w) id.
Proof.
  intros He id. destruct e as [A op| | | | | | | | | | | | | | | ]; simpl in *;
    try done; try (unfold on_redis; by destruct (with_fault _ _ _)).
  destruct (with_fault (c_fault c) (repo_exec op (c_tick c)) (w_repo w)) as [r s] eqn:Hf. simpl.
  change s with (r, s).2. rewrite <- Hf.
  apply (with_fault_snd _ _ (λ s, repo_view s id = repo_view (w_repo w) id)); [done|by apply law_frame].
Qed.

(** Every call keeps the definitions. *)
Lemma handle_defs {R} (e : eff R) c (w : World S) :
  defs_le (repo_def (w_repo w)) (repo_def (w_repo (handle e c w).2)).
Proof.
  intros t id d Hd. destruct e as [A op| | | | | | | | | | | | | | | ]; simpl in *;
    try done; try (unfold on_redis; by destruct (with_fault _ _ _)).
  destruct (with_fault (c_fault c) (repo_exec op (c_tick c)) (w_repo w)) as [r s] eqn:Hf. simpl.
  change s with (r, s).2. rewrite <- Hf.
  apply (with_fault_snd _ _ (λ s, repo_def s t id = Some d)); [done|by apply law_def_stable].
Qed.

Lemma handle_frame_evolves {R} (e : eff R) c (w : World S) :
  frame_eff e → world_evolves w (handle e c w).2.
Proof.
  intros He. apply world_evolves_intro; [apply handle_defs| |].
  - intros id b. rewrite handle_frame by done. intros Hb. left. by exists b.
  - intros id. by rewrite handle_frame.
Qed.

(** A call that leaves the instances alone, whatever it returns. *)
Lemma safe_frame {R A} (e : eff R) (k : R → prog A) Q (w : World S) :
  frame_eff e → (∀ r w', world_evolves w w' → safe (k r) Q w') → safe (PCall e k) Q w.
Proof.
  intros He Hk w1 c Hw. pose proof (handle_frame_evolves e c w1 He) as Hw2.
  destruct (handle e c w1) as [r w2]. split; [done|]. apply Hk. by etrans.
Qed.

Lemma safe_call_frame {R} (e : eff R) Q (w : World S) :
  frame_eff e → (∀ r w', world_evolves w w' → Q r w') → safe (call e) Q w.
Proof. intros He HQ. by apply safe_frame. Qed.

(** ** What a worker knows of the row it works on

    [knows l w]: the row was at some time as in the memory of the worker, and has only
    evolved since. *)
Definition knows (l : Instance_) (w : World S) : Prop :=
  ∃ row0 row, same_core row0 l ∧ repo_view (w_repo w) (i_ID l) = Some row ∧
    evolves (repo_def (w_repo w)) row0 row.

Lemma knows_stable l w w' : world_evolves w w' → knows l w → knows l w'.
Proof.
  intros Hw (row0 & row & Hc & Hrow & Hev). destruct (we_rows _ _ Hw _ _ Hrow) as (row' & Hrow' & Hev').
  exists row0, row'. split_and!; [done..|]. etrans; [|exact Hev']. eapply evolves_mono, Hev. apply Hw.
Qed.

(** [m] is the machine of the definition of [l]. *)
Definition machine_of (l : Instance_) (m : Machine) (w : World S) : Prop :=
  ∃ d, repo_def (w_repo w) (i_TenantID l) (i_DefinitionID l) = Some d ∧ m = NewMachine d.

Lemma machine_of_stable l m w w' : world_evolves w w' → machine_of l m w → machine_of l m w'.
Proof. intros Hw (d & Hd & ->). exists d. split; [by apply (we_defs _ _ Hw)|done]. Qed.

Lemma machine_of_same l l' m w :
  i_TenantID l' = i_TenantID l → i_DefinitionID l' = i_DefinitionID l → machine_of l m w → machine_of l' m w.
Proof. unfold machine_of. by intros -> ->. Qed.

(** Reading the definition of an instance. *)
Lemma safe_get_definition {A} l (k : res Definition_ → prog A) Q (w : World S) :
  (∀ d w', world_evolves w w' → machine_of l (NewMachine (d_DSL d)) w' → safe (k (Ok d)) Q w') →
  (∀ e w', safe (k (Err e)) Q w') →
  safe (PCall (ERepo (OpGetDefinitionForTenant (i_TenantID l) (i_DefinitionID l))) k) Q w.
Proof.
  set (op := OpGetDefinitionForTenant (i_TenantID l) (i_DefinitionID l)).
  intros Hok Herr w1 c Hw.
  pose proof (handle_frame_evolves (ERepo op) c w1 I) as Hw2. revert Hw2. simpl.
  destruct (with_fault (c_fault c) (repo_exec op (c_tick c)) (w_repo w1)) as [r s] eqn:Hf.
  intros Hw2. split; [done|]. destruct r as [d|e]; [|done].
  apply Hok; [by etrans|]. apply (machine_of_stable _ _ w1); [done|]. exists (d_DSL d). split; [|done].
  assert (Hr : (with_fault (c_fault c) (repo_exec op (c_tick c)) (w_repo w1)).1 = Ok d) by by rewrite Hf.
  apply with_fault_ok in Hr as [Hr _]. by eapply law_def.
Qed.

(** A claim: the worker's instance is the row. *)
Lemma safe_claim {A} id owner until (k : res Instance_ → prog A) Q (w : World S) :
  (∀ inst w', i_ID inst = id → ¬ terminal (i_Status inst) → knows inst w' → safe (k (Ok inst)) Q w') →
  (∀ e w', safe (k (Err e)) Q w') →
  safe (PCall (ERepo (OpClaimInstance id owner until)) k) Q w.
Proof.
  intros Hok Herr w1 c Hw.
  pose proof (handle_frame_evolves (ERepo (OpClaimInstance id owner until)) c w1 I) as Hw2.
  revert Hw2. simpl.
  destruct (with_fault (c_fault c) (repo_exec (OpClaimInstance id owner until) (c_tick c)) (w_repo w1))
    as [r s] eqn:Hf. intros Hw2. split; [done|]. destruct r as [inst|e]; [|done].
  assert (Hr : (with_fault (c_fault c) (repo_exec (OpClaimInstance id owner until) (c_tick c)) (w_repo w1)).1
    = Ok inst) by by rewrite Hf.
  apply with_fault_ok in Hr as [Hr _]. apply law_claim in Hr as (Hview & Hlive & Hid).
  apply Hok; [done..|]. apply (knows_stable _ w1); [done|]. exists inst, inst. by rewrite Hid.
Qed.

(** Saving a permitted change of the instance: on success the worker knows the new row. *)
Lemma safe_update {A} l l' m (k : res Instance_ → prog A) Q (w : World S) :
  knows l w → machine_of l m w → changes l l' → life m (abs l) (abs l') →
  (∀ w', world_evolves w w' → knows (with_version l' (i_Version l' + 1)) w' →
     safe (k (Ok (with_version l' (i_Version l' + 1)))) Q w') →
  (∀ e w', safe (k (Err e)) Q w') →
  safe (PCall (ERepo (OpUpdateInstance l' (i_Version l'))) k) Q w.
Proof.
  intros Hk Hm Hch Hlife Hok Herr w1 c Hw. apply (knows_stable _ _ _ Hw) in Hk as (row0 & row & Hc & Hrow & Hev).
  apply (machine_of_stable _ _ _ _ Hw) in Hm as (d & Hd & ->).
  set (op := OpUpdateInstance l' (i_Version l')).
  destruct (ch_id _ _ Hch) as (Hid & Hten & Hdef).
  (* whenever the statement takes effect, the row was the one the worker knows *)
  assert (Heff : ∀ r, (repo_exec op (c_tick c) (w_repo w1)).1 = Ok r →
    r = with_version l' (i_Version l' + 1) ∧
    world_evolves w1 (mkWorld (repo_exec op (c_tick c) (w_repo w1)).2 (w_redis w1)) ∧
    knows r (mkWorld (repo_exec op (c_tick c) (w_repo w1)).2 (w_redis w1))).
  { intros r Hr. destruct (law_update_ok _ _ _ _ _ Hr) as (-> & row' & now & Hrow' & Hv & Hnew).
    rewrite Hid, Hrow in Hrow'. injection Hrow' as <-.
    assert (row = row0) as ->.
    { apply (ev_same _ _ _ Hev). rewrite (sc_version _ _ Hc), Hv. symmetry. apply Hch. }
    assert (HD : defs_le (repo_def (w_repo w1)) (repo_def (repo_exec op (c_tick c) (w_repo w1)).2))
      by (intros t i d'; apply law_def_stable).
    assert (Hother : ∀ id, id ≠ i_ID l' → repo_view (repo_exec op (c_tick c) (w_repo w1)).2 id = repo_view (w_repo w1) id)
      by (intros; by apply law_update_other).
    split_and!; [done| |].
    - apply world_evolves_intro; [done| |]; simpl; intros id;
        (destruct (decide (id = i_ID l')) as [->|Hne]; [unfold op; rewrite Hnew|rewrite Hother by done]).
      + intros b [= <-]. left. exists row0. rewrite Hid. split; [done|].
        apply (changes_evolves _ _ l); [done..|]. exists d. split; [by apply HD|done].
      + intros b Hb. left. by exists b.
      + done.
      + done.
    - exists (updated_row row0 l' now), (updated_row row0 l' now). split_and!; [|exact Hnew|done].
      apply saved_same_core; [|split|]; rewrite ?Hid, ?Hten, ?Hdef; try apply Hc. done. }
  simpl. fold op.
  assert (Hsame : ∀ e, (repo_exec op (c_tick c) (w_repo w1)).1 = Err e →
    (repo_exec op (c_tick c) (w_repo w1)).2 = w_repo w1) by apply law_update_err.
  destruct (repo_exec op (c_tick c) (w_repo w1)) as [r s] eqn:Hr. simpl in Heff, Hsame.
  assert (Hs : world_evolves w1 (mkWorld s (w_redis w1))).
  { destruct r as [r|e]; [by apply (Heff r)|]. rewrite (Hsame e eq_refl). by destruct w1. }
  destruct (c_fault c); simpl; rewrite ?Hr; simpl; (split; [by destruct w1|]); [|apply Herr|apply Herr].
  destruct r as [r|e]; [|apply Herr]. destruct (Heff r eq_refl) as (-> & Hev' & Hkn).
  apply Hok; [by etrans|done].
Qed.
End calls.

#[export] Hint Resolve knows_stable machine_of_stable : go_db.
