(* ===== verification/Framed.v ===== *)
(** * Programs that never panic and make only harmless calls

    [framed_by P p]: [p] does not panic, and every call it makes, whatever the previous
    ones returned, satisfies [P].  The executor reads the clock, the context, the network
    ([env_eff]); the timer service also writes timers, Redis keys and tasks
    ([timer_eff]); neither writes an instance ([frame_eff]). *)

From S2P Require Import Prelude GoNum GoString GoTime Workflow Accessors Json Store Externals.
From S2P Require Import Effects Security Timer Worker Engine Evolves Concurrency.

Fixpoint framed_by {A} (P : ∀ R, eff R → Prop) (p : prog A) : Prop :=
  match p with
  | PRet _ => True
  | PPanic => False
  | PCall e k => P _ e ∧ ∀ r, framed_by P (k r)
  end.

(** Calls that only read the environment of the process. *)
Definition env_eff R (e : eff R) : Prop :=
  match e with
  | ENow | EUuid | EClaimSeq | EOrder | ECtxErr | ELookupIP _ | EHTTP _ => True
  | _ => False
  end.

(** The calls of the timer service. *)
Definition timer_eff R (e : eff R) : Prop :=
  match e with
  | ENow | EXAdd _ | ERedisSet _ _ _ | ERedisDel _ => True
  | ERepo op => match op with
                | OpUpsertTimer _ | OpDeleteTimer _ | OpFireTimer _ | OpClaimDueTimers _ _ => True
                | _ => False
                end
  | _ => False
  end.

Abbreviation framed := (framed_by (@frame_eff)).

Section framed_by.
Context (P : ∀ R, eff R → Prop).

Lemma framed_ret {A} (a : A) : framed_by P (mret a).
Proof. done. Qed.

Lemma framed_call {R} (e : eff R) : P R e → framed_by P (call e).
Proof. by split. Qed.

Lemma framed_bind {A B} (p : prog A) (f : A → prog B) :
  framed_by P p → (∀ a, framed_by P (f a)) → framed_by P (p ≫= f).
Proof.
  intros Hp Hf. induction p as [a| |R e k IH]; [apply Hf|done|].
  destruct Hp as [? Hk]. split; [done|]. intros r. by apply IH.
Qed.

Lemma framed_try {A B} (p : prog (res A)) ctx (f : A → prog (res B)) :
  framed_by P p → (∀ a, framed_by P (f a)) → framed_by P (try_err p ctx f).
Proof. intros Hp Hf. apply framed_bind; [done|]. by intros [a|e]. Qed.
End framed_by.

Lemma framed_mono (P P' : ∀ R, eff R → Prop) {A} (p : prog A) :
  (∀ R (e : eff R), P R e → P' R e) → framed_by P p → framed_by P' p.
Proof.
  intros HP. induction p as [a| |R e k IH]; [done..|]. intros [He Hk]. split; [by apply HP|].
  intros r. by apply IH.
Qed.

Lemma framed_env {A} (p : prog A) : framed_by env_eff p → framed p.
Proof. apply framed_mono. by intros R []. Qed.

Lemma framed_timer {A} (p : prog A) : framed_by timer_eff p → framed p.
Proof. apply framed_mono. intros R [A' []| | | | | | | | | | | | | | |]; simpl; tauto. Qed.

Create HintDb framed.
#[export] Hint Resolve framed_env framed_timer : framed.

(** Walks through a program of calls that leave the instances alone. *)
Ltac framed_step :=
  match goal with
  | |- framed_by _ (try_err _ _ _) => apply framed_try; [|intros ?]
  | |- framed_by _ (wrap_prog _ _) => apply framed_try; [|intros ?]
  | |- framed_by _ (mbind _ _) => apply framed_bind; [|intros ?]
  | |- framed_by _ (call _) => apply framed_call; exact I
  | |- framed_by _ (mret _) => exact I
  | |- framed_by _ (PRet _) => exact I
  | |- framed_by _ (match ?x with _ => _ end) => destruct x
  | |- framed_by _ (let _ := _ in _) => cbv zeta
  | |- _ => solve [eauto with framed]
  end.
Ltac framed_walk := repeat framed_step.

Section worker.
Context `{Externals}.

Lemma framed_ensure rawURL allow : framed_by env_eff (EnsureHTTPDestinationAllowed rawURL allow).
Proof. unfold EnsureHTTPDestinationAllowed. framed_walk. Qed.
#[local] Hint Resolve framed_ensure : framed.

Lemma framed_render_entries (render : value → prog (res value)) entries out :
  (∀ k v, (k, v) ∈ entries → framed_by env_eff (render v)) → framed_by env_eff (render_entries render entries out).
Proof.
  revert out. induction entries as [|[k v] entries IH]; intros out Hr; [done|].
  apply framed_try; [apply (Hr k); set_solver|]. intros a. apply IH. set_solver.
Qed.

Lemma framed_render_items (render : value → prog (res value)) i items out :
  (∀ v, v ∈ items → framed_by env_eff (render v)) → framed_by env_eff (render_items render i items out).
Proof.
  revert i out. induction items as [|v items IH]; intros i out Hr; [done|].
  apply framed_try; [apply Hr; set_solver|]. intros a. apply IH. set_solver.
Qed.

(** The nesting of the value is enough fuel. *)
Lemma framed_render fuel v env : vdepth v < fuel → framed_by env_eff (render fuel v env).
Proof.
  revert v. induction fuel as [|fuel IH]; intros v Hv; [lia|]. simpl.
  destruct v as [| | | | | |l|m|]; try done.
  - apply framed_bind; [|done]. apply framed_render_items. intros v' Hin%vdepth_arr. apply IH. lia.
  - split; [done|]. intros o. apply framed_bind; [|done]. apply framed_render_entries.
    intros k v'. rewrite elem_of_range_order. destruct m as [m|]; simpl; [|by rewrite lookup_empty].
    intros Hk%vdepth_obj. apply IH. lia.
Qed.

Lemma framed_renderValue v env : framed_by env_eff (renderValue v env).
Proof. apply framed_render. lia. Qed.
#[local] Hint Resolve framed_renderValue : framed.

(** Five rounds are enough for the redirects: the policy refuses the sixth request. *)
Lemma framed_client_do fuel e first via req :
  length via + fuel = 5 → 0 < fuel → framed_by env_eff (client_do fuel e first via req).
Proof.
  revert via req. induction fuel as [|fuel IH]; intros via req Hsum Hpos; [lia|]. cbn [client_do].
  apply framed_bind; [by split|]. intros [resp|err]; [|done].
  destruct (redirect_behavior _ _) as [[method keep]|]; [|done]. cbv zeta. case_decide; [done|].
  destruct (url_resolve _ _) as [target|err]; [|done]. unfold checkRedirect. cbv zeta.
  destruct (previous_refusal e _ _) as [err|]; [by destruct err|].
  destruct (decide (5 ≤ length _)) as [|Hlen]; [done|]. rewrite length_app in Hlen. simpl in Hlen.
  apply framed_bind; [framed_walk|]. intros [[]|err]; [|by destruct err]. apply IH; [rewrite length_app; simpl; lia|lia].
Qed.
Lemma framed_client_Do e req : framed_by env_eff (client_Do e req).
Proof. apply framed_client_do; simpl; lia. Qed.
#[local] Hint Resolve framed_client_Do : framed.

Lemma framed_http e step env : framed_by env_eff (executeHTTPRequest e step env).
Proof. unfold executeHTTPRequest. framed_walk. Qed.

Lemma framed_eval what expression env : framed_by env_eff (eval_expression what expression env).
Proof. unfold eval_expression. framed_walk. Qed.
#[local] Hint Resolve framed_http framed_eval : framed.

Lemma framed_unless_done what k : framed_by env_eff k → framed_by env_eff (unless_done what k).
Proof. intros Hk. unfold unless_done. framed_walk. Qed.

Lemma framed_transform step env : framed_by env_eff (executeTransform step env).
Proof. unfold executeTransform. framed_walk. Qed.

Lemma framed_condition step env : framed_by env_eff (executeCondition step env).
Proof. unfold executeCondition. framed_walk. Qed.

Lemma framed_delay instance step : framed_by env_eff (executeDelay instance step).
Proof. apply framed_unless_done. framed_walk. Qed.

Lemma framed_fork step : framed_by env_eff (executeFork step).
Proof. apply framed_unless_done. framed_walk. Qed.

Lemma framed_join step : framed_by env_eff (executeJoin step).
Proof. apply framed_unless_done. framed_walk. Qed.
#[local] Hint Resolve framed_transform framed_condition framed_delay framed_fork framed_join : framed.

Lemma framed_Execute e instance step : framed_by env_eff (Execute e instance step).
Proof. unfold Execute. framed_walk. Qed.
End worker.
#[export] Hint Resolve framed_Execute framed_ensure : framed.

(** ** The timer service *)

Definition enqueue_ok (s : Service) : Prop :=
  match s_enqueue s with Some enqueue => ∀ id, framed_by timer_eff (enqueue id) | None => True end.

Lemma framed_Enqueue id : framed_by timer_eff (Enqueue id).
Proof. unfold Enqueue. framed_walk. Qed.
#[export] Hint Resolve framed_Enqueue : framed.

Section timer.
Variable s : Service.
Hypothesis Hs : enqueue_ok s.

Lemma framed_clearRedisKey id : framed_by timer_eff (clearRedisKey s id).
Proof. unfold clearRedisKey. framed_walk. Qed.
#[local] Hint Resolve framed_clearRedisKey : framed.

Lemma framed_fire id : framed_by timer_eff (fire s id).
Proof.
  unfold enqueue_ok in Hs. unfold fire. apply framed_try; [framed_walk|]. intros [t|]; [|framed_walk].
  apply framed_try; [framed_walk|]. intros _. destruct (s_enqueue s); [|done].
  apply framed_try; [apply Hs|done].
Qed.
#[local] Hint Resolve framed_fire : framed.

Lemma framed_Schedule timer : framed_by timer_eff (Schedule s timer).
Proof. unfold Schedule. framed_walk. Qed.

Lemma framed_Clear id : framed_by timer_eff (Clear s id).
Proof. unfold Clear. framed_walk. Qed.

Lemma framed_poll_loop due : framed_by timer_eff (poll_loop s due).
Proof.
  unfold enqueue_ok in Hs. induction due as [|t due IH]; [done|]. cbn [poll_loop].
  apply framed_try; [framed_walk|]. intros _. destruct (s_enqueue s); [|done].
  apply framed_try; [apply Hs|done].
Qed.
#[local] Hint Resolve framed_poll_loop : framed.

Lemma framed_Run events : framed_by timer_eff (Run s events).
Proof.
  induction events as [|ev events IH]; [done|]. cbn [Run]. apply framed_bind; [|done].
  destruct ev as [[p|]|]; cbn [run_event]; unfold poll; framed_walk.
Qed.
End timer.

(** ** The engine's programs that write no instance *)

Lemma framed_enqueue_all instances : framed (enqueue_all instances).
Proof.
  induction instances as [|i instances IH]; [done|]. cbn [enqueue_all]. apply framed_try; [framed_walk|done].
Qed.
#[export] Hint Resolve framed_enqueue_all : framed.

Lemma framed_Recover : framed Recover.
Proof. unfold Recover. framed_walk. Qed.
#[export] Hint Resolve framed_Recover : framed.

Lemma framed_recoveryLoop n : framed (recoveryLoop n).
Proof. induction n as [|n IH]; [done|]. cbn [recoveryLoop]. framed_walk. Qed.

Lemma framed_ack id : framed (ack id).
Proof. unfold ack. framed_walk. Qed.
#[export] Hint Resolve framed_ack : framed.

Lemma framed_Run_start : framed Run_start.
Proof. unfold Run_start, ensureGroup. framed_walk. Qed.

Section engine.
Context `{Externals} (e : Engine).
Hypothesis Htimers : match e_timers e with Some s => enqueue_ok s | None => True end.

Lemma framed_executeWithSpan instance step previous : framed_by env_eff (executeWithSpan e instance step previous).
Proof. unfold executeWithSpan. framed_walk. Qed.

Lemma framed_ensureWaitingTimer instance : framed_by timer_eff (ensureWaitingTimer e instance).
Proof.
  unfold ensureWaitingTimer. framed_walk. by apply framed_Schedule.
Qed.

Lemma framed_schedule_wait ctx instance stepID fireAt : framed_by timer_eff (schedule_wait e ctx instance stepID fireAt).
Proof. unfold schedule_wait. framed_walk. by apply framed_Schedule. Qed.

Lemma framed_clear instance :
  framed_by timer_eff (match e_timers e with Some timers => Clear timers (i_ID instance) | None => mret (Ok ()) end).
Proof. framed_walk. apply framed_Clear. Qed.
End engine.

(** ** Framed programs are safe *)

Lemma framed_safe {S} `{RepositoryLaws S} {A} (p : prog A) Q (w : World S) :
  framed p → (∀ a w', world_evolves w w' → Q a w') → safe p Q w.
Proof.
  revert w. induction p as [a| |R e k IH]; intros w Hp HQ; [by apply HQ|done|].
  destruct Hp as [He Hk]. apply safe_frame; [done|]. intros r w' Hw. apply IH; [done|].
  intros a w'' Hw'. apply HQ. by etrans.
Qed.
