(* ===== verification/EngineSafe.v ===== *)
(** * Every write of the engine is a permitted change

    [Advance] and the goroutines built on it are [safe]: along every path they save
    only changes of the instance that [changes] permits, and never panic. *)

From S2P Require Import Prelude GoNum GoString GoTime Workflow Accessors Machine BranchSteps.
From S2P Require Import MachineFacts Json Store Externals Effects Timer Worker Engine Validator.
From S2P Require Import ExecutorProps Lifecycle Evolves Concurrency Framed.

(** ** Growing states *)

(** What no write of the engine takes away from the run-time state. *)
Record grows (s s' : RuntimeState) : Prop := {
  gr_done : rs_Completed s `prefix_of` rs_Completed s';
  gr_attempt : ∀ id, (ss_Attempt (step_state s id) ≤ ss_Attempt (step_state s' id))%Z;
  gr_key : ∀ id, ss_IdempotencyKey (step_state s id) ≠ "" →
    ss_IdempotencyKey (step_state s' id) = ss_IdempotencyKey (step_state s id);
  gr_started : rs_StartedAt s' = rs_StartedAt s;
}.

#[export] Instance grows_refl : Reflexive grows.
Proof. intros s. by constructor. Qed.
#[export] Instance grows_trans : Transitive grows.
Proof.
  intros s1 s2 s3 H12 H23. constructor.
  - etrans; [apply H12|apply H23].
  - intros id. etrans; [apply H12|apply H23].
  - intros id Hk. pose proof (gr_key _ _ H12 id Hk) as Hk2. rewrite <- Hk2.
    apply (gr_key _ _ H23). by rewrite Hk2.
  - etrans; [apply H23|apply H12].
Qed.

Lemma grows_Normalize s : grows s (Normalize s).
Proof.
  constructor.
  - by rewrite Normalize_Completed.
  - intros id. by rewrite Normalize_step_state.
  - intros id _. by rewrite Normalize_step_state.
  - apply Normalize_StartedAt.
Qed.

Lemma grows_Forks s fm : grows s (with_Forks s fm).
Proof. by constructor. Qed.

Lemma grows_Queue s q : grows s (with_CompensationQueue s q).
Proof. by constructor. Qed.

(** A step state that may replace another: a later attempt with the same key. *)
Definition step_grows (st st' : StepState) : Prop :=
  (ss_Attempt st ≤ ss_Attempt st')%Z ∧
  (ss_IdempotencyKey st ≠ "" → ss_IdempotencyKey st' = ss_IdempotencyKey st).

Lemma grows_insert s m id st :
  rs_Steps s = Some m → step_grows (step_state s id) st →
  grows s (with_Steps s (Some (<[id := st]> m))).
Proof.
  intros Hm [Ha Hk].
  assert (Hold : ∀ id', step_state s id' = default zeroStepState (m !! id'))
    by (intros; unfold step_state; by rewrite Hm).
  constructor; try done; intros id'; rewrite step_state_insert; case_decide as Hid; subst;
    rewrite ?Hold in *; done.
Qed.

Lemma set_step_grows s m id st :
  rs_Steps s = Some m → step_grows (step_state s id) st →
  ∃ s', set_step s id st = Done s' ∧ grows s s' ∧ rs_Forks s' = rs_Forks s ∧
    rs_CompensationQueue s' = rs_CompensationQueue s ∧ rs_Steps s' ≠ None ∧ step_state s' id = st.
Proof.
  intros Hm Hg. exists (with_Steps s (Some (<[id := st]> m))). rewrite (set_step_nonnil _ _ _ _ Hm).
  split_and!; try done; [by apply grows_insert|]. rewrite step_state_insert. by rewrite decide_True.
Qed.

Lemma MarkCompleted_grows s id st :
  step_grows (step_state s id) st →
  ∃ s', MarkCompleted s id st = Done s' ∧ grows s s' ∧ rs_Forks s' = rs_Forks s ∧
    rs_CompensationQueue s' = rs_CompensationQueue s.
Proof.
  intros Hg. destruct (MarkCompleted_done s id st) as (m & Hm & ->). eexists. split; [done|].
  cbv zeta. set (s1 := with_Steps _ _).
  assert (Hs1 : grows s s1).
  { etrans; [apply grows_Normalize|]. apply grows_insert; [done|]. rewrite Normalize_step_state. exact Hg. }
  assert (Hf : rs_Forks s1 = rs_Forks s) by apply Normalize_Forks.
  assert (Hq : rs_CompensationQueue s1 = rs_CompensationQueue s) by apply Normalize_Queue.
  case_decide; [done|]. split_and!; [|done..]. destruct Hs1. constructor; try done.
  simpl. by apply prefix_app_r.
Qed.

Lemma NextAfter_grows o m step s r :
  ∃ s' next, NextAfter o m step s r = Done (s', next) ∧ grows s s' ∧
    rs_CompensationQueue s' = rs_CompensationQueue s ∧ (forks_ok s → forks_ok s').
Proof.
  destruct (NextAfter_done o m step s r) as (fm & next & Heq & Hok). eexists _, next. split; [exact Heq|].
  split_and!.
  - etrans; [apply grows_Normalize|apply grows_Forks].
  - apply Normalize_Queue.
  - intros Hf id f. unfold gm_get. simpl. by apply Hok.
Qed.

(** ** Permitted changes *)

(** Fields of an instance that a new state and progress do not touch. *)
Lemma changes_progress l status cur s :
  ¬ terminal (i_Status l) → status ≠ InstancePending → grows (i_State l) s →
  (compensating l → compensating (with_progress l status cur s) ∧
     rs_CompensationQueue s `suffix_of` comp_queue l) →
  (forks_ok (i_State l) → compensating (with_progress l status cur s) ∨ forks_ok s) →
  changes l (with_progress l status cur s).
Proof. intros Hlive Hp Hg Hc Hf. constructor; try done; apply Hg. Qed.

(** The instance runs its normal path. *)
Definition normal (l : Instance_) : Prop := ¬ terminal (i_Status l) ∧ ¬ compensating l.

Lemma normal_intro l :
  ¬ terminal (i_Status l) → i_Status l ≠ InstanceCompensating → comp_queue l = [] → normal l.
Proof. intros Ht Hs Hq. split; [done|]. unfold terminal in Ht. unfold compensating. naive_solver. Qed.

Lemma normal_status_eq l : normal l → comp_queue l = [].
Proof.
  intros [Ht Hc]. unfold terminal, compensating in *. destruct (comp_queue l); [done|]. exfalso. naive_solver.
Qed.

(** What [status] with the queue [q] counts as. *)
Lemma compensating_failed l : i_Status l = InstanceFailed → compensating l.
Proof. intros Hs. split; [by rewrite Hs|tauto]. Qed.

Lemma compensating_status l : i_Status l = InstanceCompensating → compensating l.
Proof. intros Hs. split; [by rewrite Hs|tauto]. Qed.

Lemma live_running l : i_Status l = InstanceRunning → ¬ terminal (i_Status l).
Proof. by intros ->; intros [?|?]. Qed.
Lemma live_compensating l : i_Status l = InstanceCompensating → ¬ terminal (i_Status l).
Proof. by intros ->; intros [?|?]. Qed.

Section engine.
Context `{Externals} `{GoArch} {S : Type} `{RepositoryLaws S}.
Variable e : Engine.
Hypothesis Htimers : match e_timers e with Some s => enqueue_ok s | None => True end.
Implicit Types (w : World S) (l : Instance_).

(** ** Rules for sequencing *)

Lemma safe_framed_bind {A B} (p : prog A) (f : A → prog B) Q w :
  framed p → (∀ a w', world_evolves w w' → safe (f a) Q w') → safe (p ≫= f) Q w.
Proof. intros Hp Hf. apply safe_bind, framed_safe; [done|exact Hf]. Qed.

(** With what the program yields. *)
Lemma safe_framed_yields {A B} (P : A → Prop) (p : prog A) (f : A → prog B) Q w :
  framed p → yields P p → (∀ a w', P a → world_evolves w w' → safe (f a) Q w') → safe (p ≫= f) Q w.
Proof.
  revert w. induction p as [a| |R e' k IH]; intros w Hp Hy Hf; [by apply Hf|done|].
  destruct Hp as [He Hk]. apply safe_frame; [done|]. intros r w' Hw.
  apply IH; [done..|]. intros a w'' Ha Hw'. apply Hf; [done|by etrans].
Qed.

Lemma safe_framed_try {A B} (p : prog (res A)) ctx (f : A → prog (res B)) w :
  framed p → (∀ a w', world_evolves w w' → safe (f a) always w') → safe (try_err p ctx f) always w.
Proof. intros Hp Hf. apply safe_try, framed_safe; [done|]. by intros [a|err] w' Hw; [apply Hf|]. Qed.

Lemma safe_framed {A} (p : prog A) w : framed p → safe p always w.
Proof. intros Hp. by apply framed_safe. Qed.

Lemma safe_try_update {A} l l' m ctx (f : Instance_ → prog (res A)) w :
  knows l w → machine_of l m w → changes l l' → life m (abs l) (abs l') →
  (∀ w', safe (f (with_version l' (i_Version l' + 1))) always w') →
  safe (try_err (call (ERepo (OpUpdateInstance l' (i_Version l')))) ctx f) always w.
Proof. intros Hk Hm Hc Hl Hf. apply safe_try. apply (safe_update l l' m); [done..| |by intros err w']. intros w' _ _. apply Hf. Qed.

Lemma safe_finish l l' m status w :
  knows l w → machine_of l m w → changes l (with_progress l' status None (i_State l')) →
  life m (abs l) (abs (with_progress l' status None (i_State l'))) →
  safe (finishInstance l' status) always w.
Proof.
  intros Hk Hm Hc Hl. unfold finishInstance. cbv zeta.
  by apply (safe_try_update l (with_progress l' status None (i_State l')) m).
Qed.

(** ** The handlers *)

(** A step of an instance that the worker has marked as running. *)
Lemma at_work_step m l step attempt :
  at_work m (abs l) step attempt →
  rs_Steps (i_State l) ≠ None ∧ attempts l (step_ID step) = attempt.
Proof.
  intros (_ & _ & Hst). simpl in Hst. unfold steps_of in Hst. rewrite lookup_fmap in Hst.
  unfold attempts, step_state, gm_get. destruct (rs_Steps (i_State l)) as [sm|]; simpl in *.
  - destruct (sm !! step_ID step); [|done]. simpl in *. split; [done|congruence].
  - by rewrite lookup_empty in Hst.
Qed.

Lemma completed_state_grows m l step attempt result :
  at_work m (abs l) step attempt →
  step_grows (step_state (i_State l) (step_ID step)) (completed_state (i_State l) (step_ID step) attempt result).
Proof. intros [_ <-]%at_work_step. by split. Qed.

Lemma abs_progress l status cur s :
  abs (with_progress l status cur s) =
  mkA status cur (rs_Completed s) (rs_CompensationQueue s) (forks_of s) (steps_of s).
Proof. done. Qed.

(** [NextAfter], in the abstract. *)
Lemma NextAfter_life o m step s r :
  ∃ s' next, NextAfter o m step s r = Done (s', next) ∧ grows s s' ∧
    rs_CompensationQueue s' = rs_CompensationQueue s ∧ (forks_ok s → forks_ok s') ∧
    rs_Completed s' = rs_Completed s ∧ steps_of s' = steps_of s ∧
    next_after o m step (forks_of s) r = Done (forks_of s', next).
Proof.
  destruct (NextAfter_done o m step s r) as (fm & next & Heq & Hok). eexists _, next. split; [exact Heq|].
  split_and!.
  - etrans; [apply grows_Normalize|apply grows_Forks].
  - apply Normalize_Queue.
  - intros Hf id f. unfold gm_get. simpl. by apply Hok.
  - apply Normalize_Completed.
  - rewrite <- (steps_of_Normalize s). done.
  - by apply NextAfter_forks_only.
Qed.

Lemma safe_handleStepSuccess o l m step hid attempt result w :
  knows l w → machine_of l m w → i_Status l = InstanceRunning → normal l → at_work m (abs l) step attempt →
  names_reference step result →
  safe (handleStepSuccess e o l m step hid attempt result) always w.
Proof.
  intros Hk Hm Hrun Hn Hat Href. unfold handleStepSuccess.
  apply safe_framed_try; [framed_walk|]. intros _ w1 Hw1.
  destruct (MarkCompleted_grows (i_State l) (step_ID step) (completed_state (i_State l) (step_ID step) attempt result))
    as (s1 & Hmk & Hg1 & Hf1 & Hq1); [by eapply completed_state_grows|]. rewrite Hmk. simpl lift_go.
  apply MarkCompleted_abs in Hmk as (Hdone & Hfk & Hst). simpl in Hst.
  cbn [mbind prog_mbind prog_bind].
  apply safe_framed_try; [by apply framed_timer, framed_clear|]. intros _ w2 Hw2.
  destruct (NextAfter_life o m step s1 result) as (s2 & next & -> & Hg2 & Hq2 & Hf2 & Hc2 & Hs2 & Hnext).
  cbn [lift_go mbind prog_mbind prog_bind].
  assert (Hch : ∀ status cur, status ≠ InstancePending → changes l (with_progress l status cur s2)).
  { intros status cur Hstat. apply changes_progress; [apply Hn|done|by etrans| |].
    - intros Hc. by destruct Hn.
    - intros Hf. right. apply Hf2. unfold forks_ok. by rewrite Hf1. }
  assert (Hlife : life m (abs l) (abs (with_progress l (if next then InstanceRunning else InstanceCompleted)
                                         (step_ID <$> next) s2))).
  { rewrite abs_progress, Hc2, Hdone, Hq2, Hq1, Hs2, Hst. rewrite Hfk in Hnext.
    apply (life_success m (abs l) step attempt o result); [done| |done..]. by apply normal_status_eq. }
  destruct next as [next|].
  - apply (safe_try_update l (with_progress l InstanceRunning (Some (step_ID next)) s2) m);
      [by eauto using knows_stable|by eauto using machine_of_stable|by apply Hch|done|].
    intros w3. apply safe_framed. framed_walk.
  - apply (safe_try_update l (with_progress l InstanceCompleted None s2) m);
      [by eauto using knows_stable|by eauto using machine_of_stable|by apply Hch|done|]. done.
Qed.

(** The instance waits at the step: as a normal step or as a compensation. *)
Lemma changes_waiting l cur s :
  ¬ terminal (i_Status l) → (compensating l → comp_queue l ≠ []) → grows (i_State l) s →
  rs_Forks s = rs_Forks (i_State l) → rs_CompensationQueue s = rs_CompensationQueue (i_State l) →
  changes l (with_progress l InstanceWaitingTimer cur s).
Proof.
  intros Hlive Hq Hg Hf Hqs. apply changes_progress; [done|done|done| |].
  - intros Hc. split; [|by rewrite Hqs]. split; [done|]. right; right. unfold comp_queue; simpl.
    rewrite Hqs. by apply Hq.
  - intros Hok. right. unfold forks_ok. by rewrite Hf.
Qed.

Lemma safe_handleStepWaiting l m step hid attempt result fireAt w :
  knows l w → machine_of l m w →
  (i_Status l = InstanceRunning ∧ comp_queue l = [] ∨ i_Status l = InstanceCompensating ∧ comp_queue l ≠ []) →
  at_work m (abs l) step attempt →
  safe (handleStepWaiting e l step hid attempt result fireAt) always w.
Proof.
  intros Hk Hm Hmode Hat. unfold handleStepWaiting. destruct (match result with Some _ => _ | None => _ end) as [output body].
  apply safe_framed_try; [framed_walk|]. intros _ w1 Hw1. cbv zeta.
  destruct (at_work_step _ _ _ _ Hat) as [Hst Ha]. destruct (rs_Steps (i_State l)) as [sm|] eqn:Hsm; [|done].
  match goal with |- context [set_step ?s ?id ?st] =>
    destruct (set_step_grows s sm id st Hsm) as (s1 & Hset & Hg1 & Hf1 & Hq1 & _);
      [split; [by apply Z.eq_le_incl|done]|] end.
  rewrite Hset. apply set_step_abs in Hset as (Hdone & Hfk & Hsteps).
  cbn [lift_go mbind prog_mbind prog_bind].
  apply (safe_try_update l (with_progress l InstanceWaitingTimer (Some (step_ID step)) s1) m);
    [by eauto using knows_stable|by eauto using machine_of_stable| | |].
  - apply changes_waiting; [|destruct Hmode as [[Hs Hq]|[Hs Hq]]|done..].
    + destruct Hmode as [[-> _]|[-> _]]; by intros [?|?].
    + unfold compensating. rewrite Hs. naive_solver.
    + done.
  - rewrite abs_progress, Hdone, Hfk, Hq1, Hsteps. by apply (life_wait m (abs l) step attempt).
  - intros w2. apply safe_framed. by apply framed_timer, framed_schedule_wait.
Qed.

(** No attempt is left: the compensations are queued, or the instance fails.  [s1] is the
    state in which the step is marked as failed. *)
Lemma safe_give_up o l m step attempt execErr s1 w :
  knows l w → machine_of l m w → i_Status l = InstanceRunning → normal l → at_work m (abs l) step attempt →
  retry_allowed step attempt = None → grows (i_State l) s1 →
  rs_CompensationQueue s1 = rs_CompensationQueue (i_State l) → rs_Completed s1 = rs_Completed (i_State l) →
  forks_of s1 = forks_of (i_State l) → steps_of s1 = <[step_ID step := (StepFailed, attempt)]> (steps_of (i_State l)) →
  safe ((state ← lift_go (MarkBranchFailed o s1 (step_ID step) (Some execErr));
        match CompensationQueue m (step_ID step) state with
        | (next :: _) as queue =>
            try _ ← call (ERepo (OpUpdateInstance
                      (with_progress l InstanceCompensating (Some next) (with_CompensationQueue state queue))
                      (i_Version l))) or "update compensation state";
            Enqueue (i_ID l)
        | [] => finishInstance (with_state l state) InstanceFailed
        end)%prog) always w.
Proof.
  intros Hk Hm Hrun Hn Hat Hretry Hg1 Hq1 Hdone Hfk Hsteps.
  assert (Hlq : comp_queue l = []) by by apply normal_status_eq.
  destruct (MarkBranchFailed_done o s1 (step_ID step) (Some execErr)) as [fm Hfail].
  rewrite Hfail. apply MarkBranchFailed_forks_only in Hfail. rewrite Hfk in Hfail.
  cbn [lift_go mbind prog_mbind prog_bind].
  set (s2 := with_Forks (Normalize s1) fm).
  assert (Hg2 : grows (i_State l) s2).
  { etrans; [exact Hg1|]. etrans; [apply grows_Normalize|apply grows_Forks]. }
  assert (Hdone2 : rs_Completed s2 = rs_Completed (i_State l)) by (rewrite <- Hdone; apply Normalize_Completed).
  assert (Hsteps2 : steps_of s2 = steps_of s1) by apply (steps_of_Normalize s1).
  pose proof (life_fail m (abs l) step attempt o (Some execErr) _ Hrun Hlq Hat Hretry Hfail) as Hlife.
  rewrite CompensationQueue_done, Hdone2. unfold put_step in Hlife. simpl a_done in Hlife. simpl a_steps in Hlife.
  destruct (undo_queue m (step_ID step) (rs_Completed (i_State l))) as [|next queue].
  - apply (safe_finish l _ m); [by eauto using knows_stable|done| |].
    + apply (changes_progress l InstanceFailed None s2); [apply Hn|done|done| |].
      * intros Hc. by destruct Hn.
      * intros _. left. by apply compensating_failed.
    + assert (Hq2 : rs_CompensationQueue s2 = []) by (etrans; [apply (Normalize_Queue s1)|by rewrite Hq1]).
      rewrite abs_progress. simpl i_State. rewrite Hdone2, Hsteps2, Hsteps, Hq2. exact Hlife.
  - apply (safe_try_update l (with_progress l InstanceCompensating (Some next)
      (with_CompensationQueue s2 (next :: queue))) m); [by eauto using knows_stable|done| | |].
    + apply changes_progress; [apply Hn|done|etrans; [exact Hg2|apply grows_Queue]| |].
      * intros Hc. by destruct Hn.
      * intros _. left. by apply compensating_status.
    + rewrite abs_progress. simpl rs_Completed. rewrite <- Hsteps, <- Hsteps2, <- Hdone2 in Hlife. exact Hlife.
    + intros w2. apply safe_framed. framed_walk.
Qed.

Lemma safe_handleStepFailure o l m step hid attempt result execErr w :
  knows l w → machine_of l m w → i_Status l = InstanceRunning → normal l → at_work m (abs l) step attempt →
  safe (handleStepFailure e o l m step hid attempt result execErr) always w.
Proof.
  intros Hk Hm Hrun Hn Hat. unfold handleStepFailure. cbv zeta.
  apply safe_framed_try; [framed_walk|]. intros _ w1 Hw1.
  destruct (at_work_step _ _ _ _ Hat) as [Hst Ha]. destruct (rs_Steps (i_State l)) as [sm|] eqn:Hsm; [|done].
  match goal with |- context [set_step ?s ?id ?st] =>
    destruct (set_step_grows s sm id st Hsm) as (s1 & Hset & Hg1 & Hf1 & Hq1 & Hst1 & Heq1);
      [split; [by apply Z.eq_le_incl|done]|] end.
  rewrite Hset. apply set_step_abs in Hset as (Hdone & Hfk & Hsteps). simpl in Hsteps.
  cbn [lift_go mbind prog_mbind prog_bind].
  assert (Hlq : comp_queue l = []) by by apply normal_status_eq.
  assert (Hm1 : machine_of l m w1) by by eauto using machine_of_stable.
  destruct (retry_allowed step attempt) as [retry|] eqn:Hretry.
  - apply safe_framed_bind; [framed_walk|]. intros now w2 Hw2.
    destruct (rs_Steps s1) as [sm1|] eqn:Hsm1; [|done].
    match goal with |- context [set_step s1 ?id ?st] =>
      destruct (set_step_grows s1 sm1 id st Hsm1) as (s2 & Hset & Hg2 & Hf2 & Hq2 & _);
        [by rewrite Heq1; split|] end.
    rewrite Hset. apply set_step_abs in Hset as (Hdone2 & Hfk2 & Hsteps2). simpl in Hsteps2.
    cbn [lift_go mbind prog_mbind prog_bind].
    apply (safe_try_update l (with_progress l InstanceWaitingTimer (Some (step_ID step)) s2) m);
      [by eauto using knows_stable|by eauto using machine_of_stable| | |].
    + apply changes_waiting; [apply Hn| |by etrans|congruence|congruence]. intros Hc. by destruct Hn.
    + rewrite abs_progress, Hdone2, Hdone, Hfk2, Hfk, Hq2, Hq1, Hsteps2, Hsteps, insert_insert_eq.
      apply (life_wait m (abs l) step attempt); [by left|done].
    + intros w3. apply safe_framed. by apply framed_timer, framed_schedule_wait.
  - by apply (safe_give_up o l m step attempt execErr s1); eauto using knows_stable.
Qed.

(** ** Marking a step as running

    [l] is the row's instance; the state in memory may have moved in its forks. *)
Lemma safe_markStepRunning {A} l m s step status ctx (f : Instance_ → prog (res A)) w :
  knows l w → machine_of l m w → ¬ terminal (i_Status l) →
  status = InstanceRunning ∨ status = InstanceCompensating →
  (status = InstanceRunning → normal l) → grows (i_State l) s →
  rs_CompensationQueue s = rs_CompensationQueue (i_State l) →
  (forks_ok (i_State l) → forks_ok s) → rs_Completed s = rs_Completed (i_State l) →
  steps_of s = steps_of (i_State l) → step ∈ dsl_Steps (m_definition m) →
  life m (abs l) (mkA status (Some (step_ID step)) (rs_Completed s) (comp_queue l) (forks_of s)
    (put_step (abs l) (step_ID step) StepRunning (attempt_of (abs l) (step_ID step) + 1))) →
  (∀ l' w', knows l' w' → machine_of l' m w' → i_Status l' = status → comp_queue l' = comp_queue l →
     at_work m (abs l') step (ss_Attempt (step_state s (step_ID step)) + 1) → safe (f l') always w') →
  safe (try_err (markStepRunning (with_state l s) (step_ID step) (ss_Attempt (step_state s (step_ID step)) + 1) status)
    ctx f) always w.
Proof.
  intros Hk Hm Hlive Hstat Hnorm Hg Hq Hf Hdone Hsteps Hin Hlife Hcont. apply safe_try. unfold markStepRunning.
  set (id := step_ID step) in *. set (attempt := (ss_Attempt (step_state s id) + 1)%Z) in *.
  assert (Hatt : (attempt_of (abs l) id + 1)%Z = attempt).
  { unfold attempt. rewrite <- (attempt_of_abs (with_state l s)). unfold attempt_of. simpl. by rewrite Hsteps. }
  rewrite Hatt in Hlife. simpl i_State. rewrite Normalize_step_state. cbv zeta.
  (* whatever the key is, if it is the previous one when there is one *)
  assert (Hkey : ∀ key w1, world_evolves w w1 →
    (ss_IdempotencyKey (step_state s id) ≠ "" → key = ss_IdempotencyKey (step_state s id)) →
    safe (state ← lift_go (set_step (Normalize s) id (mkStepState StepRunning VNil None "" attempt key None));
          update "update running state" (with_progress (with_state l s) status (Some id) state))
      (λ r w', match r with Ok a => safe (f a) always w' | Err _ => True end) w1).
  { intros key w1 Hw1 Hkey. destruct (Normalize_Steps s) as [sm Hsm].
    destruct (set_step_grows (Normalize s) sm id (mkStepState StepRunning VNil None "" attempt key None) Hsm)
      as (s1 & Hset & Hg1 & Hf1 & Hq1 & _).
    { rewrite Normalize_step_state. split; [simpl; lia|exact Hkey]. }
    rewrite Hset. apply set_step_abs in Hset as (Hd1 & Hfk1 & Hs1). simpl in Hs1.
    rewrite Normalize_Completed in Hd1. rewrite forks_of_Normalize in Hfk1.
    rewrite steps_of_Normalize, Hsteps in Hs1.
    cbn [lift_go mbind prog_mbind prog_bind]. apply safe_try.
    rewrite Normalize_Queue in Hq1. rewrite Normalize_Forks in Hf1.
    assert (Habs : abs (with_progress l status (Some id) s1) =
      mkA status (Some id) (rs_Completed s) (comp_queue l) (forks_of s) (put_step (abs l) id StepRunning attempt)).
    { unfold comp_queue, put_step. by rewrite abs_progress, Hd1, Hfk1, Hq1, Hq, Hs1. }
    apply (safe_update l (with_progress l status (Some id) s1) m);
      [by eauto using knows_stable|by eauto using machine_of_stable| | | |done].
    - apply changes_progress; [done|by destruct Hstat as [->| ->]|etrans; [exact Hg|etrans; [apply grows_Normalize|exact Hg1]]| |].
      + intros Hc. split; [|by rewrite Hq1, Hq]. destruct Hstat as [->| ->].
        * by destruct (Hnorm eq_refl).
        * by apply compensating_status.
      + intros Hok. right. unfold forks_ok. rewrite Hf1. by apply Hf.
    - by rewrite Habs.
    - intros w2 Hw2 Hk2. apply Hcont; [done| |done| |].
      + apply (machine_of_same l); [done..|]. eauto using machine_of_stable.
      + unfold comp_queue. simpl. by rewrite Hq1, Hq.
      + change (abs (with_version _ _)) with (abs (with_progress l status (Some id) s1)). rewrite Habs.
        split_and!; [done..|]. simpl. unfold put_step. by rewrite lookup_insert_eq. }
  case_decide as Hold.
  - apply safe_framed_bind; [framed_walk|]. intros key w1 Hw1. by apply Hkey.
  - by apply (Hkey _ w).
Qed.

(** ** One step *)

Lemma safe_executeNormalStep l s m step w :
  knows l w → machine_of l m w → normal l → grows (i_State l) s →
  rs_CompensationQueue s = rs_CompensationQueue (i_State l) → (forks_ok (i_State l) → forks_ok s) →
  rs_Completed s = rs_Completed (i_State l) → steps_of s = steps_of (i_State l) →
  resume m (abs l) (forks_of s) (Some step) →
  safe (executeNormalStep e (with_state l s) m step) always w.
Proof.
  intros Hk Hm Hn Hg Hq Hf Hdone Hsteps Hres. unfold executeNormalStep. simpl i_State. cbv zeta.
  pose proof (normal_status_eq _ Hn) as Hlq.
  assert (Hin : step ∈ dsl_Steps (m_definition m)).
  { destruct Hm as (d & _ & ->). by eapply resume_known. }
  apply (safe_markStepRunning l m); [done|done|apply Hn|by left|done..| |].
  { rewrite Hdone. apply (life_start m (abs l)); [apply Hn| |done]. destruct Hn as [Ht Hc]. intros [Hs|Hs]; [|done].
    apply Hc. by apply compensating_status. }
  intros l' w1 Hk1 Hm1 Hst Hq' Hat.
  assert (Hn' : normal l').
  { apply normal_intro; [by apply live_running|by rewrite Hst|]. by rewrite Hq'. }
  apply safe_framed_bind; [framed_walk|]. intros now w2 Hw2.
  apply safe_framed_try; [framed_walk|]. intros h w3 Hw3.
  apply (safe_framed_yields (exec_typed step)); [apply framed_env, framed_executeWithSpan|apply executeWithSpan_yields|].
  intros [result execErr] w4 Hty Hw4.
  apply safe_framed_bind; [framed_walk|]. intros o w5 Hw5.
  assert (Hk5 : knows l' w5) by eauto 6 using knows_stable.
  assert (Hm5 : machine_of l' m w5) by eauto 6 using machine_of_stable.
  destruct execErr as [execErr|].
  2: { apply safe_handleStepSuccess; try done. destruct (Hty eq_refl) as (r & Hr & [_ Hnext]).
       intros r' n Hr' Hn2. simpl in Hr. rewrite Hr in Hr'. injection Hr' as <-. by apply Hnext. }
  destruct (IsWaitingTimer execErr); [|by apply safe_handleStepFailure].
  apply (safe_handleStepWaiting l' m); [done|done| |done]. left. by rewrite Hst, Hq'.
Qed.

(** Ending an instance as failed is always permitted. *)
Lemma changes_failed_to l s :
  ¬ terminal (i_Status l) → grows (i_State l) s → rs_CompensationQueue s `suffix_of` comp_queue l →
  changes l (with_progress l InstanceFailed None s).
Proof.
  intros Hlive Hg Hq. apply changes_progress; [done|done|done| |].
  - intros _. split; [by apply compensating_failed|done].
  - intros _. left. by apply compensating_failed.
Qed.

Lemma safe_compensation_done l m step hid attempt result w :
  knows l w → machine_of l m w → i_Status l = InstanceCompensating → at_work m (abs l) step attempt →
  safe (compensation_done l step hid attempt result) always w.
Proof.
  intros Hk Hm Hst Hat. unfold compensation_done.
  apply safe_framed_try; [framed_walk|]. intros _ w1 Hw1.
  destruct (MarkCompleted_grows (i_State l) (step_ID step) (completed_state (i_State l) (step_ID step) attempt result))
    as (s1 & Hmk & Hg1 & Hf1 & Hq1); [by eapply completed_state_grows|]. rewrite Hmk.
  apply MarkCompleted_abs in Hmk as (Hdone & Hfk & Hsteps). simpl in Hsteps.
  cbn [lift_go mbind prog_mbind prog_bind]. cbv zeta.
  pose proof (life_undone m (abs l) step attempt Hst Hat) as Hlife. simpl a_queue in Hlife. simpl a_done in Hlife.
  unfold put_step in Hlife. simpl a_steps in Hlife. simpl a_forks in Hlife.
  rewrite <- Hq1, <- Hsteps, <- Hdone, <- Hfk in Hlife. set (q := tail (rs_CompensationQueue s1)) in *.
  assert (Hsuf : q `suffix_of` comp_queue l).
  { unfold q, comp_queue. rewrite Hq1. destruct (rs_CompensationQueue (i_State l)) as [|x q']; [done|].
    by apply suffix_cons_r. }
  assert (Hg : grows (i_State l) (with_CompensationQueue s1 q)) by (etrans; [exact Hg1|apply grows_Queue]).
  destruct q as [|next q'].
  - apply (safe_finish l _ m); [by eauto using knows_stable|by eauto using machine_of_stable| |exact Hlife].
    by apply (changes_failed_to l (with_CompensationQueue s1 [])); [apply live_compensating|..].
  - apply (safe_try_update l (with_progress l InstanceCompensating (Some next)
      (with_CompensationQueue s1 (next :: q'))) m);
      [by eauto using knows_stable|by eauto using machine_of_stable| |exact Hlife|].
    + apply changes_progress; [by apply live_compensating|done|done| |].
      * intros _. split; [by apply compensating_status|done].
      * intros _. left. by apply compensating_status.
    + intros w2. apply safe_framed. framed_walk.
Qed.

Lemma safe_advanceCompensation l m w :
  knows l w → machine_of l m w → ¬ terminal (i_Status l) → a_compensating (abs l) →
  safe (advanceCompensation e l m) always w.
Proof.
  intros Hk Hm Hlive Hcomp. unfold advanceCompensation. cbv zeta. simpl i_State.
  assert (Hfin : (∀ id, head (comp_queue l) = Some id → StepByID (m_definition m) id = None) →
    safe (finishInstance (with_state l (Normalize (i_State l))) InstanceFailed) always w).
  { intros Hnone. apply (safe_finish l _ m); [done|done| |].
    - apply (changes_failed_to l (Normalize (i_State l))); [done|apply grows_Normalize|by rewrite Normalize_Queue].
    - rewrite abs_progress. simpl i_State.
      rewrite Normalize_Completed, Normalize_Queue, forks_of_Normalize, steps_of_Normalize.
      by apply (life_abandon m (abs l)). }
  rewrite Normalize_Queue. unfold comp_queue in Hfin.
  destruct (rs_CompensationQueue (i_State l)) as [|stepID q] eqn:Hq; [by apply Hfin|].
  destruct (StepByID (m_definition m) stepID) as [step|] eqn:Hstep; [|apply Hfin; by intros ? [= <-]].
  destruct (StepByID_Some _ _ _ Hstep) as [Hin <-].
  assert (Hqne : comp_queue l ≠ []) by (unfold comp_queue; by rewrite Hq).
  apply (safe_markStepRunning l m); [done|done|done|by right|done|apply grows_Normalize|apply Normalize_Queue|
    by rewrite forks_ok_Normalize|apply Normalize_Completed|apply steps_of_Normalize|done| |].
  { rewrite Normalize_Completed, forks_of_Normalize. by apply (life_undo m (abs l) (step_ID step) step q). }
  intros l' w1 Hk1 Hm1 Hst Hq' Hat.
  assert (Hlive' : ¬ terminal (i_Status l')) by by apply live_compensating.
  apply safe_framed_bind; [framed_walk|]. intros now w2 Hw2.
  apply safe_framed_try; [framed_walk|]. intros h w3 Hw3.
  apply safe_framed_bind; [apply framed_env, framed_executeWithSpan|]. intros [result execErr] w4 Hw4.
  assert (Hk4 : knows l' w4) by eauto 6 using knows_stable.
  assert (Hm4 : machine_of l' m w4) by eauto 6 using machine_of_stable.
  destruct execErr as [execErr|]; [|by apply (safe_compensation_done l' m)].
  destruct (IsWaitingTimer execErr).
  { apply (safe_handleStepWaiting l' m); [done|done| |done]. right. by rewrite Hst, Hq'. }
  apply safe_framed_try; [framed_walk|]. intros _ w5 Hw5.
  apply (safe_finish l' _ m); [by eauto using knows_stable|by eauto using machine_of_stable|by apply changes_failed_to|].
  by apply (life_undo_failed m (abs l') step _ Hst Hat).
Qed.

Lemma safe_advance_claimed l w :
  knows l w → ¬ terminal (i_Status l) → safe (advance_claimed e l) always w.
Proof.
  intros Hk Hlive. unfold advance_claimed.
  apply safe_framed_bind; [by apply framed_timer, framed_ensureWaitingTimer|]. intros [r|] w1 Hw1; [done|].
  apply safe_try. apply (safe_get_definition l); [|done]. intros d w2 Hw2 Hm2. cbv zeta.
  assert (Hk2 : knows l w2) by eauto using knows_stable.
  case_decide as Hcomp.
  - by apply safe_advanceCompensation.
  - assert (Hn : normal l).
    { unfold comp_queue. apply normal_intro; [done|naive_solver|]. unfold comp_queue.
      destruct (rs_CompensationQueue (i_State l)); [done|]. exfalso. apply Hcomp. by right. }
    apply safe_framed_bind; [framed_walk|]. intros o w3 Hw3.
    destruct (StepForCurrent_done o (NewMachine (d_DSL d)) (i_State l) (i_CurrentStepID l))
      as (fm & next & Hcur & Hok). rewrite Hcur. apply StepForCurrent_resume in Hcur.
    cbn [lift_go mbind prog_mbind prog_bind].
    assert (Hk3 : knows l w3) by eauto using knows_stable.
    assert (Hm3 : machine_of l (NewMachine (d_DSL d)) w3) by eauto using machine_of_stable.
    destruct next as [step|].
    + by apply safe_executeNormalStep; [..|apply grows_Forks| | | | |].
    + apply (safe_finish l _ (NewMachine (d_DSL d))); [done|done| |].
      * apply (changes_progress l InstanceCompleted None (with_Forks (i_State l) fm));
          [done|done|apply grows_Forks| |].
        -- intros Hc. by destruct Hn.
        -- intros Hf. right. by apply Hok.
      * by apply (life_finish _ (abs l) (forks_of (with_Forks (i_State l) fm))).
Qed.
End engine.
