(* ===== verification/RunLogic.v ===== *)
(** * Reasoning about one program at a time

    [run] of a composed program, a weakest precondition [wp] for programs run alone under
    arbitrary faults, and [calls_only], which restricts the calls a program can make. *)

From S2P Require Import Prelude GoNum GoString GoTime Workflow Accessors Store Externals Effects.
From S2P Require Import Engine Evolves Concurrency Framed.

(** ** Runs of composed programs *)

Section run.
Context {S : Type} `{Repository S}.

Lemma run_bind {A B} (p : prog A) (f : A → prog B) cs (w : World S) :
  run (p ≫= f) cs w =
  match run p cs w with
  | (Returned a, w', cs') => run (f a) cs' w'
  | (Panicked, w', cs') => (Panicked, w', cs')
  | (Crashed, w', cs') => (Crashed, w', cs')
  end.
Proof.
  revert cs w. induction p as [a| |R e k IH]; intros cs w; [done..|].
  destruct cs as [|c cs]; [done|]. simpl. destruct (handle e c w) as [r w']. apply IH.
Qed.

Lemma run_bind_ret {A} (p : prog A) cs (w : World S) : run (p ≫= mret) cs w = run p cs w.
Proof. rewrite run_bind. by destruct (run p cs w) as [[[] ?] ?]. Qed.

(** [wp p Q w]: if [p] run from [w] returns, then [Q] holds of its result and the world. *)
Fixpoint wp {A} (p : prog A) (Q : A → World S → Prop) (w : World S) : Prop :=
  match p with
  | PRet a => Q a w
  | PPanic => True
  | PCall e k => ∀ c, let '(r, w') := handle e c w in wp (k r) Q w'
  end.

Lemma wp_run {A} (p : prog A) Q cs (w : World S) a w' cs' :
  wp p Q w → run p cs w = (Returned a, w', cs') → Q a w'.
Proof.
  revert cs w. induction p as [b| |R e k IH]; intros cs w Hwp; simpl.
  - intros [= <- <- <-]. exact Hwp.
  - done.
  - destruct cs as [|c cs]; [done|]. specialize (Hwp c). destruct (handle e c w) as [r w1]. by apply IH.
Qed.

Lemma wp_mono {A} (p : prog A) (Q Q' : A → World S → Prop) w :
  (∀ a w', Q a w' → Q' a w') → wp p Q w → wp p Q' w.
Proof.
  intros HQ. revert w. induction p as [a| |R e k IH]; intros w; simpl; [apply HQ|done|].
  intros Hp c. specialize (Hp c). destruct (handle e c w) as [r w']. by apply IH.
Qed.

Lemma wp_bind {A B} (p : prog A) (f : A → prog B) Q (w : World S) :
  wp p (λ a w', wp (f a) Q w') w → wp (p ≫= f) Q w.
Proof.
  revert w. induction p as [a| |R e k IH]; intros w; simpl; [done|done|].
  intros Hp c. specialize (Hp c). destruct (handle e c w) as [r w']. by apply IH.
Qed.

Lemma wp_any {A} (p : prog A) (w : World S) : wp p (λ _ _, True) w.
Proof.
  revert w. induction p as [a| |R e k IH]; intros w; simpl; [done..|].
  intros c. destruct (handle e c w) as [r w']. apply IH.
Qed.

(** Whatever the first program does. *)
Lemma wp_after {A B} (p : prog A) (f : A → prog B) Q (w : World S) :
  (∀ a w', wp (f a) Q w') → wp (p ≫= f) Q w.
Proof. intros Hf. apply wp_bind. eapply wp_mono, wp_any. auto. Qed.

(** A repository call: either it succeeded, or an error is returned. *)
Lemma wp_repo {A B} (op : repo_op A) (k : res A → prog B) Q (w : World S) :
  (∀ t a s', repo_exec op t (w_repo w) = (Ok a, s') → wp (k (Ok a)) Q (mkWorld s' (w_redis w))) →
  (∀ err w', wp (k (Err err)) Q w') →
  wp (PCall (ERepo op) k) Q w.
Proof.
  intros Hok Herr c. cbn [handle]. destruct (c_fault c); cbn [with_fault]; [|apply Herr|apply Herr].
  destruct (repo_exec op (c_tick c) (w_repo w)) as [[a|err] s'] eqn:Hr; [by apply (Hok (c_tick c))|apply Herr].
Qed.

Lemma wp_defer {A} (p : prog A) cleanup (Q : A → World S → Prop) w :
  wp p (λ a w', wp cleanup (λ _, Q a) w') w → wp (prog_defer p cleanup) Q w.
Proof.
  revert w. induction p as [a| |R e k IH]; intros w; simpl.
  - intros Hp. apply (wp_bind cleanup (λ _, PRet a)). eapply wp_mono, Hp. done.
  - intros _. apply (wp_bind cleanup (λ _, PPanic)). eapply wp_mono, wp_any. done.
  - intros Hp c. specialize (Hp c). destruct (handle e c w) as [r w']. by apply IH.
Qed.
End run.

(** ** Programs restricted to some calls *)

Fixpoint calls_only {A} (P : ∀ R, eff R → Prop) (p : prog A) : Prop :=
  match p with
  | PRet _ | PPanic => True
  | PCall e k => P _ e ∧ ∀ r, calls_only P (k r)
  end.

Section calls_only.
Context (P : ∀ R, eff R → Prop).

Lemma calls_call {R} (e : eff R) : P R e → calls_only P (call e).
Proof. by split. Qed.

Lemma calls_bind {A B} (p : prog A) (f : A → prog B) :
  calls_only P p → (∀ a, calls_only P (f a)) → calls_only P (p ≫= f).
Proof.
  intros Hp Hf. induction p as [a| |R e k IH]; [apply Hf|done|].
  destruct Hp as [? Hk]. split; [done|]. intros r. by apply IH.
Qed.

Lemma calls_try {A B} (p : prog (res A)) ctx (f : A → prog (res B)) :
  calls_only P p → (∀ a, calls_only P (f a)) → calls_only P (try_err p ctx f).
Proof. intros Hp Hf. apply calls_bind; [done|]. by intros [a|e]. Qed.

Lemma calls_defer {A} (p : prog A) cleanup :
  calls_only P p → calls_only P cleanup → calls_only P (prog_defer p cleanup).
Proof.
  intros Hp Hc. induction p as [a| |R e k IH]; simpl.
  - by apply (calls_bind cleanup (λ _, PRet a)).
  - by apply (calls_bind cleanup (λ _, PPanic)).
  - destruct Hp as [? Hk]. split; [done|]. intros r. by apply IH.
Qed.

Lemma calls_lift_go {A} (m : go A) : calls_only P (lift_go m).
Proof. by destruct m. Qed.
End calls_only.

Lemma framed_calls (P P' : ∀ R, eff R → Prop) {A} (p : prog A) :
  (∀ R (e : eff R), P R e → P' R e) → framed_by P p → calls_only P' p.
Proof.
  intros HP. induction p as [a| |R e k IH]; [done..|]. intros [He Hk]. split; [by apply HP|].
  intros r. by apply IH.
Qed.

Lemma calls_run {S} `{Repository S} (P : ∀ R, eff R → Prop) (I : World S → Prop) {A} (p : prog A) cs w :
  (∀ R (e : eff R) c w, P R e → I w → I (handle e c w).2) →
  calls_only P p → I w → I (run p cs w).1.2.
Proof.
  intros Hstep. revert cs w. induction p as [a| |R e k IH]; intros cs w Hp Hw; [done..|].
  destruct cs as [|c cs]; [done|]. destruct Hp as [He Hk]. simpl.
  pose proof (Hstep R e c w He Hw). destruct (handle e c w) as [r w']. by apply IH.
Qed.

(** Walks through a program, leaving its calls. *)
Ltac calls_step :=
  match goal with
  | |- calls_only _ (try_err _ _ _) => apply calls_try; [|intros ?]
  | |- calls_only _ (wrap_prog _ _) => apply calls_try; [|intros ?]
  | |- calls_only _ (update _ _) => apply calls_try; [|intros ?]
  | |- calls_only _ (mbind _ _) => apply calls_bind; [|intros ?]
  | |- calls_only _ (call _) => apply calls_call
  | |- calls_only _ (lift_go _) => apply calls_lift_go
  | |- calls_only _ (mret _) => exact I
  | |- calls_only _ (PRet _) => exact I
  | |- calls_only _ PPanic => exact I
  | |- calls_only _ (match ?x with _ => _ end) => destruct x
  | |- calls_only _ (let _ := _ in _) => cbv zeta
  end.
Ltac calls_walk := repeat calls_step.
