(* ===== verification/TimerProps.v ===== *)
(** * The timer service hands its timers over

    [poll] and [fire] run on their own, with arbitrary faults: a timer leaves the table
    only to become a task, as long as the service reports no error; when it does report one,
    the timers that it had claimed can be lost. *)

From S2P Require Import Prelude GoString GoTime Workflow Accessors Store Externals Effects Timer Engine.
From S2P Require Import PostgresLaws StoreFacts StoreProps RunLogic.

#[local] Open Scope prog_scope.

Section timers.
Context `{PgClock}.
Implicit Types (w : World DB).

#[local] Abbreviation timers w := (db_timers (w_repo w)).
#[local] Abbreviation stream w := (rd_stream (w_redis w)).

(** A task for the instance is in the stream. *)
Definition tasked (id : string) w : Prop := ∃ m, m ∈ stream w ∧ msg_InstanceID m = Some id.

(** No timer is lost: each is in the table or has become a task. *)
Definition handed_over w w' : Prop :=
  ∀ id t, timers w !! id = Some t → timers w' !! id = Some t ∨ (timers w' !! id = None ∧ tasked id w').

(** Tasks are only added, and only for timers that were taken out of the table. *)
Definition sends_claimed w w' : Prop :=
  ∃ new, stream w' = stream w ++ new ∧
    ∀ m, m ∈ new → ∃ id, msg_InstanceID m = Some id ∧ is_Some (timers w !! id) ∧ timers w' !! id = None.

(** What the calls after a claim of the instances [ids] do: the tables stay, tasks of the
    claimed instances are added, all of them unless an error is reported. *)
Definition enqueues (ids : list string) w (r : res ()) w' : Prop :=
  w_repo w' = w_repo w ∧ ∃ new, stream w' = stream w ++ new ∧
    (∀ m, m ∈ new → ∃ id, id ∈ ids ∧ msg_InstanceID m = Some id) ∧
    (r = Ok () → ∀ id, id ∈ ids → ∃ m, m ∈ new ∧ msg_InstanceID m = Some id).

Lemma enqueues_none ids w err : enqueues ids w (Err err) w.
Proof. split; [done|]. exists []. rewrite app_nil_r. split_and!; [done|by intros m ?%elem_of_nil|done]. Qed.

Lemma enqueues_nil w r : enqueues [] w r w.
Proof. split; [done|]. exists []. rewrite app_nil_r. split_and!; [done|by intros m ?%elem_of_nil|by intros _ id ?%elem_of_nil]. Qed.

Lemma wp_clear s id w :
  wp (clearRedisKey s id) (λ _ w', w_repo w' = w_repo w ∧ stream w' = stream w) w.
Proof. unfold clearRedisKey. intros c. cbn [handle]. unfold on_redis. by destruct (c_fault c). Qed.

Lemma wp_Enqueue_one id w : wp (Enqueue id) (enqueues [id] w) w.
Proof.
  unfold Enqueue. intros c. cbn [handle]. unfold on_redis. destruct (c_fault c); simpl.
  - split; [done|]. eexists. split; [done|]. split.
    + intros m ->%list_elem_of_singleton. exists id. split; [apply list_elem_of_here|done].
    + intros _ id' ->%list_elem_of_singleton. eexists. split; [apply list_elem_of_here|done].
  - split; [done|]. exists []. rewrite app_nil_r. split_and!; [done|by intros m ?%elem_of_nil|done].
  - split; [done|]. eexists. split; [done|]. split; [|done].
    intros m ->%list_elem_of_singleton. exists id. split; [apply list_elem_of_here|done].
Qed.

(** The key is cleared and the task enqueued, then [f] goes on. *)
Lemma wp_hand_over s id rest ctx ctx' (f : prog (res ())) w :
  (∀ w', wp f (enqueues rest w') w') →
  wp (try _ ← clearRedisKey s id or ctx; try _ ← Enqueue id or ctx'; f) (enqueues (id :: rest) w) w.
Proof.
  intros Hf. apply wp_bind. eapply wp_mono, wp_clear. intros [[]|err] w1 [Hdb1 Hst1].
  - apply wp_bind. eapply wp_mono, wp_Enqueue_one. intros [[]|err] w2 (Hdb2 & new & Hst2 & Hin & Hall).
    + eapply wp_mono, Hf. intros r w3 (Hdb3 & new' & Hst3 & Hin' & Hall'). split; [congruence|].
      exists (new ++ new'). rewrite Hst3, Hst2, Hst1, app_assoc. split; [done|]. split.
      * intros m [Hm|Hm]%elem_of_app.
        -- destruct (Hin m Hm) as (x & ->%list_elem_of_singleton & ?). exists id. split; [apply list_elem_of_here|done].
        -- destruct (Hin' m Hm) as (x & ? & ?). exists x. split; [by apply list_elem_of_further|done].
      * intros Hr x [->|Hx]%elem_of_cons.
        -- destruct (Hall eq_refl id (list_elem_of_here _ _)) as (m & Hm & ?). exists m. split; [|done]. apply elem_of_app. by left.
        -- destruct (Hall' Hr x Hx) as (m & Hm & ?). exists m. split; [|done]. apply elem_of_app. by right.
    + simpl. split; [congruence|]. exists new. rewrite Hst2, Hst1. split_and!; [done| |done].
      intros m Hm. destruct (Hin m Hm) as (x & ->%list_elem_of_singleton & ?). exists id. split; [apply list_elem_of_here|done].
  - simpl. split; [done|]. exists []. rewrite app_nil_r. split_and!; [done|by intros m ?%elem_of_nil|done].
Qed.

Lemma wp_poll_loop s due w :
  s_enqueue s = Some Enqueue → wp (poll_loop s due) (enqueues (t_InstanceID <$> due) w) w.
Proof.
  intros Hs. revert w. induction due as [|t due IH]; intros w; [by apply enqueues_nil|].
  cbn [poll_loop]. rewrite Hs. by apply wp_hand_over.
Qed.

(** After a claim that took exactly the instances [ids] out of the table. *)
Lemma enqueues_handed_over ids db w r w' :
  (∀ id, id ∈ ids → is_Some (timers w !! id) ∧ db_timers db !! id = None) →
  (∀ id, id ∉ ids → db_timers db !! id = timers w !! id) →
  enqueues ids (mkWorld db (w_redis w)) r w' →
  timers w' ⊆ timers w ∧ sends_claimed w w' ∧ (r = Ok () → handed_over w w').
Proof.
  intros Hids Hother (Hdb & new & Hst & Hin & Hall). simpl in Hdb, Hst. rewrite Hdb. split_and!.
  - apply map_subseteq_spec. intros id t Ht. destruct (decide (id ∈ ids)) as [Hid|Hid].
    + destruct (Hids id Hid) as [_ Hn]. congruence.
    + by rewrite <- Hother.
  - exists new. split; [done|]. intros m Hm. destruct (Hin m Hm) as (id & Hid & ?). exists id. rewrite Hdb.
    destruct (Hids id Hid). by split_and!.
  - intros Hr id t Ht. rewrite Hdb. destruct (decide (id ∈ ids)) as [Hid|Hid]; [right|left; by rewrite Hother].
    split; [apply (Hids id Hid)|]. destruct (Hall Hr id Hid) as (m & Hm & ?). exists m. split; [|done].
    rewrite Hst. apply elem_of_app. by right.
Qed.

(** The calls of the repository take whole timers out of the table, or nothing. *)
Lemma claim_takes now o o' locked limit db :
  let r := ClaimDueTimers now o o' locked limit db in
  (∀ id, id ∈ t_InstanceID <$> r.1 → is_Some (db_timers db !! id) ∧ db_timers r.2 !! id = None) ∧
  (∀ id, id ∉ t_InstanceID <$> r.1 → db_timers r.2 !! id = db_timers db !! id).
Proof.
  split.
  - intros id (t & -> & Ht)%list_elem_of_fmap. apply elem_of_ClaimDueTimers in Ht as (Hn & _ & _ & t0 & Ht0 & _).
    split; [by eexists|done].
  - intros id Hid. apply ClaimDueTimers_other. intros t Ht <-. apply Hid. by apply list_elem_of_fmap_2.
Qed.

Lemma fire_takes id db :
  let r := FireTimer id db in
  (∀ t, r.1 = Some t → is_Some (db_timers db !! id)) ∧ db_timers r.2 !! id = None ∧
  ∀ id', id' ≠ id → db_timers r.2 !! id' = db_timers db !! id'.
Proof.
  unfold FireTimer. simpl. split_and!; [|apply lookup_delete_eq|intros; by apply lookup_delete_ne].
  intros t. by destruct (db_timers db !! id).
Qed.

(** What [poll] and [fire] promise. *)
Definition hands_over w (r : res ()) w' : Prop :=
  timers w' ⊆ timers w ∧ sends_claimed w w' ∧ (r = Ok () → handed_over w w').

Lemma hands_over_err w db err :
  db_timers db ⊆ timers w → hands_over w (Err err) (mkWorld db (w_redis w)).
Proof. intros Hdb. split_and!; [done| |done]. exists []. rewrite app_nil_r. split; [done|]. by intros m ?%elem_of_nil. Qed.

Lemma wp_poll s w : s_enqueue s = Some Enqueue → wp (poll s) (hands_over w) w.
Proof.
  intros Hs c0. cbn [handle]. apply wp_bind. intros c. cbn [handle].
  destruct (claim_takes (c_now c0) (k_order (c_tick c)) (k_order' (c_tick c)) (k_locked (c_tick c)) (s_pollLimit s) (w_repo w))
    as [Hids Hother].
  unfold with_fault. cbn [repo_exec postgres_repository]. destruct (ClaimDueTimers _ _ _ _ _ _) as [due db]. simpl in Hids, Hother.
  assert (Hsub : db_timers db ⊆ timers w).
  { apply map_subseteq_spec. intros id t Ht. destruct (decide (id ∈ t_InstanceID <$> due)) as [Hid|Hid].
    - destruct (Hids id Hid) as [_ Hn]. congruence.
    - by rewrite <- Hother. }
  destruct (c_fault c); cbn [wp]; [|apply hands_over_err; reflexivity|apply hands_over_err; exact Hsub].
  eapply wp_mono, (wp_poll_loop s due); [|done]. intros r w' He. by eapply enqueues_handed_over.
Qed.

Lemma wp_fire_hands_over s id w : s_enqueue s = Some Enqueue → wp (fire s id) (hands_over w) w.
Proof.
  intros Hs. unfold fire. apply wp_bind. intros c. cbn [handle].
  destruct (fire_takes id (w_repo w)) as (Hsome & Hnone & Hother).
  unfold with_fault. cbn [repo_exec postgres_repository]. destruct (FireTimer id (w_repo w)) as [t db] eqn:Hf. simpl in Hsome, Hnone, Hother.
  assert (Hsub : db_timers db ⊆ timers w).
  { apply map_subseteq_spec. intros id' t' Ht. destruct (decide (id' = id)) as [->|Hid]; [congruence|]. by rewrite <- Hother. }
  destruct (c_fault c); cbn [wp]; [|apply hands_over_err; reflexivity|apply hands_over_err; exact Hsub].
  destruct t as [t|]; rewrite ?Hs.
  - assert (Hids : ∀ id', id' ∈ [id] → is_Some (timers w !! id') ∧ db_timers db !! id' = None).
    { intros id' ->%list_elem_of_singleton. by split; [apply (Hsome t)|]. }
    eapply wp_mono; [|apply (wp_hand_over s id [] _ _ (mret (Ok ()))); by intros; apply enqueues_nil].
    intros r w' He. eapply (enqueues_handed_over [id] db); [done| |exact He]. intros id' Hid'. apply Hother. set_solver.
  - eapply wp_mono, wp_clear. intros r w' [Hdb Hst]. simpl in Hdb, Hst.
    assert (Hsame : timers w = db_timers db).
    { apply map_eq. intros id'. destruct (decide (id' = id)) as [->|Hid]; [|by rewrite Hother].
      unfold FireTimer in Hf. injection Hf as Hlook _. rewrite Hnone. by destruct (timers w !! id). }
    split_and!; [by rewrite Hdb|exists []; rewrite app_nil_r, Hst; split; [done|by intros m ?%elem_of_nil]|].
    intros _ id' t' Ht. left. by rewrite Hdb, <- Hsame.
Qed.

(** C26: the timer service loses no timer unless it says so: when [poll] or [fire] returns,
    whatever calls failed, it has only taken timers out of the table, and has added tasks
    only for instances whose timers it took; when it returns without error every timer that
    was in the table is still there or has become a task in the stream. *)
Theorem timers_handed_over s p cs w r w' cs' :
  s_enqueue s = Some Enqueue → p = poll s ∨ (∃ id, p = fire s id) →
  run p cs w = (Returned r, w', cs') →
  db_timers (w_repo w') ⊆ db_timers (w_repo w) ∧ sends_claimed w w' ∧ (r = Ok () → handed_over w w').
Proof.
  intros Hs [->|[id ->]] Hrun.
  - exact (wp_run _ _ _ _ _ _ _ (wp_poll s w Hs) Hrun).
  - exact (wp_run _ _ _ _ _ _ _ (wp_fire_hands_over s id w Hs) Hrun).
Qed.
End timers.

(** ** Two timers that are due *)

Definition due_world : World DB :=
  mkWorld (mkDB {["d1" := order_definition]}
             {["i1" := mkRow order_instance None None; "i2" := mkRow order_instance None None]} ∅
             {["i1" := mkTimer "i1" "cool" 10; "i2" := mkTimer "i2" "wait" 20]})
    (mkRedis 0 true [] [] ∅).
Definition due_service : Service := NewTimer (Some Enqueue) (mkTimerConfig "" 0 0).
Definition poll_choice (f : fault) : choice :=
  mkChoice f (mkTick 5000 5000 "" [] [] []) 5000 "" 1 [] None (Err (ErrText "")) (Err (ErrText "")).
Definition polled (cs : list choice) : outcome (res ()) * World DB * list choice := run (poll due_service) cs due_world.

Lemma timers_handed_over_witness :
  let w' := (polled (replicate 6 (poll_choice NoFault))).1.2 in
  db_timers (w_repo w') = ∅ ∧ tasked "i1" w' ∧ tasked "i2" w'.
Proof.
  intros w'.
  assert (Hrun : run (poll due_service) (replicate 6 (poll_choice NoFault)) due_world = (Returned (Ok ()), w', []))
    by (vm_compute; reflexivity).
  destruct (timers_handed_over due_service (poll due_service) (replicate 6 (poll_choice NoFault)) due_world (Ok ()) w' []
    eq_refl (or_introl eq_refl) Hrun) as (_ & _ & Hall).
  assert (Hnone : db_timers (w_repo w') = ∅) by (vm_compute; reflexivity).
  split; [exact Hnone|]. specialize (Hall eq_refl). split.
  - destruct (Hall "i1" (mkTimer "i1" "cool" 10)) as [Ht|[_ Ht]]; [vm_compute; reflexivity|by rewrite Hnone in Ht|exact Ht].
  - destruct (Hall "i2" (mkTimer "i2" "wait" 20)) as [Ht|[_ Ht]]; [vm_compute; reflexivity|by rewrite Hnone in Ht|exact Ht].
Defined.

(** When the first call after the claim fails, all claimed timers are gone and no task was
    enqueued: only the recovery loop finds the instances again. *)
Example poll_error_drops_timers :
  let '(r, w', _) := polled [poll_choice NoFault; poll_choice NoFault; poll_choice (FailBefore (ErrText "redis down"))] in
  r ≠ Returned (Ok ()) ∧ db_timers (w_repo w') = ∅ ∧ rd_stream (w_redis w') = [].
Proof. vm_compute. done. Qed.
