(* ===== verification/EngineProps.v ===== *)
(** * What one execution of the engine does

    Properties of [Advance], [processMessage] and [Recover] run on their own, with
    arbitrary faults: an instance that is handed on always has something that wakes it
    up, a task is acknowledged only when it is done with, a waiting instance is not
    executed early, failures follow the retry policy. *)

From S2P Require Import Prelude GoNum GoString GoTime Workflow Accessors Machine BranchSteps.
From S2P Require Import MachineFacts Json Store Externals Effects Security Timer Worker Engine.
From S2P Require Import Evolves Concurrency Framed EngineSafe PostgresLaws StoreFacts StoreProps.
From S2P Require Import RunLogic.

(** ** Wake-ups *)

(** Something will advance the instance: a task in the stream, a timer, or it is done. *)
Definition wake (id : string) (w : World DB) : Prop :=
  (∃ m, m ∈ rd_stream (w_redis w) ∧ msg_InstanceID m = Some id) ∨
  is_Some (db_timers (w_repo w) !! id) ∨
  ∃ i, repo_view (w_repo w) id = Some i ∧ terminal (i_Status i).

(** [r = nil] implies a wake-up. *)
Definition ok_wakes (id : string) : res () → World DB → Prop := λ r w, r = Ok () → wake id w.

Section wake.
Context `{PgClock}.
Implicit Types (w : World DB) (l : Instance_).

Lemma wp_try {A} (p : prog (res A)) ctx (f : A → prog (res ())) id w :
  wp p (λ r w', match r with Ok a => wp (f a) (ok_wakes id) w' | Err _ => True end) w →
  wp (try_err p ctx f) (ok_wakes id) w.
Proof. intros Hp. apply wp_bind. eapply wp_mono, Hp. by intros [a|err] w'. Qed.

Lemma wp_try_after {A} (p : prog (res A)) ctx (f : A → prog (res ())) id w :
  (∀ a w', wp (f a) (ok_wakes id) w') → wp (try_err p ctx f) (ok_wakes id) w.
Proof. intros Hf. apply wp_try. eapply wp_mono, wp_any. by intros [a|err]. Qed.

Lemma wp_Enqueue id w : wp (Enqueue id) (ok_wakes id) w.
Proof.
  intros c. simpl. unfold on_redis. destruct (c_fault c); simpl; [|done|done].
  intros _. left. eexists. split; [apply elem_of_app; right; apply list_elem_of_here|done].
Qed.

Lemma wp_update_terminal l v ctx w :
  terminal (i_Status l) → wp (try_err (call (ERepo (OpUpdateInstance l v))) ctx (λ _, mret (Ok ()))) (ok_wakes (i_ID l)) w.
Proof.
  intros Ht. apply wp_try, wp_repo; [|done]. intros t l' db Hr _. right; right.
  assert (Hok : (repo_exec (OpUpdateInstance l v) t (w_repo w)).1 = Ok l') by by rewrite Hr.
  apply law_update_ok in Hok as (_ & row & now & _ & _ & Hnew). rewrite Hr in Hnew.
  by exists (updated_row row l now).
Qed.

Lemma wp_finish l status w : terminal status → wp (finishInstance l status) (ok_wakes (i_ID l)) w.
Proof. intros Ht. unfold finishInstance. by apply (wp_update_terminal (with_progress l status None (i_State l))). Qed.

Lemma wp_fire s id w :
  s_enqueue s = Some Enqueue → is_Some (db_timers (w_repo w) !! id) → wp (fire s id) (ok_wakes id) w.
Proof.
  intros Hs [t Ht]. unfold fire. apply wp_try, wp_repo; [|done]. intros k a db Hr. simpl in Hr.
  rewrite Ht in Hr. injection Hr as <- <-. apply wp_try_after. intros _ w1. rewrite Hs.
  apply wp_try. eapply wp_mono, wp_Enqueue. intros [[]|err] w2 Hok; [|done]. exact Hok.
Qed.

Lemma wp_Schedule s t w :
  s_enqueue s = Some Enqueue → wp (Schedule s t) (ok_wakes (t_InstanceID t)) w.
Proof.
  intros Hs. unfold Schedule. apply wp_try, wp_repo; [|done]. intros k a db Hr.
  assert (Ht : is_Some (db_timers db !! t_InstanceID t)).
  { simpl in Hr. unfold UpsertTimer in Hr. destruct (db_instances _ !! _); [|done].
    injection Hr as _ <-. simpl. by rewrite lookup_insert_eq. }
  apply wp_bind. intros c. cbn [handle wp]. cbv zeta. case_decide.
  - apply wp_try. eapply wp_mono, (wp_fire s); [|done|done]. intros [[]|err] w2 Hok; [|done]. exact Hok.
  - apply wp_try. intros c'. cbn [handle]. unfold on_redis. destruct (c_fault c'); simpl; [|done|done].
    intros _. right; left. exact Ht.
Qed.

(** The deferred release of the lease takes no wake-up away. *)
Lemma wake_release id id' owner w :
  wake id w → wp (call (ERepo (OpReleaseInstance id' owner)) ≫= λ _, mret ()) (λ _ w', wake id w') w.
Proof.
  intros Hw c. cbn [handle].
  assert (Hdb : wake id (mkWorld (ReleaseInstance id' owner (w_repo w)) (w_redis w))).
  { destruct Hw as [Hm|[Ht|(i & Hi & Hterm)]].
    - by left.
    - right; left. simpl. unfold ReleaseInstance. by repeat case_match.
    - right; right. exists i. split; [|done]. cbn [w_repo]. by rewrite ReleaseInstance_view. }
  destruct (c_fault c); simpl; [exact Hdb|by destruct w|exact Hdb].
Qed.
End wake.

Section advance.
Context `{Externals} `{GoArch} `{PgClock}.
Variable e : Engine.
Variable s : Service.
Hypothesis He : e_timers e = Some s.
Hypothesis Hs : s_enqueue s = Some Enqueue.
Implicit Types (w : World DB) (l : Instance_).

Lemma wp_schedule_wait ctx l stepID fireAt w : wp (schedule_wait e ctx l stepID fireAt) (ok_wakes (i_ID l)) w.
Proof.
  unfold schedule_wait. rewrite He. apply wp_try.
  eapply wp_mono, (wp_Schedule s (mkTimer (i_ID l) stepID fireAt)); [|done].
  intros [[]|err] w1 Hok; [|done]. exact Hok.
Qed.

Lemma wp_lift {A} (m : go A) (f : A → prog (res ())) Q w :
  (∀ a, m = Done a → wp (f a) Q w) → wp (lift_go m ≫= f) Q w.
Proof. destruct m as [a|]; [|done]. intros Hf. by apply Hf. Qed.

Lemma wp_handleStepSuccess o l m step hid attempt result w :
  wp (handleStepSuccess e o l m step hid attempt result) (ok_wakes (i_ID l)) w.
Proof.
  unfold handleStepSuccess. apply wp_try_after. intros _ w1. apply wp_lift. intros st _.
  apply wp_try_after. intros _ w2. apply wp_lift. intros [st' [next|]] _.
  - apply wp_try_after. intros _ w3. apply wp_Enqueue.
  - by apply (wp_update_terminal (with_progress l InstanceCompleted None st')); left.
Qed.

Lemma wp_handleStepWaiting l step hid attempt result fireAt w :
  wp (handleStepWaiting e l step hid attempt result fireAt) (ok_wakes (i_ID l)) w.
Proof.
  unfold handleStepWaiting. destruct (match result with Some _ => _ | None => _ end) as [output body].
  apply wp_try_after. intros _ w1. cbv zeta. apply wp_lift. intros st _.
  apply wp_try_after. intros _ w2. apply wp_schedule_wait.
Qed.

Lemma wp_handleStepFailure o l m step hid attempt result execErr w :
  wp (handleStepFailure e o l m step hid attempt result execErr) (ok_wakes (i_ID l)) w.
Proof.
  unfold handleStepFailure. cbv zeta. apply wp_try_after. intros _ w1. apply wp_lift. intros st _.
  destruct (retry_allowed step attempt) as [retry|].
  - apply wp_after. intros now w2. apply wp_lift. intros st' _. apply wp_try_after. intros _ w3.
    apply wp_schedule_wait.
  - apply wp_lift. intros st' _. destruct (CompensationQueue m (step_ID step) st') as [|next q].
    + by apply (wp_finish (with_state l st')); right.
    + apply wp_try_after. intros _ w2. apply wp_Enqueue.
Qed.

Lemma wp_mark_ID l id attempt status w :
  wp (markStepRunning l id attempt status) (λ r _, match r with Ok l' => i_ID l' = i_ID l | Err _ => True end) w.
Proof.
  unfold markStepRunning. cbv zeta. apply wp_after. intros key w1. destruct (set_step _ _ _) as [st|]; [|done].
  simpl lift_go. cbn [mbind prog_mbind prog_bind].
  set (l1 := with_progress l status (Some id) st).
  apply wp_bind, wp_repo; [|done]. intros t l' db Hr.
  assert (Hok : (repo_exec (OpUpdateInstance l1 (i_Version l1)) t (w_repo w1)).1 = Ok l') by by rewrite Hr.
  by apply law_update_ok in Hok as (-> & _).
Qed.

(** The rest after the step is marked. *)
Lemma wp_mark {f : Instance_ → prog (res ())} l id attempt status ctx w :
  (∀ l' w', i_ID l' = i_ID l → wp (f l') (ok_wakes (i_ID l)) w') →
  wp (try_err (markStepRunning l id attempt status) ctx f) (ok_wakes (i_ID l)) w.
Proof.
  intros Hf. apply wp_try. eapply wp_mono, wp_mark_ID. intros [l'|err] w' Hid; [|done]. by apply Hf.
Qed.

Lemma wp_executeNormalStep l m step w : wp (executeNormalStep e l m step) (ok_wakes (i_ID l)) w.
Proof.
  unfold executeNormalStep. cbv zeta. apply wp_mark. intros l' w1 <-.
  apply wp_after. intros now w2. apply wp_try_after. intros h w3. apply wp_after. intros [result execErr] w4.
  apply wp_after. intros o w5. destruct execErr as [execErr|]; [|apply wp_handleStepSuccess].
  destruct (IsWaitingTimer execErr); [apply wp_handleStepWaiting|apply wp_handleStepFailure].
Qed.

Lemma wp_advanceCompensation l m w : wp (advanceCompensation e l m) (ok_wakes (i_ID l)) w.
Proof.
  unfold advanceCompensation. cbv zeta. set (l0 := with_state l (Normalize (i_State l))).
  change (i_ID l) with (i_ID l0).
  destruct (rs_CompensationQueue (i_State l0)) as [|stepID q]; [by apply wp_finish; right|].
  destruct (StepByID (m_definition m) stepID) as [step|]; [|by apply wp_finish; right].
  apply wp_mark. intros l' w1 <-. apply wp_after. intros now w2. apply wp_try_after. intros h w3.
  apply wp_after. intros [result execErr] w4. destruct execErr as [execErr|].
  - destruct (IsWaitingTimer execErr); [apply wp_handleStepWaiting|].
    apply wp_try_after. intros _ w5. by apply wp_finish; right.
  - unfold compensation_done. apply wp_try_after. intros _ w5. apply wp_lift. intros st _. cbv zeta.
    destruct (tail (rs_CompensationQueue st)) as [|next q'].
    + by apply (wp_finish (with_state l' (with_CompensationQueue st []))); right.
    + apply wp_try_after. intros _ w6. apply wp_Enqueue.
Qed.

Lemma wp_ensureWaitingTimer l w :
  wp (ensureWaitingTimer e l) (λ h w', match h with Some r => ok_wakes (i_ID l) r w' | None => True end) w.
Proof.
  unfold ensureWaitingTimer. case_decide; [done|]. destruct (i_CurrentStepID l) as [cur|]; [|done].
  destruct (ss_WaitingTime _) as [t|]; [|done]. apply wp_after. intros now w1. destruct (negb _); [done|]. rewrite He.
  apply wp_bind. unfold wrap_prog, try_err. apply wp_bind.
  eapply wp_mono, (wp_Schedule s (mkTimer (i_ID l) cur t)); [|done].
  intros [[]|err] w2 Hok; simpl; [|done]. intros _. by apply Hok.
Qed.

Lemma wp_advance_claimed l w : wp (advance_claimed e l) (ok_wakes (i_ID l)) w.
Proof.
  unfold advance_claimed. apply wp_bind. eapply wp_mono, wp_ensureWaitingTimer.
  intros [r|] w1 Hr; [exact Hr|]. apply wp_try_after. intros d w2. cbv zeta.
  case_decide; [apply wp_advanceCompensation|]. apply wp_after. intros o w3. apply wp_lift. intros [st [step|]] _.
  - apply (wp_executeNormalStep (with_state l st)).
  - by apply (wp_finish (with_state l st)); left.
Qed.

Lemma wp_Advance id w : wp (Advance e id) (ok_wakes id) w.
Proof.
  unfold Advance. apply wp_after. intros n w1. apply wp_after. intros now w2. apply wp_try.
  apply wp_repo; [|done]. intros t l db Hr.
  assert (Hok : (repo_exec (OpClaimInstance id (claim_owner (e_consumer e) n) (time_add now (e_lease e))) t (w_repo w2)).1
    = Ok l) by by rewrite Hr.
  apply law_claim in Hok as (_ & _ & <-).
  apply wp_defer. eapply wp_mono, wp_advance_claimed. intros r w3 Hok. destruct r as [[]|err].
  - apply (wp_mono _ (λ _, wake (i_ID l))); [|by apply wake_release, Hok]. intros a w4 Hw _. exact Hw.
  - eapply wp_mono, wp_any. done.
Qed.

(** C17: no instance is left without a wake-up: whenever [Advance] returns without error,
    whatever calls failed on the way, the instance is finished, or a task for it is in the
    stream, or its timer is in the timer table. *)
Theorem advance_leaves_wakeup id cs w w' cs' :
  run (Advance e id) cs w = (Returned (Ok ()), w', cs') → wake id w'.
Proof. intros Hrun. by apply (wp_run _ _ _ _ _ _ _ (wp_Advance id w) Hrun). Qed.
End advance.

(** ** Tasks *)

(** Calls that leave the delivered tasks of the stream as they are. *)
Definition keeps_pending R (e : eff R) : Prop :=
  match e with
  | EXAck _ | EXReadGroup _ _ | EXAutoClaim _ _ _ => False
  | _ => True
  end.

Lemma handle_pending {S} `{Repository S} R (e : eff R) c (w : World S) :
  keeps_pending R e → rd_pending (w_redis (handle e c w).2) = rd_pending (w_redis w).
Proof.
  intros He. destruct e; simpl in He; try done; cbn [handle];
    try (unfold on_redis; destruct (c_fault c); done).
  - by destruct (with_fault _ _ _).
  - unfold on_redis, redis_group_create. destruct (c_fault c); simpl; by destruct (rd_group (w_redis w)).
Qed.

Lemma env_keeps_pending R (e : eff R) : env_eff R e → keeps_pending R e.
Proof. by destruct e. Qed.
Lemma timer_keeps_pending R (e : eff R) : timer_eff R e → keeps_pending R e.
Proof. by destruct e. Qed.

Section tasks.
Context `{Externals} `{GoArch}.
Variable e : Engine.
Hypothesis Htimers : match e_timers e with Some s => enqueue_ok s | None => True end.

Lemma calls_timer {A} (p : prog A) : framed_by timer_eff p → calls_only keeps_pending p.
Proof. apply framed_calls, timer_keeps_pending. Qed.

Lemma calls_handlers :
  (∀ o l m step hid attempt result, calls_only keeps_pending (handleStepSuccess e o l m step hid attempt result)) ∧
  (∀ l step hid attempt result fireAt, calls_only keeps_pending (handleStepWaiting e l step hid attempt result fireAt)) ∧
  (∀ o l m step hid attempt result err, calls_only keeps_pending (handleStepFailure e o l m step hid attempt result err)) ∧
  (∀ l status, calls_only keeps_pending (finishInstance l status)).
Proof.
  assert (Hwait : ∀ ctx l id t, calls_only keeps_pending (schedule_wait e ctx l id t))
    by (intros; by apply calls_timer, framed_schedule_wait).
  assert (Hfin : ∀ l status, calls_only keeps_pending (finishInstance l status))
    by (intros; unfold finishInstance; calls_walk; done).
  assert (Henq : ∀ id, calls_only keeps_pending (Enqueue id)) by (intros; by apply calls_timer, framed_Enqueue).
  split_and!; [..|done].
  - intros. unfold handleStepSuccess. calls_step; [by split|]. calls_step; [apply calls_lift_go|].
    calls_step; [by apply calls_timer, framed_clear|]. calls_walk; done.
  - intros. unfold handleStepWaiting. destruct (match result with Some _ => _ | None => _ end).
    calls_walk; done.
  - intros. unfold handleStepFailure. calls_walk; done.
Qed.

Lemma calls_span l step st : calls_only keeps_pending (executeWithSpan e l step st).
Proof. eapply framed_calls; [exact env_keeps_pending|apply framed_executeWithSpan]. Qed.

Lemma calls_mark l id attempt status : calls_only keeps_pending (markStepRunning l id attempt status).
Proof. unfold markStepRunning. calls_walk; done. Qed.

Lemma calls_Advance id : calls_only keeps_pending (Advance e id).
Proof.
  destruct calls_handlers as (Hsucc & Hwait & Hfail & Hfin).
  assert (Henq : ∀ id, calls_only keeps_pending (Enqueue id)) by (intros; by apply calls_timer, framed_Enqueue).
  unfold Advance. do 2 (calls_step; [by split|]). calls_step; [by split|].
  apply calls_defer; [|calls_walk; done]. unfold advance_claimed.
  calls_step; [by apply calls_timer, framed_ensureWaitingTimer|]. calls_step; [done|].
  calls_step; [by split|]. cbv zeta. case_decide.
  - unfold advanceCompensation, compensation_done. pose proof calls_span. pose proof calls_mark.
    calls_walk; done.
  - unfold executeNormalStep. pose proof calls_span. pose proof calls_mark. calls_walk; done.
Qed.

(** The task of a message names an instance. *)
Definition task_of (m : Message) (id : string) : Prop :=
  msg_InstanceID m = Some id ∧ id ≠ "" ∧ id ≠ "<nil>".

(** C18: a task is acknowledged only when it is done with: whatever happens while a message is
    processed (errors, a crash at any call), it stays among the delivered tasks, to be
    reclaimed by some consumer, unless [Advance] returned without error or reported that
    another worker owns the instance. *)
Theorem task_acked_only_when_done {S} `{Repository S} m id cs (w : World S) p :
  task_of m id → p ∈ rd_pending (w_redis w) →
  p ∈ rd_pending (w_redis (run (processMessage e m) cs w).1.2) ∨
  ∃ r w' cs', run (Advance e id) cs w = (Returned r, w', cs') ∧
    match r with Ok _ => True | Err err => err_is err ErrInstanceBusy = true end.
Proof.
  intros (Hm & Hne & Hnil) Hp. unfold processMessage. rewrite Hm.
  change (default "<nil>" (Some id)) with id. cbv zeta.
  rewrite decide_False by naive_solver. rewrite run_bind.
  assert (Hadv : p ∈ rd_pending (w_redis (run (Advance e id) cs w).1.2)).
  { apply (calls_run keeps_pending (λ w, p ∈ rd_pending (w_redis w))); [|apply calls_Advance|done].
    intros R e0 c w0 He0. by rewrite handle_pending. }
  revert Hadv. destruct (run (Advance e id) cs w) as [[[r| |] w'] cs']; intros Hadv; [|left; exact Hadv..].
  destruct r as [[]|err]; [right; eexists (Ok ()), _, _; done|].
  destruct (err_is err ErrInstanceBusy) eqn:Hbusy; [right; eexists (Err err), _, _; done|by left].
Qed.

(** A waiting instance is not executed early: when the instance waits for a time that the
    clock has not reached, advancing it does nothing but schedule its timer again. *)
Theorem waiting_is_rescheduled {S} `{Repository S} s l id t c cs (w : World S) :
  e_timers e = Some s → i_Status l = InstanceWaitingTimer → i_CurrentStepID l = Some id →
  ss_WaitingTime (step_state (i_State l) id) = Some t → (c_now c < t)%Z →
  run (advance_claimed e l) (c :: cs) w =
  run (wrap_prog "reschedule waiting timer" (Schedule s (mkTimer (i_ID l) id t))) cs w.
Proof.
  intros Hs Hst Hcur Ht Hnow. unfold advance_claimed. rewrite run_bind. unfold ensureWaitingTimer.
  rewrite decide_False by (by rewrite Hst; intros []). rewrite Hcur, Ht, run_bind. cbn [run call handle].
  unfold time_after. rewrite (proj2 (Z.ltb_lt (c_now c) t) Hnow), Hs. cbn [negb]. rewrite run_bind.
  by destruct (run (wrap_prog _ _) cs w) as [[[] ?] ?].
Qed.
End tasks.

(** ** Failures *)

(** What may be saved after a failed attempt: as long as the policy allows a retry, the
    instance waits at the step until the back-off of the attempt has passed; else it
    starts to compensate with the machine's queue, or fails when that is empty. *)
Definition failure_saved `{GoArch} (m : Machine) (step : Step) (attempt : Z) (l : Instance_) : Prop :=
  let retry := step_Retry step ≫= λ r, if decide (attempt ≤ rp_MaxRetries r)%Z then Some r else None in
  match retry with
  | Some retry =>
      i_Status l = InstanceWaitingTimer ∧ i_CurrentStepID l = Some (step_ID step) ∧
      ∃ now, ss_WaitingTime (step_state (i_State l) (step_ID step)) = Some (time_add now (Backoff retry attempt)) ∧
        ss_Attempt (step_state (i_State l) (step_ID step)) = attempt
  | None =>
      (i_Status l = InstanceCompensating ∧ comp_queue l ≠ [] ∧ i_CurrentStepID l = head (comp_queue l) ∧
       comp_queue l = CompensationQueue m (step_ID step) (i_State l)) ∨
      (i_Status l = InstanceFailed ∧ i_CurrentStepID l = None ∧
       CompensationQueue m (step_ID step) (i_State l) = [])
  end.

Lemma retry_allowed_spec step attempt :
  retry_allowed step attempt = step_Retry step ≫= λ r, if decide (attempt ≤ rp_MaxRetries r)%Z then Some r else None.
Proof. unfold retry_allowed. by destruct (step_Retry step). Qed.

Definition saves (P : Instance_ → Prop) R (e : eff R) : Prop :=
  match e with
  | ERepo (OpUpdateInstance l _) => P l
  | _ => True
  end.

Lemma CompensationQueue_queue m id s q : CompensationQueue m id (with_CompensationQueue s q) = CompensationQueue m id s.
Proof. done. Qed.

(** C19: failures follow the retry policy: the only instance that the handler of a failed
    attempt saves waits for exactly the back-off of that attempt while attempts remain
    ([attempt <= max_retries]), and otherwise compensates with the queue computed by the
    machine, or fails when there is nothing to compensate. *)
Theorem failure_follows_policy `{Externals} `{GoArch} e o l m step hid attempt result err :
  match e_timers e with Some s => enqueue_ok s | None => True end →
  calls_only (saves (failure_saved m step attempt)) (handleStepFailure e o l m step hid attempt result err).
Proof.
  intros Htimers. unfold handleStepFailure. cbv zeta. calls_step; [by split|]. calls_step; [apply calls_lift_go|].
  rename a0 into st. unfold failure_saved. cbv zeta. rewrite <- retry_allowed_spec.
  destruct (retry_allowed step attempt) as [retry|].
  - calls_step; [by split|]. destruct (set_step st (step_ID step) _) as [st'|] eqn:Hset; [|done].
    cbn [lift_go mbind prog_mbind prog_bind]. apply calls_try.
    + split; [|done]. simpl. split_and!; [done|done|]. exists a0.
      assert (Hst : step_state st' (step_ID step) =
        mkStepState StepWaitingTimer (result_body result)
          (obj_map [("fire_at", VStr (format_rfc3339nano (time_add a0 (Backoff retry attempt))))])
          (err_text err) attempt (ss_IdempotencyKey (step_state st (step_ID step)))
          (Some (time_add a0 (Backoff retry attempt)))).
      { unfold set_step in Hset. destruct (rs_Steps st) as [sm|]; [|done]. injection Hset as <-.
        rewrite step_state_insert. by rewrite decide_True. }
      by rewrite Hst.
    + intros _. apply (framed_calls timer_eff); [by intros R [? []| | | | | | | | | | | | | | |]|].
      by apply framed_schedule_wait.
  - calls_step; [apply calls_lift_go|]. rename a0 into st'.
    destruct (CompensationQueue m (step_ID step) st') as [|next q] eqn:Hq.
    + unfold finishInstance. cbv zeta. calls_step; [|done]. split; [|done]. simpl. right. by split_and!.
    + calls_step; [|intros; apply (framed_calls timer_eff); [by intros R [? []| | | | | | | | | | | | | | |]|apply framed_Enqueue]].
      split; [|done]. simpl. left. split_and!; [done|done|done|]. unfold comp_queue. simpl. by rewrite CompensationQueue_queue, Hq.
Qed.

(** ** Recovery *)

(** Calls that succeed. *)
Definition no_fault (c : choice) : Prop := c_fault c = NoFault.

Lemma run_enqueue_all instances cs (w : World DB) `{PgClock} :
  length instances ≤ length cs → Forall no_fault cs →
  ∃ rd, run (enqueue_all instances) cs w =
      (Returned (Ok ()), mkWorld (w_repo w) rd, drop (length instances) cs) ∧
    msg_InstanceID <$> rd_stream rd = (msg_InstanceID <$> rd_stream (w_redis w)) ++ (Some ∘ i_ID <$> instances) ∧
    rd_pending rd = rd_pending (w_redis w).
Proof.
  revert cs w. induction instances as [|i instances IH]; intros cs w Hlen Hcs.
  { exists (w_redis w). destruct w. simpl. by rewrite app_nil_r. }
  destruct cs as [|c cs]; [simpl in Hlen; lia|]. apply Forall_cons in Hcs as [Hc Hcs].
  cbn [enqueue_all]. unfold Enqueue, try_err. rewrite !run_bind. cbn [run call handle]. unfold on_redis.
  rewrite Hc. cbn [with_fault redis_xadd]. simpl in Hlen. cbn [run mret prog_mret].
  destruct (IH cs (mkWorld (w_repo w) (redis_xadd (i_ID i) (w_redis w)).2) ltac:(lia) Hcs) as (rd & Hrun & Hmsgs & Hp).
  exists rd. split; [exact Hrun|]. split; [|exact Hp]. rewrite Hmsgs. simpl.
  rewrite fmap_app, <- app_assoc. done.
Qed.

(** Recovery re-enqueues every instance the store reports as recoverable, once each and in
    that order, and changes nothing else (when its calls succeed). *)
Theorem recover_enqueues_all `{PgClock} c cs (w : World DB) :
  let l := ListRecoverableInstances (k_now (c_tick c)) (k_order (c_tick c)) 500 (w_repo w) in
  no_fault c → Forall no_fault cs → length l ≤ length cs →
  ∃ rd, run Recover (c :: cs) w = (Returned (Ok ()), mkWorld (w_repo w) rd, drop (length l) cs) ∧
    msg_InstanceID <$> rd_stream rd = (msg_InstanceID <$> rd_stream (w_redis w)) ++ (Some ∘ i_ID <$> l) ∧
    rd_pending rd = rd_pending (w_redis w).
Proof.
  intros l Hc Hcs Hlen. unfold Recover, try_err. rewrite run_bind. cbn [run call handle].
  rewrite Hc. cbn [with_fault repo_exec postgres_repository run].
  destruct (run_enqueue_all l cs (mkWorld (w_repo w) (w_redis w)) Hlen Hcs) as (rd & Hrun & Hrest).
  exists rd. split; [exact Hrun|exact Hrest].
Qed.

(** ** A compensation that waits *)

(** A delay used as a compensation never completes: the engine passes an empty previous
    state to the executor, and the step has just been marked as running, so every
    execution answers that the delay has to be waited for (or an error), never success. *)
Theorem delay_compensation_never_completes `{Externals} {S} `{Repository S} e l step cs (w : World S) result err w' cs' :
  step_Type step = StepDelay → ss_Status (step_state (i_State l) (step_ID step)) = StepRunning →
  run (executeWithSpan e l step zeroStepState) cs w = (Returned (result, err), w', cs') → err ≠ None.
Proof.
  intros Ht Hst. unfold executeWithSpan. rewrite decide_False by (intros [_ ?]; done).
  unfold Execute. rewrite Ht.
  rewrite !(decide_False (P := StepDelay = _)) by done. rewrite decide_True by done.
  unfold executeDelay, unless_done. destruct cs as [|c cs]; [done|]. cbn [run mbind prog_mbind prog_bind call handle].
  destruct (c_ctx c) as [ctxErr|]; [by intros [= _ <- _ _]|].
  unfold step_state in Hst.
  destruct (gm_get (rs_Steps (i_State l)) (step_ID step)) as [st|]; simpl in Hst; [|discriminate].
  rewrite bool_decide_false by (by rewrite Hst).
  destruct (parse_duration _); [|by intros [= _ <- _ _]].
  destruct cs as [|c' cs]; [done|]. cbn. by intros [= _ <- _ _].
Qed.

(** ** Witnesses *)

#[local] Existing Instance toy_externals.

Definition w_engine : Engine :=
  NewEngine "host" 1 (NewExecutor None) (Some (NewTimer (Some Enqueue) (mkTimerConfig "" 0 0)))
    (mkEngineConfig "" "" "" 0 0 0).
Definition w_choice : choice :=
  mkChoice NoFault (mkTick 100 100 "u1" [] [] []) 100 "key-1" 1 [] None (Err (ErrText "")) (Err (ErrText "")).
Definition w_world : World DB := mkWorld order_db (mkRedis 1 true [] [mkPending (mkMessage "0" (Some "i1")) "c" 0] ∅).
Definition w_after : World DB := (run (Advance w_engine "i1") (replicate 20 w_choice) w_world).1.2.

Lemma advance_leaves_wakeup_witness : wake "i1" w_after.
Proof.
  apply (advance_leaves_wakeup w_engine (NewTimer (Some Enqueue) (mkTimerConfig "" 0 0)) eq_refl eq_refl "i1"
           (replicate 20 w_choice) w_world w_after (run (Advance w_engine "i1") (replicate 20 w_choice) w_world).2).
  vm_compute. reflexivity.
Defined.

Definition w_message : Message := mkMessage "0" (Some "i1").
(** A process that stops in the middle of the message. *)
Lemma task_acked_only_when_done_witness :
  mkPending w_message "c" 0 ∈ rd_pending (w_redis (run (processMessage w_engine w_message) (replicate 5 w_choice) w_world).1.2) ∨
  ∃ r w' cs', run (Advance w_engine "i1") (replicate 5 w_choice) w_world = (Returned r, w', cs') ∧
    match r with Ok _ => True | Err err => err_is err ErrInstanceBusy = true end.
Proof.
  apply (task_acked_only_when_done w_engine).
  - intros id. apply framed_Enqueue.
  - split_and!; [reflexivity|discriminate|discriminate].
  - apply list_elem_of_here.
Defined.

Definition waiting_instance : Instance_ :=
  with_progress order_instance InstanceWaitingTimer (Some "reserve")
    (with_Steps NewRuntimeState (Some {["reserve" := mkStepState StepWaitingTimer VNil None "" 1 "k" (Some 5000%Z)]})).
Lemma waiting_is_rescheduled_witness :
  run (advance_claimed w_engine waiting_instance) (replicate 9 w_choice) w_world =
  run (wrap_prog "reschedule waiting timer"
         (Schedule (NewTimer (Some Enqueue) (mkTimerConfig "" 0 0)) (mkTimer "i1" "reserve" 5000)))
      (replicate 8 w_choice) w_world.
Proof.
  apply (waiting_is_rescheduled w_engine (NewTimer (Some Enqueue) (mkTimerConfig "" 0 0)) waiting_instance
           "reserve" 5000 w_choice (replicate 8 w_choice) w_world); try reflexivity.
Defined.

Definition retried_step : Step :=
  mkStep "reserve" StepTransform (obj_map [("expr", VStr "fail")]) (Some (mkRetry 2 "1s" "10s" (f64_of_Z 2))) "".
Lemma failure_follows_policy_witness :
  calls_only (saves (failure_saved (NewMachine order_dsl) retried_step 1))
    (handleStepFailure w_engine [] order_instance (NewMachine order_dsl) retried_step "h1" 1 None (ErrText "boom")).
Proof. apply (failure_follows_policy w_engine). intros id. apply framed_Enqueue. Defined.

Lemma recover_enqueues_all_witness :
  let l := ListRecoverableInstances 100 [] 500 order_db in
  ∃ rd, run Recover [w_choice; w_choice] w_world = (Returned (Ok ()), mkWorld order_db rd, drop (length l) [w_choice]) ∧
    msg_InstanceID <$> rd_stream rd = [] ++ (Some ∘ i_ID <$> l) ∧
    rd_pending rd = rd_pending (w_redis w_world).
Proof.
  apply (recover_enqueues_all w_choice [w_choice] w_world).
  - reflexivity.
  - constructor; [reflexivity|constructor].
  - apply Nat.leb_le. vm_compute. reflexivity.
Defined.

Definition delay_step : Step := mkStep "undo" StepDelay (obj_map [("duration", VStr "10ms")]) None "".
Definition undoing : Instance_ :=
  with_state order_instance
    (with_Steps NewRuntimeState (Some {["undo" := mkStepState StepRunning VNil None "" 1 "k" None]})).
Lemma delay_compensation_never_completes_witness : Some (ErrWaitingTimer (100 + 10 * Millisecond)) ≠ None.
Proof.
  eapply (delay_compensation_never_completes w_engine undoing delay_step [w_choice; w_choice] w_world).
  - reflexivity.
  - vm_compute. reflexivity.
  - vm_compute. reflexivity.
Defined.
