(* ===== verification/Api.v ===== *)
(** * internal/api: authentication and handlers

    A [request] is what the router and the JSON binding hand to a handler: the two
    credential headers and, per route, the decoded body or its decoding error.  A
    response is a status code and a body ([reply]); the handlers are programs.  [serve]
    starts from the bytes of the body: [limitBody] cuts them off, and the decoder of the
    gin package ([Binding]) is an argument. *)

From Stdlib Require Import Ascii.
From S2P Require Import Prelude GoNum GoString GoTime Workflow Accessors Store Externals Effects.
From S2P Require Import Security Validator Timer Worker Engine.

(** ** auth.go *)

Definition roleAdmin : string := "admin".
Definition roleOperator : string := "operator".
Definition roleReader : string := "reader".
Definition defaultTenantID : string := "default".

Record APIKey := mkAPIKey { k_Token : string; k_TenantID : string; k_Role : string }.
Record Principal := mkPrincipal { pr_TenantID : string; pr_Role : string }.
Record headers := mkHeaders { hd_Authorization : string; hd_XAPIKey : string }.

Definition bearerToken (header : string) : string :=
  if has_prefix header "Bearer " then trim_space (trim_prefix header "Bearer ") else "".

(** The first key whose token is the request's ([subtle.ConstantTimeCompare]). *)
Fixpoint find_key (keys : list APIKey) (token : string) : option Principal :=
  match keys with
  | [] => None
  | key :: keys => if decide (token = k_Token key) then Some (mkPrincipal (k_TenantID key) (k_Role key))
                   else find_key keys token
  end.

(** The principal of the request, or [None] for status 401. *)
Definition authenticate (keys : list APIKey) (h : headers) : option Principal :=
  match keys with
  | [] => Some (mkPrincipal defaultTenantID roleAdmin)
  | _ =>
      let token := bearerToken (hd_Authorization h) in
      find_key keys (if decide (token = "") then hd_XAPIKey h else token)
  end.

(** The principal a handler reads back from the context. *)
Definition currentPrincipal (raw : option Principal) : Principal :=
  match raw with
  | None => mkPrincipal defaultTenantID roleAdmin
  | Some p => if decide (pr_TenantID p = "" ∨ pr_Role p = "") then mkPrincipal defaultTenantID roleAdmin else p
  end.

Definition requireRole (allowed : list string) (p : Principal) : bool := bool_decide (pr_Role p ∈ allowed).

Section keys.
Context `{Externals}.

Definition normalizeRole (role : string) : string :=
  let r := to_lower (trim_space role) in
  if decide (r = roleReader) then roleReader
  else if decide (r = roleOperator) then roleOperator
  else roleAdmin.

(** One element of the list; [None] when it is skipped. *)
Definition parse_key (part : string) : option APIKey :=
  let part := trim_space part in
  if decide (part = "") then None
  else
    let key :=
      match cut_byte "=" part with
      | Some (token, descriptor) =>
          let descriptor := trim_space descriptor in
          let '(tenant, role) := match cut_byte ":" descriptor with
                                 | Some (t, r) => (t, Some r)
                                 | None => (descriptor, None)
                                 end in
          mkAPIKey (trim_space token)
            (if decide (trim_space tenant ≠ "") then trim_space tenant else defaultTenantID)
            (match role with
             | Some r => if decide (trim_space r ≠ "") then normalizeRole r else roleAdmin
             | None => roleAdmin
             end)
      | None => mkAPIKey part defaultTenantID roleAdmin
      end in
    if decide (k_Token key = "") then None else Some key.

Definition ParseAPIKeys (raw : string) : list APIKey := omap parse_key (split_byte "," raw).
End keys.

(** ** handlers.go *)

Definition createInstanceRequest : Type := string * gomap value.   (* DefinitionID, Input *)

Inductive request :=
| ReqHealthz
| ReqReadyz
| ReqCreateDefinition (body : res DefinitionDSL)
| ReqCreateInstance (body : res createInstanceRequest)
| ReqGetInstance (id : string).

Inductive reply :=
| ReplyError (text : string)
| ReplyStatus (status : string)
| ReplyNotReady (service text : string)
| ReplyDefinition (d : Definition_)
| ReplyInstance (i : Instance_)
| ReplyDetail (i : Instance_) (history : list History).

Definition response : Type := Z * reply.
Definition error_reply (code : Z) (text : string) : response := (code, ReplyError text).

(** 404 for a missing row, else 500. *)
Definition lookup_error (e : goerr) : response :=
  error_reply (if err_is e ErrNoRows then 404 else 500) (err_text e).

Definition healthz : prog response := mret (200%Z, ReplyStatus "ok").

Definition readyz : prog response :=
  pg ← call (ERepo Ping);
  match pg with
  | Err e => mret (503%Z, ReplyNotReady "postgres" (err_text e))
  | Ok _ =>
      rd ← call ERedisPing;
      match rd with
      | Err e => mret (503%Z, ReplyNotReady "redis" (err_text e))
      | Ok _ => mret (200%Z, ReplyStatus "ready")
      end
  end.

Definition createInstance (p : Principal) (body : res createInstanceRequest) : prog response :=
  match body with
  | Err e => mret (error_reply 400 (err_text (ErrWrap "decode instance request" e)))
  | Ok (definitionID, input) =>
      if decide (definitionID = "") then mret (error_reply 400 "definition_id is required")
      else
        let input := match input with None => Some ∅ | Some m => Some m end in
        definition ← call (ERepo (OpGetDefinitionForTenant (pr_TenantID p) definitionID));
        match definition with
        | Err e => mret (lookup_error e)
        | Ok definition =>
            instance ← call (ERepo (OpCreateInstance (pr_TenantID p) definition input));
            match instance with
            | Err e => mret (error_reply 500 (err_text e))
            | Ok instance =>
                queued ← Enqueue (i_ID instance);
                match queued with
                | Err e => mret (error_reply 500 (err_text e))
                | Ok _ => mret (202%Z, ReplyInstance instance)
                end
            end
        end
  end.

Definition getInstance (p : Principal) (instanceID : string) : prog response :=
  instance ← call (ERepo (OpGetInstanceForTenant (pr_TenantID p) instanceID));
  match instance with
  | Err e => mret (lookup_error e)
  | Ok instance =>
      history ← call (ERepo (OpListHistoryForTenant (pr_TenantID p) instanceID));
      match history with
      | Err e => mret (error_reply 500 (err_text e))
      | Ok history => mret (200%Z, ReplyDetail instance history)
      end
  end.

Section handlers.
Context `{Externals}.
Variable v : Validator.
Variable keys : list APIKey.

Definition createDefinition (p : Principal) (body : res DefinitionDSL) : prog response :=
  match body with
  | Err e => mret (error_reply 400 (err_text (ErrWrap "decode definition request" e)))
  | Ok dsl =>
      ctxErr ← call ECtxErr;
      o ← call EOrder;
      match Validate o ctxErr v dsl with
      | None => PPanic
      | Some (Err e) => mret (error_reply 400 (err_text e))
      | Some (Ok _) =>
          definition ← call (ERepo (OpCreateDefinition (pr_TenantID p) dsl));
          match definition with
          | Err e => mret (error_reply 500 (err_text e))
          | Ok definition => mret (201%Z, ReplyDefinition definition)
          end
      end
  end.

(** [authenticate], then [requireRole], then the handler. *)
Definition protected (h : headers) (allowed : list string) (handler : Principal → prog response) : prog response :=
  match authenticate keys h with
  | None => mret (error_reply 401 "invalid or missing API key")
  | Some p =>
      let p := currentPrincipal (Some p) in
      if requireRole allowed p then handler p else mret (error_reply 403 "insufficient role")
  end.

Definition Router (h : headers) (r : request) : prog response :=
  match r with
  | ReqHealthz => healthz
  | ReqReadyz => readyz
  | ReqCreateDefinition body => protected h [roleAdmin] (fun p => createDefinition p body)
  | ReqCreateInstance body => protected h [roleAdmin; roleOperator] (fun p => createInstance p body)
  | ReqGetInstance id => protected h [roleAdmin; roleOperator; roleReader] (fun p => getInstance p id)
  end.
End handlers.

(** ** Bodies as bytes *)

(** [ShouldBindJSON]: decodes what is read from a body, given how the reading ends
    ([None] at the end of the body). *)
Class Binding := {
  bind_definition : string → option goerr → res DefinitionDSL;
  bind_instance : string → option goerr → res createInstanceRequest;
}.

(** [http.MaxBytesReader]: the first [maxBytes] bytes, then an error when there are more. *)
Definition limitBody (maxBytes : Z) (body : string) : string * option goerr :=
  let maxBytes := if decide (maxBytes ≤ 0)%Z then Z.shiftl 1 20 else maxBytes in
  (take_bytes maxBytes body,
   if decide (maxBytes < byte_length body)%Z then Some (ErrText "http: request body too large") else None).

(** The routes of [Router] with the body as it arrives. *)
Inductive incoming :=
| GetHealthz
| GetReadyz
| PostDefinitions (body : string)
| PostInstances (body : string)
| GetInstances (id : string).

Record Options := mkApiOptions { o_APIKeys : list APIKey; o_MaxBodyBytes : Z }.
Record Handler := mkHandler { h_validator : Validator; h_options : Options }.
Definition NewHandler (validator : Validator) (options : Options) : Handler := mkHandler validator options.

Definition decode_body `{Binding} (maxBytes : Z) (i : incoming) : request :=
  match i with
  | GetHealthz => ReqHealthz
  | GetReadyz => ReqReadyz
  | PostDefinitions body => ReqCreateDefinition (bind_definition (limitBody maxBytes body).1 (limitBody maxBytes body).2)
  | PostInstances body => ReqCreateInstance (bind_instance (limitBody maxBytes body).1 (limitBody maxBytes body).2)
  | GetInstances id => ReqGetInstance id
  end.

Definition serve `{Externals} `{Binding} (h : Handler) (hd : headers) (i : incoming) : prog response :=
  Router (h_validator h) (o_APIKeys (h_options h)) hd (decode_body (o_MaxBodyBytes (h_options h)) i).
