(* ===== verification/ScriptRun.v ===== *)
(** * Running a script

    What a consumer does with the instance of a workflow when no call fails and the order
    in which its steps are executed is known ([script]): every task moves the instance one
    step further, each step is executed once and in order.  [LinearRun] gives the script
    of a linear path, [ScheduleRun] that of any workflow whose schedule can be computed. *)

From S2P Require Import Prelude GoNum GoString GoTime Workflow Accessors Machine MachineFacts.
From S2P Require Import Json Store Externals Effects Timer Worker Engine Validator Api Calm.

#[local] Open Scope prog_scope.

(** ** Scripts

    A script of a workflow: the steps in the order in which they are executed, the forks
    before each of them, and the next step that the result of each step names. *)
Record script (dsl : DefinitionDSL) (path : list Step) (F : nat → gmap string ForkState) (R : Step → option string) : Prop := {
  sr_nodup : NoDup (step_ID <$> path);
  sr_known : ∀ k step, path !! k = Some step → StepByID dsl (step_ID step) = Some step;
  sr_head : head path = head (m_normal (NewMachine dsl));
  sr_forks : F 0 = ∅;
  sr_next : ∀ k step o s r, path !! k = Some step → default ∅ (rs_Forks s) = F k → r_NextStepID r = R step →
    NextAfter o (NewMachine dsl) step s (Some r) = Done (with_Forks (Normalize s) (Some (F (S k))), path !! S k);
}.

(** ** Encoding *)

(** Every value held for a step can be saved, and saved again after it was read back. *)
Definition state_encodable (s : RuntimeState) : Prop :=
  ∀ i st, gm_get (rs_Steps s) i = Some st → encodable (ss_Body st) ∧ encodable (VObj (ss_Output st)).

Lemma encodable_reload_map m : encodable (VObj m) → encodable (VObj (reload_map json_norm m)).
Proof.
  destruct m as [m|]; [|done]. simpl. case_decide; [done|]. apply (encodable_norm (VObj (Some m))).
Qed.

Lemma state_encodable_reload s : state_encodable s → state_encodable (reload s).
Proof.
  intros Hs i st. rewrite gm_get_reload_steps. intros (st0 & Hst & ->)%fmap_Some.
  destruct (Hs i st0 Hst). split; [by apply encodable_norm|by apply encodable_reload_map].
Qed.

Lemma state_encodable_Normalize s : state_encodable s → state_encodable (Normalize s).
Proof. intros Hs i st. rewrite Normalize_Steps_get. apply Hs. Qed.

Lemma state_encodable_insert s m id st :
  state_encodable s → rs_Steps s = Some m → encodable (ss_Body st) → encodable (VObj (ss_Output st)) →
  state_encodable (with_Steps s (Some (<[id := st]> m))).
Proof.
  intros Hs Hm Hb Ho i st'. unfold gm_get. simpl. rewrite lookup_insert. case_decide.
  - by intros [= <-].
  - intros Hi. apply (Hs i). unfold gm_get. by rewrite Hm.
Qed.

Lemma state_encodable_json_ok s : state_encodable s → state_json_ok s = true.
Proof.
  intros Hs. unfold state_json_ok.
  apply (map_fold_andb (λ st, json_ok (ss_Body st) && output_json_ok (ss_Output st))).
  intros i st Hst. destruct (Hs i st) as [[Hb _] [Ho _]].
  - unfold gm_get. by destruct (rs_Steps s).
  - rewrite Hb. exact Ho.
Qed.

Lemma BuildEnv_json_ok input s :
  json_ok (VObj input) = true → state_encodable s → json_ok (VObj (BuildEnv input s)) = true.
Proof.
  intros Hin Hs. unfold BuildEnv. apply json_ok_obj_map. repeat constructor; [exact Hin|].
  apply (json_ok_obj (Some _)). intros k v. unfold gm_get. simpl. rewrite lookup_fmap.
  intros (st & Hst & ->)%fmap_Some.
  destruct (Hs k st) as [[Hb _] [Ho _]].
  { rewrite <- Normalize_Steps_get. unfold gm_get. by destruct (rs_Steps (Normalize s)). }
  apply json_ok_obj_map. repeat constructor; [exact Hb|exact Ho].
Qed.

(** ** The state after [k] steps

    [att] gives the attempts that each step takes. *)

Section progress.
Context (att : string → Z).

Record progress (path : list Step) (forks : gmap string ForkState) (k : nat) (s : RuntimeState) : Prop := {
  pr_completed : rs_Completed s = step_ID <$> take k path;
  pr_queue : rs_CompensationQueue s = [];
  pr_forks : default ∅ (rs_Forks s) = forks;
  pr_done : ∀ j step, j < k → path !! j = Some step → ∃ st, gm_get (rs_Steps s) (step_ID step) = Some st ∧
    ss_Status st = StepCompleted ∧ ss_Attempt st = att (step_ID step);
  pr_todo : ∀ j step, k ≤ j → path !! j = Some step → gm_get (rs_Steps s) (step_ID step) = None;
  pr_json : state_encodable s;
}.

Lemma progress_reload path forks k s : progress path forks k s → progress path forks k (reload s).
Proof.
  intros [Hc Hq Hf Hd Ht Hj]. constructor; try done.
  - by rewrite reload_default_forks.
  - intros j step Hlt Hstep. destruct (Hd j step Hlt Hstep) as (st & Hst & ? & ?).
    exists (reload_step st). by rewrite gm_get_reload_steps, Hst.
  - intros j step Hle Hstep. by rewrite gm_get_reload_steps, (Ht j step Hle Hstep).
  - by apply state_encodable_reload.
Qed.

Lemma progress_Normalize path forks k s : progress path forks k s → progress path forks k (Normalize s).
Proof.
  intros [Hc Hq Hf Hd Ht Hj].
  constructor; [by rewrite Normalize_Completed|by rewrite Normalize_Queue|by rewrite Normalize_Forks| | |].
  - intros j step. rewrite Normalize_Steps_get. apply Hd.
  - intros j step. rewrite Normalize_Steps_get. apply Ht.
  - by apply state_encodable_Normalize.
Qed.

Lemma progress_Forks path forks forks' k s :
  progress path forks k s → progress path forks' k (with_Forks s (Some forks')).
Proof. intros []. by constructor. Qed.

Lemma progress_new path started : progress path ∅ 0 (with_StartedAt NewRuntimeState started).
Proof.
  constructor; [done|done|done|lia|..].
  - intros j step _ _. unfold gm_get. simpl. by rewrite lookup_empty.
  - intros i st. unfold gm_get. simpl. by rewrite lookup_empty.
Qed.

(** A step of the path is marked completed, from its running entry. *)
Lemma progress_mark path forks k s step st0 st m :
  NoDup (step_ID <$> path) → path !! k = Some step → progress path forks k s → rs_Steps s = Some m →
  ss_Attempt st = att (step_ID step) → encodable (ss_Body st) → encodable (VObj (ss_Output st)) →
  ∃ s', MarkCompleted (with_Steps s (Some (<[step_ID step := st0]> m))) (step_ID step) st = Done s' ∧
    progress path forks (S k) s'.
Proof.
  intros Hnd Hk [Hc Hq Hf Hd Ht Hj] Hm Ha Hb Ho.
  set (s1 := with_Steps s (Some (<[step_ID step := st0]> m))).
  destruct (MarkCompleted_done s1 (step_ID step) st) as (m1 & Hm1 & ->). injection Hm1 as <-.
  assert (Hnew : step_ID step ∉ step_ID <$> take k path).
  { rewrite <- (take_drop k path), fmap_app, (drop_S _ step) in Hnd by done.
    apply NoDup_app in Hnd as (_ & Hdis & _). intros Hin. apply (Hdis _ Hin). simpl. by left. }
  cbv zeta. rewrite decide_False by (by change (rs_Completed s1) with (rs_Completed s); rewrite Hc).
  eexists. split; [done|].
  assert (Hget : ∀ i, gm_get (Some (<[step_ID step := with_Status st StepCompleted]> (<[step_ID step := st0]> m))) i =
    if decide (i = step_ID step) then Some (with_Status st StepCompleted) else gm_get (rs_Steps s) i).
  { intros i. unfold gm_get. simpl. rewrite Hm. simpl. rewrite insert_insert_eq. case_decide as Hi.
    - by rewrite Hi, lookup_insert_eq.
    - by rewrite lookup_insert_ne. }
  constructor; try done.
  - simpl. by rewrite Hc, (take_S_r path k step), fmap_app.
  - intros j step' Hlt Hj'. cbn [rs_Steps with_Completed with_Steps]. rewrite Hget. case_decide as Hid; [rewrite Hid; eauto|].
    apply (Hd j step'); [|done]. destruct (decide (j = k)) as [->|]; [congruence|lia].
  - intros j step' Hle Hj'. cbn [rs_Steps with_Completed with_Steps]. rewrite Hget, decide_False.
    + apply (Ht j step'); [lia|done].
    + intros Heq. assert (j = k); [|lia].
      eapply NoDup_lookup; [exact Hnd|by rewrite list_lookup_fmap, Hj'|by rewrite list_lookup_fmap, Hk, Heq].
  - intros i st'. cbn [rs_Steps with_Completed with_Steps]. rewrite Hget. case_decide; [|eauto]. by intros [= <-].
Qed.
End progress.

(** ** One task *)

Section scripted.
Context `{Externals} `{GoArch} `{PgClock}.
Context (e : Engine) (good : choice → World DB → Prop).
Hypothesis good_calm : ∀ c w, good c w → calm c w.

(** The execution of the step succeeds, whatever the instance, names the next step [next]
    and changes nothing. *)
Definition step_returns (next : option string) (step : Step) : Prop :=
  ∀ l w, twp good (Execute (e_executor e) l step) (λ r w', w' = w ∧
    ∃ output body, r = returns output body next ∧ encodable (VObj output) ∧ encodable body) w.
Definition step_succeeds : Step → Prop := step_returns None.

Context (id did : string) (defs : gmap string Definition_) (tm : option (gmap string Timer)).
Context (att : string → Z) (d : Definition_).
Hypothesis Htm : no_timer id tm.
Hypothesis Hdef : defs !! did = Some d.
Context (path : list Step) (F : nat → gmap string ForkState) (R : Step → option string).
Hypothesis Hscript : script (d_DSL d) path F R.

(** The step succeeds, and once is all it takes. *)
Definition step_once (step : Step) : Prop := step_returns (R step) step ∧ att (step_ID step) = 1%Z.

(** The columns of the row that never change. *)
Definition instance_of (r : Instance_) : Prop :=
  i_DefinitionID r = did ∧ d_TenantID d = tenant_or_default (i_TenantID r) ∧ json_ok (VObj (i_Input r)) = true.

(** The row before the [k]-th step, and at the end. *)
Definition row_at (k : nat) (r : Instance_) : Prop :=
  instance_of r ∧ progress att path (F k) k (i_State r) ∧ i_Status r ∈ [InstancePending; InstanceRunning] ∧
  match k with O => i_CurrentStepID r = None | S _ => i_CurrentStepID r = step_ID <$> path !! k end.

Definition row_done (r : Instance_) : Prop :=
  progress att path (F (length path)) (length path) (i_State r) ∧ i_Status r = InstanceCompleted ∧ i_CurrentStepID r = None.

(** The row and the tasks after the [k]-th step. *)
Definition moved (k : nat) (r : Instance_) (stream stream' : list (option string)) : Prop :=
  (S k < length path ∧ row_at (S k) r ∧ stream' = stream ++ [Some id]) ∨
  (S k = length path ∧ row_done r ∧ stream' = stream).

Lemma saved_moved k r l s now step stream :
  path !! k = Some step → instance_of r → progress att path (F k) (S k) s →
  i_State l = with_Forks (Normalize s) (Some (F (S k))) →
  match path !! S k with
  | Some next => i_Status l = InstanceRunning → i_CurrentStepID l = Some (step_ID next) →
      moved k (saved_row r l now) stream (stream ++ [Some id])
  | None => i_Status l = InstanceCompleted → i_CurrentStepID l = None → moved k (saved_row r l now) stream stream
  end.
Proof.
  intros Hk Hr Hs Hl.
  assert (Hrow : progress att path (F (S k)) (S k) (reload (i_State l))).
  { rewrite Hl. by eapply progress_reload, progress_Forks, progress_Normalize. }
  pose proof (lookup_lt_Some _ _ _ Hk). destruct (path !! S k) as [next|] eqn:Hn; intros Hst Hcur.
  - left. split; [by eapply lookup_lt_Some|]. split; [|done].
    split_and!; [exact Hr|exact Hrow|simpl; rewrite Hst; set_solver|simpl; by rewrite Hcur, Hn].
  - right. apply lookup_ge_None in Hn. assert (S k = length path) as Hlen by lia. split; [done|]. split; [|done].
    split_and!; [by rewrite <- Hlen|done|done].
Qed.

Lemma twp_handleStepSuccess o k step n l s m st0 hid output body row stream pending w :
  path !! k = Some step → att (step_ID step) = n → shows id defs tm row stream pending w → instance_of (row_inst row) →
  i_ID l = id → i_Version (row_inst row) = i_Version l →
  progress att path (F k) k s → rs_Steps s = Some m → i_State l = with_Steps s (Some (<[step_ID step := st0]> m)) →
  is_Some (db_history (w_repo w) !! hid) → encodable (VObj output) → encodable body →
  twp good (handleStepSuccess e o l (NewMachine (d_DSL d)) step hid n (Some (mkResult output body (R step) None)))
    (λ r w', r = Ok () ∧ ∃ row' stream', shows id defs tm row' stream' pending w' ∧
       locked_by row' = locked_by row ∧ moved k (row_inst row') stream stream') w.
Proof.
  intros Hk Hatt Hw Hr Hid Hv Hs Hm Hl Hh Ho Hb. unfold handleStepSuccess.
  apply twp_try with (P := λ _, shows id defs tm row stream pending).
  { apply (twp_complete good good_calm); [exact Hw|done|apply Ho]. }
  intros _ w1 Hw1.
  destruct (progress_mark att path (F k) k s step st0 (completed_state (i_State l) (step_ID step) n (Some (mkResult output body (R step) None))) m)
    as (s' & Hs' & Hp'); [exact (sr_nodup _ _ _ _ Hscript)|done..|].
  rewrite Hl at 1. eapply twp_lift; [exact Hs'|].
  eapply twp_try with (P := λ _, shows id defs tm row stream pending).
  { rewrite Hid. destruct (e_timers e) as [svc|]; [by apply (twp_Clear good good_calm id defs tm)|simpl; eauto]. }
  intros _ w2 Hw2. eapply twp_lift.
  { apply (sr_next _ _ _ _ Hscript k); [done|apply Hp'|done]. }
  cbn beta iota. set (s2 := with_Forks (Normalize s') (Some (F (S k)))).
  assert (Hj : state_json_ok s2 = true).
  { apply state_encodable_json_ok, (pr_json att path (F (S k)) (S k)). by eapply progress_Forks, progress_Normalize. }
  destruct (path !! S k) as [next|] eqn:Hn.
  - eapply twp_try; [apply (twp_update good good_calm id defs tm row stream pending
      (with_progress l InstanceRunning (Some (step_ID next)) s2) w2); done|].
    intros _ w3 (_ & now & Hw3). eapply twp_mono; [eapply (twp_Enqueue good good_calm), Hw3|].
    intros r w4 [-> Hw4]. split; [done|]. eexists _, _. rewrite Hid in Hw4. split; [exact Hw4|]. split; [done|].
    pose proof (saved_moved k (row_inst row) (with_progress l InstanceRunning (Some (step_ID next)) s2) s' now
                  step stream Hk Hr Hp' eq_refl) as Hmv. rewrite Hn in Hmv. by apply Hmv.
  - eapply twp_try; [apply (twp_update good good_calm id defs tm row stream pending
      (with_progress l InstanceCompleted None s2) w2); done|].
    intros _ w3 (_ & now & Hw3). split; [done|]. eexists _, _. split; [exact Hw3|]. split; [done|].
    pose proof (saved_moved k (row_inst row) (with_progress l InstanceCompleted None s2) s' now
                  step stream Hk Hr Hp' eq_refl) as Hmv. rewrite Hn in Hmv. by apply Hmv.
Qed.

(** A step that does not wait is executed. *)
Lemma twp_span step prev (Rr : exec_result → Prop) :
  ss_Status prev ≠ StepWaitingTimer →
  (∀ l w, twp good (Execute (e_executor e) l step) (λ r w', w' = w ∧ Rr r) w) →
  ∀ l w, twp good (executeWithSpan e l step prev) (λ r w', w' = w ∧ Rr r) w.
Proof.
  intros Hprev Hexec l w. unfold executeWithSpan.
  rewrite decide_False by (intros [_ Hwait]; exact (Hprev Hwait)). apply Hexec.
Qed.

(** The common beginning of a normal step and of a compensation: the attempt is recorded
    in the state and in the history, then the step is executed. *)
Lemma twp_start c1 c2 step attempt status prev l row stream pending w (Rr : exec_result → Prop)
    (K : Instance_ → History → exec_result → prog (res ())) Q :
  shows id defs tm row stream pending w → instance_of (row_inst row) →
  i_ID l = id → i_Version (row_inst row) = i_Version l → i_Input l = i_Input (row_inst row) →
  state_encodable (i_State l) →
  (∀ l w, ss_Status (step_state (i_State l) (step_ID step)) = StepRunning →
    twp good (executeWithSpan e l step prev) (λ r w', w' = w ∧ Rr r) w) →
  (∀ l1 key m row1 h r w2, rs_Steps (Normalize (i_State l)) = Some m →
    i_ID l1 = id → i_Version (row_inst row1) = i_Version l1 → instance_of (row_inst row1) →
    locked_by row1 = locked_by row →
    i_State l1 = with_Steps (Normalize (i_State l))
      (Some (<[step_ID step := mkStepState StepRunning VNil None "" attempt key None]> m)) →
    shows id defs tm row1 stream pending w2 → is_Some (db_history (w_repo w2) !! h_ID h) → Rr r →
    twp good (K l1 h r) Q w2) →
  twp good
    (try instance ← markStepRunning l (step_ID step) attempt status or c1;
     now ← call ENow;
     try history ← call (ERepo (OpAppendHistory (start_entry instance (step_ID step) attempt now))) or c2;
     r ← executeWithSpan e instance step prev;
     K instance history r) Q w.
Proof.
  intros Hw Hr Hid Hv Hin Henc Hexec HK.
  destruct (Normalize_Steps (i_State l)) as [m Hm].
  set (run_state key := with_Steps (Normalize (i_State l))
    (Some (<[step_ID step := mkStepState StepRunning VNil None "" attempt key None]> m))).
  assert (Hjson : ∀ key, state_encodable (run_state key)).
  { intros key. apply state_encodable_insert; [by apply state_encodable_Normalize|done..]. }
  apply twp_try with (P := λ l' w', ∃ key now,
    l' = with_version (with_progress l status (Some (step_ID step)) (run_state key)) (i_Version l + 1) ∧
    shows id defs tm (mkRow (saved_row (row_inst row)
      (with_progress l status (Some (step_ID step)) (run_state key)) now) (locked_by row) (locked_until row))
      stream pending w').
  { unfold markStepRunning. cbv zeta. apply twp_then with (P := λ _ w', w' = w).
    { case_decide; [by calm_read|done]. }
    intros key w' ->. eapply twp_lift; [by apply set_step_nonnil|]. unfold update.
    eapply twp_try; [apply (twp_update good good_calm id defs tm row stream pending
      (with_progress l status (Some (step_ID step)) (run_state key))); try done|].
    { apply state_encodable_json_ok, Hjson. }
    intros l' w1 (-> & now & Hw1). eexists. split; [reflexivity|]. exists key, now. by split. }
  intros l' w1 (key & now & -> & Hw1). calm_read. set (l1 := with_version _ _) in *.
  assert (Henv : json_ok (VObj (BuildEnv (i_Input l1) (i_State l1))) = true).
  { apply BuildEnv_json_ok; [|exact (Hjson key)]. change (i_Input l1) with (i_Input l). rewrite Hin. apply Hr. }
  eapply twp_try; [apply (twp_append good good_calm id defs tm _ stream pending
    (start_entry l1 (step_ID step) attempt (c_now c)) w1 Hw1 Hid Henv eq_refl)|].
  intros h w2 [Hw2 Hh].
  eapply twp_then; [apply Hexec|].
  { unfold step_state, gm_get. simpl. by rewrite lookup_insert_eq. }
  intros r w3 (-> & HR). set (row1 := mkRow _ _ _) in *.
  apply (HK l1 key m row1 h r w2); [done|done| |done|done|done|done|done|done].
  unfold row1, l1. simpl. by rewrite Hv.
Qed.

Lemma twp_executeNormalStep k step l row stream pending w :
  path !! k = Some step → step_once step → shows id defs tm row stream pending w → instance_of (row_inst row) →
  i_ID l = id → i_Version (row_inst row) = i_Version l → i_Input l = i_Input (row_inst row) →
  progress att path (F k) k (i_State l) →
  twp good (executeNormalStep e l (NewMachine (d_DSL d)) step)
    (λ r w', r = Ok () ∧ ∃ row' stream', shows id defs tm row' stream' pending w' ∧
       locked_by row' = locked_by row ∧ moved k (row_inst row') stream stream') w.
Proof.
  intros Hk [Hsucc Hatt] Hw Hr Hid Hv Hin Hp. unfold executeNormalStep. cbv zeta.
  assert (Hprev : step_state (i_State l) (step_ID step) = zeroStepState).
  { unfold step_state. by rewrite (pr_todo _ _ _ _ _ Hp k step). }
  rewrite Hprev. change (ss_Attempt zeroStepState + 1)%Z with 1%Z.
  apply (twp_start _ _ step 1 _ _ l row stream pending w (λ r, ∃ output body, r = returns output body (R step) ∧
    encodable (VObj output) ∧ encodable body)); [done..|apply Hp|intros; by apply twp_span|].
  intros l1 key m row1 h r w2 Hm Hid1 Hv1 Hr1 Hby Hl1 Hw2 Hh (output & body & -> & Ho & Hb).
  cbn [returns]. calm_read. rewrite <- Hby.
  exact (twp_handleStepSuccess _ k step 1 l1 (Normalize (i_State l)) m _ (h_ID h) output body row1 stream pending w2
           Hk Hatt Hw2 Hr1 Hid1 Hv1 (progress_Normalize _ _ _ _ _ Hp) Hm Hl1 Hh Ho Hb).
Qed.

(** What a task may leave of the row, the tasks and the timers. *)
Definition after : Type := Instance_ → list (option string) → option (gmap string Timer) → Prop.

(** An instance that does not wait is handled at once. *)
Lemma ensure_not_waiting l w :
  i_Status l ≠ InstanceWaitingTimer → twp good (ensureWaitingTimer e l) (λ r w', r = None ∧ w' = w) w.
Proof. intros Hst. unfold ensureWaitingTimer. by rewrite decide_True. Qed.

(** [Advance] up to the choice of the step, and the release of the lease after it. *)
Lemma twp_claimed_any row stream pending w (P : after) :
  shows id defs tm row stream pending w → locked_until row = None → ¬ terminal (i_Status (row_inst row)) →
  (∀ w, twp good (ensureWaitingTimer e (scan_instance id row)) (λ r w', r = None ∧ w' = w) w) →
  instance_of (row_inst row) →
  (∀ owner until w1, shows id defs tm (mkRow (row_inst row) (Some owner) (Some until)) stream pending w1 →
   let l := scan_instance id row in
   twp good
     (if decide (i_Status l = InstanceCompensating ∨ rs_CompensationQueue (i_State l) ≠ [])
      then advanceCompensation e l (NewMachine (d_DSL d))
      else
        o ← call EOrder;
        '(state, step) ← lift_go (StepForCurrent o (NewMachine (d_DSL d)) (i_State l) (i_CurrentStepID l));
        let instance := with_state l state in
        match step with
        | None => finishInstance instance InstanceCompleted
        | Some step => executeNormalStep e instance (NewMachine (d_DSL d)) step
        end)
     (λ r w', r = Ok () ∧ ∃ row' stream' tm', shows id defs tm' row' stream' pending w' ∧
        locked_by row' = Some owner ∧ P (row_inst row') stream' tm') w1) →
  twp good (Advance e id)
    (λ r w', r = Ok () ∧ ∃ row' stream' tm', shows id defs tm' row' stream' pending w' ∧
       locked_until row' = None ∧ P (row_inst row') stream' tm') w.
Proof.
  intros Hw Hlock Hterm Hwait (Hdid & Hten & Hin) Hrest. unfold Advance. calm_read. calm_read.
  eapply twp_try; [eapply (twp_claim good good_calm); [exact Hw|done|done]|].
  intros l w1 (-> & Hw1). set (l := scan_instance id row) in *. apply twp_defer.
  unfold advance_claimed. eapply twp_then; [apply Hwait|]. intros r w0 [-> ->].
  eapply twp_try; [eapply (twp_definition good good_calm); [exact Hw1|by rewrite <- Hdid in Hdef|exact Hten]|].
  intros d' w2 (-> & ->). cbv zeta. cbn [d_DSL scan_definition].
  eapply twp_mono; [exact (Hrest _ _ _ Hw1)|].
  intros r w3 [-> (row' & stream' & tm' & Hw3 & Hby & HP)].
  eapply twp_mono; [eapply (twp_release good good_calm); [exact Hw3|by rewrite Hby]|].
  intros u w4 Hw4. split; [done|]. exists (mkRow (row_inst row') None None), stream', tm'. by split_and!.
Qed.

(** The same when the timers do not change. *)
Lemma twp_claimed row stream pending w (P : Instance_ → list (option string) → Prop) :
  shows id defs tm row stream pending w → locked_until row = None → ¬ terminal (i_Status (row_inst row)) →
  i_Status (row_inst row) ≠ InstanceWaitingTimer → instance_of (row_inst row) →
  (∀ owner until w1, shows id defs tm (mkRow (row_inst row) (Some owner) (Some until)) stream pending w1 →
   let l := scan_instance id row in
   twp good
     (if decide (i_Status l = InstanceCompensating ∨ rs_CompensationQueue (i_State l) ≠ [])
      then advanceCompensation e l (NewMachine (d_DSL d))
      else
        o ← call EOrder;
        '(state, step) ← lift_go (StepForCurrent o (NewMachine (d_DSL d)) (i_State l) (i_CurrentStepID l));
        let instance := with_state l state in
        match step with
        | None => finishInstance instance InstanceCompleted
        | Some step => executeNormalStep e instance (NewMachine (d_DSL d)) step
        end)
     (λ r w', r = Ok () ∧ ∃ row' stream', shows id defs tm row' stream' pending w' ∧
        locked_by row' = Some owner ∧ P (row_inst row') stream') w1) →
  twp good (Advance e id)
    (λ r w', r = Ok () ∧ ∃ row' stream', shows id defs tm row' stream' pending w' ∧
       locked_until row' = None ∧ P (row_inst row') stream') w.
Proof.
  intros Hw Hlock Hterm Hwait Hr Hrest.
  eapply twp_mono; [apply (twp_claimed_any row stream pending w (λ r s t, P r s ∧ t = tm)); try done|].
  - intros. by apply ensure_not_waiting.
  - intros owner until w1 Hw1. cbv zeta. eapply twp_mono; [exact (Hrest owner until w1 Hw1)|].
    intros r w2 [-> (row' & stream' & ? & ? & ?)]. split; [done|]. by exists row', stream', tm.
  - intros r w2 [-> (row' & stream' & ? & Hw2 & ? & ? & ->)]. split; [done|]. by exists row', stream'.
Qed.

(** The step of a row on its normal path. *)
Lemma row_at_status k r :
  row_at k r → ¬ terminal (i_Status r) ∧ i_Status r ≠ InstanceWaitingTimer ∧ i_Status r ≠ InstanceCompensating.
Proof.
  intros (_ & _ & Hst & _). unfold terminal.
  apply elem_of_cons in Hst as [->|[->|[]%not_elem_of_nil]%elem_of_cons]; split_and!; try done; by intros [?|?].
Qed.

Lemma StepForCurrent_at k step row o :
  path !! k = Some step → row_at k (row_inst row) →
  let l := scan_instance id row in
  StepForCurrent o (NewMachine (d_DSL d)) (i_State l) (i_CurrentStepID l) = Done (i_State l, Some step).
Proof.
  intros Hk (_ & Hp & _ & Hcur). cbv zeta. set (l := scan_instance id row).
  assert (Hpl : progress att path (F k) k (i_State l)) by by apply progress_Normalize.
  unfold StepForCurrent. change (i_CurrentStepID l) with (i_CurrentStepID (row_inst row)).
  destruct k as [|k]; rewrite Hcur.
  - rewrite <- (sr_head _ _ _ _ Hscript). by rewrite head_lookup, Hk.
  - rewrite Hk. cbn [fmap option_fmap option_map]. change (m_definition (NewMachine (d_DSL d))) with (d_DSL d).
    by rewrite (sr_known _ _ _ _ Hscript _ _ Hk), (pr_todo _ _ _ _ _ Hpl (S k) step).
Qed.

(** [Advance] on a row before its [k]-th step executes that step. *)
Lemma twp_Advance_step_any k step row stream pending w (P : after) :
  path !! k = Some step → shows id defs tm row stream pending w → locked_until row = None → row_at k (row_inst row) →
  (∀ owner until w1, shows id defs tm (mkRow (row_inst row) (Some owner) (Some until)) stream pending w1 →
   twp good (executeNormalStep e (scan_instance id row) (NewMachine (d_DSL d)) step)
     (λ r w', r = Ok () ∧ ∃ row' stream' tm', shows id defs tm' row' stream' pending w' ∧
        locked_by row' = Some owner ∧ P (row_inst row') stream' tm') w1) →
  twp good (Advance e id)
    (λ r w', r = Ok () ∧ ∃ row' stream' tm', shows id defs tm' row' stream' pending w' ∧
       locked_until row' = None ∧ P (row_inst row') stream' tm') w.
Proof.
  intros Hk Hw Hlock Hrow Hstep. destruct (row_at_status k _ Hrow) as (Hterm & Hwait & Hcomp).
  apply (twp_claimed_any row stream); [done..|intros; by apply ensure_not_waiting|apply Hrow|]. intros owner until w1 Hw1. cbv zeta.
  set (l := scan_instance id row).
  assert (Hq : rs_CompensationQueue (i_State l) = []).
  { apply (pr_queue att path (F k) k). apply progress_Normalize, Hrow. }
  rewrite decide_False by (rewrite Hq; intros [?|?]; done).
  calm_read. eapply twp_lift; [by apply (StepForCurrent_at k step row)|].
  cbn beta iota zeta. exact (Hstep owner until w1 Hw1).
Qed.

Lemma twp_Advance_step k step row stream pending w (P : Instance_ → list (option string) → Prop) :
  path !! k = Some step → shows id defs tm row stream pending w → locked_until row = None → row_at k (row_inst row) →
  (∀ owner until w1, shows id defs tm (mkRow (row_inst row) (Some owner) (Some until)) stream pending w1 →
   twp good (executeNormalStep e (scan_instance id row) (NewMachine (d_DSL d)) step)
     (λ r w', r = Ok () ∧ ∃ row' stream', shows id defs tm row' stream' pending w' ∧
        locked_by row' = Some owner ∧ P (row_inst row') stream') w1) →
  twp good (Advance e id)
    (λ r w', r = Ok () ∧ ∃ row' stream', shows id defs tm row' stream' pending w' ∧
       locked_until row' = None ∧ P (row_inst row') stream') w.
Proof.
  intros Hk Hw Hlock Hrow Hstep.
  eapply twp_mono; [apply (twp_Advance_step_any k step row stream pending w (λ r s t, P r s ∧ t = tm)); try done|].
  - intros owner until w1 Hw1. eapply twp_mono; [exact (Hstep owner until w1 Hw1)|].
    intros r w2 [-> (row' & stream' & ? & ? & ?)]. split; [done|]. by exists row', stream', tm.
  - intros r w2 [-> (row' & stream' & ? & Hw2 & ? & ? & ->)]. split; [done|]. by exists row', stream'.
Qed.

Lemma twp_Advance k step row stream pending w :
  path !! k = Some step → step_once step → shows id defs tm row stream pending w → locked_until row = None →
  row_at k (row_inst row) →
  twp good (Advance e id)
    (λ r w', r = Ok () ∧ ∃ row' stream', shows id defs tm row' stream' pending w' ∧
       locked_until row' = None ∧ moved k (row_inst row') stream stream') w.
Proof.
  intros Hk Hsucc Hw Hlock Hrow.
  apply (twp_Advance_step k step row stream pending w (λ r, moved k r stream)); [done..|].
  intros owner until w1 Hw1.
  eapply twp_mono; [eapply (twp_executeNormalStep k step); try done; [apply Hrow|]|done].
  apply progress_Normalize, Hrow.
Qed.

(** ** The consumer *)

Hypothesis Hid : id ≠ "" ∧ id ≠ "<nil>".

(** No delivery is pending: [XAUTOCLAIM] returns nothing. *)
Lemma twp_reclaim name row stream w :
  shows id defs tm row stream [] w → twp good (reclaimPending e name) (λ _, shows id defs tm row stream []) w.
Proof.
  intros (Hd & Hrow & Hg & Hs & Hp & Ht). unfold reclaimPending. intros c (Hf & _ & _)%good_calm.
  cbn [handle]. unfold on_redis. rewrite Hf. cbn [with_fault]. unfold redis_autoclaim. rewrite Hg, Hp. simpl. by split_and!.
Qed.

(** [XREADGROUP] delivers the only task. *)
Lemma twp_read name row w :
  shows id defs tm row [Some id] [] w →
  twp good (call (EXReadGroup name 10)) (λ r w', ∃ m now, r = Ok [m] ∧ msg_InstanceID m = Some id ∧
    shows id defs tm row [] [mkPending m name now] w') w.
Proof.
  intros (Hd & Hrow & Hg & Hs & Hp & Ht) c (Hf & _ & _)%good_calm. cbn [handle]. unfold on_redis. rewrite Hf.
  cbn [with_fault]. unfold redis_read_group. rewrite Hg, Hp. simpl.
  destruct (rd_stream (w_redis w)) as [|m [|]]; try discriminate. injection Hs as Hs.
  exists m, (c_now c). by split_and!.
Qed.

(** One iteration of the loop: the only task is delivered, processed and acknowledged. *)
Lemma twp_consume_S_any n name row w (P : after) Q :
  shows id defs tm row [Some id] [] w →
  (∀ pending w1, shows id defs tm row [] pending w1 → twp good (Advance e id)
    (λ r w', r = Ok () ∧ ∃ row' stream' tm', shows id defs tm' row' stream' pending w' ∧
       locked_until row' = None ∧ P (row_inst row') stream' tm') w1) →
  (∀ row' stream' tm' w', shows id defs tm' row' stream' [] w' → locked_until row' = None → P (row_inst row') stream' tm' →
    twp good (consume_loop e n name) Q w') →
  twp good (consume_loop e (S n) name) Q w.
Proof.
  intros Hw Hadv Hrest. cbn [consume_loop].
  eapply twp_then; [by apply (twp_ctx good good_calm)|]. intros r w0 [-> ->].
  eapply twp_then; [by eapply twp_reclaim|]. intros [] w1 Hw1.
  eapply twp_then; [by eapply twp_read|]. intros r w2 (m & now & -> & Hm & Hw2).
  eapply (twp_then good (process_all e [m])) with (P := λ _ w', ∃ row' stream' tm', shows id defs tm' row' stream' [] w' ∧
    locked_until row' = None ∧ P (row_inst row') stream' tm').
  2:{ intros [] w3 (row' & stream' & tm' & Hw3 & Hl & HP). by apply (Hrest row' stream' tm'). }
  cbn [process_all]. eapply twp_then with (P := λ _ w', ∃ row' stream' tm', shows id defs tm' row' stream' [] w' ∧
    locked_until row' = None ∧ P (row_inst row') stream' tm').
  2:{ intros [] w3 Hw3. exact Hw3. }
  unfold processMessage. rewrite Hm. cbv zeta. cbn [default Datatypes.id].
  rewrite decide_False by (destruct Hid; intros [?|?]; done).
  eapply twp_then; [by apply Hadv|]. intros r w3 [-> (row' & stream' & tm' & Hw3 & Hl & HP)].
  eapply twp_then; [by eapply (twp_ack good good_calm)|].
  intros r w4 Hw4. exists row', stream', tm'. by split_and!.
Qed.

Lemma twp_consume_S n name row w (P : Instance_ → list (option string) → Prop) Q :
  shows id defs tm row [Some id] [] w →
  (∀ pending w1, shows id defs tm row [] pending w1 → twp good (Advance e id)
    (λ r w', r = Ok () ∧ ∃ row' stream', shows id defs tm row' stream' pending w' ∧
       locked_until row' = None ∧ P (row_inst row') stream') w1) →
  (∀ row' stream' w', shows id defs tm row' stream' [] w' → locked_until row' = None → P (row_inst row') stream' →
    twp good (consume_loop e n name) Q w') →
  twp good (consume_loop e (S n) name) Q w.
Proof.
  intros Hw Hadv Hrest. apply (twp_consume_S_any n name row w (λ r s t, P r s ∧ t = tm)); [done| |].
  - intros pending w1 Hw1. eapply twp_mono; [exact (Hadv pending w1 Hw1)|].
    intros r w2 [-> (row' & stream' & ? & ? & ?)]. split; [done|]. by exists row', stream', tm.
  - intros row' stream' tm' w' Hw' Hl [HP ->]. by apply (Hrest row' stream').
Qed.

(** [j] successful steps from the [k]-th on that are not the last ones, [n] iterations
    being left after them. *)
Lemma twp_consume_steps j n k name row w Q :
  k + j < length path → Forall step_once (take j (drop k path)) →
  shows id defs tm row [Some id] [] w → locked_until row = None → row_at k (row_inst row) →
  (∀ row' w', shows id defs tm row' [Some id] [] w' → locked_until row' = None → row_at (k + j) (row_inst row') →
    twp good (consume_loop e n name) Q w') →
  twp good (consume_loop e (j + n) name) Q w.
Proof.
  revert k row w. induction j as [|j IH]; intros k row w Hlen Hsucc Hw Hlock Hrow Hrest.
  { rewrite Nat.add_0_r in Hrest. by apply (Hrest row). }
  destruct (lookup_lt_is_Some_2 path k) as [step Hk]; [lia|].
  rewrite (drop_S _ _ _ Hk) in Hsucc. apply Forall_cons in Hsucc as [Hstep Hsucc].
  apply (twp_consume_S (j + n) name row w (λ r, moved k r [])); [done|by intros; apply (twp_Advance k step row)|].
  intros row' stream' w' Hw' Hl' [(Hlt & Hrow' & ->)|(Heq & _)]; [|lia].
  apply (IH (S k) row' w'); [lia|done..|]. intros row2 w2 Hw2 Hl2 H2. apply (Hrest row2); [done|done|].
  by replace (k + S j) with (S k + j) by lia.
Qed.

(** The rest of the path. *)
Lemma twp_consume_rest k name row w :
  k < length path → Forall step_once (drop k path) →
  shows id defs tm row [Some id] [] w → locked_until row = None → row_at k (row_inst row) →
  twp good (consume_loop e (length path - k) name)
    (λ _ w', ∃ row', shows id defs tm row' [] [] w' ∧ row_done (row_inst row')) w.
Proof.
  intros Hk Hsucc Hw Hlock Hrow. destruct (length path - k) as [|n] eqn:Hlen; [lia|].
  replace (S n) with (n + 1) by lia.
  apply (twp_consume_steps n 1 k name row); [lia|by apply Forall_take|done..|].
  intros row1 w1 Hw1 Hl1 Hrow1. destruct (lookup_lt_is_Some_2 path (k + n)) as [step Hn]; [lia|].
  apply (twp_consume_S 0 name row1 w1 (λ r, moved (k + n) r [])); [done| |].
  { intros pending w2 Hw2. apply (twp_Advance (k + n) step row1); try done.
    eapply Forall_lookup_1; [exact Hsucc|]. by rewrite lookup_drop. }
  intros row2 stream2 w2 Hw2 _ [(? & _)|(_ & Hdone & ->)]; [lia|]. simpl. eauto.
Qed.

(** The whole path. *)
Lemma twp_consume_path name row w :
  path ≠ [] → Forall step_once path →
  shows id defs tm row [Some id] [] w → locked_until row = None → row_at 0 (row_inst row) →
  twp good (consume_loop e (length path) name) (λ _ w', ∃ row', shows id defs tm row' [] [] w' ∧ row_done (row_inst row')) w.
Proof.
  intros Hne Hsucc Hw Hlock Hrow. rewrite <- (Nat.sub_0_r (length path)).
  apply (twp_consume_rest 0 name row); try done. destruct path; [done|]. simpl. lia.
Qed.
End scripted.

(** ** From the API to the end *)

(** A client starts an instance, then a consumer runs [n] iterations of its loop. *)
Definition submit_and_consume (e : Engine) `{Externals} `{GoArch} (p : Principal) (did : string)
    (input : gomap value) (n : nat) (name : string) : prog response :=
  resp ← createInstance p (Ok (did, input));
  _ ← consume_loop e n name;
  mret resp.

(** What a finished instance looks like. *)
Definition finished_with (att : string → Z) (path : list Step) (r : Instance_) : Prop :=
  i_Status r = InstanceCompleted ∧ i_CurrentStepID r = None ∧ rs_Completed (i_State r) = step_ID <$> path ∧
  ∀ step, step ∈ path → ss_Status (step_state (i_State r) (step_ID step)) = StepCompleted ∧
    ss_Attempt (step_state (i_State r) (step_ID step)) = att (step_ID step).
Definition finished : list Step → Instance_ → Prop := finished_with (λ _, 1%Z).

Lemma row_done_finished att path F r : row_done att path F r → finished_with att path r.
Proof.
  intros (Hp & Hst & Hcur). split_and!; [done|done|by rewrite (pr_completed _ _ _ _ _ Hp), firstn_all|].
  intros step (j & Hj)%list_elem_of_lookup. pose proof (lookup_lt_Some _ _ _ Hj).
  destruct (pr_done _ _ _ _ _ Hp j step) as (st & Hst' & ? & ?); [done..|]. unfold step_state. by rewrite Hst'.
Qed.

Lemma encodable_input (input : gmap string value) :
  encodable (VObj (Some input)) → json_ok (VObj (reload_obj (Some input))) = true.
Proof. intros [_ Hj]. exact Hj. Qed.

Lemma tenant_or_default_idemp t : tenant_or_default (tenant_or_default t) = tenant_or_default t.
Proof. unfold tenant_or_default. by repeat case_decide. Qed.

Lemma twp_createInstance good `{PgClock} tm p did d input (w : World DB) :
  (∀ c w, good c w → calm c w) →
  db_definitions (w_repo w) !! did = Some d → d_TenantID d = tenant_or_default (pr_TenantID p) → did ≠ "" →
  json_ok (VObj (Some input)) = true →
  rd_group (w_redis w) = true → rd_stream (w_redis w) = [] → rd_pending (w_redis w) = [] → timers_are tm w →
  twp good (createInstance p (Ok (did, Some input))) (λ r w', ∃ l, r = (202%Z, ReplyInstance l) ∧ created did d l ∧
    shows (i_ID l) (db_definitions (w_repo w)) tm (created_row l (Some input)) [Some (i_ID l)] [] w') w.
Proof.
  intros Hgood Hdef Hten Hdid Hin Hg Hs Hp Htm. set (defs := db_definitions (w_repo w)) in *.
  unfold createInstance. rewrite decide_False by done. cbv zeta.
  eapply twp_then with (P := λ r w', r = Ok (scan_definition did d) ∧ w' = w).
  { intros c (Hf & _)%Hgood. cbn [handle]. rewrite Hf. simpl. unfold GetDefinitionForTenant. fold defs.
    rewrite Hdef, decide_True by done. by destruct w. }
  intros r w1 [-> ->]. eapply twp_then; [eapply (twp_create good Hgood defs (pr_TenantID p) did d); done|].
  intros r w1 (l & -> & Hl & Hd1 & Hr1 & Ht1 & Hrow).
  eapply twp_then; [eapply (twp_Enqueue good Hgood (i_ID l) defs tm (created_row l (Some input)) [] [])|].
  { split_and!; try done; [by rewrite Hr1|by rewrite Hr1, Hs|by rewrite Hr1|].
    unfold timers_are in *. destruct tm; [by rewrite Ht1|done]. }
  intros r w2 [-> Hw2]. simpl. exists l. by split_and!.
Qed.

Lemma created_at did att d path F input l :
  F 0 = ∅ →
  encodable (VObj (Some input)) → tenant_or_default (d_TenantID d) = d_TenantID d → created did d l →
  row_at did att d path F 0 (row_inst (created_row l (Some input))).
Proof.
  intros HF Hin Ht (_ & _ & Hten & Hdid & Hst & Hstate).
  split_and!; [split_and!; [done|simpl; by rewrite Hten|by apply encodable_input]| | |done].
  - simpl. rewrite Hstate, HF. apply progress_reload, progress_new.
  - simpl. rewrite Hst. set_solver.
Qed.

(** The run of a workflow whose script is known. *)
Lemma script_completes `{Externals} `{GoArch} `{PgClock} e good env p did d path F R input name (w : World DB) :
  (∀ c w, good c w → calm c w) → (∀ i w, good (env i w) w) →
  db_definitions (w_repo w) !! did = Some d → d_TenantID d = tenant_or_default (pr_TenantID p) → did ≠ "" →
  script (d_DSL d) path F R → path ≠ [] →
  Forall (λ step, step_returns e good (R step) step) path → encodable (VObj (Some input)) →
  rd_group (w_redis w) = true → rd_stream (w_redis w) = [] → rd_pending (w_redis w) = [] →
  ∃ inst w' row, exec (submit_and_consume e p did (Some input) (length path) name) env 0 w =
      Done ((202%Z, ReplyInstance inst), w') ∧
    db_instances (w_repo w') !! i_ID inst = Some row ∧ finished path (row_inst row) ∧
    default ∅ (rs_Forks (i_State (row_inst row))) = F (length path) ∧
    rd_stream (w_redis w') = [] ∧ rd_pending (w_redis w') = [].
Proof.
  intros Hgood Henv Hdef Hten Hdid Hscript Hne Hsucc Hin Hg Hs Hp.
  cut (twp good (submit_and_consume e p did (Some input) (length path) name) (λ r w', ∃ inst row,
    r = (202%Z, ReplyInstance inst) ∧ shows (i_ID inst) (db_definitions (w_repo w)) None row [] [] w' ∧
    finished path (row_inst row) ∧ default ∅ (rs_Forks (i_State (row_inst row))) = F (length path)) w).
  { intros Ht. destruct (twp_exec good _ _ env 0 w Ht Henv) as (r & w' & Hexec & inst & row & -> & Hw & Hfin & Hforks).
    exists inst, w', row. destruct Hw as (_ & Hrow & _ & Hst & Hpd & _). split_and!; try done.
    by apply fmap_nil_inv in Hst. }
  unfold submit_and_consume.
  eapply twp_then; [apply (twp_createInstance good None p did d input w Hgood); try done; apply Hin|].
  intros r w1 (l & -> & Hl & Hw1). eapply twp_then.
  { apply (twp_consume_path e good Hgood (i_ID l) did _ None (λ _, 1%Z) d I Hdef path F R Hscript)
      with (row := created_row l (Some input)); try done; [by split; apply Hl|..].
    - eapply Forall_impl; [exact Hsucc|]. by split.
    - apply created_at; [exact (sr_forks _ _ _ _ Hscript)|done| |done]. by rewrite Hten, tenant_or_default_idemp. }
  intros [] w2 (row' & Hw2 & Hdone). exists l, row'. split_and!; [done|done|by eapply row_done_finished|]. apply (pr_forks _ _ _ _ _ (proj1 Hdone)).
Qed.
