(* ===== verification/LinearRun.v ===== *)
(** * A workflow runs to its end

    End-to-end behaviour of a consumer on a workflow whose linear path has plain steps
    (no fork, no condition, no jump) that succeed: when no call fails, every task moves
    the instance one step further, and after as many iterations of the consumer's loop as
    the path has steps the instance is completed, each step was executed once and in
    order, and no task is left over. *)

From S2P Require Import Prelude GoNum GoString GoTime Workflow Accessors Machine MachineFacts.
From S2P Require Import Json Store Externals Effects Timer Worker Engine Validator Api Calm.
From S2P Require Import ScriptRun.

#[local] Open Scope prog_scope.

(** ** The machine on a linear path *)

Definition plain (step : Step) : Prop :=
  step_Type step ≠ StepFork ∧ step_Type step ≠ StepCondition ∧ configString (step_Config step) "next" = "".

Lemma next_normal_lookup path k step :
  NoDup (step_ID <$> path) → path !! k = Some step → next_normal path (step_ID step) = path !! S k.
Proof.
  revert k. induction path as [|s path IH]; intros k Hnd Hk; [done|].
  rewrite fmap_cons in Hnd. apply NoDup_cons in Hnd as [Hs Hnd].
  destruct path as [|s' path]; destruct k as [|k]; try done.
  - injection Hk as ->. simpl. by rewrite decide_True.
  - cbn [next_normal]. rewrite decide_False; [by apply IH|]. intros Heq. apply Hs. rewrite Heq.
    by apply list_elem_of_fmap_2, (list_elem_of_lookup_2 _ k).
Qed.

Lemma StepByID_unique d step :
  NoDup (step_ID <$> dsl_Steps d) → step ∈ dsl_Steps d → StepByID d (step_ID step) = Some step.
Proof.
  intros Hnd Hin. destruct (StepByID d (step_ID step)) as [s|] eqn:Hs.
  - apply StepByID_Some in Hs as [Hs Hid]. f_equal.
    apply list_elem_of_lookup in Hin as [i Hi]. apply list_elem_of_lookup in Hs as [j Hj].
    assert (i = j) as ->; [|congruence].
    eapply NoDup_lookup; [exact Hnd|by rewrite list_lookup_fmap, Hi|by rewrite list_lookup_fmap, Hj, <- Hid].
  - rewrite StepByID_None in Hs. by destruct (Hs step).
Qed.

(** Without forks, the step after a plain step is the next one of the linear path. *)
Lemma NextAfter_plain o m step s r :
  plain step → default ∅ (rs_Forks s) = ∅ → r_NextStepID r = None →
  NextAfter o m step s (Some r) =
    Done (with_Forks (Normalize s) (Some ∅), next_normal (m_normal m) (step_ID step)).
Proof.
  intros (Hf & Hc & Hn) Hforks Hr. unfold NextAfter.
  set (s1 := match rs_Forks (Normalize s) with None => _ | Some _ => _ end).
  assert (Hs1 : s1 = with_Forks (Normalize s) (Some ∅)).
  { unfold s1. rewrite Normalize_Forks. destruct (rs_Forks s) as [fm|] eqn:Hs; [|done]. simpl in Hforks.
    by rewrite <- Hforks, <- Hs, <- Normalize_Forks, with_Forks_id. }
  rewrite decide_False by done. unfold branchForCurrentStep. rewrite Hs1. simpl. rewrite range_order_empty. simpl.
  assert (Hj : (if decide (step_Type step = StepJoin)
                then markJoined o (step_ID step) (with_Forks (Normalize s) (Some ∅))
                else mret (with_Forks (Normalize s) (Some ∅)))
               = Done (with_Forks (Normalize s) (Some ∅))).
  { case_decide; [|done]. unfold markJoined. simpl. by rewrite range_order_empty. }
  rewrite Hj, Hr, Hn. simpl. rewrite (decide_False (P := step_Type step = StepCondition)) by done. reflexivity.
Qed.

Section path.
Context (d : Definition_).
Hypothesis Hids : NoDup (step_ID <$> dsl_Steps (d_DSL d)).

Definition path : list Step := m_normal (NewMachine (d_DSL d)).

Lemma path_sublist : sublist path (dsl_Steps (d_DSL d)).
Proof. unfold path, NewMachine. simpl. apply sublist_filter. Qed.

Lemma path_NoDup : NoDup (step_ID <$> path).
Proof. eapply sublist_NoDup; [exact Hids|apply fmap_sublist, path_sublist]. Qed.

Lemma path_StepByID k step : path !! k = Some step → StepByID (d_DSL d) (step_ID step) = Some step.
Proof.
  intros Hk. apply StepByID_unique; [exact Hids|].
  eapply elem_of_sublist; [by eapply list_elem_of_lookup_2|exact path_sublist].
Qed.

(** The linear path is a script: there are no forks, and no step names its successor. *)
Lemma script_path : Forall plain path → script (d_DSL d) path (λ _, ∅) (λ _, None).
Proof.
  intros Hplain. constructor; [exact path_NoDup|exact path_StepByID|done|done|].
  intros k step o s r Hk Hf Hr. rewrite NextAfter_plain by (done || by eapply Forall_lookup_1).
  change (m_normal (NewMachine (d_DSL d))) with path. by rewrite (next_normal_lookup path k step path_NoDup Hk).
Qed.
End path.

(** A workflow runs to its end: when no call fails, an instance that a client starts of a
    definition whose linear path has plain, succeeding steps is accepted with 202, and a
    consumer completes it in as many iterations as the path has steps: every step ran
    exactly once, in the order of the path, and no task or delivery is left. *)
Theorem linear_workflow_completes `{Externals} `{GoArch} `{PgClock} e good env p did d input name (w : World DB) :
  (∀ c w, good c w → calm c w) → (∀ i w, good (env i w) w) →
  db_definitions (w_repo w) !! did = Some d → d_TenantID d = tenant_or_default (pr_TenantID p) → did ≠ "" →
  NoDup (step_ID <$> dsl_Steps (d_DSL d)) → path d ≠ [] → Forall plain (path d) →
  Forall (step_succeeds e good) (path d) → encodable (VObj (Some input)) →
  rd_group (w_redis w) = true → rd_stream (w_redis w) = [] → rd_pending (w_redis w) = [] →
  ∃ inst w' row, exec (submit_and_consume e p did (Some input) (length (path d)) name) env 0 w =
      Done ((202%Z, ReplyInstance inst), w') ∧
    db_instances (w_repo w') !! i_ID inst = Some row ∧ finished (path d) (row_inst row) ∧
    rd_stream (w_redis w') = [] ∧ rd_pending (w_redis w') = [].
Proof.
  intros Hgood Henv Hdef Hten Hdid Hids Hne Hplain Hsucc Hin Hg Hs Hp.
  destruct (script_completes e good env p did d (path d) (λ _, ∅) (λ _, None) input name w Hgood Henv Hdef Hten Hdid
    (script_path d Hids Hplain)) as (inst & w' & row & Hrun & Hrow & Hfin & _ & Hst & Hpd); [done..|].
  by exists inst, w', row.
Qed.

(** ** An example: an order with a compensation that is not needed *)
#[local] Existing Instance toy_externals.

Definition trade_dsl : DefinitionDSL :=
  mkDSL "trade" 1 [mkStep "charge" StepTransform (obj_map [("expr", VStr "true")]) None "refund";
                   mkStep "ship" StepTransform (obj_map [("expr", VStr "false")]) None "";
                   mkStep "refund" StepTransform (obj_map [("expr", VStr "true")]) None ""].
Definition trade : Definition_ := mkDefinition "d1" "acme" "trade" 1 trade_dsl 10 10.
Definition trade_world : World DB := mkWorld (mkDB {["d1" := trade]} ∅ ∅ ∅) (mkRedis 0 true [] [] ∅).
Definition trade_engine : Engine :=
  NewEngine "host" 1 (NewExecutor None) (Some (NewTimer (Some Enqueue) (mkTimerConfig "" 0 0)))
    (mkEngineConfig "" "" "" 0 0 0).

(** An environment without faults that generates new identifiers. *)
Definition used_ids (w : World DB) : gset string :=
  dom (db_history (w_repo w)) ∪ dom (db_instances (w_repo w)) ∪ {["" ; "<nil>"]}.
Definition calm_env (i : nat) (w : World DB) : choice :=
  mkChoice NoFault (mkTick 100 100 (fresh (used_ids w)) [] [] []) 100 "key" 1 [] None
    (Err (ErrText "")) (Err (ErrText "")).

Lemma calm_env_calm i w : calm (calm_env i w) w.
Proof.
  unfold calm, calm_env, new_id. simpl. pose proof (is_fresh (used_ids w)) as Hf.
  unfold used_ids in Hf at 2. rewrite !not_elem_of_union, !not_elem_of_dom in Hf. set_solver.
Qed.

(** A transform of the toy expression language succeeds. *)
Lemma toy_transform_succeeds step expr :
  step_Type step = StepTransform → firstString (step_Config step) ["expr"; "expression"] = Some expr →
  firstString (step_Config step) ["result_key"] = None → expr = "true" ∨ expr = "false" →
  step_succeeds trade_engine calm step.
Proof.
  intros Ht He Hkey Hexpr l w. unfold Execute. rewrite Ht, decide_False, decide_True by done.
  unfold executeTransform. rewrite He, Hkey. cbn [default Datatypes.id].
  rewrite decide_False by (destruct Hexpr as [-> | ->]; done). unfold eval_expression.
  assert (expr_compile expr (BuildEnv (i_Input l) (i_State l)) = Ok expr) as ->
    by (destruct Hexpr as [-> | ->]; done).
  intros c (_ & Hctx & _). cbn [handle]. rewrite Hctx. intros c' _. cbn [handle].
  assert (∃ v, expr_run (c_now c') expr (BuildEnv (i_Input l) (i_State l)) = Ok (VBool v)) as [v Hv]
    by (destruct Hexpr as [-> | ->]; by eexists).
  cbn [prog_mbind prog_bind mret prog_mret]. rewrite Hv. split; [done|]. eexists _, _. split; [reflexivity|]. by destruct v.
Qed.

Lemma transform_succeeds id expr b :
  expr = "true" ∨ expr = "false" →
  step_succeeds trade_engine calm (mkStep id StepTransform (obj_map [("expr", VStr expr)]) None b).
Proof. intros [-> | ->]; eapply toy_transform_succeeds; first [reflexivity|auto]. Qed.

Lemma linear_workflow_completes_witness :
  ∃ inst w' row, exec (submit_and_consume trade_engine (mkPrincipal "acme" roleOperator) "d1" (Some ∅) 2 "c")
      calm_env 0 trade_world = Done ((202%Z, ReplyInstance inst), w') ∧
    db_instances (w_repo w') !! i_ID inst = Some row ∧ finished (path trade) (row_inst row) ∧
    rd_stream (w_redis w') = [] ∧ rd_pending (w_redis w') = [].
Proof.
  apply (linear_workflow_completes trade_engine calm calm_env (mkPrincipal "acme" roleOperator) "d1" trade ∅ "c" trade_world);
    try done.
  - exact calm_env_calm.
  - apply (bool_decide_unpack _). vm_compute. exact I.
  - vm_compute. repeat constructor; discriminate.
  - repeat constructor; apply transform_succeeds; auto.
Defined.
