(* ===== verification/ScheduleRun.v ===== *)
(** * The engine follows the schedule

    [schedule]: the machine alone, stepped in memory from the first step until nothing
    follows, given the successor that the result of each step names: the order in which a
    workflow with forks and conditions is executed, and the forks on the way.  The engine
    with its database, tasks and leases executes exactly this schedule. *)

From S2P Require Import Prelude GoNum GoString GoTime Workflow Accessors Machine BranchSteps MachineFacts.
From S2P Require Import MachineProps Json Store Externals Effects Timer Worker Engine Validator Lifecycle.
From S2P Require Import Api Calm ScriptRun LinearRun.

#[local] Open Scope prog_scope.

(** ** The schedule *)

Section schedule.
Context (d : DefinitionDSL) (R : Step → option string).
#[local] Abbreviation m := (NewMachine d).

(** The result of a step, as far as the machine reads it. *)
Definition answer (step : Step) : option Result := Some (mkResult None VNil (R step) None).

(** The steps from [step] on with the forks before each, and the forks at the end; [None]
    when [fuel] steps are not enough. *)
Fixpoint schedule_from (fuel : nat) (forks : gmap string ForkState) (step : Step)
    : option (list (Step * gmap string ForkState) * gmap string ForkState) :=
  match fuel with
  | O => None
  | S fuel =>
      match next_after [] m step forks (answer step) with
      | Done (forks', None) => Some ([(step, forks)], forks')
      | Done (forks', Some next) =>
          '(l, last) ← schedule_from fuel forks' next; Some ((step, forks) :: l, last)
      | GoPanic => None
      end
  end.

Definition schedule : option (list (Step * gmap string ForkState) * gmap string ForkState) :=
  first ← head (m_normal m); schedule_from (S (length (dsl_Steps d))) ∅ first.

(** At most one fork is running. *)
Definition running_forks (forks : gmap string ForkState) : gmap string ForkState :=
  filter (λ kf, fs_Status kf.2 = "running") forks.
Definition one_fork (forks : gmap string ForkState) : Prop := size (running_forks forks) ≤ 1.
#[export] Instance one_fork_dec forks : Decision (one_fork forks).
Proof. unfold one_fork. apply _. Defined.

(** No step comes twice, and no two forks run at once. *)
Definition orderly (l : list (Step * gmap string ForkState)) : Prop :=
  NoDup (step_ID ∘ fst <$> l) ∧ Forall (λ sf, one_fork sf.2) l.
#[export] Instance orderly_dec l : Decision (orderly l).
Proof. unfold orderly. apply _. Defined.

(** The forks before the [k]-th step. *)
Definition forks_at (l : list (Step * gmap string ForkState)) (last : gmap string ForkState) (k : nat)
    : gmap string ForkState := default last (snd <$> l !! k).

Lemma one_fork_unique forks id : one_fork forks → unique_branch (fork_state forks) id.
Proof.
  intros Hone k1 k2 f1 f2 b1 b2 H1 Hr1 _ _ H2 Hr2 _ _. unfold gm_get in H1, H2. simpl in H1, H2.
  destruct (decide (k1 = k2)) as [|Hne]; [done|]. exfalso.
  assert (Hin : ∀ k f, forks !! k = Some f → fs_Status f = "running" → running_forks forks !! k = Some f).
  { intros k f Hk Hr. by apply map_lookup_filter_Some. }
  assert (Hsub : ({[k1]} ∪ {[k2]} : gset string) ⊆ dom (running_forks forks)).
  { intros k [Hk|Hk]%elem_of_union; apply elem_of_singleton in Hk as ->; apply elem_of_dom; eauto. }
  apply subseteq_size in Hsub. rewrite size_union, !size_singleton, size_dom in Hsub by set_solver.
  unfold one_fork in Hone. lia.
Qed.

(** The machine reads only the successor from a result. *)
Lemma next_after_result o step forks r r' :
  resultNextStepID r = resultNextStepID r' → next_after o m step forks r = next_after o m step forks r'.
Proof. intros Heq. unfold next_after, NextAfter, nextAfterBranchStep. by rewrite Heq. Qed.

Lemma next_after_answer o step forks r :
  r_NextStepID r = R step → next_after o m step forks (Some r) = next_after o m step forks (answer step).
Proof. intros Hr. apply next_after_result. simpl. by rewrite Hr. Qed.

Lemma next_after_order o step forks r :
  one_fork forks → next_after o m step forks r = next_after [] m step forks r.
Proof. intros Hone. unfold next_after. by rewrite (NextAfter_order_independent o []) by by apply one_fork_unique. Qed.

Lemma NextAfter_answer o step s r forks forks' next :
  default ∅ (rs_Forks s) = forks → r_NextStepID r = R step → one_fork forks →
  next_after [] m step forks (answer step) = Done (forks', next) →
  NextAfter o m step s (Some r) = Done (with_Forks (Normalize s) (Some forks'), next).
Proof.
  intros Hf Hr Hone Hnext. destruct (NextAfter_done o m step s (Some r)) as (fm & next' & Heq & _).
  pose proof Heq as Hfm. apply NextAfter_forks_only in Hfm. unfold forks_of in Hfm. rewrite Hf in Hfm.
  rewrite next_after_answer, next_after_order, Hnext in Hfm by done. injection Hfm as -> ->. exact Heq.
Qed.

(** ** The schedule is a script *)

Lemma next_after_known step forks r forks' next :
  next_after [] m step forks r = Done (forks', Some next) → next ∈ dsl_Steps d.
Proof.
  unfold next_after. destruct (NextAfter _ _ _ _ _) as [[s next']|] eqn:Heq; [|done]. cbn. intros [= _ ->].
  by eapply NextAfter_known.
Qed.

Lemma schedule_from_steps fuel forks step l last :
  schedule_from fuel forks step = Some (l, last) →
  head l = Some (step, forks) ∧ (step ∈ dsl_Steps d → Forall (λ sf, sf.1 ∈ dsl_Steps d) l) ∧
  ∀ k sf, l !! k = Some sf →
    next_after [] m sf.1 sf.2 (answer sf.1) = Done (forks_at l last (S k), fst <$> l !! S k).
Proof.
  revert forks step l. induction fuel as [|fuel IH]; intros forks step l; [done|]. cbn [schedule_from].
  destruct (next_after [] m step forks (answer step)) as [[forks' [next|]]|] eqn:Hn; [| |done].
  - destruct (schedule_from fuel forks' next) as [[l' last']|] eqn:Hs; [|done]. simpl. intros [= <- <-].
    destruct (IH _ _ _ Hs) as (Hhead & Hin & Hstep). split; [done|]. split.
    + intros Hst. constructor; [done|]. apply Hin. by eapply next_after_known.
    + intros [|k] sf Hk; [|by apply (Hstep k)]. injection Hk as <-. simpl. rewrite Hn.
      unfold forks_at. simpl. by rewrite <- head_lookup, Hhead.
  - intros [= <- <-]. split; [done|]. split; [by repeat constructor|].
    intros [|k] sf Hk; [|done]. injection Hk as <-. simpl. by rewrite Hn.
Qed.

Lemma schedule_script l last :
  NoDup (step_ID <$> dsl_Steps d) → schedule = Some (l, last) → orderly l → script d l.*1 (forks_at l last) R.
Proof.
  intros Hids Hs [Hnd Hone]. unfold schedule in Hs. destruct (head (m_normal m)) as [first|] eqn:Hfirst; [|done].
  destruct (schedule_from_steps _ _ _ _ _ Hs) as (Hhead & Hin & Hstep).
  assert (Hfin : first ∈ dsl_Steps d).
  { rewrite head_lookup in Hfirst. apply m_normal_known. by eapply list_elem_of_lookup_2. }
  constructor.
  - by rewrite <- list_fmap_compose.
  - intros k step. rewrite list_lookup_fmap. intros (sf & Hk & ->)%fmap_Some.
    apply StepByID_unique; [done|]. by apply (Forall_lookup_1 _ _ _ _ (Hin Hfin) Hk).
  - rewrite head_lookup, list_lookup_fmap, <- head_lookup, Hhead. by rewrite Hfirst.
  - unfold forks_at. by rewrite <- head_lookup, Hhead.
  - intros k step o s r. rewrite list_lookup_fmap. intros (sf & Hk & ->)%fmap_Some Hf Hr.
    rewrite list_lookup_fmap. eapply NextAfter_answer; [exact Hf|exact Hr| |].
    + unfold forks_at. rewrite Hk. simpl. by apply (Forall_lookup_1 _ _ _ _ Hone Hk).
    + unfold forks_at at 1. rewrite Hk. simpl. by apply Hstep.
Qed.
End schedule.

(** ** From the API to the end *)

(** C3: the engine follows the schedule: take any workflow, with forks, joins and
    conditions, and the successors that the results of its steps name.  If the schedule, which
    the machine alone computes in memory, is orderly, if each step of the schedule, whenever it
    is executed, returns a result that names that successor (so none of them fails, waits or
    is a delay), and if no call to the database or Redis fails, then an instance that a client
    of the definition's tenant starts is brought to completion by a consumer in as many
    iterations as the schedule is long: exactly the steps of the schedule were executed, each
    once and in that order, the forks are those at the end of the schedule, and no task or
    delivery is left.  Steps that fail or wait are the subject of [failed_workflow_compensates]
    and [waiting_workflow_completes]. *)
Theorem engine_follows_schedule `{Externals} `{GoArch} `{PgClock} e good env p did d R l last input name (w : World DB) :
  (∀ c w, good c w → calm c w) → (∀ i w, good (env i w) w) →
  db_definitions (w_repo w) !! did = Some d → d_TenantID d = tenant_or_default (pr_TenantID p) → did ≠ "" →
  NoDup (step_ID <$> dsl_Steps (d_DSL d)) → schedule (d_DSL d) R = Some (l, last) → orderly l →
  Forall (λ step, step_returns e good (R step) step) l.*1 → encodable (VObj (Some input)) →
  rd_group (w_redis w) = true → rd_stream (w_redis w) = [] → rd_pending (w_redis w) = [] →
  ∃ inst w' row, exec (submit_and_consume e p did (Some input) (length l) name) env 0 w =
      Done ((202%Z, ReplyInstance inst), w') ∧
    db_instances (w_repo w') !! i_ID inst = Some row ∧ finished l.*1 (row_inst row) ∧
    default ∅ (rs_Forks (i_State (row_inst row))) = last ∧
    rd_stream (w_redis w') = [] ∧ rd_pending (w_redis w') = [].
Proof.
  intros Hgood Henv Hdef Hten Hdid Hids Hs Ho Hsucc Hin Hg Hst Hp.
  assert (Hne : l.*1 ≠ []).
  { unfold schedule in Hs. destruct (head _) as [step|]; [|done]. intros ->%fmap_nil_inv.
    by destruct (schedule_from_steps _ _ _ _ _ _ _ Hs) as [? _]. }
  destruct (script_completes e good env p did d l.*1 (forks_at l last) R input name w Hgood Henv Hdef Hten Hdid
    (schedule_script _ _ _ _ Hids Hs Ho)) as (inst & w' & row & Hrun & Hrow & Hfin & Hforks & Hrest); [done..|].
  rewrite length_fmap in Hrun, Hforks. exists inst, w', row. split_and!; try done; [|apply Hrest..].
  rewrite Hforks. unfold forks_at. by rewrite lookup_ge_None_2.
Qed.

(** ** An example: a fork with two branches between two steps *)
#[local] Existing Instance toy_externals.

Definition work (id : string) (config : list (string * value)) : Step :=
  mkStep id StepTransform (obj_map (("expr", VStr "true") :: config)) None "".
Definition split : Step :=
  mkStep "split" StepFork (obj_map [("branches", VArr [VStr "pack"; VStr "bill"]); ("join", VStr "meet")]) None "".
Definition meet : Step := mkStep "meet" StepJoin (Some ∅) None "".
Definition parallel_dsl : DefinitionDSL :=
  mkDSL "parallel" 1 [work "check" []; split; work "pack" [("next", VStr "label")]; work "label" []; work "bill" [];
                      meet; work "ship" []].
Definition parallel : Definition_ := mkDefinition "d1" "acme" "parallel" 1 parallel_dsl 10 10.
Definition parallel_world : World DB := mkWorld (mkDB {["d1" := parallel]} ∅ ∅ ∅) (mkRedis 0 true [] [] ∅).

(** Only the fork names its successor. *)
Definition parallel_answers (step : Step) : option string :=
  if decide (step_Type step = StepFork) then Some "pack" else None.

Definition parallel_schedule : list (Step * gmap string ForkState) * gmap string ForkState :=
  default ([], ∅) (schedule parallel_dsl parallel_answers).

Example parallel_order :
  step_ID <$> parallel_schedule.1.*1 = ["check"; "split"; "pack"; "label"; "bill"; "meet"; "ship"].
Proof. vm_compute. reflexivity. Qed.

Lemma work_succeeds id config : config = [] ∨ config = [("next", VStr "label")] →
  step_returns trade_engine calm None (work id config).
Proof.
  intros Hc. apply (toy_transform_succeeds _ "true"); [done|destruct Hc as [-> | ->]; vm_compute; reflexivity..|by left].
Qed.

Lemma split_returns : step_returns trade_engine calm (Some "pack") split.
Proof.
  intros l w. unfold Execute. cbn [step_Type split]. rewrite !decide_False by done. rewrite decide_True by done.
  intros c (_ & Hctx & _). cbn [handle prog_mbind prog_bind executeFork unless_done]. rewrite Hctx.
  assert (stringSliceValue (step_Config split) "branches" = Some ["pack"; "bill"]) as -> by (vm_compute; reflexivity).
  assert (stringValue (step_Config split) "join" = Some "meet") as -> by (vm_compute; reflexivity).
  split; [done|]. eexists _, _. split; [reflexivity|]. repeat split; vm_compute; reflexivity.
Qed.

Lemma meet_returns : step_returns trade_engine calm None meet.
Proof.
  intros l w. unfold Execute. cbn [step_Type meet]. rewrite !decide_False by done. rewrite decide_True by done.
  intros c (_ & Hctx & _). cbn [handle prog_mbind prog_bind executeJoin unless_done]. rewrite Hctx.
  split; [done|]. eexists _, _. split; [reflexivity|]. repeat split; vm_compute; reflexivity.
Qed.

Lemma parallel_steps : parallel_schedule.1.*1 =
  [work "check" []; split; work "pack" [("next", VStr "label")]; work "label" []; work "bill" []; meet; work "ship" []].
Proof. vm_compute. reflexivity. Qed.

Lemma engine_follows_schedule_witness :
  ∃ inst w' row, exec (submit_and_consume trade_engine (mkPrincipal "acme" roleOperator) "d1" (Some ∅) 7 "c")
      calm_env 0 parallel_world = Done ((202%Z, ReplyInstance inst), w') ∧
    db_instances (w_repo w') !! i_ID inst = Some row ∧ finished parallel_schedule.1.*1 (row_inst row) ∧
    default ∅ (rs_Forks (i_State (row_inst row))) = parallel_schedule.2 ∧
    rd_stream (w_redis w') = [] ∧ rd_pending (w_redis w') = [].
Proof.
  apply (engine_follows_schedule trade_engine calm calm_env (mkPrincipal "acme" roleOperator) "d1" parallel parallel_answers
    parallel_schedule.1 parallel_schedule.2 ∅ "c" parallel_world); try done.
  - exact calm_env_calm.
  - apply (bool_decide_unpack _). vm_compute. exact I.
  - apply (bool_decide_unpack _). vm_compute. exact I.
  - rewrite parallel_steps.
    repeat apply Forall_cons_2; try apply Forall_nil_2; first [apply split_returns|apply meet_returns|apply work_succeeds; auto].
Defined.
