(* ===== verification/SagaRun.v ===== *)
(** * A failed workflow is compensated to its end

    End-to-end behaviour of a consumer when a step of the schedule, in a branch of a fork or
    not, fails for good: the steps before it ran once each, then the compensations run, the handler of the failed step
    first and those of the completed steps in reverse order, and the instance ends as
    failed with every compensation completed and no task left over. *)

From S2P Require Import Prelude GoNum GoString GoTime Workflow Accessors Machine MachineFacts.
From S2P Require Import Json Store Externals Effects Timer Worker Engine Validator Api Calm.
From S2P Require Import ScriptRun LinearRun ScheduleRun.

#[local] Open Scope prog_scope.

(** ** The state while compensating

    [before]: the steps of the path that were completed; [failed]: the step that failed;
    [q1], [q2]: the compensations that are done and those that are left. *)
Record unwinding (before : list string) (failed : string) (q1 q2 : list string) (s : RuntimeState) : Prop := {
  un_completed : rs_Completed s = before ++ q1;
  un_queue : rs_CompensationQueue s = q2;
  un_done : ∀ id, id ∈ before ++ q1 → ss_Status (step_state s id) = StepCompleted;
  un_failed : ss_Status (step_state s failed) = StepFailed;
  un_json : state_encodable s;
}.

Lemma unwinding_reload before failed q1 q2 s :
  unwinding before failed q1 q2 s → unwinding before failed q1 q2 (reload s).
Proof.
  intros [Hc Hq Hd Hf Hj]. constructor; [done|done| | |by apply state_encodable_reload].
  - intros id Hid. rewrite reload_step_state. by apply Hd.
  - by rewrite reload_step_state.
Qed.

Lemma unwinding_Normalize before failed q1 q2 s :
  unwinding before failed q1 q2 s → unwinding before failed q1 q2 (Normalize s).
Proof.
  intros [Hc Hq Hd Hf Hj].
  constructor; [by rewrite Normalize_Completed|by rewrite Normalize_Queue| | |by apply state_encodable_Normalize].
  - intros id Hid. rewrite Normalize_step_state. by apply Hd.
  - by rewrite Normalize_step_state.
Qed.

(** The first compensation of the queue is marked completed, from its running entry. *)
Lemma unwinding_mark before failed q1 h q2 s m st0 st :
  unwinding before failed q1 (h :: q2) s → rs_Steps s = Some m → h ∉ before ++ q1 → h ≠ failed →
  encodable (ss_Body st) → encodable (VObj (ss_Output st)) →
  ∃ s', MarkCompleted (with_Steps s (Some (<[h := st0]> m))) h st = Done s' ∧
    unwinding before failed (q1 ++ [h]) q2 (with_CompensationQueue s' q2).
Proof.
  intros [Hc Hq Hd Hf Hj] Hm Hnew Hhf Hb Ho. set (s1 := with_Steps s (Some (<[h := st0]> m))).
  destruct (MarkCompleted_done s1 h st) as (m1 & Hm1 & ->). injection Hm1 as <-. cbv zeta.
  rewrite decide_False by (by change (rs_Completed s1) with (rs_Completed s); rewrite Hc).
  eexists. split; [done|].
  assert (Hget : ∀ id, default zeroStepState ((<[h := with_Status st StepCompleted]> (<[h := st0]> m)) !! id) =
    if decide (h = id) then with_Status st StepCompleted else step_state s id).
  { intros id. rewrite insert_insert_eq, lookup_insert. case_decide; [done|]. unfold step_state, gm_get. by rewrite Hm. }
  constructor.
  - simpl. by rewrite Hc, app_assoc.
  - done.
  - intros id Hid. unfold step_state, gm_get. simpl. rewrite Hget. case_decide as Hi; [done|]. apply Hd. set_solver.
  - unfold step_state, gm_get. simpl. rewrite Hget. by rewrite decide_False.
  - intros i st'. unfold gm_get. simpl. rewrite insert_insert_eq, lookup_insert. case_decide; [by intros [= <-]|].
    intros Hi. apply (Hj i). unfold gm_get. by rewrite Hm.
Qed.

(** The branch of the failed step, if any, is marked in the forks. *)
Lemma MarkBranchFailed_nonnil o s m id err :
  rs_Steps s = Some m → ∃ fm, MarkBranchFailed o s id err = Done (with_Forks s fm).
Proof.
  intros Hm. destruct (MarkBranchFailed_done o s id err) as [fm Heq]. rewrite (Normalize_nonnil _ _ Hm) in Heq. by exists fm.
Qed.

Lemma unwinding_forks before failed q1 q2 fm s :
  unwinding before failed q1 q2 s → unwinding before failed q1 q2 (with_Forks s fm).
Proof. intros []. by constructor. Qed.

Lemma unwinding_queue before failed q1 q2 q s :
  unwinding before failed q1 q2 s → unwinding before failed q1 q (with_CompensationQueue s q).
Proof. intros []. by constructor. Qed.

(** The [k]-th step of the path is marked failed, from its running entry. *)
Lemma unwinding_start att path forks k s step m st0 st :
  NoDup (step_ID <$> path) → path !! k = Some step → progress att path forks k s → rs_Steps s = Some m →
  ss_Status st = StepFailed → encodable (ss_Body st) → encodable (VObj (ss_Output st)) →
  unwinding (step_ID <$> take k path) (step_ID step) [] []
    (with_Steps s (Some (<[step_ID step := st]> (<[step_ID step := st0]> m)))).
Proof.
  intros Hnd Hk [Hc Hq Hf Hd Ht Hj] Hm Hst Hb Ho.
  assert (Hget : ∀ i, gm_get (Some (<[step_ID step := st]> (<[step_ID step := st0]> m))) i =
    if decide (step_ID step = i) then Some st else gm_get (rs_Steps s) i).
  { intros i. unfold gm_get. simpl. rewrite insert_insert_eq, lookup_insert, Hm. by case_decide. }
  constructor.
  - simpl. by rewrite app_nil_r.
  - done.
  - intros id. rewrite app_nil_r. intros (step' & -> & (j & [Hj' Hlt]%lookup_take_Some)%list_elem_of_lookup)%list_elem_of_fmap.
    unfold step_state. cbn [rs_Steps with_Steps]. rewrite Hget. rewrite decide_False.
    + destruct (Hd j step' Hlt Hj') as (st' & -> & ? & _). done.
    + intros Heq. assert (j = k); [|lia].
      eapply NoDup_lookup; [exact Hnd|by rewrite list_lookup_fmap, Hj'|rewrite list_lookup_fmap, Hk; simpl; by rewrite Heq].
  - unfold step_state. cbn [rs_Steps with_Steps]. by rewrite Hget, decide_True.
  - intros i st'. cbn [rs_Steps with_Steps]. rewrite Hget. case_decide; [by intros [= <-]|apply Hj].
Qed.

(** ** One task *)

Section saga.
Context `{Externals} `{GoArch} `{PgClock}.
Context (e : Engine) (good : choice → World DB → Prop).
Hypothesis good_calm : ∀ c w, good c w → calm c w.

(** The execution of the step fails, whatever the instance. *)
Definition step_fails (step : Step) : Prop :=
  ∀ l w, twp good (Execute (e_executor e) l step) (λ r w', w' = w ∧
    ∃ result err, r = (result, Some err) ∧ IsWaitingTimer err = None ∧
      encodable (VObj (result_output result)) ∧ encodable (result_body result)) w.

Context (id did : string) (defs : gmap string Definition_) (tm : option (gmap string Timer)) (d : Definition_).
Hypothesis Htm : no_timer id tm.
#[local] Abbreviation once := (λ _ : string, 1%Z).
Hypothesis Hdef : defs !! did = Some d.
Context (path : list Step) (F : nat → gmap string ForkState) (R : Step → option string).
Hypothesis Hscript : script (d_DSL d) path F R.
(** No compensation is a step of the path. *)
Hypothesis Hoff : ∀ step, step ∈ path → step_ID step ∉ CompensationRefs (d_DSL d).

(** The compensations due when the [k]-th step of the path fails. *)
Definition before (k : nat) : list string := step_ID <$> take k path.
Definition compensations (k : nat) (failed : string) : list string :=
  nub (omap (on_failure_of (NewMachine (d_DSL d))) (failed :: reverse (before k))).

Context (k : nat) (failed : Step).
Hypothesis Hk : path !! k = Some failed.

Definition row_unwinding (q1 q2 : list string) (r : Instance_) : Prop :=
  instance_of did d r ∧ unwinding (before k) (step_ID failed) q1 q2 (i_State r) ∧ i_Status r = InstanceCompensating.
Definition row_failed (q : list string) (r : Instance_) : Prop :=
  unwinding (before k) (step_ID failed) q [] (i_State r) ∧ i_Status r = InstanceFailed ∧ i_CurrentStepID r = None.

(** The row and the tasks after a task that leaves the compensations [q2]. *)
Definition unwound (q1 q2 : list string) (stream : list (option string)) (r : Instance_) (stream' : list (option string)) : Prop :=
  (q2 ≠ [] ∧ row_unwinding q1 q2 r ∧ stream' = stream ++ [Some id]) ∨
  (q2 = [] ∧ row_failed q1 r ∧ stream' = stream).

(** A compensation is no step of the path. *)
Lemma compensation_off_path h : h ∈ compensations k (step_ID failed) → h ∉ before k ∧ h ≠ step_ID failed.
Proof.
  unfold compensations. rewrite elem_of_nub, list_elem_of_omap. intros (x & _ & Hx).
  assert (Href : h ∈ CompensationRefs (d_DSL d)).
  { unfold on_failure_of in Hx. destruct (StepByID _ x) as [step|] eqn:Hs; [|done]. simpl in Hx.
    apply StepByID_Some in Hs as [Hs _]. case_decide; [done|]. injection Hx as <-.
    rewrite elem_of_CompensationRefs. eauto. }
  assert (Hpath : ∀ step, step ∈ path → step_ID step ≠ h) by (intros step Hstep <-; by apply (Hoff step)).
  split.
  - intros (step & -> & Hstep)%list_elem_of_fmap. apply (Hpath step); [|done].
    apply elem_of_take in Hstep as (i & Hi & _). by eapply list_elem_of_lookup_2.
  - intros ->. apply (Hpath failed); [by eapply list_elem_of_lookup_2|done].
Qed.

(** The end: the row is saved as failed. *)
Lemma twp_finish_failed q1 l s row stream pending w :
  shows id defs tm row stream pending w → i_ID l = id → i_Version (row_inst row) = i_Version l →
  unwinding (before k) (step_ID failed) q1 [] s →
  twp good (finishInstance (with_state l s) InstanceFailed) (λ r w', r = Ok () ∧ ∃ row' stream',
    shows id defs tm row' stream' pending w' ∧ locked_by row' = locked_by row ∧
    unwound q1 [] stream (row_inst row') stream') w.
Proof.
  intros Hw Hid Hv Hs. unfold finishInstance. cbv zeta.
  eapply twp_try; [apply (twp_update good good_calm id defs tm row stream pending
    (with_progress (with_state l s) InstanceFailed None s)); try done; apply state_encodable_json_ok, Hs|].
  intros l' w1 (_ & now & Hw1). split; [done|]. eexists _, stream. split; [exact Hw1|]. split; [done|].
  right. split_and!; try done. split_and!; try done. by apply unwinding_reload.
Qed.

(** Not the end: the row is saved with the rest of the queue and a task is queued. *)
Lemma twp_next_compensation ctx q1 h q2 l s row stream pending w :
  shows id defs tm row stream pending w → instance_of did d (row_inst row) → i_ID l = id →
  i_Version (row_inst row) = i_Version l → unwinding (before k) (step_ID failed) q1 (h :: q2) s →
  twp good (try _ ← call (ERepo (OpUpdateInstance (with_progress l InstanceCompensating (Some h) s) (i_Version l))) or ctx;
            Enqueue (i_ID l)) (λ r w', r = Ok () ∧ ∃ row' stream',
    shows id defs tm row' stream' pending w' ∧ locked_by row' = locked_by row ∧
    unwound q1 (h :: q2) stream (row_inst row') stream') w.
Proof.
  intros Hw Hr Hid Hv Hs.
  eapply twp_try; [apply (twp_update good good_calm id defs tm row stream pending
    (with_progress l InstanceCompensating (Some h) s)); try done; apply state_encodable_json_ok, Hs|].
  intros l' w1 (_ & now & Hw1). eapply twp_mono; [eapply (twp_Enqueue good good_calm), Hw1|].
  intros r w2 [-> Hw2]. rewrite Hid in Hw2. split; [done|]. eexists _, _. split; [exact Hw2|]. split; [done|].
  left. split_and!; try done. split_and!; try done. by apply unwinding_reload.
Qed.

(** The failing step: the compensations are queued, or the instance fails at once. *)
Lemma twp_handleStepFailure o l s m st0 hid result err row stream pending w :
  retry_allowed failed 1 = None → shows id defs tm row stream pending w → instance_of did d (row_inst row) →
  i_ID l = id → i_Version (row_inst row) = i_Version l → progress once path (F k) k s → rs_Steps s = Some m →
  i_State l = with_Steps s (Some (<[step_ID failed := st0]> m)) → is_Some (db_history (w_repo w) !! hid) →
  encodable (VObj (result_output result)) → encodable (result_body result) →
  twp good (handleStepFailure e o l (NewMachine (d_DSL d)) failed hid 1 result err)
    (λ r w', r = Ok () ∧ ∃ row' stream', shows id defs tm row' stream' pending w' ∧ locked_by row' = locked_by row ∧
       unwound [] (compensations k (step_ID failed)) stream (row_inst row') stream') w.
Proof.
  intros Hretry Hw Hr Hid Hv Hs Hm Hl Hh Ho Hb. unfold handleStepFailure. cbv zeta.
  apply twp_try with (P := λ _, shows id defs tm row stream pending).
  { apply (twp_complete good good_calm); [exact Hw|done|apply Ho]. }
  intros _ w1 Hw1. rewrite Hl. eapply twp_lift; [by apply set_step_nonnil|]. rewrite Hretry.
  set (st := mkStepState StepFailed _ _ _ _ _ _). set (s2 := with_Steps _ _).
  assert (Hs2 : unwinding (before k) (step_ID failed) [] [] s2).
  { apply (unwinding_start once path (F k) k s failed m st0 st); try done. by apply Hscript. }
  destruct (MarkBranchFailed_nonnil o s2 _ (step_ID failed) (Some err) eq_refl) as [fm Hfm].
  eapply twp_lift; [exact Hfm|]. apply (unwinding_forks _ _ _ _ fm) in Hs2. set (s3 := with_Forks s2 fm) in *.
  assert (Hq : CompensationQueue (NewMachine (d_DSL d)) (step_ID failed) s3 = compensations k (step_ID failed)).
  { rewrite CompensationQueue_nub, (un_completed _ _ _ _ _ Hs2), app_nil_r. done. }
  rewrite Hq. destruct (compensations k (step_ID failed)) as [|h q2].
  - by apply twp_finish_failed.
  - apply twp_next_compensation; [done..|]. by eapply unwinding_queue.
Qed.

Lemma twp_Advance_fails row stream pending w :
  retry_allowed failed 1 = None → step_fails failed →
  shows id defs tm row stream pending w → locked_until row = None → row_at did once d path F k (row_inst row) →
  twp good (Advance e id)
    (λ r w', r = Ok () ∧ ∃ row' stream', shows id defs tm row' stream' pending w' ∧ locked_until row' = None ∧
       unwound [] (compensations k (step_ID failed)) stream (row_inst row') stream') w.
Proof.
  intros Hretry Hfail Hw Hlock Hrow. 
  apply (twp_Advance_step e good good_calm id did defs tm once d Hdef path F R Hscript k failed row stream pending w
    (unwound [] (compensations k (step_ID failed)) stream) Hk Hw Hlock Hrow).
  intros owner until w1 Hw1. unfold executeNormalStep. cbv zeta. set (l := scan_instance id row).
  assert (Hp : progress once path (F k) k (i_State l)) by apply progress_Normalize, Hrow.
  assert (Hprev : step_state (i_State l) (step_ID failed) = zeroStepState).
  { unfold step_state. by rewrite (pr_todo _ _ _ _ _ Hp k failed). }
  rewrite Hprev. change (ss_Attempt zeroStepState + 1)%Z with 1%Z.
  eapply (twp_start e good good_calm id did defs tm d _ _ failed 1 _ _ l _ stream pending w1 (λ r, ∃ result err, r = (result, Some err) ∧
    IsWaitingTimer err = None ∧ encodable (VObj (result_output result)) ∧ encodable (result_body result)));
    [exact Hw1|apply Hrow|done|done|done|apply Hp|intros; by apply (twp_span e good)|].
  intros l1 key m row1 h r w2 Hm Hid1 Hv1 Hr1 Hby Hl1 Hw2 Hh (result & err & -> & Herr & Ho & Hb).
  calm_read. rewrite Herr.
  eapply twp_mono; [exact (twp_handleStepFailure _ l1 (Normalize (i_State l)) m _ (h_ID h) result err row1 stream pending
    w2 Hretry Hw2 Hr1 Hid1 Hv1 (progress_Normalize _ _ _ _ _ Hp) Hm Hl1 Hh Ho Hb)|].
  intros r w3 [-> (row' & stream' & Hw3 & Hby' & Hun)]. split; [done|]. exists row', stream'. by rewrite Hby', Hby.
Qed.

(** The success of a compensation. *)
Lemma twp_compensation_done q1 h q2 hstep attempt l s m st0 hid output body row stream pending w :
  step_ID hstep = h → h ∉ before k ++ q1 → h ≠ step_ID failed →
  shows id defs tm row stream pending w → instance_of did d (row_inst row) → i_ID l = id →
  i_Version (row_inst row) = i_Version l → unwinding (before k) (step_ID failed) q1 (h :: q2) s →
  rs_Steps s = Some m → i_State l = with_Steps s (Some (<[h := st0]> m)) →
  is_Some (db_history (w_repo w) !! hid) → encodable (VObj output) → encodable body →
  twp good (compensation_done l hstep hid attempt (Some (mkResult output body None None)))
    (λ r w', r = Ok () ∧ ∃ row' stream', shows id defs tm row' stream' pending w' ∧ locked_by row' = locked_by row ∧
       unwound (q1 ++ [h]) q2 stream (row_inst row') stream') w.
Proof.
  intros Hh Hnew Hhf Hw Hr Hid Hv Hs Hm Hl Hhist Ho Hb. unfold compensation_done.
  apply twp_try with (P := λ _, shows id defs tm row stream pending).
  { apply (twp_complete good good_calm); [exact Hw|done|apply Ho]. }
  intros _ w1 Hw1. rewrite Hh.
  destruct (unwinding_mark (before k) (step_ID failed) q1 h q2 s m st0
    (completed_state (i_State l) h attempt (Some (mkResult output body None None)))) as (s' & Hs' & Hun); [done..|].
  rewrite Hl at 1. eapply twp_lift; [exact Hs'|]. cbv zeta.
  assert (Hq : tail (rs_CompensationQueue s') = q2).
  { assert (Hs'q : rs_CompensationQueue s' = rs_CompensationQueue s).
    { pose proof (MarkCompleted_done (with_Steps s (Some (<[h := st0]> m))) h
        (completed_state (i_State l) h attempt (Some (mkResult output body None None)))) as (m1 & _ & Hmc).
      rewrite Hs' in Hmc. injection Hmc as ->. by case_decide. }
    by rewrite Hs'q, (un_queue _ _ _ _ _ Hs). }
  rewrite Hq. destruct q2 as [|h' q2].
  - by apply twp_finish_failed.
  - by apply twp_next_compensation.
Qed.

Lemma twp_Advance_compensation q1 h q2 hstep row stream pending w :
  StepByID (d_DSL d) h = Some hstep → step_succeeds e good hstep → h ∉ before k ++ q1 → h ≠ step_ID failed →
  shows id defs tm row stream pending w → locked_until row = None → row_unwinding q1 (h :: q2) (row_inst row) →
  twp good (Advance e id)
    (λ r w', r = Ok () ∧ ∃ row' stream', shows id defs tm row' stream' pending w' ∧ locked_until row' = None ∧
       unwound (q1 ++ [h]) q2 stream (row_inst row') stream') w.
Proof.
  intros Hstep Hsucc Hnew Hhf Hw Hlock (Hr & Hun & Hst).
  assert (Hhid : step_ID hstep = h) by by eapply StepByID_Some.
  apply (twp_claimed e good good_calm id did defs tm d Hdef row stream pending w
    (unwound (q1 ++ [h]) q2 stream) Hw Hlock); [rewrite Hst; by intros [?|?]|by rewrite Hst|exact Hr|].
  intros owner until w1 Hw1. cbv zeta. set (l := scan_instance id row).
  rewrite decide_True by (left; exact Hst). unfold advanceCompensation. cbv zeta.
  set (s := Normalize (i_State l)).
  assert (Hs : unwinding (before k) (step_ID failed) q1 (h :: q2) s) by by do 2 apply unwinding_Normalize.
  change (i_State (with_state l s)) with s. rewrite (un_queue _ _ _ _ _ Hs).
  change (m_definition (NewMachine (d_DSL d))) with (d_DSL d). rewrite Hstep.
  eapply (twp_start e good good_calm id did defs tm d _ _ hstep _ _ zeroStepState (with_state l s) _ stream pending w1
    (λ r, ∃ output body, r = returns output body None ∧ encodable (VObj output) ∧ encodable body));
    [exact Hw1|exact Hr|done|done|done|apply Hs|intros; by apply (twp_span e good)|].
  intros l1 key m row1 hist r w2 Hm Hid1 Hv1 Hr1 Hby Hl1 Hw2 Hhist (output & body & -> & Ho & Hb).
  cbn [returns]. rewrite Hhid in Hl1.
  eapply twp_mono; [exact (twp_compensation_done q1 h q2 hstep _ l1 (Normalize s) m _ (h_ID hist) output body row1 stream
    pending w2 Hhid Hnew Hhf Hw2 Hr1 Hid1 Hv1 (unwinding_Normalize _ _ _ _ _ Hs) Hm Hl1 Hhist Ho Hb)|].
  intros r w3 [-> (row' & stream' & Hw3 & Hby' & Hun')]. split; [done|]. exists row', stream'. by rewrite Hby', Hby.
Qed.

(** ** The consumer *)

Hypothesis Hid : id ≠ "" ∧ id ≠ "<nil>".

(** The definition has the handlers and they succeed. *)
Definition handler_ok (h : string) : Prop := ∃ hstep, StepByID (d_DSL d) h = Some hstep ∧ step_succeeds e good hstep.

Lemma twp_consume_compensations q1 q2 name row w :
  q1 ++ q2 = compensations k (step_ID failed) → q2 ≠ [] → Forall handler_ok q2 →
  shows id defs tm row [Some id] [] w → locked_until row = None → row_unwinding q1 q2 (row_inst row) →
  twp good (consume_loop e (length q2) name) (λ _ w', ∃ row', shows id defs tm row' [] [] w' ∧
    row_failed (compensations k (step_ID failed)) (row_inst row')) w.
Proof.
  revert q1 row w. induction q2 as [|h q2 IH]; intros q1 row w Hq Hne Hok Hw Hlock Hrow; [done|].
  apply Forall_cons in Hok as [(hstep & Hstep & Hsucc) Hok].
  assert (Hin : h ∈ compensations k (step_ID failed)) by (rewrite <- Hq; set_solver).
  apply compensation_off_path in Hin as [Hb Hf].
  assert (Hnew : h ∉ before k ++ q1).
  { pose proof (NoDup_nub (omap (on_failure_of (NewMachine (d_DSL d))) (step_ID failed :: reverse (before k)))) as Hnd.
    fold (compensations k (step_ID failed)) in Hnd. rewrite <- Hq in Hnd. apply NoDup_app in Hnd as (_ & Hd & _).
    set_solver. }
  apply (twp_consume_S e good good_calm id defs tm Hid (length q2) name row w (unwound (q1 ++ [h]) q2 []) _ Hw).
  { intros pending w1 Hw1. by apply (twp_Advance_compensation q1 h q2 hstep row). }
  intros row' stream' w' Hw' Hl' [(Hne' & Hrow' & ->)|(-> & Hrow' & ->)].
  - by apply (IH (q1 ++ [h]) row'); [rewrite <- app_assoc|..].
  - simpl. exists row'. by rewrite <- Hq.
Qed.

(** The path up to the failing step, then the compensations. *)
Lemma twp_consume_saga name row w :
  Forall (λ step, step_returns e good (R step) step) (take k path) → step_fails failed →
  retry_allowed failed 1 = None → Forall handler_ok (compensations k (step_ID failed)) →
  shows id defs tm row [Some id] [] w → locked_until row = None → row_at did once d path F 0 (row_inst row) →
  twp good (consume_loop e (k + S (length (compensations k (step_ID failed)))) name) (λ _ w', ∃ row',
    shows id defs tm row' [] [] w' ∧ row_failed (compensations k (step_ID failed)) (row_inst row')) w.
Proof.
  intros Hsucc Hfail Hretry Hok Hw Hlock Hrow. pose proof (lookup_lt_Some _ _ _ Hk).
  apply (twp_consume_steps e good good_calm id did defs tm once d Htm Hdef path F R Hscript Hid k _ 0 name row);
    [lia|eapply Forall_impl; [exact Hsucc|]; by split|done..|].
  intros row1 w1 Hw1 Hl1 Hrow1.
  apply (twp_consume_S e good good_calm id defs tm Hid _ name row1 w1 (unwound [] (compensations k (step_ID failed)) []) _ Hw1).
  { intros pending w2 Hw2. by apply (twp_Advance_fails row1). }
  intros row2 stream2 w2 Hw2 Hl2 [(Hne & Hrow2 & ->)|(Heq & Hrow2 & ->)].
  - by apply (twp_consume_compensations [] (compensations k (step_ID failed)) name row2 w2).
  - rewrite Heq. simpl. by exists row2.
Qed.
End saga.

(** ** From the API to the end *)

(** What an instance looks like that failed at the step [failed] after the steps [before] and
    was compensated by [q]. *)
Definition compensated (before : list string) (failed : string) (q : list string) (r : Instance_) : Prop :=
  i_Status r = InstanceFailed ∧ i_CurrentStepID r = None ∧
  rs_Completed (i_State r) = before ++ q ∧ rs_CompensationQueue (i_State r) = [] ∧
  ss_Status (step_state (i_State r) failed) = StepFailed ∧
  ∀ id, id ∈ before ++ q → ss_Status (step_state (i_State r) id) = StepCompleted.

(** C6: a failed workflow is compensated to its end: take any workflow, with forks, joins
    and conditions, whose schedule is orderly and uses no compensation as a step of its own.
    Assume that no call to the database or Redis fails, that the first [k] steps of the
    schedule return their results, that the next step, in a branch of a fork or not, fails
    and has no retry left, and that every compensation that is then due is a step of the
    definition and succeeds.  Then an instance that a client starts is brought to its end by
    a consumer in [k + 1] iterations plus one per compensation: it ends as failed, the steps
    completed are exactly the first [k] of the schedule and then every due compensation (the
    handler of the failed step, then those of the completed steps, newest first, each once),
    and no task or delivery is left.  (When a compensation fails instead, the engine ends the
    instance there, with the others still queued.) *)
Theorem failed_workflow_compensates `{Externals} `{GoArch} `{PgClock} e good env p did d R l last input name (w : World DB)
    k failed :
  let before := step_ID <$> take k l.*1 in
  let q := nub (omap (on_failure_of (NewMachine (d_DSL d))) (step_ID failed :: reverse before)) in
  (∀ c w, good c w → calm c w) → (∀ i w, good (env i w) w) →
  db_definitions (w_repo w) !! did = Some d → d_TenantID d = tenant_or_default (pr_TenantID p) → did ≠ "" →
  NoDup (step_ID <$> dsl_Steps (d_DSL d)) → schedule (d_DSL d) R = Some (l, last) → orderly l →
  Forall (λ step, step_ID step ∉ CompensationRefs (d_DSL d)) l.*1 → encodable (VObj (Some input)) →
  l.*1 !! k = Some failed → Forall (λ step, step_returns e good (R step) step) (take k l.*1) →
  step_fails e good failed → retry_allowed failed 1 = None → Forall (handler_ok e good d) q →
  rd_group (w_redis w) = true → rd_stream (w_redis w) = [] → rd_pending (w_redis w) = [] →
  ∃ inst w' row, exec (submit_and_consume e p did (Some input) (k + S (length q)) name) env 0 w =
      Done ((202%Z, ReplyInstance inst), w') ∧
    db_instances (w_repo w') !! i_ID inst = Some row ∧
    compensated before (step_ID failed) q (row_inst row) ∧
    rd_stream (w_redis w') = [] ∧ rd_pending (w_redis w') = [].
Proof.
  intros bef q Hgood Henv Hdef Hten Hdid Hids Hsch Hord Hoff Hin Hk Hsucc Hfail Hretry Hok Hg Hs Hp.
  pose proof (schedule_script _ _ _ _ Hids Hsch Hord) as Hscript. rewrite Forall_forall in Hoff.
  cut (twp good (submit_and_consume e p did (Some input) (k + S (length q)) name) (λ r w', ∃ inst row,
    r = (202%Z, ReplyInstance inst) ∧ shows (i_ID inst) (db_definitions (w_repo w)) None row [] [] w' ∧
    compensated bef (step_ID failed) q (row_inst row)) w).
  { intros Ht. destruct (twp_exec good _ _ env 0 w Ht Henv) as (r & w' & Hexec & inst & row & -> & Hw & Hfin).
    exists inst, w', row. destruct Hw as (_ & Hrow & _ & Hst & Hpd & _). split_and!; try done.
    by apply fmap_nil_inv in Hst. }
  unfold submit_and_consume.
  eapply twp_then; [apply (twp_createInstance good None p did d input w Hgood); try done; apply Hin|].
  intros r w1 (i & -> & Hi & Hw1). eapply twp_then.
  { apply (twp_consume_saga e good Hgood (i_ID i) did _ None d I Hdef l.*1 (forks_at l last) R Hscript Hoff k failed Hk)
      with (row := created_row i (Some input));
      try done; [by split; apply Hi|]. apply created_at; [apply Hscript|done| |done].
    by rewrite Hten, tenant_or_default_idemp. }
  intros [] w2 (row' & Hw2 & Hun & Hst & Hcur). exists i, row'. split_and!; [done|done|].
  destruct Hun as [Hc Hq Hd Hf _]. by split_and!.
Qed.

(** ** An example: the invoice of an order fails after its goods were packed in another branch *)
#[local] Existing Instance toy_externals.

Definition lost_work (id expr handler : string) : Step :=
  mkStep id StepTransform (obj_map [("expr", VStr expr)]) None handler.
Definition lost_dsl : DefinitionDSL :=
  mkDSL "lost" 1 [lost_work "charge" "true" "refund"; split; lost_work "pack" "true" "unpack";
                  lost_work "bill" "fail" "notify"; meet;
                  lost_work "refund" "true" ""; lost_work "unpack" "true" ""; lost_work "notify" "false" ""].
Definition lost : Definition_ := mkDefinition "d1" "acme" "lost" 1 lost_dsl 10 10.
Definition lost_world : World DB := mkWorld (mkDB {["d1" := lost]} ∅ ∅ ∅) (mkRedis 0 true [] [] ∅).
Definition lost_schedule : list (Step * gmap string ForkState) * gmap string ForkState :=
  default ([], ∅) (schedule lost_dsl parallel_answers).

Lemma lost_steps :
  lost_schedule.1.*1 = [lost_work "charge" "true" "refund"; split; lost_work "pack" "true" "unpack";
                        lost_work "bill" "fail" "notify"; meet].
Proof. vm_compute. reflexivity. Qed.

Lemma lost_step_fails : step_fails trade_engine calm (lost_work "bill" "fail" "notify").
Proof.
  intros l w. unfold Execute. cbn [lost_work step_Type]. rewrite decide_False, decide_True by done.
  unfold executeTransform. cbn [step_Config lost_work].
  assert (firstString (obj_map [("expr", VStr "fail")]) ["expr"; "expression"] = Some "fail") as ->
    by (vm_compute; reflexivity).
  cbn [default Datatypes.id]. rewrite decide_False by done. unfold eval_expression.
  assert (expr_compile "fail" (BuildEnv (i_Input l) (i_State l)) = Ok "fail") as -> by done.
  intros c (_ & Hctx & _). cbn [handle]. rewrite Hctx. intros c' _. cbn [handle prog_mbind prog_bind mret prog_mret].
  assert (expr_run (c_now c') "fail" (BuildEnv (i_Input l) (i_State l)) = Err (ErrText "toy: run failed")) as -> by done.
  split; [done|]. eexists _, _. by split_and!.
Qed.

Lemma lost_work_returns id expr handler : expr = "true" ∨ expr = "false" →
  step_returns trade_engine calm None (lost_work id expr handler).
Proof.
  intros Hexpr. apply (toy_transform_succeeds _ expr); [done|destruct Hexpr as [-> | ->]; vm_compute; reflexivity..|exact Hexpr].
Qed.

Lemma failed_workflow_compensates_witness :
  ∃ inst w' row, exec (submit_and_consume trade_engine (mkPrincipal "acme" roleOperator) "d1" (Some ∅) 7 "c")
      calm_env 0 lost_world = Done ((202%Z, ReplyInstance inst), w') ∧
    db_instances (w_repo w') !! i_ID inst = Some row ∧
    compensated ["charge"; "split"; "pack"] "bill" ["notify"; "unpack"; "refund"] (row_inst row) ∧
    rd_stream (w_redis w') = [] ∧ rd_pending (w_redis w') = [].
Proof.
  apply (failed_workflow_compensates trade_engine calm calm_env (mkPrincipal "acme" roleOperator) "d1" lost parallel_answers
           lost_schedule.1 lost_schedule.2 ∅ "c" lost_world 3 (lost_work "bill" "fail" "notify")); try done.
  - exact calm_env_calm.
  - apply (bool_decide_unpack _). vm_compute. exact I.
  - apply (bool_decide_unpack _). vm_compute. exact I.
  - apply (bool_decide_unpack _). vm_compute. exact I.
  - rewrite lost_steps. cbn [take].
    apply Forall_cons_2; [by apply lost_work_returns; left|]. apply Forall_cons_2; [exact split_returns|].
    apply Forall_cons_2; [by apply lost_work_returns; left|]. apply Forall_nil_2.
  - exact lost_step_fails.
  - repeat constructor; eexists; (split; [vm_compute; reflexivity|apply lost_work_returns; auto]).
Defined.
