(* ===== verification/TimerRun.v ===== *)
(** * A workflow that waits runs to its end

    End-to-end behaviour of a workflow in which one step has to wait: a delay, or a step
    that fails once and is tried again.  A consumer brings the instance to the waiting
    step, whose timer is persisted; later the timer service finds the timer due and queues
    the instance, and a consumer takes it to the end.  No call fails. *)

From S2P Require Import Prelude GoNum GoString GoTime Workflow Accessors Machine MachineFacts.
From S2P Require Import Json Store StoreFacts Externals Effects Timer Worker Engine Validator Api Calm.
From S2P Require Import ScriptRun LinearRun SagaRun.

#[local] Open Scope prog_scope.

(** ** The state of a waiting instance

    The entry of the step aside, it is the state before the step. *)
Definition forget (id : string) (s : RuntimeState) : RuntimeState :=
  with_Steps s (delete id <$> rs_Steps s).

Record waiting_entry (until : time) (st : StepState) : Prop := {
  we_status : ss_Status st = StepWaitingTimer;
  we_attempt : ss_Attempt st = 1%Z;
  we_time : ∃ t, ss_WaitingTime st = Some t ∧ (t ≤ until)%Z;
  we_body : encodable (ss_Body st);
  we_output : encodable (VObj (ss_Output st));
}.

Definition pausing att path forks k (step : Step) until (s : RuntimeState) : Prop :=
  progress att path forks k (forget (step_ID step) s) ∧
  ∃ st, gm_get (rs_Steps s) (step_ID step) = Some st ∧ waiting_entry until st.

Lemma gm_get_forget id s i : gm_get (rs_Steps (forget id s)) i = if decide (i = id) then None else gm_get (rs_Steps s) i.
Proof.
  unfold gm_get, forget. simpl. destruct (rs_Steps s) as [m|]; simpl.
  - rewrite lookup_delete. case_decide as H1; case_decide as H2; [done|congruence..|done].
  - by case_decide.
Qed.

(** [progress] depends on the entries of the steps only. *)
Lemma progress_ext att path forks k s s' :
  rs_Completed s = rs_Completed s' → rs_CompensationQueue s = rs_CompensationQueue s' →
  default ∅ (rs_Forks s) = default ∅ (rs_Forks s') →
  (∀ i, gm_get (rs_Steps s) i = gm_get (rs_Steps s') i) → progress att path forks k s → progress att path forks k s'.
Proof.
  intros Hc Hq Hf Hget [Hc' Hq' Hf' Hd Ht Hj].
  constructor; [congruence..| | |].
  - intros j step Hlt Hstep. rewrite <- Hget. by apply (Hd j).
  - intros j step Hle Hstep. rewrite <- Hget. by apply (Ht j).
  - intros i st. rewrite <- Hget. apply Hj.
Qed.

Lemma waiting_entry_reload until st : waiting_entry until st → waiting_entry until (reload_step st).
Proof.
  intros [Hs Ha Ht Hb Ho]. constructor; [done..|by apply encodable_norm|]. exact (encodable_reload_map _ Ho).
Qed.

Lemma pausing_reload att path forks k step until s : pausing att path forks k step until s → pausing att path forks k step until (reload s).
Proof.
  intros [Hp (st & Hst & Hw)]. split.
  - eapply progress_ext, progress_reload, Hp; [done|done| |].
    { rewrite reload_default_forks. symmetry. exact (reload_default_forks s). }
    intros i. rewrite gm_get_reload_steps, !gm_get_forget, gm_get_reload_steps. by case_decide.
  - exists (reload_step st). rewrite gm_get_reload_steps, Hst. split; [done|]. by apply waiting_entry_reload.
Qed.

Lemma pausing_Normalize att path forks k step until s :
  pausing att path forks k step until s → pausing att path forks k step until (Normalize s).
Proof.
  intros [Hp (st & Hst & Hw)]. split.
  - eapply progress_ext, progress_Normalize, Hp.
    + rewrite Normalize_Completed. symmetry. exact (Normalize_Completed s).
    + rewrite Normalize_Queue. symmetry. exact (Normalize_Queue s).
    + rewrite Normalize_Forks. symmetry. exact (f_equal (default ∅) (Normalize_Forks s)).
    + intros i. by rewrite Normalize_Steps_get, !gm_get_forget, Normalize_Steps_get.
  - exists st. by rewrite Normalize_Steps_get.
Qed.

Lemma pausing_encodable att path forks k step until s : pausing att path forks k step until s → state_encodable s.
Proof.
  intros [Hp (st & Hst & Hw)] i st' Hi. destruct (decide (i = step_ID step)) as [->|Hne].
  - rewrite Hst in Hi. injection Hi as <-. split; apply Hw.
  - apply (pr_json _ _ _ _ _ Hp i). by rewrite gm_get_forget, decide_False.
Qed.

(** The step starts to wait; [m'] has the entries of the other steps. *)
Lemma pausing_start att path forks k step until s m m' st :
  path !! k = Some step → progress att path forks k s → rs_Steps s = Some m → waiting_entry until st →
  (∀ i, i ≠ step_ID step → m' !! i = m !! i) →
  pausing att path forks k step until (with_Steps s (Some (<[step_ID step := st]> m'))).
Proof.
  intros Hk Hp Hm Hw Hm'. split.
  - eapply progress_ext, Hp; [done..|]. intros i. rewrite gm_get_forget. unfold gm_get at 2. simpl.
    case_decide as Hi; [subst; by apply (pr_todo _ _ _ _ _ Hp k)|]. rewrite lookup_insert_ne, Hm' by done. unfold gm_get. by rewrite Hm.
  - exists st. split; [|done]. unfold gm_get. simpl. apply lookup_insert_eq.
Qed.

(** ** The timer service *)

Section timers.
Context `{Externals} `{GoArch} `{PgClock}.
Context (good : choice → World DB → Prop).
Hypothesis good_calm : ∀ c w, good c w → calm c w.
Context (svc : Service) (id : string) (defs : gmap string Definition_).
Hypothesis Hsvc : s_enqueue svc = Some Enqueue.
Implicit Types (w : World DB) (row : InstanceRow).

(** The timer of the instance alone. *)
Definition one_timer (step : string) (t : time) : gmap string Timer := {[id := mkTimer id step t]}.

(** Either the timer is persisted, to fire at [until] at the latest, or it fired at once. *)
Definition armed until (stream stream' : list (option string)) (tm : option (gmap string Timer)) : Prop :=
  (stream' = stream ∧ ∃ step t, tm = Some (one_timer step t) ∧ (t ≤ until)%Z) ∨
  (stream' = stream ++ [Some id] ∧ tm = Some ∅).

Ltac calm_call :=
  let c := fresh "c" in let Hc := fresh "Hc" in
  intros c Hc; apply good_calm in Hc as (Hfault & Hctx & _ & _ & Hfresh & Hfresh');
  cbn [handle]; unfold on_redis; rewrite ?Hfault; cbn [with_fault].

(** A write to the keys of Redis. *)
Lemma twp_clear_key tm row stream pending w key_of :
  shows id defs tm row stream pending w →
  twp good (clearRedisKey svc key_of) (λ r w', ∃ u, r = Ok u ∧ shows id defs tm row stream pending w') w.
Proof.
  intros Hw. unfold clearRedisKey. apply twp_try with (P := λ _, shows id defs tm row stream pending).
  { destruct Hw as (Hd & Hrow & Hg & Hs & Hp & Ht). calm_call. eexists. split; [done|]. by split_and!. }
  intros _ w1 Hw1. simpl. eauto.
Qed.

(** A service that fires a persisted timer queues the instance. *)
Lemma twp_fire step t row stream pending w :
  shows id defs (Some (one_timer step t)) row stream pending w →
  twp good (fire svc id) (λ r w', ∃ u, r = Ok u ∧ shows id defs (Some ∅) row (stream ++ [Some id]) pending w') w.
Proof.
  intros Hw. unfold fire.
  eapply twp_try with (P := λ r w', is_Some r ∧ shows id defs (Some ∅) row stream pending w').
  { destruct Hw as (Hd & Hrow & Hg & Hs & Hp & Ht). calm_call. cbn [repo_exec postgres_repository]. unfold FireTimer.
    simpl in Ht. eexists. split; [reflexivity|]. rewrite Ht. unfold one_timer. rewrite lookup_singleton_eq. split; [by eexists|].
    split_and!; try done. simpl. apply delete_singleton_eq. }
  intros r w1 [[tr ->] Hw1]. apply twp_try with (P := λ _, shows id defs (Some ∅) row stream pending); [by apply twp_clear_key|]. intros _ w2 Hw2. rewrite Hsvc.
  eapply twp_try with (P := λ _, shows id defs (Some ∅) row (stream ++ [Some id]) pending).
  { eapply twp_mono; [eapply (twp_Enqueue good good_calm), Hw2|]. intros r w3 [-> ?]. by eexists. }
  intros _ w3 Hw3. simpl. eauto.
Qed.

Lemma twp_Schedule step fireAt until row stream pending w :
  (fireAt ≤ until)%Z → shows id defs (Some ∅) row stream pending w →
  twp good (Schedule svc (mkTimer id step fireAt)) (λ r w', ∃ u, r = Ok u ∧
    ∃ stream' tm', shows id defs tm' row stream' pending w' ∧ armed until stream stream' tm') w.
Proof.
  intros Hf Hw. unfold Schedule. cbn [t_InstanceID t_FireAt t_StepID].
  eapply twp_try with (P := λ _, shows id defs (Some (one_timer step (pg_time fireAt))) row stream pending).
  { destruct Hw as (Hd & Hrow & Hg & Hs & Hp & Ht). calm_call. cbn [repo_exec postgres_repository]. unfold UpsertTimer.
    simpl in Ht. cbn [t_InstanceID]. rewrite Hrow. eexists. split; [done|]. split_and!; try done. simpl. by rewrite Ht. }
  intros _ w1 Hw1. calm_read. cbn [prog_mbind prog_bind]. pose proof (pg_time_le fireAt). case_decide.
  - apply twp_try with (P := λ _, shows id defs (Some ∅) row (stream ++ [Some id]) pending); [by eapply twp_fire|]. intros _ w2 Hw2. simpl. eexists. split; [done|].
    eexists _, _. split; [exact Hw2|]. by right.
  - eapply twp_try with (P := λ _, shows id defs (Some (one_timer step (pg_time fireAt))) row stream pending).
    { destruct Hw1 as (Hd & Hrow & Hg & Hs & Hp & Ht). calm_call. eexists. split; [done|]. by split_and!. }
    intros _ w2 Hw2. simpl. eexists. split; [done|]. eexists _, _. split; [exact Hw2|]. left. split; [done|].
    eexists _, _. split; [done|]. lia.
Qed.

(** A claim of the due timers, when there is one and when there is none. *)
Lemma range_order_one {V} o (v : V) : range_order o ({[id := v]} : gmap string V) = [(id, v)].
Proof. apply Permutation_singleton_r. by rewrite range_order_perm, map_to_list_singleton. Qed.

Lemma due_one now o limit db step t :
  db_timers db = one_timer step t → (t ≤ pg_time now)%Z → due_timers now o limit db = [mkTimer id step t].
Proof.
  intros Hdb Ht. unfold due_timers. rewrite Hdb. unfold one_timer. rewrite map_filter_singleton_True by done.
  assert (order_by t_FireAt o {[id := mkTimer id step t]} = [(id, mkTimer id step t)]) as ->.
  { apply Permutation_singleton_r. unfold order_by. by rewrite sorting.merge_sort_Permutation, range_order_one. }
  assert (∃ n, limit_or 100 limit = S n) as [n ->].
  { unfold limit_or. case_decide; [by exists 99%nat|]. exists (pred (Z.to_nat limit)). lia. }
  by destruct n.
Qed.

Lemma due_none now o limit db : db_timers db = ∅ → due_timers now o limit db = [].
Proof.
  intros Hdb. unfold due_timers. rewrite Hdb, map_filter_empty. unfold order_by. rewrite range_order_empty.
  by destruct (limit_or _ _).
Qed.

Lemma claim_one now o o' limit db step t :
  db_timers db = one_timer step t → (t ≤ pg_time now)%Z →
  (ClaimDueTimers now o o' [] limit db).1 = [mkTimer id step t] ∧ db_timers (ClaimDueTimers now o o' [] limit db).2 = ∅.
Proof.
  intros Hdb Ht. unfold ClaimDueTimers. cbv zeta. rewrite (due_one _ _ _ _ step t); [|simpl|done].
  - simpl. rewrite insert_empty, range_order_one, Hdb. split; [done|]. apply map_eq. intros i. unfold one_timer.
    rewrite lookup_difference, lookup_empty. destruct (decide (i = id)) as [->|Hne].
    + by rewrite !lookup_singleton_eq.
    + by rewrite !lookup_singleton_ne by done.
  - rewrite Hdb. apply map_filter_singleton_True. simpl. set_solver.
Qed.

Lemma claim_none now o o' locked limit db : db_timers db = ∅ →
  (ClaimDueTimers now o o' locked limit db).1 = [] ∧ db_timers (ClaimDueTimers now o o' locked limit db).2 = ∅.
Proof.
  intros Hdb. unfold ClaimDueTimers. cbv zeta. rewrite due_none by (simpl; rewrite Hdb; apply map_filter_empty).
  simpl. rewrite range_order_empty, Hdb. split; [done|]. apply map_difference_empty.
Qed.

(** The clock has passed [until], and no other poll holds locks. *)
Definition later until (c : choice) : Prop := (until + Microsecond ≤ c_now c)%Z ∧ k_locked (c_tick c) = [].

(** A poll queues the instance, unless its timer fired before. *)
Lemma twp_poll until tm stream row pending w :
  (∀ c w, good c w → later until c) → armed until [] stream tm → shows id defs tm row stream pending w →
  twp good (poll svc) (λ r w', r = Ok () ∧ shows id defs (Some ∅) row [Some id] pending w') w.
Proof.
  intros Hlate Harm Hw. unfold poll. intros c0 Hc0. cbn [handle prog_mbind prog_bind].
  destruct (Hlate _ _ Hc0) as [Hnow _].
  eapply twp_try with (P := λ due w', (due = [] ∧ stream = [Some id] ∨ (∃ step t, due = [mkTimer id step t]) ∧ stream = []) ∧
    shows id defs (Some ∅) row stream pending w').
  { destruct Hw as (Hd & Hrow & Hg & Hs & Hp & Ht). intros c Hc. destruct (Hlate _ _ Hc) as [_ Hlk].
    apply good_calm in Hc as (Hfault & _). cbn [handle]. rewrite Hfault. cbn [with_fault repo_exec postgres_repository].
    set (due := ClaimDueTimers _ _ _ _ _ _).
    assert (Hdue : (due.1 = [] ∧ stream = [Some id] ∨ (∃ step t, due.1 = [mkTimer id step t]) ∧ stream = []) ∧
      db_timers due.2 = ∅).
    { unfold due. rewrite Hlk. destruct Harm as [(-> & step & t & -> & Hle)|(-> & ->)].
      - destruct (claim_one (c_now c0) (k_order (c_tick c)) (k_order' (c_tick c)) (s_pollLimit svc) (w_repo w) step t)
          as [-> ->]; [exact Ht|pose proof (pg_time_gt (c_now c0)); lia|]. split; [right; eauto|done].
      - destruct (claim_none (c_now c0) (k_order (c_tick c)) (k_order' (c_tick c)) [] (s_pollLimit svc) (w_repo w))
          as [-> ->]; [exact Ht|]. split; [by left|done]. }
    destruct due as [l db'] eqn:Heq. destruct Hdue as [Hl Hdb]. exists l. split; [done|]. split; [exact Hl|].
    assert (db' = set_timers (w_repo w) (db_timers db')) as -> by (unfold due, ClaimDueTimers in Heq; by injection Heq as _ <-).
    by split_and!. }
  intros due w1 [[[-> ->]|[(step & t & ->) ->]] Hw1]; [by simpl|].
  cbn [poll_loop]. apply twp_try with (P := λ _, shows id defs (Some ∅) row [] pending); [by apply twp_clear_key|].
  intros _ w2 Hw2. rewrite Hsvc.
  apply twp_try with (P := λ _, shows id defs (Some ∅) row [Some id] pending).
  { eapply twp_mono; [eapply (twp_Enqueue good good_calm), Hw2|]. intros r w3 [-> ?]. by exists (). }
  intros _ w3 Hw3. by simpl.
Qed.
End timers.

(** ** The step that waits *)

Section waiting.
Context `{Externals} `{GoArch} `{PgClock}.
Context (e : Engine) (svc : Service).
Hypothesis Htimers : e_timers e = Some svc.
Hypothesis Hsvc : s_enqueue svc = Some Enqueue.
Context (id did : string) (defs : gmap string Definition_) (d : Definition_).
Hypothesis Hid : id ≠ "" ∧ id ≠ "<nil>".
Hypothesis Hdef : defs !! did = Some d.
Context (path : list Step) (F : nat → gmap string ForkState) (R : Step → option string).
Hypothesis Hscript : script (d_DSL d) path F R.
Context (k : nat) (step : Step) (until : time).
Hypothesis Hk : path !! k = Some step.

(** The step that waits takes two attempts, the others one. *)
Definition twice (waits i : string) : Z := if decide (i = waits) then 2 else 1.
#[local] Abbreviation att := (twice (step_ID step)).
#[local] Abbreviation timers := (option (gmap string Timer)).

(** What the state keeps of a step that starts to wait. *)
Definition wait_values (result : option Result) (fireAt : time) : gomap value * value :=
  match result with
  | Some (mkResult (Some output) body _ _) => (Some output, body)
  | _ => (obj_map [("fire_at", VStr (format_rfc3339nano fireAt))], VNil)
  end.

(** The row of the waiting instance. *)
Definition row_waiting (r : Instance_) : Prop :=
  instance_of did d r ∧ pausing att path (F k) k step until (i_State r) ∧
  i_Status r = InstanceWaitingTimer ∧ i_CurrentStepID r = Some (step_ID step).

Definition waits (stream : list (option string)) (r : Instance_) (stream' : list (option string)) (tm' : timers) : Prop :=
  row_waiting r ∧ armed id until stream stream' tm'.

Section first.
Context (good : choice → World DB → Prop).
Hypothesis good_calm : ∀ c w, good c w → calm c w.

(** The first attempt asks to wait, until [until] at the latest. *)
Definition step_waits : Prop :=
  ∀ l w, ss_Status (step_state (i_State l) (step_ID step)) = StepRunning →
  twp good (Execute (e_executor e) l step) (λ r w', w' = w ∧ ∃ result err fireAt, r = (result, Some err) ∧
    IsWaitingTimer err = Some fireAt ∧ (fireAt ≤ until)%Z ∧
    encodable (VObj (wait_values result fireAt).1) ∧ encodable (wait_values result fireAt).2) w.

(** The first attempt fails and may be tried again, until [until] at the latest. *)
Definition step_retries : Prop :=
  step_fails e good step ∧ ∃ retry, retry_allowed step 1 = Some retry ∧
    ∀ c w, good c w → (time_add (c_now c) (Backoff retry 1) ≤ until)%Z.

(** The row is saved as waiting and the timer is set. *)
Lemma twp_save_waiting ctx ctx' l s m m' st fireAt row stream pending w :
  shows id defs (Some ∅) row stream pending w → instance_of did d (row_inst row) → i_ID l = id →
  i_Version (row_inst row) = i_Version l → progress att path (F k) k s → rs_Steps s = Some m →
  waiting_entry until st → (fireAt ≤ until)%Z → (∀ i, i ≠ step_ID step → m' !! i = m !! i) →
  twp good
    (try _ ← call (ERepo (OpUpdateInstance (with_progress l InstanceWaitingTimer (Some (step_ID step))
         (with_Steps s (Some (<[step_ID step := st]> m')))) (i_Version l))) or ctx;
     schedule_wait e ctx' l (step_ID step) fireAt)
    (λ r w', r = Ok () ∧ ∃ row' stream' tm', shows id defs tm' row' stream' pending w' ∧
       locked_by row' = locked_by row ∧ waits stream (row_inst row') stream' tm') w.
Proof.
  intros Hw Hr Hlid Hv Hp Hm Hst Hf Hm'.
  set (s2 := with_Steps s _). assert (Hs2 : pausing att path (F k) k step until s2) by by eapply pausing_start.
  eapply twp_try; [apply (twp_update good good_calm id defs (Some ∅) row stream pending
    (with_progress l InstanceWaitingTimer (Some (step_ID step)) s2) w); try done|].
  { by eapply state_encodable_json_ok, pausing_encodable. }
  intros l' w1 (_ & now & Hw1). unfold schedule_wait. rewrite Htimers, Hlid.
  set (row' := mkRow _ _ _) in Hw1.
  eapply twp_try with (P := λ _ w', ∃ stream' tm', shows id defs tm' row' stream' pending w' ∧ armed id until stream stream' tm').
  { eapply twp_Schedule; try done. }
  intros _ w2 (stream' & tm' & Hw2 & Ha). simpl. split; [done|]. exists row', stream', tm'.
  split; [exact Hw2|]. split; [done|]. split; [|exact Ha]. split_and!; try done. by apply pausing_reload.
Qed.

Lemma progress_attempt l : progress att path (F k) k (i_State l) → step_state (i_State l) (step_ID step) = zeroStepState.
Proof. intros Hp. unfold step_state. by rewrite (pr_todo _ _ _ _ _ Hp k step). Qed.

(** The first attempt of the step. *)
Lemma twp_first_attempt l row stream pending w :
  step_waits ∨ step_retries →
  shows id defs (Some ∅) row stream pending w → instance_of did d (row_inst row) →
  i_ID l = id → i_Version (row_inst row) = i_Version l → i_Input l = i_Input (row_inst row) →
  progress att path (F k) k (i_State l) →
  twp good (executeNormalStep e l (NewMachine (d_DSL d)) step)
    (λ r w', r = Ok () ∧ ∃ row' stream' tm', shows id defs tm' row' stream' pending w' ∧
       locked_by row' = locked_by row ∧ waits stream (row_inst row') stream' tm') w.
Proof.
  intros Hstep Hw Hr Hlid Hv Hin Hp. unfold executeNormalStep. cbv zeta. rewrite (progress_attempt l Hp).
  change (ss_Attempt zeroStepState + 1)%Z with 1%Z.
  destruct Hstep as [Hwaits|[Hfails (retry & Hretry & Hback)]].
  - apply (twp_start e good good_calm id did defs (Some ∅) d _ _ step 1 _ _ l row stream pending w (λ r, ∃ result err fireAt,
      r = (result, Some err) ∧ IsWaitingTimer err = Some fireAt ∧ (fireAt ≤ until)%Z ∧
      encodable (VObj (wait_values result fireAt).1) ∧ encodable (wait_values result fireAt).2)); [done..|apply Hp| |].
    { intros l0 w0 Hrun. unfold executeWithSpan. rewrite decide_False by (intros [_ ?]; done). by apply Hwaits. }
    intros l1 key m row1 h r w2 Hm Hid1 Hv1 Hr1 Hby Hl1 Hw2 Hh (result & err & fireAt & -> & Herr & Hf & Ho & Hb).
    calm_read. rewrite Herr. unfold handleStepWaiting. fold (wait_values result fireAt).
    destruct (wait_values result fireAt) as [output body]. cbn [fst snd] in Ho, Hb.
    apply twp_try with (P := λ _, shows id defs (Some ∅) row1 stream pending).
    { apply (twp_complete good good_calm); [exact Hw2|done|apply Ho]. }
    intros _ w3 Hw3. cbv zeta. rewrite Hl1. eapply twp_lift; [by apply set_step_nonnil|]. rewrite <- Hby.
    refine (twp_save_waiting _ _ l1 (Normalize (i_State l)) m _ _ fireAt row1 stream pending w3 Hw3 Hr1 Hid1 Hv1
      (progress_Normalize _ _ _ _ _ Hp) Hm _ Hf _).
    + constructor; try done. by exists fireAt.
    + intros i Hi. by rewrite lookup_insert_ne.
  - apply (twp_start e good good_calm id did defs (Some ∅) d _ _ step 1 _ _ l row stream pending w (λ r, ∃ result err,
      r = (result, Some err) ∧ IsWaitingTimer err = None ∧
      encodable (VObj (result_output result)) ∧ encodable (result_body result))); [done..|apply Hp|intros; by apply twp_span|].
    intros l1 key m row1 h r w2 Hm Hid1 Hv1 Hr1 Hby Hl1 Hw2 Hh (result & err & -> & Herr & Ho & Hb).
    calm_read. rewrite Herr. unfold handleStepFailure. cbv zeta.
    apply twp_try with (P := λ _, shows id defs (Some ∅) row1 stream pending).
    { apply (twp_complete good good_calm); [exact Hw2|done|apply Ho]. }
    intros _ w3 Hw3. rewrite Hl1. eapply twp_lift; [by apply set_step_nonnil|]. rewrite Hretry.
    intros c' Hc'. cbn [handle prog_mbind prog_bind]. eapply twp_lift; [by apply set_step_nonnil|]. rewrite <- Hby.
    refine (twp_save_waiting _ _ l1 (Normalize (i_State l)) m _ _ _ row1 stream pending w3 Hw3 Hr1 Hid1 Hv1
      (progress_Normalize _ _ _ _ _ Hp) Hm _ (Hback _ _ Hc') _).
    + constructor; try done. eexists. split; [done|]. by eapply Hback.
    + intros i Hi. by rewrite !lookup_insert_ne.
Qed.

(** The other steps of the path take one attempt. *)
Lemma others_once j step' : path !! j = Some step' → j ≠ k → att (step_ID step') = 1%Z.
Proof.
  intros Hj Hne. unfold twice. rewrite decide_False; [done|]. intros Heq. apply Hne.
  eapply (NoDup_lookup (step_ID <$> path)); [exact (sr_nodup _ _ _ _ Hscript)|by rewrite list_lookup_fmap, Hj|
    rewrite list_lookup_fmap, Hk; simpl; by rewrite Heq].
Qed.

Lemma no_timers : no_timer id (Some ∅).
Proof. done. Qed.

(** A consumer takes a new instance to the wait. *)
Lemma twp_consume_to_wait name row w :
  Forall (λ step, step_returns e good (R step) step) (take k path) → step_waits ∨ step_retries →
  shows id defs (Some ∅) row [Some id] [] w → locked_until row = None → row_at did att d path F 0 (row_inst row) →
  twp good (consume_loop e (S k) name) (λ _ w', ∃ row' stream' tm', shows id defs tm' row' stream' [] w' ∧
    locked_until row' = None ∧ waits [] (row_inst row') stream' tm') w.
Proof.
  intros Hsucc Hstep Hw Hlock Hrow. replace (S k) with (k + 1) by lia.
  pose proof (lookup_lt_Some _ _ _ Hk).
  apply (twp_consume_steps e good good_calm id did defs (Some ∅) att d no_timers Hdef path F R Hscript Hid k 1 0 name row);
    [done| |done..|].
  { rewrite drop_0. apply Forall_lookup. intros j step' Hj. split; [exact (proj1 (Forall_lookup _ _) Hsucc _ _ Hj)|].
    apply lookup_take_Some in Hj as [Hj Hlt]. apply (others_once j); [done|lia]. }
  intros row1 w1 Hw1 Hl1 Hrow1. apply (twp_consume_S_any e good good_calm id defs (Some ∅) Hid 0 name row1 w1 (waits []));
    [done| |].
  - intros pending w2 Hw2. eapply (twp_Advance_step_any e good good_calm id did defs (Some ∅) att d Hdef path F R Hscript); try done.
    intros owner until1 w3 Hw3. set (row3 := mkRow _ _ _) in Hw3.
    eapply twp_mono; [apply (twp_first_attempt _ row3 [] pending); try done; [apply Hrow1|]|done].
    apply progress_Normalize, Hrow1.
  - intros row2 stream2 tm2 w2 Hw2 Hl2 Hwt. simpl. by exists row2, stream2, tm2.
Qed.
End first.

(** ** After the wait *)

Section second.
Context (good : choice → World DB → Prop).
Hypothesis good_calm : ∀ c w, good c w → calm c w.
Hypothesis good_later : ∀ c w, good c w → later until c.

(** The second attempt succeeds: that of a delay does, once its time has come. *)
Definition succeeds_later : Prop :=
  step_Type step = StepDelay ∧ R step = None ∨ step_Type step ≠ StepDelay ∧ step_returns e good (R step) step.

Lemma not_after_until t c w : good c w → (t ≤ until)%Z → time_after t (c_now c) = false.
Proof. intros [Hc _]%good_later Ht. unfold time_after. apply Z.ltb_ge. unfold Microsecond in Hc. lia. Qed.

Lemma fired_encodable t : ∃ output body, fired_result t = returns output body None ∧
  encodable (VObj output) ∧ encodable body.
Proof. eexists _, _. split; [reflexivity|]. done. Qed.

Lemma twp_second_span prev :
  succeeds_later → waiting_entry until prev → ∀ l w,
  twp good (executeWithSpan e l step prev) (λ r w', w' = w ∧ ∃ output body, r = returns output body (R step) ∧
    encodable (VObj output) ∧ encodable body) w.
Proof.
  intros Hlater [Hst _ (t & Ht & Hle) _ _] l w. unfold executeWithSpan. case_decide as Hd.
  - rewrite Ht. intros c Hc. cbn [handle prog_mbind prog_bind]. rewrite (not_after_until t c w) by done.
    intros c' _. cbn [handle prog_mbind prog_bind]. split; [done|].
    destruct Hlater as [[_ ->]|[Hnd _]]; [apply fired_encodable|by destruct Hd].
  - destruct Hlater as [[Htype _]|[_ Hsucc]]; [by destruct Hd|]. apply Hsucc.
Qed.

(** The second attempt of the step. *)
Lemma twp_second_attempt l row stream pending w :
  succeeds_later → shows id defs (Some ∅) row stream pending w → instance_of did d (row_inst row) →
  i_ID l = id → i_Version (row_inst row) = i_Version l → i_Input l = i_Input (row_inst row) →
  pausing att path (F k) k step until (i_State l) →
  twp good (executeNormalStep e l (NewMachine (d_DSL d)) step)
    (λ r w', r = Ok () ∧ ∃ row' stream', shows id defs (Some ∅) row' stream' pending w' ∧
       locked_by row' = locked_by row ∧ moved id did att d path F k (row_inst row') stream stream') w.
Proof.
  intros Hlater Hw Hr Hlid Hv Hin Hp. unfold executeNormalStep. cbv zeta.
  pose proof Hp as [_ (st & Hst & Hwt)].
  assert (Hprev : step_state (i_State l) (step_ID step) = st) by (unfold step_state; by rewrite Hst).
  rewrite Hprev, (we_attempt _ _ Hwt). change (1 + 1)%Z with 2%Z.
  apply (twp_start e good good_calm id did defs (Some ∅) d _ _ step 2 _ _ l row stream pending w (λ r, ∃ output body,
    r = returns output body (R step) ∧ encodable (VObj output) ∧ encodable body)); [done..| | |].
  { by eapply pausing_encodable. }
  { intros. by apply twp_second_span. }
  intros l1 key m row1 h r w2 Hm Hid1 Hv1 Hr1 Hby Hl1 Hw2 Hh (output & body & -> & Ho & Hb).
  cbn [returns]. calm_read. rewrite <- Hby.
  refine (twp_handleStepSuccess e good good_calm id did defs (Some ∅) att d no_timers Hdef path F R Hscript _ k step 2 l1
    (forget (step_ID step) (Normalize (i_State l))) (delete (step_ID step) m) _ (h_ID h) output body row1 stream pending w2
    Hk _ Hw2 Hr1 Hid1 Hv1 _ _ _ Hh Ho Hb).
  - unfold twice. by rewrite decide_True.
  - exact (proj1 (pausing_Normalize _ _ _ _ _ _ _ Hp)).
  - simpl. by rewrite Hm.
  - rewrite Hl1. unfold forget. rewrite insert_delete_eq. reflexivity.
Qed.

(** [Advance] on the waiting row takes the step again. *)
Lemma twp_Advance_again row stream pending w :
  succeeds_later → shows id defs (Some ∅) row stream pending w → locked_until row = None →
  row_waiting (row_inst row) →
  twp good (Advance e id)
    (λ r w', r = Ok () ∧ ∃ row' stream', shows id defs (Some ∅) row' stream' pending w' ∧
       locked_until row' = None ∧ moved id did att d path F k (row_inst row') stream stream') w.
Proof.
  intros Hlater Hw Hlock (Hr & Hp & Hst & Hcur). set (l := scan_instance id row).
  assert (Hpl : pausing att path (F k) k step until (i_State l)) by by apply pausing_Normalize.
  pose proof Hpl as [Hprog (st & Hget & Hwt)].
  eapply twp_mono; [apply (twp_claimed_any e good good_calm id did defs (Some ∅) d Hdef row stream pending w
    (λ r s t, moved id did att d path F k r stream s ∧ t = Some ∅)); try done|].
  - rewrite Hst. by intros [?|?].
  - intros w1. unfold ensureWaitingTimer. change (i_Status (scan_instance id row)) with (i_Status (row_inst row)).
    rewrite decide_False by (rewrite Hst; naive_solver).
    change (i_CurrentStepID (scan_instance id row)) with (i_CurrentStepID (row_inst row)). rewrite Hcur. fold l.
    unfold step_state. rewrite Hget. simpl. destruct (we_time _ _ Hwt) as (t & -> & Hle).
    intros c Hc. cbn [handle]. rewrite (not_after_until t c w1) by done. done.
  - intros owner until1 w1 Hw1. cbv zeta. fold l. set (row1 := mkRow _ _ _) in Hw1.
    rewrite decide_False.
    2:{ change (rs_CompensationQueue (i_State l)) with (rs_CompensationQueue (forget (step_ID step) (i_State l))).
        rewrite (pr_queue _ _ _ _ _ Hprog). change (i_Status l) with (i_Status (row_inst row)). rewrite Hst. by intros [?|?]. }
    calm_read. eapply twp_lift.
    { unfold StepForCurrent. change (i_CurrentStepID l) with (i_CurrentStepID (row_inst row)). rewrite Hcur.
      change (m_definition (NewMachine (d_DSL d))) with (d_DSL d). rewrite (sr_known _ _ _ _ Hscript _ _ Hk), Hget.
      rewrite decide_True; [reflexivity|]. by rewrite (we_status _ _ Hwt). }
    cbn beta iota zeta. eapply twp_mono; [eapply (twp_second_attempt _ row1 stream pending); try done|].
    intros r w2 [-> (row' & stream' & ? & ? & ?)]. split; [done|]. by exists row', stream', (Some ∅).
  - intros r w2 [-> (row' & stream' & ? & Hw2 & ? & ? & ->)]. split; [done|]. by exists row', stream'.
Qed.

(** The timer service and a consumer take the waiting instance to the end. *)
Lemma twp_resume name row stream tm w :
  succeeds_later → Forall (λ step, step_returns e good (R step) step) (drop (S k) path) →
  shows id defs tm row stream [] w → locked_until row = None → waits [] (row_inst row) stream tm →
  twp good (_ ← poll svc; consume_loop e (length path - k) name) (λ _ w', ∃ row',
    shows id defs (Some ∅) row' [] [] w' ∧ row_done att path F (row_inst row')) w.
Proof.
  intros Hlater Hsucc Hw Hlock [Hrow Harm]. pose proof (lookup_lt_Some _ _ _ Hk) as Hlen.
  eapply twp_then; [eapply (twp_poll good good_calm svc id defs Hsvc until); done|]. intros r w1 [-> Hw1].
  destruct (length path - k) as [|n] eqn:Hn; [lia|].
  apply (twp_consume_S e good good_calm id defs (Some ∅) Hid n name row w1 (λ r, moved id did att d path F k r [])); [done| |].
  - intros pending w2 Hw2. by apply (twp_Advance_again row [] pending).
  - intros row2 stream2 w2 Hw2 Hl2 [(Hlt & Hrow2 & ->)|(Heq & Hdone & ->)].
    + replace n with (length path - S k) by lia.
      apply (twp_consume_rest e good good_calm id did defs (Some ∅) att d no_timers Hdef path F R Hscript Hid (S k) name row2); try done.
      apply Forall_lookup. intros j step' Hj. split; [exact (proj1 (Forall_lookup _ _) Hsucc _ _ Hj)|].
      rewrite lookup_drop in Hj. apply (others_once (S k + j)); [done|lia].
    + assert (n = 0) as -> by lia. simpl. by exists row2.
Qed.
End second.
End waiting.

(** ** From the API to the end *)

(** The timer service polls, then a consumer runs [n] iterations of its loop. *)
Definition poll_and_consume (e : Engine) (svc : Service) `{Externals} `{GoArch} (n : nat) (name : string) : prog () :=
  _ ← poll svc; consume_loop e n name.

(** C7: a workflow that waits runs to its end: a client starts an instance of a workflow with
    a known script (linear or with forks) of which one step has to wait (a delay, or a
    failure with a retry left), the steps before it returning their results.
    When no call to the database or Redis fails, the consumer leaves the instance waiting at
    that step, with a timer persisted for the instance or, if the timer service found it due
    at once, with a task queued for it.  When the time has come, the second attempt succeeds
    (a delay does; a failed step is assumed to) and the later steps return their results, one
    poll of the timer service and as many iterations of a consumer as there are steps left
    complete the instance: the waiting step took two attempts and every other one, in the
    order of the script, and no task, delivery or timer is left. *)
Theorem waiting_workflow_completes `{Externals} `{GoArch} `{PgClock} e svc good1 good2 env1 env2 p did d path F R input
    name1 name2 (w : World DB) k step until :
  (∀ c w, good1 c w → calm c w) → (∀ i w, good1 (env1 i w) w) →
  (∀ c w, good2 c w → calm c w ∧ later until c) → (∀ i w, good2 (env2 i w) w) →
  e_timers e = Some svc → s_enqueue svc = Some Enqueue →
  db_definitions (w_repo w) !! did = Some d → d_TenantID d = tenant_or_default (pr_TenantID p) → did ≠ "" →
  script (d_DSL d) path F R → encodable (VObj (Some input)) →
  path !! k = Some step → Forall (λ step, step_returns e good1 (R step) step) (take k path) →
  step_waits e step until good1 ∨ step_retries e step until good1 → succeeds_later e R step good2 →
  Forall (λ step, step_returns e good2 (R step) step) (drop (S k) path) →
  rd_group (w_redis w) = true → rd_stream (w_redis w) = [] → rd_pending (w_redis w) = [] → db_timers (w_repo w) = ∅ →
  ∃ inst w1 w2 row1 row2,
    exec (submit_and_consume e p did (Some input) (S k) name1) env1 0 w = Done ((202%Z, ReplyInstance inst), w1) ∧
    db_instances (w_repo w1) !! i_ID inst = Some row1 ∧
    i_Status (row_inst row1) = InstanceWaitingTimer ∧ i_CurrentStepID (row_inst row1) = Some (step_ID step) ∧
    (is_Some (db_timers (w_repo w1) !! i_ID inst) ∨ msg_InstanceID <$> rd_stream (w_redis w1) = [Some (i_ID inst)]) ∧
    exec (poll_and_consume e svc (length path - k) name2) env2 0 w1 = Done ((), w2) ∧
    db_instances (w_repo w2) !! i_ID inst = Some row2 ∧
    finished_with (twice (step_ID step)) path (row_inst row2) ∧
    rd_stream (w_redis w2) = [] ∧ rd_pending (w_redis w2) = [] ∧ db_timers (w_repo w2) = ∅.
Proof.
  intros Hgood1 Henv1 Hgood2 Henv2 Htm Hsvc Hdef Hten Hdid Hscript Hin Hk Hbefore Hstep Hlater Hafter Hg Hs Hp Htimers.
  set (defs := db_definitions (w_repo w)) in *.
  assert (Hfirst : twp good1 (submit_and_consume e p did (Some input) (S k) name1) (λ r w', ∃ inst, r = (202%Z, ReplyInstance inst) ∧
    (i_ID inst ≠ "" ∧ i_ID inst ≠ "<nil>") ∧ ∃ row stream tm, shows (i_ID inst) defs tm row stream [] w' ∧ locked_until row = None ∧
    waits (i_ID inst) did d path F k step until [] (row_inst row) stream tm) w).
  { unfold submit_and_consume. eapply twp_then.
    { apply (twp_createInstance good1 (Some ∅) p did d input w Hgood1); try done. apply Hin. }
    intros r w1 (l & -> & Hl & Hw1). fold defs in Hw1.
    assert (Hlid : i_ID l ≠ "" ∧ i_ID l ≠ "<nil>") by (split; apply Hl). eapply twp_then.
    { apply (twp_consume_to_wait e svc Htm Hsvc (i_ID l) did defs d Hlid Hdef path F R Hscript k step until Hk good1 Hgood1)
        with (row := created_row l (Some input)); try done.
      apply created_at; [exact (sr_forks _ _ _ _ Hscript)|done| |done]. by rewrite Hten, tenant_or_default_idemp. }
    intros [] w2 (row' & stream & tm & Hw2 & Hlock & Hwt). exists l. split; [done|]. split; [done|]. by exists row', stream, tm. }
  destruct (twp_exec good1 _ _ env1 0 w Hfirst Henv1) as (r & w1 & Hexec1 & inst & -> & Hiid & row1 & stream & tm & Hw1 & Hlock & Hwt).
  assert (Hsecond := twp_resume e svc Hsvc (i_ID inst) did defs d Hiid Hdef path F R Hscript k step until Hk good2
    (λ c w Hc, proj1 (Hgood2 c w Hc)) (λ c w Hc, proj2 (Hgood2 c w Hc)) name2 row1 stream tm w1 Hlater Hafter Hw1 Hlock Hwt).
  destruct (twp_exec good2 _ _ env2 0 w1 Hsecond Henv2) as ([] & w2 & Hexec2 & row2 & Hw2 & Hdone).
  exists inst, w1, w2, row1, row2. destruct Hw1 as (_ & Hrow1 & _ & Hst1 & _ & Ht1). destruct Hw2 as (_ & Hrow2 & _ & Hst2 & Hpd2 & Ht2).
  destruct Hwt as [(_ & _ & Hstatus & Hcur) Harm].
  split_and!; try done; [|by eapply row_done_finished|by apply fmap_nil_inv in Hst2].
  destruct Harm as [(_ & id' & t & -> & _)|(-> & ->)]; [left|by right].
  simpl in Ht1. rewrite Ht1. unfold one_timer. rewrite lookup_singleton_eq. by eexists.
Qed.

(** ** An example: a delay of five seconds between two steps *)
#[local] Existing Instance toy_externals.

Definition slow_dsl : DefinitionDSL :=
  mkDSL "slow" 1 [mkStep "charge" StepTransform (obj_map [("expr", VStr "true")]) None "";
                  mkStep "cool" StepDelay (obj_map [("duration", VStr "5s")]) None "";
                  mkStep "ship" StepTransform (obj_map [("expr", VStr "false")]) None ""].
Definition slow : Definition_ := mkDefinition "d1" "acme" "slow" 1 slow_dsl 10 10.
Definition slow_world : World DB := mkWorld (mkDB {["d1" := slow]} ∅ ∅ ∅) (mkRedis 0 true [] [] ∅).
Definition cool : Step := mkStep "cool" StepDelay (obj_map [("duration", VStr "5s")]) None "".
Definition slow_until : time := (100 + 5 * Second)%Z.

(** The clock stands at 100 ns, later it is past the fire time. *)
Definition at_100 (c : choice) (w : World DB) : Prop := calm c w ∧ c_now c = 100%Z.
Definition at_end (c : choice) (w : World DB) : Prop := calm c w ∧ later slow_until c.
Definition late_env (i : nat) (w : World DB) : choice :=
  mkChoice NoFault (mkTick 100 100 (fresh (used_ids w)) [] [] []) (6 * Second) "key" 1 [] None
    (Err (ErrText "")) (Err (ErrText "")).

Lemma late_env_good i w : at_end (late_env i w) w.
Proof. split; [exact (calm_env_calm i w)|]. split; [|done]. unfold slow_until. simpl. unfold Second, Millisecond, Microsecond. lia. Qed.

Lemma cool_waits : step_waits trade_engine cool slow_until at_100.
Proof.
  intros l w Hrun. unfold Execute. cbn [step_Type cool]. rewrite !decide_False by done. rewrite decide_True by done.
  unfold executeDelay, unless_done. intros c [(_ & Hctx & _) _]. cbn [handle prog_mbind prog_bind]. rewrite Hctx.
  assert (Hw : match gm_get (rs_Steps (i_State l)) (step_ID cool) with
    | Some current => bool_decide (ss_Status current = StepWaitingTimer) | None => false end = false).
  { unfold step_state in Hrun. destruct (gm_get _ _) as [st|]; [|done]. simpl in Hrun. rewrite Hrun. done. }
  cbv zeta. rewrite Hw.
  assert (parse_duration (default "" (firstString (step_Config cool) ["duration"; "for"])) = Ok (5 * Second)%Z) as ->
    by (vm_compute; reflexivity).
  intros c' [_ Hnow]. cbn [handle prog_mbind prog_bind]. rewrite Hnow. split; [done|].
  eexists _, _, _. split; [reflexivity|]. repeat split; try done; vm_compute; discriminate.
Qed.

Lemma waiting_workflow_completes_witness :
  ∃ inst w1 w2 row1 row2,
    exec (submit_and_consume trade_engine (mkPrincipal "acme" roleOperator) "d1" (Some ∅) 2 "a") calm_env 0 slow_world =
      Done ((202%Z, ReplyInstance inst), w1) ∧
    db_instances (w_repo w1) !! i_ID inst = Some row1 ∧
    i_Status (row_inst row1) = InstanceWaitingTimer ∧ i_CurrentStepID (row_inst row1) = Some "cool" ∧
    (is_Some (db_timers (w_repo w1) !! i_ID inst) ∨ msg_InstanceID <$> rd_stream (w_redis w1) = [Some (i_ID inst)]) ∧
    exec (poll_and_consume trade_engine (NewTimer (Some Enqueue) (mkTimerConfig "" 0 0)) 2 "b") late_env 0 w1 = Done ((), w2) ∧
    db_instances (w_repo w2) !! i_ID inst = Some row2 ∧ finished_with (twice "cool") (path slow) (row_inst row2) ∧
    rd_stream (w_redis w2) = [] ∧ rd_pending (w_redis w2) = [] ∧ db_timers (w_repo w2) = ∅.
Proof.
  apply (waiting_workflow_completes trade_engine (NewTimer (Some Enqueue) (mkTimerConfig "" 0 0)) at_100 at_end calm_env late_env
    (mkPrincipal "acme" roleOperator) "d1" slow (path slow) (λ _, ∅) (λ _, None) ∅ "a" "b" slow_world 1 cool slow_until); try done.
  - by intros c w [].
  - intros i w. split; [apply calm_env_calm|done].
  - exact late_env_good.
  - apply script_path; [apply (bool_decide_unpack _); vm_compute; exact I|].
    vm_compute. repeat constructor; discriminate.
  - repeat constructor. intros l w. apply (twp_weaken calm); [by intros ? ? []|]. apply transform_succeeds. auto.
  - left. exact cool_waits.
  - by left.
  - repeat constructor. intros l w. apply (twp_weaken calm); [by intros ? ? []|]. apply transform_succeeds. auto.
Defined.
