(* ===== verification/Structured.v ===== *)
(** * Structured workflows run to completion

    In a validated workflow whose forks are structured (with the answers of the conditions,
    each branch is a chain of steps up to the join, the branches are disjoint, and the normal
    steps refer to normal steps only) the schedule exists and is orderly: the normal path
    follows the graph that the validator checks for cycles, and each fork adds its chains.  With [engine_follows_schedule]'s run, the engine completes every instance
    of such a workflow. *)

From stdpp Require Import relations.
From S2P Require Import Prelude GoNum GoString GoTime Workflow Accessors Machine BranchSteps MachineFacts.
From S2P Require Import MachineProps Json Store Externals Effects Timer Worker Engine Validator ValidatorProps.
From S2P Require Import Lifecycle Acyclic Api Calm ScriptRun LinearRun ScheduleRun.

(** ** Edges along the normal path *)

Lemma consecutive_edge pre a b post edges :
  has_edge (add_normal_edges (pre ++ a :: b :: post) edges) (step_ID a) (step_ID b).
Proof.
  revert edges. induction pre as [|x pre IH]; intros edges; [|apply IH].
  cbn [app add_normal_edges]. apply (add_normal_edges_old (b :: post)), append_edges_new. set_solver.
Qed.

Lemma later_edges pre a mid b post :
  tc (has_edge (add_normal_edges (pre ++ a :: mid ++ b :: post) ∅)) (step_ID a) (step_ID b).
Proof.
  revert pre a. induction mid as [|x mid IH]; intros pre a; [apply tc_once, consecutive_edge|].
  cbn [app]. eapply tc_l; [apply consecutive_edge|].
  specialize (IH (pre ++ [a]) x). by rewrite <- app_assoc in IH.
Qed.

Lemma tc_weaken {A} (R R' : relation A) x y : (∀ x y, R x y → R' x y) → tc R x y → tc R' x y.
Proof. intros HR. induction 1 as [x y Hxy|x y z Hxy _ IH]; [by apply tc_once, HR|]. eapply tc_l; [by apply HR|done]. Qed.

(** Where the first join after a step is. *)
Lemma firstJoinAfter_found steps id :
  firstJoinAfter_loop steps true id ≠ "" →
  ∃ mid j post, steps = mid ++ j :: post ∧ step_ID j = firstJoinAfter_loop steps true id.
Proof.
  induction steps as [|s steps IH]; [done|]. cbn [firstJoinAfter_loop]. case_decide as Hid.
  - intros (mid & j & post & -> & Hj)%IH. by exists (s :: mid), j, post.
  - simpl. case_bool_decide; [|intros (mid & j & post & -> & Hj)%IH; by exists (s :: mid), j, post].
    intros _. by exists [], s, steps.
Qed.

Lemma firstJoinAfter_after steps id :
  firstJoinAfter_loop steps false id ≠ "" →
  ∃ pre f mid j post, steps = pre ++ f :: mid ++ j :: post ∧ step_ID f = id ∧
    step_ID j = firstJoinAfter_loop steps false id.
Proof.
  induction steps as [|s steps IH]; [done|]. cbn [firstJoinAfter_loop andb]. case_decide as Hid.
  - intros (mid & j & post & -> & Hj)%firstJoinAfter_found. by exists [], s, mid, j, post.
  - intros (pre & f & mid & j & post & -> & Hf & Hj)%IH. by exists (s :: pre), f, mid, j, post.
Qed.

Section structured.
Context (d : DefinitionDSL) (R : Step → option string) (chains : Step → list (list string)).
#[local] Abbreviation m := (NewMachine d).
#[local] Abbreviation follows := (edge (graph d)).

(** The first steps of chains. *)
Definition heads (cs : list (list string)) : list string := (λ c, default "" (head c)) <$> cs.

Definition normal_id (x : string) : Prop := x ∈ step_ID <$> m_normal m.

(** What follows a step inside of a branch. *)
Definition next_of (step : Step) : string := successor step (answer R step).

(** The results name references. *)
Definition plausible : Prop :=
  ∀ step, step ∈ dsl_Steps d → step_Type step ≠ StepFork → names_reference step (answer R step).

(** Structured forks; [chains fork] are the steps that run in the branches of a fork. *)
Record structured : Prop := {
  sd_refs step ref : step ∈ m_normal m → step_Type step ≠ StepFork → ref ∈ explicitRefs step → normal_id ref;
  sd_join fork : fork ∈ m_normal m → step_Type fork = StepFork → normal_id (forkJoinID d fork);
  sd_chains fork : fork ∈ m_normal m → step_Type fork = StepFork →
    configStringSlice (step_Config fork) "branches" = Some (heads (chains fork)) ∧
    Forall (λ c, c ≠ [] ∧ branch_path next_of d (forkJoinID d fork) c) (chains fork);
  sd_own fork : fork ∈ m_normal m → step_Type fork = StepFork → NoDup (concat (chains fork));
  sd_apart f f' x : f ∈ m_normal m → f' ∈ m_normal m → step_Type f = StepFork → step_Type f' = StepFork →
    x ∈ concat (chains f) → x ∈ concat (chains f') → f = f';
}.

(** Every fork among some executed steps is followed by all steps of its branches, branch by
    branch, and then by its join. *)
Definition fork_blocks (xs : list string) : Prop :=
  ∀ fork, fork ∈ m_normal m → step_Type fork = StepFork → step_ID fork ∈ xs →
    ∃ pre post, xs = pre ++ step_ID fork :: concat (chains fork) ++ forkJoinID d fork :: post.

(** ** Executions of the machine, without fuel *)
Inductive sched : gmap string ForkState → Step → list (Step * gmap string ForkState) → gmap string ForkState → Prop :=
| sched_end forks step forks' :
    next_after [] m step forks (answer R step) = Done (forks', None) → sched forks step [(step, forks)] forks'
| sched_next forks step forks' next l last :
    next_after [] m step forks (answer R step) = Done (forks', Some next) → sched forks' next l last →
    sched forks step ((step, forks) :: l) last.

Lemma sched_schedule forks step l last fuel :
  sched forks step l last → length l ≤ fuel → schedule_from d R fuel forks step = Some (l, last).
Proof.
  intros Hs. revert fuel. induction Hs as [forks step forks' Hn|forks step forks' next l last Hn _ IH]; intros fuel Hl;
    (destruct fuel as [|fuel]; [simpl in Hl; lia|]); cbn [schedule_from]; rewrite Hn; [done|].
  rewrite IH by (simpl in Hl; lia). done.
Qed.

(** ** One step *)

Definition quiet (forks : gmap string ForkState) : Prop := ∀ k f, forks !! k = Some f → fs_Status f ≠ "running".

Lemma quiet_insert forks k f : quiet forks → fs_Status f ≠ "running" → quiet (<[k := f]> forks).
Proof. intros Hq Hf k' f'. rewrite lookup_insert. case_decide; [by intros [= <-]|apply Hq]. Qed.

(** The successor of a step is one of the references that the machine collects. *)
Lemma next_of_branchRefs step :
  plausible → step ∈ dsl_Steps d → step_Type step ≠ StepFork → next_of step ≠ "" → next_of step ∈ branchRefs step.
Proof.
  intros HR Hin Ht. unfold next_of, successor, branchRefs. case_decide as Hr.
  - intros Hne. rewrite (decide_True (P := configString (step_Config step) "next" ≠ "")) by done. set_solver.
  - intros _. simpl in *. destruct (R step) as [n|] eqn:HRn; [|done]. simpl in *.
    assert (Hn : n ∈ explicitRefs step).
    { by apply (HR step Hin Ht (mkResult None VNil (Some n) None) n); [unfold answer; rewrite HRn|]. }
    revert Hn. unfold explicitRefs. rewrite !ref_of_configString, (decide_False (P := step_Type step = StepFork)) by done. done.
Qed.

(** The steps of a chain are reached from its first one. *)
Lemma chain_reach j id chain x :
  plausible → branch_path next_of d j (id :: chain) → x ∈ id :: chain → branch_reach d j id x ∧ is_Some (StepByID d x).
Proof.
  intros HR. revert id. induction chain as [|id' chain IH]; intros id Hc.
  - intros ->%list_elem_of_singleton. destruct Hc as (? & ? & (s & Hs & _) & _). split; [by apply reach_start|by exists s].
  - pose proof Hc as (Hne & Hnj & (s & Hs & Ht & Hn) & Hc').
    intros [->|Hx]%elem_of_cons; [split; [by apply reach_start|by exists s]|].
    destruct (IH id' Hc' Hx) as [Hr ?]. split; [|done]. apply branch_reach_trans with id'; [|done|done].
    exists s. split; [done|]. destruct Hc' as (? & _). pose proof Hs as [Hin _]%StepByID_Some. rewrite <- Hn.
    apply next_of_branchRefs; [done..|congruence].
Qed.

(** A fork does not read its result. *)
Lemma next_after_fork o step forks r r' :
  step_Type step = StepFork → next_after o m step forks r = next_after o m step forks r'.
Proof. intros Ht. unfold next_after, NextAfter. by rewrite !decide_True. Qed.

Lemma next_after_NextAfter o step forks r s' next :
  NextAfter o m step (fork_state forks) r = Done (s', next) → next_after o m step forks r = Done (forks_of s', next).
Proof. unfold next_after. by intros ->. Qed.

Lemma one_fork_quiet forks : quiet forks → one_fork forks.
Proof.
  intros Hq. unfold one_fork. replace (running_forks forks) with (∅ : gmap string ForkState); [rewrite map_size_empty; lia|].
  symmetry. apply map_empty. intros k. apply map_lookup_filter_None. right. intros f Hk Hr. by apply (Hq k f).
Qed.

Lemma one_fork_insert base fid f : quiet base → one_fork (<[fid := f]> base).
Proof.
  intros Hq. unfold one_fork. assert (Hsub : running_forks (<[fid := f]> base) ⊆ {[fid := f]}).
  { apply map_subseteq_spec. intros k g [Hk Hr]%map_lookup_filter_Some. simpl in Hr.
    rewrite lookup_insert in Hk. case_decide as Hid; [|by destruct (Hq k g)].
    injection Hk as <-. subst. apply lookup_singleton_eq. }
  apply subseteq_dom in Hsub. apply subseteq_size in Hsub. by rewrite !size_dom, map_size_singleton in Hsub.
Qed.

(** ** Inside of a fork *)

Lemma in_progress_map base fid j bs :
  quiet base → in_progress (fork_state (<[fid := mkFork "running" j bs]> base)) fid j bs.
Proof.
  intros Hq. eexists. split_and!; [done|done|apply lookup_insert_eq|].
  intros k f Hk Hne. rewrite lookup_insert_ne in Hk by done. by apply (Hq k f).
Qed.

Definition pending (ids : list string) : list BranchState := (λ id, mkBranch id id "pending" [] "") <$> ids.

Section one_branch.
Context (base : gmap string ForkState) (fid j : string) (before : list BranchState) (b : BranchState).
Context (after : list BranchState) (step : Step).
Hypothesis Hq : quiet base.
Hypothesis Hbefore : Forall (branch_is "completed") before.
Hypothesis Hb : branch_is "running" b.
Hypothesis Hid : step_ID step = bs_CurrentStepID b.
Hypothesis Ht : step_Type step ≠ StepFork.

Lemma next_in_branch nx :
  next_of step = nx → nx ≠ "" → nx ≠ j →
  ∃ b', branch_is "running" b' ∧ bs_CurrentStepID b' = nx ∧
    next_after [] m step (<[fid := mkFork "running" j (before ++ b :: after)]> base) (answer R step) =
      Done (<[fid := mkFork "running" j (before ++ b' :: after)]> base, StepByID d nx).
Proof.
  intros Hnx Hne Hnj.
  set (s := fork_state (<[fid := mkFork "running" j (before ++ b :: after)]> base)).
  assert (Hp : in_progress s fid j (before ++ b :: after)) by by apply in_progress_map.
  destruct (branch_step_jump m s fid j before b after step (answer R step) Hp nx Hnx Hne Hnj) as (fm & comp & Hfm & Heq & _).
  injection Hfm as <-. rewrite insert_insert_eq in Heq.
  rewrite <- (NextAfter_branch [] m s fid j before b after step (answer R step)) in Heq by done. apply next_after_NextAfter in Heq.
  eexists. split; [|split; [|exact Heq]]; done.
Qed.

Lemma next_branch_done :
  next_of step = "" ∨ next_of step = j →
  ∃ b', branch_is "completed" b' ∧
    match after with
    | [] => next_after [] m step (<[fid := mkFork "running" j (before ++ [b])]> base) (answer R step) =
        Done (<[fid := mkFork "completed" j (before ++ [b'])]> base, StepByID d j)
    | b2 :: after2 => branch_is "pending" b2 →
        next_after [] m step (<[fid := mkFork "running" j (before ++ b :: after)]> base) (answer R step) =
          Done (<[fid := mkFork "running" j ((before ++ [b']) ++ branch_start b2 :: after2)]> base,
                StepByID d (bs_CurrentStepID (branch_start b2)))
    end.
Proof.
  intros Hnext.
  set (s := fork_state (<[fid := mkFork "running" j (before ++ b :: after)]> base)).
  assert (Hp : in_progress s fid j (before ++ b :: after)) by by apply in_progress_map.
  destruct (branch_step_finish m s fid j before b after step (answer R step) Hp Hbefore Hnext) as (fm & b' & Hfm & Hb' & Hfin).
  injection Hfm as <-. exists b'. split; [done|].
  destruct after as [|b2 after2]; [|intros Hp2].
  - rewrite insert_insert_eq, <- (NextAfter_branch [] m s fid j before b [] step (answer R step)) in Hfin by done.
    apply next_after_NextAfter in Hfin. exact Hfin.
  - destruct (Hfin Hp2) as [Heq _].
    rewrite insert_insert_eq, <- (NextAfter_branch [] m s fid j before b (b2 :: after2) step (answer R step)) in Heq by done.
    apply next_after_NextAfter in Heq. exact Heq.
Qed.
End one_branch.

(** From a step of a branch to the join: the rest of its chain and the other chains. *)
Lemma sched_chains base fid j jstep :
  quiet base → StepByID d j = Some jstep →
  ∀ rest chain id before b step,
    branch_path next_of d j (id :: chain) → Forall (λ c, c ≠ [] ∧ branch_path next_of d j c) rest →
    StepByID d id = Some step →
    Forall (branch_is "completed") before → branch_is "running" b → bs_CurrentStepID b = id →
    let forks := <[fid := mkFork "running" j (before ++ b :: pending (heads rest))]> base in
    ∃ l bs, (∀ l' last, sched (<[fid := mkFork "completed" j bs]> base) jstep l' last → sched forks step (l ++ l') last) ∧
      step_ID ∘ fst <$> l = (id :: chain) ++ concat rest ∧ Forall (λ sf, one_fork sf.2) l.
Proof.
  intros Hq Hj. induction rest as [|c2 rest IHrest]; intros chain; induction chain as [|id' chain IHchain];
    intros id before b step Hchain Hrest Hstep Hbefore Hb Hcur; cbn zeta;
    destruct (chain_head _ _ _ _ _ _ Hchain Hstep) as (Hsid & Ht & Hnext);
    (assert (Hone : ∀ bs, one_fork (<[fid := mkFork "running" j bs]> base)) by (intros bs; by apply one_fork_insert)).
  - destruct (next_branch_done base fid j before b [] step) as (b' & Hb' & Heq); try done; [congruence|].
    exists [(step, <[fid := mkFork "running" j (before ++ [b])]> base)], (before ++ [b']). split_and!.
    + intros l' last Hl'. by eapply sched_next; [rewrite Heq, Hj|].
    + simpl. by rewrite Hsid.
    + constructor; [apply Hone|constructor].
  - destruct (chain_next _ _ _ _ _ _ Hchain) as (Hne & Hnj & stp & Hstp & Hc).
    destruct (next_in_branch base fid j before b (pending []) step Hq Hbefore Hb ltac:(congruence) Ht id' Hnext Hne Hnj)
      as (b' & Hb' & Hcur' & Heq).
    destruct (IHchain id' before b' stp Hc Hrest Hstp) as (l & bs & Hl & Hids & Hl1); try done.
    exists ((step, <[fid := mkFork "running" j (before ++ b :: pending [])]> base) :: l), bs. split_and!.
    + intros l' last Hl'. cbn [app]. eapply sched_next; [rewrite Heq, Hstp; done|]. by apply Hl.
    + rewrite fmap_cons, Hids. simpl. by rewrite Hsid.
    + constructor; [apply Hone|done].
  - apply Forall_cons in Hrest as [[Hc2 Hchain2] Hrest]. destruct c2 as [|h t]; [done|].
    destruct (chain_start _ _ _ _ _ Hchain2) as (Hh & stp & Hstp).
    destruct (next_branch_done base fid j before b (pending (h :: heads rest)) step)
      as (b' & Hb' & Heq); try done; [congruence|].
    specialize (Heq eq_refl). unfold branch_start in Heq. simpl in Heq. rewrite decide_False in Heq by done.
    destruct (IHrest t h (before ++ [b']) (mkBranch h h "running" [] "") stp Hchain2 Hrest Hstp) as (l & bs & Hl & Hids & Hl1); try done.
    { apply Forall_app. split; [done|by constructor]. }
    eexists ((step, _) :: l), bs. split_and!.
    + intros l' last Hl'. cbn [app]. eapply sched_next; [rewrite <- Hstp; exact Heq|]. by apply Hl.
    + rewrite fmap_cons, Hids. simpl. by rewrite Hsid.
    + constructor; [apply Hone|done].
  - destruct (chain_next _ _ _ _ _ _ Hchain) as (Hne & Hnj & stp & Hstp & Hc).
    destruct (next_in_branch base fid j before b (pending (heads (c2 :: rest))) step
      Hq Hbefore Hb ltac:(congruence) Ht id' Hnext Hne Hnj) as (b' & Hb' & Hcur' & Heq).
    destruct (IHchain id' before b' stp Hc Hrest Hstp) as (l & bs & Hl & Hids & Hl1); try done.
    eexists ((step, _) :: l), bs. split_and!.
    + intros l' last Hl'. cbn [app]. eapply sched_next; [rewrite <- Hstp; exact Heq|]. by apply Hl.
    + rewrite fmap_cons, Hids. simpl. by rewrite Hsid.
    + constructor; [apply Hone|done].
Qed.

(** ** On the normal path *)

Section path.
Hypothesis Hwf : well_formed d.
Hypothesis Hd : structured.
Hypothesis HR : plausible.

Lemma normal_step_id step : step ∈ m_normal m → normal_id (step_ID step).
Proof. apply list_elem_of_fmap_2. Qed.

Lemma normal_steps_eq : m_normal m = normal_steps d.
Proof. symmetry. apply validator_normal_path. Qed.

Lemma normal_step_in step : step ∈ m_normal m → step ∈ dsl_Steps d.
Proof. by intros [_ ?]%list_elem_of_filter. Qed.

(** The step with an identifier of the normal path is on it. *)
Lemma normal_known id step : normal_id id → StepByID d id = Some step → step ∈ m_normal m ∧ step_ID step = id.
Proof.
  intros (s & Heq & Hs)%list_elem_of_fmap (Hin & Hid)%StepByID_Some. split; [|done].
  pose proof (wf_unique _ Hwf) as Hnd.
  assert (step = s) as ->; [|done].
  pose proof (StepByID_unique d step Hnd Hin) as H1. pose proof (StepByID_unique d s Hnd (normal_step_in s Hs)) as H2.
  congruence.
Qed.

Lemma normal_step_eq step step' : step ∈ m_normal m → step' ∈ m_normal m → step_ID step = step_ID step' → step = step'.
Proof.
  intros Hs%normal_step_in Hs'%normal_step_in Heq. pose proof (wf_unique _ Hwf) as Hnd.
  pose proof (StepByID_unique d step Hnd Hs) as H1. pose proof (StepByID_unique d step' Hnd Hs') as H2. congruence.
Qed.

Lemma reference_follows step id next :
  step ∈ m_normal m → step_Type step ≠ StepFork → id ∈ explicitRefs step → StepByID d id = Some next →
  next ∈ m_normal m ∧ follows (step_ID step) (step_ID next).
Proof.
  intros Hs Ht Hid Hnext. destruct (normal_known id next (sd_refs Hd step id Hs Ht Hid) Hnext) as [Hn <-].
  split; [done|]. apply graph_edge, add_normal_edges_refs; [|done]. by rewrite <- normal_steps_eq.
Qed.

Lemma join_fork_quiet id forks : quiet forks → quiet (join_fork id <$> forks).
Proof.
  intros Hq k f. rewrite lookup_fmap. intros (f0 & Hf & ->)%fmap_Some. unfold join_fork.
  case_decide; [done|]. by apply (Hq k).
Qed.

(** A step outside of the forks. *)
Lemma next_on_path step forks :
  step ∈ m_normal m → step_Type step ≠ StepFork → quiet forks →
  ∃ forks' next, next_after [] m step forks (answer R step) = Done (forks', next) ∧ quiet forks' ∧
    (∀ k, forks !! k = None → forks' !! k = None) ∧
    ∀ y, next = Some y → y ∈ m_normal m ∧ follows (step_ID step) (step_ID y).
Proof.
  intros Hs Ht Hq. unfold next_after, NextAfter. cbv zeta. rewrite decide_False by done.
  change (rs_Forks (Normalize (fork_state forks))) with (Some forks). cbv iota.
  assert (branchForCurrentStep [] (Normalize (fork_state forks)) (step_ID step) = None) as ->.
  { apply branchForCurrentStep_None. intros k f b Hk Hr _. by destruct (Hq k f). }
  set (next := if decide (resultNextStepID (answer R step) ≠ "") then _ else _).
  assert (Hnext : ∀ y, next = Some y → y ∈ m_normal m ∧ follows (step_ID step) (step_ID y)).
  { intros y. unfold next. case_decide as Hr.
    - apply reference_follows; [done..|]. simpl in *. destruct (R step) as [n|] eqn:HRn; [|done].
      by apply (HR step (normal_step_in step Hs) Ht (mkResult None VNil (Some n) None) n); [unfold answer; rewrite HRn|].
    - case_decide as Hc.
      + apply reference_follows; [done..|]. unfold explicitRefs. rewrite ref_of_configString, decide_True by done. set_solver.
      + case_decide; [done|]. intros Hn. split; [by eapply next_normal_elem|].
        apply graph_edge, add_normal_edges_next. by rewrite <- normal_steps_eq. }
  destruct (decide (step_Type step = StepJoin)).
  - rewrite markJoined_spec. do 2 eexists. split; [reflexivity|]. split_and!; [by apply join_fork_quiet| |done].
    intros k Hk. unfold forks_of. simpl. by rewrite lookup_fmap, Hk.
  - by do 2 eexists.
Qed.

(** The join of a fork comes after it. *)
Lemma join_follows fork :
  fork ∈ m_normal m → step_Type fork = StepFork → tc follows (step_ID fork) (forkJoinID d fork).
Proof.
  intros Hf Ht. destruct (wf_fork _ Hwf fork (normal_step_in _ Hf) Ht) as [Hne _].
  pose proof (sd_join Hd fork Hf Ht) as Hj. unfold forkJoinID in *. case_decide as Hc.
  - unfold firstJoinAfter in *. destruct (firstJoinAfter_after _ _ Hne) as (pre & f & mid & j & post & Hsteps & Hfid & Hjid).
    pose proof (wf_unique _ Hwf) as Hnd.
    assert (Hin : ∀ s, normal_id (step_ID s) → s ∈ dsl_Steps d → s ∈ m_normal m).
    { intros s Hn Hs. by apply (normal_known (step_ID s)), StepByID_unique. }
    assert (f ∈ m_normal m) as [Hpf _]%list_elem_of_filter.
    { apply Hin; [rewrite Hfid; by apply list_elem_of_fmap_2|rewrite Hsteps; set_solver]. }
    assert (j ∈ m_normal m) as [Hpj _]%list_elem_of_filter.
    { apply Hin; [by rewrite Hjid|rewrite Hsteps; set_solver]. }
    rewrite <- Hjid, <- Hfid. eapply tc_weaken; [intros x y; apply graph_edge|].
    rewrite <- normal_steps_eq. unfold NewMachine at 1. cbn [m_normal]. rewrite Hsteps.
    rewrite filter_app, filter_cons_True, filter_app, filter_cons_True by done. apply later_edges.
  - apply tc_once, graph_edge, add_normal_edges_refs; [by rewrite <- normal_steps_eq|].
    unfold explicitRefs. rewrite Ht. rewrite !decide_False, decide_True by done.
    rewrite !ref_of_configString, (decide_True (P := configString (step_Config fork) "join" ≠ "")) by done. set_solver.
Qed.

Lemma chain_not_normal fork x :
  fork ∈ m_normal m → step_Type fork = StepFork → x ∈ concat (chains fork) → ¬ normal_id x.
Proof.
  intros Hf Ht (c & Hc%list_elem_of_In & Hx%list_elem_of_In)%list_elem_of_In%in_concat (s & Heq & [[_ Hno] _]%list_elem_of_filter)%list_elem_of_fmap.
  destruct (sd_chains Hd fork Hf Ht) as [Hbr Hall]. apply (proj1 (Forall_forall _ _)) with (x := c) in Hall as [Hne Hch]; [|done].
  destruct c as [|id c]; [done|]. destruct (chain_reach _ _ _ _ HR Hch Hx) as [Hr Hk].
  apply Hno. rewrite <- Heq. apply elem_of_collectForkBranchSteps. split; [done|].
  exists fork. split; [by apply normal_step_in|]. split; [done|]. do 2 eexists. split; [exact Hbr|]. split; [|exact Hr].
  apply list_elem_of_fmap. by exists (id :: c).
Qed.

(** What can run from the normal step [s] on: the normal steps after it and the branches of
    their forks. *)
Definition ahead (s x : string) : Prop :=
  (normal_id x ∧ rtc follows s x) ∨
  ∃ fork, fork ∈ m_normal m ∧ step_Type fork = StepFork ∧ rtc follows s (step_ID fork) ∧ x ∈ concat (chains fork).

Lemma ahead_later s s' x : tc follows s s' → ahead s' x → ahead s x.
Proof.
  intros Hs%tc_rtc [[Hn Hx]|(f & Hf & Ht & Hx & Hin)]; [left; split; [done|by etrans]|].
  right. exists f. split_and!; try done. by etrans.
Qed.

Lemma no_cycle s s' : tc follows s s' → ¬ rtc follows s' s.
Proof. intros Hs Hs'. apply (wf_acyclic _ Hwf s). by eapply tc_rtc_r. Qed.

(** The normal step itself does not come again. *)
Lemma not_ahead step s' : step ∈ m_normal m → tc follows (step_ID step) s' → ¬ ahead s' (step_ID step).
Proof.
  intros Hs Hlt [[_ Hx]|(f & Hf & Ht & _ & Hin)]; [by eapply no_cycle|].
  apply (chain_not_normal f _ Hf Ht Hin). by apply normal_step_id.
Qed.

(** An orderly execution from [step] on. *)
Definition runs (forks : gmap string ForkState) (step : Step) : Prop :=
  ∃ l last, sched forks step l last ∧ orderly l ∧ (∀ x, x ∈ step_ID ∘ fst <$> l → ahead (step_ID step) x) ∧
    fork_blocks (step_ID ∘ fst <$> l).

Lemma sched_head forks step l last : sched forks step l last → ∃ l', l = (step, forks) :: l'.
Proof. destruct 1; by eexists. Qed.

Definition clean (forks : gmap string ForkState) (s : string) : Prop :=
  quiet forks ∧ ∀ fork, fork ∈ m_normal m → rtc follows s (step_ID fork) → forks !! step_ID fork = None.

(** An execution of [pre] that goes on with the normal step [next]. *)
Lemma runs_app forks forks' step next pre :
  step ∈ m_normal m → tc follows (step_ID step) (step_ID next) → runs forks' next →
  (∀ l last, sched forks' next l last → sched forks step (pre ++ l) last) →
  NoDup (step_ID ∘ fst <$> pre) → Forall (λ sf, one_fork sf.2) pre →
  (∀ x, x ∈ step_ID ∘ fst <$> pre → ahead (step_ID step) x ∧ ¬ ahead (step_ID next) x) →
  (∀ fork, fork ∈ m_normal m → step_Type fork = StepFork → step_ID fork ∈ step_ID ∘ fst <$> pre →
     step_ID ∘ fst <$> pre = step_ID fork :: concat (chains fork) ∧ step_ID next = forkJoinID d fork) →
  runs forks step.
Proof.
  intros Hs Hlt (l & last & Hl & [Hnd Hone] & Hin & Hbl) Hpre Hnd' Hone' Hin' Hfork. exists (pre ++ l), last. split_and!.
  - by apply Hpre.
  - split; [|by apply Forall_app]. rewrite fmap_app. apply NoDup_app. split_and!; [done| |done].
    intros x Hx Hx'. destruct (Hin' x Hx) as [_ Hno]. by apply Hno, Hin.
  - intros x. rewrite fmap_app, elem_of_app. intros [Hx|Hx]; [by apply Hin'|]. eapply ahead_later; [done|by apply Hin].
  - intros fork Hf Ht. rewrite fmap_app, elem_of_app. intros [Hx|Hx].
    + destruct (Hfork fork Hf Ht Hx) as [-> Hj]. destruct (sched_head _ _ _ _ Hl) as [l' ->].
      exists [], (step_ID ∘ fst <$> l'). by rewrite fmap_cons, <- Hj.
    + destruct (Hbl fork Hf Ht Hx) as (pre' & post & ->). exists ((step_ID ∘ fst <$> pre) ++ pre'), post.
      by rewrite <- app_assoc.
Qed.

Lemma runs_fork forks fork :
  fork ∈ m_normal m → step_Type fork = StepFork → clean forks (step_ID fork) →
  (∀ jstep forks', StepByID d (forkJoinID d fork) = Some jstep → clean forks' (step_ID jstep) → jstep ∈ m_normal m →
     tc follows (step_ID fork) (step_ID jstep) → runs forks' jstep) →
  runs forks fork.
Proof.
  intros Hf Ht [Hq Hfresh] Hrec. destruct (wf_fork _ Hwf fork (normal_step_in _ Hf) Ht) as (Hjne & bs & Hbs & Hbsne & _).
  destruct (sd_chains Hd fork Hf Ht) as [Hbr Hall]. pose proof (join_follows fork Hf Ht) as Hlt.
  pose proof (sd_join Hd fork Hf Ht) as (jstep & Hjid & Hjn)%list_elem_of_fmap.
  assert (Hj : StepByID d (forkJoinID d fork) = Some jstep).
  { rewrite Hjid. apply StepByID_unique; [apply Hwf|by apply normal_step_in]. }
  destruct (chains fork) as [|[|h t] rest] eqn:Hch.
  { rewrite Hbr in Hbs. injection Hbs as <-. done. }
  { by apply Forall_cons in Hall as [[? _] _]. }
  apply Forall_cons in Hall as [[_ Hc] Hrest]. destruct (chain_start _ _ _ _ _ Hc) as (Hh & hstep & Hhs).
  assert (Hfid : forks !! step_ID fork = None) by by apply Hfresh.
  destruct (fork_step_start [] m fork (fork_state forks) _ h (heads rest) Ht eq_refl Hjne Hh Hbr)
    as (s' & Heq & (fm & Hfm & _ & Hfk & _) & Hothers).
  { intros k f Hk. unfold gm_get in Hk. simpl in Hk. split; [intros ->; congruence|by apply (Hq k)]. }
  assert (Hs' : forks_of s' = <[step_ID fork := mkFork "running" (forkJoinID d fork)
     (mkBranch h h "running" [] "" :: pending (heads rest))]> forks).
  { unfold forks_of. rewrite Hfm. simpl. apply map_eq. intros k. rewrite lookup_insert. case_decide as Hk; [by subst|].
    specialize (Hothers k (not_eq_sym Hk)). unfold gm_get in Hothers. rewrite Hfm in Hothers. exact Hothers. }
  apply next_after_NextAfter in Heq. change (m_definition m) with d in Heq.
  rewrite Hs', Hhs, (next_after_fork _ _ _ _ (answer R fork) Ht) in Heq.
  destruct (sched_chains forks (step_ID fork) (forkJoinID d fork) jstep Hq Hj rest t h [] (mkBranch h h "running" [] "") hstep Hc
    Hrest Hhs) as (l & bs' & Hl & Hids & Hone); [constructor|done|done|].
  assert (Hin : ∀ x, x ∈ (h :: t) ++ concat rest → x ∈ concat (chains fork)) by (intros x Hx; rewrite Hch; exact Hx).
  apply (runs_app forks (<[step_ID fork := mkFork "completed" (forkJoinID d fork) bs']> forks) fork jstep ((fork, forks) :: l)).
  - done.
  - by rewrite <- Hjid.
  - apply Hrec; [done| |done|by rewrite <- Hjid]. split; [by apply quiet_insert|].
    intros f' Hf' Hreach. rewrite Hjid in Hlt. rewrite lookup_insert_ne; [apply Hfresh; [done|]|].
    + etrans; [by apply tc_rtc|done].
    + intros Heq'. rewrite <- Heq' in Hreach. by apply (no_cycle _ _ Hlt).
  - intros l' last Hl'. cbn [app]. eapply sched_next; [exact Heq|]. by apply Hl.
  - rewrite fmap_cons. apply NoDup_cons. rewrite Hids. split.
    + intros Hx%Hin. apply (chain_not_normal fork _ Hf Ht Hx). by apply normal_step_id.
    + pose proof (sd_own Hd fork Hf Ht) as Hnd. by rewrite Hch in Hnd.
  - constructor; [by apply one_fork_quiet|done].
  - rewrite Hjid in Hlt. intros x. rewrite fmap_cons, Hids. intros [->|Hx%Hin]%elem_of_cons.
    + split; [left; split; [by apply normal_step_id|done]|]. by apply not_ahead.
    + split; [right; exists fork; done|]. intros [[Hn _]|(f' & Hf' & Ht' & Hreach & Hx')].
      * by apply (chain_not_normal fork x).
      * rewrite (sd_apart Hd fork f' x) in Hlt by done. by apply (no_cycle _ _ Hlt).
  - intros f' Hf' Ht'. rewrite fmap_cons, Hids. intros [Heq'|Hx%Hin]%elem_of_cons.
    + rewrite (normal_step_eq f' fork Hf' Hf Heq'), Hch. done.
    + exfalso. apply (chain_not_normal fork _ Hf Ht Hx). by apply normal_step_id.
Qed.

(** By induction on the steps that have not been passed. *)
Lemma runs_from n : ∀ visited step forks,
  NoDup visited → (∀ v, v ∈ visited → normal_id v ∧ tc follows v (step_ID step)) →
  length (m_normal m) ≤ n + length visited → step ∈ m_normal m → clean forks (step_ID step) → runs forks step.
Proof.
  assert (Hmore : ∀ visited step, NoDup visited → (∀ v, v ∈ visited → normal_id v ∧ tc follows v (step_ID step)) →
    step ∈ m_normal m → NoDup (step_ID step :: visited) ∧ length visited < length (m_normal m)).
  { intros visited step Hnd Hv Hs. assert (Hnd' : NoDup (step_ID step :: visited)).
    { constructor; [|done]. intros [_ Hc]%Hv. by apply (wf_acyclic _ Hwf (step_ID step)). }
    split; [done|]. rewrite <- (length_fmap step_ID (m_normal m)).
    assert (length (step_ID step :: visited) ≤ length (step_ID <$> m_normal m)) as Hle; [|cbn [length] in Hle; lia].
    apply submseteq_length, NoDup_submseteq; [done|]. intros x [->|Hx]%elem_of_cons; [by apply normal_step_id|by apply Hv]. }
  induction n as [|n IH]; intros visited step forks Hnd Hv Hlen Hs Hcl.
  { destruct (Hmore visited step Hnd Hv Hs). lia. }
  destruct (Hmore visited step Hnd Hv Hs) as [Hnd' _].
  assert (Hgo : ∀ next forks', next ∈ m_normal m → tc follows (step_ID step) (step_ID next) → clean forks' (step_ID next) → runs forks' next).
  { intros next forks' Hn Hlt. apply (IH (step_ID step :: visited)); [done| |cbn [length]; lia|done].
    intros v [->|Hin]%elem_of_cons; [split; [by apply normal_step_id|done]|].
    destruct (Hv v Hin) as [? Hvs]. split; [done|]. by eapply tc_rtc_l; [apply tc_rtc, Hvs|]. }
  destruct (decide (step_Type step = StepFork)) as [Ht|Ht].
  { apply runs_fork; [done..|]. intros jstep forks' _ Hcl' Hjn Hlt. by apply Hgo. }
  destruct Hcl as [Hq Hfresh]. destruct (next_on_path step forks Hs Ht Hq) as (forks' & next & Heq & Hq' & Hdom & Hnext).
  assert (Hself : ahead (step_ID step) (step_ID step)) by (left; split; [by apply normal_step_id|done]).
  destruct next as [next|].
  - destruct (Hnext next eq_refl) as [Hn He%tc_once]. apply (runs_app forks forks' step next [(step, forks)]).
    + done.
    + done.
    + apply Hgo; [done..|]. split; [done|]. intros f Hf Hreach. apply Hdom, Hfresh; [done|]. etrans; [by apply tc_rtc|done].
    + intros l last Hl. by eapply sched_next.
    + apply NoDup_singleton.
    + constructor; [by apply one_fork_quiet|constructor].
    + intros x ->%list_elem_of_singleton. split; [done|]. by apply not_ahead.
    + intros f Hf Htf Hx%list_elem_of_singleton. destruct Ht. by rewrite (normal_step_eq _ _ Hs Hf (eq_sym Hx)).
  - exists [(step, forks)], forks'. split_and!.
    + by apply sched_end.
    + split; [apply NoDup_singleton|]. constructor; [by apply one_fork_quiet|constructor].
    + by intros x ->%list_elem_of_singleton.
    + intros f Hf Htf Hx%list_elem_of_singleton. destruct Ht. by rewrite (normal_step_eq _ _ Hs Hf (eq_sym Hx)).
Qed.

(** The schedule exists and is orderly. *)
Lemma structured_schedule :
  m_normal m ≠ [] → ∃ l last, schedule d R = Some (l, last) ∧ orderly l ∧ l ≠ [] ∧ Forall (λ sf, sf.1 ∈ dsl_Steps d) l ∧
    (∀ x, x ∈ step_ID ∘ fst <$> l → normal_id x ∨
      ∃ fork, fork ∈ m_normal m ∧ step_Type fork = StepFork ∧ x ∈ concat (chains fork)) ∧
    fork_blocks (step_ID ∘ fst <$> l).
Proof.
  intros Hne. destruct (m_normal m) as [|first normal] eqn:Hnorm; [done|].
  assert (Hfirst : first ∈ m_normal m) by (rewrite Hnorm; left).
  destruct (runs_from (length (m_normal m)) [] first ∅) as (l & last & Hl & Ho & Hah & Hbl).
  - constructor.
  - by intros v ?%elem_of_nil.
  - cbn [length]. lia.
  - done.
  - split; [by intros k f ?%lookup_empty_Some|]. intros f _ _. apply lookup_empty.
  - assert (Hin : Forall (λ sf, sf.1 ∈ dsl_Steps d) l).
    { destruct (schedule_from_steps d R (length l) ∅ first l last) as (_ & Hin & _); [by apply sched_schedule|].
      apply Hin. by apply normal_step_in. }
    exists l, last. split_and!; try done.
    + unfold schedule. rewrite Hnorm. apply (sched_schedule _ _ _ _ _ Hl). destruct Ho as [Hnd _].
      rewrite <- (length_fmap (step_ID ∘ fst) l), <- (length_fmap step_ID (dsl_Steps d)).
      assert (Hle : length (step_ID ∘ fst <$> l) ≤ length (step_ID <$> dsl_Steps d)); [|lia].
      apply submseteq_length, NoDup_submseteq; [done|]. intros x (sf & -> & Hsf)%list_elem_of_fmap.
      apply list_elem_of_fmap. exists sf.1. split; [done|]. by apply (proj1 (Forall_forall _ _) Hin).
    + intros ->. inversion Hl.
    + intros x [[? _]|(fork & ? & ? & _ & ?)]%Hah; [by left|right; exists fork; by rewrite <- Hnorm].
Qed.
End path.
End structured.

(** C4: validated workflows complete: take any definition that the validator accepts, with a
    non-empty normal path, and any answers of its conditions, those inside of branches
    included, with which its forks are structured (each branch a chain of steps up to the
    join, disjoint branches, no nested forks, and jumps of the normal steps to normal steps).
    The schedule exists, runs no step twice and no two forks at once, and every fork on it is
    followed by all steps of its branches, branch by branch, and then by its join.  And when
    each step of that schedule, once executed, returns a result (no step of it fails, waits
    or is a delay, and its condition answers as assumed) and no call to the database or
    Redis fails, an instance that a client starts is completed by a consumer in as many
    iterations as the schedule is long, having executed exactly the schedule. *)
Theorem validated_workflow_completes `{Externals} `{GoArch} `{PgClock} e good env p did d v o R chains input name (w : World DB) :
  Validate o None v (d_DSL d) = Some (Ok ()) → structured (d_DSL d) R chains → plausible (d_DSL d) R →
  m_normal (NewMachine (d_DSL d)) ≠ [] →
  (∀ c w, good c w → calm c w) → (∀ i w, good (env i w) w) →
  db_definitions (w_repo w) !! did = Some d → d_TenantID d = tenant_or_default (pr_TenantID p) → did ≠ "" →
  encodable (VObj (Some input)) →
  rd_group (w_redis w) = true → rd_stream (w_redis w) = [] → rd_pending (w_redis w) = [] →
  ∃ l last, schedule (d_DSL d) R = Some (l, last) ∧ orderly l ∧ l ≠ [] ∧
    fork_blocks (d_DSL d) chains (step_ID ∘ fst <$> l) ∧
    (Forall (λ step, step_returns e good (R step) step) l.*1 →
     ∃ inst w' row, exec (submit_and_consume e p did (Some input) (length l) name) env 0 w =
        Done ((202%Z, ReplyInstance inst), w') ∧
      db_instances (w_repo w') !! i_ID inst = Some row ∧ finished l.*1 (row_inst row) ∧
      default ∅ (rs_Forks (i_State (row_inst row))) = last ∧
      rd_stream (w_redis w') = [] ∧ rd_pending (w_redis w') = []).
Proof.
  intros Hval Hst HR Hne Hgood Henv Hdef Hten Hdid Hin Hg Hs Hp.
  assert (Hwf : well_formed (d_DSL d)).
  { destruct (Validate_spec o None v (d_DSL d)) as (r & Hr & Hok). apply Hok. congruence. }
  destruct (structured_schedule _ R chains Hwf Hst HR Hne) as (l & last & Hsch & Ho & Hl & Hin' & _ & Hbl).
  exists l, last. split_and!; [done..|]. intros Hret.
  destruct (script_completes e good env p did d l.*1 (forks_at l last) R input name w Hgood Henv Hdef Hten Hdid
    (schedule_script _ _ _ _ (wf_unique _ Hwf) Hsch Ho)) as (inst & w' & row & Hrun & Hrow & Hfin & Hforks & Hrest); try done.
  { by intros ->%fmap_nil_inv. }
  rewrite length_fmap in Hrun, Hforks. exists inst, w', row. split_and!; try done; [|apply Hrest..].
  rewrite Hforks. unfold forks_at. by rewrite lookup_ge_None_2.
Qed.

(** ** The example of [ScheduleRun] is structured *)
#[local] Existing Instance toy_externals.

Definition parallel_chains (_ : Step) : list (list string) := [["pack"; "label"]; ["bill"]].

Lemma parallel_normal : m_normal (NewMachine parallel_dsl) = [work "check" []; split; meet; work "ship" []].
Proof. vm_compute. reflexivity. Qed.

Lemma parallel_fork fork : fork ∈ m_normal (NewMachine parallel_dsl) → step_Type fork = StepFork → fork = split.
Proof.
  rewrite parallel_normal. intros Hin Ht. repeat (apply elem_of_cons in Hin as [->|Hin]; [done|]).
  by apply elem_of_nil in Hin.
Qed.

Lemma parallel_structured : structured parallel_dsl parallel_answers parallel_chains.
Proof.
  constructor.
  - rewrite parallel_normal. intros step ref Hin Ht.
    repeat (apply elem_of_cons in Hin as [->|Hin]; [done || (vm_compute; by intros ?%elem_of_nil)|]). by apply elem_of_nil in Hin.
  - intros fork Hin Ht. rewrite (parallel_fork fork Hin Ht). unfold normal_id. apply (bool_decide_unpack _). vm_compute. exact I.
  - intros fork Hin Ht. rewrite (parallel_fork fork Hin Ht). split; [vm_compute; reflexivity|].
    repeat constructor; try discriminate; (eexists; split; [vm_compute; reflexivity|]); vm_compute; naive_solver.
  - intros fork _ _. apply (bool_decide_unpack _). vm_compute. exact I.
  - intros f f' x Hf Hf' Ht Ht' _ _. by rewrite (parallel_fork f Hf Ht), (parallel_fork f' Hf' Ht').
Qed.

Lemma parallel_returns :
  Forall (λ step, step_returns trade_engine calm (parallel_answers step) step) parallel_schedule.1.*1.
Proof.
  rewrite parallel_steps.
  repeat apply Forall_cons_2; try apply Forall_nil_2; first [apply split_returns|apply meet_returns|apply work_succeeds; auto].
Qed.

Lemma validated_workflow_completes_witness :
  ∃ l last, schedule parallel_dsl parallel_answers = Some (l, last) ∧ orderly l ∧
    ∃ inst w' row, exec (submit_and_consume trade_engine (mkPrincipal "acme" roleOperator) "d1" (Some ∅) (length l) "c")
        calm_env 0 parallel_world = Done ((202%Z, ReplyInstance inst), w') ∧
      db_instances (w_repo w') !! i_ID inst = Some row ∧ finished l.*1 (row_inst row) ∧
      default ∅ (rs_Forks (i_State (row_inst row))) = last ∧
      rd_stream (w_redis w') = [] ∧ rd_pending (w_redis w') = [].
Proof.
  destruct (validated_workflow_completes trade_engine calm calm_env (mkPrincipal "acme" roleOperator) "d1" parallel NewValidator []
    parallel_answers parallel_chains ∅ "c" parallel_world) as (l & last & Hs & Ho & _ & _ & Hrun).
  - vm_compute. reflexivity.
  - exact parallel_structured.
  - intros step Hs Ht r n. unfold answer, parallel_answers. rewrite decide_False by done. by intros [= <-].
  - change (d_DSL parallel) with parallel_dsl. by rewrite parallel_normal.
  - intros c w Hc. exact Hc.
  - exact calm_env_calm.
  - reflexivity.
  - reflexivity.
  - discriminate.
  - split; vm_compute; reflexivity.
  - reflexivity.
  - reflexivity.
  - reflexivity.
  - exists l, last. split; [exact Hs|]. split; [exact Ho|]. apply Hrun.
    assert (l = parallel_schedule.1) as ->.
    { unfold parallel_schedule. change parallel_dsl with (d_DSL parallel). by rewrite Hs. }
    exact parallel_returns.
Defined.
