(* ===== verification/Follows.v ===== *)
(** * Every lifecycle follows a schedule

    For workflows that are structured ([Structured]) whatever their conditions answer, inside
    of branches too: whatever the results,
    retries, crashes and takeovers, the completed steps of a lifecycle are a beginning of a
    schedule, in its order, the forks are those of the schedule at that point and the current
    step is the next one; once a step has failed, the compensations that are done and those
    that are left are together exactly those due for the steps of that beginning. *)

From S2P Require Import Prelude GoNum GoString GoTime Workflow Accessors Machine BranchSteps MachineFacts.
From S2P Require Import MachineProps Json Store Externals Effects Timer Worker Engine Validator ValidatorProps.
From S2P Require Import Lifecycle LifecycleProps Acyclic Api Calm ScriptRun LinearRun ScheduleRun Structured.

(** ** Schedules of different answers *)

Definition ids (l : list (Step * gmap string ForkState)) : list string := step_ID ∘ fst <$> l.

Section agree.
Context (d : DefinitionDSL).
#[local] Abbreviation m := (NewMachine d).

Lemma schedule_facts R l last :
  schedule d R = Some (l, last) →
  (∃ first, head (m_normal m) = Some first ∧ l !! 0 = Some (first, ∅)) ∧ Forall (λ sf, sf.1 ∈ dsl_Steps d) l ∧
  ∀ k sf, l !! k = Some sf →
    next_after [] m sf.1 sf.2 (answer R sf.1) = Done (forks_at l last (S k), fst <$> l !! S k).
Proof.
  unfold schedule. destruct (head (m_normal m)) as [first|] eqn:Hfirst; [|done]. intros Hs.
  destruct (schedule_from_steps _ _ _ _ _ _ _ Hs) as (Hhead & Hin & Hstep). split_and!; [|apply Hin|done].
  - exists first. by rewrite <- head_lookup.
  - apply m_normal_known. by apply head_Some_elem_of.
Qed.

(** As long as the answers are the same, the schedules are. *)
Lemma schedule_agree R R' l last l' last' k j :
  schedule d R = Some (l, last) → schedule d R' = Some (l', last') → k ≤ length l →
  (∀ i sf, i < k → l !! i = Some sf → R' sf.1 = R sf.1) → j ≤ k →
  l' !! j = l !! j ∧ forks_at l' last' j = forks_at l last j.
Proof.
  intros (Hfirst & _ & Hstep)%schedule_facts (Hfirst' & _ & Hstep')%schedule_facts Hk HR. induction j as [|j IH]; intros Hj.
  - destruct Hfirst as (first & Hf & Hl), Hfirst' as (first' & Hf' & Hl'). rewrite Hf in Hf'. injection Hf' as <-.
    unfold forks_at. by rewrite Hl, Hl'.
  - destruct IH as [Hlj _]; [lia|]. destruct (lookup_lt_is_Some_2 l j) as [sf Hsf]; [lia|]. rewrite Hsf in Hlj.
    pose proof (Hstep j sf Hsf) as H1. pose proof (Hstep' j sf Hlj) as H2.
    assert (answer R' sf.1 = answer R sf.1) as Ha by (unfold answer; by rewrite (HR j)).
    rewrite Ha, H1 in H2. injection H2 as Hforks Hnext. split; [|done]. unfold forks_at in Hforks.
    destruct (l !! S j) as [[x f]|], (l' !! S j) as [[y g]|]; simpl in *; congruence.
Qed.

Lemma ids_lookup l k c : ids l !! k = Some c ↔ ∃ sf, l !! k = Some sf ∧ step_ID sf.1 = c.
Proof. unfold ids. rewrite list_lookup_fmap, fmap_Some. naive_solver. Qed.

Lemma scheduled_known R l last k c :
  NoDup (step_ID <$> dsl_Steps d) → schedule d R = Some (l, last) → ids l !! k = Some c →
  ∃ sf, l !! k = Some sf ∧ step_ID sf.1 = c ∧ sf.1 ∈ dsl_Steps d ∧ StepByID d c = Some sf.1.
Proof.
  intros Hnd (_ & Hin & _)%schedule_facts (sf & Hsf & Hc)%ids_lookup. exists sf.
  pose proof (Forall_lookup_1 _ _ _ _ Hin Hsf) as Hs. simpl in Hs. split_and!; try done. subst c. by apply StepByID_unique.
Qed.

Lemma NoDup_not_before {A} (l : list A) k x : NoDup l → l !! k = Some x → x ∉ take k l.
Proof.
  intros Hnd Hk (i & Hi & Hlt)%elem_of_take. assert (i = k); [|lia]. by eapply NoDup_lookup.
Qed.
End agree.

(** ** Lifecycles on a schedule *)

Section follows.
Context (d : DefinitionDSL).
#[local] Abbreviation m := (NewMachine d).

(** A workflow that is structured whatever its conditions answer, and in whose branches no
    compensation runs. *)
Record forked : Prop := {
  fk_well_formed : well_formed d;
  fk_start : m_normal m ≠ [];
  fk_structured R : plausible d R → ∃ chains, structured d R chains ∧
    ∀ fork x, fork ∈ m_normal m → step_Type fork = StepFork → x ∈ concat (chains fork) → x ∉ CompensationRefs d;
}.

Hypothesis Hd : forked.

Lemma unique_ids : NoDup (step_ID <$> dsl_Steps d).
Proof. apply wf_unique, Hd. Qed.

(** The answers, changed for one step. *)
Definition put_answer (R : Step → option string) (id : string) (v : option string) (step : Step) : option string :=
  if decide (step_ID step = id) then v else R step.

Lemma plausible_put R step result :
  plausible d R → step ∈ dsl_Steps d → names_reference step result →
  plausible d (put_answer R (step_ID step) (result ≫= r_NextStepID)).
Proof.
  intros HR Hin Href s Hs Ht. unfold put_answer, answer. case_decide as Hid; [|by apply HR].
  assert (s = step) as ->.
  { pose proof (StepByID_unique d s unique_ids Hs) as H1. pose proof (StepByID_unique d step unique_ids Hin) as H2.
    congruence. }
  intros r n [= <-]. simpl. destruct result as [r|]; [|done]. simpl. by apply (Href r n).
Qed.

Lemma plausible_none : plausible d (λ _, None).
Proof. by intros s _ _ r n [= <-]. Qed.

Lemma plausible_schedule R :
  plausible d R → ∃ l last, schedule d R = Some (l, last) ∧ orderly l ∧ l ≠ [] ∧
    ∀ x, x ∈ ids l → x ∉ CompensationRefs d.
Proof.
  intros HR. destruct (fk_structured Hd R HR) as (chains & Hst & Hkept).
  destruct (structured_schedule d R chains (fk_well_formed Hd) Hst HR (fk_start Hd))
    as (l & last & Hs & Ho & Hne & _ & Hin).
  exists l, last. split_and!; [done..|]. intros x [Hx|(fork & Hf & Ht & Hx)]%Hin; [|by apply (Hkept fork)].
  apply list_elem_of_fmap in Hx as (s & -> & [[Hx _] _]%list_elem_of_filter). exact Hx.
Qed.

(** On its way: the first [k] steps of the schedule are completed. *)
Record forward (l : list (Step * gmap string ForkState)) (last : gmap string ForkState) (k : nat) (a : astate) : Prop := {
  fw_le : k ≤ length l;
  fw_forks : a_forks a = forks_at l last k;
  fw_done : a_done a = take k (ids l);
  fw_current c : a_current a = Some c → ids l !! k = Some c;
  fw_first : a_live a → a_current a = None → k = 0;
  fw_completed x : x ∈ a_done a ↔ ∃ n, a_steps a !! x = Some (StepCompleted, n);
  fw_finished : a_status a = InstanceCompleted → k = length l;
}.

(** On its way back: the step after the first [k] has failed, its branch with it, and
    [undone] are the compensations that are done. *)
Record backward (l : list (Step * gmap string ForkState)) (last : gmap string ForkState) (k : nat)
    (failed : string) (undone : list string) (a : astate) : Prop := {
  bw_failed : ids l !! k = Some failed;
  bw_done : a_done a = take k (ids l) ++ undone;
  bw_queue : undone ++ a_queue a = undo_queue m failed (take k (ids l));
  bw_step : ∃ n, a_steps a !! failed = Some (StepFailed, n);
  bw_forks : ∃ o err, branch_failed o (forks_at l last k) failed err = Done (a_forks a);
  bw_completed x : x ∈ a_done a ↔ ∃ n, a_steps a !! x = Some (StepCompleted, n);
}.

Definition on_schedule (a : astate) : Prop :=
  ∃ R l last k, plausible d R ∧ schedule d R = Some (l, last) ∧ orderly l ∧
    (normal_mode a ∧ forward l last k a ∨ ¬ normal_mode a ∧ ∃ failed undone, backward l last k failed undone a).

Lemma on_schedule_initial : on_schedule initial.
Proof.
  destruct (plausible_schedule _ plausible_none) as (l & last & Hs & Ho & Hne & _).
  exists (λ _, None), l, last, 0. split_and!; [apply plausible_none|done|done|]. left. split; [done|].
  destruct (schedule_facts _ _ _ _ Hs) as ((first & _ & Hl) & _).
  split; simpl; try done; [lia|unfold forks_at; by rewrite Hl|].
  intros x. split; [by intros ?%elem_of_nil|by intros []].
Qed.

(** ** The current step has not completed *)

Lemma forward_current l last k a c :
  orderly l → forward l last k a → a_current a = Some c → c ∉ a_done a.
Proof. intros [Hnd _] Hf Hc%(fw_current _ _ _ _ Hf). rewrite (fw_done _ _ _ _ Hf). by apply NoDup_not_before. Qed.

Lemma undo_queue_off failed completed x : x ∈ undo_queue m failed completed → x ∈ CompensationRefs d.
Proof.
  intros (y & Hy & _)%undo_queue_elem. unfold on_failure_of in Hy.
  destruct (StepByID _ y) as [s|] eqn:Hsy; [|done]. simpl in Hy. case_decide; [done|]. injection Hy as <-.
  apply elem_of_CompensationRefs. apply StepByID_Some in Hsy as [? _]. by split; [|exists s].
Qed.

Lemma schedule_off R l last x :
  plausible d R → schedule d R = Some (l, last) → x ∈ ids l → x ∉ CompensationRefs d.
Proof.
  intros HR Hs. destruct (plausible_schedule _ HR) as (l' & last' & Hs' & _ & _ & Hoff).
  rewrite Hs in Hs'. injection Hs' as <- <-. apply Hoff.
Qed.

(** What is done or left of the compensations is none of the schedule. *)
Lemma backward_off l last k failed undone a x :
  backward l last k failed undone a → x ∈ undone ∨ x ∈ a_queue a → x ∈ CompensationRefs d.
Proof. intros Hb Hx. eapply undo_queue_off. rewrite <- (bw_queue _ _ _ _ _ _ Hb). by apply elem_of_app. Qed.

Lemma backward_queue R l last k failed undone a x :
  plausible d R → schedule d R = Some (l, last) → backward l last k failed undone a → x ∈ a_queue a →
  x ∉ a_done a ∧ x ≠ failed.
Proof.
  intros HR Hs Hb Hx. pose proof (backward_off _ _ _ _ _ _ x Hb (or_intror Hx)) as Hc.
  pose proof (bw_queue _ _ _ _ _ _ Hb) as Hq. split.
  - rewrite (bw_done _ _ _ _ _ _ Hb), elem_of_app. intros [Hin|Hin].
    + apply (schedule_off R l last x); [done..| |done].
      by apply elem_of_take in Hin as (i & ?%list_elem_of_lookup_2 & _).
    + pose proof (NoDup_nub (omap (on_failure_of m) (failed :: reverse (take k (ids l))))) as Hnd.
      unfold undo_queue in Hq. rewrite CompensationQueue_nub in Hq. cbn [rs_Completed with_Completed] in Hq.
      rewrite <- Hq in Hnd. apply NoDup_app in Hnd as (_ & Hdis & _). by apply (Hdis x).
  - intros ->. apply (schedule_off R l last failed); [done..| |done].
    eapply list_elem_of_lookup_2, bw_failed, Hb.
Qed.

Lemma on_schedule_current a c :
  on_schedule a → life_ok d a → a_live a → a_current a = Some c → c ∉ a_done a.
Proof.
  intros (R & l & last & k & HR & Hs & Ho & [[_ Hf]|(Hn & failed & undone & Hb)]) Hok Hl Hc;
    [by eapply forward_current|].
  eapply backward_queue; [done..|]. destruct (decide (a_queue a = [])) as [Hq|Hq].
  - destruct Hn. split_and!; [done| |by apply live_not_failed]. intros Hst. by apply (lo_compensating _ _ Hok Hst).
  - apply head_Some_elem_of. by rewrite <- Hc, (lo_head _ _ Hok Hl Hq).
Qed.

(** ** What a worker picks up is the next step of the schedule *)

Lemma resume_forward R l last k a forks next :
  schedule d R = Some (l, last) → orderly l → l ≠ [] → forward l last k a → a_live a → resume m a forks next →
  forks = a_forks a ∧ ∃ sf, l !! k = Some sf ∧ next = Some sf.1.
Proof.
  intros Hs Ho Hne Hf Hl Hr. inversion Hr as [Hc|c Hc Hu|c step Hc Hk _|c step n o r fm f nx Hc Hk Hst Hn Hfm]; subst.
  - split; [done|]. pose proof (fw_first _ _ _ _ Hf Hl Hc) as ->.
    destruct (schedule_facts _ _ _ _ Hs) as ((first & Hh & Hl0) & _). exists (first, ∅). by rewrite Hh.
  - destruct (scheduled_known d R l last k c unique_ids Hs) as (sf & _ & _ & _ & Hk); [by apply (fw_current _ _ _ _ Hf)|].
    simpl in Hu. congruence.
  - split; [done|]. destruct (scheduled_known d R l last k c unique_ids Hs) as (sf & Hsf & _ & _ & Hk'); [by apply (fw_current _ _ _ _ Hf)|].
    exists sf. simpl in Hk. split; [done|]. congruence.
  - exfalso. apply (forward_current l last k a c Ho Hf Hc), (fw_completed _ _ _ _ Hf). by exists n.
Qed.

(** A step that is not completed is put in a state other than completed. *)
Lemma forward_put a id st n x :
  (∀ x, x ∈ a_done a ↔ ∃ n, a_steps a !! x = Some (StepCompleted, n)) → id ∉ a_done a → st ≠ StepCompleted →
  x ∈ a_done a ↔ ∃ j, put_step a id st n !! x = Some (StepCompleted, j).
Proof.
  intros Hc Hid Hst. rewrite Hc. unfold put_step. destruct (decide (x = id)) as [->|Hne].
  - rewrite lookup_insert_eq. split; [|by intros [j [= ?]]]. intros Hj. by destruct Hid; apply Hc.
  - by rewrite lookup_insert_ne.
Qed.

(** A compensation is taken up, or waits. *)
Lemma backward_put R l last k failed undone a status cur id st n :
  plausible d R → schedule d R = Some (l, last) → backward l last k failed undone a → id ∈ a_queue a → st ≠ StepCompleted →
  backward l last k failed undone (mkA status cur (a_done a) (a_queue a) (a_forks a) (put_step a id st n)).
Proof.
  intros HR Hs Hb Hid Hst. destruct (backward_queue _ _ _ _ _ _ _ _ HR Hs Hb Hid) as [Hnew Hne].
  split; simpl; try apply Hb.
  - destruct (bw_step _ _ _ _ _ _ Hb) as [j Hj]. exists j. unfold put_step. by rewrite lookup_insert_ne.
  - intros x. apply forward_put; [apply Hb|done..].
Qed.

(** A compensation succeeds. *)
Lemma backward_success R l last k failed undone a status cur id queue n :
  plausible d R → schedule d R = Some (l, last) → backward l last k failed undone a → a_queue a = id :: queue →
  backward l last k failed (undone ++ [id])
    (mkA status cur (mark_done (a_done a) id) queue (a_forks a) (put_step a id StepCompleted n)).
Proof.
  intros HR Hs Hb Hq. destruct (backward_queue _ _ _ _ _ _ _ id HR Hs Hb) as [Hnew Hne].
  { rewrite Hq. apply list_elem_of_here. }
  split; simpl; try apply Hb.
  - unfold mark_done. by rewrite decide_False, (bw_done _ _ _ _ _ _ Hb), app_assoc.
  - by rewrite <- (bw_queue _ _ _ _ _ _ Hb), Hq, <- app_assoc.
  - destruct (bw_step _ _ _ _ _ _ Hb) as [j Hj]. exists j. unfold put_step. by rewrite lookup_insert_ne.
  - intros x. rewrite mark_done_elem, (bw_completed _ _ _ _ _ _ Hb). unfold put_step.
    destruct (decide (x = id)) as [->|Hx]; [rewrite lookup_insert_eq; naive_solver|].
    rewrite lookup_insert_ne by done. naive_solver.
Qed.

(** The step after the first [k] is taken up, or waits. *)
Lemma forward_at R l last k a sf status st n :
  schedule d R = Some (l, last) → orderly l → forward l last k a → l !! k = Some sf →
  status ≠ InstanceCompleted → st ≠ StepCompleted →
  forward l last k (mkA status (Some (step_ID sf.1)) (a_done a) (a_queue a) (a_forks a) (put_step a (step_ID sf.1) st n)).
Proof.
  intros Hs [Hnd _] Hf Hk Hstatus Hst. assert (Hid : ids l !! k = Some (step_ID sf.1)) by (apply ids_lookup; by exists sf).
  assert (Hnew : step_ID sf.1 ∉ a_done a) by (rewrite (fw_done _ _ _ _ Hf); by apply NoDup_not_before).
  split; simpl; try done; try apply Hf.
  - by intros c [= <-].
  - intros x. apply forward_put; [apply Hf|done..].
Qed.

(** The step after the first [k] succeeds. *)
Lemma forward_success R l last k a step n o result forks next :
  plausible d R → schedule d R = Some (l, last) → orderly l → forward l last k a →
  at_work m a step n → names_reference step result → next_after o m step (a_forks a) result = Done (forks, next) →
  ∃ R' l' last', plausible d R' ∧ schedule d R' = Some (l', last') ∧ orderly l' ∧
    forward l' last' (S k) (mkA (if next then InstanceRunning else InstanceCompleted) (step_ID <$> next)
      (mark_done (a_done a) (step_ID step)) (a_queue a) forks (put_step a (step_ID step) StepCompleted n)).
Proof.
  intros HR Hs Ho Hf (Hc & Hin & _) Href Hn. pose proof (forward_current _ _ _ _ _ Ho Hf Hc) as Hnew.
  pose proof (fw_current _ _ _ _ Hf _ Hc) as Hid.
  destruct (scheduled_known d R l last k _ unique_ids Hs Hid) as (sf & Hsf & Hsid & _ & Hk).
  rewrite (StepByID_unique d step unique_ids Hin) in Hk. injection Hk as Hstep.
  pose proof (plausible_put R step result HR Hin Href) as HR'.
  destruct (plausible_schedule _ HR') as (l' & last' & Hs' & Ho' & _). do 3 eexists. split_and!; [exact HR'|exact Hs'|exact Ho'|].
  assert (Hagree : ∀ j, j ≤ k → l' !! j = l !! j ∧ forks_at l' last' j = forks_at l last j).
  { intros j Hj. eapply schedule_agree; [exact Hs|exact Hs'|apply Hf| |exact Hj]. intros i sf' Hi Hsf'.
    unfold put_answer. apply decide_False. intros Heq. assert (i = k); [|lia].
    apply (NoDup_lookup (ids l) i k (step_ID step)); [apply Ho|apply ids_lookup; by exists sf'|done]. }
  destruct (Hagree k) as [Hk' Hforks']; [done|]. rewrite Hsf in Hk'.
  assert (Hnext : Done (forks, next) = Done (forks_at l' last' (S k), fst <$> l' !! S k)).
  { destruct (schedule_facts _ _ _ _ Hs') as (_ & _ & Hnx). rewrite <- (Hnx k sf Hk'), <- Hn.
    assert (a_forks a = sf.2) as ->. { rewrite (fw_forks _ _ _ _ Hf). unfold forks_at. by rewrite Hsf. }
    rewrite <- Hstep, (next_after_order d) by by apply (Forall_lookup_1 _ _ _ _ (proj2 Ho) Hsf).
    set (R' := put_answer _ _ _). assert (HR'v : R' step = result ≫= r_NextStepID) by by apply decide_True.
    apply next_after_result. simpl. rewrite HR'v. by destruct result. }
  injection Hnext as -> ->. assert (Hlt : k < length l') by by eapply lookup_lt_Some.
  assert (Htake : take (S k) (ids l') = a_done a ++ [step_ID step]).
  { rewrite (fw_done _ _ _ _ Hf), (take_S_r _ _ (step_ID step)); [|apply ids_lookup; by exists sf]. f_equal.
    apply list_eq. intros i. destruct (decide (i < k)) as [Hi|Hi]; [|by rewrite !lookup_take_ge by lia].
    rewrite !lookup_take_lt by done. unfold ids. rewrite !list_lookup_fmap. by destruct (Hagree i) as [-> _]; [lia|]. }
  split; simpl.
  - done.
  - done.
  - unfold mark_done. rewrite decide_False by done. done.
  - intros c. unfold ids. rewrite list_lookup_fmap. by destruct (l' !! S k).
  - destruct (l' !! S k); [done|]. intros Hlive. exfalso. apply Hlive. by left.
  - intros x. rewrite mark_done_elem, (fw_completed _ _ _ _ Hf). unfold put_step.
    destruct (decide (x = step_ID step)) as [->|Hne]; [rewrite lookup_insert_eq; naive_solver|].
    rewrite lookup_insert_ne by done. naive_solver.
  - destruct (l' !! S k) eqn:Hk2; [done|]. apply lookup_ge_None in Hk2. intros _. lia.
Qed.

(** ** Every move keeps the lifecycle on a schedule *)

(** The moves of an instance on its way. *)
Lemma on_schedule_normal a b :
  life m a b → normal_mode a → on_schedule a → on_schedule b.
Proof.
  intros Hlife Hna (R & l & last & k & HR & Hs & Ho & [[_ Hf]|[? _]]); [|done].
  assert (Hne : l ≠ []). { destruct (plausible_schedule R HR) as (l' & last' & Hs' & _ & Hne & _). congruence. }
  destruct Hna as (Hq & Hnc & Hnf).
  destruct Hlife as [forks step Hl _ Hr|forks Hl _ Hr|step n o r forks next Hst _ Hat Href Hn|step n Hst Hat
    |step n o err forks Hst _ Hat Hretry Hb|id step queue Hl Hq' _|step n Hst|step n Hst|Hl Hc Hu]; try congruence.
  - destruct (resume_forward _ _ _ _ _ _ _ Hs Ho Hne Hf Hl Hr) as (-> & sf & Hsf & [= ->]).
    exists R, l, last, k. split_and!; try done. left. split; [done|]. by eapply forward_at.
  - by destruct (resume_forward _ _ _ _ _ _ _ Hs Ho Hne Hf Hl Hr) as (-> & sf & _ & ?).
  - destruct (forward_success _ _ _ _ _ _ _ _ _ _ _ HR Hs Ho Hf Hat Href Hn) as (R' & l' & last' & HR' & Hs' & Ho' & Hf').
    exists R', l', last', (S k). split_and!; try done. left. split; [|done]. by destruct next.
  - destruct Hat as (Hc & Hin & _). exists R, l, last, k. split_and!; try done. left. split; [done|].
    apply (fw_current _ _ _ _ Hf) in Hc as (sf & Hsf & <-)%ids_lookup. by eapply forward_at.
  - destruct Hat as (Hc & Hin & _). apply (fw_current _ _ _ _ Hf) in Hc.
    exists R, l, last, k. split_and!; try done. right.
    destruct (undo_queue _ _ _) as [|x q] eqn:Hu; (split; [by intros (? & ? & ?)|]);
      (exists (step_ID step), []; rewrite (fw_done _ _ _ _ Hf) in Hu; split; simpl;
       [done|by rewrite app_nil_r, (fw_done _ _ _ _ Hf)|by rewrite Hu|exists n; apply lookup_insert_eq|
        exists o, err; by rewrite <- (fw_forks _ _ _ _ Hf)|
        intros x'; apply forward_put; [apply Hf| |done]; rewrite (fw_done _ _ _ _ Hf); by apply NoDup_not_before; [apply Ho|]]).
  - exfalso. destruct Hc as [?|?]; done.
Qed.

(** The moves of an instance on its way back. *)
Lemma on_schedule_back a b :
  life m a b → life_ok d a → ¬ normal_mode a → on_schedule a → on_schedule b ∧ ¬ normal_mode b.
Proof.
  intros Hlife Hok Hna Hon. pose proof Hon as (R & l & last & k & HR & Hs & Ho & [[? _]|(_ & failed & undone & Hb)]); [done|].
  assert (Hkeep : ∀ b, a_done b = a_done a → a_queue b = a_queue a → a_forks b = a_forks a → a_steps b = a_steps a →
    ¬ normal_mode b → on_schedule b ∧ ¬ normal_mode b).
  { intros b' Hd' Hq' Hf' Hs' Hn'. split; [|done]. exists R, l, last, k. split_and!; try done. right. split; [done|].
    exists failed, undone. destruct Hb. split; by rewrite ?Hd', ?Hq', ?Hf', ?Hs'. }
  assert (Hput : ∀ status cur id st n, id ∈ a_queue a → st ≠ StepCompleted → let b := mkA status cur (a_done a) (a_queue a) (a_forks a) (put_step a id st n) in
    ¬ normal_mode b → on_schedule b ∧ ¬ normal_mode b).
  { intros status cur id st n Hid Hst b' Hn'. split; [|done]. exists R, l, last, k. split_and!; try done. right. split; [done|].
    exists failed, undone. by eapply backward_put. }
  assert (Hmode : ∀ a, ¬ a_compensating a → a_live a → normal_mode a).
  { intros a' Hc Hl. split_and!; [by apply not_compensating| |by apply live_not_failed]. intros ?. apply Hc. by left. }
  destruct Hlife as [forks step Hl Hc Hr|forks Hl Hc Hr|step n o r forks next Hst Hq Hat Href Hn|step n Hst Hat
    |step n o err forks Hst Hq Hat Hretry Hbf|id step queue Hl Hq' _|step n Hst Hat|step n Hst|Hl Hc Hu].
  1-2: by destruct Hna; apply Hmode.
  1,3: by destruct Hna; unfold normal_mode; rewrite Hst, Hq.
  - destruct Hst as [[Hst Hq]|[Hst Hq]]; [by destruct Hna; unfold normal_mode; rewrite Hst, Hq|].
    apply Hput; [|done|by intros [? _]].
    assert (Hl : a_live a) by (intros [Ht|Ht]; by rewrite Hst in Ht).
    pose proof (lo_head _ _ Hok Hl Hq) as Hh. destruct Hat as (Hc & _). rewrite Hc in Hh.
    symmetry in Hh. by apply head_Some_elem_of.
  - apply Hput; [rewrite Hq'; apply list_elem_of_here|done|by intros (_ & ? & _)].
  - pose proof (lo_compensating _ _ Hok Hst) as Hqne. destruct (a_queue a) as [|x q] eqn:Hqa; [done|].
    assert (Hl : a_live a) by (intros [Ht|Ht]; by rewrite Hst in Ht).
    assert (Hx : step_ID step = x).
    { destruct Hat as (Hc & _). pose proof (lo_head _ _ Hok Hl) as Hh. rewrite Hqa in Hh. specialize (Hh ltac:(done)).
      rewrite Hc in Hh. by injection Hh. }
    rewrite Hx. destruct q as [|y q]; (split; [|by intros (? & ? & ?)]); exists R, l, last, k; split_and!; try done;
      (right; split; [by intros (? & ? & ?)|]; exists failed, (undone ++ [x]); by eapply backward_success).
  - apply Hkeep; [done..|]. by intros (_ & _ & ?).
  - apply Hkeep; [done..|]. by intros (_ & _ & ?).
Qed.

Lemma on_schedule_step a b : life m a b → life_ok d a → on_schedule a → on_schedule b.
Proof.
  intros Hl Hok Hon. destruct (decide (normal_mode a)) as [Hn|Hn]; [by eapply on_schedule_normal|].
  by eapply on_schedule_back.
Qed.

(** A reachable lifecycle is on a schedule. *)
Lemma reachable_on_schedule b : rtc (life m) initial b → on_schedule b.
Proof.
  cut (rtc (life m) initial b → life_ok d b ∧ on_schedule b); [by intros Hc []%Hc|].
  revert b. apply (rtc_ind_r (λ b, life_ok d b ∧ on_schedule b)); [split; [apply initial_ok|apply on_schedule_initial]|].
  intros b c _ Hbc [Hok Hon]. split; [by eapply life_preserves|by eapply on_schedule_step].
Qed.

(** ** The join barrier *)

Lemma schedule_blocks R l last :
  plausible d R → schedule d R = Some (l, last) →
  ∃ chains, structured d R chains ∧ fork_blocks d chains (ids l).
Proof.
  intros HR Hs. destruct (fk_structured Hd R HR) as (chains & Hst & _). exists chains. split; [done|].
  destruct (structured_schedule d R chains (fk_well_formed Hd) Hst HR (fk_start Hd))
    as (l' & last' & Hs' & _ & _ & _ & _ & Hbl).
  rewrite Hs in Hs'. by injection Hs' as <- <-.
Qed.

(** Where the join comes, the branches have passed. *)
Lemma block_passed (xs pre mid post : list string) f j k x :
  NoDup xs → xs = pre ++ f :: mid ++ j :: post → j ∈ take k xs ∨ xs !! k = Some j → x ∈ mid → x ∈ take k xs.
Proof.
  intros Hnd Hxs Hj (i & Hi)%list_elem_of_lookup.
  assert (Hpos : xs !! (length pre + S (length mid)) = Some j).
  { rewrite Hxs, lookup_app_r by lia. replace (length pre + S (length mid) - length pre) with (S (length mid)) by lia.
    simpl. rewrite lookup_app_r by lia. by rewrite Nat.sub_diag. }
  assert (length pre + S (length mid) ≤ k).
  { destruct Hj as [(n & Hn & Hlt)%elem_of_take|Hn]; rewrite (NoDup_lookup _ _ _ _ Hnd Hpos Hn); lia. }
  pose proof (lookup_lt_Some _ _ _ Hi). apply elem_of_take. exists (length pre + S i). split; [|lia].
  rewrite Hxs, lookup_app_r by lia. replace (length pre + S i - length pre) with (S i) by lia.
  simpl. by rewrite lookup_app_l.
Qed.

(** When the join of a fork is current or done, every step of its branches has completed. *)
Lemma branches_before_join a :
  on_schedule a → life_ok d a →
  ∃ R chains, plausible d R ∧ structured d R chains ∧
    ∀ fork x, fork ∈ m_normal m → step_Type fork = StepFork → step_ID fork ∈ a_done a →
      forkJoinID d fork ∈ a_done a ∨ a_current a = Some (forkJoinID d fork) → x ∈ concat (chains fork) →
      x ∈ a_done a ∧ ∃ n, a_steps a !! x = Some (StepCompleted, n).
Proof.
  intros (R & l & last & k & HR & Hs & [Hnd Hone] & Hcase) Hok. destruct (schedule_blocks R l last HR Hs) as (chains & Hst & Hbl).
  exists R, chains. split_and!; [done..|]. intros fork x Hf Ht Hdone Hjoin Hx.
  assert (Hnorm : ∀ y, normal_id d y → y ∉ CompensationRefs d).
  { intros y (s & -> & [[Hy _] _]%list_elem_of_filter)%list_elem_of_fmap. exact Hy. }
  pose proof (Hnorm _ (sd_join d R chains Hst fork Hf Ht)) as Hjoff.
  pose proof (Hnorm (step_ID fork) (list_elem_of_fmap_2 _ _ _ Hf)) as Hfoff.
  cut (∀ pr, step_ID fork ∈ take k (ids l) → forkJoinID d fork ∈ take k (ids l) ∨ ids l !! k = Some (forkJoinID d fork) →
    take k (ids l) ⊆ pr → x ∈ (pr : list string)).
  - intros Hcut. destruct Hcase as [[_ Hfw]|(Hnm & failed & undone & Hb)].
    + assert (x ∈ a_done a) as Hin; [|split; [done|by apply (fw_completed _ _ _ _ Hfw)]].
      rewrite (fw_done _ _ _ _ Hfw) in Hdone, Hjoin |- *. apply Hcut; [done| |done].
      destruct Hjoin as [?|Hc]; [by left|right; by apply (fw_current _ _ _ _ Hfw)].
    + assert (Hoff : ∀ y, y ∉ CompensationRefs d → y ∈ a_done a → y ∈ take k (ids l)).
      { intros y Hy. rewrite (bw_done _ _ _ _ _ _ Hb), elem_of_app. intros [?|Hu]; [done|].
        destruct Hy. eapply backward_off; [done|by left]. }
      assert (x ∈ a_done a) as Hin; [|split; [done|by apply (bw_completed _ _ _ _ _ _ Hb)]].
      apply Hcut; [by apply Hoff| |rewrite (bw_done _ _ _ _ _ _ Hb); set_solver].
      left. destruct Hjoin as [?|Hc]; [by apply Hoff|]. destruct Hjoff.
      assert (Hl : a_live a) by (intros Hterm; by rewrite (lo_terminal _ _ Hok Hterm) in Hc).
      destruct (decide (a_queue a = [])) as [Hq|Hq].
      * destruct Hnm. split_and!; [done| |by apply live_not_failed].
        intros Hcomp. by apply (lo_compensating _ _ Hok Hcomp).
      * eapply backward_off; [done|right]. apply head_Some_elem_of. by rewrite <- Hc, (lo_head _ _ Hok Hl Hq).
  - intros pr Hf' Hj' Hsub. apply Hsub. destruct (Hbl fork Hf Ht) as (pre & post & Hxs).
    { apply elem_of_take in Hf' as (i & Hi & _). by eapply list_elem_of_lookup_2. }
    by eapply block_passed.
Qed.

(** ** Counting completions *)

(** What a move does to the completed steps. *)
Lemma life_done a b :
  life m a b →
  (completes a b ∧ a_live a ∧ ∃ c, a_current a = Some c ∧ a_done b = mark_done (a_done a) c) ∨
  (¬ completes a b ∧ a_done b = a_done a).
Proof.
  destruct 1 as [forks step Hl Hc Hr|forks Hl Hc Hr|step n o r forks next Hst Hq Hat Href Hn|step n Hst Hat
    |step n o err forks Hst Hq Hat Hretry Hbf|id step queue Hl Hq' _|step n Hst Hat|step n Hst Hat|Hl Hc Hu].
  - right. split; [by apply completes_other|done].
  - right. split; [apply completes_same|done].
  - left. split_and!; [by eapply completes_put|unfold a_live; rewrite Hst; by intros [?|?]|].
    exists (step_ID step). by destruct Hat.
  - right. split; [by apply completes_other|done].
  - right. destruct (undo_queue _ _ _); (split; [by apply completes_other|done]).
  - right. split; [by apply completes_other|done].
  - left. split_and!; [destruct (tail _); by eapply completes_put|unfold a_live; rewrite Hst; by intros [?|?]|].
    exists (step_ID step). destruct Hat. by destruct (tail _).
  - right. split; [apply completes_same|done].
  - right. split; [apply completes_same|done].
Qed.

Lemma life_path_counts n b : life_path d n initial b → life_ok d b ∧ on_schedule b ∧ length (a_done b) = n.
Proof.
  remember initial as a eqn:Ha. induction 1 as [a|n a b c _ IH Hl Hc|n a b c _ IH Hl Hc]; subst.
  - split_and!; [apply initial_ok|apply on_schedule_initial|done].
  - destruct IH as (Hok & Hon & <-); [done|]. split_and!; [by apply (life_preserves d b)|by apply (on_schedule_step b)|].
    destruct (life_done b c Hl) as [[? _]|[_ ->]]; done.
  - destruct IH as (Hok & Hon & <-); [done|]. split_and!; [by apply (life_preserves d b)|by apply (on_schedule_step b)|].
    destruct (life_done b c Hl) as [(_ & Hlive & x & Hx & ->)|[? _]]; [|done].
    unfold mark_done. rewrite decide_False by by eapply on_schedule_current. rewrite length_app. simpl. lia.
Qed.

Lemma done_bound b : life_ok d b → length (a_done b) ≤ length (dsl_Steps d).
Proof.
  intros Hok. rewrite <- (length_fmap step_ID (dsl_Steps d)). apply submseteq_length, NoDup_submseteq; [apply Hok|].
  intros x [[st n] Hx]%(lo_done _ _ Hok). by apply (lo_steps _ _ Hok x st n).
Qed.

(** ** Every schedule is lived *)

(** A result that the machine reads like the answer and that names references only. *)
Lemma answer_result R l last k sf o :
  plausible d R → schedule d R = Some (l, last) → orderly l → l !! k = Some sf →
  ∃ result, names_reference sf.1 result ∧
    next_after o m sf.1 sf.2 result = Done (forks_at l last (S k), fst <$> l !! S k).
Proof.
  intros HR Hs Ho Hk. destruct (schedule_facts _ _ _ _ Hs) as (_ & Hin & Hn). specialize (Hn k sf Hk).
  pose proof (Forall_lookup_1 _ _ _ _ Hin Hk) as Hsin. simpl in Hsin.
  pose proof (Forall_lookup_1 _ _ _ _ (proj2 Ho) Hk) as Hone. simpl in Hone.
  assert (Hnone : names_reference sf.1 None) by by intros r n.
  destruct (decide (step_Type sf.1 = StepFork)) as [Ht|Ht].
  - exists None. split; [done|]. by rewrite (next_after_order d), (next_after_fork d [] sf.1 sf.2 None (answer R sf.1)).
  - exists (answer R sf.1). split; [by apply HR|]. by rewrite (next_after_order d).
Qed.

(** The state of an instance that has lived the first [k] steps of the schedule. *)
Record lived (l : list (Step * gmap string ForkState)) (last : gmap string ForkState) (k : nat) (a : astate) : Prop := {
  lv_path : life_path d k initial a;
  lv_done : a_done a = take k (ids l);
  lv_forks : a_forks a = forks_at l last k;
  lv_queue : a_queue a = [];
  lv_status : a_status a = if decide (k = length l) then InstanceCompleted
    else if decide (k = 0) then InstancePending else InstanceRunning;
  lv_current : a_current a = if decide (k = 0) then None else ids l !! k;
  lv_todo j c : k ≤ j → ids l !! j = Some c → a_steps a !! c = None;
}.

Lemma lived_step R l last k a :
  plausible d R → schedule d R = Some (l, last) → orderly l → k < length l → lived l last k a →
  ∃ b, lived l last (S k) b.
Proof.
  intros HR Hs Ho Hlt [Hpath Hdone Hforks Hq Hst Hcur Htodo].
  destruct (lookup_lt_is_Some_2 l k Hlt) as [sf Hk]. pose proof (schedule_facts _ _ _ _ Hs) as ((first & Hfirst & H0) & Hin & _).
  pose proof (Forall_lookup_1 _ _ _ _ Hin Hk) as Hsin. simpl in Hsin.
  assert (Hid : ids l !! k = Some (step_ID sf.1)) by (apply ids_lookup; by exists sf).
  assert (Hnone : a_steps a !! step_ID sf.1 = None) by by apply (Htodo k).
  rewrite decide_False in Hst by lia.
  assert (Hlive : a_live a) by (intros [Ht|Ht]; rewrite Hst in Ht; by case_decide).
  assert (Hncomp : ¬ a_compensating a) by (intros [Ht|Ht]; [rewrite Hst in Ht; by case_decide|done]).
  assert (Hsf2 : a_forks a = sf.2) by (rewrite Hforks; unfold forks_at; by rewrite Hk).
  assert (Hres : resume m a (a_forks a) (Some sf.1)).
  { case_decide as Hk0.
    - subst k. rewrite H0 in Hk. injection Hk as <-. cbn [fst]. rewrite <- Hfirst. by apply resume_first.
    - apply (resume_current m a (step_ID sf.1)); [by rewrite Hcur, Hid| |by rewrite Hnone].
      by apply StepByID_unique, Hsin; apply unique_ids. }
  destruct (answer_result R l last k sf [] HR Hs Ho Hk) as (result & Href & Hnext).
  set (a1 := mkA InstanceRunning (Some (step_ID sf.1)) (a_done a) (a_queue a) (a_forks a)
    (put_step a (step_ID sf.1) StepRunning (attempt_of a (step_ID sf.1) + 1))).
  assert (Hat : at_work m a1 sf.1 (attempt_of a (step_ID sf.1) + 1)%Z).
  { split_and!; [done|done|]. apply lookup_insert_eq. }
  assert (Hnew : step_ID sf.1 ∉ a_done a) by (rewrite Hdone; by apply NoDup_not_before, Hid; apply Ho).
  eexists. split.
  - eapply (lp_complete _ _ _ a1); [eapply (lp_step _ _ _ a); [exact Hpath|by apply life_start|by apply completes_other]| |].
    + apply (life_success m a1 sf.1 (attempt_of a (step_ID sf.1) + 1)%Z [] result (forks_at l last (S k)) (fst <$> l !! S k)); try done. simpl. rewrite Hsf2. exact Hnext.
    + by eapply completes_put.
  - simpl. unfold mark_done. rewrite decide_False by done. rewrite Hdone. by erewrite (take_S_r _ _ (step_ID sf.1)).
  - done.
  - done.
  - simpl. destruct (l !! S k) eqn:Hsk; simpl.
    + apply lookup_lt_Some in Hsk. rewrite !decide_False by lia. done.
    + apply lookup_ge_None in Hsk. rewrite decide_True by lia. done.
  - simpl. unfold ids. rewrite list_lookup_fmap. by destruct (l !! S k).
  - intros j c Hj Hc. simpl. unfold put_step. simpl. unfold put_step.
    assert (c ≠ step_ID sf.1).
    { intros ->. assert (j = k); [|lia]. by eapply (NoDup_lookup (ids l)); [apply Ho|..]. }
    rewrite !lookup_insert_ne by done. apply (Htodo j); [lia|done].
Qed.

(** Whatever the answers, there is a lifecycle that completes with their schedule. *)
Lemma schedule_lived R l last :
  plausible d R → schedule d R = Some (l, last) → orderly l →
  ∃ b, life_path d (length l) initial b ∧ a_status b = InstanceCompleted ∧ a_done b = ids l ∧ a_forks b = last.
Proof.
  intros HR Hs Ho.
  assert (Hk : ∀ k, k ≤ length l → ∃ b, lived l last k b).
  { induction k as [|k IH]; intros Hk.
    - exists initial. destruct (schedule_facts _ _ _ _ Hs) as ((first & _ & H0) & _).
      split; try done; [constructor|unfold forks_at; by rewrite H0|].
      simpl. rewrite decide_False; [done|]. apply lookup_lt_Some in H0. lia.
    - destruct IH as [b Hb]; [lia|]. by apply (lived_step R l last k b). }
  destruct (Hk (length l)) as [b [Hp Hd' Hf _ Hst _ _]]; [done|]. exists b. split_and!; [done| | |].
  - rewrite Hst. by rewrite decide_True.
  - rewrite Hd'. apply take_ge. unfold ids. by rewrite length_fmap.
  - rewrite Hf. unfold forks_at. by rewrite lookup_ge_None_2.
Qed.
End follows.

(** C9: termination: in a validated workflow whose forks are structured whatever its conditions
    answer, and in whose branches no compensation lies, no lifecycle goes round in circles: whatever the results of the steps, the
    jumps, the forks, the retries and the compensations, every move that completes a step
    adds a new one to the completed steps, so at most as many moves complete a step as the
    definition has steps. *)
Theorem forked_workflow_terminates d n b :
  forked d → life_path d n initial b → n = length (a_done b) ∧ n ≤ length (dsl_Steps d).
Proof.
  intros Hd (Hok & _ & <-)%(life_path_counts d Hd). split; [done|]. by apply done_bound.
Qed.

(** ** An example: a fork with a condition in its second branch, and a compensation *)

#[local] Existing Instance toy_externals.

Definition route : Step :=
  mkStep "route" StepFork (obj_map [("branches", VArr [VStr "pack"; VStr "pay"]); ("join", VStr "meet")]) None "".
Definition pay : Step :=
  mkStep "pay" StepCondition (obj_map [("if", VStr "true"); ("then", VStr "card"); ("else", VStr "cash")]) None "".
(** The order is checked, and refunded when a later step fails; the shipment fails. *)
Definition check : Step := mkStep "check" StepTransform (obj_map [("expr", VStr "true")]) None "refund".
Definition ship : Step := mkStep "ship" StepTransform (obj_map [("expr", VStr "fail")]) None "".
Definition branching_dsl : DefinitionDSL :=
  mkDSL "branching" 1 [check; route; work "pack" [("next", VStr "label")]; work "label" []; pay;
                       work "card" []; work "cash" []; meet; ship; work "refund" []].
Definition branching : Definition_ := mkDefinition "d1" "acme" "branching" 1 branching_dsl 10 10.

Definition branching_chains (tail : list string) (_ : Step) : list (list string) := [["pack"; "label"]; "pay" :: tail].

Lemma branching_normal : m_normal (NewMachine branching_dsl) = [check; route; meet; ship].
Proof. vm_compute. reflexivity. Qed.

Lemma branching_fork fork : fork ∈ m_normal (NewMachine branching_dsl) → step_Type fork = StepFork → fork = route.
Proof.
  rewrite branching_normal. intros Hin Ht. repeat (apply elem_of_cons in Hin as [->|Hin]; [done|]).
  by apply elem_of_nil in Hin.
Qed.

(** What follows a step in a branch: the step that its configuration names as next, or one
    of the references of a condition. *)
Lemma next_of_cases R step :
  plausible branching_dsl R → step ∈ dsl_Steps branching_dsl → step_Type step ≠ StepFork →
  next_of R step ∈ configString (step_Config step) "next" :: branchRefs step.
Proof.
  intros HR Hin Ht. apply elem_of_cons. destruct (decide (resultNextStepID (answer R step) = "")) as [Hr|Hr].
  - left. unfold next_of, successor. by rewrite decide_True.
  - right. apply (next_of_branchRefs branching_dsl R (λ _, [])); [done..|]. unfold next_of, successor. by rewrite decide_False.
Qed.

Lemma next_of_plain R step :
  plausible branching_dsl R → step ∈ dsl_Steps branching_dsl → step_Type step ≠ StepFork →
  branchRefs step ⊆ [configString (step_Config step) "next"] → next_of R step = configString (step_Config step) "next".
Proof.
  intros HR Hin Ht Hsub. pose proof (next_of_cases R step HR Hin Ht) as [H|H%Hsub]%elem_of_cons; [done|].
  by apply list_elem_of_singleton in H.
Qed.

Ltac in_list := apply (bool_decide_unpack _); vm_compute; exact I.

Lemma branching_structured R tail :
  plausible branching_dsl R → next_of R pay = default "" (head tail) → tail = [] ∨ tail = ["card"] ∨ tail = ["cash"] →
  structured branching_dsl R (branching_chains tail).
Proof.
  intros HR Hpay Htail.
  assert (Hlabel : next_of R (work "pack" [("next", VStr "label")]) = "label") 
    by (apply next_of_plain; [done|by apply (list_elem_of_lookup_2 _ 2)|done|in_list]).
  assert (Hend : ∀ i id, dsl_Steps branching_dsl !! i = Some (work id []) → next_of R (work id []) = "").
  { intros i id Hi. apply next_of_plain; [done|by apply (list_elem_of_lookup_2 _ i)|done|].
    intros x Hx. by apply elem_of_nil in Hx. }
  constructor.
  - rewrite branching_normal. intros step ref Hin Ht.
    repeat (apply elem_of_cons in Hin as [->|Hin]; [done || (vm_compute; by intros ?%elem_of_nil)|]). by apply elem_of_nil in Hin.
  - intros fork Hin Ht. rewrite (branching_fork fork Hin Ht). unfold normal_id. in_list.
  - intros fork Hin Ht. rewrite (branching_fork fork Hin Ht). split; [vm_compute; reflexivity|].
    assert (Hj : forkJoinID branching_dsl route = "meet") by (vm_compute; reflexivity). rewrite Hj. unfold branching_chains.
    apply Forall_cons_2; [|apply Forall_cons_2; [|apply Forall_nil_2]]; (split; [done|]).
    + cbn [branch_path]. split_and!; try done; (eexists; split; [vm_compute; reflexivity|]); split; try done.
      left. by apply (Hend 3).
    + destruct Htail as [-> |[-> | ->]]; cbn [branch_path]; split_and!; try done;
        (eexists; split; [vm_compute; reflexivity|]); split; try done; left; first [exact Hpay|by apply (Hend 5)|by apply (Hend 6)].
  - intros fork _ _. destruct Htail as [-> |[-> | ->]]; in_list.
  - intros f f' x Hf Hf' Ht Ht' _ _. by rewrite (branching_fork f Hf Ht), (branching_fork f' Hf' Ht').
Qed.

Lemma branching_forked : forked branching_dsl.
Proof.
  split.
  - destruct (Validate_spec [] None NewValidator branching_dsl) as (r & Hr & Hok). apply Hok.
    vm_compute in Hr. by injection Hr as <-.
  - by rewrite branching_normal.
  - intros R HR.
    assert (Hpay : next_of R pay ∈ [""; "card"; "cash"]).
    { apply (next_of_cases R pay); [done|by apply (list_elem_of_lookup_2 _ 4)|done]. }
    assert (Hoff : CompensationRefs branching_dsl = {["refund"]}) by (vm_compute; reflexivity). rewrite Hoff.
    apply elem_of_cons in Hpay as [Hpay|[Hpay|Hpay%list_elem_of_singleton]%elem_of_cons];
      [exists (branching_chains [])|exists (branching_chains ["card"])|exists (branching_chains ["cash"])];
      (split; [apply branching_structured; auto|]);
      intros fork x _ _ Hx ->%elem_of_singleton; revert Hx; apply (bool_decide_unpack _); vm_compute; exact I.
Qed.

(** The orders that are paid in cash. *)
Definition cash_answers (step : Step) : option string := if decide (step_Type step = StepCondition) then Some "cash" else None.
Definition cash_schedule : list (Step * gmap string ForkState) * gmap string ForkState :=
  default ([], ∅) (schedule branching_dsl cash_answers).

Lemma cash_plausible : plausible branching_dsl cash_answers.
Proof.
  intros step Hin Ht r n. unfold answer, cash_answers. intros [= <-]. simpl. case_decide as Hc; [intros [= <-]|done].
  apply list_elem_of_lookup in Hin as [i Hi].
  do 10 (destruct i as [|i]; [injection Hi as <-; first [discriminate Hc|vm_compute; right; left]|]). done.
Qed.

Lemma cash_lived : ∃ b, life_path branching_dsl 8 initial b ∧
  a_done b = ["check"; "route"; "pack"; "label"; "pay"; "cash"; "meet"; "ship"].
Proof.
  destruct (schedule_lived branching_dsl branching_forked cash_answers cash_schedule.1 cash_schedule.2)
    as (b & Hb & _ & Hdone & _).
  - exact cash_plausible.
  - vm_compute. reflexivity.
  - apply (bool_decide_unpack _). vm_compute. exact I.
  - exists b. split; [exact Hb|]. rewrite Hdone. vm_compute. reflexivity.
Qed.

Lemma forked_workflow_terminates_witness : ∃ b,
  a_done b = ["check"; "route"; "pack"; "label"; "pay"; "cash"; "meet"; "ship"] ∧ 8 ≤ length (dsl_Steps branching_dsl).
Proof.
  destruct cash_lived as (b & Hb & Hdone). exists b. split; [exact Hdone|].
  exact (proj2 (forked_workflow_terminates branching_dsl 8 b branching_forked Hb)).
Defined.
