(* ===== verification/System.v ===== *)
(** * The whole system under concurrency

    Every goroutine of the program (consumers, recovery, timer service, HTTP handlers)
    is safe, so the guarantees of [evolves] hold in every interleaved run of any number
    of processes, with any faults and crashes. *)

From S2P Require Import Prelude GoNum GoString GoTime Workflow Accessors Machine BranchSteps.
From S2P Require Import MachineFacts Json Store Externals Effects Security Timer Worker Engine.
From S2P Require Import Lifecycle Evolves Concurrency Framed EngineSafe Validator ValidatorProps Api.
From S2P Require Import PostgresLaws StoreProps.

(** The timer service is given [engine.Enqueue], as main.go does, or nothing. *)
Definition wired (s : Service) : Prop := s_enqueue s = None ∨ s_enqueue s = Some Enqueue.

Definition engine_wired (e : Engine) : Prop :=
  match e_timers e with Some s => wired s | None => True end.

(** The goroutines of the system: those of [engine.Run], the timer service, one per
    HTTP request. *)
Inductive goroutine `{Externals} `{GoArch} : prog () → Prop :=
| go_start : goroutine (_ ← Run_start; mret ())
| go_engine e n t : engine_wired e → t ∈ Run_goroutines e n → goroutine t
| go_timer s events : wired s → goroutine (Run s events)
| go_request v keys h r : goroutine (_ ← Router v keys h r; mret ()).

Lemma wired_enqueue_ok s : wired s → enqueue_ok s.
Proof. unfold wired, enqueue_ok. intros [-> | ->]; [done|]. intros id. apply framed_Enqueue. Qed.

Section system.
Context `{Externals} `{GoArch} {S : Type} `{RepositoryLaws S}.
Implicit Types (w : World S).

(** ** Safety of the goroutines *)

Section one_engine.
Variable e : Engine.
Hypothesis He : engine_wired e.

Lemma engine_timers_ok : match e_timers e with Some s => enqueue_ok s | None => True end.
Proof. unfold engine_wired in He. destruct (e_timers e); [by apply wired_enqueue_ok|done]. Qed.

Lemma safe_Advance id w : safe (Advance e id) always w.
Proof.
  unfold Advance. apply safe_framed_bind; [framed_walk|]. intros n w1 _.
  apply safe_framed_bind; [framed_walk|]. intros now w2 _. apply safe_try.
  apply safe_claim; [|done]. intros inst w3 Hid Hlive Hk. apply safe_defer.
  eapply safe_mono, (safe_advance_claimed e engine_timers_ok inst w3 Hk Hlive).
  intros r w4 _. apply safe_framed. framed_walk.
Qed.

Lemma safe_processMessage m w : safe (processMessage e m) always w.
Proof.
  unfold processMessage. case_decide; [apply safe_framed; framed_walk|].
  apply safe_bind. eapply safe_mono, safe_Advance. intros r w1 _. apply safe_framed. framed_walk.
Qed.

Lemma safe_process_all ms w : safe (process_all e ms) always w.
Proof.
  revert w. induction ms as [|m ms IH]; intros w; [done|]. cbn [process_all]. apply safe_bind.
  eapply safe_mono, safe_processMessage. intros _ w1 _. apply IH.
Qed.

Lemma safe_consume n i w : safe (consume e n i) always w.
Proof.
  unfold consume. generalize (e_consumer e +:+ "-" +:+ dec i). intros name.
  revert w. induction n as [|n IH]; intros w; [done|]. cbn [consume_loop].
  apply safe_framed_bind; [framed_walk|]. intros [err|] w1 _; [done|]. apply safe_bind.
  assert (Hreclaim : safe (reclaimPending e name) always w1).
  { unfold reclaimPending. apply safe_framed_bind; [framed_walk|].
    intros [ms|err] w2 _; [apply safe_process_all|done]. }
  eapply safe_mono, Hreclaim. intros _ w2 _.
  apply safe_framed_bind; [framed_walk|]. intros msgs w3 _. apply safe_bind.
  assert (Hread : safe (match msgs with Ok ms => process_all e ms | Err _ => mret () end) always w3)
    by (destruct msgs; [apply safe_process_all|done]).
  eapply safe_mono, Hread. intros _ w4 _. apply IH.
Qed.
End one_engine.

Lemma safe_create {A} tenant def input (k : res Instance_ → prog A) Q w :
  (∀ r w', safe (k r) Q w') → safe (PCall (ERepo (OpCreateInstance tenant def input)) k) Q w.
Proof.
  intros Hk w1 c Hw.
  pose proof (handle_defs (ERepo (OpCreateInstance tenant def input)) c w1) as HD. revert HD. simpl.
  set (op := repo_exec (OpCreateInstance tenant def input) (c_tick c)).
  assert (Hold : ∀ id a, repo_view (w_repo w1) id = Some a →
    repo_view (with_fault (c_fault c) op (w_repo w1)).2 id = Some a).
  { intros id a Ha. apply (with_fault_snd _ op (λ s, repo_view s id = Some a)); [done|by apply law_create]. }
  assert (Hnew : ∀ id b, repo_view (with_fault (c_fault c) op (w_repo w1)).2 id = Some b →
    repo_view (w_repo w1) id = Some b ∨ newborn b).
  { intros id b. apply (with_fault_snd _ op (λ s, repo_view s id = Some b → _)); [by left|apply law_created]. }
  destruct (with_fault (c_fault c) op (w_repo w1)) as [r s]. simpl in *. intros HD. split; [|apply Hk].
  apply world_evolves_intro; [done| |].
  - simpl. intros id b Hb. destruct (repo_view (w_repo w1) id) as [a|] eqn:Ha.
    + left. exists a. split; [done|]. rewrite (Hold _ _ Ha) in Hb. by injection Hb as <-.
    + right. split; [done|]. destruct (Hnew _ _ Hb); [congruence|done].
  - simpl. intros id [a Ha]. exists a. by apply Hold.
Qed.

Lemma framed_createDefinition v p body : framed (createDefinition v p body).
Proof.
  unfold createDefinition. destruct body as [d|]; [|done]. framed_step; [framed_walk|].
  framed_step; [framed_walk|]. destruct (Validate_spec a0 a v d) as (r & -> & _). framed_walk.
Qed.

Lemma safe_createInstance p body w : safe (createInstance p body) always w.
Proof.
  unfold createInstance. destruct body as [[id input]|]; [|done]. case_decide; [done|].
  apply safe_framed_bind; [framed_walk|]. intros [d|err] w1 _; [|done].
  apply safe_create. intros [i|err] w2; [|done]. apply safe_framed. framed_walk.
Qed.

Lemma safe_Router v keys h r w : safe (Router v keys h r) always w.
Proof.
  assert (Hprot : ∀ allowed handler, (∀ p, safe (handler p) always w) → safe (protected keys h allowed handler) always w).
  { intros allowed handler Hh. unfold protected. destruct (authenticate keys h); [|done].
    cbv zeta. destruct (requireRole _ _); [apply Hh|done]. }
  destruct r; cbn [Router].
  - done.
  - apply safe_framed. unfold readyz. framed_walk.
  - apply Hprot. intros p. apply safe_framed, framed_createDefinition.
  - apply Hprot. intros p. apply safe_createInstance.
  - apply Hprot. intros p. apply safe_framed. unfold getInstance. framed_walk.
Qed.

Lemma safe_ignore {A} (p : prog A) w : safe p always w → safe (_ ← p; mret ()) always w.
Proof. intros Hp. apply safe_bind. by eapply safe_mono, Hp. Qed.

Lemma goroutine_safe t w : goroutine t → safe t always w.
Proof.
  intros [ |e n t' He Ht|s events Hs|v keys h r].
  - apply safe_framed, framed_bind; [apply framed_Run_start|done].
  - unfold Run_goroutines in Ht. apply elem_of_app in Ht as [Ht| ->%list_elem_of_singleton].
    + apply list_elem_of_fmap in Ht as (i & -> & _). by apply safe_consume.
    + apply safe_framed, framed_recoveryLoop.
  - apply safe_framed, framed_timer, framed_Run. by apply wired_enqueue_ok.
  - apply safe_ignore, safe_Router.
Qed.

(** ** Runs of the system *)

(** [p] is reached from the world [w] with no goroutine running. *)
Definition reached w (p : pool S) : Prop := rtc (pool_step goroutine) (mkPool [] w) p.

Lemma reached_safe w p :
  reached w p → Forall (λ t, safe t always (p_world p)) (p_threads p) ∧ world_evolves w (p_world p).
Proof. intros Hr. apply (pool_run_safe _ _ _ (λ t w, goroutine_safe t w) Hr). constructor. Qed.

(** Any two points of a run. *)
Lemma later_world_evolves w p p' :
  reached w p → rtc (pool_step goroutine) p p' → world_evolves (p_world p) (p_world p').
Proof.
  intros [Hs _]%reached_safe Hrun. by apply (pool_run_safe _ _ _ (λ t w, goroutine_safe t w) Hrun Hs).
Qed.

Lemma later_evolves w p p' id a :
  reached w p → rtc (pool_step goroutine) p p' → repo_view (w_repo (p_world p)) id = Some a →
  ∃ b, repo_view (w_repo (p_world p')) id = Some b ∧ evolves (repo_def (w_repo (p_world p'))) a b.
Proof. intros Hr Hrun. by apply (we_rows _ _ (later_world_evolves _ _ _ Hr Hrun)). Qed.

(** C1: no goroutine of the system ever panics: in every interleaving of any number of
    workers, recovery loops, timer services and requests, with any faults and crashes. *)
Theorem system_never_panics w p : reached w p → ¬ panics p.
Proof. intros [Hs _]%reached_safe. by apply safe_no_panic. Qed.

(** C2: no lost update: from any reached point on, the version of an instance never
    decreases, and as long as the version is the same the row is the same; so a worker's
    save, which expects the version it read, never overwrites another worker's. *)
Theorem no_lost_update w p p' id a :
  reached w p → rtc (pool_step goroutine) p p' → repo_view (w_repo (p_world p)) id = Some a →
  ∃ b, repo_view (w_repo (p_world p')) id = Some b ∧ (i_Version a ≤ i_Version b)%Z ∧
    (i_Version a = i_Version b → b = a).
Proof.
  intros Hr Hrun Ha. destruct (later_evolves _ _ _ _ _ Hr Hrun Ha) as (b & Hb & Hev).
  exists b. split_and!; [done|apply Hev|apply Hev].
Qed.

(** C10: a finished instance is frozen: once completed or failed, no run changes its row. *)
Theorem finished_frozen w p p' id a :
  reached w p → rtc (pool_step goroutine) p p' → repo_view (w_repo (p_world p)) id = Some a →
  terminal (i_Status a) → repo_view (w_repo (p_world p')) id = Some a.
Proof.
  intros Hr Hrun Ha Ht. destruct (later_evolves _ _ _ _ _ Hr Hrun Ha) as (b & Hb & Hev).
  by rewrite Hb, (ev_terminal _ _ _ Hev Ht).
Qed.

(** C11: saga: an instance that has failed or begun to compensate never completes, never goes
    back to its normal path, and its compensation queue only loses its first elements. *)
Theorem compensation_is_final w p p' id a :
  reached w p → rtc (pool_step goroutine) p p' → repo_view (w_repo (p_world p)) id = Some a →
  compensating a →
  ∃ b, repo_view (w_repo (p_world p')) id = Some b ∧ i_Status b ≠ InstanceCompleted ∧
    compensating b ∧ comp_queue b `suffix_of` comp_queue a.
Proof.
  intros Hr Hrun Ha Hc. destruct (later_evolves _ _ _ _ _ Hr Hrun Ha) as (b & Hb & Hev).
  destruct (ev_comp _ _ _ Hev Hc) as [Hcb Hq]. exists b. split_and!; [done|apply Hcb|done|done].
Qed.

(** C12: durable progress: a completed step is never forgotten (the list of completed steps
    only grows at its end), the attempt counter of a step never decreases, the idempotency
    key of a step, once chosen, is the same in every later attempt, and the identity,
    definition and input of the instance never change. *)
Theorem progress_is_durable w p p' id a :
  reached w p → rtc (pool_step goroutine) p p' → repo_view (w_repo (p_world p)) id = Some a →
  ∃ b, repo_view (w_repo (p_world p')) id = Some b ∧
    steps_done a `prefix_of` steps_done b ∧
    (∀ step, (attempts a step ≤ attempts b step)%Z) ∧
    (∀ step, idem_key a step ≠ "" → idem_key b step = idem_key a step) ∧
    i_TenantID b = i_TenantID a ∧ i_DefinitionID b = i_DefinitionID a ∧ i_Input b = i_Input a.
Proof.
  intros Hr Hrun Ha. destruct (later_evolves _ _ _ _ _ Hr Hrun Ha) as (b & Hb & Hev).
  destruct (ev_id _ _ _ Hev) as (_ & ? & ? & _ & ?).
  exists b. split_and!; try done; apply Hev.
Qed.
End system.

(** ** A concrete run

    One consumer with the PostgreSQL repository takes a task from the stream and runs
    the step [reserve] of the order example. *)

(** The calls of one goroutine with the given choices. *)
Fixpoint steps {S} `{Repository S} {A} (p : prog A) (cs : list choice) (w : World S) {struct cs} : prog A * World S :=
  match cs, p with
  | c :: cs, PCall e k => let '(r, w') := handle e c w in steps (k r) cs w'
  | _, _ => (p, w)
  end.

Lemma steps_run {S} `{Repository S} (starts : prog () → Prop) (p : prog ()) cs (w : World S) :
  rtc (pool_step starts) (mkPool [p] w) (mkPool [(steps p cs w).1] (steps p cs w).2).
Proof.
  revert p w. induction cs as [|c cs IH]; intros p w; [apply rtc_refl|].
  destruct p as [a| |R e k]; [apply rtc_refl..|]. simpl. destruct (handle e c w) as [r w'] eqn:Heq.
  eapply rtc_l; [by apply (ps_call starts [] [] w R e k c r w')|]. apply IH.
Qed.

Definition demo_engine : Engine :=
  NewEngine "host" 1 (NewExecutor None) (Some (NewTimer (Some Enqueue) (mkTimerConfig "" 0 0)))
    (mkEngineConfig "" "" "" 0 0 0).
Definition demo_choice : choice :=
  mkChoice NoFault (mkTick 100 100 "u1" [] [] []) 100 "key-1" 1 [] None (Err (ErrText "")) (Err (ErrText "")).
Definition demo_world (status : string) (s : RuntimeState) : World DB :=
  mkWorld (mkDB {["d1" := order_definition]}
             {["i1" := mkRow (with_progress order_instance status (Some "reserve") s) None None]} ∅ ∅)
          (mkRedis 1 true [mkMessage "0" (Some "i1")] [] ∅).
Definition demo_row (status : string) (s : RuntimeState) : Instance_ :=
  with_progress order_instance status (Some "reserve") s.

#[local] Existing Instance toy_externals.

Definition demo_end (w : World DB) : pool DB :=
  let r := steps (consume demo_engine 1 0) (replicate 60 demo_choice) w in mkPool [r.1] r.2.

Lemma demo_run w : rtc (pool_step goroutine) (mkPool [] w) (demo_end w).
Proof.
  eapply rtc_l; [|apply steps_run]. apply ps_start. apply (go_engine demo_engine 1).
  - right. reflexivity.
  - apply elem_of_app. left. apply list_elem_of_here.
Qed.

(** The step is done, the instance moved on and a task for the next step is queued. *)
Example demo_result :
  match p_world (demo_end (demo_world InstanceRunning NewRuntimeState)) with
  | mkWorld db rd =>
      (fun row => (i_Status (row_inst row), i_CurrentStepID (row_inst row), i_Version (row_inst row),
                   rs_Completed (i_State (row_inst row)), locked_by row)) <$> db_instances db !! "i1"
        = Some (InstanceRunning, Some "ship", 5%Z, ["reserve"], None) ∧
      msg_InstanceID <$> rd_stream rd = [Some "i1"] ∧ rd_pending rd = []
  end.
Proof. vm_compute. done. Qed.

Definition running_world : World DB := demo_world InstanceRunning NewRuntimeState.
Definition comp_state : RuntimeState := with_CompensationQueue NewRuntimeState ["ship"; "reserve"].
Definition comp_world : World DB := demo_world InstanceCompensating comp_state.
Definition done_world : World DB := demo_world InstanceCompleted NewRuntimeState.

Lemma system_never_panics_witness : ¬ panics (demo_end running_world).
Proof. apply (system_never_panics running_world (demo_end running_world)). apply demo_run. Defined.

Lemma no_lost_update_witness :
  ∃ b, repo_view (w_repo (p_world (demo_end running_world))) "i1" = Some b ∧ (3 ≤ i_Version b)%Z ∧
    (3%Z = i_Version b → b = demo_row InstanceRunning NewRuntimeState).
Proof.
  apply (no_lost_update running_world (mkPool [] running_world) (demo_end running_world) "i1"
           (demo_row InstanceRunning NewRuntimeState)).
  - constructor.
  - apply demo_run.
  - vm_compute. reflexivity.
Defined.

Lemma finished_frozen_witness :
  repo_view (w_repo (p_world (demo_end done_world))) "i1" = Some (demo_row InstanceCompleted NewRuntimeState).
Proof.
  apply (finished_frozen done_world (mkPool [] done_world) (demo_end done_world) "i1").
  - constructor.
  - apply demo_run.
  - vm_compute. reflexivity.
  - left. reflexivity.
Defined.

Lemma compensation_is_final_witness :
  ∃ b, repo_view (w_repo (p_world (demo_end comp_world))) "i1" = Some b ∧ i_Status b ≠ InstanceCompleted ∧
    compensating b ∧ comp_queue b `suffix_of` ["ship"; "reserve"].
Proof.
  apply (compensation_is_final comp_world (mkPool [] comp_world) (demo_end comp_world) "i1"
           (demo_row InstanceCompensating comp_state)).
  - constructor.
  - apply demo_run.
  - vm_compute. reflexivity.
  - split; [discriminate|]. left. reflexivity.
Defined.

Lemma progress_is_durable_witness :
  ∃ b, repo_view (w_repo (p_world (demo_end running_world))) "i1" = Some b ∧
    [] `prefix_of` steps_done b ∧
    (∀ step, (attempts (demo_row InstanceRunning NewRuntimeState) step ≤ attempts b step)%Z) ∧
    (∀ step, idem_key (demo_row InstanceRunning NewRuntimeState) step ≠ "" →
       idem_key b step = idem_key (demo_row InstanceRunning NewRuntimeState) step) ∧
    i_TenantID b = "acme" ∧ i_DefinitionID b = "d1" ∧ i_Input b = Some ∅.
Proof.
  apply (progress_is_durable running_world (mkPool [] running_world) (demo_end running_world) "i1"
           (demo_row InstanceRunning NewRuntimeState)).
  - constructor.
  - apply demo_run.
  - vm_compute. reflexivity.
Defined.

(** ** A task that is lost

    Two consumers: the first has saved the next step and queued its task, but not yet
    released the lease; the second takes that task, finds the instance busy and
    acknowledges it; then the first releases the lease. *)

Lemma steps_in {S} `{Repository S} (starts : prog () → Prop) ts1 (p : prog ()) ts2 cs (w : World S) :
  rtc (pool_step starts) (mkPool (ts1 ++ p :: ts2) w) (mkPool (ts1 ++ (steps p cs w).1 :: ts2) (steps p cs w).2).
Proof.
  revert p w. induction cs as [|c cs IH]; intros p w; [apply rtc_refl|].
  destruct p as [a| |R e k]; [apply rtc_refl..|]. simpl. destruct (handle e c w) as [r w'] eqn:Heq.
  eapply rtc_l; [by apply (ps_call starts ts1 ts2 w R e k c r w')|]. apply IH.
Qed.

Definition demo_choice2 : choice :=
  mkChoice NoFault (mkTick 100 100 "u2" [] [] []) 100 "key-2" 2 [] None (Err (ErrText "")) (Err (ErrText "")).
Definition first1 := steps (consume demo_engine 1 0) (replicate 20 demo_choice) running_world.
Definition second := steps (consume demo_engine 1 1) (replicate 20 demo_choice2) first1.2.
Definition first2 := steps first1.1 (replicate 20 demo_choice) second.2.

(** C39: a lost wake-up: the engine queues the task of the next step before it releases the
    lease, and a worker that finds the instance busy acknowledges its task; in this
    interleaving of two consumers without any fault the system comes to rest with an
    unfinished, unleased instance, and no task, no pending delivery and no timer for it. *)
Theorem busy_ack_loses_task :
  ∃ p, reached running_world p ∧ p_threads p = [PRet (); PRet ()] ∧
    rd_stream (w_redis (p_world p)) = [] ∧ rd_pending (w_redis (p_world p)) = [] ∧
    db_timers (w_repo (p_world p)) = ∅ ∧
    ∃ row, db_instances (w_repo (p_world p)) !! "i1" = Some row ∧ i_Status (row_inst row) = InstanceRunning ∧
      i_CurrentStepID (row_inst row) = Some "ship" ∧ locked_by row = None.
Proof.
  assert (Hg : ∀ i, i ∈ seq 0 4 → goroutine (consume demo_engine 1 (Z.of_nat i))).
  { intros i Hi. apply (go_engine demo_engine 1); [by right|]. apply elem_of_app. left.
    apply list_elem_of_fmap. by exists i. }
  exists (mkPool [second.1; first2.1] first2.2). split.
  - eapply rtc_l; [apply ps_start, (Hg 0); set_solver|].
    etrans; [apply (steps_in goroutine [] _ [] (replicate 20 demo_choice))|]. fold first1.
    eapply rtc_l; [apply ps_start, (Hg 1); set_solver|].
    etrans; [apply (steps_in goroutine [] _ _ (replicate 20 demo_choice2))|]. fold second.
    apply (steps_in goroutine [_] _ [] (replicate 20 demo_choice)).
  - vm_compute. repeat split. eexists. repeat split.
Qed.
