(* ===== verification/Refinement.v ===== *)
(** * The system refines the lifecycle

    In every interleaved run of any number of processes, with any faults and crashes,
    the rows of an instance go through the moves of [life] only.  What every lifecycle
    satisfies ([life_ok], [on_course]) then holds of every row of every run that starts
    from a database without instances. *)

From S2P Require Import Prelude GoNum GoString GoTime Workflow Accessors Machine BranchSteps.
From S2P Require Import MachineFacts Json Store Externals Effects Security Timer Worker Engine.
From S2P Require Import Validator ValidatorProps Lifecycle LifecycleProps Acyclic.
From S2P Require Import Evolves Concurrency Framed EngineSafe Api PostgresLaws StoreProps Calm ScriptRun LinearRun.
From S2P Require Import ScheduleRun Structured Follows System.

Section refinement.
Context `{Externals} `{GoArch} {S : Type} `{RepositoryLaws S}.
Implicit Types (w : World S) (a b : Instance_).

(** The definition of an instance, as the repository has it. *)
Definition definition_of w (i : Instance_) : option DefinitionDSL :=
  repo_def (w_repo w) (i_TenantID i) (i_DefinitionID i).

Lemma life_of_definition w i x y :
  rtc (life_of (repo_def (w_repo w)) i) x y → x = y ∨ ∃ d, definition_of w i = Some d ∧ rtc (life (NewMachine d)) x y.
Proof.
  induction 1 as [|x y z (d & Hd & Hxy) _ IH]; [by left|]. right. exists d. split; [done|].
  destruct IH as [->|(d' & Hd' & Hyz)]; [by apply rtc_once|]. eapply rtc_l; [exact Hxy|].
  unfold definition_of in Hd'. rewrite Hd in Hd'. injection Hd' as <-. exact Hyz.
Qed.

Lemma newborn_initial i : newborn i → abs i = initial.
Proof. intros (Hst & Hcur & started & Hs). unfold abs. by rewrite Hst, Hcur, Hs. Qed.

(** C8: refinement: between any two points of any run, an instance has gone from its first
    row to its second by moves of the abstract lifecycle, with the machine of the definition
    stored in the repository (or it has not changed in the abstract). *)
Theorem system_refines_lifecycle w p p' id a :
  reached w p → rtc (pool_step goroutine) p p' → repo_view (w_repo (p_world p)) id = Some a →
  ∃ b, repo_view (w_repo (p_world p')) id = Some b ∧
    (abs a = abs b ∨ ∃ d, definition_of (p_world p') a = Some d ∧ rtc (life (NewMachine d)) (abs a) (abs b)).
Proof.
  intros Hr Hrun Ha. destruct (later_evolves _ _ _ _ _ Hr Hrun Ha) as (b & Hb & Hev).
  exists b. split; [done|]. apply life_of_definition, Hev.
Qed.

(** From a database without instances, every row comes from a new one. *)
Definition no_instances w : Prop := ∀ id, repo_view (w_repo w) id = None.

Lemma reachable_row w p id b :
  no_instances w → reached w p → repo_view (w_repo (p_world p)) id = Some b →
  abs b = initial ∨ ∃ d, definition_of (p_world p) b = Some d ∧ rtc (life (NewMachine d)) initial (abs b).
Proof.
  intros Hnone [_ Hev]%reached_safe Hb. destruct (we_new _ _ Hev id b Hb) as [[a Ha]|(a & Hnew & Hab)].
  { by rewrite Hnone in Ha. }
  rewrite <- (newborn_initial a Hnew). destruct (ev_id _ _ _ Hab) as (_ & Ht & Hd & _).
  destruct (life_of_definition _ _ _ _ (ev_life _ _ _ Hab)) as [->|(d & Hdef & Hl)]; [by left|]. right. exists d.
  split; [|done]. unfold definition_of in *. by rewrite Ht, Hd.
Qed.

Lemma row_ok w p id b :
  no_instances w → reached w p → repo_view (w_repo (p_world p)) id = Some b →
  ∃ d, (abs b = initial ∨ definition_of (p_world p) b = Some d) ∧ life_ok d (abs b).
Proof.
  intros Hn Hr Hb. destruct (reachable_row _ _ _ _ Hn Hr Hb) as [Hi|(d & Hd & Hl)].
  - exists order_dsl. split; [by left|]. rewrite Hi. apply initial_ok.
  - exists d. split; [by right|]. eapply life_path_ok; [exact Hl|apply initial_ok].
Qed.

Lemma steps_of_state i id : gm_get (rs_Steps (i_State i)) id = None ∧ a_steps (abs i) !! id = None ∨
  ∃ st, gm_get (rs_Steps (i_State i)) id = Some st ∧ step_state (i_State i) id = st ∧
    a_steps (abs i) !! id = Some (ss_Status st, ss_Attempt st).
Proof.
  simpl. unfold steps_of, step_state, gm_get. rewrite lookup_fmap. destruct (rs_Steps (i_State i)) as [sm|]; simpl.
  - destruct (sm !! id); simpl; [right; by eexists|by left].
  - rewrite lookup_empty. by left.
Qed.

Lemma step_status_of b step st : st ≠ "" →
  ss_Status (step_state (i_State b) step) = st ↔ ∃ n, a_steps (abs b) !! step = Some (st, n).
Proof.
  intros Hne. destruct (steps_of_state b step) as [[Hg ->]|(x & _ & -> & ->)].
  - unfold step_state. rewrite Hg. split; [by intros <-|by intros []].
  - split; [intros <-; by eexists|by intros [n [= ? _]]].
Qed.

Lemma completed_status b step :
  ss_Status (step_state (i_State b) step) = StepCompleted ↔ ∃ n, a_steps (abs b) !! step = Some (StepCompleted, n).
Proof. by apply step_status_of. Qed.

(** C13: one step at a time: in every row of every run, unless the instance has failed, a step
    that is marked as running is the current step, so no two steps run at once, whatever
    number of workers there are; a failed instance has no current step (a compensation that
    failed leaves its step marked as running there, but nothing works on it); and a step
    waits for a timer exactly when it is the current step of an instance that waits. *)
Theorem one_step_at_a_time w p id b :
  no_instances w → reached w p → repo_view (w_repo (p_world p)) id = Some b →
  (i_Status b ≠ InstanceFailed → ∀ step, ss_Status (step_state (i_State b) step) = StepRunning →
     i_CurrentStepID b = Some step ∧ (i_Status b = InstanceRunning ∨ i_Status b = InstanceCompensating)) ∧
  (i_Status b = InstanceFailed → i_CurrentStepID b = None) ∧
  (∀ step, ss_Status (step_state (i_State b) step) = StepWaitingTimer ↔
     i_Status b = InstanceWaitingTimer ∧ i_CurrentStepID b = Some step).
Proof.
  intros Hn Hr Hb. destruct (row_ok _ _ _ _ Hn Hr Hb) as (d & _ & Hok).
  pose proof (step_status_of b) as Hst.
  split; [|split; [|split]].
  - intros Hf step [n Hs]%Hst; [|done]. by apply (lo_running _ _ Hok step n).
  - intros Hf. apply (lo_terminal _ _ Hok). by right.
  - intros [n Hs]%Hst; [|done]. by destruct (lo_waiting _ _ Hok step n Hs).
  - intros [Hw Hc]. destruct (lo_waits _ _ Hok Hw) as (id' & n & Hc' & Hs). simpl in Hc'. rewrite Hc in Hc'.
    injection Hc' as <-. apply Hst; [done|by exists n].
Qed.

(** C15: a finished instance is at rest: in every row of every run, a completed instance has
    an empty compensation queue, no current step, no step that runs or waits, and every step
    it completed was started; each step is in the list of completed steps once. *)
Theorem completed_is_at_rest w p id b :
  no_instances w → reached w p → repo_view (w_repo (p_world p)) id = Some b →
  NoDup (steps_done b) ∧ (∀ step, step ∈ steps_done b → (1 ≤ attempts b step)%Z) ∧
  (i_Status b = InstanceCompleted →
     i_CurrentStepID b = None ∧ comp_queue b = [] ∧
     ∀ step, ss_Status (step_state (i_State b) step) ≠ StepRunning ∧
             ss_Status (step_state (i_State b) step) ≠ StepWaitingTimer).
Proof.
  intros Hn Hr Hb. destruct (row_ok _ _ _ _ Hn Hr Hb) as (d & _ & Hok). split_and!.
  - apply (lo_nodup _ _ Hok).
  - intros step [[st n] Hs]%(lo_done _ _ Hok). unfold attempts.
    destruct (steps_of_state b step) as [[_ Hg]|(x & _ & Hx & Hg)]; rewrite Hg in Hs; [done|].
    rewrite Hx. destruct (lo_steps _ _ Hok _ _ _ Hg). done.
  - intros Hc. assert (Hnone : i_CurrentStepID b = None) by (apply (lo_terminal _ _ Hok); by left).
    split_and!; [done|by apply (lo_completed _ _ Hok)|]. intros step.
    destruct (steps_of_state b step) as [[Hg _]|(x & _ & Hx & Hg)].
    { unfold step_state. by rewrite Hg. }
    rewrite Hx. split; intros Hst; rewrite Hst in Hg.
    + destruct (lo_running _ _ Hok step _ ltac:(simpl; by rewrite Hc) Hg) as [Hcur _]. simpl in Hcur. congruence.
    + destruct (lo_waiting _ _ Hok step _ Hg) as [Hcur _]. simpl in Hcur. congruence.
Qed.

(** C14: only what ran is undone: in every row of every run, each compensation that is still
    queued is the [on_failure] target of a step of the instance's definition that was
    started at least once; and a live instance with a queue is working on its head. *)
Theorem only_started_steps_undone w p id b t :
  no_instances w → reached w p → repo_view (w_repo (p_world p)) id = Some b → t ∈ comp_queue b →
  ∃ d step, definition_of (p_world p) b = Some d ∧ step ∈ dsl_Steps d ∧ step_OnFailure step = t ∧
    (1 ≤ attempts b (step_ID step))%Z ∧
    (¬ terminal (i_Status b) → i_CurrentStepID b = head (comp_queue b)).
Proof.
  intros Hn Hr Hb Ht. destruct (row_ok _ _ _ _ Hn Hr Hb) as (d & Hd & Hok).
  destruct (lo_queue _ _ Hok t Ht) as (x & Hx & [[st n] Hs]).
  destruct Hd as [Hi|Hd].
  { exfalso. apply (f_equal a_queue) in Hi. unfold comp_queue in Ht. simpl in Hi. rewrite Hi in Ht. by apply elem_of_nil in Ht. }
  unfold on_failure_of in Hx. destruct (StepByID _ x) as [step|] eqn:Hstep; [|done]. simpl in Hx.
  case_decide; [done|]. injection Hx as Hx. destruct (StepByID_Some _ _ _ Hstep) as [Hin Hid]. subst x.
  exists d, step. split_and!; [done..| |].
  - unfold attempts. destruct (steps_of_state b (step_ID step)) as [[_ Hg]|(y & _ & Hy & Hg)]; rewrite Hg in Hs; [done|].
    rewrite Hy. by destruct (lo_steps _ _ Hok _ _ _ Hg).
  - intros Hl. apply (lo_head _ _ Hok); [done|]. simpl. intros Hq. unfold comp_queue in Ht. rewrite Hq in Ht.
    by apply elem_of_nil in Ht.
Qed.

Lemma row_on_schedule w p id b d :
  no_instances w → reached w p → repo_view (w_repo (p_world p)) id = Some b →
  definition_of (p_world p) b = Some d → forked d → on_schedule d (abs b).
Proof.
  intros Hn Hr Hb Hdef Hd. destruct (reachable_row _ _ _ _ Hn Hr Hb) as [->|(d1 & Hd1 & Hl)]; [by apply on_schedule_initial|].
  rewrite Hdef in Hd1. injection Hd1 as <-. by apply reachable_on_schedule.
Qed.

(** No step runs again after it completed: in a validated workflow without forks (whose
    normal steps name no compensation target), in every row of every run of an instance that
    has not failed, the completed steps are marked completed and none of them is the
    current step; so, whatever crashes, retries and duplicate messages there were, a worker
    never starts a completed step again. *)
Theorem completed_steps_never_rerun w p id b d :
  no_instances w → reached w p → repo_view (w_repo (p_world p)) id = Some b →
  definition_of (p_world p) b = Some d → straight d →
  comp_queue b = [] → i_Status b ≠ InstanceCompensating → i_Status b ≠ InstanceFailed →
  ∀ step, step ∈ steps_done b →
    ss_Status (step_state (i_State b) step) = StepCompleted ∧ i_CurrentStepID b ≠ Some step.
Proof.
  intros Hn Hr Hb Hd Hst Hq Hc Hf step Hdone.
  assert (Hoc : on_course d (abs b)).
  { destruct (reachable_row _ _ _ _ Hn Hr Hb) as [->|(d' & Hd' & Hl)]; [by apply on_course_initial|].
    rewrite Hd in Hd'. injection Hd' as <-. by apply reachable_on_course. }
  split; [|intros Hcur; by apply (on_course_current d Hst _ step Hoc)].
  apply (oc_completed _ _ Hoc) in Hdone as [n Hs].
  destruct (steps_of_state b step) as [[_ Hg]|(x & _ & Hx & Hg)]; rewrite Hg in Hs; [done|].
  rewrite Hx. by injection Hs.
Qed.

(** C5: instances follow their schedule: in a validated workflow whose forks are structured
    whatever its conditions answer, in every row of every run, whatever crashes, retries,
    takeovers and duplicate messages there were, there is an orderly schedule, the machine
    stepped alone in memory with some answers of the conditions, such that one of two holds.
    Either no step has failed for good: the steps completed are the first [k] of the schedule,
    each of them once and in that order, they are the steps marked completed, the forks are
    those of the schedule after [k] steps, the current step is the next one (so a completed
    step is never taken up again; a live instance without one has not begun), and an instance
    that is completed has gone through the whole schedule.  Or the step after the first [k] is
    marked failed, and its branch with it: the forks are those of the schedule at that step
    with that failure, what is completed beyond the first [k] are compensations, those done
    and those queued are together exactly the ones due for that step and the first [k], and
    the instance either works on the head of the queue or is over as failed. *)
Theorem instances_follow_schedule w p id b d :
  no_instances w → reached w p → repo_view (w_repo (p_world p)) id = Some b →
  definition_of (p_world p) b = Some d → forked d →
  (∀ step, step ∈ steps_done b ↔ ss_Status (step_state (i_State b) step) = StepCompleted) ∧
  ∃ R l last k, plausible d R ∧ schedule d R = Some (l, last) ∧ orderly l ∧
    ((comp_queue b = [] ∧ i_Status b ≠ InstanceCompensating ∧ i_Status b ≠ InstanceFailed ∧
      steps_done b = take k (ids l) ∧ forks_of (i_State b) = forks_at l last k ∧
      (∀ c, i_CurrentStepID b = Some c → ids l !! k = Some c) ∧
      (¬ terminal (i_Status b) → i_CurrentStepID b = None → k = 0) ∧
      (i_Status b = InstanceCompleted → steps_done b = ids l)) ∨
     (∃ failed undone, ids l !! k = Some failed ∧ ss_Status (step_state (i_State b) failed) = StepFailed ∧
      steps_done b = take k (ids l) ++ undone ∧
      undone ++ comp_queue b = undo_queue (NewMachine d) failed (take k (ids l)) ∧
      (∃ o err, branch_failed o (forks_at l last k) failed err = Done (forks_of (i_State b))) ∧
      (i_Status b = InstanceFailed ∧ i_CurrentStepID b = None ∨
       ¬ terminal (i_Status b) ∧ comp_queue b ≠ [] ∧ i_CurrentStepID b = head (comp_queue b)))).
Proof.
  intros Hn Hr Hb Hdef Hd. pose proof (row_ok _ _ _ _ Hn Hr Hb) as (d' & _ & Hok).
  destruct (row_on_schedule _ _ _ _ _ Hn Hr Hb Hdef Hd) as (R & l & last & k & HR & Hs & Ho & Hcase).
  split.
  { intros step. rewrite completed_status. change (steps_done b) with (a_done (abs b)).
    destruct Hcase as [[_ Hf]|(_ & failed & undone & Hbw)]; [apply Hf|apply Hbw]. }
  exists R, l, last, k. split_and!; [done..|].
  destruct Hcase as [[(Hq & Hc & Hf) [Hle Hfk Hdn Hcur Hfst _ Hfin]]|[Hnm (failed & undone & [Hfa Hdn Hq Hst Hfk _])]]; [left|right].
  - split_and!; try done. intros Hst. change (steps_done b) with (a_done (abs b)). rewrite Hdn, (Hfin Hst). apply take_ge.
    unfold ids. by rewrite length_fmap.
  - exists failed, undone. split_and!; try done; [by apply step_status_of|].
    destruct (decide (i_Status b = InstanceFailed)) as [Hfl|Hfl]; [left; split; [done|apply (lo_terminal _ _ Hok); by right]|].
    assert (Hl : a_live (abs b)).
    { intros [Ht|Ht]; [|done]. apply Hnm. split_and!; [by apply (lo_completed _ _ Hok)|rewrite Ht; discriminate..]. }
    assert (Hqne : a_queue (abs b) ≠ []).
    { intros Hqe. apply Hnm. split_and!; [done| |done]. intros Hc. by apply (lo_compensating _ _ Hok Hc). }
    right. split_and!; [done..|by apply (lo_head _ _ Hok)].
Qed.

(** C16: the join barrier holds in the database.  In every row of every run from a database
    without instances, unless a step has failed, each fork state is well formed: a running
    fork has exactly one running branch, a completed or joined one has all its branches
    completed.  And in every row of a workflow whose forks are structured (each branch a
    chain of steps without a fork in it, whatever the conditions answer), once a fork has
    completed and its join is the current step or has completed, every step of every branch
    of that fork has completed. *)
Theorem join_barrier_persisted w p id b :
  no_instances w → reached w p → repo_view (w_repo (p_world p)) id = Some b →
  (compensating b ∨ forks_ok (i_State b)) ∧
  ∀ d, definition_of (p_world p) b = Some d → forked d →
    ∃ R chains, plausible d R ∧ structured d R chains ∧
      ∀ fork x, fork ∈ m_normal (NewMachine d) → step_Type fork = StepFork → step_ID fork ∈ steps_done b →
        forkJoinID d fork ∈ steps_done b ∨ i_CurrentStepID b = Some (forkJoinID d fork) →
        x ∈ concat (chains fork) → x ∈ steps_done b ∧ ss_Status (step_state (i_State b) x) = StepCompleted.
Proof.
  intros Hn Hr Hb. split.
  - destruct (reached_safe _ _ Hr) as [_ Hev]. destruct (we_new _ _ Hev id b Hb) as [[a Ha]|(a & Hnew & Hab)].
    { by rewrite Hn in Ha. }
    apply (ev_forks _ _ _ Hab). intros k f Hf. apply newborn_initial, (f_equal a_forks) in Hnew. simpl in Hnew.
    unfold forks_of in Hnew. unfold gm_get in Hf. destruct (rs_Forks (i_State a)) as [fm|]; [|done].
    simpl in Hnew. by rewrite Hnew in Hf.
  - intros d Hdef Hd. destruct (row_ok _ _ _ _ Hn Hr Hb) as (d' & Hd' & Hok).
    assert (Hokd : life_ok d (abs b)).
    { destruct Hd' as [->|Hd']; [apply initial_ok|]. rewrite Hdef in Hd'. by injection Hd' as <-. }
    destruct (branches_before_join d Hd _ (row_on_schedule _ _ _ _ _ Hn Hr Hb Hdef Hd) Hokd) as (R & chains & HR & Hst & Hbar).
    exists R, chains. split_and!; [done..|]. intros fork x Hf Ht Hdone Hjoin Hx.
    destruct (Hbar fork x Hf Ht Hdone Hjoin Hx) as [? ?]. split; [done|by apply completed_status].
Qed.
End refinement.

(** ** A concrete run

    A request creates an instance in a database that has definitions only, and a consumer
    takes its task from the stream. *)

#[local] Existing Instance toy_externals.

(** The first step has a type that no executor knows, so it fails and is undone. *)
Definition doomed_dsl : DefinitionDSL :=
  mkDSL "doomed" 1 [mkStep "charge" "unknown" (Some ∅) None "refund";
                    mkStep "refund" StepTransform (obj_map [("expr", VStr "1")]) None ""].
Definition doomed_definition : Definition_ := mkDefinition "d2" "acme" "doomed" 1 doomed_dsl 10 10.

Definition new_world : World DB :=
  mkWorld (mkDB (<["d1" := order_definition]> {["d2" := doomed_definition; "d3" := branching]}) ∅ ∅ ∅) empty_redis.

Definition create_choice : choice :=
  mkChoice NoFault (mkTick 100 100 "i1" [] [] []) 100 "key-1" 1 [] None (Err (ErrText "")) (Err (ErrText "")).
Definition create_request (definition : string) : prog () :=
  _ ← Router NewValidator (ParseAPIKeys "k1=acme:operator") (mkHeaders "Bearer k1" "")
        (ReqCreateInstance (Ok (definition, None))); mret ().
Definition created (definition : string) : prog () * World DB :=
  steps (create_request definition) (replicate 10 create_choice) new_world.
(** [n] calls of a consumer that runs alone. *)
Definition worked (definition : string) (n : nat) : prog () * World DB :=
  steps (consume demo_engine 1 0) (replicate n demo_choice) (created definition).2.
Definition new_end (definition : string) (n : nat) : pool DB :=
  mkPool [(worked definition n).1; (created definition).1] (worked definition n).2.

Lemma new_run definition n : reached new_world (new_end definition n).
Proof.
  eapply rtc_l; [apply ps_start, (go_request NewValidator (ParseAPIKeys "k1=acme:operator") (mkHeaders "Bearer k1" "")
    (ReqCreateInstance (Ok (definition, None))))|].
  etrans; [apply (steps_in goroutine [] _ [] (replicate 10 create_choice))|]. fold (created definition).
  eapply rtc_l; [apply ps_start, (go_engine demo_engine 1); [by right|apply elem_of_app; left; apply list_elem_of_here]|].
  apply (steps_in goroutine [] _ _ (replicate n demo_choice)).
Qed.

Lemma new_world_empty : no_instances new_world.
Proof. intros id. reflexivity. Qed.

(** The rows of the two runs, and of the first one after its first save. *)
Definition row_of (definition : string) (n : nat) : Instance_ :=
  default order_instance (repo_view (w_repo (p_world (new_end definition n))) "i1").

Example rows_reached :
  (i_Status (row_of "d1" 60), i_CurrentStepID (row_of "d1" 60), steps_done (row_of "d1" 60),
   attempts (row_of "d1" 60) "reserve") = (InstanceRunning, Some "ship", ["reserve"], 1%Z) ∧
  (i_Status (row_of "d2" 60), comp_queue (row_of "d2" 60)) = (InstanceCompensating, ["refund"]).
Proof. vm_compute. done. Qed.

Lemma system_refines_lifecycle_witness :
  ∃ b, repo_view (w_repo (p_world (demo_end running_world))) "i1" = Some b ∧
    (abs (demo_row InstanceRunning NewRuntimeState) = abs b ∨
     ∃ d, definition_of (p_world (demo_end running_world)) (demo_row InstanceRunning NewRuntimeState) = Some d ∧
       rtc (life (NewMachine d)) (abs (demo_row InstanceRunning NewRuntimeState)) (abs b)).
Proof.
  apply (system_refines_lifecycle running_world (mkPool [] running_world) (demo_end running_world) "i1"
           (demo_row InstanceRunning NewRuntimeState)).
  - constructor.
  - apply demo_run.
  - vm_compute. reflexivity.
Defined.

Lemma only_started_steps_undone_witness :
  ∃ d step, definition_of (p_world (new_end "d2" 60)) (row_of "d2" 60) = Some d ∧ step ∈ dsl_Steps d ∧
    step_OnFailure step = "refund" ∧ (1 ≤ attempts (row_of "d2" 60) (step_ID step))%Z ∧
    (¬ terminal (i_Status (row_of "d2" 60)) → i_CurrentStepID (row_of "d2" 60) = head (comp_queue (row_of "d2" 60))).
Proof.
  apply (only_started_steps_undone new_world (new_end "d2" 60) "i1" (row_of "d2" 60) "refund"
    new_world_empty (new_run "d2" 60)).
  - vm_compute. reflexivity.
  - replace (comp_queue (row_of "d2" 60)) with ["refund"] by (vm_compute; reflexivity). apply list_elem_of_here.
Defined.

Lemma completed_steps_never_rerun_witness :
  ss_Status (step_state (i_State (row_of "d1" 60)) "reserve") = StepCompleted ∧
  i_CurrentStepID (row_of "d1" 60) ≠ Some "reserve".
Proof.
  apply (completed_steps_never_rerun new_world (new_end "d1" 60) "i1" (row_of "d1" 60) order_dsl
    new_world_empty (new_run "d1" 60)).
  - vm_compute. reflexivity.
  - vm_compute. reflexivity.
  - exact order_straight.
  - vm_compute. reflexivity.
  - vm_compute. discriminate.
  - vm_compute. discriminate.
  - replace (steps_done (row_of "d1" 60)) with ["reserve"] by (vm_compute; reflexivity). apply list_elem_of_here.
Defined.

(** Runs of several tasks: a fresh identifier for each history row. *)
Definition fresh_choices (n : nat) : list choice :=
  (λ i, mkChoice NoFault (mkTick 100 100 ("u" +:+ pretty i) [] [] []) 100 "key-1" 1 [] None (Err (ErrText ""))
          (Err (ErrText ""))) <$> seq 0 n.
Definition tasks_work (definition : string) (tasks : nat) : prog () * World DB :=
  steps (consume demo_engine tasks 0) (fresh_choices (60 * tasks)) (created definition).2.
Definition tasks_end (definition : string) (tasks : nat) : pool DB :=
  mkPool [(tasks_work definition tasks).1; (created definition).1] (tasks_work definition tasks).2.
Definition tasks_row (definition : string) (tasks : nat) : Instance_ :=
  default order_instance (repo_view (w_repo (p_world (tasks_end definition tasks))) "i1").

Lemma tasks_run definition tasks : reached new_world (tasks_end definition tasks).
Proof.
  eapply rtc_l; [apply ps_start, (go_request NewValidator (ParseAPIKeys "k1=acme:operator") (mkHeaders "Bearer k1" "")
    (ReqCreateInstance (Ok (definition, None))))|].
  etrans; [apply (steps_in goroutine [] _ [] (replicate 10 create_choice))|]. fold (created definition).
  eapply rtc_l; [apply ps_start, (go_engine demo_engine tasks); [by right|apply elem_of_app; left; apply list_elem_of_here]|].
  apply (steps_in goroutine [] _ _ (fresh_choices (60 * tasks))).
Qed.

(** The forked example: after five tasks the first branch is done and in the second one the
    condition has chosen; after seven the branches have joined; after eight the last step has
    failed, and after nine the refund is done.  The order is complete after two tasks. *)
Example tasks_rows_reached :
  ((λ i, (i_Status i, i_CurrentStepID i, comp_queue i, length (steps_done i))) ∘ tasks_row "d3" <$> [5; 7; 8; 9]) =
  [(InstanceRunning, Some "card", [], 5); (InstanceRunning, Some "ship", [], 7);
   (InstanceCompensating, Some "refund", ["refund"], 7); (InstanceFailed, None, [], 8)] ∧
  i_Status (tasks_row "d1" 2) = InstanceCompleted.
Proof. vm_compute. split; reflexivity. Qed.

Lemma one_step_at_a_time_witness :
  (ss_Status (step_state (i_State (row_of "d1" 10)) "reserve") = StepRunning ∧
   i_CurrentStepID (row_of "d1" 10) = Some "reserve") ∧
  i_CurrentStepID (tasks_row "d3" 9) = None.
Proof.
  split; [assert (Hrun : ss_Status (step_state (i_State (row_of "d1" 10)) "reserve") = StepRunning)
    by (vm_compute; reflexivity); split; [exact Hrun|]|].
  - refine (proj1 (proj1 (one_step_at_a_time new_world (new_end "d1" 10) "i1" (row_of "d1" 10)
      new_world_empty (new_run "d1" 10) _) _ "reserve" Hrun)).
    + vm_compute. reflexivity.
    + vm_compute. discriminate.
  - refine (proj1 (proj2 (one_step_at_a_time new_world (tasks_end "d3" 9) "i1" (tasks_row "d3" 9)
      new_world_empty (tasks_run "d3" 9) _)) _).
    + vm_compute. reflexivity.
    + vm_compute. reflexivity.
Defined.

Lemma completed_is_at_rest_witness :
  NoDup (steps_done (tasks_row "d1" 2)) ∧
  (∀ step, step ∈ steps_done (tasks_row "d1" 2) → (1 ≤ attempts (tasks_row "d1" 2) step)%Z) ∧
  i_CurrentStepID (tasks_row "d1" 2) = None ∧ comp_queue (tasks_row "d1" 2) = [] ∧
  ∀ step, ss_Status (step_state (i_State (tasks_row "d1" 2)) step) ≠ StepRunning ∧
          ss_Status (step_state (i_State (tasks_row "d1" 2)) step) ≠ StepWaitingTimer.
Proof.
  destruct (completed_is_at_rest new_world (tasks_end "d1" 2) "i1" (tasks_row "d1" 2)
    new_world_empty (tasks_run "d1" 2)) as (Hnd & Hatt & Hrest).
  - vm_compute. reflexivity.
  - split; [exact Hnd|]. split; [exact Hatt|]. apply Hrest. vm_compute. reflexivity.
Defined.

(** A row on its way, and one on its way back. *)
Lemma instances_follow_schedule_witness :
  (∃ R l last k, plausible branching_dsl R ∧ schedule branching_dsl R = Some (l, last) ∧ orderly l ∧
     steps_done (tasks_row "d3" 5) = take k (ids l) ∧ forks_of (i_State (tasks_row "d3" 5)) = forks_at l last k ∧
     ids l !! k = Some "card") ∧
  (∃ R l last k failed undone, plausible branching_dsl R ∧ schedule branching_dsl R = Some (l, last) ∧ orderly l ∧
     ids l !! k = Some failed ∧ ss_Status (step_state (i_State (tasks_row "d3" 8)) failed) = StepFailed ∧
     steps_done (tasks_row "d3" 8) = take k (ids l) ++ undone ∧
     undone ++ ["refund"] = undo_queue (NewMachine branching_dsl) failed (take k (ids l)) ∧
     i_CurrentStepID (tasks_row "d3" 8) = Some "refund").
Proof.
  split.
  - destruct (instances_follow_schedule new_world (tasks_end "d3" 5) "i1" (tasks_row "d3" 5) branching_dsl
      new_world_empty (tasks_run "d3" 5)) as (_ & R & l & last & k & HR & Hs & Ho & Hcase).
    + vm_compute. reflexivity.
    + vm_compute. reflexivity.
    + exact branching_forked.
    + exists R, l, last, k. split; [exact HR|]. split; [exact Hs|]. split; [exact Ho|].
      destruct Hcase as [(_ & _ & _ & Hdone & Hforks & Hcur & _)|(failed & undone & _ & _ & _ & _ & _ & [[Hf _]|(_ & Hq & _)])].
      * split; [exact Hdone|]. split; [exact Hforks|]. apply Hcur. vm_compute. reflexivity.
      * exfalso. revert Hf. vm_compute. discriminate.
      * exfalso. apply Hq. vm_compute. reflexivity.
  - destruct (instances_follow_schedule new_world (tasks_end "d3" 8) "i1" (tasks_row "d3" 8) branching_dsl
      new_world_empty (tasks_run "d3" 8)) as (_ & R & l & last & k & HR & Hs & Ho & Hcase).
    + vm_compute. reflexivity.
    + vm_compute. reflexivity.
    + exact branching_forked.
    + destruct Hcase as [(Hq & _)|(failed & undone & Hfailed & Hst & Hdone & Hundo & _ & Hwork)].
      * exfalso. revert Hq. vm_compute. discriminate.
      * exists R, l, last, k, failed, undone.
        assert (Hqueue : comp_queue (tasks_row "d3" 8) = ["refund"]) by (vm_compute; reflexivity).
        rewrite Hqueue in Hundo, Hwork. split; [exact HR|]. split; [exact Hs|]. split; [exact Ho|].
        split; [exact Hfailed|]. split; [exact Hst|]. split; [exact Hdone|]. split; [exact Hundo|].
        destruct Hwork as [[Hf _]|(_ & _ & Hcur)]; [exfalso; revert Hf; vm_compute; discriminate|exact Hcur].
Defined.

(** The branches have joined. *)
Lemma join_barrier_persisted_witness :
  (compensating (tasks_row "d3" 7) ∨ forks_ok (i_State (tasks_row "d3" 7))) ∧
  ∃ R chains, plausible branching_dsl R ∧ structured branching_dsl R chains ∧
    ∀ x, x ∈ concat (chains route) →
      x ∈ steps_done (tasks_row "d3" 7) ∧ ss_Status (step_state (i_State (tasks_row "d3" 7)) x) = StepCompleted.
Proof.
  destruct (join_barrier_persisted new_world (tasks_end "d3" 7) "i1" (tasks_row "d3" 7)
    new_world_empty (tasks_run "d3" 7)) as [Hforks Hbar].
  - vm_compute. reflexivity.
  - split; [exact Hforks|]. destruct (Hbar branching_dsl) as (R & chains & HR & Hst & Hdone).
    + vm_compute. reflexivity.
    + exact branching_forked.
    + exists R, chains. split; [exact HR|]. split; [exact Hst|]. intros x. apply Hdone.
      * rewrite branching_normal. apply list_elem_of_further, list_elem_of_here.
      * reflexivity.
      * apply (bool_decide_unpack _). vm_compute. exact I.
      * left. apply (bool_decide_unpack _). vm_compute. exact I.
Defined.
