(* ===== verification/SchemaProps.v ===== *)
(** * The repository obeys the schema

    Every method keeps [schema_ok] ([schema_ok_exec]); its writing statement, as SQL on
    the tables, has the effect of the function of [Store] and fails exactly when that
    function reports an error of the database (the [*_refines] lemmas). *)

From stdpp Require Import sorting.
From S2P Require Import Prelude GoNum GoTime Workflow Accessors Json Store Effects.
From S2P Require Import PostgresLaws StoreFacts Sql Schema SchemaFacts Externals Concurrency System StoreProps Validator Api.

Section schema.
Context `{PgClock}.
Implicit Types (db : DB) (id : string).

(** ** Every method keeps the schema *)

(** The instances keep their keys and what they refer to. *)
Lemma schema_ok_instances db m' :
  (∀ i r', m' !! i = Some r' → ∃ r, db_instances db !! i = Some r ∧
     i_TenantID (row_inst r') = i_TenantID (row_inst r) ∧ i_DefinitionID (row_inst r') = i_DefinitionID (row_inst r)) →
  (∀ i, is_Some (db_instances db !! i) → is_Some (m' !! i)) →
  schema_ok db → schema_ok (set_instances db m').
Proof.
  intros Hrows Hdom [Hn Hi Hh Ht]. split; simpl; [done| | |].
  - intros i r' Hr'. destruct (Hrows i r' Hr') as (r & Hr & -> & ->). by apply (Hi i).
  - intros i h Hih. by eapply Hdom, Hh.
  - intros i t Hit. by eapply Hdom, Ht.
Qed.

(** One instance replaced. *)
Lemma schema_ok_replace db id r r' :
  db_instances db !! id = Some r →
  i_TenantID (row_inst r') = i_TenantID (row_inst r) → i_DefinitionID (row_inst r') = i_DefinitionID (row_inst r) →
  schema_ok db → schema_ok (set_instances db (<[id := r']> (db_instances db))).
Proof.
  intros Hr Ht Hd. apply schema_ok_instances.
  - intros i x. rewrite lookup_insert. case_decide as Hi; [intros [= <-]; subst; eauto|eauto].
  - intros i Hs. rewrite lookup_insert. by case_decide.
Qed.

Lemma schema_ok_create now started new_id tenant def input db :
  schema_ok db → schema_ok (CreateInstance now started new_id tenant def input db).2.
Proof.
  intros Hok. unfold CreateInstance. destruct (json_ok _); simpl; [|done].
  destruct (decide _) as [|Hno]; [done|]. apply Decidable.not_or in Hno as [Hnew Hfk].
  apply dec_stable in Hfk. destruct Hok as [Hn Hi Hh Ht]. assert (Hdom : ∀ i x, is_Some (db_instances db !! i) → is_Some (<[new_id := x]> (db_instances db) !! i)).
  { intros i x Hs. rewrite lookup_insert. by case_decide. }
  split; simpl; [done| | |].
  - intros i r. rewrite lookup_insert. case_decide; [by intros [= <-]|apply Hi].
  - intros i h Hih. by eapply Hdom, Hh.
  - intros i t Hit. by eapply Hdom, Ht.
Qed.

Lemma schema_ok_define now new_id tenant dsl db :
  schema_ok db → schema_ok (CreateDefinition now new_id tenant dsl db).2.
Proof.
  intros Hok. unfold CreateDefinition. destruct (dsl_json_ok _); simpl; [|done].
  destruct (decide _) as [|Hno]; [done|]. apply Decidable.not_or in Hno as [Hnew Hid].
  destruct Hok as [Hn Hi Hh Ht]. split; simpl; [| |done|done].
  - assert (Hfresh : ∀ j d, db_definitions db !! j = Some d → ¬ (d_TenantID d = tenant_or_default tenant ∧
      d_Name d = dsl_Name dsl ∧ d_Version d = dsl_Version dsl)) by (intros j d Hj Heq; apply Hnew; by exists j, d).
    intros i j d d'. rewrite !lookup_insert.
    do 2 case_decide; subst; try done; [intros [= <-] Hj|intros Hj [= <-]|by apply Hn]; simpl; intros;
      by destruct (Hfresh _ _ Hj).
  - intros i r Hr. destruct (Hi i r Hr) as (d & Hd & Htd). exists d. split; [|done]. simpl.
    rewrite lookup_insert_ne; [done|]. intros Heq. apply Hid. rewrite Heq. by eexists.
Qed.

Lemma schema_ok_append now new_id h db : schema_ok db → schema_ok (AppendHistory now new_id h db).2.
Proof.
  intros Hok. unfold AppendHistory.
  destruct (json_ok (VObj (h_Input h))); cbn [negb]; [|done].
  destruct (json_ok (VObj (h_Output h))); cbn [negb]; [|done].
  destruct (decide _) as [|Hno]; [done|]. apply Decidable.not_or in Hno as [_ Hfk].
  destruct Hok as [Hn Hi Hh Ht]. split; simpl; [done|done| |done]. intros i x. rewrite lookup_insert. case_decide; [|apply Hh].
  intros [= <-]. simpl. by apply not_eq_None_Some.
Qed.

Lemma schema_ok_complete now hid status output err db :
  schema_ok db → schema_ok (CompleteHistory now hid status output err db).2.
Proof.
  intros Hok. unfold CompleteHistory. destruct (json_ok _); simpl; [|done].
  destruct (db_history db !! hid) as [h|] eqn:Hhid; [|done].
  destruct Hok as [Hn Hi Hh Ht]. split; simpl; [done|done| |done]. intros i x. rewrite lookup_insert. case_decide; [|apply Hh].
  intros [= <-]. simpl. by eapply Hh.
Qed.

(** The timers are a part of the old ones. *)
Lemma schema_ok_timers db m' : m' ⊆ db_timers db → schema_ok db → schema_ok (set_timers db m').
Proof. intros Hsub [Hn Hi Hh Ht]. split; simpl; [done..|]. intros i t Hit. eapply Ht, lookup_weaken, Hsub. done. Qed.

Lemma schema_ok_upsert t db : schema_ok db → schema_ok (UpsertTimer t db).2.
Proof.
  intros Hok. unfold UpsertTimer. destruct (db_instances db !! t_InstanceID t) as [row|] eqn:Hrow; [|done].
  destruct Hok as [Hn Hi Hh Ht]. split; simpl; [done..|]. intros i x. rewrite lookup_insert. case_decide; [subst; by rewrite Hrow|apply Ht].
Qed.

Lemma schema_ok_exec {A} (op : repo_op A) k db : schema_ok db → schema_ok (repo_exec op k db).2.
Proof.
  intros Hok. destruct op; simpl; try done.
  - by apply schema_ok_define.
  - by apply schema_ok_create.
  - unfold ClaimInstance. destruct (db_instances db !! id) eqn:Hr; [|done].
    destruct (decide _); [|done]. by eapply schema_ok_replace.
  - unfold ReleaseInstance. destruct (db_instances db !! id) eqn:Hr; [|done].
    destruct (decide _); [|done]. by eapply schema_ok_replace.
  - unfold UpdateInstance. destruct (state_json_ok _); simpl; [|done].
    destruct (db_instances db !! i_ID instance) eqn:Hr; [|done].
    destruct (decide _); [|done]. by eapply schema_ok_replace.
  - by apply schema_ok_append.
  - by apply schema_ok_complete.
  - by apply schema_ok_upsert.
  - apply schema_ok_timers; [apply delete_subseteq|done].
  - apply schema_ok_timers; [apply delete_subseteq|done].
  - apply schema_ok_timers; [apply map_subseteq_difference_l|done]. done.
Qed.

(** ** Statements and functions *)

Lemma set_table_in ts t rs (f : string → list row) :
  rs ≡ₚ f t → (∀ t', t' ≠ t → ts t' = f t') → set_table ts t rs ≡ f.
Proof.
  intros Hrs Hts t'. unfold set_table. destruct (String.eqb_spec t' t) as [->|Ht]; [done|]. by rewrite Hts.
Qed.

Lemma tables_instances created db m' rs :
  rs ≡ₚ rows instance_row m' →
  set_table (tables_of created db) "instances" rs ≡ tables_of created (set_instances db m').
Proof.
  intros Hrs. apply set_table_in; [done|]. intros t' Ht. unfold tables_of.
  by destruct (String.eqb_spec t' "instances").
Qed.
Lemma tables_definitions created db m' rs :
  rs ≡ₚ rows definition_row m' →
  set_table (tables_of created db) "definitions" rs ≡ tables_of created (set_definitions db m').
Proof.
  intros Hrs. apply set_table_in; [done|]. intros t' Ht. unfold tables_of.
  by destruct (String.eqb_spec t' "definitions").
Qed.
Lemma tables_history created db m' rs :
  rs ≡ₚ rows history_row m' →
  set_table (tables_of created db) "execution_history" rs ≡ tables_of created (set_history db m').
Proof.
  intros Hrs. apply set_table_in; [done|]. intros t' Ht. unfold tables_of.
  by destruct (String.eqb_spec t' "execution_history").
Qed.
Lemma tables_timers created created' db m' rs :
  rs ≡ₚ rows (timer_row created') m' →
  set_table (tables_of created db) "timers" rs ≡ tables_of created' (set_timers db m').
Proof.
  intros Hrs. apply set_table_in; [done|]. intros t' Ht. unfold tables_of.
  by destruct (String.eqb_spec t' "timers").
Qed.

Lemma checked_ok ts created db : ts ≡ tables_of created db → schema_ok db → checked aether_schema ts = Some ts.
Proof. intros Hts Hok. unfold checked. rewrite decide_True; [done|]. by rewrite Hts, satisfies_iff. Qed.
Lemma checked_bad ts created db : ts ≡ tables_of created db → ¬ schema_ok db → checked aether_schema ts = None.
Proof. intros Hts Hno. unfold checked. rewrite decide_False; [done|]. by rewrite Hts, satisfies_iff. Qed.

Lemma omap_cons_Some {A B} (f : A → option B) x y l : f x = Some y → omap f (x :: l) = y :: omap f l.
Proof. intros Hf. cbn. by rewrite Hf. Qed.

(** A row whose primary key is taken. *)
Lemma checked_duplicate ts t c r r' rs k :
  In (Unique [c]) (constraints aether_schema t) → In t (sc_tables aether_schema).*1 →
  r' ∈ rs → key_of [c] r = Some k → key_of [c] r' = Some k →
  checked aether_schema (set_table ts t (r :: rs)) = None.
Proof.
  intros Hc Ht Hin Hr Hr'. unfold checked. rewrite decide_False; [done|]. intros Hs.
  unfold satisfies in Hs. rewrite Forall_forall in Hs.
  apply list_elem_of_In, list_elem_of_fmap in Ht as ([t' tb] & -> & Htb).
  destruct (Hs _ Htb) as [_ Hall]. cbn [fst snd] in *. rewrite Forall_forall in Hall.
  specialize (Hall (Unique [c]) (proj2 (list_elem_of_In _ _) Hc)). unfold holds, set_table in Hall.
  rewrite String.eqb_refl, (omap_cons_Some _ _ _ _ Hr) in Hall.
  apply NoDup_cons in Hall as [Hnot _]. apply Hnot, list_elem_of_omap. eauto.
Qed.

(** The statement [o] has the effect of the method with the result [r], or fails as it
    does. *)
Definition agrees {A} (o : option tables) (r : res A * DB) (db : DB) : Prop :=
  match o, r.1 with
  | Some ts, Ok _ => ∃ created, ts ≡ tables_of created r.2
  | None, Err _ => r.2 = db
  | _, _ => False
  end.

(** The tables that the statement would leave are those of [db']. *)
Lemma agrees_checked {A} ts created db db' (r : res A * DB) :
  ts ≡ tables_of created db' →
  match r.1 with Ok _ => r.2 = db' ∧ schema_ok db' | Err _ => r.2 = db ∧ ¬ schema_ok db' end →
  agrees (checked aether_schema ts) r db.
Proof.
  intros Hts. unfold agrees. destruct r.1 as [a|e]; intros [-> Hok].
  - rewrite (checked_ok _ _ _ Hts Hok). by exists created.
  - by rewrite (checked_bad _ _ _ Hts Hok).
Qed.

(** A new row in a table whose rows are those of the map [m]. *)
Lemma insert_agrees {A B} t c (view : string → B → row) (m : gmap string B) id b created db (f : DB → gmap string B → DB)
    (r : res A * DB) :
  In (Unique [c]) (constraints aether_schema t) → In t (sc_tables aether_schema).*1 →
  (∀ i b, key_of [c] (view i b) = Some [AUuid i]) → tables_of created db t = rows view m →
  (∀ m' rs, rs ≡ₚ rows view m' → set_table (tables_of created db) t rs ≡ tables_of created (f db m')) →
  match r.1 with
  | Ok _ => m !! id = None ∧ r.2 = f db (<[id := b]> m) ∧ schema_ok (f db (<[id := b]> m))
  | Err _ => r.2 = db ∧ (m !! id = None → ¬ schema_ok (f db (<[id := b]> m)))
  end →
  agrees (checked aether_schema (set_table (tables_of created db) t (view id b :: tables_of created db t))) r db.
Proof.
  intros Hpk Ht Hkey Hrows Hset Hr. rewrite Hrows.
  destruct (m !! id) as [old|] eqn:Hm.
  - rewrite (checked_duplicate _ _ c _ (view id old) _ [AUuid id]); [|done..|by apply view_in_rows|done|done].
    unfold agrees. destruct r.1; [by destruct Hr|apply Hr].
  - apply (agrees_checked _ created _ (f db (<[id := b]> m))).
    + by apply Hset, symmetry, rows_insert_fresh.
    + destruct r.1; [by destruct Hr as (_ & ? & ?)|]. destruct Hr as [? Hbad]. by split; [|apply Hbad].
Qed.

Lemma insert_instance_refines created now started new_id tenant def input db :
  schema_ok db → json_ok (VObj input) = true →
  agrees (sql_insert aether_schema now new_id "instances"
            (insert_instance (tenant_or_default tenant) def input (with_StartedAt NewRuntimeState started)) (tables_of created db))
    (CreateInstance now started new_id tenant def input db) db.
Proof.
  intros Hok Hjson. pose proof (schema_ok_create now started new_id tenant def input db Hok) as Hok'.
  revert Hok'. unfold CreateInstance. rewrite Hjson. cbn [negb]. set (row := mkRow _ _ _). intros Hok'.
  apply (insert_agrees "instances" "id" instance_row (db_instances db) new_id row created db set_instances);
    [simpl; tauto..|done|done|by apply tables_instances|].
  destruct (decide _) as [Hbad|Hgood]; cbn [fst snd] in *.
  - split; [done|]. intros Hnew [_ Hi _ _]. destruct Hbad as [Hbad|Hbad]; [by rewrite Hnew in Hbad; destruct Hbad|].
    apply Hbad. assert (Hrow := Hi new_id row). simpl in Hrow. rewrite lookup_insert_eq in Hrow. by apply Hrow.
  - apply Decidable.not_or in Hgood as [Hnew _]. split; [by apply eq_None_not_Some|done].
Qed.

Lemma insert_definition_refines created now new_id tenant dsl db :
  schema_ok db → dsl_json_ok dsl = true →
  agrees (sql_insert aether_schema now new_id "definitions" (insert_definition (tenant_or_default tenant) dsl) (tables_of created db))
    (CreateDefinition now new_id tenant dsl db) db.
Proof.
  intros Hok Hjson. pose proof (schema_ok_define now new_id tenant dsl db Hok) as Hok'.
  revert Hok'. unfold CreateDefinition. rewrite Hjson. cbn [negb]. set (row := mkDefinition _ _ _ _ (reload_dsl _) _ _). intros Hok'.
  apply (insert_agrees "definitions" "id" definition_row (db_definitions db) new_id row created db set_definitions);
    [simpl; tauto..|done|done|by apply tables_definitions|].
  destruct (decide _) as [Hbad|Hgood]; cbn [fst snd] in *.
  - split; [done|]. intros Hnew [Hn _ _ _]. destruct Hbad as [(j & d & Hd & Ht & Hname & Hv)|Hbad];
      [|by rewrite Hnew in Hbad; destruct Hbad].
    assert (Hj : j ≠ new_id) by (intros ->; congruence). apply Hj. simpl in Hn.
    apply (Hn j new_id d row); [by rewrite lookup_insert_ne|by rewrite lookup_insert_eq|done..].
  - apply Decidable.not_or in Hgood as [_ Hnew]. split; [by apply eq_None_not_Some|done].
Qed.

Lemma insert_history_refines created dbnow now new_id h db :
  schema_ok db → json_ok (VObj (h_Input h)) = true → json_ok (VObj (h_Output h)) = true →
  agrees (sql_insert aether_schema dbnow new_id "execution_history"
            (insert_history h (if time_is_zero (h_StartedAt h) then now else h_StartedAt h)) (tables_of created db))
    (AppendHistory now new_id h db) db.
Proof.
  intros Hok Hin Hout. pose proof (schema_ok_append now new_id h db Hok) as Hok'.
  revert Hok'. unfold AppendHistory. rewrite Hin, Hout. cbn [negb].
  set (row := mkHistory new_id _ _ _ (reload_obj _) _ _ _ _ _). intros Hok'.
  apply (insert_agrees "execution_history" "id" history_row (db_history db) new_id row created db Store.set_history);
    [simpl; tauto..|done|done|by apply tables_history|].
  destruct (decide _) as [Hbad|Hgood]; cbn [fst snd] in *.
  - split; [done|]. intros Hnew [_ _ Hh _]. destruct Hbad as [Hbad|Hbad]; [by rewrite Hnew in Hbad; destruct Hbad|].
    simpl in Hh. destruct (Hh new_id row) as [x Hx]; [by rewrite lookup_insert_eq|]. simpl in Hx. congruence.
  - apply Decidable.not_or in Hgood as [Hnew _]. split; [by apply eq_None_not_Some|done].
Qed.

(** ** Updates and deletions *)

(** The statement [o] on the rows with [p] leaves the tables of the method with the
    result [r], which succeeds when one row is reported and fails when none is. *)
Definition written {A} (o : option tables) (n : nat) (r : res A * DB) : Prop :=
  (∃ ts created, o = Some ts ∧ ts ≡ tables_of created r.2) ∧
  match r.1 with Ok _ => n = 1 | Err _ => n = 0 end.

Lemma written_intro {A} ts n created (r : res A * DB) :
  ts ≡ tables_of created r.2 → schema_ok r.2 → match r.1 with Ok _ => n = 1 | Err _ => n = 0 end →
  written (checked aether_schema ts) n r.
Proof. intros Hts Hok Hn. split; [|done]. exists ts, created. by rewrite (checked_ok _ _ _ Hts Hok). Qed.

Lemma has_cell_uuid c id j r : key_of [c] r = Some [AUuid j] → has_cell c (AUuid id) r = bool_decide (j = id).
Proof. intros Hr. unfold has_cell. rewrite Hr. apply bool_decide_ext. naive_solver. Qed.

Lemma tables_same created db t rs : rs = tables_of created db t → set_table (tables_of created db) t rs ≡ tables_of created db.
Proof. intros ->. by apply set_table_in. Qed.

(** The row of an instance, selected by its id and a condition [q]. *)
Section instances.
Variables (p : row → bool) (id : string) (q : InstanceRow → bool).
Hypothesis Hp : ∀ j r, p (instance_row j r) = bool_decide (j = id) && q r.

Lemma selects_instance db r :
  db_instances db !! id = Some r → q r = true →
  ∀ j b, db_instances db !! j = Some b → p (instance_row j b) = bool_decide (j = id).
Proof.
  intros Hr Hq j b Hb. rewrite Hp. case_bool_decide as Hj; [|done]. subst. rewrite Hr in Hb. injection Hb as <-. by rewrite Hq.
Qed.
Lemma selects_no_instance db :
  (∀ r, db_instances db !! id = Some r → q r = false) →
  ∀ j b, db_instances db !! j = Some b → p (instance_row j b) = false.
Proof. intros Hq j b Hb. rewrite Hp. case_bool_decide as Hj; [|done]. subst. by rewrite (Hq b). Qed.

Lemma update_instances_written {A} created vals (r : res A * DB) db :
  schema_ok r.2 →
  match r.1 with
  | Ok _ => ∃ x x', db_instances db !! id = Some x ∧ q x = true ∧
      assign (vals (instance_row id x)) (instance_row id x) = instance_row id x' ∧
      r.2 = set_instances db (<[id := x']> (db_instances db))
  | Err _ => r.2 = db ∧ ∀ x, db_instances db !! id = Some x → q x = false
  end →
  written (sql_update aether_schema "instances" p vals (tables_of created db))
    (affected p (tables_of created db "instances")) r.
Proof.
  intros Hok Hr. apply (written_intro _ _ created); [|done|]; destruct r as [[a|e] db']; simpl in *.
  - destruct Hr as (x & x' & Hx & Hq & Hass & ->). apply tables_instances, rows_update with x; try done.
    by apply (selects_instance _ x).
  - destruct Hr as [-> Hq]. apply tables_same, rows_update_none. by apply selects_no_instance.
  - destruct Hr as (x & x' & Hx & Hq & _). apply (affected_one instance_row _ id x); [done|].
    by apply (selects_instance _ x).
  - destruct Hr as [-> Hq]. apply (affected_none instance_row). by apply selects_no_instance.
Qed.
End instances.

Lemma update_instance_refines created now inst v db :
  schema_ok db → state_json_ok (i_State inst) = true →
  written (sql_update aether_schema "instances" (has_version (i_ID inst) v) (assign_progress now inst) (tables_of created db))
    (affected (has_version (i_ID inst) v) (tables_of created db "instances")) (UpdateInstance now inst v db).
Proof.
  intros Hok Hjson.
  apply (update_instances_written _ (i_ID inst) (λ r, bool_decide (i_Version (row_inst r) = v))).
  - intros j r. unfold has_version, has_id. rewrite (has_cell_uuid _ _ j) by done. f_equal.
    unfold has_cell. apply bool_decide_ext. cbn. split; [by intros [= ->]|by intros ->].
  - apply (schema_ok_exec (OpUpdateInstance inst v) (mkTick now now "" [] [] []) db Hok).
  - unfold UpdateInstance. rewrite Hjson. cbn [negb]. destruct (db_instances db !! i_ID inst) as [r|] eqn:Hr.
    + destruct (decide (i_Version (row_inst r) = v)) as [Hv|Hv]; cbn [fst snd].
      * eexists r, _. split_and!; [done|by apply bool_decide_eq_true_2| |done]. done.
      * split; [done|]. intros x [= <-]. by apply bool_decide_eq_false_2.
    + by split.
Qed.

Lemma claim_instance_refines created now id owner until db :
  schema_ok db →
  written (sql_update aether_schema "instances" (claim_where now id owner) (assign_lease (Some owner) (Some (pg_time until)))
             (tables_of created db))
    (affected (claim_where now id owner) (tables_of created db "instances")) (ClaimInstance now id owner until db).
Proof.
  intros Hok. apply (update_instances_written _ id (λ r, bool_decide (claimable now owner r))).
  - intros j r. unfold claim_where, has_id. rewrite (has_cell_uuid _ _ j), <- andb_assoc by done. f_equal.
    unfold claimable, lease_free, has_cell. destruct r as [i lb lu]. apply Bool.eq_iff_eq_true.
    rewrite andb_true_iff, negb_true_iff, orb_false_iff, orb_true_iff, !bool_decide_eq_false, !bool_decide_eq_true.
    assert (Ht : ∀ s s', Some [AText s] = Some [AText s'] ↔ s = s') by (split; [by intros [= ->]|by intros ->]).
    cbn. rewrite !Ht. destruct lu as [u|], lb as [b|]; cbn; rewrite ?bool_decide_eq_true, ?Ht; naive_solver.
  - apply (schema_ok_exec (OpClaimInstance id owner until) (mkTick now now "" [] [] []) db Hok).
  - unfold ClaimInstance. destruct (db_instances db !! id) as [r|] eqn:Hr; [|by split].
    destruct (decide (claimable now owner r)) as [Hc|Hc]; cbn [fst snd].
    + eexists r, _. split_and!; [done|by apply bool_decide_eq_true_2| |done]. done.
    + split; [done|]. intros x [= <-]. by apply bool_decide_eq_false_2.
Qed.

(** [ReleaseInstance] ignores the number of rows. *)
Lemma release_instance_refines created id owner db :
  schema_ok db →
  ∃ ts, sql_update aether_schema "instances" (release_where id owner) (assign_lease None None) (tables_of created db) = Some ts ∧
    ts ≡ tables_of created (ReleaseInstance id owner db).
Proof.
  intros Hok. set (q r := bool_decide (locked_by r = Some owner)).
  assert (Hp : ∀ j r, release_where id owner (instance_row j r) = bool_decide (j = id) && q r).
  { intros j [i lb lu]. unfold release_where, has_id, q. rewrite (has_cell_uuid _ _ j) by done. f_equal.
    unfold has_cell. apply bool_decide_ext. cbn. destruct lb; cbn; [|done]. split; [by intros [= ->]|by intros [= ->]]. }
  assert (Hts : set_table (tables_of created db) "instances"
      (update_rows (release_where id owner) (assign_lease None None) (tables_of created db "instances"))
      ≡ tables_of created (ReleaseInstance id owner db)).
  { unfold ReleaseInstance. destruct (db_instances db !! id) as [r|] eqn:Hr.
    - destruct (decide (locked_by r = Some owner)) as [Hby|Hby].
      + apply tables_instances, rows_update with r; try done. apply (selects_instance _ _ q Hp _ r Hr). by apply bool_decide_eq_true_2.
      + apply tables_same, rows_update_none, (selects_no_instance _ _ q Hp). intros x. rewrite Hr. intros [= <-].
        by apply bool_decide_eq_false_2.
    - apply tables_same, rows_update_none, (selects_no_instance _ _ q Hp). intros x. by rewrite Hr. }
  eexists. split; [|exact Hts]. apply (checked_ok _ _ _ Hts).
  apply (schema_ok_exec (OpReleaseInstance id owner) (mkTick 0 0 "" [] [] []) db Hok).
Qed.

Lemma complete_history_refines created now hid status output err db :
  schema_ok db → json_ok (VObj output) = true →
  written (sql_update aether_schema "execution_history" (has_id hid) (assign_history now status output err) (tables_of created db))
    (affected (has_id hid) (tables_of created db "execution_history")) (CompleteHistory now hid status output err db).
Proof.
  intros Hok Hjson. pose proof (schema_ok_complete now hid status output err db Hok) as Hok'. revert Hok'.
  unfold CompleteHistory. rewrite Hjson. cbn [negb]. intros Hok'.
  assert (Hp : ∀ j h, has_id hid (history_row j h) = bool_decide (j = hid)) by (intros j h; by apply has_cell_uuid).
  destruct (db_history db !! hid) as [h|] eqn:Hh; cbn [fst snd] in *.
  - apply (written_intro _ _ created); [|done|]; cbn [fst snd].
    + by apply tables_history, rows_update with h.
    + by apply (affected_one history_row _ hid h).
  - assert (Hno : ∀ j b, db_history db !! j = Some b → has_id hid (history_row j b) = false).
    { intros j b Hb. rewrite Hp. apply bool_decide_eq_false_2. congruence. }
    apply (written_intro _ _ created); [|done|]; cbn [fst snd].
    + by apply tables_same, rows_update_none.
    + by apply (affected_none history_row).
Qed.

(** ** Timers *)
Lemma timer_where_row created id j t : timer_where id (timer_row created j t) = bool_decide (j = id).
Proof. by apply has_cell_uuid. Qed.

Lemma upsert_timer_refines created now t db :
  schema_ok db →
  agrees (sql_upsert aether_schema now "" "timers" "instance_id" (AUuid (t_InstanceID t)) (insert_timer t)
            (conflict_timer now t) (tables_of created db))
    (UpsertTimer t db) db.
Proof.
  intros Hok. pose proof (schema_ok_upsert t db Hok) as Hok'. revert Hok'. unfold UpsertTimer, sql_upsert. set (id := t_InstanceID t).
  set (new := mkTimer id _ _). intros Hok'.
  set (created' i := if decide (i = id) then now else created i).
  assert (Hv : ∀ j b, j ≠ id → timer_row created' j b = timer_row created j b).
  { intros j b Hj. unfold timer_row, created'. by rewrite decide_False. }
  assert (Hnew : timer_row created' id new = complete now "" (Table timers_columns []) (insert_timer t)).
  { unfold timer_row, created'. by rewrite decide_True. }
  change (has_cell "instance_id" (AUuid id)) with (timer_where id).
  destruct (db_timers db !! id) as [old|] eqn:Ht.
  - replace (existsb (timer_where id) (tables_of created db "timers")) with true.
    2:{ symmetry. apply existsb_exists. exists (timer_row created id old). split.
        - apply list_elem_of_In. by apply view_in_rows.
        - rewrite timer_where_row. by apply bool_decide_eq_true_2. }
    destruct (so_timers _ Hok _ _ Ht) as [row Hrow]. rewrite Hrow in *. cbn [fst snd] in *.
    apply (agrees_checked _ created' _ (set_timers db (<[id := new]> (db_timers db)))); [|done].
    apply tables_timers, rows_update with old; [done| | |done].
    + intros j b _. apply timer_where_row.
    + unfold timer_row, created'. by rewrite decide_True.
  - replace (existsb (timer_where id) (tables_of created db "timers")) with false.
    2:{ symmetry. apply not_true_iff_false. intros (r & Hin%list_elem_of_In & Hr)%existsb_exists.
        apply elem_of_rows in Hin as (j & b & Hb & ->). rewrite timer_where_row in Hr.
        apply bool_decide_eq_true in Hr as ->. congruence. }
    apply (agrees_checked _ created' _ (set_timers db (<[id := new]> (db_timers db)))).
    + apply tables_timers. rewrite (rows_insert_fresh _ _ _ _ Ht), Hnew. apply Permutation_cons; [done|].
      rewrite (rows_ext (timer_row created') (timer_row created)); [done|]. intros j b Hb. apply Hv. congruence.
    + destruct (db_instances db !! id) as [row|] eqn:Hrow; cbn [fst snd] in *; [done|]. split; [done|].
      intros [_ _ _ Hts]. destruct (Hts id new) as [x Hx]; [by apply lookup_insert_eq|]. simpl in Hx. congruence.
Qed.

(** The deletion of the timers with [p]: those outside of [m']. *)
Lemma delete_timers_refines created p m' db :
  schema_ok db → m' ⊆ db_timers db →
  (∀ j t, db_timers db !! j = Some t → p (timer_row created j t) = bool_decide (m' !! j = None)) →
  ∃ ts, sql_delete aether_schema "timers" p (tables_of created db) = Some ts ∧ ts ≡ tables_of created (set_timers db m').
Proof.
  intros Hok Hsub Hp.
  assert (Hm : m' = filter (λ kv, m' !! kv.1 ≠ None) (db_timers db)).
  { apply map_eq. intros j. apply option_eq. intros t. rewrite map_lookup_filter_Some. simpl. split.
    - intros Ht. split; [by eapply lookup_weaken|]. by rewrite Ht.
    - intros [Ht Hs]. destruct (m' !! j) as [t'|] eqn:Ht'; [|done]. rewrite (lookup_weaken _ _ _ _ Ht' Hsub) in Ht. done. }
  assert (Hts : set_table (tables_of created db) "timers" (filter (λ r, p r = false) (tables_of created db "timers"))
                ≡ tables_of created (set_timers db m')).
  { apply tables_timers. rewrite Hm. apply rows_filter. intros j t Ht. rewrite (Hp j t Ht).
    apply bool_decide_ext. simpl. destruct (m' !! j); naive_solver. }
  eexists. split; [|exact Hts]. apply (checked_ok _ _ _ Hts). by apply schema_ok_timers.
Qed.

Lemma delete_timer_refines created id db :
  schema_ok db →
  ∃ ts, sql_delete aether_schema "timers" (timer_where id) (tables_of created db) = Some ts ∧
    ts ≡ tables_of created (DeleteTimer id db).
Proof.
  intros Hok. apply delete_timers_refines; [done|apply delete_subseteq|]. intros j t Ht. rewrite timer_where_row.
  apply bool_decide_ext. rewrite lookup_delete. case_decide; naive_solver.
Qed.

Lemma sorted_rows created l :
  StronglySorted Z.le (t_FireAt ∘ snd <$> l) →
  StronglySorted (cell_le "fire_at") ((λ kv : string * Timer, timer_row created kv.1 kv.2) <$> l).
Proof.
  induction l as [|kv l IH]; intros Hs; [constructor|]. apply StronglySorted_inv in Hs as [Hs Hall].
  rewrite fmap_cons. constructor; [by apply IH|]. apply Forall_fmap, Forall_forall. intros x Hx.
  rewrite Forall_forall in Hall. apply (Hall (t_FireAt x.2)). by apply (list_elem_of_fmap_2 (t_FireAt ∘ snd)).
Qed.

(** The query of [ClaimDueTimers] selects what [due_timers] takes. *)
Section due.
Context (created : string → time) (now : time) (o o' locked : list string) (limit : Z) (db : DB).
Definition unlocked : gmap string Timer := filter (λ kv, kv.1 ∉ locked) (db_timers db).
Definition due_rows : gmap string Timer := filter (λ kv, (t_FireAt kv.2 ≤ pg_time now)%Z) unlocked.
#[local] Abbreviation sorted := (order_by t_FireAt o due_rows).
#[local] Abbreviation row_of := (λ kv : string * Timer, timer_row created kv.1 kv.2).
#[local] Abbreviation claim := (ClaimDueTimers now o o' locked limit db).

Definition selected : list row := row_of <$> take (limit_or 100 limit) sorted.

Lemma due_where_row id t :
  due_where (pg_time now) locked (timer_row created id t) = bool_decide ((t_FireAt t ≤ pg_time now)%Z ∧ id ∉ locked).
Proof.
  unfold due_where. apply Bool.eq_iff_eq_true. cbn [cell_of timer_row String.eqb Ascii.eqb Bool.eqb timestamp].
  rewrite andb_true_iff, negb_true_iff, bool_decide_eq_true. simpl. rewrite bool_decide_eq_true.
  apply and_iff_compat_l. rewrite <- not_true_iff_false, existsb_exists. apply not_iff_compat. split.
  - intros (x & Hx%list_elem_of_In & Hid). rewrite timer_where_row in Hid. by apply bool_decide_eq_true in Hid as ->.
  - intros Hid. exists id. split; [by apply list_elem_of_In|]. rewrite timer_where_row. by apply bool_decide_eq_true_2.
Qed.

Lemma due_selected : sql_select (due_where (pg_time now) locked) "fire_at" (limit_or 100 limit) (tables_of created db "timers") selected.
Proof.
  set (n := limit_or 100 limit). exists (row_of <$> drop n sorted).
  pose proof (sorted_rows created _ (order_by_sorted t_FireAt o due_rows)) as Hs.
  rewrite <- (take_drop n sorted), fmap_app in Hs. split_and!.
  - unfold selected. fold n. rewrite <- fmap_app, take_drop. change (tables_of created db "timers") with (rows (timer_row created) (db_timers db)).
    rewrite (list_filter_iff _ (λ r, negb (due_where (pg_time now) locked r) = false)) by (intros r; by destruct (due_where _ _ r)).
    rewrite (rows_filter _ _ _ (λ kv, (t_FireAt kv.2 ≤ pg_time now)%Z ∧ kv.1 ∉ locked)).
    + unfold rows, order_by, due_rows, unlocked. rewrite merge_sort_Permutation, range_order_perm, map_filter_filter. done.
    + intros j t _. rewrite due_where_row. by rewrite bool_decide_not.
  - unfold selected. fold n. rewrite length_fmap, length_take. destruct (decide (n ≤ length sorted)); [left; lia|right].
    split; [lia|]. by rewrite drop_ge by lia.
  - by apply StronglySorted_app_1_l in Hs.
  - intros a b Ha Hb. by eapply StronglySorted_app_1_elem_of.
Qed.

#[local] Abbreviation due := (due_timers now o limit (set_timers db unlocked)).

Lemma due_timers_rows : due = (λ kv, scan_timer kv.1 kv.2) <$> take (limit_or 100 limit) sorted.
Proof. done. Qed.

Lemma claim_returns : claim.1 ≡ₚ due.
Proof.
  unfold ClaimDueTimers. cbn zeta. cbn [fst]. rewrite range_order_perm. fold unlocked.
  rewrite map_to_list_to_map by (rewrite <- list_fmap_compose; apply due_timers_NoDup).
  rewrite <- list_fmap_compose. apply reflexive_eq, list_fmap_id.
Qed.

Lemma claim_leaves j t :
  db_timers db !! j = Some t → db_timers claim.2 !! j = None ↔ ∃ u, (j, u) ∈ take (limit_or 100 limit) sorted.
Proof.
  intros Ht. unfold ClaimDueTimers. cbn zeta. cbn [snd db_timers set_timers]. fold unlocked.
  rewrite lookup_difference_None, Ht. split.
  - intros [?|[x Hx]]; [done|]. apply lookup_claimed in Hx as [Hx <-]; [|apply due_timers_NoDup].
    rewrite due_timers_rows in Hx. apply list_elem_of_fmap in Hx as ([k u] & -> & Hin). by exists u.
  - intros [u Hin]. right. exists (scan_timer j u). apply lookup_claimed; [apply due_timers_NoDup|]. split; [|done].
    rewrite due_timers_rows. apply list_elem_of_fmap. by exists (j, u).
Qed.

(** The statement of [ClaimDueTimers] deletes the selected rows and returns them. *)
Lemma claim_due_timers_refines :
  schema_ok db →
  (∃ ts, sql_delete_using aether_schema "timers" "instance_id" selected (tables_of created db) = Some ts ∧
     ts ≡ tables_of created claim.2) ∧
  Some <$> claim.1 ≡ₚ scan_timer_row <$> selected.
Proof.
  intros Hok. split.
  - assert (Heq : claim.2 = set_timers db (db_timers claim.2)) by done. rewrite Heq.
    apply delete_timers_refines; [done|by apply map_subseteq_difference_l|]. intros j t Ht.
    apply Bool.eq_iff_eq_true. rewrite bool_decide_eq_true, (claim_leaves j t Ht), existsb_exists.
    assert (Hsame : ∀ k u, same_cell "instance_id" (timer_row created j t) (timer_row created k u) = true ↔ j = k).
    { intros k u. unfold same_cell. cbn. rewrite bool_decide_eq_true. split; [by intros [= ->]|by intros ->]. }
    unfold selected. split.
    + intros (x & Hx%list_elem_of_In & Hxj). apply list_elem_of_fmap in Hx as ([k u] & -> & Hin).
      apply Hsame in Hxj as ->. by exists u.
    + intros [u Hin]. exists (timer_row created j u). split; [|by apply Hsame].
      apply list_elem_of_In, list_elem_of_fmap. by exists (j, u).
  - rewrite claim_returns, due_timers_rows. unfold selected. rewrite <- !list_fmap_compose. done.
Qed.
End due.

(** ** The repository as SQL *)

(** What comes of a statement: the rows that it inserts, changes, deletes or returns, and the
    tables that it leaves; [None] when a constraint is broken. *)
Definition outcome : Type := option (list row * tables).
Definition reporting (rs : list row) (o : option tables) : outcome := ts ← o; Some (rs, ts).

(** The statement of a writing method.  It is a relation, because a query that orders and
    limits may choose among rows with equal times. *)
Definition statement {A} (op : repo_op A) (k : tick) (ts : tables) (o : outcome) : Prop :=
  let s := aether_schema in
  let insert t vals := reporting [vals] (sql_insert s (k_now k) (k_uuid k) t vals ts) in
  let update t p vals := reporting (filter (λ r, p r = true) (ts t)) (sql_update s t p vals ts) in
  let delete t p := reporting (filter (λ r, p r = true) (ts t)) (sql_delete s t p ts) in
  match op with
  | OpCreateDefinition tenant dsl => o = insert "definitions" (insert_definition (tenant_or_default tenant) dsl)
  | OpCreateInstance tenant d input =>
      o = insert "instances" (insert_instance (tenant_or_default tenant) d input (with_StartedAt NewRuntimeState (k_app k)))
  | OpClaimInstance id owner until =>
      o = update "instances" (claim_where (k_now k) id owner) (assign_lease (Some owner) (Some (pg_time until)))
  | OpReleaseInstance id owner => o = update "instances" (release_where id owner) (assign_lease None None)
  | OpUpdateInstance inst v => o = update "instances" (has_version (i_ID inst) v) (assign_progress (k_now k) inst)
  | OpAppendHistory h =>
      o = insert "execution_history" (insert_history h (if time_is_zero (h_StartedAt h) then k_app k else h_StartedAt h))
  | OpCompleteHistory hid status output err =>
      o = update "execution_history" (has_id hid) (assign_history (k_now k) status output err)
  | OpUpsertTimer t =>
      o = reporting [insert_timer t] (sql_upsert s (k_now k) "" "timers" "instance_id" (AUuid (t_InstanceID t))
            (insert_timer t) (conflict_timer (k_now k) t) ts)
  | OpDeleteTimer id => o = delete "timers" (timer_where id)
  | OpFireTimer id => o = delete "timers" (timer_where id)
  | OpClaimDueTimers now limit =>
      ∃ due, sql_select (due_where (pg_time now) (k_locked k)) "fire_at" (limit_or 100 limit) (ts "timers") due ∧
        o = reporting due (sql_delete_using s "timers" "instance_id" due ts)
  | _ => o = Some ([], ts)
  end.

(** The method only writes. *)
Definition writes {A} (op : repo_op A) : bool :=
  match op with
  | OpCreateDefinition _ _ | OpCreateInstance _ _ _ | OpClaimInstance _ _ _ | OpReleaseInstance _ _
  | OpUpdateInstance _ _ | OpAppendHistory _ | OpCompleteHistory _ _ _ _ | OpUpsertTimer _ | OpDeleteTimer _
  | OpFireTimer _ | OpClaimDueTimers _ _ => true
  | _ => false
  end.
(** What it writes can be encoded as JSON. *)
Definition encodes {A} (op : repo_op A) : bool :=
  match op with
  | OpCreateDefinition _ dsl => dsl_json_ok dsl
  | OpCreateInstance _ _ input => json_ok (VObj input)
  | OpUpdateInstance inst _ => state_json_ok (i_State inst)
  | OpAppendHistory h => json_ok (VObj (h_Input h)) && json_ok (VObj (h_Output h))
  | OpCompleteHistory _ _ output _ => json_ok (VObj output)
  | _ => true
  end.
(** It fails unless one row is reported. *)
Definition needs_row {A} (op : repo_op A) : bool :=
  match op with OpClaimInstance _ _ _ | OpUpdateInstance _ _ | OpCompleteHistory _ _ _ _ => true | _ => false end.

Definition is_ok {A} (r : res A) : Prop := match r with Ok _ => True | Err _ => False end.

(** What a method that scans the returned timers makes of them. *)
Definition scans {A} (op : repo_op A) (rs : list row) (r : res A) : Prop :=
  match op in repo_op A return res A → Prop with
  | OpFireTimer _ => λ r, r = Ok (head rs ≫= scan_timer_row)
  | OpClaimDueTimers _ _ => λ r, ∃ timers, r = Ok timers ∧ Some <$> timers ≡ₚ scan_timer_row <$> rs
  | _ => λ _, True
  end r.

(** The method with the result [r] does what its statement does. *)
Definition does {A} (op : repo_op A) (o : outcome) (r : res A * DB) (db : DB) : Prop :=
  match o with
  | Some (rs, ts) =>
      (∃ created, ts ≡ tables_of created r.2) ∧ (is_ok r.1 ↔ (needs_row op = true → length rs = 1)) ∧ scans op rs r.1
  | None => ¬ is_ok r.1 ∧ r.2 = db
  end.

Definition scans_nothing {A} (op : repo_op A) : bool :=
  match op with OpFireTimer _ | OpClaimDueTimers _ _ => false | _ => true end.
Lemma scans_trivial {A} (op : repo_op A) rs r : scans_nothing op = true → scans op rs r.
Proof. by destruct op. Qed.

Lemma agrees_does {A} (op : repo_op A) rs o (r : res A * DB) db :
  needs_row op = false → scans_nothing op = true → agrees o r db → does op (reporting rs o) r db.
Proof.
  intros Hn Hs. unfold agrees, does. rewrite Hn. destruct o as [ts|], r as [[a|e] db']; cbn; try naive_solver.
  intros ?. split_and!; [done|done|by apply scans_trivial].
Qed.
Lemma written_does {A} (op : repo_op A) o rs (r : res A * DB) db :
  needs_row op = true → scans_nothing op = true → written o (length rs) r → does op (reporting rs o) r db.
Proof.
  intros Hneed Hs [(ts & created & -> & Hts) Hn]. cbn. rewrite Hneed. split; [by exists created|]. split; [|by apply scans_trivial].
  destruct r as [[a|e] db']; cbn in *; rewrite Hn; naive_solver.
Qed.
Lemma deleted_does {A} (op : repo_op A) rs o created (r : res A * DB) db :
  needs_row op = false → (∃ ts, o = Some ts ∧ ts ≡ tables_of created r.2) → is_ok r.1 → scans op rs r.1 →
  does op (reporting rs o) r db.
Proof. intros Hn (ts & -> & Hts) Hok Hs. cbn. rewrite Hn. split; [by exists created|]. by split; [split|]. Qed.

(** The row that [FireTimer] deletes is the one it returns. *)
Lemma fire_timer_scans created id db :
  scan_timer id <$> db_timers db !! id = head (filter (λ r, timer_where id r = true) (tables_of created db "timers")) ≫= scan_timer_row.
Proof.
  change (tables_of created db "timers") with (rows (timer_row created) (db_timers db)).
  assert (Hp : filter (λ r, timer_where id r = true) (rows (timer_row created) (db_timers db))
    ≡ₚ rows (timer_row created) (filter (λ kv, kv.1 = id) (db_timers db))).
  { rewrite (list_filter_iff _ (λ r, negb (timer_where id r) = false)) by (intros r; by destruct (timer_where id r)).
    apply rows_filter. intros j t _. rewrite timer_where_row. by rewrite bool_decide_not. }
  destruct (db_timers db !! id) as [t|] eqn:Ht.
  - assert (Hone : filter (λ kv, kv.1 = id) (db_timers db) = {[id := t]}).
    { apply map_eq. intros j. apply option_eq. intros u. rewrite map_lookup_filter_Some, lookup_singleton_Some. simpl. naive_solver. }
    rewrite Hone in Hp. unfold rows in Hp at 2. rewrite map_to_list_singleton in Hp. simpl in Hp.
    by apply Permutation_singleton_r in Hp as ->.
  - assert (Hnone : filter (λ kv, kv.1 = id) (db_timers db) = ∅).
    { apply map_empty. intros j. apply map_lookup_filter_None. right. intros u Hu. simpl. intros ->. congruence. }
    rewrite Hnone in Hp. unfold rows in Hp at 2. rewrite map_to_list_empty in Hp. simpl in Hp.
    by apply Permutation_nil_r in Hp as ->.
Qed.

(** C23: the repository is SQL on the tables of the migrations.  Over any database that obeys
    their schema, each writing method whose arguments can be encoded as JSON does what its
    statement in postgres.go does (for [ClaimDueTimers]: selects due timers by time up to
    the limit, skips locked ones, deletes them by their instance and returns them): it leaves
    the tables that the statement leaves, and succeeds exactly when the statement does, that
    is when no primary key, unique index, foreign key or NOT NULL of the migrations is broken
    and, for the updates that check it, one row was matched; otherwise it reports an error
    and changes nothing.  The timers it returns are those scanned from the deleted rows. *)
Theorem repository_is_sql {A} (op : repo_op A) k db created :
  schema_ok db → writes op = true → encodes op = true →
  ∃ o, statement op k (tables_of created db) o ∧ does op o (repo_exec op k db) db.
Proof.
  intros Hok Hw He. destruct op; try discriminate Hw; cbn [statement];
    try (eexists; split; [reflexivity|]).
  - by apply agrees_does, insert_definition_refines.
  - by apply agrees_does, insert_instance_refines.
  - by apply written_does, claim_instance_refines.
  - apply (deleted_does _ _ _ created); [done|by apply release_instance_refines|done|done].
  - by apply written_does, update_instance_refines.
  - apply andb_true_iff in He as [Hin Hout]. by apply agrees_does, insert_history_refines.
  - by apply written_does, complete_history_refines.
  - by apply agrees_does, upsert_timer_refines.
  - apply (deleted_does _ _ _ created); [done|by apply delete_timer_refines|done|done].
  - apply (deleted_does _ _ _ created); [done|by apply delete_timer_refines|done|]. apply (f_equal Ok), fire_timer_scans.
  - destruct (claim_due_timers_refines created now (k_order k) (k_order' k) (k_locked k) limit db Hok) as [Hdel Hret].
    eexists. split; [eexists; split; [apply due_selected|reflexivity]|].
    apply (deleted_does _ _ _ created); [done|exact Hdel|done|]. by eexists.
Qed.
End schema.

(** ** Runs of the system *)

(** What every call keeps of the repository, every run keeps. *)
Lemma pool_run_repo {S} `{Repository S} (P : S → Prop) (starts : prog () → Prop) (p p' : pool S) :
  (∀ A (op : repo_op A) k s, P s → P (repo_exec op k s).2) →
  rtc (pool_step starts) p p' → P (w_repo (p_world p)) → P (w_repo (p_world p')).
Proof.
  intros Hop. induction 1 as [|p q p' Hstep _ IH]; [done|]. intros HP. apply IH.
  destruct Hstep as [ts1 ts2 w R e k c r w' He| |]; [|done|done]. simpl in *.
  assert (Hredis : ∀ A f (op : Redis → res A * Redis) x v, on_redis f op w = (x, v) → P (w_repo v)).
  { intros A f op x v. unfold on_redis. destruct (with_fault f op (w_redis w)) as [y rd]. by intros [= _ <-]. }
  destruct e; simpl in He; try (by injection He as _ <-); try (by eapply Hredis).
  unfold with_fault in He. specialize (Hop _ op (c_tick c) (w_repo w) HP).
  destruct (c_fault c); [|by injection He as _ <-|by injection He as _ <-].
  destruct (repo_exec op (c_tick c) (w_repo w)) as [x s]. by injection He as _ <-.
Qed.

(** Every instance has a tenant. *)
Definition tenants_named (db : DB) : Prop := ∀ id r, db_instances db !! id = Some r → i_TenantID (row_inst r) ≠ "".

Section runs.
Context `{PgClock}.

Lemma tenants_named_replace db id r r' :
  db_instances db !! id = Some r → i_TenantID (row_inst r') = i_TenantID (row_inst r) →
  tenants_named db → tenants_named (set_instances db (<[id := r']> (db_instances db))).
Proof.
  intros Hr Heq Hn j x. simpl. rewrite lookup_insert. case_decide; [|apply Hn]. intros [= <-]. rewrite Heq. by eapply Hn.
Qed.

Lemma tenants_named_exec {A} (op : repo_op A) k db : tenants_named db → tenants_named (repo_exec op k db).2.
Proof.
  intros Hn. destruct op; simpl; try done.
  - unfold CreateDefinition. by repeat case_match.
  - unfold CreateInstance. destruct (json_ok _); simpl; [|done]. destruct (decide _); [done|].
    intros j x. simpl. rewrite lookup_insert. case_decide; [|apply Hn]. intros [= <-]. simpl.
    unfold tenant_or_default. by case_decide.
  - unfold ClaimInstance. destruct (db_instances db !! id) eqn:Hr; [|done].
    destruct (decide _); [|done]. by eapply tenants_named_replace.
  - unfold ReleaseInstance. destruct (db_instances db !! id) eqn:Hr; [|done].
    destruct (decide _); [|done]. by eapply tenants_named_replace.
  - unfold UpdateInstance. destruct (state_json_ok _); simpl; [|done].
    destruct (db_instances db !! i_ID instance) eqn:Hr; [|done].
    destruct (decide _); [|done]. by eapply tenants_named_replace.
  - unfold AppendHistory. by repeat case_match.
  - unfold CompleteHistory. by repeat case_match.
  - unfold UpsertTimer. by repeat case_match.
Qed.

Context `{Externals} `{GoArch}.

(** C24: referential integrity: in every run of any number of processes, from an empty
    database, the tables obey the schema of the migrations, so every timer and every
    history row belongs to an instance, and the definition of an instance is always
    found under the tenant and the id that its row names. *)
Theorem database_keeps_schema rd (p : pool DB) :
  reached (mkWorld empty_db rd) p →
  let db := w_repo (p_world p) in
  (∀ created, satisfies aether_schema (tables_of created db)) ∧
  (∀ i t, db_timers db !! i = Some t → is_Some (repo_view db i)) ∧
  (∀ i h, db_history db !! i = Some h → is_Some (repo_view db (h_InstanceID h))) ∧
  (∀ i a, repo_view db i = Some a → is_Some (repo_def db (i_TenantID a) (i_DefinitionID a))).
Proof.
  intros Hr. set (db := w_repo (p_world p)). cbn zeta.
  assert (Hok : schema_ok db).
  { apply (pool_run_repo schema_ok _ _ _ (λ A op k db, schema_ok_exec op k db) Hr). by split. }
  assert (Hn : tenants_named db).
  { by apply (pool_run_repo tenants_named _ _ _ (λ A op k db, tenants_named_exec op k db) Hr). }
  destruct Hok as [Hu Hi Hh Ht] eqn:Heq. split_and!.
  - intros created. by rewrite satisfies_iff.
  - intros i t Hit. destruct (Ht i t Hit) as [r Hrow]. simpl. rewrite Hrow. by eexists.
  - intros i h Hih. destruct (Hh i h Hih) as [r Hrow]. simpl. rewrite Hrow. by eexists.
  - intros i a. simpl. destruct (db_instances db !! i) as [r|] eqn:Hrow; [|done]. intros [= <-]. simpl.
    destruct (Hi i r Hrow) as (d & Hd & Htd). unfold GetDefinitionForTenant. rewrite Hd.
    assert (Hne := Hn i r Hrow). unfold tenant_or_default.
    rewrite decide_True; [by eexists|]. rewrite decide_False; done.
Qed.
End runs.

(** ** Concrete databases *)

(** A second definition with the tenant, name and version of another, an instance of an
    unknown definition and an instance of a definition of another tenant are refused. *)
Definition one_definition : DB := mkDB {["d1" := order_definition]} ∅ ∅ ∅.
Definition no_creation : string → time := λ _, 0%Z.

Lemma one_definition_ok : schema_ok one_definition.
Proof.
  split; try (intros i x Hx; done). unfold one_definition. simpl. intros i j d d' [<- <-]%lookup_singleton_Some [<- <-]%lookup_singleton_Some. done.
Qed.

Example schema_refuses :
  let k := mkTick 100 100 "u1" [] [] [] in
  let refuses {A} (op : repo_op A) := statement op k (tables_of no_creation one_definition) None in
  refuses (OpCreateDefinition "acme" order_dsl) ∧
  refuses (OpCreateInstance "acme" (mkDefinition "d2" "acme" "order" 1 order_dsl 10 10) None) ∧
  refuses (OpCreateInstance "other" order_definition None).
Proof.
  vm_compute. done.
Qed.

(** Three timers: one is due, one is due and locked, and one is not due. *)
Definition timers_db : DB :=
  mkDB {["d1" := order_definition]}
    ((λ t, mkRow order_instance None None) <$> ({["i1" := 0%Z; "i2" := 0%Z; "i3" := 0%Z]} : gmap string time)) ∅
    {["i1" := mkTimer "i1" "reserve" 4000; "i2" := mkTimer "i2" "reserve" 3000; "i3" := mkTimer "i3" "reserve" 9000]}.

Lemma timers_db_ok : schema_ok timers_db.
Proof.
  split; simpl.
  - intros i j d d' [<- <-]%lookup_singleton_Some [<- <-]%lookup_singleton_Some. done.
  - intros i r. rewrite lookup_fmap. intros (x & _ & ->)%fmap_Some. simpl.
    exists order_definition. split; reflexivity.
  - by intros i h ?%lookup_empty_Some.
  - intros i t Hi. rewrite lookup_fmap.
    repeat (apply lookup_insert_Some in Hi as [[<- _]|[_ Hi]]; [vm_compute; by eexists|]).
    apply lookup_singleton_Some in Hi as [<- _]. vm_compute. by eexists.
Qed.

Lemma repository_is_sql_witness :
  let k := mkTick 5000 5000 "u1" [] [] ["i2"] in
  let op := OpClaimDueTimers 5000 10 in
  (repo_exec op k timers_db).1 = Ok [mkTimer "i1" "reserve" 4000] ∧
  ∃ o, statement op k (tables_of no_creation timers_db) o ∧ does op o (repo_exec op k timers_db) timers_db.
Proof.
  split; [vm_compute; reflexivity|].
  apply (repository_is_sql (OpClaimDueTimers 5000 10) (mkTick 5000 5000 "u1" [] [] ["i2"]) timers_db no_creation);
    [exact timers_db_ok|reflexivity|reflexivity].
Defined.

#[local] Existing Instance toy_externals.

(** Two requests on an empty database: a definition and an instance of it. *)
Definition requested (r : request) : prog () := _ ← Router NewValidator [] (mkHeaders "" "") r; mret ().
Definition define_world : World DB :=
  (steps (requested (ReqCreateDefinition (Ok order_dsl))) (replicate 9 demo_choice) (mkWorld empty_db empty_redis)).2.
Definition create_world : World DB :=
  (steps (requested (ReqCreateInstance (Ok ("u1", None)))) (replicate 9 demo_choice2) define_world).2.

Lemma database_keeps_schema_witness :
  let db := w_repo create_world in
  (is_Some (repo_view db "u2") ∧ is_Some (repo_def db "default" "u1")) ∧
  (∀ created, satisfies aether_schema (tables_of created db)) ∧
  (∀ i t, db_timers db !! i = Some t → is_Some (repo_view db i)) ∧
  (∀ i h, db_history db !! i = Some h → is_Some (repo_view db (h_InstanceID h))) ∧
  (∀ i a, repo_view db i = Some a → is_Some (repo_def db (i_TenantID a) (i_DefinitionID a))).
Proof.
  cbn zeta. split; [vm_compute; split; eexists; reflexivity|].
  refine (database_keeps_schema empty_redis (mkPool [_; _] create_world) _).
  eapply rtc_l; [apply ps_start, (go_request NewValidator [] (mkHeaders "" "") (ReqCreateDefinition (Ok order_dsl)))|].
  etrans; [apply (steps_in goroutine [] _ [] (replicate 9 demo_choice))|].
  eapply rtc_l; [apply ps_start, (go_request NewValidator [] (mkHeaders "" "") (ReqCreateInstance (Ok ("u1", None))))|].
  apply (steps_in goroutine [] _ [_] (replicate 9 demo_choice2)).
Defined.
