(* ===== verification/AccessProps.v ===== *)
(** * Who may do what, and where requests may go

    Properties of security/http.go, of the HTTP step of the executor and of the
    authentication and authorisation of the API. *)

From Stdlib Require Import Ascii.
From S2P Require Import Prelude GoNum GoString GoTime Workflow Accessors Json Store Externals.
From S2P Require Import Effects Security Timer Worker Engine Evolves Concurrency Framed RunLogic.
From S2P Require Import Validator Api PostgresLaws StoreProps.

#[local] Open Scope Z_scope.

(** ** Addresses *)

Definition is_byte (b : Z) : Prop := 0 ≤ b < 256.

Lemma land_high_bits b mask n v :
  is_byte b → mask = Z.shiftl (Z.ones (8 - n)) n → 0 ≤ n ≤ 8 → Z.land v mask = v → is_byte v →
  (Z.land b mask = v ↔ v ≤ b < v + 2 ^ n).
Proof.
  intros Hb -> Hn Hv Hvb.
  assert (Hdecomp : ∀ x, is_byte x → Z.land x (Z.shiftl (Z.ones (8 - n)) n) = x / 2 ^ n * 2 ^ n).
  { intros x Hx. rewrite <- Z.shiftl_mul_pow2, <- Z.shiftr_div_pow2 by lia.
    apply Z.bits_inj'. intros k Hk. rewrite Z.land_spec. destruct (Z.ltb_spec k n).
    - rewrite !Z.shiftl_spec_low by lia. apply andb_false_r.
    - rewrite !Z.shiftl_spec_high by lia. rewrite Z.shiftr_spec by lia.
      replace (k - n + n) with k by lia. destruct (Z.ltb_spec k 8).
      + rewrite Z.ones_spec_low by lia. apply andb_true_r.
      + rewrite Z.ones_spec_high by lia. rewrite andb_false_r. symmetry.
        destruct (Z.eq_dec x 0) as [->|Hx0]; [apply Z.bits_0|].
        apply Z.bits_above_log2; [unfold is_byte in Hx; lia|].
        assert (Z.log2 x < 8); [|lia]. apply Z.log2_lt_pow2; unfold is_byte in Hx; lia. }
  rewrite Hdecomp in Hv |- * by done.
  pose proof (Z.div_mod b (2 ^ n) ltac:(lia)). pose proof (Z.mod_pos_bound b (2 ^ n) ltac:(lia)).
  set (q := b / 2 ^ n) in *. set (r := b mod 2 ^ n) in *. set (qv := v / 2 ^ n) in *.
  set (P := 2 ^ n) in *. clearbody P q r qv. split; [intros; lia|].
  intros. assert (q = qv) as -> by nia. exact Hv.
Qed.

(** The IPv4 addresses that are refused: 0.0.0.0, 10/8, 127/8, 169.254/16, 172.16/12,
    192.168/16 and 224/4. *)
Definition refused_v4 (a b c d : Z) : Prop :=
  (a = 0 ∧ b = 0 ∧ c = 0 ∧ d = 0) ∨ a = 10 ∨ a = 127 ∨ (a = 169 ∧ b = 254) ∨
  (a = 172 ∧ 16 ≤ b < 32) ∨ (a = 192 ∧ b = 168) ∨ 224 ≤ a < 240.

(** Exactly these IPv4 addresses are refused, whether given in 4 bytes or mapped into
    IPv6 (so [::ffff:127.0.0.1] does not get around the check). *)
Theorem private_v4_ranges a b c d :
  is_byte a → is_byte b → is_byte c → is_byte d →
  (isPrivateIP [a; b; c; d] = true ↔ refused_v4 a b c d) ∧
  isPrivateIP (replicate 10 0 ++ [255; 255] ++ [a; b; c; d]) = isPrivateIP [a; b; c; d].
Proof.
  intros Ha Hb Hc Hd. split; [|reflexivity].
  unfold isPrivateIP, IsLoopback, IsPrivate, IsLinkLocalUnicast, IsLinkLocalMulticast, IsUnspecified, IsMulticast.
  rewrite decide_False by done. change (To4 [a; b; c; d]) with (Some [a; b; c; d]).
  unfold byte_at. cbn [nth].
  pose proof (land_high_bits b 240 4 16 Hb eq_refl ltac:(lia) eq_refl ltac:(by vm_compute)) as H16.
  pose proof (land_high_bits a 240 4 224 Ha eq_refl ltac:(lia) eq_refl ltac:(by vm_compute)) as H224.
  change (2 ^ 4) with 16 in H16, H224.
  rewrite !orb_true_iff, !andb_true_iff, !bool_decide_eq_true, H16, H224. unfold refused_v4.
  assert ([a; b; c; d] = [0; 0; 0; 0] ↔ a = 0 ∧ b = 0 ∧ c = 0 ∧ d = 0) as -> by naive_solver.
  change (16 + 16) with 32. change (224 + 16) with 240.
  assert (a = 224 → 224 ≤ a < 240) by lia. tauto.
Qed.

(** ** The HTTP step *)

Section http.
Context `{Externals}.

(** What holds of every request the executor sends: the rules accept its URL, and unless
    private networks are allowed or the host is an address, the host was looked up and no
    address of it is private ([looked_up]). *)
Definition request_ok (e : Executor) (looked_up : list string) (req : http_request) : Prop :=
  (∃ u, ValidateHTTPURL (hr_URL req) (ex_allowPrivateNetworks e) = Ok u ∧
     (ex_allowPrivateNetworks e = true ∨ is_Some (ParseIP (url_Hostname u)) ∨ url_Hostname u ∈ looked_up)) ∧
  0 < hr_Timeout req ≤ ex_Timeout e ∧
  match hr_Body req with Some body => byte_length body ≤ ex_maxRequestBytes e | None => True end.

Definition public_addrs (answer : res (list (list Z))) : bool :=
  match answer with
  | Ok (ip :: addrs) => forallb (λ ip, negb (isPrivateIP ip)) (ip :: addrs)
  | _ => false
  end.

(** At most [n] requests are sent, each of them [request_ok]; [looked_up] are the hosts
    whose addresses were found to be public. *)
Fixpoint vetted {A} (e : Executor) (n : nat) (looked_up : list string) (p : prog A) : Prop :=
  match p with
  | PRet _ | PPanic => True
  | PCall c k =>
      match c in eff R return (nat → list string → R → Prop) → Prop with
      | EHTTP req => λ later,
          match n with
          | O => False
          | S n => request_ok e looked_up req ∧ ∀ r, later n looked_up r
          end
      | ELookupIP host => λ later, ∀ r, later n (if public_addrs r then host :: looked_up else looked_up) r
      | _ => λ later, ∀ r, later n looked_up r
      end (λ n looked_up r, vetted e n looked_up (k r))
  end.

Definition no_http R (e : eff R) : Prop := match e with EHTTP _ => False | _ => True end.

Lemma request_ok_more e hosts hosts' req : hosts ⊆ hosts' → request_ok e hosts req → request_ok e hosts' req.
Proof. intros Hsub ((u & Hu & Hh) & Hrest). split; [|done]. exists u. split; [done|]. set_solver. Qed.

(** A program without requests, and what follows it. *)
Lemma vetted_bind {A B} e n hosts (p : prog A) (f : A → prog B) :
  calls_only no_http p → (∀ a hosts', hosts ⊆ hosts' → vetted e n hosts' (f a)) → vetted e n hosts (p ≫= f).
Proof.
  revert hosts. induction p as [a| |R c k IH]; intros hosts Hp Hf; [by apply Hf|done|].
  destruct Hp as [Hc Hk]. destruct c; try done; intros r; apply IH; try done.
  intros a hosts' Hsub. apply Hf. destruct (public_addrs r); set_solver.
Qed.
Lemma vetted_none {A} e n hosts (p : prog A) : calls_only no_http p → vetted e n hosts p.
Proof.
  revert hosts. induction p as [a| |R c k IH]; intros hosts Hp; [done|done|].
  destruct Hp as [Hc Hk]. destruct c; try done; intros r; by apply IH.
Qed.
Lemma vetted_assoc {A B C} e n hosts (p : prog A) (f : A → prog B) (g : B → prog C) :
  vetted e n hosts (p ≫= λ a, f a ≫= g) → vetted e n hosts ((p ≫= f) ≫= g).
Proof.
  revert n hosts. induction p as [a| |R c k IH]; intros n hosts; [done|done|].
  destruct c; try (intros Hv r; apply IH, Hv). destruct n as [|n]; [done|]. intros [Hok Hv]. split; [done|]. intros r. apply IH, Hv.
Qed.

Lemma request_body_small e config body :
  request_body e config = Ok (Some body) → byte_length body ≤ ex_maxRequestBytes e.
Proof.
  unfold request_body. destruct (gm_get config "body") as [v|]; [|done].
  destruct v; try done; (destruct (negb (json_ok _)); [done|]; cbv zeta; case_decide; [done|]; intros [= <-]; lia).
Qed.

Lemma request_timeout_range e config t : 0 < ex_Timeout e → request_timeout e config = Ok t → 0 < t ≤ ex_Timeout e.
Proof.
  intros He. unfold request_timeout. destruct (firstString config ["timeout"]) as [text|]; [|intros [= <-]; lia].
  case_decide; [intros [= <-]; lia|]. destruct (parse_duration text) as [d|]; [|done].
  case_decide; [done|]. intros [= <-]. lia.
Qed.

Lemma no_http_render fuel v env : calls_only no_http (render fuel v env).
Proof.
  revert v. induction fuel as [|fuel IH]; intros v; [done|]. cbn [render].
  destruct v as [| | | | | |l|m|]; try done.
  - apply calls_bind; [|done]. generalize 0, ([] : list value). induction l as [|v l IHl]; intros i out; [done|].
    cbn [render_items]. apply calls_try; [apply IH|]. intros a. apply IHl.
  - apply calls_bind; [by split|]. intros o. apply calls_bind; [|done].
    assert (Hl : ∀ l out, calls_only no_http (render_entries (λ v, render fuel v env) l out)); [|apply Hl].
    induction l as [|[k v] l IHl]; intros out; [done|].
    cbn [render_entries]. apply calls_try; [apply IH|]. intros a. apply IHl.
Qed.

Lemma check_addrs_public host addrs : check_addrs host addrs = Ok () → forallb (λ ip, negb (isPrivateIP ip)) addrs = true.
Proof. induction addrs as [|ip addrs IH]; [done|]. simpl. destruct (isPrivateIP ip); [done|]. apply IH. Qed.

(** What follows the destination check. *)
Lemma vetted_ensure {A} e n hosts rawURL (f : res () → prog A) :
  (∀ err hosts', vetted e n hosts' (f (Err err))) →
  (∀ u hosts', ValidateHTTPURL rawURL (ex_allowPrivateNetworks e) = Ok u →
     (ex_allowPrivateNetworks e = true ∨ is_Some (ParseIP (url_Hostname u)) ∨ url_Hostname u ∈ hosts') →
     vetted e n hosts' (f (Ok ()))) →
  vetted e n hosts (EnsureHTTPDestinationAllowed rawURL (ex_allowPrivateNetworks e) ≫= f).
Proof.
  intros Herr Hok. unfold EnsureHTTPDestinationAllowed.
  destruct (ValidateHTTPURL rawURL _) as [u|err] eqn:Hu; [|apply Herr].
  destruct (ex_allowPrivateNetworks e) eqn:Ha; [apply (Hok u); [done|by left]|]. cbv zeta.
  destruct (ParseIP (url_Hostname u)) eqn:Hip; [apply (Hok u); [done|right; left; by eexists]|].
  intros answer. destruct answer as [[|ip addrs]|err]; [apply Herr| |apply Herr].
  cbn [mbind prog_mbind prog_bind mret prog_mret].
  destruct (check_addrs (url_Hostname u) (ip :: addrs)) as [[]|err] eqn:Hc; [|apply Herr].
  apply check_addrs_public in Hc. unfold public_addrs. rewrite Hc. apply (Hok u); [done|]. right; right. left.
Qed.

(** The client, followed by what reads its answer: five requests at most, and every hop of
    a redirect is checked like the first request. *)
Lemma vetted_client_do {A} e first (g : res http_response → prog A) :
  0 < hr_Timeout first ≤ ex_Timeout e →
  match hr_Body first with Some body => byte_length body ≤ ex_maxRequestBytes e | None => True end →
  (∀ r n hosts, vetted e n hosts (g r)) →
  ∀ fuel via req hosts, hr_Timeout req = hr_Timeout first → request_ok e hosts req →
    vetted e fuel hosts (client_do fuel e first via req ≫= g).
Proof.
  intros Ht Hb Hg fuel. induction fuel as [|fuel IH]; intros via req hosts Hreq Hok; [done|]. cbn [client_do].
  split; [done|]. intros [resp|err]; [|exact (Hg (Err err) _ _)]. cbn [mbind prog_mbind prog_bind].
  destruct (redirect_behavior (hr_Method req) (resp_StatusCode resp)) as [[method keep]|]; [|exact (Hg (Ok resp) _ _)].
  cbv zeta. case_decide; [exact (Hg (Ok resp) _ _)|].
  destruct (url_resolve (hr_URL req) _) as [target|err]; [|exact (Hg (Err _) _ _)].
  apply vetted_assoc. unfold checkRedirect. cbv zeta.
  destruct (previous_refusal e _ _) as [err|]; [by destruct err; apply (Hg _)|].
  destruct (decide (5 ≤ _)%nat); [exact (Hg (Err _) _ _)|].
  apply vetted_assoc, vetted_ensure; [intros err hosts'; exact (Hg (Err _) _ _)|].
  intros u hosts' Hu Hhost. apply IH; [done|]. split; [by exists u|]. simpl. rewrite Hreq. split; [done|]. by destruct keep.
Qed.

(** C34: with a client whose timeout is positive, every request an execution of a step sends,
    the first one and those of redirects, has a URL that passed the destination rules (http
    or https, no userinfo, a host, and unless private networks are allowed no local or private
    host), a timeout between zero and the client's, and a body within the size limit; and,
    unless private networks are allowed (then no host is looked up), its host is an address or
    was looked up before with no private address among its own.  At most five requests are
    sent. *)
Theorem http_requests_within_limits e instance step :
  0 < ex_Timeout e → vetted e 5 [] (Execute e instance step).
Proof.
  intros He. unfold Execute. cbv zeta. case_decide.
  2:{ apply vetted_none. repeat (case_decide; [|]);
    unfold executeTransform, executeDelay, executeCondition, executeFork, executeJoin, unless_done, eval_expression;
    calls_walk; done. }
  unfold executeHTTPRequest. apply vetted_bind; [apply no_http_render|]. intros [[]|err] hosts _; try done.
  cbv zeta. case_decide; [done|]. set (rawURL := default "" (stringValue m "url")).
  apply vetted_ensure; [done|]. intros u hosts' Hu Hhost.
  destruct (request_body e m) as [body|] eqn:Hbody; [|done].
  destruct (request_timeout e m) as [timeout|] eqn:Htimeout; [|done].
  destruct (new_request_error _ _); [done|]. apply vetted_bind; [by split|]. intros o hosts2 Hsub.
  apply request_timeout_range in Htimeout; [|done].
  assert (Hlim : match body with Some body => byte_length body ≤ ex_maxRequestBytes e | None => True end).
  { destruct body; [|done]. by apply (request_body_small e m). }
  apply vetted_client_do; [done|done|intros [r|] n hosts3; done|done|].
  split; [|done]. exists u. split; [done|]. set_solver.
Qed.
End http.

(** ** The API *)

(** The roles that a route admits; [None] for a route without authentication. *)
Definition allowed_roles (r : request) : option (list string) :=
  match r with
  | ReqHealthz | ReqReadyz => None
  | ReqCreateDefinition _ => Some [roleAdmin]
  | ReqCreateInstance _ => Some [roleAdmin; roleOperator]
  | ReqGetInstance _ => Some [roleAdmin; roleOperator; roleReader]
  end.

Section api.
Context `{Externals}.

Lemma normalizeRole_known role : normalizeRole role ∈ [roleAdmin; roleOperator; roleReader].
Proof. unfold normalizeRole. cbv zeta. repeat case_decide; set_solver. Qed.

Lemma parse_key_ok part k :
  parse_key part = Some k →
  k_Token k ≠ "" ∧ k_TenantID k ≠ "" ∧ k_Role k ∈ [roleAdmin; roleOperator; roleReader].
Proof.
  assert (Hadmin : roleAdmin ∈ [roleAdmin; roleOperator; roleReader]) by set_solver.
  unfold parse_key. cbv zeta. case_decide; [done|].
  destruct (cut_byte "=" (trim_space part)) as [[token descriptor]|].
  - destruct (cut_byte ":" (trim_space descriptor)) as [[t r]|];
      (case_decide; [done|]); intros [= <-]; simpl in *; (split_and!; [done|by case_decide|]).
    + case_decide; [apply normalizeRole_known|done].
    + done.
  - case_decide; [done|]. intros [= <-]. simpl in *. by split_and!.
Qed.

Lemma ParseAPIKeys_ok raw k :
  k ∈ ParseAPIKeys raw →
  k_Token k ≠ "" ∧ k_TenantID k ≠ "" ∧ k_Role k ∈ [roleAdmin; roleOperator; roleReader].
Proof. unfold ParseAPIKeys. intros (part & _ & Hk)%list_elem_of_omap. by apply (parse_key_ok part). Qed.

Lemma find_key_Some keys token p :
  find_key keys token = Some p → ∃ k, k ∈ keys ∧ token = k_Token k ∧ p = mkPrincipal (k_TenantID k) (k_Role k).
Proof.
  induction keys as [|k keys IH]; simpl; [done|]. case_decide.
  - intros [= <-]. exists k. split_and!; [apply list_elem_of_here|done|done].
  - intros (k' & ? & ?)%IH. exists k'. split; [by apply list_elem_of_further|done].
Qed.

(** An authenticated principal of configured keys has a tenant and a known role. *)
Lemma authenticate_ok raw h p :
  authenticate (ParseAPIKeys raw) h = Some p → currentPrincipal (Some p) = p ∧
    pr_Role p ∈ [roleAdmin; roleOperator; roleReader].
Proof.
  unfold authenticate, currentPrincipal. destruct (ParseAPIKeys raw) as [|k0 ks] eqn:Hks.
  - intros [= <-]. split; [done|]. set_solver.
  - intros (k & Hin & _ & ->)%find_key_Some. rewrite <- Hks in Hin.
    apply ParseAPIKeys_ok in Hin as (_ & Ht & Hr). simpl. split; [|done].
    apply decide_False. intros [|Hrole]; [done|]. rewrite Hrole in Hr. set_solver.
Qed.

(** C35: a protected route is served only to a principal with an admitted role: without a
    matching key the answer is 401 and with another role 403, in both cases without any
    call to the repository, Redis or the validator; definitions need an admin, starting
    an instance an admin or operator. *)
Theorem routes_are_protected v raw h r roles :
  allowed_roles r = Some roles →
  match authenticate (ParseAPIKeys raw) h with
  | None => Router v (ParseAPIKeys raw) h r = mret (error_reply 401 "invalid or missing API key")
  | Some p => pr_Role p ∉ roles → Router v (ParseAPIKeys raw) h r = mret (error_reply 403 "insufficient role")
  end.
Proof.
  intros Hr. destruct (authenticate (ParseAPIKeys raw) h) as [p|] eqn:Ha.
  - intros Hrole. destruct (authenticate_ok _ _ _ Ha) as [Hp _].
    destruct r; simpl in Hr; try discriminate; injection Hr as <-; cbn [Router]; unfold protected; rewrite Ha;
      cbv zeta; rewrite Hp; unfold requireRole; by rewrite bool_decide_false.
  - destruct r; simpl in Hr; try discriminate; cbn [Router]; unfold protected; by rewrite Ha.
Qed.

(** C36: a tenant sees only its own instances through the API: when reading an instance is
    answered with 200, the instance belongs to the tenant of the presented key and every
    history entry is one of that instance. *)
Theorem get_instance_isolated `{PgClock} v raw h id cs (w : World DB) inst history w' cs' :
  run (Router v (ParseAPIKeys raw) h (ReqGetInstance id)) cs w =
    (Returned (200, ReplyDetail inst history), w', cs') →
  ∃ p, authenticate (ParseAPIKeys raw) h = Some p ∧
    i_TenantID inst = tenant_or_default (pr_TenantID p) ∧ i_ID inst = id ∧
    ∀ e, e ∈ history → h_InstanceID e = id.
Proof.
  cbn [Router]. unfold protected. destruct (authenticate (ParseAPIKeys raw) h) as [p|] eqn:Ha; [|done].
  destruct (authenticate_ok _ _ _ Ha) as [Hp _]. cbv zeta. rewrite Hp.
  destruct (requireRole _ _); [|done]. unfold getInstance.
  destruct cs as [|c cs]; [done|]. cbn -[GetInstanceForTenant ListHistoryForTenant].
  destruct (c_fault c); cbn -[GetInstanceForTenant ListHistoryForTenant];
    [|discriminate|discriminate].
  destruct (GetInstanceForTenant (pr_TenantID p) id (w_repo w)) as [i|err] eqn:Hget; [|discriminate].
  destruct cs as [|c' cs]; [done|]. cbn -[GetInstanceForTenant ListHistoryForTenant].
  destruct (c_fault c'); cbn -[GetInstanceForTenant ListHistoryForTenant]; [|done|done].
  intros [= <- <- _ _]. exists p. split; [done|].
  unfold GetInstanceForTenant in Hget. unfold ListHistoryForTenant.
  destruct (db_instances (w_repo w) !! id) as [row|]; [|done].
  case_decide as Ht; [|done]. injection Hget as <-. split_and!; [done|done|].
  intros e ([k h0] & -> & Hin)%list_elem_of_fmap.
  unfold order_by in Hin. rewrite sorting.merge_sort_Permutation, elem_of_range_order in Hin.
  by apply map_lookup_filter_Some in Hin as [_ ?].
Qed.
End api.

(** ** Sizes of bodies *)

Lemma take_bytes_length n s : 0 ≤ n → byte_length (take_bytes n s) ≤ n.
Proof.
  revert n. induction s as [|c s IH]; intros n Hn; cbn [take_bytes byte_length]; [done|].
  case_decide; cbn [byte_length]; [done|]. specialize (IH (n - 1)). lia.
Qed.

Lemma take_bytes_all n s : byte_length s ≤ n → take_bytes n s = s.
Proof.
  assert (Hpos : ∀ s, 0 ≤ byte_length s) by (induction s0 as [|? ? IH]; cbn [byte_length]; lia).
  revert n. induction s as [|c s IH]; intros n Hn; cbn [take_bytes byte_length] in *; [done|].
  specialize (Hpos s). rewrite decide_False by lia. rewrite IH; [done|lia].
Qed.

Lemma limitBody_pos max body : 0 < max →
  limitBody max body = (take_bytes max body, if decide (max < byte_length body) then Some (ErrText "http: request body too large") else None).
Proof. intros Hm. unfold limitBody. cbv zeta. by rewrite decide_False by lia. Qed.

(** The limit of request bodies: no decoder is handed more bytes than the limit; a body
    within the limit arrives whole; of a longer one the decoder learns only the first bytes
    and that it is too long, so requests that differ beyond the limit are served alike. *)
Theorem bodies_are_limited `{Externals} `{Binding} h hd body :
  0 < o_MaxBodyBytes (h_options h) →
  byte_length (limitBody (o_MaxBodyBytes (h_options h)) body).1 ≤ o_MaxBodyBytes (h_options h) ∧
  (byte_length body ≤ o_MaxBodyBytes (h_options h) →
     limitBody (o_MaxBodyBytes (h_options h)) body = (body, None)) ∧
  (∀ body', o_MaxBodyBytes (h_options h) < byte_length body → o_MaxBodyBytes (h_options h) < byte_length body' →
     take_bytes (o_MaxBodyBytes (h_options h)) body = take_bytes (o_MaxBodyBytes (h_options h)) body' →
     serve h hd (PostDefinitions body) = serve h hd (PostDefinitions body') ∧
     serve h hd (PostInstances body) = serve h hd (PostInstances body')).
Proof.
  intros Hm. split_and!.
  - rewrite limitBody_pos by done. apply take_bytes_length. lia.
  - intros Hfit. rewrite limitBody_pos by done. rewrite decide_False by lia. by rewrite take_bytes_all.
  - intros body' Hb Hb' Heq. unfold serve, decode_body. rewrite !limitBody_pos by done.
    rewrite !decide_True by done. cbn [fst snd]. by rewrite Heq.
Qed.

(** Without a usable limit the default of one megabyte holds. *)
Lemma limitBody_default max body : max ≤ 0 → limitBody max body = limitBody 1048576 body.
Proof. intros Hm. unfold limitBody. by rewrite decide_True by done. Qed.

(** An unlimited response is empty: with MAX_REQUEST_BYTES at the largest int64 the limit
    plus one wraps to a negative number, nothing of a response is read, and every response
    seems to have no body. *)
Lemma unlimited_response_is_empty `{Externals} e resp body :
  ex_maxResponseBytes e = int64_max → resp_Body resp = Ok body →
  exists r, (http_result e resp).1 = Some r ∧ gm_get (r_Output r) "body" = Some VNil.
Proof.
  intros Hmax Hb. unfold http_result. rewrite Hb, Hmax. cbv zeta.
  assert (take_bytes (wrap64 (int64_max + 1)) body = "") as ->.
  { destruct body; [done|]. cbn [take_bytes]. rewrite decide_True; [done|]. vm_compute. discriminate. }
  rewrite decide_False by (cbv; discriminate). rewrite (decide_True (P := "" = "")) by done.
  destruct (decide (_ ∨ _)); eexists; split; reflexivity.
Qed.

(** A role that is misspelt gives full rights: an unknown role in API_KEYS is read as
    [admin], so a key meant for a viewer may create definitions. *)
Theorem unknown_role_is_admin :
  @ParseAPIKeys toy_externals "s3cret=acme:viewer" = [mkAPIKey "s3cret" "acme" roleAdmin].
Proof. vm_compute. reflexivity. Qed.

(** Malformed keys switch authentication off: an API_KEYS value without any usable token
    yields no key, and without keys every request is the administrator of the default
    tenant. *)
Theorem malformed_keys_disable_auth h :
  @ParseAPIKeys toy_externals "=acme:reader" = [] ∧
  authenticate (@ParseAPIKeys toy_externals "=acme:reader") h = Some (mkPrincipal defaultTenantID roleAdmin).
Proof. split; vm_compute; reflexivity. Qed.

(** ** Witnesses *)
#[local] Existing Instance toy_externals.

Lemma private_v4_ranges_witness :
  (isPrivateIP [172; 31; 0; 1] = true ↔ refused_v4 172 31 0 1) ∧
  isPrivateIP (replicate 10 0 ++ [255; 255] ++ [172; 31; 0; 1]) = isPrivateIP [172; 31; 0; 1].
Proof. apply (private_v4_ranges 172 31 0 1); unfold is_byte; lia. Defined.

(** A redirect to a local address is refused: the step fails and no second request is sent
    (the last choice is left). *)
Definition hop (response : res http_response) : choice :=
  mkChoice NoFault (mkTick 100 100 "u1" [] [] []) 100 "" 1 [] None (Ok [[8; 8; 8; 8]]%Z) response.
Definition moved : res http_response := Ok (mkResponse 302 {["Location" := ["http://127.0.0.1/admin"]]} (Ok "")).
Example redirect_to_private_refused :
  match run (S := DB) (Execute (NewExecutor None) order_instance
          (mkStep "call" StepHTTPRequest (obj_map [("url", VStr "http://example.com/"); ("method", VStr "GET")]) None ""))
          (replicate 5 (hop moved)) (mkWorld empty_db empty_redis) with
  | (Returned (result, Some err), _, unused) =>
      result = None ∧ length unused = 1%nat ∧
      err_text err = "perform http_request: Get " +:+ go_quote "http://127.0.0.1/admin" +:+
        ": validate http_request redirect destination: private or local url host " +:+ go_quote "127.0.0.1" +:+ " is not allowed"
  | _ => False
  end.
Proof. vm_compute. repeat split. Qed.

Lemma http_requests_within_limits_witness :
  vetted (NewExecutor None) 5 [] (Execute (NewExecutor None) order_instance
    (mkStep "call" StepHTTPRequest (obj_map [("url", VStr "http://example.com/"); ("method", VStr "GET")]) None "")).
Proof. apply (http_requests_within_limits (NewExecutor None)). vm_compute. reflexivity. Defined.

Lemma routes_are_protected_witness :
  allowed_roles (ReqCreateDefinition (Ok order_dsl)) = Some [roleAdmin] ∧
  Router NewValidator (ParseAPIKeys "k1=acme:reader") (mkHeaders "Bearer k1" "")
    (ReqCreateDefinition (Ok order_dsl)) = mret (error_reply 403 "insufficient role").
Proof.
  split; [reflexivity|].
  refine (routes_are_protected NewValidator "k1=acme:reader" (mkHeaders "Bearer k1" "")
            (ReqCreateDefinition (Ok order_dsl)) [roleAdmin] eq_refl _).
  apply (bool_decide_eq_true (pr_Role (mkPrincipal "acme" roleReader) ∉ [roleAdmin])). vm_compute. reflexivity.
Defined.

Definition api_choice : choice :=
  mkChoice NoFault (mkTick 100 100 "u1" [] [] []) 100 "" 1 [] None (Err (ErrText "")) (Err (ErrText "")).
Lemma get_instance_isolated_witness :
  ∃ p, authenticate (ParseAPIKeys "k1=acme:reader") (mkHeaders "" "k1") = Some p ∧
    i_TenantID order_instance = tenant_or_default (pr_TenantID p) ∧ i_ID order_instance = "i1" ∧
    ∀ e, e ∈ [] → h_InstanceID e = "i1".
Proof.
  apply (get_instance_isolated NewValidator "k1=acme:reader" (mkHeaders "" "k1") "i1" [api_choice; api_choice]
           (mkWorld order_db empty_redis) order_instance [] (mkWorld order_db empty_redis) []).
  vm_compute. reflexivity.
Defined.
