(* ===== verification/Main.v ===== *)
(** * cmd/api/main.go: the life of the process

    [run] as the list of what it does with the outside, in order, and how it ends.  What
    the outside answers is a [platform]: the environment, the outcome of each connection,
    ping and registration, and what the final [select] receives.  Resources are opened and
    closed as Go's [defer] does: the deferred calls run in reverse order when the function
    returns or panics. *)

From S2P Require Import Prelude GoNum GoString GoTime Workflow Externals Effects Security Validator.
From S2P Require Import Timer Worker Engine Evolves Concurrency Framed EngineSafe ValidatorProps.
From S2P Require Import Api System Telemetry Config.

(** ** What the process does *)

Inductive resource :=
| Signals                        (* signal.NotifyContext; closed by stop() *)
| Tracing (s : trace_shutdown)
| Pool
| RedisClient.

(** The four goroutines of [run]. *)
Inductive routine :=
| ServeAPI (addr : string) (h : Handler)
| ServeMetrics (addr : string)
| RunEngine (e : Engine)
| RunTimers (s : Service).

Inductive action :=
| Opened (r : resource)
| Closed (r : resource)
| PingPostgres
| PingRedis (timeout : duration)
| WarnNoKeys
| Start (r : routine)
| Stop                           (* the explicit stop(), which cancels the root context *)
| ShutdownAPI (timeout : duration)
| ShutdownMetrics (timeout : duration).

(** What the [select] may receive: a signal, or the end of a goroutine. *)
Inductive event :=
| Signal
| Ends (r : routine) (result : option goerr).

Definition ErrServerClosed : string := "http: Server closed".

(** What a goroutine that ended sends on the error channel. *)
Definition reports (r : routine) (result : option goerr) : option goerr :=
  match result with
  | None => None
  | Some err =>
      match r with
      | ServeAPI _ _ => if err_is err ErrServerClosed then None else Some (ErrWrap "api server" err)
      | ServeMetrics _ => if err_is err ErrServerClosed then None else Some (ErrWrap "metrics server" err)
      | RunEngine _ => Some (ErrWrap "engine run" err)
      | RunTimers _ => Some (ErrWrap "timer run" err)
      end
  end.

(** The [select]: [Some None] for the signal, [Some (Some err)] for an error, [None] while
    neither has come. *)
Fixpoint await (events : list event) : option (option goerr) :=
  match events with
  | [] => None
  | Signal :: _ => Some None
  | Ends r result :: events =>
      match reports r result with
      | Some err => Some (Some err)
      | None => await events
      end
  end.

Record platform := mkPlatform {
  pl_getenv : string → string;
  pl_host : string;
  pl_pid : Z;
  pl_exporter : string → res ();
  pl_pool : string → res ();
  pl_postgres : res ();
  pl_redis : res ();
  pl_register : collector → registration;
  pl_events : list event;
  pl_shutdown_api : res ();
  pl_shutdown_metrics : res ();
}.

(** ** How it ends *)

(** [Running]: the select is still waiting. *)
Inductive ending := Finished (err : option goerr) | Dies | Running.
Definition proc : Type := list action * ending.

Definition fail (ctx : string) (e : goerr) : proc := ([], Finished (Some (ErrWrap ctx e))).
Definition do_ (a : action) (k : proc) : proc := (a :: k.1, k.2).
(** [defer]: [a] runs when [k] has returned or panicked. *)
Definition deferred (a : action) (k : proc) : proc :=
  match k.2 with Running => k | _ => (k.1 ++ [a], k.2) end.
(** [if err := ...; err != nil { return fmt.Errorf(ctx, err) }] *)
Definition checked {A} (r : res A) (ctx : string) (k : A → proc) : proc :=
  match r with Err e => fail ctx e | Ok a => k a end.
(** A resource that is opened and closed by [defer]. *)
Definition with_resource (r : resource) (k : proc) : proc := do_ (Opened r) (deferred (Closed r) k).

Section run.
Context `{Externals}.
Variable P : platform.

Definition routines (cfg : Config) : list routine :=
  let w := wire (pl_host P) (pl_pid P) cfg in
  [ServeAPI (cfg_HTTPAddr cfg) (wr_handler w); ServeMetrics (cfg_MetricsAddr cfg);
   RunEngine (wr_engine w); RunTimers (wr_timers w)].

(** The shutdown after a signal. *)
Definition shutdown_servers (cfg : Config) : proc :=
  do_ (ShutdownAPI (cfg_ShutdownTimeout cfg))
    (checked (pl_shutdown_api P) "shutdown api server" (λ _,
       do_ (ShutdownMetrics (cfg_ShutdownTimeout cfg))
         (checked (pl_shutdown_metrics P) "shutdown metrics server" (λ _, ([], Finished None))))).

(** The four goroutines, then the select. *)
Definition operate (cfg : Config) : proc :=
  foldr (λ r, do_ (Start r))
    (match await (pl_events P) with
     | None => ([], Running)
     | Some (Some err) => do_ Stop ([], Finished (Some err))
     | Some None => shutdown_servers cfg
     end) (routines cfg).

(** From the metrics on. *)
Definition build (cfg : Config) : proc :=
  match NewMetrics (pl_register P) with
  | GoPanic => ([], Dies)
  | Done _ => if decide (cfg_APIKeys cfg = "") then do_ WarnNoKeys (operate cfg) else operate cfg
  end.

Definition run : proc :=
  checked (Load (pl_getenv P)) "load config" (λ cfg,
  with_resource Signals (
  checked (InitTracing (pl_exporter P) (cfg_OTLPEndpoint cfg)) "init tracing" (λ traceShutdown,
  with_resource (Tracing traceShutdown) (
  checked (pl_pool P (cfg_DatabaseURL cfg)) "create postgres pool" (λ _,
  with_resource Pool (
  do_ PingPostgres (checked (pl_postgres P) "ping postgres" (λ _,
  with_resource RedisClient (
  do_ (PingRedis (3 * Second)) (checked (pl_redis P) "ping redis" (λ _,
  build cfg))))))))))).
End run.

(** [main]: the exit code, when the process ends (2 is that of a Go panic). *)
Definition exit_code (e : ending) : option Z :=
  match e with
  | Finished None => Some 0%Z
  | Finished (Some _) => Some 1%Z
  | Dies => Some 2%Z
  | Running => None
  end.

(** What the goroutines of [run] execute: [n] iterations of the loops, any events, any
    requests.  The metrics server answers from the Prometheus registry only. *)
Inductive spawns `{Externals} `{GoArch} `{Binding} : routine → prog () → Prop :=
| spawns_start e : spawns (RunEngine e) (_ ← Run_start; mret ())
| spawns_engine e n t : t ∈ Run_goroutines e n → spawns (RunEngine e) t
| spawns_timers s events : spawns (RunTimers s) (Run s events)
| spawns_api addr h hd i : spawns (ServeAPI addr h) (_ ← serve h hd i; mret ()).

(** ** Resources *)

#[export] Instance trace_shutdown_eq_dec : EqDecision trace_shutdown.
Proof. solve_decision. Defined.
#[export] Instance resource_eq_dec : EqDecision resource.
Proof. solve_decision. Defined.

(** What must be open for an action of [run] itself; for the start of a goroutine, at that
    moment.  What the goroutine uses later is not an action of [run], which does not wait
    for its goroutines: see [closed_under_goroutines]. *)
Definition needs (a : action) : list resource :=
  match a with
  | PingPostgres => [Pool]
  | PingRedis _ => [RedisClient]
  | Start _ => [RedisClient; Pool; Signals]
  | Stop | ShutdownAPI _ | ShutdownMetrics _ => [Signals]
  | _ => []
  end.

(** The resources that are open after a list of actions, the last one first; [None] when
    something is used that is not open, or closed that is not the last one opened. *)
Fixpoint disciplined (held : list resource) (t : list action) : option (list resource) :=
  match t with
  | [] => Some held
  | Opened r :: t => disciplined (r :: held) t
  | Closed r :: t =>
      match held with
      | r' :: held => if decide (r = r') then disciplined held t else None
      | [] => None
      end
  | a :: t => if decide (Forall (λ r, r ∈ held) (needs a)) then disciplined held t else None
  end.

Lemma disciplined_app held t t' :
  disciplined held (t ++ t') = disciplined held t ≫= λ held', disciplined held' t'.
Proof.
  revert held. induction t as [|a t IH]; intros held; [done|].
  destruct a; simpl; try (case_decide; [apply IH|done]); try apply IH.
  destruct held; [done|]. case_decide; [apply IH|done].
Qed.

(** A process that ends leaves open what was open before; one that waits holds [waiting]. *)
Definition leaves (waiting held : list resource) (k : proc) : Prop :=
  match k.2 with
  | Running => disciplined held k.1 = Some waiting
  | _ => disciplined held k.1 = Some held
  end.

Lemma leaves_fail ws held ctx e : leaves ws held (fail ctx e).
Proof. done. Qed.

Lemma leaves_checked {A} ws held (r : res A) ctx k : (∀ a, leaves ws held (k a)) → leaves ws held (checked r ctx k).
Proof. intros Hk. destruct r; [apply Hk|apply leaves_fail]. Qed.

(** An action that opens and closes nothing. *)
Lemma leaves_do ws held a k :
  (∀ t, disciplined held (a :: t) = disciplined held t) → leaves ws held k → leaves ws held (do_ a k).
Proof. unfold leaves, do_. simpl. intros ->. done. Qed.

Lemma leaves_with_resource ws held r k : leaves ws (r :: held) k → leaves ws held (with_resource r k).
Proof.
  unfold leaves, with_resource, do_, deferred. destruct k as [t [err| |]]; simpl.
  - rewrite disciplined_app. intros ->. simpl. by rewrite decide_True.
  - rewrite disciplined_app. intros ->. simpl. by rewrite decide_True.
  - done.
Qed.

Lemma leaves_started ws held (rs : list routine) k :
  RedisClient ∈ held → Pool ∈ held → Signals ∈ held → leaves ws held k → leaves ws held (foldr (λ r, do_ (Start r)) k rs).
Proof.
  intros Hr Hp Hs Hk. induction rs as [|r rs IH]; [done|]. simpl. apply leaves_do; [|done].
  intros t. simpl. rewrite decide_True; [done|]. by repeat constructor.
Qed.

Section properties.
Context `{Externals}.
Variable P : platform.

Lemma leaves_shutdown ws held cfg : Signals ∈ held → leaves ws held (shutdown_servers P cfg).
Proof.
  intros Hs. unfold shutdown_servers.
  assert (Hn : Forall (λ r, r ∈ held) [Signals]) by by repeat constructor.
  apply leaves_do; [intros t; simpl; by rewrite decide_True|]. apply leaves_checked. intros _.
  apply leaves_do; [intros t; simpl; by rewrite decide_True|]. by apply leaves_checked.
Qed.

Lemma leaves_operate held cfg :
  RedisClient ∈ held → Pool ∈ held → Signals ∈ held → leaves held held (operate P cfg).
Proof.
  intros Hr Hp Hs. apply leaves_started; [done..|].
  destruct (await (pl_events P)) as [[err|]|]; [|by apply leaves_shutdown|done].
  apply leaves_do; [|done]. intros t. simpl. rewrite decide_True; [done|]. by repeat constructor.
Qed.

Lemma leaves_build held cfg :
  RedisClient ∈ held → Pool ∈ held → Signals ∈ held → leaves held held (build P cfg).
Proof.
  intros Hr Hp Hs. unfold build. destruct (NewMetrics _); [|done]. case_decide; [|by apply leaves_operate].
  apply leaves_do; [done|]. by apply leaves_operate.
Qed.

(** C37: nothing leaks: however the outside answers, [run] itself pings, starts goroutines,
    stops and shuts down only while the resources of that action are open, and when the
    process ends, by a return, an error or a panic, each resource that was opened has been
    closed exactly once, in the reverse order of opening; while the process runs, all of them
    are open.  This is about the actions of [run]: it does not wait for the goroutines it
    started, so they may still use the pool and Redis when these are closed
    ([closed_under_goroutines]). *)
Theorem resources_released :
  match (run P).2 with
  | Running => ∃ s, disciplined [] (run P).1 = Some [RedisClient; Pool; Tracing s; Signals]
  | _ => disciplined [] (run P).1 = Some []
  end.
Proof.
  destruct (Load_spec (pl_getenv P)) as (cfg & Hload & _).
  assert (Hrun : ∃ s, leaves [RedisClient; Pool; Tracing s; Signals] [] (run P)).
  { unfold run. rewrite Hload. cbn [checked].
    destruct (InitTracing (pl_exporter P) (cfg_OTLPEndpoint cfg)) as [s|e] eqn:Ht.
    - exists s. apply leaves_with_resource. cbn [checked]. apply leaves_with_resource, leaves_checked. intros _.
      apply leaves_with_resource, leaves_do; [done|]. apply leaves_checked. intros _.
      apply leaves_with_resource, leaves_do; [done|]. apply leaves_checked. intros _.
      apply leaves_build; set_solver.
    - exists NoTracing. apply leaves_with_resource, leaves_fail. }
  destruct Hrun as [s Hs]. unfold leaves in Hs. destruct (run P).2; [done|done|by exists s].
Qed.

(** ** What is started *)

Lemma started_checked {A} r (c : res A) ctx k :
  Start r ∈ (checked c ctx k).1 → ∃ a, c = Ok a ∧ Start r ∈ (k a).1.
Proof. destruct c; simpl; [by eexists|set_solver]. Qed.

Lemma started_resource r res k : Start r ∈ (with_resource res k).1 → Start r ∈ k.1.
Proof. unfold with_resource, deferred. destruct k as [t []]; simpl; set_solver. Qed.

Lemma started_do r a k : a ≠ Start r → Start r ∈ (do_ a k).1 → Start r ∈ k.1.
Proof. simpl. set_solver. Qed.

Lemma started_routines r (rs : list routine) k :
  Start r ∈ (foldr (λ r, do_ (Start r)) k rs).1 → r ∈ rs ∨ Start r ∈ k.1.
Proof. induction rs as [|r' rs IH]; simpl; [by right|]. intros [[= ->]|[?|?]%IH]%elem_of_cons; set_solver. Qed.

Lemma shutdown_starts_nothing r cfg : Start r ∉ (shutdown_servers P cfg).1.
Proof.
  intros Hs. apply started_do in Hs; [|done]. apply started_checked in Hs as (_ & _ & Hs).
  apply started_do in Hs; [|done]. apply started_checked in Hs as (_ & _ & Hs). by apply elem_of_nil in Hs.
Qed.

Lemma operate_starts r cfg : Start r ∈ (operate P cfg).1 → r ∈ routines P cfg.
Proof.
  intros [?|Hs]%started_routines; [done|]. destruct (await (pl_events P)) as [[err|]|].
  - apply started_do in Hs; [|done]. by apply elem_of_nil in Hs.
  - by apply shutdown_starts_nothing in Hs.
  - by apply elem_of_nil in Hs.
Qed.

Lemma build_starts r cfg : Start r ∈ (build P cfg).1 → any_refused (pl_register P) = false ∧ r ∈ routines P cfg.
Proof.
  unfold build. rewrite NewMetrics_spec. destruct (any_refused _); [by intros ?%elem_of_nil|].
  case_decide; intros Hs; (split; [done|]); [|by apply operate_starts].
  apply started_do in Hs; [|done]. by apply operate_starts.
Qed.

(** The configuration is loaded, tracing is set up, both servers answered, and no metric
    was refused. *)
Record ready (cfg : Config) : Prop := {
  rd_config : Load (pl_getenv P) = Ok cfg;
  rd_tracing : ∃ s, InitTracing (pl_exporter P) (cfg_OTLPEndpoint cfg) = Ok s;
  rd_pool : pl_pool P (cfg_DatabaseURL cfg) = Ok ();
  rd_postgres : pl_postgres P = Ok ();
  rd_redis : pl_redis P = Ok ();
  rd_metrics : any_refused (pl_register P) = false;
}.

Lemma run_starts r : Start r ∈ (run P).1 → ∃ cfg, ready cfg ∧ r ∈ routines P cfg.
Proof.
  intros Hs. apply started_checked in Hs as (cfg & Hload & Hs). apply started_resource in Hs.
  apply started_checked in Hs as (s & Htr & Hs). apply started_resource in Hs.
  apply started_checked in Hs as ([] & Hpool & Hs). apply started_resource in Hs. apply started_do in Hs; [|done].
  apply started_checked in Hs as ([] & Hpg & Hs). apply started_resource in Hs. apply started_do in Hs; [|done].
  apply started_checked in Hs as ([] & Hrd & Hs). apply build_starts in Hs as [Hm Hr].
  exists cfg. split; [|done]. split; try done. by exists s.
Qed.

Lemma routines_wired `{GoArch} `{Binding} cfg r t : r ∈ routines P cfg → spawns r t → goroutine t.
Proof.
  destruct (NewTimer_usable (Some Enqueue) (mkTimerConfig "" 0 0)) as (_ & _ & _ & Henq).
  assert (Hw : wired (wr_timers (wire (pl_host P) (pl_pid P) cfg))) by by right.
  intros Hr Ht. unfold routines in Hr. cbv zeta in Hr.
  destruct Ht as [e|e n t Ht|s events|addr h hd i].
  - apply go_start.
  - apply (go_engine e n); [|done]. assert (e = wr_engine (wire (pl_host P) (pl_pid P) cfg)) as -> by set_solver.
    exact Hw.
  - apply go_timer. assert (s = wr_timers (wire (pl_host P) (pl_pid P) cfg)) as -> by set_solver. exact Hw.
  - apply go_request.
Qed.

(** C38: nothing is served before everything is checked: when [run] starts a goroutine, the
    configuration was loaded, tracing was set up, PostgreSQL and Redis answered and no metric
    was refused; the goroutine is one of the four built from that configuration, and all it
    ever executes are goroutines of the system, so the guarantees of [System] and
    [Refinement] hold for the processes that main.go starts. *)
Theorem starts_when_ready `{GoArch} `{Binding} r :
  Start r ∈ (run P).1 →
  ∃ cfg, ready cfg ∧ r ∈ routines P cfg ∧ ∀ t, spawns r t → goroutine t.
Proof.
  intros (cfg & Hready & Hr)%run_starts. exists cfg. split_and!; [done|done|]. intros t. by apply routines_wired with cfg.
Qed.

(** ** How the process ends *)

Lemma deferred_ending a k : (deferred a k).2 = k.2.
Proof. unfold deferred. by destruct k as [t []]. Qed.
Lemma resource_ending r k : (with_resource r k).2 = k.2.
Proof. apply deferred_ending. Qed.

Lemma checked_clean {A} (r : res A) ctx k :
  (checked r ctx k).2 = Finished None ↔ ∃ a, r = Ok a ∧ (k a).2 = Finished None.
Proof.
  destruct r as [a|e]; simpl.
  - split; [intros Hk; by exists a|]. by intros (b & [= ->] & Hk).
  - split; [done|]. by intros (b & [=] & _).
Qed.

Lemma starting_ending (rs : list routine) k : (foldr (λ r, do_ (Start r)) k rs).2 = k.2.
Proof. by induction rs. Qed.

Lemma shutdown_clean cfg :
  (shutdown_servers P cfg).2 = Finished None ↔ pl_shutdown_api P = Ok () ∧ pl_shutdown_metrics P = Ok ().
Proof.
  unfold shutdown_servers. cbn [do_ snd]. rewrite checked_clean. cbn [do_ snd]. setoid_rewrite checked_clean.
  split; [by intros ([] & ? & [] & ? & _)|]. intros [? ?]. by exists (); split; [|exists ()].
Qed.

Lemma build_clean cfg :
  (build P cfg).2 = Finished None ↔
  any_refused (pl_register P) = false ∧ await (pl_events P) = Some None ∧
  pl_shutdown_api P = Ok () ∧ pl_shutdown_metrics P = Ok ().
Proof.
  unfold build. rewrite NewMetrics_spec. destruct (any_refused _); [by split; [|intros []]|].
  assert (Ho : (operate P cfg).2 = Finished None ↔ await (pl_events P) = Some None ∧
    pl_shutdown_api P = Ok () ∧ pl_shutdown_metrics P = Ok ()).
  { unfold operate. rewrite starting_ending. destruct (await _) as [[err|]|].
    - split; [done|by intros []].
    - rewrite shutdown_clean. naive_solver.
    - split; [done|by intros []]. }
  case_decide; cbn [do_ snd]; rewrite Ho; naive_solver.
Qed.

(** The process ends without error exactly when everything was ready, a signal came before
    any goroutine had failed, and both servers were shut down. *)
Lemma clean_exit :
  (run P).2 = Finished None ↔
  (∃ cfg, ready cfg) ∧ await (pl_events P) = Some None ∧
  pl_shutdown_api P = Ok () ∧ pl_shutdown_metrics P = Ok ().
Proof.
  unfold run. rewrite checked_clean. setoid_rewrite resource_ending. setoid_rewrite checked_clean.
  setoid_rewrite resource_ending. setoid_rewrite checked_clean. setoid_rewrite resource_ending.
  cbn [do_ snd]. setoid_rewrite checked_clean. setoid_rewrite resource_ending. cbn [do_ snd].
  setoid_rewrite checked_clean. setoid_rewrite build_clean. split.
  - intros (cfg & Hl & s & Ht & [] & Hp & [] & Hpg & [] & Hrd & Hm & Ha & Hs).
    split; [|done]. exists cfg. split; try done. by exists s.
  - intros ((cfg & [Hl [s Ht] Hp Hpg Hrd Hm]) & Ha & Hs). naive_solver.
Qed.
End properties.

(** ** Examples *)

#[local] Existing Instance toy_externals.

(** A platform where everything answers, and a signal comes after a server was closed. *)
Definition good_platform : platform :=
  mkPlatform (λ _, "") "host" 1 (λ _, Ok ()) (λ _, Ok ()) (Ok ()) (Ok ()) (λ _, AlreadyRegistered)
    [Ends (ServeMetrics ":9090") (Some (ErrSentinel ErrServerClosed)); Signal] (Ok ()) (Ok ()).

Example good_exit : (run good_platform).2 = Finished None ∧ length (run good_platform).1 = 17.
Proof. vm_compute. done. Qed.

(** Redis does not answer: what was open is closed, and the error is returned. *)
Example redis_down :
  run (mkPlatform (λ _, "") "host" 1 (λ _, Ok ()) (λ _, Ok ()) (Ok ()) (Err (ErrText "refused"))
         (λ _, Registered) [] (Ok ()) (Ok ())) =
  ([Opened Signals; Opened (Tracing NoTracing); Opened Pool; PingPostgres; Opened RedisClient;
    PingRedis (3 * Second); Closed RedisClient; Closed Pool; Closed (Tracing NoTracing); Closed Signals],
   Finished (Some (ErrWrap "ping redis" (ErrText "refused")))).
Proof. vm_compute. reflexivity. Qed.

(** A failing engine stops the process at once: the servers are not shut down. *)
Example engine_fails :
  (run (mkPlatform (λ _, "") "host" 1 (λ _, Ok ()) (λ _, Ok ()) (Ok ()) (Ok ()) (λ _, Registered)
          [Ends (RunEngine demo_engine) (Some (ErrText "no group")); Signal] (Ok ()) (Ok ()))).2 =
  Finished (Some (ErrWrap "engine run" (ErrText "no group"))).
Proof. vm_compute. reflexivity. Qed.

(** After a signal [run] closes Redis and the pool and returns although the engine and the
    timer service, which use both, have been started and have not ended. *)
Example closed_under_goroutines :
  ∃ e s, Start (RunEngine e) ∈ (run good_platform).1 ∧ Start (RunTimers s) ∈ (run good_platform).1 ∧
    (∀ result, Ends (RunEngine e) result ∉ pl_events good_platform ∧ Ends (RunTimers s) result ∉ pl_events good_platform) ∧
    Closed RedisClient ∈ (run good_platform).1 ∧ Closed Pool ∈ (run good_platform).1 ∧
    (run good_platform).2 = Finished None.
Proof.
  eexists _, _. split_and!.
  - apply (list_elem_of_lookup_2 _ 9). vm_compute. reflexivity.
  - apply (list_elem_of_lookup_2 _ 10). vm_compute. reflexivity.
  - intros result. split; intros Hin; repeat (apply elem_of_cons in Hin as [?|Hin]; [done|]); by apply elem_of_nil in Hin.
  - apply (list_elem_of_lookup_2 _ 13). vm_compute. reflexivity.
  - apply (list_elem_of_lookup_2 _ 14). vm_compute. reflexivity.
  - vm_compute. reflexivity.
Qed.

#[local] Instance toy_binding : Binding := {|
  bind_definition _ _ := Err (ErrText "EOF");
  bind_instance _ _ := Err (ErrText "EOF");
|}.

Definition started_routine (i : nat) : routine :=
  match (run good_platform).1 !! i with Some (Start r) => r | _ => ServeMetrics "" end.

(** The engine is started, and the first task it consumes is one of the system. *)
Lemma starts_when_ready_witness :
  ∃ e, started_routine 9 = RunEngine e ∧
    (∃ cfg, ready good_platform cfg ∧ RunEngine e ∈ routines good_platform cfg) ∧
    (∃ t, t ∈ Run_goroutines e 1) ∧ ∀ t, t ∈ Run_goroutines e 1 → goroutine t.
Proof.
  eexists. split; [vm_compute; reflexivity|].
  match goal with |- (∃ cfg, _ ∧ RunEngine ?e ∈ _) ∧ _ =>
    destruct (starts_when_ready good_platform (RunEngine e)) as (cfg & Hready & Hin & Hall) end.
  - apply (list_elem_of_lookup_2 _ 9). vm_compute. reflexivity.
  - split; [exists cfg; split; [exact Hready|exact Hin]|]. split.
    + eexists. apply list_elem_of_here.
    + intros t Ht. apply Hall. exact (spawns_engine _ 1 t Ht).
Defined.
